(* ===== verification/_CoqProject ===== *)
-Q . S2P
Prelude.v
Math128.v
Blake2.v
Blake2xs.v
Sha512.v
Limbs.v
Fe25519.v
FeBytes.v
Sc25519.v
Primes.v
Edwards.v
Ge25519.v
GePoints.v
GeEncoding.v
GeScalar.v
GeTables.v
GeBase.v
Ed25519.v
KeyExchange.v
Encdec.v
Hex.v
Cscrypto.v
StdMap.v
Streams.v
Format.v
Amount.v
Doubles.v
AmountDouble.v
Values.v
Transaction.v
Pool.v
Database.v
Storage.v
DefaultStorage.v
Chain.v
Blockchain.v
Api.v
Contracts.v
Stats.v
Packstream.v
Net.v
Packets.v
Tasks.v
Session.v
Transport.v
Node.v
SharedData.v
SortedSet.v
