(* ===== verification/Prelude.v ===== *)
(** * CS-Node: verification of the CREDITS blockchain node

    CS-Node is a node of a blockchain, written in C++.  Its parts and their
    models, from the bottom up:

    - [csdb], the block database.  Values are written to binary streams
      ([Encdec], [Streams]; numbers and bytes as text in [Format] and [Hex];
      [StdMap] is [std::map]).  Amounts of money are fixed-point numbers
      ([Amount], over the 128-bit integers of [Math128], and [AmountDouble] for
      floating point, over [Doubles]).  A [Transaction] moves
      an amount between addresses ([Values]); a [Pool] is a block of transactions
      with the hash of the block before it.  [Storage] queues blocks and a thread
      writes them to a [Database]; [DefaultStorage] is the one of the process;
      [Chain] has the queries along the chain and the
      wallets.  The value classes are copy-on-write handles ([SharedData]);
      [SortedSet] is a set kept in an array.
    - The hash functions ([Blake2]): BLAKE2s for keys and messages, BLAKE2sp for
      blocks; and BLAKE2Xs, of outputs of any length ([Blake2xs]).
    - [ed25519], the bundled signatures: SHA-512 ([Sha512]), field elements of ten
      limbs ([Fe25519], [FeBytes], over the checked operations of [Limbs]), scalars
      ([Sc25519]), points of the curve and their tables ([Ge25519], [GeTables]), key
      pairs and signatures ([Ed25519]) and the key exchange ([KeyExchange]).
      [Cscrypto] is the C++ and C interface over them, with the generator of seeds.
      The mathematics they implement is [Primes] and [Edwards]: the two primes and
      the group of the curve.
    - [csnode]: [Blockchain] appends blocks and answers for balances; [Packstream]
      writes values into packets; [Node] handles the messages of a round and sends
      its own.
    - [net]: packets with counted pointers ([Packets]), the ring of nodes, the
      counters of seen messages and the collector of fragments ([Net]), messages
      that are sent again ([Tasks]), and the session that receives, forwards and
      sends ([Session]).  [Transport] composes these from node to node.
    - [api], the wallet service: queries ([Api]), smart contracts ([Contracts]) and
      statistics ([Stats]), all over [Blockchain].

    The node appends the blocks it agreed on with [Blockchain.writeLastBlock], which
    seals a pool and queues it in [Storage]; the writer thread puts it into the
    database.  Everything that reads the chain loads one block after the other by
    hash, from the last one backwards.

    ** How the code is modelled

    A file of the development models the files that its head names; a definition
    has the name of the function it models where Rocq allows it, with the class in
    front where names meet ([Pool_compose] is [Pool::compose]).  Classes are records,
    methods are functions from the state to the state; a member function that may
    throw, fail an assertion, or whose behaviour may be undefined, returns [result].
    Bytes are numbers
    from 0 to 255 in lists; machine integers are numbers of [Z] with the conversions
    [u8] to [i64] written out where the code converts or may wrap.  Threads that
    share state are steps of a relation ([Storage.sys_step]), and readings of clocks
    are arguments.

    Code that is not among the sources is a parameter with its documented behaviour
    as hypotheses: Berkeley DB ([Database.BerkeleyDb] and [BerkeleyDbLaws]; a write
    may fail), libsodium's signatures ([Values.Crypto]), LZ4 ([Pool]), the solver ([Node], which
    reaches the private fields of the node through its public operations), the code
    generated by thrift and the executor of contracts ([Contracts]).  Each is
    instantiated by a concrete function in the examples at the end of a file.
    [Storage], [Chain], [Blockchain] and the service are proved against the interface
    [DatabaseLaws], which the driver for Berkeley DB discharges.

    ** What is shown

    - Arithmetic and encodings: the operations on amounts and 128-bit integers are
      the exact ones within their ranges; the amount of a double is within 3.18e-15
      of it; what is written is read back (integers, streams, transactions, pools,
      addresses, hexadecimal text).
    - Hashing: BLAKE2s, BLAKE2sp and BLAKE2Xs, one-shot and streaming, compute the functions of
      the specification, in which a round is stated on the rows and diagonals of a
      matrix; every state is well typed and no copy leaves its array.
    - Signatures: SHA-512 is that of FIPS 180-4, in pieces or at once; field and
      scalar operations return without an overflow, within the bounds that the next
      one needs, and are those modulo 2^255 - 19, proved prime, and modulo the order
      of the base point, proved to be the prime L.  The curve is a group
      ([Edwards.padd_assoc]); the operations of ge.c are its operations
      ([GePoints]); bytes of points are decoded to the point they encode
      ([GeEncoding]); the scalar multiplications with recoded digits are multiples
      ([GeScalar]), for the tables of the source, each entry of which is checked to be
      the multiple it should be ([GeBase]).  So a signature made with a key pair is
      accepted, exactly the signatures that satisfy the equation are, and two
      parties compute the same shared secret; and the keys of a process are a
      function of the second of its first call.
    - Blocks: a sealed pool stays sealed and its transactions are found by their
      identifiers; a signature verifies and binds the signed data.
    - Storage: what was queued, and whose write succeeded, is loaded; the writer never
      sleeps on work, and a reopened storage has the chain it had; draining the queue
      extends the chain up to the first write that fails, and it is stated what is
      left of the chain after a failure, which the code ignores; the queries along the chain are the first match, or the page, of the
      ledger; the balance with its cache is the balance of the whole chain.
    - Network: no packet is freed while a pointer to it exists; a session hands a
      complete message to the node exactly once, whatever the order and number of its
      packets, while it remembers the message: fewer than 1000 packets of other
      messages come after the first one ([Transport.window_fits]; the collector and
      the counters of [Net] forget the oldest); a broadcast reaches the nodes that get
      its datagrams within that window, and a round table is taken over by them;
      tasks are sent again on their schedule, for a clock below 2^57 nanoseconds;
      rounds only advance, up to the end of their 32 bits; operations of the node are
      guarded by its level.
    - Service: pages of transactions and blocks, contracts and statistics are those
      of the chain, and a client's transaction goes to the solver as its request says.
      The contracts on the chain must be readable; an amount that an assertion
      refuses, and blocks dated ahead of the clock, are in the statements.

    Loops without a bound of their own have fuel, and return [None] without it.  The
    walks along the chain need one unit more than there are blocks, or transactions
    where they go from one to the next; the theorems have this as their hypothesis
    and conclude that a result is returned.  The multiplication and division of
    amounts recurse on the signs and have fuel 3, one for each sign and one for the rest.  In
    [Blake2], [Sha512] and [Streams] the length of the input is the fuel, in
    [Blake2xs] that of the output.

    Lemmas named in no theorem list show where the code fails: a wake-up that is
    lost, timeouts that never reset, identifiers printed in one base and read in
    another, and others.

    ** What is not modelled

    - Input and output: sockets, resolver, timers, files, directories, the log, the
      thrift server, the program entry, which only starts the session.
    - Memory and time beyond the model: allocation failures, data races on state that
      the code does not lock, the state after an exception inside a request.
    - Timing: that the code on secret keys takes the same time for all of them.
    - The driver for LevelDB, which does not compile against the interface of the
      database, and third-party code: LevelDB, snappy, thrift, the BLAKE2
      variants with 64-bit words, which are not called.
    - The solver, a binary library. *)

From Stdlib Require Export ZArith Lia Bool.
From stdpp Require Export base tactics numbers list gmap strings sorting.

#[global] Open Scope Z_scope.

(** ** Machine integers *)

(** Unsigned conversion to [w] bits: the C++ conversion rule for [uintN_t]. *)
Definition wrap (w x : Z) : Z := x mod 2 ^ w.

(** Signed conversion to [w] bits, two's complement. *)
Definition swrap (w x : Z) : Z := (x + 2 ^ (w - 1)) mod 2 ^ w - 2 ^ (w - 1).

Definition u8 (x : Z) : Z := wrap 8 x.
Definition u16 (x : Z) : Z := wrap 16 x.
Definition u32 (x : Z) : Z := wrap 32 x.
Definition u64 (x : Z) : Z := wrap 64 x.
Definition i8 (x : Z) : Z := swrap 8 x.
Definition i32 (x : Z) : Z := swrap 32 x.
Definition i64 (x : Z) : Z := swrap 64 x.

(** Values representable at a width. *)
Definition is_unsigned (w x : Z) : Prop := 0 <= x < 2 ^ w.
Definition is_signed (w x : Z) : Prop := - 2 ^ (w - 1) <= x < 2 ^ (w - 1).

Definition is_u8 (x : Z) : Prop := is_unsigned 8 x.
Definition is_u16 (x : Z) : Prop := is_unsigned 16 x.
Definition is_u32 (x : Z) : Prop := is_unsigned 32 x.
Definition is_u64 (x : Z) : Prop := is_unsigned 64 x.
Definition is_i8 (x : Z) : Prop := is_signed 8 x.
Definition is_i32 (x : Z) : Prop := is_signed 32 x.
Definition is_i64 (x : Z) : Prop := is_signed 64 x.

#[export] Instance is_unsigned_dec w x : Decision (is_unsigned w x).
Proof. unfold is_unsigned. apply _. Defined.

#[export] Instance is_signed_dec w x : Decision (is_signed w x).
Proof. unfold is_signed. apply _. Defined.

(** ** Byte strings

    A [std::vector<uint8_t>] (the sources' [byte_array]) and the contents of a
    [std::string] are lists of [Z], each between 0 and 255. *)

Abbreviation byte_array := (list Z) (only parsing).

Definition bytes_ok (l : byte_array) : Prop := Forall is_u8 l.

#[export] Instance bytes_ok_dec l : Decision (bytes_ok l).
Proof. unfold bytes_ok, is_u8. apply _. Defined.

(** The [n] low bytes of [v], least significant first: the object
    representation of an integer on a little-endian platform. *)
Fixpoint le_bytes (n : nat) (v : Z) : byte_array :=
  match n with
  | O => []
  | S n' => v mod 256 :: le_bytes n' (v / 256)
  end.

Fixpoint le_value (l : byte_array) : Z :=
  match l with
  | [] => 0
  | b :: l' => b + 256 * le_value l'
  end.

(** The bytes of a string literal of the sources. *)
Fixpoint str (s : string) : byte_array :=
  match s with
  | EmptyString => []
  | String c s' => Z.of_N (Ascii.N_of_ascii c) :: str s'
  end.

(** Unsigned lexicographical order: [operator<] of [std::vector<uint8_t>] and
    of [std::string], and [std::lexicographical_compare] on bytes. *)
Fixpoint bytes_ltb (a b : byte_array) : bool :=
  match a, b with
  | _, [] => false
  | [], _ :: _ => true
  | x :: a', y :: b' =>
      if x <? y then true else if y <? x then false else bytes_ltb a' b'
  end.

Definition bytes_eqb (a b : byte_array) : bool := bool_decide (a = b).

(** ** Exceptions

    The exceptions the modelled code throws, and the outcome of a function that
    may throw.  Two of them are not exceptions: [undefined_behaviour] stands for an
    access through a null pointer or out of bounds, and for a signed integer that
    overflows; [assertion_failed] is the end of the program by an [assert], in a
    build that has assertions. *)
Inductive exn :=
| invalid_argument
| overflow_error
| out_of_range
| length_error
| assertion_failed
| undefined_behaviour.

Inductive result (A : Type) : Type :=
| Ok (a : A)
| Throw (e : exn).
Arguments Ok {A} a.
Arguments Throw {A} e.

#[export] Instance result_ret : MRet result := λ A a, Ok a.
#[export] Instance result_bind : MBind result := λ A B f r,
  match r with Ok a => f a | Throw e => Throw e end.

#[export] Instance exn_eq_dec : EqDecision exn.
Proof. solve_decision. Defined.

#[export] Instance result_eq_dec {A} `{EqDecision A} : EqDecision (result A).
Proof. solve_decision. Defined.

Lemma bind_Ok {A B} (f : A → result B) a : (Ok a ≫= f) = f a.
Proof. reflexivity. Qed.

Lemma bind_Ok_inv {A B} (f : A → result B) m b : (m ≫= f) = Ok b → ∃ a, m = Ok a ∧ f a = Ok b.
Proof. destruct m as [a|e]; [by exists a|done]. Qed.

Lemma bind_Some' {A B} (f : A → option B) a : (Some a ≫= f) = f a.
Proof. reflexivity. Qed.

(** ** Tactics *)

Create HintDb csdb.

(** Unfold the width predicates and conversions down to arithmetic with
    literal powers of two. *)
Ltac unfold_widths :=
  unfold is_u8, is_u16, is_u32, is_u64, is_i8, is_i32, is_i64 in *;
  unfold u8, u16, u32, u64, i8, i32, i64 in *;
  unfold is_unsigned, is_signed, wrap, swrap in *;
  repeat match goal with
  | |- context [2 ^ (?w - 1)] => let r := eval cbv in (w - 1) in change (w - 1) with r
  | H : context [2 ^ (?w - 1)] |- _ =>
      let r := eval cbv in (w - 1) in change (w - 1) with r in H
  end;
  change (2 ^ 7) with 128 in *; change (2 ^ 8) with 256 in *;
  change (2 ^ 16) with 65536 in *;
  change (2 ^ 31) with 2147483648 in *; change (2 ^ 32) with 4294967296 in *;
  change (2 ^ 63) with 9223372036854775808 in *;
  change (2 ^ 64) with 18446744073709551616 in *.

(** Linear arithmetic after unfolding the widths, with [/] and [mod] by
    literals translated to their equations. *)
Ltac width_lia := unfold_widths; Z.to_euclidean_division_equations; lia.

(** Split every boolean test of the goal, turning comparisons on [Z] into
    hypotheses. *)
Ltac case_test :=
  match goal with
  | |- context [?a =? ?b] => destruct (Z.eqb_spec a b)
  | |- context [?a <? ?b] => destruct (Z.ltb_spec a b)
  | |- context [?a <=? ?b] => destruct (Z.leb_spec a b)
  | |- context [if ?b then _ else _] => destruct b eqn:?
  end.

(** ** Lemmas on widths *)

Lemma wrap_id w x : 0 <= x < 2 ^ w → wrap w x = x.
Proof. intros. unfold wrap. by rewrite Z.mod_small. Qed.

Lemma wrap_range w x : 0 <= w → is_unsigned w (wrap w x).
Proof. intros. unfold is_unsigned, wrap. apply Z.mod_pos_bound. lia. Qed.

Lemma swrap_id w x : 0 < w → is_signed w x → swrap w x = x.
Proof.
  unfold is_signed, swrap. intros Hw Hx.
  assert (2 ^ w = 2 * 2 ^ (w - 1)) as E.
  { rewrite <- Z.pow_succ_r by lia. f_equal. lia. }
  rewrite Z.mod_small; lia.
Qed.

Lemma swrap_range w x : 0 < w → is_signed w (swrap w x).
Proof.
  intros Hw. unfold is_signed, swrap.
  assert (2 ^ w = 2 * 2 ^ (w - 1)) as E.
  { rewrite <- Z.pow_succ_r by lia. f_equal. lia. }
  pose proof (Z.mod_pos_bound (x + 2 ^ (w - 1)) (2 ^ w)). lia.
Qed.

(** Converting to unsigned and back to signed at the same width is the
    identity on signed values: [static_cast<intN_t>(static_cast<uintN_t>(x))]. *)
Lemma swrap_wrap w x : 0 < w → swrap w (wrap w x) = swrap w x.
Proof.
  intros Hw. unfold swrap, wrap. by rewrite Zplus_mod_idemp_l.
Qed.

Lemma wrap_swrap w x : 0 < w → wrap w (swrap w x) = wrap w x.
Proof.
  intros Hw. unfold swrap, wrap.
  rewrite Zminus_mod_idemp_l. f_equal. lia.
Qed.

Lemma u64_id x : is_u64 x → u64 x = x.
Proof. apply wrap_id. Qed.

Lemma u32_id x : is_u32 x → u32 x = x.
Proof. apply wrap_id. Qed.

Lemma i32_id x : is_i32 x → i32 x = x.
Proof. apply swrap_id. lia. Qed.

Lemma i64_id x : is_i64 x → i64 x = x.
Proof. apply swrap_id. lia. Qed.

Lemma u64_range x : is_u64 (u64 x).
Proof. apply wrap_range. lia. Qed.

Lemma u32_range x : is_u32 (u32 x).
Proof. apply wrap_range. lia. Qed.

Lemma i32_range x : is_i32 (i32 x).
Proof. apply swrap_range. lia. Qed.

Lemma i64_range x : is_i64 (i64 x).
Proof. apply swrap_range. lia. Qed.

#[export] Hint Resolve u64_range u32_range i32_range i64_range : csdb.

(** ** Lemmas on byte strings *)

Lemma length_le_bytes n v : length (le_bytes n v) = n.
Proof. revert v. induction n; intros; simpl; auto. Qed.

Lemma le_bytes_ok n v : bytes_ok (le_bytes n v).
Proof.
  revert v. induction n as [|n IH]; intros v; simpl; [constructor|].
  constructor; [|apply IH]. apply (wrap_range 8 v). lia.
Qed.

Lemma le_value_le_bytes n v : le_value (le_bytes n v) = v mod 2 ^ (8 * Z.of_nat n).
Proof.
  revert v. induction n as [|n IH]; intros v; simpl; [by rewrite Z.mod_1_r|].
  rewrite IH, Nat2Z.inj_succ.
  replace (8 * Z.succ (Z.of_nat n)) with (8 + 8 * Z.of_nat n) by lia.
  rewrite Z.pow_add_r by lia. change (2 ^ 8) with 256.
  by rewrite Z.rem_mul_r by lia.
Qed.

Lemma le_value_range l : bytes_ok l → 0 <= le_value l < 2 ^ (8 * Z.of_nat (length l)).
Proof.
  induction 1 as [|b l Hb _ IH]; [done|].
  cbn [le_value length]. rewrite Nat2Z.inj_succ.
  replace (8 * Z.succ (Z.of_nat (length l))) with (8 + 8 * Z.of_nat (length l)) by lia.
  rewrite Z.pow_add_r by lia. change (2 ^ 8) with 256.
  unfold_widths. nia.
Qed.

Lemma le_bytes_le_value l : bytes_ok l → le_bytes (length l) (le_value l) = l.
Proof.
  induction 1 as [|b l Hb _ IH]; [done|]. cbn [le_value length le_bytes].
  unfold_widths. f_equal.
  - rewrite Z.mul_comm, Z.mod_add by lia. apply Z.mod_small. lia.
  - rewrite Z.mul_comm, Z.div_add by lia. rewrite (Z.div_small b) by lia. exact IH.
Qed.

Lemma le_bytes_mod n v : le_bytes n (v mod 2 ^ (8 * Z.of_nat n)) = le_bytes n v.
Proof.
  rewrite <- (le_value_le_bytes n v).
  rewrite <- (length_le_bytes n v) at 1.
  apply le_bytes_le_value, le_bytes_ok.
Qed.

Lemma le_bytes_split n m v : le_bytes (n + m) v = le_bytes n v ++ le_bytes m (v / 2 ^ (8 * Z.of_nat n)).
Proof.
  revert v. induction n as [|n IH]; intros v; [by rewrite Z.div_1_r|]. cbn [le_bytes Nat.add app].
  rewrite IH, Z.div_div by lia. do 3 f_equal.
  replace (8 * Z.of_nat (S n)) with (8 + 8 * Z.of_nat n) by lia. by rewrite Z.pow_add_r by lia.
Qed.

Lemma le_value_app a b :
  le_value (a ++ b) = le_value a + 2 ^ (8 * Z.of_nat (length a)) * le_value b.
Proof.
  induction a as [|x a IH]; cbn [app le_value length]; [lia|].
  rewrite IH, Nat2Z.inj_succ.
  replace (8 * Z.succ (Z.of_nat (length a))) with (8 + 8 * Z.of_nat (length a)) by lia.
  rewrite Z.pow_add_r by lia. change (2 ^ 8) with 256. lia.
Qed.

Lemma rev_replicate {A} n (x : A) : rev (replicate n x) = replicate n x.
Proof. induction n as [|n IH]; [done|]. simpl. rewrite IH. symmetry. apply replicate_S_end. Qed.

Lemma bytes_ok_app a b : bytes_ok (a ++ b) ↔ bytes_ok a ∧ bytes_ok b.
Proof. apply Forall_app. Qed.

Lemma bytes_ok_take n l : bytes_ok l → bytes_ok (take n l).
Proof. apply Forall_take. Qed.

Lemma le_value_drop k s : bytes_ok s → (k <= length s)%nat → le_value (drop k s) = le_value s / 2 ^ (8 * Z.of_nat k).
Proof.
  intros Hok Hk. rewrite <- (take_drop k s) at 2. rewrite le_value_app, length_take, Nat.min_l by done.
  pose proof (le_value_range (take k s) (bytes_ok_take k s Hok)) as R. rewrite length_take, Nat.min_l in R by done.
  rewrite Z.mul_comm, Z.div_add, (Z.div_small (le_value (take k s))) by lia. lia.
Qed.

Lemma bytes_ok_drop n l : bytes_ok l → bytes_ok (drop n l).
Proof. apply Forall_drop. Qed.

Lemma str_ok s : bytes_ok (str s).
Proof.
  induction s as [|c s IH]; simpl; constructor; [|exact IH].
  pose proof (Ascii.N_ascii_bounded c). unfold_widths. lia.
Qed.

#[export] Hint Resolve le_bytes_ok str_ok bytes_ok_take bytes_ok_drop : csdb.

Lemma bytes_eqb_eq a b : bytes_eqb a b = true ↔ a = b.
Proof. apply bool_decide_eq_true. Qed.

Lemma bytes_eqb_refl a : bytes_eqb a a = true.
Proof. by apply bytes_eqb_eq. Qed.

(** The byte order is a strict total order. *)
Lemma bytes_ltb_irrefl a : bytes_ltb a a = false.
Proof. induction a as [|x a IH]; simpl; [done|]. by rewrite Z.ltb_irrefl. Qed.

Lemma bytes_ltb_trans a b c :
  bytes_ltb a b = true → bytes_ltb b c = true → bytes_ltb a c = true.
Proof.
  revert b c. induction a as [|x a IH]; intros [|y b] [|z c]; simpl; try done.
  repeat case_test; try done; try lia.
  assert (x = z) by lia. assert (y = z) by lia. subst. apply IH.
Qed.

Lemma bytes_ltb_total a b : bytes_ltb a b = false → bytes_ltb b a = false → a = b.
Proof.
  revert b. induction a as [|x a IH]; intros [|y b]; simpl; try done.
  repeat case_test; try done; try lia.
  intros. assert (x = y) by lia. subst. f_equal. auto.
Qed.

(** ** Bit operations as arithmetic *)

(** [|] of two words with no common bit is a sum. *)
Lemma lor_add k a b : 0 <= k → 0 <= b < 2 ^ k → Z.lor (a * 2 ^ k) b = a * 2 ^ k + b.
Proof.
  intros Hk Hb. rewrite Z.add_nocarry_lxor, <- Z.lxor_lor; try done;
  apply Z.bits_inj'; intros i Hi; rewrite Z.land_spec, Z.bits_0;
  (destruct (Z.lt_ge_cases i k);
   [rewrite Z.mul_pow2_bits_low by lia; done
   |rewrite <- (Z.mod_small b (2 ^ k)), Z.mod_pow2_bits_high by lia; apply andb_false_r]).
Qed.

Lemma lor_add' k a b : 0 <= k → 0 <= b < 2 ^ k → Z.lor b (a * 2 ^ k) = a * 2 ^ k + b.
Proof. intros. rewrite Z.lor_comm. by apply lor_add. Qed.

Lemma shiftr_div a n : 0 <= n → Z.shiftr a n = a / 2 ^ n.
Proof. intros. by apply Z.shiftr_div_pow2. Qed.

Lemma shiftl_mul a n : 0 <= n → Z.shiftl a n = a * 2 ^ n.
Proof. intros. by apply Z.shiftl_mul_pow2. Qed.

Lemma land_low a n : 0 <= n → Z.land a (Z.ones n) = a mod 2 ^ n.
Proof. intros. by apply Z.land_ones. Qed.

Lemma land_1 a : Z.land a 1 = a mod 2.
Proof. apply (Z.land_ones a 1). lia. Qed.

Lemma mod_shift n k a : 0 <= n → 0 <= k → (a * 2 ^ k) mod 2 ^ (n + k) = a mod 2 ^ n * 2 ^ k.
Proof.
  intros. rewrite Z.pow_add_r by lia. apply Z.mul_mod_distr_r; lia.
Qed.

Lemma add_mod_shift n k a c :
  0 <= n → 0 <= k → 0 <= c < 2 ^ k →
  (a * 2 ^ k + c) mod 2 ^ (n + k) = a mod 2 ^ n * 2 ^ k + c.
Proof.
  intros Hn Hk Hc. symmetry.
  assert (2 ^ (n + k) = 2 ^ n * 2 ^ k) as E by (by rewrite Z.pow_add_r by lia).
  pose proof (Z.mod_pos_bound a (2 ^ n) ltac:(lia)).
  pose proof (Z.div_mod a (2 ^ n) ltac:(lia)).
  apply (Z.mod_unique_pos _ _ (a / 2 ^ n)); nia.
Qed.

Lemma mod_mod_pow2 a m n : 0 <= n <= m → (a mod 2 ^ m) mod 2 ^ n = a mod 2 ^ n.
Proof.
  intros. apply Z.mod_mod_divide.
  exists (2 ^ (m - n)). rewrite <- Z.pow_add_r by lia. f_equal. lia.
Qed.

Lemma nth_le_bytes n i v d :
  (i < n)%nat → nth i (le_bytes n v) d = (v / 256 ^ Z.of_nat i) mod 256.
Proof.
  revert i v. induction n as [|n IH]; intros i v Hi; [lia|].
  destruct i as [|i]; cbn [le_bytes nth]; [by rewrite Z.div_1_r|].
  rewrite IH by lia. rewrite Nat2Z.inj_succ, Z.pow_succ_r, Z.div_div by lia. reflexivity.
Qed.

Lemma top_bit_land v : is_u64 v → (Z.land v 0x8000000000000000 =? 0) = (v <? 2 ^ 63).
Proof.
  intros Hr. destruct (Z.ltb_spec v (2 ^ 63)) as [Hlt|Hge].
  - apply Z.eqb_eq.
    assert (v = Z.land v (Z.ones 63)) as ->.
    { rewrite Z.land_ones, Z.mod_small by (unfold_widths; lia). reflexivity. }
    rewrite <- Z.land_assoc.
    change (Z.land (Z.ones 63) 0x8000000000000000) with 0. by rewrite Z.land_0_r.
  - apply Z.eqb_neq. intros E.
    assert (Z.testbit (Z.land v 0x8000000000000000) 63 = false) as Hb by (by rewrite E).
    rewrite Z.land_spec in Hb. change (Z.testbit 0x8000000000000000 63) with true in Hb.
    rewrite andb_true_r in Hb. apply Z.testbit_false in Hb; [|lia]. width_lia.
Qed.
