(* ===== verification/Math128.v ===== *)
(** * Math128: the 128-bit arithmetic of [csdb/include/csdb/internal/math128ce.h]

    [uint128_t] is a pair of 64-bit words; addition propagates the carry,
    multiplication is the schoolbook product on 32-bit halves, and division by
    a 64-bit word is the bit-serial restoring division written as the recursion
    [div1]/[div2]/[div3].  The theorems relate each operation to the same
    operation of [Z] on the value [lo + 2^64 * hi]. *)

From S2P Require Import Prelude.

(** ** Data and operations *)

Record uint128_t := U128 { lo_ : Z; hi_ : Z }.

Record division64_result := Division64 { quotient_ : uint128_t; remainder_ : Z }.

Definition max64 : Z := 0xFFFFFFFFFFFFFFFF.

(** [uint128_t::operator+(uint64_t)] *)
Definition u128_add64 (a : uint128_t) (summand : Z) : uint128_t :=
  if u64 (max64 - lo_ a) <? summand
  then U128 (u64 (lo_ a - u64 (max64 - summand + 1))) (u64 (hi_ a + 1))
  else U128 (u64 (lo_ a + summand)) (hi_ a).

(** [uint128_t::operator+(const uint128_t&)] *)
Definition u128_add (a summand : uint128_t) : uint128_t :=
  if u64 (max64 - lo_ a) <? lo_ summand
  then U128 (u64 (lo_ a - u64 (max64 - lo_ summand + 1))) (u64 (hi_ a + hi_ summand + 1))
  else U128 (u64 (lo_ a + lo_ summand)) (u64 (hi_ a + hi_ summand)).

Definition u128_mul2 (ac ad bc bd : Z) : uint128_t :=
  u128_add64
    (u128_add64 (U128 bd (u64 (ac + Z.shiftr ad 32 + Z.shiftr bc 32)))
                (u64 (Z.shiftl ad 32)))
    (u64 (Z.shiftl bc 32)).

Definition u128_mul1 (a b c d : Z) : uint128_t :=
  u128_mul2 (u64 (a * c)) (u64 (a * d)) (u64 (b * c)) (u64 (b * d)).

(** [uint128_t::mul] *)
Definition u128_mul (a b : Z) : uint128_t :=
  u128_mul1 (Z.shiftr a 32) (Z.land a 0xFFFFFFFF) (Z.shiftr b 32) (Z.land b 0xFFFFFFFF).

Definition u128_div3 (previous : division64_result) (divisor bit dividend : Z) : division64_result :=
  let q := quotient_ previous in
  if 0 =? Z.land 0x8000000000000000 (remainder_ previous)
  then Division64 (U128 (u64 (lo_ q + (if dividend <? divisor then 0 else bit))) (hi_ q))
                  (dividend mod divisor)
  else Division64 (U128 (u64 (lo_ q + bit)) (hi_ q))
                  (u64 (max64 - divisor + dividend + 1)).

Definition u128_div2 (self : uint128_t) (previous : division64_result) (divisor : Z) (shift : nat) : division64_result :=
  u128_div3 previous divisor (u64 (Z.shiftl 1 (Z.of_nat shift)))
    (u64 (u64 (Z.shiftl (remainder_ previous) 1)
          + Z.land (Z.shiftr (lo_ self) (Z.of_nat shift)) 1)).

Fixpoint u128_div1 (self : uint128_t) (previous : division64_result) (divisor : Z) (shift : nat) : division64_result :=
  match shift with
  | O => u128_div2 self previous divisor 0
  | S shift' => u128_div1 self (u128_div2 self previous divisor (S shift')) divisor shift'
  end.

(** [uint128_t::div]: throws on a zero divisor. *)
Definition u128_div (self : uint128_t) (divisor : Z) : result division64_result :=
  if 0 =? divisor then Throw overflow_error
  else if 1 =? divisor then Ok (Division64 self 0)
  else Ok (u128_div1 self
             (Division64 (U128 0 (hi_ self / divisor)) (hi_ self mod divisor)) divisor 63).

(** ** Specification *)

(** The number a [uint128_t] stands for. *)
Definition u128_value (a : uint128_t) : Z := lo_ a + 2 ^ 64 * hi_ a.

Definition u128_ok (a : uint128_t) : Prop := is_u64 (lo_ a) ∧ is_u64 (hi_ a).

#[export] Instance uint128_eq_dec : EqDecision uint128_t.
Proof. solve_decision. Defined.

#[export] Instance division64_result_eq_dec : EqDecision division64_result.
Proof. solve_decision. Defined.

(** ** Addition *)

Lemma u128_add64_as_add a s :
  u128_ok a → u128_add64 a s = u128_add a (U128 s 0).
Proof.
  intros [_ Hh]. unfold u128_add64, u128_add; cbn [lo_ hi_].
  rewrite !Z.add_0_r, (u64_id (hi_ a)) by exact Hh. reflexivity.
Qed.

Lemma u128_add_ok a b : u128_ok (u128_add a b).
Proof. unfold u128_add. case_test; split; apply u64_range. Qed.

(** Addition is addition of the values modulo 2^128. *)
Lemma u128_add_value a b :
  u128_ok a → u128_ok b →
  u128_value (u128_add a b) = (u128_value a + u128_value b) mod 2 ^ 128.
Proof.
  destruct a as [la ha], b as [lb hb]. unfold u128_ok, u128_value, u128_add, max64; cbn [lo_ hi_].
  intros [H1 H2] [H3 H4].
  change (2 ^ 128) with (18446744073709551616 * 18446744073709551616).
  rewrite (u64_id (_ - la)) by (unfold_widths; lia).
  case_test; cbn [lo_ hi_]; unfold_widths.
  - rewrite (Z.mod_small (_ - lb + 1)) by lia.
    rewrite (Z.mod_small (la - _)) by lia.
    Z.to_euclidean_division_equations; nia.
  - rewrite (Z.mod_small (la + lb)) by lia.
    Z.to_euclidean_division_equations; nia.
Qed.

(** ** Multiplication *)

Lemma split32 a : is_u64 a → ∃ h l,
  Z.shiftr a 32 = h ∧ Z.land a 0xFFFFFFFF = l ∧ a = 4294967296 * h + l ∧ is_u32 h ∧ is_u32 l.
Proof.
  intros Ha. exists (Z.shiftr a 32), (Z.land a 0xFFFFFFFF).
  change 0xFFFFFFFF with (Z.ones 32).
  rewrite Z.shiftr_div_pow2, Z.land_ones by lia.
  repeat split; try reflexivity; width_lia.
Qed.

Lemma u128_add64_nocarry a s :
  u128_ok a → is_u64 s → u128_value a + s < 2 ^ 128 →
  u128_ok (u128_add64 a s) ∧ u128_value (u128_add64 a s) = u128_value a + s.
Proof.
  intros Ha Hs Hlt. rewrite u128_add64_as_add by exact Ha.
  split; [apply u128_add_ok|].
  assert (u128_ok (U128 s 0)) as Hb by (split; [exact Hs|]; split; done).
  rewrite u128_add_value by assumption.
  assert (u128_value (U128 s 0) = s) as -> by (unfold u128_value; simpl; lia).
  apply Z.mod_small. split; [|exact Hlt].
  unfold u128_ok, u128_value in *. unfold_widths. lia.
Qed.

Lemma u128_mul2_value ac ad bc bd :
  0 <= ac <= 4294967295 * 4294967295 → 0 <= ad <= 4294967295 * 4294967295 →
  0 <= bc <= 4294967295 * 4294967295 → 0 <= bd <= 4294967295 * 4294967295 →
  2 ^ 64 * ac + 2 ^ 32 * (ad + bc) + bd < 2 ^ 128 →
  u128_ok (u128_mul2 ac ad bc bd) ∧
  u128_value (u128_mul2 ac ad bc bd) = 2 ^ 64 * ac + 2 ^ 32 * (ad + bc) + bd.
Proof.
  intros Hac Had Hbc Hbd Hlt. unfold u128_mul2.
  rewrite !Z.shiftr_div_pow2, !Z.shiftl_mul_pow2 by lia.
  change (2 ^ 32) with 4294967296 in *. change (2 ^ 64) with 18446744073709551616 in *.
  change (2 ^ 128) with 340282366920938463463374607431768211456 in *.
  assert (Had' : u64 (ad * 4294967296) = (ad mod 4294967296) * 4294967296) by width_lia.
  assert (Hbc' : u64 (bc * 4294967296) = (bc mod 4294967296) * 4294967296) by width_lia.
  rewrite Had', Hbc'.
  pose proof (Z.div_mod ad 4294967296). pose proof (Z.div_mod bc 4294967296).
  pose proof (Z.mod_pos_bound ad 4294967296). pose proof (Z.mod_pos_bound bc 4294967296).
  assert (Hhi : u64 (ac + ad / 4294967296 + bc / 4294967296)
          = ac + ad / 4294967296 + bc / 4294967296) by (apply u64_id; unfold_widths; lia).
  rewrite Hhi.
  set (b0 := U128 _ _).
  assert (u128_ok b0) by (unfold b0, u128_ok; cbn [lo_ hi_]; unfold_widths; lia).
  assert (u128_value b0 = bd + 18446744073709551616 * (ac + ad / 4294967296 + bc / 4294967296)) as V0
    by reflexivity.
  destruct (u128_add64_nocarry b0 (ad mod 4294967296 * 4294967296)) as [O1 V1];
    [assumption|unfold_widths; lia|rewrite V0; change (2 ^ 128) with 340282366920938463463374607431768211456; lia|].
  destruct (u128_add64_nocarry (u128_add64 b0 (ad mod 4294967296 * 4294967296))
              (bc mod 4294967296 * 4294967296)) as [O2 V2];
    [assumption|unfold_widths; lia|rewrite V1, V0; change (2 ^ 128) with 340282366920938463463374607431768211456; lia|].
  split; [exact O2|]. rewrite V2, V1, V0. lia.
Qed.

(** The product of two 64-bit words is exact. *)
Lemma u128_mul_value a b :
  is_u64 a → is_u64 b →
  u128_ok (u128_mul a b) ∧ u128_value (u128_mul a b) = a * b.
Proof.
  intros Ha Hb.
  destruct (split32 a Ha) as (ah & al & E1 & E2 & -> & Hah & Hal).
  destruct (split32 b Hb) as (bh & bl & E3 & E4 & -> & Hbh & Hbl).
  unfold u128_mul, u128_mul1. rewrite E1, E2, E3, E4. clear E1 E2 E3 E4.
  assert (P : ∀ x y, is_u32 x → is_u32 y → 0 <= x * y <= 4294967295 * 4294967295).
  { intros x y Hx Hy. unfold_widths.
    split; [lia|apply Z.mul_le_mono_nonneg; lia]. }
  pose proof (P ah bh Hah Hbh). pose proof (P ah bl Hah Hbl).
  pose proof (P al bh Hal Hbh). pose proof (P al bl Hal Hbl).
  rewrite !u64_id by (unfold_widths; lia).
  assert (M : (4294967296 * ah + al) * (4294967296 * bh + bl)
              = 18446744073709551616 * (ah * bh) + 4294967296 * (ah * bl + al * bh) + al * bl) by ring.
  assert (L : (4294967296 * ah + al) * (4294967296 * bh + bl)
              <= 18446744073709551615 * 18446744073709551615).
  { unfold_widths. apply Z.mul_le_mono_nonneg; lia. }
  rewrite M in L. rewrite M.
  destruct (u128_mul2_value (ah * bh) (ah * bl) (al * bh) (al * bl)) as [O V]; try lia.
  split; [exact O|exact V].
Qed.

(** ** Division *)

(** [hi mod divisor] followed by the bits of [lo] above position [n]: what the
    loop has consumed when [n] bits remain. *)
Definition div_prefix (self : uint128_t) (divisor : Z) (n : nat) : Z :=
  (hi_ self mod divisor) * 2 ^ (64 - Z.of_nat n) + lo_ self / 2 ^ Z.of_nat n.

(** The loop invariant of [div1] with [n] bits still to process. *)
Definition div_inv (self : uint128_t) (divisor : Z) (n : nat) (p : division64_result) : Prop :=
  hi_ (quotient_ p) = hi_ self / divisor ∧
  0 <= remainder_ p < divisor ∧
  ∃ q, lo_ (quotient_ p) = q * 2 ^ Z.of_nat n ∧ 0 <= q ∧
       div_prefix self divisor n = q * divisor + remainder_ p.

Lemma div_prefix_step self d n :
  (n < 64)%nat →
  div_prefix self d n
  = 2 * div_prefix self d (S n) + (lo_ self / 2 ^ Z.of_nat n) mod 2.
Proof.
  intros Hn. unfold div_prefix. rewrite Nat2Z.inj_succ.
  replace (64 - Z.of_nat n) with (Z.succ (64 - Z.succ (Z.of_nat n))) by lia.
  rewrite !Z.pow_succ_r by lia.
  rewrite (Z.mul_comm 2 (2 ^ Z.of_nat n)), <- Z.div_div by lia.
  pose proof (Z.div_mod (lo_ self / 2 ^ Z.of_nat n) 2). lia.
Qed.

Lemma div_prefix_bound self d n :
  is_u64 (lo_ self) → 0 < d → (n <= 64)%nat →
  div_prefix self d n < d * 2 ^ (64 - Z.of_nat n).
Proof.
  intros Hlo Hd Hn. unfold div_prefix.
  pose proof (Z.mod_pos_bound (hi_ self) d Hd).
  assert (lo_ self / 2 ^ Z.of_nat n < 2 ^ (64 - Z.of_nat n)).
  { apply Z.div_lt_upper_bound; [lia|].
    rewrite <- Z.pow_add_r by lia.
    replace (Z.of_nat n + (64 - Z.of_nat n)) with 64 by lia. apply Hlo. }
  nia.
Qed.

Lemma top_bit_test r : is_u64 r → (0 =? Z.land 0x8000000000000000 r) = (r <? 2 ^ 63).
Proof. intros. rewrite Z.eqb_sym, Z.land_comm. by apply top_bit_land. Qed.

Lemma u128_div3_value p d bit dividend rem2 :
  0 < d → is_u64 d → 0 <= remainder_ p < d → rem2 = 0 ∨ rem2 = 1 →
  dividend = u64 (u64 (2 * remainder_ p) + rem2) →
  is_u64 (lo_ (quotient_ p) + bit) → is_u64 (lo_ (quotient_ p)) →
  let D := 2 * remainder_ p + rem2 in
  u128_div3 p d bit dividend
  = Division64 (U128 (lo_ (quotient_ p) + (if D <? d then 0 else bit)) (hi_ (quotient_ p)))
               (if D <? d then D else D - d).
Proof.
  intros Hd Hdu Hr Hb -> Hq Hq0 D. unfold u128_div3, max64.
  rewrite top_bit_test by (unfold_widths; lia).
  case_test.
  - assert (u64 (u64 (2 * remainder_ p) + rem2) = D) as ->.
    { rewrite (u64_id (2 * _)) by (unfold_widths; lia). apply u64_id. unfold D. unfold_widths. lia. }
    destruct (Z.ltb_spec D d) as [HD|HD].
    + rewrite Z.add_0_r, u64_id by exact Hq0. by rewrite Z.mod_small by (unfold D; lia).
    + rewrite u64_id by exact Hq. f_equal.
      symmetry. apply (Z.mod_unique_pos _ _ 1); unfold D in *; lia.
  - assert ((D <? d) = false) as -> by (unfold D; unfold_widths; lia).
    rewrite u64_id by exact Hq. f_equal.
    unfold D. width_lia.
Qed.

(** One iteration of the loop preserves the invariant. *)
Lemma u128_div2_inv self d n p :
  u128_ok self → is_u64 d → 1 < d → (n < 64)%nat →
  div_inv self d (S n) p → div_inv self d n (u128_div2 self p d n).
Proof.
  intros [Hlo Hhi] Hd Hd1 Hn (Eh & Hr & q & Eq & Hq & Ep).
  pose proof (div_prefix_step self d n Hn) as Hs.
  pose proof (div_prefix_bound self d (S n) Hlo ltac:(lia) ltac:(lia)) as Hb.
  set (b := (lo_ self / 2 ^ Z.of_nat n) mod 2) in *.
  assert (Hb01 : b = 0 ∨ b = 1).
  { pose proof (Z.mod_pos_bound (lo_ self / 2 ^ Z.of_nat n) 2). unfold b. lia. }
  rewrite Nat2Z.inj_succ in *. rewrite Z.pow_succ_r in Eq by lia.
  set (k := 64 - Z.succ (Z.of_nat n)) in *.
  assert (E64 : 2 ^ 64 = 2 * 2 ^ Z.of_nat n * 2 ^ k).
  { rewrite <- Z.pow_succ_r, <- Z.pow_add_r by lia. f_equal. lia. }
  assert (Hp : 0 < 2 ^ Z.of_nat n) by lia.
  assert (Hqk : q + 1 <= 2 ^ k) by nia.
  assert (Hlt : 2 * 2 ^ Z.of_nat n * (q + 1) <= 2 ^ 64).
  { rewrite E64. apply Z.mul_le_mono_nonneg_l; lia. }
  set (D := 2 * remainder_ p + b).
  assert (Epn : div_prefix self d n = 2 * q * d + D) by (unfold D; lia).
  assert (Hqp : 0 <= q * (2 * 2 ^ Z.of_nat n)) by nia.
  unfold u128_div2.
  rewrite (Z.shiftl_mul_pow2 1), Z.mul_1_l by lia.
  rewrite (Z.shiftl_mul_pow2 (remainder_ p)), (Z.mul_comm _ (2 ^ 1)) by lia.
  rewrite Z.shiftr_div_pow2 by lia. change (Z.land ?x 1) with (Z.land x (Z.ones 1)).
  rewrite Z.land_ones by lia. change (2 ^ 1) with 2. fold b.
  rewrite (u64_id (2 ^ Z.of_nat n)) by (unfold is_u64, is_unsigned; nia).
  rewrite (u128_div3_value p d (2 ^ Z.of_nat n) _ b); try reflexivity; try assumption; try lia.
  - fold D. split; [exact Eh|]. cbn [quotient_ remainder_ lo_].
    split; [destruct (Z.ltb_spec D d); unfold D in *; lia|].
    exists (2 * q + (if D <? d then 0 else 1)).
    rewrite Eq, Epn. destruct (D <? d); split; try split; lia.
  - unfold is_u64, is_unsigned. lia.
  - unfold is_u64, is_unsigned. lia.
Qed.

Lemma u128_div1_inv self d n p :
  u128_ok self → is_u64 d → 1 < d → (n < 64)%nat →
  div_inv self d (S n) p → div_inv self d 0 (u128_div1 self p d n).
Proof.
  intros Hs Hd Hd1. revert p. induction n as [|n IH]; intros p Hn Hi; simpl.
  - by apply u128_div2_inv.
  - apply IH; [lia|]. by apply u128_div2_inv.
Qed.

(** Division by a non-zero word returns the exact quotient and remainder. *)
Lemma u128_div_value a d :
  u128_ok a → is_u64 d → d ≠ 0 →
  ∃ q r, u128_div a d = Ok (Division64 q r) ∧ u128_ok q ∧
         u128_value q = u128_value a / d ∧ r = u128_value a mod d.
Proof.
  intros Ha Hd Hd0. unfold u128_div.
  destruct (Z.eqb_spec 0 d); [lia|]. destruct (Z.eqb_spec 1 d) as [<-|].
  { exists a, 0. rewrite Z.div_1_r, Z.mod_1_r. auto. }
  assert (1 < d) as Hd1 by (unfold_widths; lia).
  set (p0 := Division64 _ _).
  assert (div_inv a d 64 p0) as H0.
  { split; [reflexivity|]. split; [apply Z.mod_pos_bound; lia|].
    exists 0. split; [reflexivity|]. split; [lia|]. unfold div_prefix. simpl.
    rewrite Z.mul_1_r, (Z.div_small (lo_ a)) by apply Ha. lia. }
  destruct (u128_div1_inv a d 63 p0 Ha Hd Hd1 ltac:(lia) H0) as (Eh & Hr & q & Eq & Hq & Ep).
  pose proof (div_prefix_bound a d 0 (proj1 Ha) ltac:(lia) ltac:(lia)) as Hb.
  destruct (u128_div1 a p0 d 63) as [[ql qh] r]; cbn [quotient_ remainder_ lo_ hi_] in *.
  unfold div_prefix in *. simpl in *. rewrite Z.div_1_r, Z.mul_1_r in *. subst ql qh.
  destruct Ha as [Hlo Hhi]. unfold is_u64, is_unsigned, u128_value, u128_ok in *; cbn [lo_ hi_].
  pose proof (Z.div_mod (hi_ a) d ltac:(lia)).
  pose proof (Z.div_pos (hi_ a) d ltac:(lia) ltac:(lia)).
  pose proof (Z.div_le_upper_bound (hi_ a) d (hi_ a) ltac:(lia) ltac:(nia)).
  eexists _, _. split; [reflexivity|]. cbn [lo_ hi_].
  assert (q < 2 ^ 64) by nia.
  split; [unfold is_u64, is_unsigned; split; lia|].
  assert (E : lo_ a + 2 ^ 64 * hi_ a = d * (q + 2 ^ 64 * (hi_ a / d)) + r) by nia.
  split; [apply (Z.div_unique_pos _ _ _ r)|apply (Z.mod_unique_pos _ _ (q + 2 ^ 64 * (hi_ a / d)))]; lia.
Qed.

#[export] Hint Resolve u128_add_ok : csdb.

(** ** Properties *)

(** [uint128_t::mul] is exact: for any two 64-bit words the schoolbook
    product on 32-bit halves, with its two carry-propagating additions, returns
    a well-formed 128-bit word whose value is the mathematical product. *)
Theorem u128_mul_exact a b :
  is_u64 a → is_u64 b →
  u128_ok (u128_mul a b) ∧ u128_value (u128_mul a b) = a * b.
Proof. apply u128_mul_value. Qed.

Lemma u128_mul_exact_witness :
  u128_value (u128_mul 0xFFFFFFFFFFFFFFFF 0xFFFFFFFFFFFFFFFF)
  = 0xFFFFFFFFFFFFFFFF * 0xFFFFFFFFFFFFFFFF.
Proof. apply u128_mul_exact; vm_compute; split; discriminate || reflexivity. Defined.

(** [uint128_t::div] is correct on every divisor: it throws
    [std::overflow_error] exactly when the divisor is zero, and otherwise the
    64-step restoring division returns the exact quotient (as a well-formed
    128-bit word) and the exact remainder, also when the divisor has its top
    bit set and the intermediate dividend overflows 64 bits. *)
Theorem u128_div_correct a d :
  u128_ok a → is_u64 d →
  match u128_div a d with
  | Ok (Division64 q r) =>
      d ≠ 0 ∧ u128_ok q ∧ u128_value q = u128_value a / d ∧ r = u128_value a mod d
  | Throw e => d = 0 ∧ e = overflow_error
  end.
Proof.
  intros Ha Hd. destruct (decide (d = 0)) as [->|Hd0]; [done|].
  destruct (u128_div_value a d Ha Hd Hd0) as (q & r & -> & ? & ? & ?). auto.
Qed.

Lemma u128_div_correct_witness :
  match u128_div (U128 5 0xFFFFFFFFFFFFFFFF) 0xF000000000000001 with
  | Ok (Division64 q r) =>
      u128_value q = (5 + 2 ^ 64 * 0xFFFFFFFFFFFFFFFF) / 0xF000000000000001
  | Throw _ => False
  end.
Proof.
  pose proof (u128_div_correct (U128 5 0xFFFFFFFFFFFFFFFF) 0xF000000000000001) as H.
  assert (u128_ok (U128 5 0xFFFFFFFFFFFFFFFF)) as H1 by (vm_compute; intuition discriminate).
  assert (is_u64 0xF000000000000001) as H2 by (vm_compute; intuition discriminate).
  specialize (H H1 H2). destruct u128_div as [[q r]|]; [apply H|]. destruct H; discriminate.
Defined.
