(* ===== verification/Blake2.v ===== *)
(** * Blake2: the hash functions of the node

    Models [blake2/ref/blake2s-ref.c], [blake2/ref/blake2sp-ref.c], the helpers
    of [blake2/ref/blake2-impl.h] they use and the wrapper of
    [crypto/src/cscrypto.cpp] and [csdb/src/priv_crypto.cpp].  The structures
    are records with the arrays as lists, and a copy that would leave its array
    has the outcome [undefined_behaviour].  The theorems show that neither
    function ever does that, that both compute the function of the BLAKE2
    specification (a chain of compressions for BLAKE2s, a tree of eight leaves
    for BLAKE2sp), and that the streaming interface gives the same digest
    however the message is cut. *)

From S2P Require Import Prelude.

(** ** Words and arrays *)

(** An element of an array.  The code reads arrays whose lengths are fixed by
    their types at indices below these lengths; a list that is shorter reads as 0,
    so reads of elements are not checked.  Copies into buffers and the positions in
    them are. *)
Definition at_word (l : list Z) (i : nat) : Z := nth i l 0.

Definition load32 (p : byte_array) : Z :=
  Z.lor (Z.lor (Z.lor (Z.shiftl (at_word p 0) 0) (Z.shiftl (at_word p 1) 8))
               (Z.shiftl (at_word p 2) 16)) (Z.shiftl (at_word p 3) 24).

Definition store16 (w : Z) : byte_array := [u8 w; u8 (Z.shiftr w 8)].

Definition store32 (w : Z) : byte_array :=
  [u8 (Z.shiftr w 0); u8 (Z.shiftr w 8); u8 (Z.shiftr w 16); u8 (Z.shiftr w 24)].

Definition rotr32 (w c : Z) : Z := Z.lor (Z.shiftr w c) (u32 (Z.shiftl w (32 - c))).

(** [memcpy(dst + off, src, n)] into an array, with [src] the bytes copied. *)
Definition memcpy (dst : byte_array) (off : nat) (src : byte_array) : result byte_array :=
  if (off + length src <=? length dst)%nat
  then Ok (take off dst ++ src ++ drop (off + length src) dst)
  else Throw undefined_behaviour.

(** [n] bytes read from [src + off]. *)
Definition bytes_at (src : byte_array) (off n : nat) : result byte_array :=
  if (off + n <=? length src)%nat then Ok (take n (drop off src)) else Throw undefined_behaviour.

(** ** BLAKE2s *)

Definition BLAKE2S_BLOCKBYTES : nat := 64.
Definition BLAKE2S_OUTBYTES : nat := 32.
Definition BLAKE2S_KEYBYTES : nat := 32.

Definition blake2s_IV : list Z :=
  [0x6A09E667; 0xBB67AE85; 0x3C6EF372; 0xA54FF53A;
   0x510E527F; 0x9B05688C; 0x1F83D9AB; 0x5BE0CD19].

Definition blake2s_sigma : list (list nat) :=
  [[ 0;  1;  2;  3;  4;  5;  6;  7;  8;  9; 10; 11; 12; 13; 14; 15];
   [14; 10;  4;  8;  9; 15; 13;  6;  1; 12;  0;  2; 11;  7;  5;  3];
   [11;  8; 12;  0;  5;  2; 15; 13; 10; 14;  3;  6;  7;  1;  9;  4];
   [ 7;  9;  3;  1; 13; 12; 11; 14;  2;  6;  5; 10;  4;  0; 15;  8];
   [ 9;  0;  5;  7;  2;  4; 10; 15; 14;  1; 11; 12;  6;  8;  3; 13];
   [ 2; 12;  6; 10;  0; 11;  8;  3;  4; 13;  7;  5; 15; 14;  1;  9];
   [12;  5;  1; 15; 14; 13;  4; 10;  0;  7;  6;  3;  9;  2;  8; 11];
   [13; 11;  7; 14; 12;  1;  3;  9;  5;  0; 15;  4;  8;  6;  2; 10];
   [ 6; 15; 14;  9; 11;  3;  0;  8; 12;  2; 13;  7;  1;  4; 10;  5];
   [10;  2;  8;  4;  7;  6;  1;  5; 15; 11;  9; 14;  3; 12; 13;  0]]%nat.

Record blake2s_state := {
  b2_h : list Z;
  b2_t0 : Z;
  b2_t1 : Z;
  b2_f0 : Z;
  b2_f1 : Z;
  b2_buf : byte_array;
  b2_buflen : nat;
  b2_outlen : nat;
  b2_last_node : Z;
}.

Record blake2s_param := {
  p_digest_length : Z;
  p_key_length : Z;
  p_fanout : Z;
  p_depth : Z;
  p_leaf_length : byte_array;
  p_node_offset : byte_array;
  p_xof_length : byte_array;
  p_node_depth : Z;
  p_inner_length : Z;
  p_salt : byte_array;
  p_personal : byte_array;
}.

(** The object representation of the packed structure. *)
Definition param_bytes (P : blake2s_param) : byte_array :=
  [p_digest_length P; p_key_length P; p_fanout P; p_depth P]
  ++ p_leaf_length P ++ p_node_offset P ++ p_xof_length P
  ++ [p_node_depth P; p_inner_length P] ++ p_salt P ++ p_personal P.

Definition set_h (h : list Z) (S : blake2s_state) : blake2s_state :=
  {| b2_h := h; b2_t0 := b2_t0 S; b2_t1 := b2_t1 S; b2_f0 := b2_f0 S; b2_f1 := b2_f1 S;
     b2_buf := b2_buf S; b2_buflen := b2_buflen S; b2_outlen := b2_outlen S;
     b2_last_node := b2_last_node S |}.

Definition set_flags (f0 f1 : Z) (S : blake2s_state) : blake2s_state :=
  {| b2_h := b2_h S; b2_t0 := b2_t0 S; b2_t1 := b2_t1 S; b2_f0 := f0; b2_f1 := f1;
     b2_buf := b2_buf S; b2_buflen := b2_buflen S; b2_outlen := b2_outlen S;
     b2_last_node := b2_last_node S |}.

Definition set_buf (buf : byte_array) (buflen : nat) (S : blake2s_state) : blake2s_state :=
  {| b2_h := b2_h S; b2_t0 := b2_t0 S; b2_t1 := b2_t1 S; b2_f0 := b2_f0 S; b2_f1 := b2_f1 S;
     b2_buf := buf; b2_buflen := buflen; b2_outlen := b2_outlen S;
     b2_last_node := b2_last_node S |}.

Definition set_outlen (outlen : nat) (S : blake2s_state) : blake2s_state :=
  {| b2_h := b2_h S; b2_t0 := b2_t0 S; b2_t1 := b2_t1 S; b2_f0 := b2_f0 S; b2_f1 := b2_f1 S;
     b2_buf := b2_buf S; b2_buflen := b2_buflen S; b2_outlen := outlen;
     b2_last_node := b2_last_node S |}.

Definition set_last_node (S : blake2s_state) : blake2s_state :=
  {| b2_h := b2_h S; b2_t0 := b2_t0 S; b2_t1 := b2_t1 S; b2_f0 := b2_f0 S; b2_f1 := b2_f1 S;
     b2_buf := b2_buf S; b2_buflen := b2_buflen S; b2_outlen := b2_outlen S;
     b2_last_node := 1 |}.

Definition blake2s_is_lastblock (S : blake2s_state) : bool := negb (b2_f0 S =? 0).

Definition blake2s_set_lastnode (S : blake2s_state) : blake2s_state :=
  set_flags (b2_f0 S) (u32 (-1)) S.

Definition blake2s_set_lastblock (S : blake2s_state) : blake2s_state :=
  let S := if b2_last_node S =? 0 then S else blake2s_set_lastnode S in
  set_flags (u32 (-1)) (b2_f1 S) S.

Definition blake2s_increment_counter (S : blake2s_state) (inc : Z) : blake2s_state :=
  let t0 := u32 (b2_t0 S + inc) in
  {| b2_h := b2_h S; b2_t0 := t0; b2_t1 := u32 (b2_t1 S + (if t0 <? inc then 1 else 0));
     b2_f0 := b2_f0 S; b2_f1 := b2_f1 S; b2_buf := b2_buf S; b2_buflen := b2_buflen S;
     b2_outlen := b2_outlen S; b2_last_node := b2_last_node S |}.

Definition blake2s_init0 : blake2s_state :=
  {| b2_h := blake2s_IV; b2_t0 := 0; b2_t1 := 0; b2_f0 := 0; b2_f1 := 0;
     b2_buf := replicate BLAKE2S_BLOCKBYTES 0; b2_buflen := 0; b2_outlen := 0;
     b2_last_node := 0 |}.

Definition blake2s_init_param (P : blake2s_param) : blake2s_state :=
  let p := param_bytes P in
  let h := imap (λ i w, Z.lxor w (load32 (drop (i * 4) p))) (b2_h blake2s_init0) in
  set_outlen (Z.to_nat (p_digest_length P)) (set_h h blake2s_init0).

(** One quarter round on the words [a], [b], [c], [d] of [v]. *)
Definition G (r i a b c d : nat) (m v : list Z) : list Z :=
  let s k := at_word m (nth k (nth r blake2s_sigma []) 0%nat) in
  let v := <[a := u32 (at_word v a + at_word v b + s (2 * i + 0)%nat)]> v in
  let v := <[d := rotr32 (Z.lxor (at_word v d) (at_word v a)) 16]> v in
  let v := <[c := u32 (at_word v c + at_word v d)]> v in
  let v := <[b := rotr32 (Z.lxor (at_word v b) (at_word v c)) 12]> v in
  let v := <[a := u32 (at_word v a + at_word v b + s (2 * i + 1)%nat)]> v in
  let v := <[d := rotr32 (Z.lxor (at_word v d) (at_word v a)) 8]> v in
  let v := <[c := u32 (at_word v c + at_word v d)]> v in
  <[b := rotr32 (Z.lxor (at_word v b) (at_word v c)) 7]> v.

Definition ROUND (m : list Z) (v : list Z) (r : nat) : list Z :=
  let v := G r 0 0 4  8 12 m v in
  let v := G r 1 1 5  9 13 m v in
  let v := G r 2 2 6 10 14 m v in
  let v := G r 3 3 7 11 15 m v in
  let v := G r 4 0 5 10 15 m v in
  let v := G r 5 1 6 11 12 m v in
  let v := G r 6 2 7  8 13 m v in
  G r 7 3 4 9 14 m v.

Definition message_words (inp : byte_array) : list Z := (λ i, load32 (drop (i * 4) inp)) <$> seq 0 16.

(** The words [h] after the compression of a block. *)
Definition compress (h : list Z) (t0 t1 f0 f1 : Z) (inp : byte_array) : list Z :=
  let m := message_words inp in
  let iv := at_word blake2s_IV in
  let v := take 8 h ++ [iv 0%nat; iv 1%nat; iv 2%nat; iv 3%nat;
                 Z.lxor t0 (iv 4%nat); Z.lxor t1 (iv 5%nat);
                 Z.lxor f0 (iv 6%nat); Z.lxor f1 (iv 7%nat)] in
  let v := foldl (ROUND m) v (seq 0 10) in
  imap (λ i w, Z.lxor (Z.lxor w (at_word v i)) (at_word v (i + 8))) h.

Definition blake2s_compress (S : blake2s_state) (inp : byte_array) : blake2s_state :=
  set_h (compress (b2_h S) (b2_t0 S) (b2_t1 S) (b2_f0 S) (b2_f1 S) inp) S.

(** The loop of [blake2s_update] on the blocks that follow the buffer. *)
Fixpoint update_blocks (fuel : nat) (S : blake2s_state) (inp : byte_array) : blake2s_state * byte_array :=
  match fuel with
  | O => (S, inp)
  | Datatypes.S fuel =>
      if (BLAKE2S_BLOCKBYTES <? length inp)%nat then
        let S := blake2s_increment_counter S (Z.of_nat BLAKE2S_BLOCKBYTES) in
        let S := blake2s_compress S inp in
        update_blocks fuel S (drop BLAKE2S_BLOCKBYTES inp)
      else (S, inp)
  end.

Definition blake2s_update (S : blake2s_state) (inp : byte_array) : result blake2s_state :=
  if (0 <? length inp)%nat then
    let unused := b2_buflen S in
    let fill := (BLAKE2S_BLOCKBYTES - unused)%nat in
    '(S, inp) ←
      (if (fill <? length inp)%nat then
         let S := set_buf (b2_buf S) 0 S in
         buf ← memcpy (b2_buf S) unused (take fill inp);
         let S := set_buf buf (b2_buflen S) S in
         let S := blake2s_increment_counter S (Z.of_nat BLAKE2S_BLOCKBYTES) in
         let S := blake2s_compress S (b2_buf S) in
         Ok (update_blocks (length inp) S (drop fill inp))
       else Ok (S, inp));
    buf ← memcpy (b2_buf S) (b2_buflen S) inp;
    Ok (set_buf buf (b2_buflen S + length inp)%nat S)
  else Ok S.

(** [blake2s_final] for an output buffer that is not null: the return code, the
    bytes written to it, and the state. *)
Definition blake2s_final (S : blake2s_state) (outlen : nat) : result (Z * byte_array * blake2s_state) :=
  if (outlen <? b2_outlen S)%nat then Ok (-1, [], S) else
  if blake2s_is_lastblock S then Ok (-1, [], S) else
  let S := blake2s_increment_counter S (u32 (Z.of_nat (b2_buflen S))) in
  let S := blake2s_set_lastblock S in
  buf ← memcpy (b2_buf S) (b2_buflen S) (replicate (BLAKE2S_BLOCKBYTES - b2_buflen S) 0);
  let S := set_buf buf (b2_buflen S) S in
  let S := blake2s_compress S (b2_buf S) in
  let buffer := concat (store32 <$> take 8 (b2_h S)) in
  out ← bytes_at buffer 0 outlen;
  Ok (0, out, S).

Definition sequential_param (outlen keylen : nat) : blake2s_param :=
  {| p_digest_length := u8 (Z.of_nat outlen); p_key_length := u8 (Z.of_nat keylen);
     p_fanout := 1; p_depth := 1;
     p_leaf_length := store32 0; p_node_offset := store32 0; p_xof_length := store16 0;
     p_node_depth := 0; p_inner_length := 0;
     p_salt := replicate 8 0; p_personal := replicate 8 0 |}.

(** The initialisers give the state, or nothing when they return -1. *)
Definition blake2s_init (outlen : nat) : option blake2s_state :=
  if (outlen =? 0)%nat || (BLAKE2S_OUTBYTES <? outlen)%nat then None else
  Some (blake2s_init_param (sequential_param outlen 0)).

(** The block of the key: zeros after it. *)
Definition key_block (key : byte_array) : result byte_array :=
  memcpy (replicate BLAKE2S_BLOCKBYTES 0) 0 key.

Definition blake2s_init_key (outlen : nat) (key : byte_array) : result (option blake2s_state) :=
  if (outlen =? 0)%nat || (BLAKE2S_OUTBYTES <? outlen)%nat then Ok None else
  if (length key =? 0)%nat || (BLAKE2S_KEYBYTES <? length key)%nat then Ok None else
  let S := blake2s_init_param (sequential_param outlen (length key)) in
  block ← key_block key;
  S ← blake2s_update S block;
  Ok (Some S).

(** [blake2s] for an output and an input that are not null: the return code and
    the bytes written to [out].  A null key is the empty key. *)
Definition blake2s (outlen : nat) (inp key : byte_array) : result (Z * byte_array) :=
  if (outlen =? 0)%nat || (BLAKE2S_OUTBYTES <? outlen)%nat then Ok (-1, []) else
  if (BLAKE2S_KEYBYTES <? length key)%nat then Ok (-1, []) else
  init ← (if (0 <? length key)%nat then blake2s_init_key outlen key else Ok (blake2s_init outlen));
  match init with
  | None => Ok (-1, [])
  | Some st =>
      st ← blake2s_update st inp;
      '(_, out, _) ← blake2s_final st outlen;
      Ok (0, out)
  end.

(** ** BLAKE2sp *)

Definition PARALLELISM_DEGREE : nat := 8.
Definition STRIPE : nat := PARALLELISM_DEGREE * BLAKE2S_BLOCKBYTES.

Record blake2sp_state := {
  sp_S : list blake2s_state;
  sp_R : blake2s_state;
  sp_buf : byte_array;
  sp_buflen : nat;
  sp_outlen : nat;
}.

Definition blake2sp_init_leaf_param (P : blake2s_param) : blake2s_state :=
  set_outlen (Z.to_nat (p_inner_length P)) (blake2s_init_param P).

Definition leaf_param (outlen keylen offset : nat) : blake2s_param :=
  {| p_digest_length := u8 (Z.of_nat outlen); p_key_length := u8 (Z.of_nat keylen);
     p_fanout := Z.of_nat PARALLELISM_DEGREE; p_depth := 2;
     p_leaf_length := store32 0; p_node_offset := store32 (u32 (Z.of_nat offset));
     p_xof_length := store16 0;
     p_node_depth := 0; p_inner_length := Z.of_nat BLAKE2S_OUTBYTES;
     p_salt := replicate 8 0; p_personal := replicate 8 0 |}.

Definition root_param (outlen keylen : nat) : blake2s_param :=
  {| p_digest_length := u8 (Z.of_nat outlen); p_key_length := u8 (Z.of_nat keylen);
     p_fanout := Z.of_nat PARALLELISM_DEGREE; p_depth := 2;
     p_leaf_length := store32 0; p_node_offset := store32 0; p_xof_length := store16 0;
     p_node_depth := 1; p_inner_length := Z.of_nat BLAKE2S_OUTBYTES;
     p_salt := replicate 8 0; p_personal := replicate 8 0 |}.

Definition blake2sp_init_leaf (outlen keylen offset : nat) : blake2s_state :=
  blake2sp_init_leaf_param (leaf_param outlen keylen offset).

Definition blake2sp_init_root (outlen keylen : nat) : blake2s_state :=
  blake2s_init_param (root_param outlen keylen).

(** The loop over the leaves: [f i] on the leaf [i]. *)
Fixpoint for_leaves {A B} (f : nat → A → result B) (i : nat) (leaves : list A) : result (list B) :=
  match leaves with
  | [] => Ok []
  | st :: leaves =>
      st' ← f i st;
      leaves' ← for_leaves f (S i) leaves;
      Ok (st' :: leaves')
  end.

(** The leaves of a new tree, the last one marked. *)
Definition init_leaves (outlen keylen : nat) : list blake2s_state :=
  alter set_last_node (PARALLELISM_DEGREE - 1)%nat
    (blake2sp_init_leaf outlen keylen <$> seq 0 PARALLELISM_DEGREE).

Definition key_leaves (key : byte_array) (leaves : list blake2s_state) : result (list blake2s_state) :=
  block ← key_block key;
  for_leaves (λ _ st, blake2s_update st block) 0 leaves.

Definition blake2sp_init (outlen : nat) : option blake2sp_state :=
  if (outlen =? 0)%nat || (BLAKE2S_OUTBYTES <? outlen)%nat then None else
  Some {| sp_S := init_leaves outlen 0; sp_R := set_last_node (blake2sp_init_root outlen 0);
          sp_buf := replicate STRIPE 0; sp_buflen := 0; sp_outlen := outlen |}.

Definition blake2sp_init_key (outlen : nat) (key : byte_array) : result (option blake2sp_state) :=
  if (outlen =? 0)%nat || (BLAKE2S_OUTBYTES <? outlen)%nat then Ok None else
  if (length key =? 0)%nat || (BLAKE2S_KEYBYTES <? length key)%nat then Ok None else
  leaves ← key_leaves key (init_leaves outlen (length key));
  Ok (Some {| sp_S := leaves; sp_R := set_last_node (blake2sp_init_root outlen (length key));
              sp_buf := replicate STRIPE 0; sp_buflen := 0; sp_outlen := outlen |}).

(** The loop of one leaf on the stripes of the input: the leaf and what is
    left of the input.  [inp] starts at the block of the leaf in the source; here
    [off] is the offset of that block and [inp] starts at the stripe. *)
Fixpoint leaf_stripes (fuel : nat) (off : nat) (st : blake2s_state) (inp : byte_array) : result (blake2s_state * byte_array) :=
  match fuel with
  | O => Ok (st, inp)
  | S fuel =>
      if (STRIPE <=? length inp)%nat then
        block ← bytes_at inp off BLAKE2S_BLOCKBYTES;
        st ← blake2s_update st block;
        leaf_stripes fuel off st (drop STRIPE inp)
      else Ok (st, inp)
  end.

(** The first half of [blake2sp_update]: a piece that fills the buffer sends it
    to the leaves.  The leaves, the buffer, the rest of the piece and the place
    for it. *)
Definition sp_refill (sp : blake2sp_state) (inp : byte_array) : result (list blake2s_state * byte_array * byte_array * nat) :=
  let unused := sp_buflen sp in
  let fill := (STRIPE - unused)%nat in
  if negb (unused =? 0)%nat && (fill <=? length inp)%nat then
    buf ← memcpy (sp_buf sp) unused (take fill inp);
    leaves ← for_leaves (λ i st, block ← bytes_at buf (i * BLAKE2S_BLOCKBYTES) BLAKE2S_BLOCKBYTES;
                                 blake2s_update st block) 0 (sp_S sp);
    Ok (leaves, buf, drop fill inp, 0%nat)
  else Ok (sp_S sp, sp_buf sp, inp, unused).

Definition blake2sp_update (sp : blake2sp_state) (inp : byte_array) : result blake2sp_state :=
  '(leaves, buf, inp, unused) ← sp_refill sp inp;
  leaves ← for_leaves (λ i st, '(st, _) ← leaf_stripes (length inp) (i * BLAKE2S_BLOCKBYTES) st inp;
                               Ok st) 0 leaves;
  let inp := drop (length inp - length inp mod STRIPE) inp in
  buf ← (if (0 <? length inp)%nat then memcpy buf unused inp else Ok buf);
  Ok {| sp_S := leaves; sp_R := sp_R sp; sp_buf := buf;
        sp_buflen := (unused + length inp)%nat; sp_outlen := sp_outlen sp |}.

(** The digests of the leaves go to the root in order. *)
Fixpoint feed_root (st : blake2s_state) (hashes : list byte_array) : result blake2s_state :=
  match hashes with
  | [] => Ok st
  | h :: hashes => st ← blake2s_update st h; feed_root st hashes
  end.

Definition blake2sp_final (sp : blake2sp_state) (outlen : nat) : result (Z * byte_array) :=
  if (outlen <? sp_outlen sp)%nat then Ok (-1, []) else
  hashes ← for_leaves (λ i st,
    st ← (if (i * BLAKE2S_BLOCKBYTES <? sp_buflen sp)%nat then
            let rest := (sp_buflen sp - i * BLAKE2S_BLOCKBYTES)%nat in
            let rest := if (BLAKE2S_BLOCKBYTES <? rest)%nat then BLAKE2S_BLOCKBYTES else rest in
            block ← bytes_at (sp_buf sp) (i * BLAKE2S_BLOCKBYTES) rest;
            blake2s_update st block
          else Ok st);
    '(_, h, _) ← blake2s_final st BLAKE2S_OUTBYTES;
    Ok h) 0 (sp_S sp);
  root ← feed_root (sp_R sp) hashes;
  '(code, out, _) ← blake2s_final root (sp_outlen sp);
  Ok (code, out).

Definition blake2sp (outlen : nat) (inp key : byte_array) : result (Z * byte_array) :=
  if (outlen =? 0)%nat || (BLAKE2S_OUTBYTES <? outlen)%nat then Ok (-1, []) else
  if (BLAKE2S_KEYBYTES <? length key)%nat then Ok (-1, []) else
  let leaves := init_leaves outlen (length key) in
  leaves ← (if (0 <? length key)%nat then key_leaves key leaves else Ok leaves);
  hashes ← for_leaves (λ i st,
    '(st, inp) ← leaf_stripes (length inp) (i * BLAKE2S_BLOCKBYTES) st inp;
    st ← (if (i * BLAKE2S_BLOCKBYTES <? length inp)%nat then
            let rest := (length inp - i * BLAKE2S_BLOCKBYTES)%nat in
            let len := if (rest <=? BLAKE2S_BLOCKBYTES)%nat then rest else BLAKE2S_BLOCKBYTES in
            block ← bytes_at inp (i * BLAKE2S_BLOCKBYTES) len;
            blake2s_update st block
          else Ok st);
    '(_, h, _) ← blake2s_final st BLAKE2S_OUTBYTES;
    Ok h) 0 leaves;
  root ← feed_root (set_last_node (blake2sp_init_root outlen (length key))) hashes;
  '(code, out, _) ← blake2s_final root outlen;
  Ok (code, out).

(** [cscrypto::blake2s]; the caller ignores the code. *)
Definition cscrypto_blake2s (data : byte_array) : result byte_array :=
  '(_, out) ← blake2sp BLAKE2S_OUTBYTES data [];
  Ok out.

(** The digest of 32 bytes without a key, as the network code asks for it. *)
Definition blake2s_32 (data : byte_array) : result byte_array :=
  '(_, out) ← blake2s BLAKE2S_OUTBYTES data [];
  Ok out.

(** What a caller of [blake2s] finds in its array of 32 bytes. *)
Definition blake2s_digest (data : byte_array) : byte_array :=
  match blake2s_32 data with
  | Ok out => out
  | Throw _ => []
  end.

(** ** The BLAKE2 specification

    The compression works on a matrix of four rows of four words.  A round mixes
    its columns, turns the rows so that the diagonals are columns, mixes again and
    turns back.  [F] is the compression with a 64-bit counter; a node hashes its
    data in blocks of 64 bytes, the last one filled with zeros and flagged; the
    digest is the start of the little-endian words. *)

Definition ALL_ONES : Z := 2 ^ 32 - 1.

(** The mixing of four words with two words of the message. *)
Definition mix (a b c d x y : Z) : Z * Z * Z * Z :=
  let a := u32 (a + b + x) in let d := rotr32 (Z.lxor d a) 16 in
  let c := u32 (c + d) in let b := rotr32 (Z.lxor b c) 12 in
  let a := u32 (a + b + y) in let d := rotr32 (Z.lxor d a) 8 in
  let c := u32 (c + d) in let b := rotr32 (Z.lxor b c) 7 in
  (a, b, c, d).

(** The columns of a matrix, mixed with two message words each. *)
Fixpoint mix_columns (A B C D words : list Z) : list Z * list Z * list Z * list Z :=
  match A, B, C, D, words with
  | a :: A, b :: B, c :: C, d :: D, x :: y :: words =>
      let '(a, b, c, d) := mix a b c d x y in
      let '(A, B, C, D) := mix_columns A B C D words in
      (a :: A, b :: B, c :: C, d :: D)
  | _, _, _, _, _ => ([], [], [], [])
  end.

Definition turn (n : nat) (row : list Z) : list Z := drop n row ++ take n row.

Definition round_spec (m : list Z) (M : list Z * list Z * list Z * list Z) (r : nat) : list Z * list Z * list Z * list Z :=
  let words := at_word m <$> nth r blake2s_sigma [] in
  let '(A, B, C, D) := M in
  let '(A, B, C, D) := mix_columns A B C D (take 8 words) in
  let '(A, B, C, D) := mix_columns A (turn 1 B) (turn 2 C) (turn 3 D) (drop 8 words) in
  (A, turn 3 B, turn 2 C, turn 1 D).

Definition F (h : list Z) (block : byte_array) (t f0 f1 : Z) : list Z :=
  let D := zip_with Z.lxor [t mod 2 ^ 32; t / 2 ^ 32 mod 2 ^ 32; f0; f1] (drop 4 blake2s_IV) in
  let '(A, B, C, D) := foldl (round_spec (message_words block)) (take 4 h, drop 4 h, take 4 blake2s_IV, D) (seq 0 10) in
  zip_with Z.lxor (zip_with Z.lxor h (A ++ B)) (C ++ D).

Fixpoint chain_hash (fuel : nat) (h : list Z) (t : Z) (last_node : bool) (d : byte_array) : list Z :=
  match fuel with
  | S fuel' =>
      if (64 <? length d)%nat
      then chain_hash fuel' (F h (take 64 d) (t + 64) 0 0) (t + 64) last_node (drop 64 d)
      else F h (d ++ replicate (64 - length d) 0) (t + Z.of_nat (length d)) ALL_ONES
             (if last_node then ALL_ONES else 0)
  | O => F h (d ++ replicate (64 - length d) 0) (t + Z.of_nat (length d)) ALL_ONES
           (if last_node then ALL_ONES else 0)
  end.

Definition initial_words (P : blake2s_param) : list Z :=
  imap (λ i w, Z.lxor w (load32 (drop (i * 4) (param_bytes P)))) blake2s_IV.

Definition node_hash (P : blake2s_param) (last_node : bool) (d : byte_array) (outlen : nat) : byte_array :=
  take outlen (concat (store32 <$> chain_hash (length d) (initial_words P) 0 last_node d)).

(** The key, if there is one, is a block of its own before the message. *)
Definition keyed (key d : byte_array) : byte_array :=
  match key with
  | [] => d
  | _ => key ++ replicate (64 - length key) 0 ++ d
  end.

Definition blake2s_spec (outlen : nat) (key d : byte_array) : byte_array :=
  node_hash (sequential_param outlen (length key)) false (keyed key d) outlen.

(** The bytes of leaf [i]: those at the positions [p] of the message with
    [p / 64] equal to [i] modulo 8. *)
Fixpoint leaf_from (i p : nat) (d : byte_array) : byte_array :=
  match d with
  | [] => []
  | b :: d => if ((p / 64) mod 8 =? i)%nat then b :: leaf_from i (S p) d else leaf_from i (S p) d
  end.

Definition leaf_data (i : nat) (d : byte_array) : byte_array := leaf_from i 0 d.

Definition leaf_hash (outlen : nat) (key d : byte_array) (i : nat) : byte_array :=
  node_hash (leaf_param outlen (length key) i) (i =? 7)%nat (keyed key (leaf_data i d)) 32.

Definition blake2sp_spec (outlen : nat) (key d : byte_array) : byte_array :=
  node_hash (root_param outlen (length key)) true
    (concat (leaf_hash outlen key d <$> seq 0 8)) outlen.

(** The streaming interfaces on the pieces of a message. *)
Fixpoint updates {St} (update : St → byte_array → result St) (st : St) (pieces : list byte_array) : result St :=
  match pieces with
  | [] => Ok st
  | inp :: pieces => st ← update st inp; updates update st pieces
  end.

Definition blake2s_stream (outlen : nat) (key : byte_array) (pieces : list byte_array) : result (Z * byte_array) :=
  init ← (if (0 <? length key)%nat then blake2s_init_key outlen key else Ok (blake2s_init outlen));
  match init with
  | None => Ok (-1, [])
  | Some st =>
      st ← updates blake2s_update st pieces;
      '(code, out, _) ← blake2s_final st outlen;
      Ok (code, out)
  end.

Definition blake2sp_stream (outlen : nat) (key : byte_array) (pieces : list byte_array) : result (Z * byte_array) :=
  init ← (if (0 <? length key)%nat then blake2sp_init_key outlen key else Ok (blake2sp_init outlen));
  match init with
  | None => Ok (-1, [])
  | Some sp =>
      sp ← updates blake2sp_update sp pieces;
      blake2sp_final sp outlen
  end.

(** ** Arrays *)

Lemma memcpy_spec dst off src :
  (off + length src <= length dst)%nat →
  ∃ buf, memcpy dst off src = Ok buf ∧ length buf = length dst ∧
    take (off + length src) buf = take off dst ++ src.
Proof.
  intros H. unfold memcpy. rewrite (proj2 (Nat.leb_le _ _) H). eexists. split; [done|]. split.
  - rewrite !length_app, length_take, length_drop. lia.
  - rewrite app_assoc, take_app_le by (rewrite length_app, length_take; lia).
    apply take_ge. rewrite length_app, length_take. lia.
Qed.

Lemma memcpy_full dst off src :
  (off + length src = length dst)%nat → memcpy dst off src = Ok (take off dst ++ src).
Proof.
  intros H. unfold memcpy. rewrite (proj2 (Nat.leb_le _ _)) by lia.
  by rewrite drop_ge, app_nil_r by lia.
Qed.

Lemma bytes_at_ok src off n : (off + n <= length src)%nat → bytes_at src off n = Ok (take n (drop off src)).
Proof. intros H. unfold bytes_at. by rewrite (proj2 (Nat.leb_le _ _) H). Qed.

(** ** The chain of compressions *)

(** A compression reads 64 bytes. *)
Lemma message_words_take inp n : (64 <= n)%nat → message_words (take n inp) = message_words inp.
Proof.
  intros Hn. unfold message_words. apply list_fmap_ext. intros i k Hk.
  apply lookup_seq in Hk as [-> Hk]. unfold load32, at_word.
  assert (∀ j, (j < 4)%nat → nth j (drop ((0 + i) * 4) (take n inp)) 0 = nth j (drop ((0 + i) * 4) inp) 0) as E.
  { intros j Hj. rewrite !nth_lookup, !lookup_drop, lookup_take_lt by lia. done. }
  by rewrite !E by lia.
Qed.

Lemma compress_take h t0 t1 f0 f1 inp n :
  (64 <= n)%nat → compress h t0 t1 f0 f1 (take n inp) = compress h t0 t1 f0 f1 inp.
Proof. intros Hn. unfold compress. by rewrite message_words_take. Qed.

Definition advance (st : blake2s_state) (blocks : list byte_array) : blake2s_state :=
  foldl (λ st b, blake2s_compress (blake2s_increment_counter st 64) b) st blocks.

(** [st] is the state [st0] after the data [d]. *)
Definition absorbed (st0 : blake2s_state) (d : byte_array) (st : blake2s_state) : Prop :=
  ∃ blocks rest buf, d = concat blocks ++ rest ∧ Forall (λ b, length b = 64%nat) blocks ∧
    (length rest <= 64)%nat ∧ (blocks = [] ∨ rest ≠ []) ∧
    st = set_buf buf (length rest) (advance st0 blocks) ∧
    length buf = 64%nat ∧ take (length rest) buf = rest.

(** The state of a node whose data is still to come. *)
Definition fresh_state (st : blake2s_state) : Prop :=
  b2_t0 st = 0 ∧ b2_t1 st = 0 ∧ b2_f0 st = 0 ∧ b2_f1 st = 0 ∧ length (b2_h st) = 8%nat ∧
  length (b2_buf st) = 64%nat ∧ b2_buflen st = 0%nat ∧ (b2_outlen st <= 32)%nat.

Lemma advance_app st a b : advance st (a ++ b) = advance (advance st a) b.
Proof. apply foldl_app. Qed.

Lemma advance_set_buf buf n st blocks : advance (set_buf buf n st) blocks = set_buf buf n (advance st blocks).
Proof. revert st. induction blocks as [|b blocks IH]; intros st; [done|]. exact (IH (advance st [b])). Qed.

Lemma advance_same st blocks :
  b2_buf (advance st blocks) = b2_buf st ∧ b2_buflen (advance st blocks) = b2_buflen st ∧
  b2_outlen (advance st blocks) = b2_outlen st ∧ b2_last_node (advance st blocks) = b2_last_node st ∧
  b2_f0 (advance st blocks) = b2_f0 st ∧ b2_f1 (advance st blocks) = b2_f1 st ∧
  length (b2_h (advance st blocks)) = length (b2_h st).
Proof.
  revert st. induction blocks as [|b blocks IH]; intros st; [done|].
  destruct (IH (blake2s_compress (blake2s_increment_counter st 64) b)) as (? & ? & ? & ? & ? & ? & E).
  repeat split; try done. etrans; [apply E|]. apply length_imap.
Qed.

(** The loop consumes every block but the last, which may be full. *)
Lemma update_blocks_spec fuel st inp :
  (length inp <= fuel)%nat → inp ≠ [] →
  ∃ blocks rest, update_blocks fuel st inp = (advance st blocks, rest) ∧
    inp = concat blocks ++ rest ∧ Forall (λ b, length b = 64%nat) blocks ∧
    (length rest <= 64)%nat ∧ rest ≠ [].
Proof.
  revert st inp. induction fuel as [|fuel IH]; intros st inp Hf Hne; [by destruct inp; [|cbn in Hf; lia]|].
  cbn [update_blocks]. destruct (Nat.ltb_spec BLAKE2S_BLOCKBYTES (length inp)) as [Hlt|Hge]; unfold BLAKE2S_BLOCKBYTES in *.
  - destruct (IH (advance st [take 64 inp]) (drop 64 inp)) as (blocks & rest & E & Hinp & Hall & Hr & Hn).
    + rewrite length_drop. lia.
    + intros E%(f_equal length). rewrite length_drop in E. cbn in E. lia.
    + exists (take 64 inp :: blocks), rest. split; [|split; [|split; [|done]]].
      * change (advance st (take 64 inp :: blocks)) with (advance (advance st [take 64 inp]) blocks).
        rewrite <- E. cbn [advance foldl]. unfold blake2s_compress. rewrite compress_take by lia. reflexivity.
      * cbn [concat]. by rewrite <- app_assoc, <- Hinp, take_drop.
      * constructor; [|done]. rewrite length_take. lia.
  - exists [], inp. done.
Qed.

Lemma concat_snoc {A} (ls : list (list A)) l : concat (ls ++ [l]) = concat ls ++ l.
Proof. by rewrite concat_app, concat_cons, app_nil_r. Qed.

(** A piece that fits in the buffer. *)
Lemma update_short st0 d st inp :
  absorbed st0 d st → inp ≠ [] → (b2_buflen st + length inp <= 64)%nat →
  ∃ st', blake2s_update st inp = Ok st' ∧ absorbed st0 (d ++ inp) st'.
Proof.
  intros (blocks & rest & buf & -> & Hall & Hr & Hor & -> & Hbuf & Htake) Hne Hfit.
  cbn [set_buf b2_buflen] in Hfit. unfold blake2s_update, BLAKE2S_BLOCKBYTES. cbn [set_buf b2_buflen].
  assert (0 < length inp)%nat by (destruct inp; [done|cbn; lia]).
  rewrite (proj2 (Nat.ltb_lt _ _)) by done. rewrite (proj2 (Nat.ltb_ge _ _)) by lia.
  rewrite bind_Ok. cbn [set_buf b2_buf b2_buflen].
  destruct (memcpy_spec buf (length rest) inp) as (buf' & -> & Hl & Ht); [lia|]. rewrite bind_Ok.
  eexists. split; [done|]. exists blocks, (rest ++ inp), buf'.
  rewrite length_app, <- app_assoc, Htake in *. repeat split; try done; try lia.
  right. by destruct rest, inp.
Qed.

(** A piece that does not: the buffer is filled and compressed first. *)
Lemma update_long st0 d st inp :
  absorbed st0 d st → (64 < b2_buflen st + length inp)%nat →
  ∃ st', blake2s_update st inp = Ok st' ∧ absorbed st0 (d ++ inp) st'.
Proof.
  intros (blocks & rest & buf & -> & Hall & Hr & Hor & -> & Hbuf & Htake) Hfit.
  cbn [set_buf b2_buflen] in Hfit. unfold blake2s_update. cbn [set_buf b2_buflen b2_buf].
  rewrite (proj2 (Nat.ltb_lt _ _)) by lia. rewrite (proj2 (Nat.ltb_lt _ _)) by (unfold BLAKE2S_BLOCKBYTES; lia).
  unfold BLAKE2S_BLOCKBYTES. set (fill := (64 - length rest)%nat).
  rewrite memcpy_full by (rewrite length_take; lia). rewrite !bind_Ok, Htake.
  cbn [set_buf blake2s_increment_counter blake2s_compress set_h b2_buf].
  set (block := rest ++ take fill inp).
  match goal with |- context [update_blocks _ ?x _] => set (st1 := x) end.
  assert (st1 = set_buf block 0 (advance st0 (blocks ++ [block]))) as -> by (rewrite advance_app; done).
  destruct (update_blocks_spec (length inp) (set_buf block 0 (advance st0 (blocks ++ [block]))) (drop fill inp))
    as (blocks' & rest' & -> & Hdrop & Hall' & Hr' & Hne').
  { rewrite length_drop. lia. }
  { intros E%(f_equal length). rewrite length_drop in E. cbn in E. lia. }
  rewrite advance_set_buf, <- advance_app. cbn [set_buf b2_buf b2_buflen].
  assert (length block = 64%nat) as Hb by (unfold block; rewrite length_app, length_take; lia).
  destruct (memcpy_spec block 0 rest') as (buf' & -> & Hl & Ht); [lia|]. rewrite bind_Ok.
  eexists. split; [done|]. exists ((blocks ++ [block]) ++ blocks'), rest', buf'.
  split; [|split; [|split; [done|]]].
  - rewrite concat_app, concat_snoc. unfold block. rewrite <- !app_assoc, <- Hdrop, take_drop. done.
  - apply Forall_app. split; [|done]. apply Forall_app. split; [done|]. by constructor.
  - split; [by right|]. split; [done|]. split; [lia|]. done.
Qed.

Lemma update_spec st0 d st inp :
  absorbed st0 d st → ∃ st', blake2s_update st inp = Ok st' ∧ absorbed st0 (d ++ inp) st'.
Proof.
  intros H. destruct (decide (inp = [])) as [-> |Hne]; [exists st; by rewrite app_nil_r|].
  destruct (le_lt_dec (b2_buflen st + length inp) 64); [by apply update_short|by apply update_long].
Qed.

(** ** Counter and digest *)

(** The two words of the counter are those of [t]. *)
Definition counter (t : Z) (st : blake2s_state) : Prop :=
  b2_t0 st = t mod 2 ^ 32 ∧ b2_t1 st = t / 2 ^ 32 mod 2 ^ 32.

Lemma increment_counter_spec t inc st :
  0 <= t → 0 <= inc < 2 ^ 32 → counter t st → counter (t + inc) (blake2s_increment_counter st inc).
Proof.
  intros Ht Hinc [E0 E1]. unfold counter, blake2s_increment_counter. cbn [b2_t0 b2_t1]. rewrite E0, E1.
  unfold u32, wrap. rewrite Zplus_mod_idemp_l. split; [done|].
  destruct (Z.ltb_spec ((t + inc) mod 2 ^ 32) inc); rewrite Zplus_mod_idemp_l; f_equal;
    Z.to_euclidean_division_equations; lia.
Qed.

(** [rotr32] rotates the bits of a word. *)
Lemma rotr32_bits w c i :
  is_u32 w → 0 < c < 32 → 0 <= i < 32 → Z.testbit (rotr32 w c) i = Z.testbit w ((i + c) mod 32).
Proof.
  intros [H0 Hw] Hc Hi. unfold rotr32, u32, wrap.
  rewrite Z.lor_spec, Z.shiftr_spec, Z.mod_pow2_bits_low, Z.shiftl_spec by lia.
  destruct (Z.ltb_spec (i + c) 32).
  - rewrite (Z.testbit_neg_r _ (i - (32 - c))), orb_false_r, Z.mod_small by lia. done.
  - replace ((i + c) mod 32) with (i - (32 - c)) by (Z.to_euclidean_division_equations; lia).
    rewrite <- (Z.mod_small w (2 ^ 32)) at 1 by done. by rewrite Z.mod_pow2_bits_high by lia.
Qed.

(** The rows of the matrix are the vector of the code. *)
Definition rows_of (v : list Z) : list Z * list Z * list Z * list Z := (take 4 v, take 4 (drop 4 v), take 4 (drop 8 v), drop 12 v).

Ltac sixteen v H := do 16 (destruct v as [|? v]; [discriminate H|]); destruct v; [clear H|discriminate H].

(** The statements of a quarter round. *)
Definition add_word (k j : nat) (x : Z) (v : list Z) : list Z := <[k := u32 (at_word v k + at_word v j + x)]> v.
Definition sum_word (k j : nat) (v : list Z) : list Z := <[k := u32 (at_word v k + at_word v j)]> v.
Definition rotate_word (k j : nat) (n : Z) (v : list Z) : list Z := <[k := rotr32 (Z.lxor (at_word v k) (at_word v j)) n]> v.

Definition quarter_words (a b c d : nat) (x y : Z) (v : list Z) : list Z :=
  rotate_word b c 7 (sum_word c d (rotate_word d a 8 (add_word a b y
    (rotate_word b c 12 (sum_word c d (rotate_word d a 16 (add_word a b x v))))))).

Lemma four_distinct (a b c d : nat) : NoDup [a; b; c; d] → a ≠ b ∧ a ≠ c ∧ a ≠ d ∧ b ≠ c ∧ b ≠ d ∧ c ≠ d.
Proof. rewrite !NoDup_cons, !elem_of_cons. intros H. split_and!; intros ->; tauto. Qed.

Section Quarter.
Context (a b c d : nat) (v : list Z).
Context (Hdup : NoDup [a; b; c; d]) (Ha : (a < length v)%nat) (Hb : (b < length v)%nat) (Hc : (c < length v)%nat) (Hd : (d < length v)%nat).

(** The vector with four words replaced. *)
Definition put4 (q : Z * Z * Z * Z) : list Z := let '(A, B, C, D) := q in <[a := A]> (<[b := B]> (<[c := C]> (<[d := D]> v))).

Lemma at_insert i j (x : Z) l : (i < length l)%nat → at_word (<[i := x]> l) j = if decide (i = j) then x else at_word l j.
Proof.
  intros Hi. unfold at_word. rewrite !nth_lookup. destruct (decide (i = j)) as [<-|Hne].
  - by rewrite list_lookup_insert_eq.
  - by rewrite list_lookup_insert_ne.
Qed.

Lemma put4_words A B C D :
  at_word (put4 (A, B, C, D)) a = A ∧ at_word (put4 (A, B, C, D)) b = B ∧ at_word (put4 (A, B, C, D)) c = C ∧ at_word (put4 (A, B, C, D)) d = D.
Proof.
  destruct (four_distinct _ _ _ _ Hdup) as (? & ? & ? & ? & ? & ?). unfold put4.
  split_and!; rewrite !at_insert by (rewrite ?length_insert; done); by repeat case_decide.
Qed.

Lemma put4_set A B C D X :
  <[a := X]> (put4 (A, B, C, D)) = put4 (X, B, C, D) ∧ <[b := X]> (put4 (A, B, C, D)) = put4 (A, X, C, D) ∧
  <[c := X]> (put4 (A, B, C, D)) = put4 (A, B, X, D) ∧ <[d := X]> (put4 (A, B, C, D)) = put4 (A, B, C, X).
Proof.
  destruct (four_distinct _ _ _ _ Hdup) as (? & ? & ? & ? & ? & ?). unfold put4. split_and!.
  - by rewrite list_insert_insert_eq.
  - rewrite (list_insert_insert_ne _ b a) by done. by rewrite list_insert_insert_eq.
  - rewrite (list_insert_insert_ne _ c a), (list_insert_insert_ne _ c b) by done. by rewrite list_insert_insert_eq.
  - rewrite (list_insert_insert_ne _ d a), (list_insert_insert_ne _ d b), (list_insert_insert_ne _ d c) by done. by rewrite list_insert_insert_eq.
Qed.

Lemma put4_same : put4 (at_word v a, at_word v b, at_word v c, at_word v d) = v.
Proof.
  unfold put4. assert (∀ i, (i < length v)%nat → <[i := at_word v i]> v = v) as H; [|by rewrite !H].
  intros i Hi. apply list_insert_id. unfold at_word. rewrite nth_lookup. by destruct (lookup_lt_is_Some_2 v i Hi) as [w ->].
Qed.

Lemma put4_steps A B C D x n :
  add_word a b x (put4 (A, B, C, D)) = put4 (u32 (A + B + x), B, C, D) ∧
  rotate_word d a n (put4 (A, B, C, D)) = put4 (A, B, C, rotr32 (Z.lxor D A) n) ∧
  sum_word c d (put4 (A, B, C, D)) = put4 (A, B, u32 (C + D), D) ∧
  rotate_word b c n (put4 (A, B, C, D)) = put4 (A, rotr32 (Z.lxor B C) n, C, D).
Proof.
  unfold add_word, sum_word, rotate_word. destruct (put4_words A B C D) as (-> & -> & -> & ->). split_and!; apply put4_set.
Qed.

Lemma quarter_put4 x y A B C D : quarter_words a b c d x y (put4 (A, B, C, D)) = put4 (mix A B C D x y).
Proof.
  unfold quarter_words. rewrite (proj1 (put4_steps _ _ _ _ _ 0)), (proj1 (proj2 (put4_steps _ _ _ _ 0 _))).
  rewrite (proj1 (proj2 (proj2 (put4_steps _ _ _ _ 0 0)))), (proj2 (proj2 (proj2 (put4_steps _ _ _ _ 0 _)))).
  rewrite (proj1 (put4_steps _ _ _ _ _ 0)), (proj1 (proj2 (put4_steps _ _ _ _ 0 _))).
  rewrite (proj1 (proj2 (proj2 (put4_steps _ _ _ _ 0 0)))), (proj2 (proj2 (proj2 (put4_steps _ _ _ _ 0 _)))). reflexivity.
Qed.

End Quarter.

Lemma quarter_mix a b c d x y v :
  NoDup [a; b; c; d] → (a < length v)%nat → (b < length v)%nat → (c < length v)%nat → (d < length v)%nat →
  quarter_words a b c d x y v = put4 a b c d v (mix (at_word v a) (at_word v b) (at_word v c) (at_word v d) x y).
Proof. intros. rewrite <- (put4_same a b c d v) at 1 by done. by apply quarter_put4. Qed.

Lemma G_mix r i a b c d m v :
  NoDup [a; b; c; d] → (a < length v)%nat → (b < length v)%nat → (c < length v)%nat → (d < length v)%nat →
  let w k := at_word m (nth k (nth r blake2s_sigma []) 0%nat) in
  G r i a b c d m v
  = put4 a b c d v (mix (at_word v a) (at_word v b) (at_word v c) (at_word v d) (w (2 * i + 0)%nat) (w (2 * i + 1)%nat)).
Proof. exact (quarter_mix a b c d _ _ v). Qed.

Lemma sigma_row r : (r < 10)%nat → length (nth r blake2s_sigma []) = 16%nat.
Proof. intros Hr. do 10 (destruct r as [|r]; [reflexivity|]). lia. Qed.

(** Replace the first quarter round by its outcome, here and in the matrix. *)
Ltac quarter_step E :=
  match goal with |- context [G ?r ?i ?a ?b ?c ?d ?m (?x :: ?l)] =>
    rewrite (G_mix r i a b c d m (x :: l)) by ((apply (bool_decide_unpack _); vm_compute; exact I) || (cbn; lia)) end;
  rewrite E; cbn [at_word nth Nat.mul Nat.add];
  match goal with |- context [put4 _ _ _ _ _ ?q] => destruct q as [[[? ?] ?] ?] end;
  cbn [put4 insert list_insert].

Lemma ROUND_rows m v r :
  length v = 16%nat → (r < 10)%nat → round_spec m (rows_of v) r = rows_of (ROUND m v r) ∧ length (ROUND m v r) = 16%nat.
Proof.
  intros Hv Hr%sigma_row. unfold ROUND. destruct (nth r blake2s_sigma []) as [|? row] eqn:E; [done|].
  do 15 (destruct row as [|? row]; [discriminate Hr|]). destruct row; [clear Hr|discriminate Hr]. sixteen v Hv.
  unfold round_spec. rewrite E. cbn [rows_of fmap list_fmap take drop mix_columns]. cbv zeta.
  do 4 quarter_step E. cbn [turn drop take app mix_columns at_word]. do 4 quarter_step E. split; reflexivity.
Qed.

Lemma rounds_rows m rs v :
  length v = 16%nat → Forall (λ r, (r < 10)%nat) rs →
  foldl (round_spec m) (rows_of v) rs = rows_of (foldl (ROUND m) v rs) ∧ length (foldl (ROUND m) v rs) = 16%nat.
Proof.
  intros Hv Hrs. revert v Hv. induction Hrs as [|r rs Hr _ IH]; intros v Hv; [done|]. cbn [foldl].
  destruct (ROUND_rows m v r Hv Hr) as [-> Hl]. by apply IH.
Qed.

Lemma F_compress h block t f0 f1 :
  length h = 8%nat → F h block t f0 f1 = compress h (t mod 2 ^ 32) (t / 2 ^ 32 mod 2 ^ 32) f0 f1 block.
Proof.
  intros Hh. unfold F, compress. generalize (t mod 2 ^ 32) (t / 2 ^ 32 mod 2 ^ 32) (message_words block). intros t0 t1 m.
  do 8 (destruct h as [|? h]; [discriminate Hh|]). destruct h; [clear Hh|discriminate Hh].
  match goal with |- context [foldl (ROUND m) ?v _] =>
    destruct (rounds_rows m (seq 0 10) v eq_refl) as [E Hl]; [repeat constructor; lia|];
    match goal with |- context [foldl (round_spec m) ?x _] => change x with (rows_of v) end end.
  rewrite E. clear E.
  match type of Hl with length ?v = _ => generalize dependent v end. intros v Hl. sixteen v Hl. reflexivity.
Qed.

Lemma chain_hash_enough f1 f2 h t ln d :
  (length d <= f1)%nat → (length d <= f2)%nat → chain_hash f1 h t ln d = chain_hash f2 h t ln d.
Proof.
  revert f2 h t d. induction f1 as [|f1 IH]; intros [|f2] h t d H1 H2; cbn [chain_hash]; try done;
    destruct (Nat.ltb_spec 64 (length d)); try done; try lia.
  apply IH; rewrite length_drop; lia.
Qed.

Lemma chain_hash_blocks blocks rest st t ln fuel :
  0 <= t → counter t st → b2_f0 st = 0 → b2_f1 st = 0 → length (b2_h st) = 8%nat → Forall (λ b, length b = 64%nat) blocks →
  (blocks = [] ∨ rest ≠ []) → (length (concat blocks ++ rest) <= fuel)%nat →
  let t' := t + 64 * Z.of_nat (length blocks) in
  chain_hash fuel (b2_h st) t ln (concat blocks ++ rest)
  = chain_hash fuel (b2_h (advance st blocks)) t' ln rest ∧ counter t' (advance st blocks).
Proof.
  intros Ht Hc H0 H1 Hh Hall. revert st t fuel Ht Hc H0 H1 Hh.
  induction Hall as [|b blocks Hb Hall IH]; intros st t fuel Ht Hc H0 H1 Hh Hor Hf; [cbn; by rewrite Z.add_0_r|].
  assert (rest ≠ []) as Hne by (by destruct Hor).
  assert (0 < length rest)%nat by (destruct rest; [done|cbn; lia]).
  cbn [concat] in Hf |- *. rewrite <- app_assoc in Hf |- *. rewrite length_app in Hf.
  pose proof (increment_counter_spec t 64 st Ht ltac:(lia) Hc) as [E0 E1].
  destruct fuel as [|fuel]; [lia|]. cbn [chain_hash].
  rewrite (proj2 (Nat.ltb_lt _ _)) by (rewrite !length_app in *; lia).
  rewrite take_app_length', drop_app_length' by done.
  destruct (IH (advance st [b]) (t + 64) fuel) as [IH1 IH2]; try done; [lia|by etrans; [apply length_imap|]|by right|lia|].
  cbn [length]. replace (t + 64 * Z.of_nat (S (length blocks))) with (t + 64 + 64 * Z.of_nat (length blocks)) by lia.
  split; [|done]. rewrite F_compress by done. rewrite <- E0, <- E1, <- H0.
  match goal with |- chain_hash _ ?a _ _ _ = _ => change a with
    (compress (b2_h st) (b2_t0 (blake2s_increment_counter st 64)) (b2_t1 (blake2s_increment_counter st 64)) (b2_f0 st) (b2_f0 st) b) end.
  rewrite H0. rewrite <- H1 at 2. rewrite <- H0 at 1. etrans; [exact IH1|].
  apply (chain_hash_enough fuel (S fuel)); rewrite !length_app in Hf; lia.
Qed.

Definition digest (h : list Z) (outlen : nat) : byte_array := take outlen (concat (store32 <$> h)).

Lemma length_store32s h : length (concat (store32 <$> h)) = (4 * length h)%nat.
Proof. induction h; [done|]. cbn [fmap list_fmap concat]. rewrite length_app, IHh. cbn [store32 length]. lia. Qed.

Lemma length_F h b t f0 f1 : length h = 8%nat → length (F h b t f0 f1) = 8%nat.
Proof. intros H. rewrite F_compress by done. unfold compress. by rewrite length_imap. Qed.

Lemma length_chain_hash fuel h t ln d : length h = 8%nat → length (chain_hash fuel h t ln d) = 8%nat.
Proof.
  revert h t d. induction fuel as [|fuel IH]; intros h t d H; cbn [chain_hash]; [by apply length_F|].
  destruct (64 <? length d)%nat; [apply IH|]; by apply length_F.
Qed.

Lemma chain_hash_last fuel h t ln d :
  (length d <= 64)%nat →
  chain_hash fuel h t ln d
  = F h (d ++ replicate (64 - length d) 0) (t + Z.of_nat (length d)) ALL_ONES (if ln then ALL_ONES else 0).
Proof. intros H. destruct fuel; [done|]. cbn [chain_hash]. by rewrite (proj2 (Nat.ltb_ge _ _)). Qed.

Lemma final_spec st0 d st outlen :
  fresh_state st0 → absorbed st0 d st → (b2_outlen st0 <= outlen <= 32)%nat →
  ∃ st', blake2s_final st outlen
    = Ok (0, digest (chain_hash (length d) (b2_h st0) 0 (negb (b2_last_node st0 =? 0)) d) outlen, st').
Proof.
  intros (E0 & E1 & F0 & F1 & Hh & _ & _ & _) (blocks & rest & buf & -> & Hall & Hr & Hor & -> & Hbuf & Htake) [Ho1 Ho2].
  destruct (advance_same st0 blocks) as (_ & _ & So & Sl & Sf0 & Sf1 & Sh).
  assert (counter 0 st0) as Hc0 by (split; [by rewrite E0|by rewrite E1]).
  destruct (chain_hash_blocks blocks rest st0 0 (negb (b2_last_node st0 =? 0)) (length (concat blocks ++ rest)) ltac:(lia) Hc0 F0 F1 Hh Hall Hor ltac:(lia))
    as [-> Hc].
  rewrite chain_hash_last by done.
  set (st1 := advance st0 blocks) in *. set (t := 0 + 64 * Z.of_nat (length blocks)) in *.
  pose proof (increment_counter_spec t (Z.of_nat (length rest)) st1 ltac:(lia) ltac:(lia) Hc) as [T0 T1].
  unfold blake2s_final, blake2s_is_lastblock. cbn [set_buf b2_outlen b2_f0 b2_buflen].
  rewrite So, (proj2 (Nat.ltb_ge _ _)), Sf0, F0 by lia. cbn [Z.eqb negb].
  rewrite u32_id by (unfold_widths; lia).
  assert (b2_buf (blake2s_set_lastblock (blake2s_increment_counter (set_buf buf (length rest) st1) (Z.of_nat (length rest)))) = buf) as ->.
  { unfold blake2s_set_lastblock. by destruct (_ =? 0). }
  assert (b2_buflen (blake2s_set_lastblock (blake2s_increment_counter (set_buf buf (length rest) st1) (Z.of_nat (length rest)))) = length rest) as ->.
  { unfold blake2s_set_lastblock. by destruct (_ =? 0). }
  unfold BLAKE2S_BLOCKBYTES. rewrite memcpy_full by (rewrite length_replicate; lia). rewrite bind_Ok, Htake.
  rewrite F_compress by (by rewrite Sh). rewrite <- T0, <- T1.
  match goal with |- context [take 8 ?h] => assert (h = compress (b2_h st1)
    (b2_t0 (blake2s_increment_counter st1 (Z.of_nat (length rest)))) (b2_t1 (blake2s_increment_counter st1 (Z.of_nat (length rest))))
    ALL_ONES (if negb (b2_last_node st0 =? 0) then ALL_ONES else 0) (rest ++ replicate (64 - length rest) 0)) as -> end.
  { unfold blake2s_set_lastblock.
    change (b2_last_node (blake2s_increment_counter (set_buf buf (length rest) st1) (Z.of_nat (length rest)))) with (b2_last_node st1).
    rewrite Sl. destruct (b2_last_node st0 =? 0); [|done]. cbn [negb]. rewrite <- F1, <- Sf1. done. }
  match goal with |- context [compress ?h ?a ?b ?c ?d ?e] => pose proof (length_imap _ h : length (compress h a b c d e) = _) as Hl end.
  rewrite Sh, Hh in Hl. rewrite take_ge by (by rewrite Hl).
  rewrite bytes_at_ok by (rewrite length_store32s, Hl; lia). rewrite bind_Ok, drop_0. by eexists.
Qed.

(** ** BLAKE2s computes its specification *)

Lemma absorbed_fresh st : fresh_state st → absorbed st [] st.
Proof.
  intros (_ & _ & _ & _ & _ & Hb & Hn & _). exists [], [], (b2_buf st).
  split; [done|]. split; [done|]. split; [cbn; lia|]. split; [by left|]. split; [|done].
  destruct st; cbn in *. by subst.
Qed.

Lemma fresh_init P : 0 <= p_digest_length P <= 32 → fresh_state (blake2s_init_param P).
Proof. intros H. repeat split. cbn. lia. Qed.

Lemma fresh_marked st : fresh_state st → fresh_state (set_last_node st).
Proof. done. Qed.

Definition key_prefix (key : byte_array) : byte_array :=
  match key with [] => [] | _ => key ++ replicate (64 - length key) 0 end.

Lemma keyed_prefix key d : keyed key d = key_prefix key ++ d.
Proof. destruct key; [done|]. cbn [keyed key_prefix]. by rewrite <- app_assoc. Qed.

Lemma key_block_ok key :
  (0 < length key <= 64)%nat → key_block key = Ok (key_prefix key).
Proof.
  intros H. unfold key_block, memcpy, BLAKE2S_BLOCKBYTES. rewrite length_replicate, (proj2 (Nat.leb_le _ _)) by lia.
  rewrite take_0, drop_replicate. by destruct key; [cbn in H; lia|].
Qed.

Lemma updates_spec st0 d st pieces :
  absorbed st0 d st → ∃ st', updates blake2s_update st pieces = Ok st' ∧ absorbed st0 (d ++ concat pieces) st'.
Proof.
  revert d st. induction pieces as [|inp pieces IH]; intros d st H; [exists st; by rewrite app_nil_r|].
  cbn [updates concat]. destruct (update_spec st0 d st inp H) as (st1 & -> & H1). rewrite bind_Ok.
  rewrite app_assoc. by apply IH.
Qed.

(** The lengths the functions accept. *)
Definition accepted (outlen : nat) (key : byte_array) : bool :=
  negb ((outlen =? 0)%nat || (32 <? outlen)%nat) && (length key <=? 32)%nat.

Lemma accepted_true outlen key : accepted outlen key = true → (0 < outlen <= 32)%nat ∧ (length key <= 32)%nat.
Proof. unfold accepted. rewrite andb_true_iff, negb_true_iff, orb_false_iff, Nat.eqb_neq, Nat.ltb_ge, Nat.leb_le. lia. Qed.

Lemma digest_length_ok outlen : (outlen <= 32)%nat → u8 (Z.of_nat outlen) = Z.of_nat outlen.
Proof. intros. apply wrap_id. unfold_widths. lia. Qed.

Lemma out_refused outlen : (0 < outlen <= 32)%nat → (outlen =? 0)%nat || (BLAKE2S_OUTBYTES <? outlen)%nat = false.
Proof. intros. apply orb_false_iff. unfold BLAKE2S_OUTBYTES. rewrite Nat.eqb_neq, Nat.ltb_ge. lia. Qed.

Lemma key_refused (key : byte_array) : (0 < length key <= 32)%nat → (length key =? 0)%nat || (BLAKE2S_KEYBYTES <? length key)%nat = false.
Proof. intros. apply orb_false_iff. unfold BLAKE2S_KEYBYTES. rewrite Nat.eqb_neq, Nat.ltb_ge. lia. Qed.

Lemma fresh_sequential outlen keylen : (outlen <= 32)%nat → fresh_state (blake2s_init_param (sequential_param outlen keylen)).
Proof. intros. apply fresh_init. cbn [sequential_param p_digest_length]. rewrite digest_length_ok; lia. Qed.

Lemma init_spec outlen key :
  (0 < outlen <= 32)%nat → (length key <= 32)%nat →
  ∃ st, (if (0 <? length key)%nat then blake2s_init_key outlen key else Ok (blake2s_init outlen)) = Ok (Some st) ∧
    absorbed (blake2s_init_param (sequential_param outlen (length key))) (key_prefix key) st.
Proof.
  intros Ho Hk. pose proof (fresh_sequential outlen (length key) ltac:(lia)) as Hfr.
  destruct (Nat.ltb_spec 0 (length key)).
  - unfold blake2s_init_key. rewrite out_refused, key_refused, key_block_ok, bind_Ok by lia.
    destruct (update_spec _ [] _ (key_prefix key) (absorbed_fresh _ Hfr)) as (st & -> & H'). rewrite bind_Ok. eauto.
  - unfold blake2s_init. rewrite out_refused by lia. eexists. split; [done|].
    destruct key; [|cbn in *; lia]. by apply absorbed_fresh.
Qed.

Lemma sequential_final outlen key d st :
  (0 < outlen <= 32)%nat → absorbed (blake2s_init_param (sequential_param outlen (length key))) (key_prefix key ++ d) st →
  ∃ st', blake2s_final st outlen = Ok (0, blake2s_spec outlen key d, st').
Proof.
  intros Ho Ha. unfold blake2s_spec. rewrite keyed_prefix.
  apply (final_spec (blake2s_init_param (sequential_param outlen (length key)))); [apply fresh_sequential; lia|done|].
  cbn [b2_outlen blake2s_init_param set_outlen sequential_param p_digest_length]. rewrite digest_length_ok; lia.
Qed.

Lemma refused_lengths outlen key :
  accepted outlen key = false →
  (outlen =? 0)%nat || (BLAKE2S_OUTBYTES <? outlen)%nat = true ∨
  (outlen =? 0)%nat || (BLAKE2S_OUTBYTES <? outlen)%nat = false ∧
  (0 <? length key)%nat = true ∧ (length key =? 0)%nat || (BLAKE2S_KEYBYTES <? length key)%nat = true ∧
  (BLAKE2S_KEYBYTES <? length key)%nat = true.
Proof.
  unfold accepted, BLAKE2S_OUTBYTES, BLAKE2S_KEYBYTES. destruct (_ || _); [by left|]. cbn [negb andb]. intros H%Nat.leb_gt.
  right. split; [done|]. rewrite orb_true_iff, !Nat.ltb_lt. lia.
Qed.

Lemma blake2s_oneshot outlen key d :
  (0 < outlen <= 32)%nat → (length key <= 32)%nat → blake2s outlen d key = Ok (0, blake2s_spec outlen key d).
Proof.
  intros Ho Hk. unfold blake2s. rewrite out_refused by done.
  rewrite (proj2 (Nat.ltb_ge _ _)) by (unfold BLAKE2S_KEYBYTES; lia).
  destruct (init_spec outlen key Ho Hk) as (st & -> & Ha). rewrite !bind_Ok.
  destruct (update_spec _ _ _ d Ha) as (st1 & -> & H1). rewrite bind_Ok.
  by destruct (sequential_final outlen key _ st1 Ho H1) as (? & ->).
Qed.

(** C37: [blake2s] computes the BLAKE2s function of the specification for every
    message, key and digest length it accepts, and refuses the others; the
    streaming interface gives the same outcome however the message is cut into
    pieces; no copy leaves its array. *)
Theorem blake2s_correct outlen key pieces :
  let outcome := if accepted outlen key then (0, blake2s_spec outlen key (concat pieces)) else (-1, []) in
  blake2s outlen (concat pieces) key = Ok outcome ∧ blake2s_stream outlen key pieces = Ok outcome.
Proof.
  cbv zeta. destruct (accepted outlen key) eqn:Ea.
  - apply accepted_true in Ea as [Ho Hk]. split; [by apply blake2s_oneshot|].
    unfold blake2s_stream. destruct (init_spec outlen key Ho Hk) as (st & -> & Ha). rewrite bind_Ok.
    destruct (updates_spec _ _ _ pieces Ha) as (st2 & -> & H2). rewrite bind_Ok.
    by destruct (sequential_final outlen key _ st2 Ho H2) as (? & ->).
  - unfold blake2s, blake2s_stream. destruct (refused_lengths _ _ Ea) as [E|(E & E1 & E2 & E3)].
    + rewrite E. split; [done|]. unfold blake2s_init_key, blake2s_init. rewrite E. by destruct (0 <? length key)%nat.
    + rewrite E, E1, E3. split; [done|]. unfold blake2s_init_key. by rewrite E, E2.
Qed.

(** ** The leaves of BLAKE2sp *)

Lemma leaf_from_app i p a b : leaf_from i p (a ++ b) = leaf_from i p a ++ leaf_from i (p + length a) b.
Proof.
  revert p. induction a as [|x a IH]; intros p; cbn [leaf_from app length]; [by rewrite Nat.add_0_r|].
  rewrite IH. replace (S p + length a)%nat with (p + S (length a))%nat by lia. by destruct (_ =? _)%nat.
Qed.

Lemma leaf_from_none i p d :
  (∀ k, (k < length d)%nat → ((p + k) / 64) mod 8 ≠ i)%nat → leaf_from i p d = [].
Proof.
  revert p. induction d as [|x d IH]; intros p H; [done|]. cbn [leaf_from].
  rewrite (proj2 (Nat.eqb_neq _ _)).
  - apply IH. intros k Hk. replace (S p + k)%nat with (p + S k)%nat by lia. apply H. cbn. lia.
  - rewrite <- (Nat.add_0_r p). apply H. cbn. lia.
Qed.

Lemma leaf_from_all i p d :
  (∀ k, (k < length d)%nat → ((p + k) / 64) mod 8 = i)%nat → leaf_from i p d = d.
Proof.
  revert p. induction d as [|x d IH]; intros p H; [done|]. cbn [leaf_from].
  rewrite (proj2 (Nat.eqb_eq _ _)).
  - f_equal. apply IH. intros k Hk. replace (S p + k)%nat with (p + S k)%nat by lia. apply H. cbn. lia.
  - rewrite <- (Nat.add_0_r p). apply H. cbn. lia.
Qed.

Lemma leaf_from_period i p n d : leaf_from i (n * 512 + p) d = leaf_from i p d.
Proof.
  revert p. induction d as [|x d IH]; intros p; [done|]. cbn [leaf_from].
  replace (S (n * 512 + p)) with (n * 512 + S p)%nat by lia. rewrite IH.
  replace (n * 512 + p)%nat with (p + (n * 8) * 64)%nat by lia.
  by rewrite Nat.div_add, Nat.Div0.mod_add by lia.
Qed.

Lemma leaf_data_app i a b :
  (length a mod 512 = 0)%nat → leaf_data i (a ++ b) = leaf_data i a ++ leaf_data i b.
Proof.
  intros H. unfold leaf_data. rewrite leaf_from_app. f_equal.
  apply Nat.Div0.div_exact in H. rewrite H. rewrite <- (leaf_from_period i 0 (length a / 512) b). f_equal. lia.
Qed.

(** The part of a leaf in one stripe is its block. *)
Lemma leaf_data_stripe i d :
  (i < 8)%nat → (length d <= 512)%nat → leaf_data i d = take 64 (drop (i * 64) d).
Proof.
  intros Hi Hd. unfold leaf_data.
  assert (∀ q, (q / 64 < 8)%nat → (q / 64) mod 8 = q / 64)%nat as Hm by (intros; by apply Nat.mod_small).
  rewrite <- (take_drop (i * 64) d) at 1. rewrite leaf_from_app, leaf_from_none, app_nil_l.
  2:{ intros k Hk. rewrite length_take in Hk. assert ((0 + k) / 64 < i)%nat by (apply Nat.Div0.div_lt_upper_bound; lia).
      rewrite Hm by lia. lia. }
  destruct (le_lt_dec (length d) (i * 64)).
  { by rewrite drop_ge. }
  rewrite length_take, Nat.min_l by lia.
  rewrite <- (take_drop 64 (drop (i * 64) d)) at 1. rewrite leaf_from_app, leaf_from_all, leaf_from_none, app_nil_r; [done| |].
  - intros k Hk. rewrite !length_drop in Hk. rewrite length_take, length_drop.
    destruct (le_lt_dec 64 (length d - i * 64)); [|lia]. rewrite Nat.min_l by lia.
    assert (S i <= (0 + i * 64 + 64 + k) / 64)%nat by (apply Nat.div_le_lower_bound; lia).
    assert ((0 + i * 64 + 64 + k) / 64 < 8)%nat by (apply Nat.Div0.div_lt_upper_bound; lia).
    rewrite Hm by lia. lia.
  - intros k Hk. rewrite length_take in Hk. replace (0 + i * 64 + k)%nat with (k + i * 64)%nat by lia.
    rewrite Nat.div_add, (Nat.div_small k) by lia. apply Nat.mod_small. lia.
Qed.

(** The loop over the leaves, by what it does on each of them. *)
Lemma for_leaves_spec {A B} (f : nat → A → result B) (P : nat → A → Prop) (Q : nat → B → Prop) k leaves :
  (∀ i st, (i < k + length leaves)%nat → P i st → ∃ st', f i st = Ok st' ∧ Q i st') →
  (∀ i st, leaves !! i = Some st → P (k + i)%nat st) →
  ∃ leaves', for_leaves f k leaves = Ok leaves' ∧ length leaves' = length leaves ∧
    ∀ i st', leaves' !! i = Some st' → Q (k + i)%nat st'.
Proof.
  revert k. induction leaves as [|st leaves IH]; intros k Hf HP; [exists []; done|]. cbn [for_leaves].
  destruct (Hf k st) as (st' & -> & HQ); [cbn; lia|rewrite <- (Nat.add_0_r k); by apply HP|].
  rewrite bind_Ok. destruct (IH (S k)) as (leaves' & -> & Hl & HQ').
  - intros i s Hi. apply Hf. cbn [length]. lia.
  - intros i s Hs. replace (S k + i)%nat with (k + S i)%nat by lia. by apply HP.
  - rewrite bind_Ok. exists (st' :: leaves'). split; [done|]. split; [cbn; lia|].
    intros [|i] s Hs; [cbn in Hs; injection Hs as <-; by rewrite Nat.add_0_r|].
    replace (k + S i)%nat with (S k + i)%nat by lia. by apply HQ'.
Qed.

(** The stripes of an input, and what follows them. *)
Definition whole (d : byte_array) : nat := (length d - length d mod 512)%nat.

Lemma whole_div d : whole d = (512 * (length d / 512))%nat.
Proof. unfold whole. pose proof (Nat.div_mod_eq (length d) 512). lia. Qed.

Lemma leaf_stripes_spec fuel i st0 x st inp :
  (i < 8)%nat → (length inp <= fuel)%nat → absorbed st0 x st →
  ∃ st', leaf_stripes fuel (i * 64) st inp = Ok (st', drop (whole inp) inp) ∧
    absorbed st0 (x ++ leaf_data i (take (whole inp) inp)) st'.
Proof.
  intros Hi. revert x st inp. induction fuel as [|fuel IH]; intros x st inp Hf Ha.
  { destruct inp; [|cbn in Hf; lia]. exists st. by rewrite app_nil_r. }
  cbn [leaf_stripes]. change STRIPE with 512%nat. destruct (Nat.leb_spec 512 (length inp)) as [Hge|Hlt].
  - unfold BLAKE2S_BLOCKBYTES. rewrite bytes_at_ok, bind_Ok by lia.
    destruct (update_spec _ _ _ (take 64 (drop (i * 64) inp)) Ha) as (st1 & -> & H1). rewrite bind_Ok.
    destruct (IH _ _ (drop 512 inp) ltac:(rewrite length_drop; lia) H1) as (st2 & -> & H2).
    assert (whole inp = 512 + whole (drop 512 inp))%nat as Hw.
    { rewrite !whole_div, length_drop. replace (length inp) with (length inp - 512 + 1 * 512)%nat at 1 by lia.
      rewrite Nat.div_add by lia. lia. }
    exists st2. split; [by rewrite Hw, drop_drop|]. rewrite Hw, <- app_assoc in *.
    rewrite <- take_take_drop.
    rewrite leaf_data_app by (rewrite length_take, Nat.min_l by lia; done).
    rewrite (leaf_data_stripe i (take 512 inp)) by (rewrite ?length_take; lia).
    rewrite take_drop_commute, take_take, Nat.min_l, <- take_drop_commute by lia. done.
  - exists st. assert (whole inp = 0)%nat as -> by (unfold whole; rewrite Nat.mod_small by lia; lia).
    by rewrite app_nil_r.
Qed.

(** The leaf [i] of a new tree. *)
Definition leaf0 (outlen keylen i : nat) : blake2s_state :=
  if (i =? 7)%nat then set_last_node (blake2sp_init_leaf outlen keylen i) else blake2sp_init_leaf outlen keylen i.

Lemma init_leaves_lookup outlen keylen i st :
  init_leaves outlen keylen !! i = Some st → (i < 8)%nat ∧ st = leaf0 outlen keylen i.
Proof. do 8 (destruct i as [|i]; [intros [= <-]; split; [lia|reflexivity]|]). done. Qed.

Lemma fresh_leaf outlen keylen i : fresh_state (leaf0 outlen keylen i) ∧ b2_outlen (leaf0 outlen keylen i) = 32%nat.
Proof. unfold leaf0. destruct (i =? 7)%nat; repeat split; apply le_n. Qed.

Lemma leaf_final outlen key d i st :
  absorbed (leaf0 outlen (length key) i) (key_prefix key ++ leaf_data i d) st →
  ∃ st', blake2s_final st 32 = Ok (0, leaf_hash outlen key d i, st').
Proof.
  intros Ha. destruct (fresh_leaf outlen (length key) i) as [Hfr Ho].
  destruct (final_spec _ _ _ 32 Hfr Ha) as (st' & ->); [lia|]. exists st'. unfold leaf_hash. rewrite keyed_prefix.
  unfold node_hash, digest, leaf0. by destruct (i =? 7)%nat.
Qed.

(** The part of a leaf in an incomplete stripe [r]. *)
Lemma leaf_rest src r i st0 x st n :
  (i < 8)%nat → (length r <= 512)%nat → (length r <= length src)%nat → take (length r) src = r →
  n = Nat.min 64 (length r - i * 64) → absorbed st0 x st →
  ∃ st', (if (i * 64 <? length r)%nat then block ← bytes_at src (i * 64) n; blake2s_update st block else Ok st) = Ok st' ∧
    absorbed st0 (x ++ leaf_data i r) st'.
Proof.
  intros Hi Hr Hl Ht -> Ha. rewrite leaf_data_stripe by done. destruct (Nat.ltb_spec (i * 64) (length r)).
  - rewrite bytes_at_ok, bind_Ok by lia.
    replace (take (64 `min` (length r - i * 64)) (drop (i * 64) src)) with (take 64 (drop (i * 64) r)); [by apply update_spec|].
    rewrite <- Ht at 1. rewrite !take_drop_commute, take_take. f_equal. f_equal. lia.
  - exists st. by rewrite drop_ge, take_nil, app_nil_r by lia.
Qed.

Lemma feed_root_spec st0 d st hashes :
  absorbed st0 d st → ∃ st', feed_root st hashes = Ok st' ∧ absorbed st0 (d ++ concat hashes) st'.
Proof.
  revert d st. induction hashes as [|h hashes IH]; intros d st H; [exists st; by rewrite app_nil_r|].
  cbn [feed_root concat]. destruct (update_spec st0 d st h H) as (st1 & -> & H1). rewrite bind_Ok.
  rewrite app_assoc. by apply IH.
Qed.

Definition root0 (outlen keylen : nat) : blake2s_state := set_last_node (blake2sp_init_root outlen keylen).

(** From the digests of the leaves to the digest of the message. *)
Lemma root_hash outlen key d hashes :
  (0 < outlen <= 32)%nat → length hashes = 8%nat → (∀ i h, hashes !! i = Some h → h = leaf_hash outlen key d i) →
  (root ← feed_root (root0 outlen (length key)) hashes;
   '(code, out, _) ← blake2s_final root outlen; Ok (code, out)) = Ok (0, blake2sp_spec outlen key d).
Proof.
  intros Ho Hl Hh.
  assert (hashes = leaf_hash outlen key d <$> seq 0 8) as ->.
  { apply list_eq_same_length with (n := 8%nat); [reflexivity|done|]. intros i h h' Hi E1 E2.
    rewrite list_lookup_fmap, lookup_seq_lt in E2 by lia. injection E2 as <-. by apply Hh. }
  assert (b2_outlen (root0 outlen (length key)) = outlen) as Eo.
  { cbn [root0 set_last_node blake2sp_init_root blake2s_init_param set_outlen b2_outlen root_param p_digest_length].
    rewrite digest_length_ok; lia. }
  assert (fresh_state (root0 outlen (length key))) as Hfr by (repeat split; rewrite Eo; lia).
  destruct (feed_root_spec _ [] _ (leaf_hash outlen key d <$> seq 0 8) (absorbed_fresh _ Hfr)) as (st & -> & Ha).
  rewrite bind_Ok. destruct (final_spec _ _ _ outlen Hfr Ha) as (st' & ->); [lia|]. done.
Qed.

(** The leaves after the key. *)
Lemma keyed_leaves outlen key :
  (length key <= 32)%nat →
  ∃ leaves, (if (0 <? length key)%nat then key_leaves key (init_leaves outlen (length key))
             else Ok (init_leaves outlen (length key))) = Ok leaves ∧
    length leaves = 8%nat ∧
    ∀ i st, leaves !! i = Some st → absorbed (leaf0 outlen (length key) i) (key_prefix key) st.
Proof.
  intros Hk. destruct (Nat.ltb_spec 0 (length key)).
  - unfold key_leaves. rewrite key_block_ok, bind_Ok by lia.
    apply (for_leaves_spec _ (λ i st, absorbed (leaf0 outlen (length key) i) [] st)
             (λ i st, absorbed (leaf0 outlen (length key) i) (key_prefix key) st) 0).
    + intros i st _. apply (update_spec _ []).
    + intros i st [_ ->]%init_leaves_lookup. apply absorbed_fresh, fresh_leaf.
  - eexists. split; [done|]. split; [done|]. intros i st [_ ->]%init_leaves_lookup.
    destruct key; [|cbn in *; lia]. apply absorbed_fresh, fresh_leaf.
Qed.

Lemma leaf_data_whole i d : leaf_data i d = leaf_data i (take (whole d) d) ++ leaf_data i (drop (whole d) d).
Proof.
  rewrite <- leaf_data_app, take_drop; [done|].
  rewrite length_take, Nat.min_l by (unfold whole; lia). rewrite whole_div, Nat.mul_comm. apply Nat.Div0.mod_mul.
Qed.

Lemma length_after_whole d : length (drop (whole d) d) = (length d mod 512)%nat.
Proof. rewrite length_drop. unfold whole. pose proof (Nat.Div0.mod_le (length d) 512). lia. Qed.

(** The one-shot function on one leaf. *)
Lemma blake2sp_oneshot outlen key d :
  (0 < outlen <= 32)%nat → (length key <= 32)%nat → blake2sp outlen d key = Ok (0, blake2sp_spec outlen key d).
Proof.
  intros Ho Hk. unfold blake2sp. rewrite out_refused by done.
  rewrite (proj2 (Nat.ltb_ge _ _)) by (unfold BLAKE2S_KEYBYTES; lia).
  destruct (keyed_leaves outlen key Hk) as (leaves & -> & Hl & Hleaves). rewrite bind_Ok.
  match goal with |- context [for_leaves ?f _ _] => set (g := f) end.
  destruct (for_leaves_spec g (λ i st, absorbed (leaf0 outlen (length key) i) (key_prefix key) st)
    (λ i h, h = leaf_hash outlen key d i) 0 leaves) as (hashes & -> & Hl' & Hh); [|exact Hleaves|].
  - intros i st Hi Ha. unfold g, BLAKE2S_BLOCKBYTES, BLAKE2S_OUTBYTES.
    destruct (leaf_stripes_spec (length d) i _ _ _ d ltac:(lia) ltac:(lia) Ha) as (st1 & -> & H1). rewrite bind_Ok.
    set (r := drop (whole d) d) in *.
    pose proof (length_after_whole d) as Hr. fold r in Hr. pose proof (Nat.mod_upper_bound (length d) 512).
    assert ((if (length r - i * 64 <=? 64)%nat then (length r - i * 64)%nat else 64%nat) = Nat.min 64 (length r - i * 64)) as En
      by (destruct (Nat.leb_spec (length r - i * 64) 64); lia).
    destruct (leaf_rest r r i _ _ st1 _ ltac:(lia) ltac:(lia) ltac:(lia) ltac:(by apply take_ge) En H1) as (st2 & -> & H2).
    rewrite bind_Ok. rewrite <- app_assoc, <- leaf_data_whole in H2.
    destruct (leaf_final _ _ _ _ _ H2) as (st3 & ->). by eexists.
  - rewrite bind_Ok. apply root_hash; [done|lia|exact Hh].
Qed.

(** ** The streaming interface of BLAKE2sp *)

(** Every leaf of [leaves] has its part of the stripes [full]. *)
Definition leaves_at (outlen : nat) (key full : byte_array) (leaves : list blake2s_state) : Prop :=
  length leaves = 8%nat ∧
  ∀ i st, leaves !! i = Some st → absorbed (leaf0 outlen (length key) i) (key_prefix key ++ leaf_data i full) st.

(** [sp] is the state of a tree after the data [d]: the whole stripes are in the
    leaves, the rest in the buffer. *)
Definition sp_inv (outlen : nat) (key d : byte_array) (sp : blake2sp_state) : Prop :=
  ∃ full rest, d = full ++ rest ∧ (length full mod 512 = 0)%nat ∧ (length rest < 512)%nat ∧
    leaves_at outlen key full (sp_S sp) ∧ sp_R sp = root0 outlen (length key) ∧ sp_outlen sp = outlen ∧
    length (sp_buf sp) = 512%nat ∧ sp_buflen sp = length rest ∧ take (length rest) (sp_buf sp) = rest.

Lemma stripes_leaves outlen key full leaves inp :
  (length full mod 512 = 0)%nat → leaves_at outlen key full leaves →
  ∃ leaves', for_leaves (λ i st, '(st, _) ← leaf_stripes (length inp) (i * BLAKE2S_BLOCKBYTES) st inp; Ok st) 0 leaves
      = Ok leaves' ∧ leaves_at outlen key (full ++ take (whole inp) inp) leaves'.
Proof.
  intros Hf [Hl Ha]. match goal with |- context [for_leaves ?f _ _] => set (g := f) end.
  destruct (for_leaves_spec g (λ i st, absorbed (leaf0 outlen (length key) i) (key_prefix key ++ leaf_data i full) st)
    (λ i st, absorbed (leaf0 outlen (length key) i) (key_prefix key ++ leaf_data i (full ++ take (whole inp) inp)) st) 0 leaves)
    as (leaves' & -> & Hl' & Ha'); [|exact Ha|exists leaves'; split; [done|split; [lia|exact Ha']]].
  intros i st Hi H. unfold g, BLAKE2S_BLOCKBYTES. rewrite leaf_data_app, app_assoc by done.
  destruct (leaf_stripes_spec (length inp) i _ _ _ inp ltac:(lia) ltac:(lia) H) as (st1 & -> & H1). eauto.
Qed.

Lemma buffer_leaves outlen key full leaves buf :
  (length full mod 512 = 0)%nat → length buf = 512%nat → leaves_at outlen key full leaves →
  ∃ leaves', for_leaves (λ i st, block ← bytes_at buf (i * BLAKE2S_BLOCKBYTES) BLAKE2S_BLOCKBYTES;
                                 blake2s_update st block) 0 leaves
      = Ok leaves' ∧ leaves_at outlen key (full ++ buf) leaves'.
Proof.
  intros Hf Hb [Hl Ha]. match goal with |- context [for_leaves ?f _ _] => set (g := f) end.
  destruct (for_leaves_spec g (λ i st, absorbed (leaf0 outlen (length key) i) (key_prefix key ++ leaf_data i full) st)
    (λ i st, absorbed (leaf0 outlen (length key) i) (key_prefix key ++ leaf_data i (full ++ buf)) st) 0 leaves)
    as (leaves' & -> & Hl' & Ha'); [|exact Ha|exists leaves'; split; [done|split; [lia|exact Ha']]].
  intros i st Hi H. unfold g, BLAKE2S_BLOCKBYTES. rewrite bytes_at_ok, bind_Ok by lia.
  rewrite leaf_data_app, app_assoc, (leaf_data_stripe i buf) by lia. by apply update_spec.
Qed.

(** The second half of [blake2sp_update], once the buffer is empty or the piece
    is too short to fill it. *)
Lemma update_stripes outlen key full rest leaves buf inp R :
  (length full mod 512 = 0)%nat → leaves_at outlen key full leaves →
  length buf = 512%nat → take (length rest) buf = rest → R = root0 outlen (length key) →
  rest = [] ∨ (length rest + length inp < 512)%nat →
  ∃ sp, (leaves ← for_leaves (λ i st, '(st, _) ← leaf_stripes (length inp) (i * BLAKE2S_BLOCKBYTES) st inp; Ok st) 0 leaves;
         let inp := drop (length inp - length inp mod STRIPE) inp in
         buf ← (if (0 <? length inp)%nat then memcpy buf (length rest) inp else Ok buf);
         Ok {| sp_S := leaves; sp_R := R; sp_buf := buf;
               sp_buflen := (length rest + length inp)%nat; sp_outlen := outlen |}) = Ok sp ∧
    sp_inv outlen key (full ++ rest ++ inp) sp.
Proof.
  intros Hf Ha Hb Ht -> Hor. destruct (stripes_leaves outlen key full leaves inp Hf Ha) as (leaves' & -> & Ha').
  rewrite bind_Ok. change STRIPE with 512%nat. cbv zeta. fold (whole inp).
  pose proof (length_after_whole inp) as Hr. pose proof (Nat.mod_upper_bound (length inp) 512 ltac:(lia)).
  pose proof (Nat.Div0.mod_le (length inp) 512). set (r := drop (whole inp) inp) in *.
  assert (∃ buf', (if (0 <? length r)%nat then memcpy buf (length rest) r else Ok buf) = Ok buf' ∧
    length buf' = 512%nat ∧ take (length rest + length r) buf' = rest ++ r) as (buf' & -> & Hb' & Ht').
  { destruct (Nat.ltb_spec 0 (length r)).
    - destruct (memcpy_spec buf (length rest) r) as (buf' & -> & Hl & E); [destruct Hor as [-> |]; cbn; lia|].
      exists buf'. rewrite E, Ht. split; [done|]. by split; [lia|].
    - exists buf. destruct r; [|cbn in *; lia]. rewrite app_nil_r, Nat.add_0_r. done. }
  rewrite bind_Ok. eexists. split; [done|]. exists (full ++ take (whole inp) inp), (rest ++ r).
  assert (rest = [] ∨ whole inp = 0%nat) as Hor'.
  { destruct Hor as [|Hlt]; [by left|right]. unfold whole. rewrite Nat.mod_small; lia. }
  split; [|split; [|split; [|split; [done|]]]]; cbn [sp_R sp_outlen sp_buf sp_buflen].
  - rewrite <- !app_assoc. f_equal. unfold r. destruct Hor' as [-> | ->]; [by rewrite !app_nil_l, take_drop|done].
  - rewrite length_app, length_take, Nat.min_l by (unfold whole; lia). rewrite whole_div, Nat.mul_comm.
    rewrite Nat.Div0.mod_add. done.
  - rewrite length_app. destruct Hor as [-> |]; cbn; lia.
  - rewrite length_app. done.
Qed.

Lemma sp_update_spec outlen key d sp inp :
  sp_inv outlen key d sp → ∃ sp', blake2sp_update sp inp = Ok sp' ∧ sp_inv outlen key (d ++ inp) sp'.
Proof.
  intros (full & rest & -> & Hf & Hr & Ha & HR & Ho & Hb & Hn & Ht). unfold blake2sp_update, sp_refill.
  change STRIPE with 512%nat. rewrite Hn, Ho, <- app_assoc.
  destruct (negb (length rest =? 0)%nat && (512 - length rest <=? length inp)%nat) eqn:E.
  - apply andb_true_iff in E as [_ E%Nat.leb_le]. set (fill := (512 - length rest)%nat) in *.
    rewrite memcpy_full by (rewrite length_take; lia). rewrite bind_Ok, Ht.
    assert (length (rest ++ take fill inp) = 512%nat) as Hb' by (rewrite length_app, length_take; lia).
    destruct (buffer_leaves outlen key full (sp_S sp) (rest ++ take fill inp) Hf Hb' Ha) as (leaves & -> & Ha').
    rewrite !bind_Ok.
    destruct (update_stripes outlen key (full ++ rest ++ take fill inp) [] leaves (rest ++ take fill inp) (drop fill inp) (sp_R sp))
      as (sp' & Es & Hs); try done; [|by left|].
    { rewrite length_app, Hb', Nat.Div0.add_mod, Hf. done. }
    exists sp'. split; [exact Es|]. rewrite app_nil_l, <- !app_assoc, take_drop in Hs. done.
  - rewrite bind_Ok. apply update_stripes; try done.
    apply andb_false_iff in E as [E|E%Nat.leb_gt]; [left|right; lia].
    apply negb_false_iff, Nat.eqb_eq in E. by destruct rest.
Qed.

Lemma sp_updates_spec outlen key d sp pieces :
  sp_inv outlen key d sp →
  ∃ sp', updates blake2sp_update sp pieces = Ok sp' ∧ sp_inv outlen key (d ++ concat pieces) sp'.
Proof.
  revert d sp. induction pieces as [|inp pieces IH]; intros d sp H; [exists sp; by rewrite app_nil_r|].
  cbn [updates concat]. destruct (sp_update_spec _ _ d sp inp H) as (sp1 & -> & H1). rewrite bind_Ok.
  rewrite app_assoc. by apply IH.
Qed.

Lemma sp_final_spec outlen key d sp :
  (0 < outlen <= 32)%nat → sp_inv outlen key d sp → blake2sp_final sp outlen = Ok (0, blake2sp_spec outlen key d).
Proof.
  intros Ho (full & rest & -> & Hf & Hr & [Hl Ha] & HR & Hso & Hb & Hn & Ht).
  unfold blake2sp_final. rewrite Hso, (proj2 (Nat.ltb_ge _ _)) by lia.
  match goal with |- context [for_leaves ?f _ _] => set (g := f) end.
  destruct (for_leaves_spec g (λ i st, absorbed (leaf0 outlen (length key) i) (key_prefix key ++ leaf_data i full) st)
    (λ i h, h = leaf_hash outlen key (full ++ rest) i) 0 (sp_S sp)) as (hashes & -> & Hl' & Hh); [|exact Ha|].
  - intros i st Hi H. unfold g, BLAKE2S_BLOCKBYTES, BLAKE2S_OUTBYTES. rewrite Hn. cbv zeta.
    assert ((if (64 <? length rest - i * 64)%nat then 64%nat else (length rest - i * 64)%nat) = Nat.min 64 (length rest - i * 64)) as En
      by (destruct (Nat.ltb_spec 64 (length rest - i * 64)); lia).
    destruct (leaf_rest (sp_buf sp) rest i _ _ st _ ltac:(lia) ltac:(lia) ltac:(lia) Ht En H) as (st2 & -> & H2).
    rewrite bind_Ok. rewrite <- app_assoc, <- leaf_data_app in H2 by done.
    destruct (leaf_final _ _ _ _ _ H2) as (st3 & ->). by eexists.
  - rewrite bind_Ok, HR. apply root_hash; [done|lia|exact Hh].
Qed.

Lemma sp_init_spec outlen key :
  (0 < outlen <= 32)%nat → (length key <= 32)%nat →
  ∃ sp, (if (0 <? length key)%nat then blake2sp_init_key outlen key else Ok (blake2sp_init outlen)) = Ok (Some sp) ∧
    sp_inv outlen key [] sp.
Proof.
  intros Ho Hk. destruct (keyed_leaves outlen key Hk) as (leaves & E & Hl & Ha).
  assert (∀ sp, sp_S sp = leaves → sp_R sp = root0 outlen (length key) → sp_buf sp = replicate STRIPE 0 →
    sp_buflen sp = 0%nat → sp_outlen sp = outlen → sp_inv outlen key [] sp) as Hsp.
  { intros sp HS HR HB HN HO. exists [], []. rewrite HS, HR, HB, HN, HO. repeat split; try done.
    - cbn. lia.
    - intros i st Hi. rewrite app_nil_r. by apply Ha. }
  unfold blake2sp_init_key, blake2sp_init. rewrite out_refused by done. destruct (Nat.ltb_spec 0 (length key)).
  - rewrite key_refused, E, bind_Ok by lia. eexists. split; [done|]. by apply Hsp.
  - injection E as E. assert (length key = 0)%nat as E0 by lia. eexists. split; [done|].
    apply Hsp; cbn [sp_S sp_R sp_buf sp_buflen sp_outlen]; rewrite <- ?E, ?E0; done.
Qed.

(** C8: [blake2sp] computes the BLAKE2sp tree hash of the specification for every
    message, key and digest length it accepts, and refuses the others; the
    streaming interface, which buffers stripes of eight blocks, gives the same
    outcome however the message is cut into pieces; no copy leaves its array. *)
Theorem blake2sp_correct outlen key pieces :
  let outcome := if accepted outlen key then (0, blake2sp_spec outlen key (concat pieces)) else (-1, []) in
  blake2sp outlen (concat pieces) key = Ok outcome ∧ blake2sp_stream outlen key pieces = Ok outcome.
Proof.
  cbv zeta. destruct (accepted outlen key) eqn:Ea.
  - apply accepted_true in Ea as [Ho Hk]. split; [by apply blake2sp_oneshot|].
    unfold blake2sp_stream. destruct (sp_init_spec outlen key Ho Hk) as (sp & -> & Hs). rewrite bind_Ok.
    destruct (sp_updates_spec _ _ _ _ pieces Hs) as (sp' & -> & Hs'). rewrite bind_Ok. by apply sp_final_spec.
  - unfold blake2sp, blake2sp_stream. destruct (refused_lengths _ _ Ea) as [E|(E & E1 & E2 & E3)].
    + rewrite E. split; [done|]. unfold blake2sp_init_key, blake2sp_init. rewrite E. by destruct (0 <? length key)%nat.
    + rewrite E, E1, E3. split; [done|]. unfold blake2sp_init_key. by rewrite E, E2.
Qed.

(** ** Types

    Every word of a state stays a 32-bit word, so the operators of the model that
    do not wrap ([lxor], [lor], the right shift) are those of [uint32_t]. *)

Lemma log2_unsigned w a : 0 < w → 0 <= a → (is_unsigned w a ↔ Z.log2 a < w).
Proof.
  intros Hw Ha. unfold is_unsigned. destruct (decide (a = 0)) as [-> |].
  - cbn. split; intros; [lia|]. split; [lia|]. by apply Z.pow_pos_nonneg; lia.
  - rewrite <- Z.log2_lt_pow2 by lia. lia.
Qed.

Lemma lxor_unsigned w a b : 0 < w → is_unsigned w a → is_unsigned w b → is_unsigned w (Z.lxor a b).
Proof.
  intros Hw Ha Hb. assert (0 <= a ∧ 0 <= b) as [Ha0 Hb0] by (unfold is_unsigned in *; lia).
  assert (0 <= Z.lxor a b) by (by apply Z.lxor_nonneg).
  apply log2_unsigned; try done. apply log2_unsigned in Ha, Hb; try done. pose proof (Z.log2_lxor a b Ha0 Hb0). lia.
Qed.

Lemma lor_unsigned w a b : 0 < w → is_unsigned w a → is_unsigned w b → is_unsigned w (Z.lor a b).
Proof.
  intros Hw Ha Hb. assert (0 <= a ∧ 0 <= b) as [Ha0 Hb0] by (unfold is_unsigned in *; lia).
  assert (0 <= Z.lor a b) by (by apply Z.lor_nonneg).
  apply log2_unsigned; try done. apply log2_unsigned in Ha, Hb; try done. pose proof (Z.log2_lor a b Ha0 Hb0). lia.
Qed.

Lemma rotr32_u32 w c : is_u32 w → 0 <= c → is_u32 (rotr32 w c).
Proof.
  intros Hw Hc. apply lor_unsigned; [lia| |apply u32_range]. rewrite shiftr_div by lia.
  unfold is_u32, is_unsigned in *. split; [apply Z.div_pos; lia|].
  apply Z.le_lt_trans with w; [|lia]. apply Z.div_le_upper_bound; [lia|]. nia.
Qed.

Definition words_ok (l : list Z) : Prop := Forall is_u32 l.

Lemma at_word_u32 l i : words_ok l → is_u32 (at_word l i).
Proof.
  intros H. unfold at_word. rewrite nth_lookup. destruct (l !! i) as [w|] eqn:E; [|cbn; unfold_widths; lia].
  by eapply Forall_lookup_1.
Qed.

Lemma at_byte_u8 l i : bytes_ok l → is_u8 (at_word l i).
Proof.
  intros H. unfold at_word. rewrite nth_lookup. destruct (l !! i) as [w|] eqn:E; [|cbn; unfold_widths; lia].
  by eapply Forall_lookup_1.
Qed.

Lemma load32_u32 p : bytes_ok p → is_u32 (load32 p).
Proof.
  intros H. unfold load32.
  pose proof (at_byte_u8 p 0 H). pose proof (at_byte_u8 p 1 H). pose proof (at_byte_u8 p 2 H). pose proof (at_byte_u8 p 3 H).
  rewrite !shiftl_mul by lia. repeat apply lor_unsigned; try lia; unfold_widths; lia.
Qed.

Lemma put_sum a x v : words_ok v → words_ok (<[a := u32 x]> v).
Proof. intros Hv. apply Forall_insert; [done|apply u32_range]. Qed.

Lemma put_rotated d a c v :
  0 <= c → words_ok v → words_ok (<[d := rotr32 (Z.lxor (at_word v d) (at_word v a)) c]> v).
Proof.
  intros Hc Hv. apply Forall_insert; [done|]. apply rotr32_u32; [|done].
  apply lxor_unsigned; [lia|..]; by apply at_word_u32.
Qed.

Lemma G_ok r i a b c d m v : words_ok v → words_ok (G r i a b c d m v).
Proof. intros Hv. unfold G. repeat (apply put_sum || (apply put_rotated; [lia|])). done. Qed.

Lemma length_G r i a b c d m v : length (G r i a b c d m v) = length v.
Proof. unfold G. by rewrite !length_insert. Qed.

Lemma compress_ok h t0 t1 f0 f1 inp :
  words_ok h → is_u32 t0 → is_u32 t1 → is_u32 f0 → is_u32 f1 → words_ok (compress h t0 t1 f0 f1 inp).
Proof.
  intros Hh H0 H1 H2 H3. unfold compress.
  assert (words_ok blake2s_IV) as Hiv by (repeat constructor; by vm_compute).
  set (v0 := _ ++ _). assert (words_ok v0) as Hv0.
  { apply Forall_app. split; [by apply Forall_take|].
    repeat apply Forall_cons_2; try apply Forall_nil_2; try (by apply at_word_u32);
      (apply lxor_unsigned; [lia|done|by apply at_word_u32]). }
  assert (words_ok (foldl (ROUND (message_words inp)) v0 (seq 0 10))) as Hv.
  { clearbody v0. generalize (seq 0 10) as rs. intros rs. revert v0 Hv0.
    induction rs as [|r rs IH]; intros v Hv; [done|]. apply IH. unfold ROUND. by repeat apply G_ok. }
  generalize dependent (foldl (ROUND (message_words inp)) v0 (seq 0 10)). intros v Hv.
  apply Forall_lookup. intros i w Hw. rewrite list_lookup_imap in Hw.
  destruct (h !! i) as [x|] eqn:Ex; [|done]. injection Hw as <-.
  apply lxor_unsigned; [lia| |by apply at_word_u32]. apply lxor_unsigned; [lia| |by apply at_word_u32].
  exact (Forall_lookup_1 _ _ _ _ Hh Ex).
Qed.

(** A state of the type [blake2s_state] whose buffer is not overfull. *)
Record state_typed (st : blake2s_state) : Prop := {
  typed_h : length (b2_h st) = 8%nat ∧ words_ok (b2_h st);
  typed_t : is_u32 (b2_t0 st) ∧ is_u32 (b2_t1 st);
  typed_f : is_u32 (b2_f0 st) ∧ is_u32 (b2_f1 st);
  typed_buf : length (b2_buf st) = 64%nat ∧ bytes_ok (b2_buf st);
  typed_len : (b2_buflen st <= 64)%nat ∧ (b2_outlen st <= 32)%nat;
  typed_node : is_u8 (b2_last_node st);
}.

Lemma increment_typed st inc : state_typed st → state_typed (blake2s_increment_counter st inc).
Proof. intros []. split; try done. split; apply u32_range. Qed.

Lemma compress_typed st inp : state_typed st → state_typed (blake2s_compress st inp).
Proof.
  intros [[? ?] [] [] ? ? ?]. split; try done. split; [|by apply compress_ok].
  cbn [blake2s_compress set_h b2_h]. etrans; [apply length_imap|done].
Qed.

Lemma set_buf_typed buf n st :
  state_typed st → length buf = 64%nat → bytes_ok buf → (n <= 64)%nat → state_typed (set_buf buf n st).
Proof. intros [? ? ? ? [] ?] **. by split. Qed.

Lemma lastblock_typed st : state_typed st → state_typed (blake2s_set_lastblock st).
Proof.
  intros [? ? [] ? ? ?]. unfold blake2s_set_lastblock.
  destruct (_ =? 0); split; try done; split; try done; apply u32_range.
Qed.

Lemma memcpy_typed dst off src :
  (off + length src <= length dst)%nat → bytes_ok dst → bytes_ok src →
  ∃ buf, memcpy dst off src = Ok buf ∧ length buf = length dst ∧ bytes_ok buf.
Proof.
  intros H Hd Hs. destruct (memcpy_spec dst off src H) as (buf & E & Hl & _). exists buf. split; [done|]. split; [done|].
  unfold memcpy in E. rewrite (proj2 (Nat.leb_le _ _) H) in E. injection E as <-.
  apply bytes_ok_app. split; [by apply bytes_ok_take|]. apply bytes_ok_app. split; [done|by apply bytes_ok_drop].
Qed.

Lemma update_blocks_typed fuel st inp st' rest :
  state_typed st → update_blocks fuel st inp = (st', rest) →
  state_typed st' ∧ b2_buflen st' = b2_buflen st ∧ ∃ n, rest = drop n inp.
Proof.
  revert st inp. induction fuel as [|fuel IH]; intros st inp Hst; cbn [update_blocks].
  { intros [= <- <-]. split; [done|]. split; [done|]. by exists 0%nat. }
  destruct (_ <? _)%nat; [|intros [= <- <-]; split; [done|]; split; [done|]; by exists 0%nat].
  intros E. apply IH in E as (? & ? & n & ->); [|by apply compress_typed, increment_typed].
  split; [done|]. split; [done|]. exists (64 + n)%nat. by rewrite drop_drop.
Qed.

Lemma update_typed st inp :
  state_typed st → bytes_ok inp → ∃ st', blake2s_update st inp = Ok st' ∧ state_typed st'.
Proof.
  intros Hst Hi. pose proof (typed_buf _ Hst) as [Hb1 Hb2]. pose proof (typed_len _ Hst) as [Hn Ho].
  unfold blake2s_update. destruct (Nat.ltb_spec 0 (length inp)); [|by exists st].
  destruct (Nat.ltb_spec (BLAKE2S_BLOCKBYTES - b2_buflen st) (length inp)) as [Hlt|Hge]; unfold BLAKE2S_BLOCKBYTES in *.
  - set (fill := (64 - b2_buflen st)%nat) in *. cbn [set_buf b2_buf b2_buflen].
    destruct (memcpy_typed (b2_buf st) (b2_buflen st) (take fill inp)) as (buf & -> & Hl & Hok); [|done|by apply bytes_ok_take|].
    { rewrite length_take. lia. }
    rewrite !bind_Ok. match goal with |- context [update_blocks _ ?x _] => set (st1 := x) end.
    assert (state_typed st1) as Hst1 by (apply compress_typed, increment_typed; apply set_buf_typed; [apply set_buf_typed|..]; try done; lia).
    destruct (update_blocks_spec (length inp) st1 (drop fill inp)) as (blocks & rest & E & _ & _ & Hr & _).
    { rewrite length_drop. lia. }
    { intros E%(f_equal length). rewrite length_drop in E. cbn in E. lia. }
    rewrite E. destruct (update_blocks_typed _ _ _ _ _ Hst1 E) as (Ht & En & n & ->).
    change (b2_buflen st1) with 0%nat in En. rewrite En. pose proof (typed_buf _ Ht) as [Hb3 Hb4].
    destruct (memcpy_typed (b2_buf (advance st1 blocks)) 0 (drop n (drop fill inp))) as (buf' & -> & Hl' & Hok');
      [lia|done|by apply bytes_ok_drop, bytes_ok_drop|].
    rewrite bind_Ok. eexists. split; [done|]. apply set_buf_typed; try done; lia.
  - rewrite bind_Ok. destruct (memcpy_typed (b2_buf st) (b2_buflen st) inp) as (buf & -> & Hl & Hok); [lia|done|done|].
    rewrite bind_Ok. eexists. split; [done|]. apply set_buf_typed; try done; lia.
Qed.

Lemma store32s_ok h : bytes_ok (concat (store32 <$> h)).
Proof.
  induction h as [|w h IH]; [constructor|]. cbn [fmap list_fmap concat]. apply bytes_ok_app. split; [|done].
  repeat apply Forall_cons_2; try apply Forall_nil_2; apply wrap_range; lia.
Qed.

Lemma final_typed st outlen :
  state_typed st → (outlen <= 32)%nat →
  ∃ code out st', blake2s_final st outlen = Ok (code, out, st') ∧ state_typed st' ∧ bytes_ok out ∧
    (code = 0 ∧ length out = outlen ∨ code = -1 ∧ out = []).
Proof.
  intros Hst Ho. unfold blake2s_final. destruct (_ <? _)%nat; [by exists (-1), [], st; split_and!; [done|done|constructor|right]|].
  destruct (blake2s_is_lastblock st); [by exists (-1), [], st; split_and!; [done|done|constructor|right]|].
  set (st1 := blake2s_set_lastblock _). assert (state_typed st1) as H1 by (by apply lastblock_typed, increment_typed).
  pose proof (typed_buf _ H1) as [Hb1 Hb2]. pose proof (typed_len _ H1) as [Hn _].
  destruct (memcpy_typed (b2_buf st1) (b2_buflen st1) (replicate (64 - b2_buflen st1) 0)) as (buf & E & Hl & Hok);
    [rewrite length_replicate; lia|done|apply Forall_replicate; unfold_widths; lia|].
  unfold BLAKE2S_BLOCKBYTES. rewrite E, bind_Ok. set (st2 := blake2s_compress _ _).
  assert (state_typed st2) as H2 by (apply compress_typed, set_buf_typed; try done; lia).
  destruct (typed_h _ H2) as [Hh _]. rewrite take_ge by lia.
  rewrite bytes_at_ok, bind_Ok by (rewrite length_store32s; lia). do 3 eexists. split; [done|]. split; [done|].
  split; [by apply bytes_ok_take, store32s_ok|]. left. split; [done|]. rewrite drop_0, length_take, length_store32s. lia.
Qed.

(** A state of the type [blake2sp_state] whose buffer is not full. *)
Definition sp_typed (sp : blake2sp_state) : Prop :=
  length (sp_S sp) = 8%nat ∧ (∀ i st, sp_S sp !! i = Some st → state_typed st) ∧ state_typed (sp_R sp) ∧
  length (sp_buf sp) = 512%nat ∧ bytes_ok (sp_buf sp) ∧ (sp_buflen sp < 512)%nat ∧ (sp_outlen sp <= 32)%nat.

Lemma leaf_stripes_typed fuel off st inp :
  (off + 64 <= 512)%nat → state_typed st → bytes_ok inp →
  ∃ st' r, leaf_stripes fuel off st inp = Ok (st', r) ∧ state_typed st'.
Proof.
  intros Ho. revert st inp. induction fuel as [|fuel IH]; intros st inp Hst Hi; cbn [leaf_stripes]; [eauto|].
  change STRIPE with 512%nat. destruct (Nat.leb_spec 512 (length inp)); [|eauto]. unfold BLAKE2S_BLOCKBYTES.
  rewrite bytes_at_ok, bind_Ok by lia.
  destruct (update_typed st (take 64 (drop off inp))) as (st1 & -> & H1); [done|by apply bytes_ok_take, bytes_ok_drop|].
  rewrite bind_Ok. apply IH; [done|by apply bytes_ok_drop].
Qed.

Lemma for_leaves_typed (f : nat → blake2s_state → result blake2s_state) leaves :
  (∀ i st, (i < length leaves)%nat → state_typed st → ∃ st', f i st = Ok st' ∧ state_typed st') →
  (∀ i st, leaves !! i = Some st → state_typed st) →
  ∃ leaves', for_leaves f 0 leaves = Ok leaves' ∧ length leaves' = length leaves ∧
    ∀ i st', leaves' !! i = Some st' → state_typed st'.
Proof. apply (for_leaves_spec f (λ _, state_typed) (λ _, state_typed) 0). Qed.

Lemma sp_refill_typed sp inp :
  sp_typed sp → bytes_ok inp →
  ∃ leaves buf inp' unused, sp_refill sp inp = Ok (leaves, buf, inp', unused) ∧
    length leaves = 8%nat ∧ (∀ i st, leaves !! i = Some st → state_typed st) ∧ length buf = 512%nat ∧ bytes_ok buf ∧
    bytes_ok inp' ∧ (unused + length inp' mod 512 < 512)%nat.
Proof.
  intros (Hl & HS & HR & Hb & Hbo & Hn & Ho) Hi. unfold sp_refill. change STRIPE with 512%nat. cbv zeta.
  set (fill := (512 - sp_buflen sp)%nat). destruct (_ && _) eqn:E.
  - apply andb_true_iff in E as [_ E%Nat.leb_le].
    destruct (memcpy_typed (sp_buf sp) (sp_buflen sp) (take fill inp)) as (buf & -> & Hlb & Hok);
      [rewrite length_take; lia|done|by apply bytes_ok_take|]. rewrite bind_Ok.
    match goal with |- context [for_leaves ?f _ _] => destruct (for_leaves_typed f (sp_S sp)) as (leaves & -> & Hll & HSl) end; [|done|].
    { intros i st Hlt Hst. unfold BLAKE2S_BLOCKBYTES. rewrite bytes_at_ok, bind_Ok by lia.
      apply update_typed; [done|by apply bytes_ok_take, bytes_ok_drop]. }
    rewrite bind_Ok. do 4 eexists. split; [done|]. split_and!; try done; [lia|lia|by apply bytes_ok_drop|].
    apply Nat.mod_upper_bound. lia.
  - do 4 eexists. split; [done|]. split_and!; try done.
    apply andb_false_iff in E as [E|E%Nat.leb_gt].
    + apply negb_false_iff, Nat.eqb_eq in E. rewrite E. apply Nat.mod_upper_bound. lia.
    + rewrite Nat.mod_small; lia.
Qed.

Lemma sp_update_typed sp inp :
  sp_typed sp → bytes_ok inp → ∃ sp', blake2sp_update sp inp = Ok sp' ∧ sp_typed sp'.
Proof.
  intros Hsp Hi. unfold blake2sp_update.
  destruct (sp_refill_typed sp inp Hsp Hi) as (leaves & buf & inp' & unused & -> & Hl' & HS' & Hb' & Hbo' & Hi' & Hu).
  destruct Hsp as (_ & _ & HR & _ & _ & _ & Ho). rewrite bind_Ok. change STRIPE with 512%nat.
  match goal with |- context [for_leaves ?f _ _] => destruct (for_leaves_typed f leaves) as (leaves' & -> & Hll & HSl) end; [|done|].
  { intros i st Hlt Hst. unfold BLAKE2S_BLOCKBYTES.
    destruct (leaf_stripes_typed (length inp') (i * 64) st inp') as (st' & r & -> & H'); [lia|done|done|]. eauto. }
  rewrite bind_Ok. cbv zeta. fold (whole inp'). set (r := drop (whole inp') inp').
  pose proof (length_after_whole inp') as Hr. fold r in Hr.
  assert (∃ buf', (if (0 <? length r)%nat then memcpy buf unused r else Ok buf) = Ok buf' ∧ length buf' = 512%nat ∧ bytes_ok buf')
    as (buf' & -> & Hb2 & Hbo2).
  { destruct (_ <? _)%nat; [|by exists buf].
    destruct (memcpy_typed buf unused r) as (b & -> & Hlb & Hok); [lia|done|by apply bytes_ok_drop|]. exists b. by rewrite Hlb. }
  rewrite bind_Ok. eexists. split; [done|]. split_and!; cbn [sp_S sp_R sp_buf sp_buflen sp_outlen]; try done; lia.
Qed.

Lemma typed_init P :
  bytes_ok (param_bytes P) → 0 <= p_digest_length P <= 32 → state_typed (blake2s_init_param P).
Proof.
  intros Hp Hd. split; cbn [blake2s_init_param set_outlen set_h blake2s_init0 b2_h b2_t0 b2_t1 b2_f0 b2_f1 b2_buf b2_buflen b2_outlen b2_last_node].
  2,3,5,6: unfold_widths; lia.
  - split; [reflexivity|]. apply Forall_lookup. intros i w Hw. rewrite list_lookup_imap in Hw.
    destruct (blake2s_IV !! i) as [x|] eqn:Ex; [|done]. injection Hw as <-.
    apply lxor_unsigned; [lia| |by apply load32_u32, bytes_ok_drop].
    refine (Forall_lookup_1 is_u32 blake2s_IV i x _ Ex). repeat constructor; by vm_compute.
  - split; [reflexivity|]. apply Forall_replicate. unfold_widths. lia.
Qed.

Lemma marked_typed st : state_typed st → state_typed (set_last_node st).
Proof. intros []. by split. Qed.

Lemma store_ok w : bytes_ok (store32 w) ∧ bytes_ok (store16 w).
Proof. split; repeat apply Forall_cons_2; try apply Forall_nil_2; apply wrap_range; lia. Qed.

(** The parameter blocks of the three kinds of node. *)
Lemma params_ok outlen keylen i :
  bytes_ok (param_bytes (sequential_param outlen keylen)) ∧ bytes_ok (param_bytes (leaf_param outlen keylen i)) ∧
  bytes_ok (param_bytes (root_param outlen keylen)).
Proof.
  assert (∀ x, is_u8 (u8 x)) by (intros; apply wrap_range; lia).
  assert (bytes_ok (replicate 8 0)) by (apply Forall_replicate; unfold_widths; lia).
  split_and!; unfold param_bytes; cbn [p_digest_length p_key_length p_fanout p_depth p_leaf_length p_node_offset p_xof_length
    p_node_depth p_inner_length p_salt p_personal sequential_param leaf_param root_param];
    repeat (apply bytes_ok_app; split); try apply store_ok; try done;
    repeat apply Forall_cons_2; try apply Forall_nil_2; try done; by vm_compute.
Qed.

Lemma key_prefix_ok key : bytes_ok key → bytes_ok (key_prefix key).
Proof.
  intros H. destruct key; [done|]. apply bytes_ok_app. split; [done|]. apply Forall_replicate. unfold_widths. lia.
Qed.

Lemma init_typed outlen key :
  accepted outlen key = true → bytes_ok key →
  ∃ st, (if (0 <? length key)%nat then blake2s_init_key outlen key else Ok (blake2s_init outlen)) = Ok (Some st) ∧ state_typed st.
Proof.
  intros [Ho Hk]%accepted_true Hok.
  assert (state_typed (blake2s_init_param (sequential_param outlen (length key)))) as Hst.
  { apply typed_init; [apply (params_ok _ _ 0)|]. cbn [sequential_param p_digest_length]. rewrite digest_length_ok; lia. }
  unfold blake2s_init_key, blake2s_init. rewrite out_refused by lia. destruct (Nat.ltb_spec 0 (length key)).
  - rewrite key_refused, key_block_ok, bind_Ok by lia.
    destruct (update_typed _ (key_prefix key) Hst) as (st & -> & H'); [by apply key_prefix_ok|]. rewrite bind_Ok. eauto.
  - eexists. split; [done|]. by replace (length key) with 0%nat in Hst by lia.
Qed.

Lemma leaf_typed outlen keylen i : (outlen <= 32)%nat → state_typed (leaf0 outlen keylen i).
Proof.
  intros Ho. assert (state_typed (blake2sp_init_leaf outlen keylen i)) as H.
  { unfold blake2sp_init_leaf, blake2sp_init_leaf_param.
    destruct (typed_init (leaf_param outlen keylen i)) as []; [apply params_ok| |].
    - cbn [leaf_param p_digest_length]. rewrite digest_length_ok; lia.
    - split; try done. split; [cbn; lia|]. cbn [set_outlen b2_outlen leaf_param p_inner_length]. unfold BLAKE2S_OUTBYTES. lia. }
  unfold leaf0. destruct (i =? 7)%nat; [by apply marked_typed|done].
Qed.

Lemma sp_init_typed outlen key :
  accepted outlen key = true → bytes_ok key →
  ∃ sp, (if (0 <? length key)%nat then blake2sp_init_key outlen key else Ok (blake2sp_init outlen)) = Ok (Some sp) ∧ sp_typed sp.
Proof.
  intros [Ho Hk]%accepted_true Hok.
  assert (state_typed (root0 outlen (length key))) as HR.
  { apply marked_typed, typed_init; [apply (params_ok _ _ 0)|]. cbn [root_param p_digest_length]. rewrite digest_length_ok; lia. }
  assert (∀ i st, init_leaves outlen (length key) !! i = Some st → state_typed st) as HS.
  { intros i st [_ ->]%init_leaves_lookup. apply leaf_typed. lia. }
  assert (bytes_ok (replicate STRIPE 0)) as HB by (apply Forall_replicate; unfold_widths; lia).
  unfold blake2sp_init_key, blake2sp_init. rewrite out_refused by lia. destruct (Nat.ltb_spec 0 (length key)).
  - unfold key_leaves. rewrite key_refused, key_block_ok, bind_Ok by lia.
    destruct (for_leaves_typed (λ _ st, blake2s_update st (key_prefix key)) (init_leaves outlen (length key))) as (leaves & -> & Hl & HS'); [|done|].
    { intros i st _ Hst. apply update_typed; [done|]. by apply key_prefix_ok. }
    rewrite bind_Ok. eexists. split; [done|]. split_and!; cbn [sp_S sp_R sp_buf sp_buflen sp_outlen]; try done; lia.
  - eexists. split; [done|]. replace (length key) with 0%nat in * by lia.
    split_and!; cbn [sp_S sp_R sp_buf sp_buflen sp_outlen]; try done; lia.
Qed.

Lemma updates_typed {St} (update : St → byte_array → result St) (ok : St → Prop) st pieces :
  (∀ st inp, ok st → bytes_ok inp → ∃ st', update st inp = Ok st' ∧ ok st') →
  ok st → Forall bytes_ok pieces → ∃ st', updates update st pieces = Ok st' ∧ ok st'.
Proof.
  intros Hu Hst Hp. revert st Hst. induction Hp as [|inp pieces Hi _ IH]; intros st Hst; [by exists st|].
  cbn [updates]. destruct (Hu st inp Hst Hi) as (st1 & -> & H1). rewrite bind_Ok. by apply IH.
Qed.

(** On bytes, every state of the two hash functions is well typed: its words
    are 32-bit words, its arrays have their sizes and hold bytes, and the fill
    levels stay within the buffers; and a BLAKE2s state that is finished writes
    as many bytes as it was asked for. *)
Theorem blake2_typed outlen key pieces :
  accepted outlen key = true → bytes_ok key → Forall bytes_ok pieces →
  (∃ st st' out st'',
     (if (0 <? length key)%nat then blake2s_init_key outlen key else Ok (blake2s_init outlen)) = Ok (Some st) ∧
     updates blake2s_update st pieces = Ok st' ∧ state_typed st' ∧
     blake2s_final st' outlen = Ok (0, out, st'') ∧ state_typed st'' ∧ length out = outlen ∧ bytes_ok out) ∧
  (∃ sp sp',
     (if (0 <? length key)%nat then blake2sp_init_key outlen key else Ok (blake2sp_init outlen)) = Ok (Some sp) ∧
     updates blake2sp_update sp pieces = Ok sp' ∧ sp_typed sp').
Proof.
  intros Ha Hk Hp. pose proof (accepted_true _ _ Ha) as [Ho Hl]. split.
  - destruct (init_typed _ _ Ha Hk) as (st & E & Hst).
    destruct (init_spec outlen key Ho Hl) as (st0 & E0 & Hab). rewrite E in E0. injection E0 as <-.
    destruct (updates_typed _ _ st pieces update_typed Hst Hp) as (st' & E' & Hst').
    destruct (updates_spec _ _ _ pieces Hab) as (st1 & E1 & Hab'). rewrite E' in E1. injection E1 as <-.
    destruct (sequential_final _ _ _ _ Ho Hab') as (st'' & Ef).
    destruct (final_typed st' outlen Hst' ltac:(lia)) as (code & out & st2 & Ef' & Ht & Hb & Hor).
    rewrite Ef in Ef'. injection Ef' as <- <- <-. destruct Hor as [[_ Hlen]|[? _]]; [|done].
    exists st, st'. do 2 eexists. by split_and!.
  - destruct (sp_init_typed _ _ Ha Hk) as (sp & E & Hsp).
    destruct (updates_typed _ _ sp pieces sp_update_typed Hsp Hp) as (sp' & E' & Hsp'). by exists sp, sp'.
Qed.

Lemma blake2_typed_witness :
  ∃ sp sp', blake2sp_init 32 = Some sp ∧ updates blake2sp_update sp [[1; 2]; [255]] = Ok sp' ∧ sp_typed sp'.
Proof.
  destruct (blake2_typed 32 [] [[1; 2]; [255]]) as [_ (sp & sp' & E & H)].
  - reflexivity.
  - constructor.
  - repeat constructor; unfold_widths; lia.
  - exists sp, sp'. split; [|exact H].
    exact (f_equal (λ r, match r with Ok o => o | Throw _ => None end) E).
Defined.

(** ** The digests of the node *)

Lemma cscrypto_blake2s_total d :
  cscrypto_blake2s d = Ok (blake2sp_spec 32 [] d) ∧ length (blake2sp_spec 32 [] d) = 32%nat ∧ bytes_ok (blake2sp_spec 32 [] d).
Proof.
  unfold cscrypto_blake2s, BLAKE2S_OUTBYTES. rewrite blake2sp_oneshot by (cbn; lia). split; [done|].
  unfold blake2sp_spec, node_hash. split; [|apply bytes_ok_take, store32s_ok].
  rewrite length_take, length_store32s, length_chain_hash by done. done.
Qed.

Lemma blake2s_32_total d : ∃ h, blake2s_32 d = Ok h ∧ length h = 32%nat ∧ bytes_ok h.
Proof.
  unfold blake2s_32, BLAKE2S_OUTBYTES. rewrite blake2s_oneshot, bind_Ok by (cbn; lia). eexists. split; [done|].
  unfold blake2s_spec, node_hash. split; [|apply bytes_ok_take, store32s_ok].
  rewrite length_take, length_store32s, length_chain_hash by done. done.
Qed.

Lemma blake2s_digest_ok d : length (blake2s_digest d) = 32%nat ∧ bytes_ok (blake2s_digest d).
Proof. unfold blake2s_digest. by destruct (blake2s_32_total d) as (h & -> & H). Qed.

(** Digests of the test vectors of the repository: the first two of
    [blake2/testvectors/blake2s-kat.txt] and of [blake2sp-kat.txt], whose key is
    the bytes 0 to 31. *)
Definition kat_key : byte_array := Z.of_nat <$> seq 0 32.

Definition big_endian (v : Z) : byte_array := rev (le_bytes 32 v).

Example blake2s_kat :
  blake2s 32 [] kat_key = Ok (0, big_endian 0x48a8997da407876b3d79c0d92325ad3b89cbb754d86ab71aee047ad345fd2c49) ∧
  blake2s 32 [0] kat_key = Ok (0, big_endian 0x40d15fee7c328830166ac3f918650f807e7e01e177258cdc0a39b11f598066f1).
Proof. split; vm_compute; reflexivity. Qed.

Example blake2sp_kat :
  blake2sp 32 [] kat_key = Ok (0, big_endian 0x715cb13895aeb678f6124160bff21465b30f4f6874193fc851b4621043f09cc6) ∧
  blake2sp 32 [0] kat_key = Ok (0, big_endian 0x40578ffa52bf51ae1866f4284d3a157fc1bcd36ac13cbdcb0377e4d0cd0b6603).
Proof. split; vm_compute; reflexivity. Qed.

(** [cscrypto::blake2s] is not BLAKE2s: it calls [blake2sp].  The digest that
    [crypto/tests/main_static.cpp] expects for the empty message is that of
    BLAKE2s, and the function gives another one. *)
Definition expected_empty_digest : byte_array :=
  big_endian 0x69217A3079908094E11121D042354A7C1F55B6482CA1A51E1B250DFD1ED0EEF9.

Lemma cscrypto_blake2s_diverges :
  blake2s_32 [] = Ok expected_empty_digest ∧ cscrypto_blake2s [] ≠ Ok expected_empty_digest.
Proof. split; vm_compute; [reflexivity|discriminate]. Qed.

#[global] Opaque blake2s_digest.
