(* ===== verification/Blake2xs.v ===== *)
(** * Blake2xs: the output of any length of BLAKE2s

    Models [blake2/ref/blake2xs-ref.c]: the hash of the message seeds a sequence of
    short hashes, one for each 32 bytes of the output.  The theorem says that the
    one-shot and the streaming interface compute the function of the
    specification and which lengths they refuse; the streaming one takes keys
    longer than those of BLAKE2s. *)
From S2P Require Import Prelude Blake2.

(** ** The code *)

Record blake2xs_state := { xs_S : blake2s_state; xs_P : blake2s_param }.

Definition load16 (p : byte_array) : Z := Z.lor (Z.shiftl (at_word p 0) 0) (Z.shiftl (at_word p 1) 8).

Definition BLAKE2B_KEYBYTES : nat := 64.

(** The parameter block of the root. *)
Definition xs_param (outlen keylen : nat) : blake2s_param :=
  {| p_digest_length := Z.of_nat BLAKE2S_OUTBYTES; p_key_length := u8 (Z.of_nat keylen); p_fanout := 1; p_depth := 1;
     p_leaf_length := store32 0; p_node_offset := store32 0; p_xof_length := store16 (u16 (Z.of_nat outlen));
     p_node_depth := 0; p_inner_length := 0; p_salt := replicate 8 0; p_personal := replicate 8 0 |}.

(** A null key is the empty one; [None] is the return code -1. *)
Definition blake2xs_init_key (outlen : nat) (key : byte_array) : result (option blake2xs_state) :=
  if (Z.of_nat outlen =? 0) || (0xFFFF <? Z.of_nat outlen) then Ok None else
  if (BLAKE2B_KEYBYTES <? length key)%nat then Ok None else
  let P := xs_param outlen (length key) in
  let S := blake2s_init_param P in
  if (0 <? length key)%nat then
    block ← key_block key;
    S ← blake2s_update S block;
    Ok (Some {| xs_S := S; xs_P := P |})
  else Ok (Some {| xs_S := S; xs_P := P |}).

Definition blake2xs_init (outlen : nat) : result (option blake2xs_state) := blake2xs_init_key outlen [].

Definition blake2xs_update (S : blake2xs_state) (inp : byte_array) : result blake2xs_state :=
  st ← blake2s_update (xs_S S) inp;
  Ok {| xs_S := st; xs_P := xs_P S |}.

(** The parameter block of part [i] of the output. *)
Definition xs_part (P : blake2s_param) (block_size i : nat) : blake2s_param :=
  {| p_digest_length := u8 (Z.of_nat block_size); p_key_length := 0; p_fanout := 0; p_depth := 0;
     p_leaf_length := store32 (Z.of_nat BLAKE2S_OUTBYTES); p_node_offset := store32 (u32 (Z.of_nat i));
     p_xof_length := p_xof_length P; p_node_depth := 0; p_inner_length := Z.of_nat BLAKE2S_OUTBYTES;
     p_salt := p_salt P; p_personal := p_personal P |}.

(** [for (i = 0; outlen > 0; ++i)]; a turn writes at least one byte. *)
Fixpoint xs_parts (fuel : nat) (P : blake2s_param) (root : byte_array) (i outlen : nat) (out : byte_array) :
    option (result (Z * byte_array)) :=
  if (outlen =? 0)%nat then Some (Ok (0, out)) else
  match fuel with
  | O => None
  | S fuel =>
      let block_size := if (outlen <? BLAKE2S_OUTBYTES)%nat then outlen else BLAKE2S_OUTBYTES in
      let C := blake2s_init_param (xs_part P block_size i) in
      match (C ← blake2s_update C root; blake2s_final C block_size) with
      | Throw e => Some (Throw e)
      | Ok (code, part, _) =>
          if code <? 0 then Some (Ok (-1, out ++ part))
          else xs_parts fuel P root (S i) (outlen - block_size) (out ++ part)
      end
  end.

Definition blake2xs_final (S : blake2xs_state) (outlen : nat) : option (result (Z * byte_array)) :=
  let xof_length := load16 (p_xof_length (xs_P S)) in
  if (if xof_length =? 0xFFFF then (outlen =? 0)%nat else negb (Z.of_nat outlen =? xof_length)) then Some (Ok (-1, [])) else
  match blake2s_final (xs_S S) BLAKE2S_OUTBYTES with
  | Throw e => Some (Throw e)
  | Ok (code, root, _) =>
      if code <? 0 then Some (Ok (-1, []))
      else xs_parts outlen (xs_P S) root 0 outlen []
  end.

Definition blake2xs (outlen : nat) (inp key : byte_array) : option (result (Z * byte_array)) :=
  if (BLAKE2S_KEYBYTES <? length key)%nat then Some (Ok (-1, [])) else
  if (outlen =? 0)%nat then Some (Ok (-1, [])) else
  match blake2xs_init_key outlen key with
  | Throw e => Some (Throw e)
  | Ok None => Some (Ok (-1, []))
  | Ok (Some st) =>
      match blake2xs_update st inp with
      | Throw e => Some (Throw e)
      | Ok st => blake2xs_final st outlen
      end
  end.

(** The streaming interface on the pieces of a message, with the length given to
    the initialiser and the one given at the end. *)
Definition blake2xs_stream (xof outlen : nat) (key : byte_array) (pieces : list byte_array) : option (result (Z * byte_array)) :=
  match blake2xs_init_key xof key with
  | Throw e => Some (Throw e)
  | Ok None => Some (Ok (-1, []))
  | Ok (Some st) =>
      match updates blake2xs_update st pieces with
      | Throw e => Some (Throw e)
      | Ok st => blake2xs_final st outlen
      end
  end.

(** ** The specification *)

(** The root, and the hash of the root under the parameter block of each part. *)
Definition xs_root (xof : nat) (key d : byte_array) : byte_array :=
  node_hash (xs_param xof (length key)) false (keyed key d) 32.

Definition part_size (outlen i : nat) : nat := Nat.min 32 (outlen - 32 * i).

Definition blake2xs_spec (xof outlen : nat) (key d : byte_array) : byte_array :=
  concat ((λ i, node_hash (xs_part (xs_param xof (length key)) (part_size outlen i) i) false (xs_root xof key d) (part_size outlen i))
    <$> seq 0 ((outlen + 31) / 32)).

(** The lengths each interface accepts: an initialiser of 65535 leaves the length open. *)
Definition xs_accepted (maxkey : nat) (xof outlen : nat) (key : byte_array) : bool :=
  negb (Z.of_nat xof =? 0) && (Z.of_nat xof <=? 0xFFFF) && (length key <=? maxkey)%nat &&
  (if Z.of_nat xof =? 0xFFFF then negb (outlen =? 0)%nat else (outlen =? xof)%nat).

(** ** Proofs *)

Lemma load_store16 w : 0 <= w < 2 ^ 16 → load16 (store16 w) = w.
Proof.
  intros Hw. unfold load16, store16, at_word. cbn [nth]. rewrite Z.shiftl_0_r, shiftr_div, shiftl_mul by lia.
  pose proof (Z.div_mod w (2 ^ 8) ltac:(lia)). pose proof (Z.mod_pos_bound w (2 ^ 8) ltac:(lia)).
  assert (Hq : 0 <= w / 2 ^ 8 < 2 ^ 8) by (split; [apply Z.div_pos; lia|apply Z.div_lt_upper_bound; lia]).
  rewrite lor_add' by (lia || by apply Z.mod_pos_bound). unfold u8, wrap. rewrite (Z.mod_small (w / 2 ^ 8)) by lia. lia.
Qed.

Lemma part_hash P root size : 0 <= p_digest_length P → (Z.to_nat (p_digest_length P) <= size <= 32)%nat →
  ∃ st, (C ← blake2s_update (blake2s_init_param P) root; blake2s_final C size) = Ok (0, node_hash P false root size, st).
Proof.
  intros H0 Hs. pose proof (fresh_init P ltac:(lia)) as Hf.
  destruct (update_spec _ [] _ root (absorbed_fresh _ Hf)) as (C & -> & Ha). rewrite bind_Ok. cbn [app] in Ha.
  by apply (final_spec (blake2s_init_param P)).
Qed.

Lemma part_digest P size i : (size <= 32)%nat → p_digest_length (xs_part P size i) = Z.of_nat size.
Proof. intros H. apply digest_length_ok. done. Qed.

(** The loop writes the parts of the output that are left. *)
Lemma xs_parts_ok fuel P root N i out : (N - 32 * i <= fuel)%nat →
  xs_parts fuel P root i (N - 32 * i) out =
    Some (Ok (0, out ++ concat ((λ i, node_hash (xs_part P (part_size N i) i) false root (part_size N i)) <$> seq i ((N - 32 * i + 31) / 32)))).
Proof.
  revert i out. induction fuel as [|fuel IH]; intros i out Hf; cbn [xs_parts]; destruct (Nat.eqb_spec (N - 32 * i) 0) as [E|E]; try lia.
  - rewrite E. cbn. by rewrite app_nil_r.
  - rewrite E. cbn. by rewrite app_nil_r.
  - assert (Eb : (if (N - 32 * i <? BLAKE2S_OUTBYTES)%nat then (N - 32 * i)%nat else BLAKE2S_OUTBYTES) = part_size N i).
    { unfold part_size, BLAKE2S_OUTBYTES. destruct (Nat.ltb_spec (N - 32 * i) 32); lia. }
    rewrite Eb. assert (Hb : (part_size N i <= 32)%nat) by (unfold part_size; lia).
    destruct (part_hash (xs_part P (part_size N i) i) root (part_size N i)) as (st & ->);
      [rewrite part_digest by done; lia|rewrite part_digest, Nat2Z.id by done; lia|]. cbn [Z.ltb Z.compare].
    replace (N - 32 * i - part_size N i)%nat with (N - 32 * S i)%nat by (unfold part_size; lia). rewrite IH by lia.
    assert (((N - 32 * i + 31) / 32)%nat = S ((N - 32 * S i + 31) / 32)) as ->.
    { destruct (le_lt_dec (N - 32 * i) 32) as [Hle|Hgt].
      - replace (N - 32 * S i)%nat with 0%nat by lia. change ((0 + 31) / 32)%nat with 0%nat.
        symmetry. apply (Nat.div_unique _ _ _ (N - 32 * i - 1)); lia.
      - replace (N - 32 * i + 31)%nat with (N - 32 * S i + 31 + 1 * 32)%nat by lia. rewrite Nat.div_add by lia. lia. }
    cbn [seq fmap list_fmap concat]. by rewrite <- app_assoc.
Qed.

(** A state that has absorbed the key and the bytes [d]. *)
Definition xs_inv (xof : nat) (key d : byte_array) (st : blake2xs_state) : Prop :=
  xs_P st = xs_param xof (length key) ∧ absorbed (blake2s_init_param (xs_param xof (length key))) (key_prefix key ++ d) (xs_S st).

Lemma fresh_xs xof keylen : fresh_state (blake2s_init_param (xs_param xof keylen)).
Proof. apply fresh_init. unfold xs_param, BLAKE2S_OUTBYTES. cbn [p_digest_length]. lia. Qed.

Lemma xs_init_spec xof key : 0 < Z.of_nat xof <= 0xFFFF → (length key <= 64)%nat →
  ∃ st, blake2xs_init_key xof key = Ok (Some st) ∧ xs_inv xof key [] st.
Proof.
  intros Hx Hk. unfold blake2xs_init_key, BLAKE2B_KEYBYTES.
  rewrite (proj2 (Z.eqb_neq _ _)), (proj2 (Z.ltb_ge _ _)), (proj2 (Nat.ltb_ge _ _)) by lia. cbn [orb].
  pose proof (absorbed_fresh _ (fresh_xs xof (length key))) as Ha.
  destruct (Nat.ltb_spec 0 (length key)) as [H|H].
  - rewrite key_block_ok, bind_Ok by lia. destruct (update_spec _ _ _ (key_prefix key) Ha) as (st & -> & Hst).
    rewrite bind_Ok. eexists. split; [done|]. split; [done|]. by rewrite app_nil_r.
  - destruct key; [|cbn in H; lia]. eexists. split; [done|]. by split.
Qed.

Lemma xs_init_refused xof key : ¬ (0 < Z.of_nat xof <= 0xFFFF) ∨ (64 < length key)%nat → blake2xs_init_key xof key = Ok None.
Proof.
  intros H. unfold blake2xs_init_key, BLAKE2B_KEYBYTES.
  destruct (Z.eqb_spec (Z.of_nat xof) 0), (Z.ltb_spec 0xFFFF (Z.of_nat xof)), (Nat.ltb_spec 64 (length key)); cbn [orb]; done || lia.
Qed.

Lemma xs_update_spec xof key d st inp : xs_inv xof key d st →
  ∃ st', blake2xs_update st inp = Ok st' ∧ xs_inv xof key (d ++ inp) st'.
Proof.
  intros [HP Ha]. unfold blake2xs_update. destruct (update_spec _ _ _ inp Ha) as (s & -> & Hs). rewrite bind_Ok.
  eexists. split; [done|]. split; [done|]. by rewrite app_assoc.
Qed.

Lemma xs_updates_spec xof key d st pieces : xs_inv xof key d st →
  ∃ st', updates blake2xs_update st pieces = Ok st' ∧ xs_inv xof key (d ++ concat pieces) st'.
Proof.
  revert d st. induction pieces as [|inp pieces IH]; intros d st H; [exists st; by rewrite app_nil_r|].
  cbn [updates concat]. destruct (xs_update_spec _ _ d st inp H) as (st1 & -> & H1). rewrite bind_Ok, app_assoc. by apply IH.
Qed.

Lemma xs_final_spec xof key d st outlen : 0 < Z.of_nat xof <= 0xFFFF → xs_inv xof key d st →
  blake2xs_final st outlen =
    Some (Ok (if (if Z.of_nat xof =? 0xFFFF then negb (outlen =? 0)%nat else (outlen =? xof)%nat)
              then (0, blake2xs_spec xof outlen key d) else (-1, []))).
Proof.
  intros Hx [HP Ha]. unfold blake2xs_final. rewrite HP. cbn [xs_param p_xof_length].
  assert (Hu : u16 (Z.of_nat xof) = Z.of_nat xof) by (apply wrap_id; unfold_widths; lia).
  rewrite Hu, load_store16 by lia.
  assert ((if Z.of_nat xof =? 65535 then (outlen =? 0)%nat else negb (Z.of_nat outlen =? Z.of_nat xof)) =
    negb (if Z.of_nat xof =? 65535 then negb (outlen =? 0)%nat else (outlen =? xof)%nat)) as ->.
  { destruct (_ =? 65535); [by rewrite negb_involutive|]. f_equal. destruct (Nat.eqb_spec outlen xof), (Z.eqb_spec (Z.of_nat outlen) (Z.of_nat xof)); lia. }
  destruct (if Z.of_nat xof =? 65535 then _ else _); [cbn [negb]|done].
  destruct (final_spec _ _ _ BLAKE2S_OUTBYTES (fresh_xs xof (length key)) Ha) as (st' & ->); [by vm_compute; lia|].
  cbn [Z.ltb Z.compare]. pose proof (xs_parts_ok outlen (xs_param xof (length key)) (xs_root xof key d) outlen 0 [] ltac:(lia)) as H.
  rewrite Nat.sub_0_r in H. unfold xs_root in H at 1. rewrite keyed_prefix in H. exact H.
Qed.

(** The one-shot function refuses keys over 32 bytes and lengths that are 0 or
    over 65535, and otherwise writes the output of the specification.  So does the
    streaming interface, however the message is cut, with keys up to 64 bytes; an
    initial length of 65535 leaves the final one open.  The loop over the parts
    ends within as many turns as there are bytes to write. *)
Theorem blake2xs_correct xof outlen key pieces :
  blake2xs outlen (concat pieces) key =
    Some (Ok (if xs_accepted 32 outlen outlen key then (0, blake2xs_spec outlen outlen key (concat pieces)) else (-1, []))) ∧
  blake2xs_stream xof outlen key pieces =
    Some (Ok (if xs_accepted 64 xof outlen key then (0, blake2xs_spec xof outlen key (concat pieces)) else (-1, []))).
Proof.
  split.
  - unfold blake2xs, xs_accepted, BLAKE2S_KEYBYTES. rewrite Nat.eqb_refl.
    destruct (Nat.ltb_spec 32 (length key)) as [Hk|Hk];
      [by rewrite (proj2 (Nat.leb_gt (length key) 32)), !andb_false_r by lia|].
    destruct (Nat.eqb_spec outlen 0) as [->|Ho]; [done|]. rewrite (proj2 (Nat.leb_le (length key) 32)), andb_true_r by lia.
    rewrite (proj2 (Z.eqb_neq (Z.of_nat outlen) 0)) by lia. cbn [negb andb].
    destruct (Z.leb_spec (Z.of_nat outlen) 0xFFFF); cbn [andb]; [|by rewrite xs_init_refused by lia].
    destruct (xs_init_spec outlen key) as (st & -> & Hi); [lia..|].
    destruct (xs_update_spec _ _ _ _ (concat pieces) Hi) as (st' & -> & Hu).
    rewrite (xs_final_spec outlen key _ _ outlen ltac:(lia) Hu), Nat.eqb_refl.
    by rewrite (proj2 (Nat.eqb_neq outlen 0)) by done.
  - unfold blake2xs_stream. unfold xs_accepted.
    destruct (decide (0 < Z.of_nat xof <= 0xFFFF ∧ (length key <= 64)%nat)) as [[Hx Hk]|Hn].
    + rewrite (proj2 (Z.eqb_neq (Z.of_nat xof) 0)), (proj2 (Z.leb_le (Z.of_nat xof) 0xFFFF)), (proj2 (Nat.leb_le (length key) 64)) by lia.
      cbn [negb andb].
      destruct (xs_init_spec xof key Hx Hk) as (st & -> & Hi). destruct (xs_updates_spec _ _ _ _ pieces Hi) as (st' & -> & Hu).
      by rewrite (xs_final_spec _ _ _ _ _ Hx Hu).
    + rewrite xs_init_refused by lia.
      destruct (Z.eqb_spec (Z.of_nat xof) 0), (Z.leb_spec (Z.of_nat xof) 0xFFFF), (Nat.leb_spec (length key) 64); done || lia.
Qed.

(** The functions evaluate, on the entries of 37 bytes of the test vectors
    [blake2/testvectors/blake2-kat.json], without a key and with one. *)
Definition kat_input : byte_array := Z.of_nat <$> seq 0 256.

Example blake2xs_kat :
  blake2xs 37 kat_input [] = Some (Ok (0,
    [0xde; 0x63; 0xda; 0x44; 0xe8; 0x18; 0xa8; 0x37; 0xa9; 0xcc; 0xb7; 0xd3; 0x39; 0xae; 0x9e; 0x68; 0xbb; 0x46; 0x32; 0xeb; 0x34; 0xad; 0x5d; 0xcc; 0x22; 0x23; 0xde; 0x7b; 0x8c; 0x1d; 0xca; 0x50; 0xa3; 0x73; 0x9f; 0xf8; 0xea])) ∧
  blake2xs_stream 37 37 (Z.of_nat <$> seq 0 32) [take 100 kat_input; drop 100 kat_input] = Some (Ok (0,
    [0x34; 0x8a; 0x61; 0xa0; 0x13; 0x64; 0x36; 0x13; 0x69; 0x10; 0x26; 0x2a; 0xd6; 0x7e; 0xf2; 0x06; 0x44; 0xb3; 0x2c; 0x15; 0x45; 0x6d; 0x5f; 0xad; 0x6b; 0x16; 0x79; 0x38; 0x6d; 0x0b; 0xea; 0x87; 0xcc; 0x1a; 0x2e; 0x2b; 0x5e])).
Proof. split; vm_compute; reflexivity. Qed.
