(* ===== verification/Sha512.v ===== *)
(** * Sha512: the hash function of the signatures

    Models [ed25519/src/sha512.c]: the macros, the compression of a block, and
    the streaming interface [sha512_init], [sha512_update], [sha512_final] with
    the one-shot [sha512].  The context is a record with its arrays as lists; a
    null pointer is [None].  The theorem shows that, however the message is cut,
    the digest is the one of FIPS 180-4: padding, message schedule and eighty
    rounds on eight registers that shift, where the code rotates the names of
    eight array cells and uses shorter forms of the choice and majority
    functions. *)

From S2P Require Import Prelude Blake2.

(** ** The macros *)

Definition K : list Z :=
  [0x428a2f98d728ae22; 0x7137449123ef65cd; 0xb5c0fbcfec4d3b2f; 0xe9b5dba58189dbbc;
   0x3956c25bf348b538; 0x59f111f1b605d019; 0x923f82a4af194f9b; 0xab1c5ed5da6d8118;
   0xd807aa98a3030242; 0x12835b0145706fbe; 0x243185be4ee4b28c; 0x550c7dc3d5ffb4e2;
   0x72be5d74f27b896f; 0x80deb1fe3b1696b1; 0x9bdc06a725c71235; 0xc19bf174cf692694;
   0xe49b69c19ef14ad2; 0xefbe4786384f25e3; 0x0fc19dc68b8cd5b5; 0x240ca1cc77ac9c65;
   0x2de92c6f592b0275; 0x4a7484aa6ea6e483; 0x5cb0a9dcbd41fbd4; 0x76f988da831153b5;
   0x983e5152ee66dfab; 0xa831c66d2db43210; 0xb00327c898fb213f; 0xbf597fc7beef0ee4;
   0xc6e00bf33da88fc2; 0xd5a79147930aa725; 0x06ca6351e003826f; 0x142929670a0e6e70;
   0x27b70a8546d22ffc; 0x2e1b21385c26c926; 0x4d2c6dfc5ac42aed; 0x53380d139d95b3df;
   0x650a73548baf63de; 0x766a0abb3c77b2a8; 0x81c2c92e47edaee6; 0x92722c851482353b;
   0xa2bfe8a14cf10364; 0xa81a664bbc423001; 0xc24b8b70d0f89791; 0xc76c51a30654be30;
   0xd192e819d6ef5218; 0xd69906245565a910; 0xf40e35855771202a; 0x106aa07032bbd1b8;
   0x19a4c116b8d2d0c8; 0x1e376c085141ab53; 0x2748774cdf8eeb99; 0x34b0bcb5e19b48a8;
   0x391c0cb3c5c95a63; 0x4ed8aa4ae3418acb; 0x5b9cca4f7763e373; 0x682e6ff3d6b2b8a3;
   0x748f82ee5defb2fc; 0x78a5636f43172f60; 0x84c87814a1f0ab72; 0x8cc702081a6439ec;
   0x90befffa23631e28; 0xa4506cebde82bde9; 0xbef9a3f7b2c67915; 0xc67178f2e372532b;
   0xca273eceea26619c; 0xd186b8c721c0c207; 0xeada7dd6cde0eb1e; 0xf57d4f7fee6ed178;
   0x06f067aa72176fba; 0x0a637dc5a2c898a6; 0x113f9804bef90dae; 0x1b710b35131c471b;
   0x28db77f523047d84; 0x32caab7b40c72493; 0x3c9ebe0a15c9bebc; 0x431d67c49c100d4c;
   0x4cc5d4becb3e42b6; 0x597f299cfc657e2a; 0x5fcb6fab3ad6faec; 0x6c44198c4a475817].

Definition MASK64 : Z := 0xFFFFFFFFFFFFFFFF.

Definition ROR64c (x y : Z) : Z :=
  Z.land (Z.lor (Z.shiftr (Z.land x MASK64) (Z.land y 63)) (u64 (Z.shiftl x (64 - Z.land y 63)))) MASK64.

Definition STORE64H (x : Z) : byte_array :=
  [u8 (Z.land (Z.shiftr x 56) 255); u8 (Z.land (Z.shiftr x 48) 255);
   u8 (Z.land (Z.shiftr x 40) 255); u8 (Z.land (Z.shiftr x 32) 255);
   u8 (Z.land (Z.shiftr x 24) 255); u8 (Z.land (Z.shiftr x 16) 255);
   u8 (Z.land (Z.shiftr x 8) 255); u8 (Z.land x 255)].

Definition LOAD64H (y : byte_array) : Z :=
  let b i := Z.land (at_word y i) 255 in
  Z.lor (Z.lor (Z.lor (Z.lor (Z.lor (Z.lor (Z.lor (Z.shiftl (b 0%nat) 56) (Z.shiftl (b 1%nat) 48))
    (Z.shiftl (b 2%nat) 40)) (Z.shiftl (b 3%nat) 32)) (Z.shiftl (b 4%nat) 24))
    (Z.shiftl (b 5%nat) 16)) (Z.shiftl (b 6%nat) 8)) (b 7%nat).

Definition Ch (x y z : Z) : Z := Z.lxor z (Z.land x (Z.lxor y z)).
Definition Maj (x y z : Z) : Z := Z.lor (Z.land (Z.lor x y) z) (Z.land x y).
Definition R64 (x n : Z) : Z := Z.shiftr (Z.land x MASK64) n.
Definition Sigma0 (x : Z) : Z := Z.lxor (Z.lxor (ROR64c x 28) (ROR64c x 34)) (ROR64c x 39).
Definition Sigma1 (x : Z) : Z := Z.lxor (Z.lxor (ROR64c x 14) (ROR64c x 18)) (ROR64c x 41).
Definition Gamma0 (x : Z) : Z := Z.lxor (Z.lxor (ROR64c x 1) (ROR64c x 8)) (R64 x 7).
Definition Gamma1 (x : Z) : Z := Z.lxor (Z.lxor (ROR64c x 19) (ROR64c x 61)) (R64 x 6).

(** ** The compression *)

Record sha512_context := {
  sha_length : Z;
  sha_state : list Z;
  sha_curlen : nat;
  sha_buf : byte_array;
}.

Definition set_state (st : list Z) (md : sha512_context) : sha512_context :=
  {| sha_length := sha_length md; sha_state := st; sha_curlen := sha_curlen md; sha_buf := sha_buf md |}.

Definition set_length (n : Z) (md : sha512_context) : sha512_context :=
  {| sha_length := n; sha_state := sha_state md; sha_curlen := sha_curlen md; sha_buf := sha_buf md |}.

Definition set_buffer (buf : byte_array) (curlen : nat) (md : sha512_context) : sha512_context :=
  {| sha_length := sha_length md; sha_state := sha_state md; sha_curlen := curlen; sha_buf := buf |}.

(** One turn of the loop that fills [W[16..79]]. *)
Definition fill_W (W : list Z) (i : nat) : list Z :=
  W ++ [u64 (Gamma1 (at_word W (i - 2)) + at_word W (i - 7) + Gamma0 (at_word W (i - 15)) + at_word W (i - 16))].

Definition load_W (buf : byte_array) : list Z := (λ i, LOAD64H (drop (8 * i) buf)) <$> seq 0 16.

Definition RND (W S : list Z) (a b c d e f g h i : nat) : list Z :=
  let s := at_word S in
  let t0 := u64 (s h + Sigma1 (s e) + Ch (s e) (s f) (s g) + at_word K i + at_word W i) in
  let t1 := u64 (Sigma0 (s a) + Maj (s a) (s b) (s c)) in
  let S := <[d := u64 (s d + t0)]> S in
  <[h := u64 (t0 + t1)]> S.

Definition eight_rounds (W S : list Z) (i : nat) : list Z :=
  let S := RND W S 0 1 2 3 4 5 6 7 (i + 0) in
  let S := RND W S 7 0 1 2 3 4 5 6 (i + 1) in
  let S := RND W S 6 7 0 1 2 3 4 5 (i + 2) in
  let S := RND W S 5 6 7 0 1 2 3 4 (i + 3) in
  let S := RND W S 4 5 6 7 0 1 2 3 (i + 4) in
  let S := RND W S 3 4 5 6 7 0 1 2 (i + 5) in
  let S := RND W S 2 3 4 5 6 7 0 1 (i + 6) in
  RND W S 1 2 3 4 5 6 7 0 (i + 7).

Definition compress_words (st : list Z) (buf : byte_array) : list Z :=
  let W := foldl fill_W (load_W buf) (seq 16 64) in
  let S := foldl (λ S j, eight_rounds W S (8 * j)) st (seq 0 10) in
  imap (λ i w, u64 (w + at_word S i)) st.

(** The return code, always 0, and the context. *)
Definition sha512_compress (md : sha512_context) (buf : byte_array) : Z * sha512_context :=
  (0, set_state (compress_words (sha_state md) buf) md).

(** ** The streaming interface *)

Definition initial_state : list Z :=
  [0x6a09e667f3bcc908; 0xbb67ae8584caa73b; 0x3c6ef372fe94f82b; 0xa54ff53a5f1d36f1;
   0x510e527fade682d1; 0x9b05688c2b3e6c1f; 0x1f83d9abfb41bd6b; 0x5be0cd19137e2179].

(** The buffer keeps what it held. *)
Definition sha512_init (md : sha512_context) : Z * sha512_context :=
  (0, {| sha_length := 0; sha_state := initial_state; sha_curlen := 0; sha_buf := sha_buf md |}).

(** One turn of the loop of [sha512_update] on the bytes [inp] that remain: the
    bytes left after it, or the error it returns. *)
Definition update_turn (md : sha512_context) (inp : byte_array) : result (byte_array * (Z * sha512_context)) :=
  if (sha_curlen md =? 0)%nat && (128 <=? length inp)%nat then
    let '(err, md) := sha512_compress md inp in
    if negb (err =? 0) then Ok (inp, (err, md)) else
    Ok (drop 128 inp, (0, set_length (u64 (sha_length md + 128 * 8)) md))
  else
    let n := Nat.min (length inp) (128 - sha_curlen md) in
    buf ← memcpy (sha_buf md) (sha_curlen md) (take n inp);
    let md := set_buffer buf (sha_curlen md + n) md in
    if (sha_curlen md =? 128)%nat then
      let '(err, md) := sha512_compress md (sha_buf md) in
      if negb (err =? 0) then Ok (drop n inp, (err, md)) else
      Ok (drop n inp, (0, set_buffer (sha_buf md) 0 (set_length (u64 (sha_length md + 8 * 128)) md)))
    else Ok (drop n inp, (0, md)).

(** The loop, [None] when the fuel is too small. *)
Fixpoint update_loop (fuel : nat) (md : sha512_context) (inp : byte_array) : option (result (Z * sha512_context)) :=
  match inp with
  | [] => Some (Ok (0, md))
  | _ =>
    match fuel with
    | O => None
    | S fuel =>
      match update_turn md inp with
      | Throw e => Some (Throw e)
      | Ok (inp, (err, md)) => if negb (err =? 0) then Some (Ok (err, md)) else update_loop fuel md inp
      end
    end
  end.

(** Enough turns for the loop: see [update_loop_terminates]. *)
Definition sha512_update (md : sha512_context) (inp : option byte_array) : result (Z * sha512_context) :=
  match inp with
  | None => Ok (1, md)
  | Some inp =>
      if (128 <? sha_curlen md)%nat then Ok (1, md) else
      default (Throw undefined_behaviour) (update_loop (S (length inp)) md inp)
  end.

(** The loop that writes [n] zeros at the end of the buffer. *)
Fixpoint pad_zeros (n : nat) (md : sha512_context) : result sha512_context :=
  match n with
  | O => Ok md
  | S n =>
      buf ← memcpy (sha_buf md) (sha_curlen md) [0];
      pad_zeros n (set_buffer buf (sha_curlen md + 1) md)
  end.

(** The end of [sha512_final]: zeros up to the length, the length, the last
    block and the output. *)
Definition finish_block (md : sha512_context) : result (Z * byte_array * sha512_context) :=
  md ← pad_zeros (120 - sha_curlen md) md;
  buf ← memcpy (sha_buf md) 120 (STORE64H (sha_length md));
  let md := set_buffer buf (sha_curlen md) md in
  let '(_, md) := sha512_compress md (sha_buf md) in
  Ok (0, concat (STORE64H <$> sha_state md), md).

(** [sha512_final] for an output buffer that is not null: the return code, the
    bytes written to it, and the context. *)
Definition sha512_final (md : sha512_context) : result (Z * byte_array * sha512_context) :=
  if (128 <=? sha_curlen md)%nat then Ok (1, [], md) else
  let md := set_length (u64 (sha_length md + u64 (Z.of_nat (sha_curlen md) * 8))) md in
  buf ← memcpy (sha_buf md) (sha_curlen md) [0x80];
  let md := set_buffer buf (sha_curlen md + 1) md in
  md ← (if (112 <? sha_curlen md)%nat then
          md ← pad_zeros (128 - sha_curlen md) md;
          let '(_, md) := sha512_compress md (sha_buf md) in
          Ok (set_buffer (sha_buf md) 0 md)
        else Ok md);
  finish_block md.

(** The return code and the bytes written to [out]. *)
Definition sha512 (ctx : sha512_context) (message : option byte_array) : result (Z * byte_array) :=
  let '(ret, ctx) := sha512_init ctx in
  if negb (ret =? 0) then Ok (ret, []) else
  '(ret, ctx) ← sha512_update ctx message;
  if negb (ret =? 0) then Ok (ret, []) else
  '(ret, out, _) ← sha512_final ctx;
  if negb (ret =? 0) then Ok (ret, []) else Ok (0, out).

(** ** FIPS 180-4 *)

Definition be_bytes (n : nat) (v : Z) : byte_array := rev (le_bytes n v).
Definition be_value (l : byte_array) : Z := le_value (rev l).

Definition ROTR (n x : Z) : Z := x mod 2 ^ n * 2 ^ (64 - n) + x / 2 ^ n.
Definition SHR (n x : Z) : Z := x / 2 ^ n.

Definition fips_Ch (x y z : Z) : Z := Z.lxor (Z.land x y) (Z.land (Z.lnot x) z).
Definition fips_Maj (x y z : Z) : Z := Z.lxor (Z.lxor (Z.land x y) (Z.land x z)) (Z.land y z).
Definition big_sigma0 (x : Z) : Z := Z.lxor (Z.lxor (ROTR 28 x) (ROTR 34 x)) (ROTR 39 x).
Definition big_sigma1 (x : Z) : Z := Z.lxor (Z.lxor (ROTR 14 x) (ROTR 18 x)) (ROTR 41 x).
Definition small_sigma0 (x : Z) : Z := Z.lxor (Z.lxor (ROTR 1 x) (ROTR 8 x)) (SHR 7 x).
Definition small_sigma1 (x : Z) : Z := Z.lxor (Z.lxor (ROTR 19 x) (ROTR 61 x)) (SHR 6 x).

Definition schedule_step (W : list Z) (t : nat) : list Z :=
  W ++ [u64 (small_sigma1 (at_word W (t - 2)) + at_word W (t - 7)
             + small_sigma0 (at_word W (t - 15)) + at_word W (t - 16))].

Definition block_words (block : byte_array) : list Z :=
  (λ i, be_value (take 8 (drop (8 * i) block))) <$> seq 0 16.

Definition schedule (block : byte_array) : list Z := foldl schedule_step (block_words block) (seq 16 64).

(** One round on the registers [a] to [h]. *)
Definition fips_round (W regs : list Z) (t : nat) : list Z :=
  match regs with
  | [a; b; c; d; e; f; g; h] =>
      let T1 := h + big_sigma1 e + fips_Ch e f g + at_word K t + at_word W t in
      let T2 := big_sigma0 a + fips_Maj a b c in
      [u64 (T1 + T2); a; b; c; u64 (d + T1); e; f; g]
  | _ => regs
  end.

Definition fips_block (H : list Z) (block : byte_array) : list Z :=
  zip_with (λ h r, u64 (h + r)) H (foldl (fips_round (schedule block)) H (seq 0 80)).

Definition fips_pad (m : byte_array) : byte_array :=
  m ++ [0x80] ++ replicate (Z.to_nat ((111 - Z.of_nat (length m)) mod 128)) 0
    ++ be_bytes 16 (8 * Z.of_nat (length m)).

Definition blocks_of (l : byte_array) : list byte_array :=
  (λ i, take 128 (drop (128 * i) l)) <$> seq 0 (length l / 128).

Definition sha512_spec (m : byte_array) : byte_array :=
  concat (be_bytes 8 <$> foldl fips_block initial_state (blocks_of (fips_pad m))).

(** The calls of a client: a message in pieces. *)
Fixpoint sha512_updates (md : sha512_context) (pieces : list byte_array) : result sha512_context :=
  match pieces with
  | [] => Ok md
  | p :: pieces => '(_, md) ← sha512_update md (Some p); sha512_updates md pieces
  end.

Definition sha512_stream (ctx : sha512_context) (pieces : list byte_array) : result (Z * byte_array) :=
  md ← sha512_updates (snd (sha512_init ctx)) pieces;
  '(ret, out, _) ← sha512_final md;
  Ok (ret, out).

Definition any_context : sha512_context :=
  {| sha_length := 0; sha_state := []; sha_curlen := 0; sha_buf := replicate 128 0 |}.

(** ** The macros are the functions of the standard *)

Lemma Ch_fips x y z : Ch x y z = fips_Ch x y z.
Proof.
  apply Z.bits_inj'; intros n Hn. unfold Ch, fips_Ch.
  rewrite ?Z.lxor_spec, ?Z.land_spec, ?Z.lxor_spec, ?Z.lnot_spec by done.
  by destruct (Z.testbit x n), (Z.testbit y n), (Z.testbit z n).
Qed.

Lemma Maj_fips x y z : Maj x y z = fips_Maj x y z.
Proof.
  apply Z.bits_inj'; intros n Hn. unfold Maj, fips_Maj.
  rewrite ?Z.lor_spec, ?Z.lxor_spec, ?Z.land_spec, ?Z.lor_spec by done.
  by destruct (Z.testbit x n), (Z.testbit y n), (Z.testbit z n).
Qed.

Lemma land_MASK64 x : is_u64 x → Z.land x MASK64 = x.
Proof. intros H. change MASK64 with (Z.ones 64). rewrite land_low by lia. by apply Z.mod_small. Qed.

Lemma ROTR_u64 n x : 0 < n < 64 → is_u64 x → is_u64 (ROTR n x).
Proof.
  unfold is_u64, is_unsigned, ROTR. intros Hn Hx.
  assert (E : 2 ^ 64 = 2 ^ n * 2 ^ (64 - n)) by (rewrite <- Z.pow_add_r by lia; f_equal; lia).
  pose proof (Z.mod_pos_bound x (2 ^ n) ltac:(lia)).
  assert (0 <= x / 2 ^ n < 2 ^ (64 - n)); [|nia].
  split; [apply Z.div_pos; lia | apply Z.div_lt_upper_bound; lia].
Qed.

Lemma ROR64c_ROTR n x : 0 < n < 64 → is_u64 x → ROR64c x n = ROTR n x.
Proof.
  intros Hn Hx. unfold ROR64c.
  assert (Z.land n 63 = n) as ->.
  { change 63 with (Z.ones 6). rewrite land_low by lia. apply Z.mod_small; lia. }
  rewrite (land_MASK64 x Hx), shiftr_div, shiftl_mul by lia.
  assert (E : 2 ^ 64 = 2 ^ n * 2 ^ (64 - n)) by (rewrite <- Z.pow_add_r by lia; f_equal; lia).
  assert (Hq : 0 <= x / 2 ^ n < 2 ^ (64 - n)).
  { unfold is_u64, is_unsigned in Hx.
    split; [apply Z.div_pos; lia | apply Z.div_lt_upper_bound; lia]. }
  assert (u64 (x * 2 ^ (64 - n)) = x mod 2 ^ n * 2 ^ (64 - n)) as ->.
  { unfold u64, wrap. rewrite E. rewrite Z.mul_mod_distr_r by lia. done. }
  rewrite lor_add' by lia.
  apply land_MASK64. by apply ROTR_u64.
Qed.

Lemma R64_SHR n x : 0 <= n → is_u64 x → R64 x n = SHR n x.
Proof. intros Hn Hx. unfold R64. by rewrite land_MASK64, shiftr_div. Qed.

Lemma sigmas_fips x :
  is_u64 x → Sigma0 x = big_sigma0 x ∧ Sigma1 x = big_sigma1 x ∧ Gamma0 x = small_sigma0 x ∧ Gamma1 x = small_sigma1 x.
Proof.
  intros Hx. unfold Sigma0, Sigma1, Gamma0, Gamma1. rewrite !ROR64c_ROTR, !R64_SHR by (lia || done). done.
Qed.

Definition words64 (l : list Z) : Prop := Forall is_u64 l.

Lemma at_word_u64 l i : words64 l → is_u64 (at_word l i).
Proof.
  intros H. unfold at_word. destruct (decide (i < length l)%nat) as [Hi|Hi].
  - unfold words64 in H. rewrite Forall_forall in H. apply H, list_elem_of_In, nth_In, Hi.
  - rewrite nth_overflow by lia. done.
Qed.

Lemma bytes_at_words (y : byte_array) : (8 <= length y)%nat →
  ∃ a b c d e f g h r, y = a :: b :: c :: d :: e :: f :: g :: h :: r.
Proof.
  intros H. do 8 (destruct y as [|? y]; [cbn in H; lia|]). by repeat eexists.
Qed.

Lemma land_255 a : is_u8 a → Z.land a 255 = a.
Proof. intros H. change 255 with (Z.ones 8). rewrite land_low by lia. by apply Z.mod_small. Qed.

(** A byte below a word that is a multiple of its weight. *)
Lemma lor_byte q k k' b :
  0 <= k → k' = k + 8 → is_u8 b → Z.lor (q * 2 ^ k') (b * 2 ^ k) = (q * 2 ^ 8 + b) * 2 ^ k.
Proof.
  unfold is_u8, is_unsigned. intros Hk -> Hb.
  assert (E : 2 ^ (k + 8) = 2 ^ k * 2 ^ 8) by (apply Z.pow_add_r; lia).
  rewrite lor_add by nia. rewrite E. lia.
Qed.

Lemma LOAD64H_be y : bytes_ok y → (8 <= length y)%nat → LOAD64H y = be_value (take 8 y).
Proof.
  intros Hok Hlen. destruct (bytes_at_words y Hlen) as (a&b&c&d&e&f&g&h&r&->).
  unfold bytes_ok in Hok. rewrite !Forall_cons in Hok. destruct Hok as (Ha&Hb&Hc&Hd&He&Hf&Hg&Hh&_).
  unfold LOAD64H, be_value. cbn [at_word nth]. change (take 8 _) with [a; b; c; d; e; f; g; h]. cbn [rev app le_value].
  rewrite !land_255 by done. rewrite !shiftl_mul by lia.
  rewrite (lor_byte _ 48 56), (lor_byte _ 40 48), (lor_byte _ 32 40), (lor_byte _ 24 32),
    (lor_byte _ 16 24), (lor_byte _ 8 16), lor_add by done.
  cbn [le_value app]. lia.
Qed.

Lemma LOAD64H_u64 y : is_u64 (LOAD64H y).
Proof.
  unfold LOAD64H. assert (B : ∀ i, is_u8 (Z.land (at_word y i) 255)).
  { intros i. change 255 with (Z.ones 8). rewrite land_low by lia. apply wrap_range. lia. }
  cbv zeta. rewrite !shiftl_mul by lia.
  rewrite (lor_byte _ 48 56), (lor_byte _ 40 48), (lor_byte _ 32 40), (lor_byte _ 24 32),
    (lor_byte _ 16 24), (lor_byte _ 8 16), lor_add by (done || apply B).
  pose proof (B 0%nat). pose proof (B 1%nat). pose proof (B 2%nat). pose proof (B 3%nat).
  pose proof (B 4%nat). pose proof (B 5%nat). pose proof (B 6%nat). pose proof (B 7%nat).
  unfold is_u8, is_u64, is_unsigned in *. lia.
Qed.

Lemma STORE64H_be x : is_u64 x → STORE64H x = be_bytes 8 x.
Proof.
  intros Hx. unfold STORE64H, be_bytes. cbn [le_bytes rev app].
  change 255 with (Z.ones 8). rewrite !land_low, !shiftr_div by lia. unfold u8, wrap.
  rewrite !Z.mod_mod by lia. repeat (rewrite Z.div_div by lia). reflexivity.
Qed.

(** ** The compression is the one of the standard *)

Lemma fill_W_step W t : words64 W → fill_W W t = schedule_step W t ∧ words64 (fill_W W t).
Proof.
  intros HW. split.
  - unfold fill_W, schedule_step.
    destruct (sigmas_fips (at_word W (t - 2))) as (_&_&_&->); [by apply at_word_u64|].
    destruct (sigmas_fips (at_word W (t - 15))) as (_&_&->&_); [by apply at_word_u64|]. done.
  - apply Forall_app; split; [done|]. apply Forall_singleton, u64_range.
Qed.

Lemma fill_W_fold W ts : words64 W → foldl fill_W W ts = foldl schedule_step W ts ∧ words64 (foldl fill_W W ts).
Proof.
  revert W. induction ts as [|t ts IH]; intros W HW; [done|]. cbn [foldl].
  destruct (fill_W_step W t HW) as [E HW']. rewrite <- E. by apply IH.
Qed.

Lemma load_W_words buf : bytes_ok buf → (128 <= length buf)%nat → load_W buf = block_words buf ∧ words64 (load_W buf).
Proof.
  intros Hok Hlen. split.
  - apply map_ext_in. intros i Hi%in_seq. apply LOAD64H_be; [by apply bytes_ok_drop|]. rewrite length_drop. lia.
  - apply Forall_fmap, Forall_true. intros i. apply LOAD64H_u64.
Qed.

(** The registers [a] to [h] before a round that comes [r] rounds after the
    start of a turn. *)
Definition registers (r : nat) (S : list Z) : list Z := drop (8 - r) S ++ take (8 - r) S.

Lemma eight_words {A} (S : list A) : length S = 8%nat → ∃ a b c d e f g h, S = [a; b; c; d; e; f; g; h].
Proof. intros H. do 9 (destruct S as [|? S]; try done). by repeat eexists. Qed.

Lemma u64_add_l a b : u64 (u64 a + b) = u64 (a + b).
Proof. apply Zplus_mod_idemp_l. Qed.

Lemma u64_add_r a b : u64 (a + u64 b) = u64 (a + b).
Proof. apply Zplus_mod_idemp_r. Qed.

Lemma RND_words W S a b c d e f g h i :
  words64 S → words64 (RND W S a b c d e f g h i) ∧ length (RND W S a b c d e f g h i) = length S.
Proof.
  intros HS. unfold RND. split; [|by rewrite !length_insert].
  apply Forall_insert; [apply Forall_insert|]; done || apply u64_range.
Qed.

(** Round [r] of a turn on the array is a round on the registers. *)
Ltac solve_round :=
  intros [HS (x0&x1&x2&x3&x4&x5&x6&x7&->)%eight_words];
  unfold words64 in HS; rewrite !Forall_cons in HS; destruct HS as (?&?&?&?&?&?&?&?&_);
  unfold RND, registers; cbn -[u64 K Sigma0 Sigma1 Ch Maj]; unfold fips_round;
  rewrite ?Ch_fips, ?Maj_fips;
  repeat match goal with
  | H : is_u64 ?x |- context [Sigma0 ?x] => rewrite (proj1 (sigmas_fips x H))
  | H : is_u64 ?x |- context [Sigma1 ?x] => rewrite (proj1 (proj2 (sigmas_fips x H)))
  end;
  rewrite ?u64_add_l, ?u64_add_r; reflexivity.

Definition eight_regs (S : list Z) : Prop := words64 S ∧ length S = 8%nat.

Lemma round0 W S i : eight_regs S → registers 1 (RND W S 0 1 2 3 4 5 6 7 i) = fips_round W (registers 0 S) i.
Proof. solve_round. Qed.

Lemma round1 W S i : eight_regs S → registers 2 (RND W S 7 0 1 2 3 4 5 6 i) = fips_round W (registers 1 S) i.
Proof. solve_round. Qed.

Lemma round2 W S i : eight_regs S → registers 3 (RND W S 6 7 0 1 2 3 4 5 i) = fips_round W (registers 2 S) i.
Proof. solve_round. Qed.

Lemma round3 W S i : eight_regs S → registers 4 (RND W S 5 6 7 0 1 2 3 4 i) = fips_round W (registers 3 S) i.
Proof. solve_round. Qed.

Lemma round4 W S i : eight_regs S → registers 5 (RND W S 4 5 6 7 0 1 2 3 i) = fips_round W (registers 4 S) i.
Proof. solve_round. Qed.

Lemma round5 W S i : eight_regs S → registers 6 (RND W S 3 4 5 6 7 0 1 2 i) = fips_round W (registers 5 S) i.
Proof. solve_round. Qed.

Lemma round6 W S i : eight_regs S → registers 7 (RND W S 2 3 4 5 6 7 0 1 i) = fips_round W (registers 6 S) i.
Proof. solve_round. Qed.

Lemma round7 W S i : eight_regs S → registers 8 (RND W S 1 2 3 4 5 6 7 0 i) = fips_round W (registers 7 S) i.
Proof. solve_round. Qed.

Lemma RND_regs W S a b c d e f g h i : eight_regs S → eight_regs (RND W S a b c d e f g h i).
Proof. intros [HS Hl]. destruct (RND_words W S a b c d e f g h i HS) as [HS' Hl']. split; [done|]. by rewrite Hl'. Qed.

Lemma registers_0 S : eight_regs S → registers 0 S = S.
Proof. intros [_ Hl]. unfold registers. cbn [Nat.sub]. by rewrite <- Hl, drop_all, firstn_all. Qed.

Lemma registers_8 S : registers 8 S = S.
Proof. unfold registers. cbn. by rewrite app_nil_r. Qed.

Lemma eight_rounds_fips W S i :
  eight_regs S → eight_rounds W S i = foldl (fips_round W) S (seq i 8) ∧ eight_regs (eight_rounds W S i).
Proof.
  intros HS. unfold eight_rounds.
  pose proof (round0 W S (i + 0) HS) as E0. rewrite registers_0 in E0 by done.
  apply (RND_regs W S 0 1 2 3 4 5 6 7 (i + 0)) in HS.
  set (S1 := RND W S 0 1 2 3 4 5 6 7 (i + 0)) in *.
  pose proof (round1 W S1 (i + 1) HS) as E1. apply (RND_regs W S1 7 0 1 2 3 4 5 6 (i + 1)) in HS.
  set (S2 := RND W S1 _ _ _ _ _ _ _ _ _) in *.
  pose proof (round2 W S2 (i + 2) HS) as E2. apply (RND_regs W S2 6 7 0 1 2 3 4 5 (i + 2)) in HS.
  set (S3 := RND W S2 _ _ _ _ _ _ _ _ _) in *.
  pose proof (round3 W S3 (i + 3) HS) as E3. apply (RND_regs W S3 5 6 7 0 1 2 3 4 (i + 3)) in HS.
  set (S4 := RND W S3 _ _ _ _ _ _ _ _ _) in *.
  pose proof (round4 W S4 (i + 4) HS) as E4. apply (RND_regs W S4 4 5 6 7 0 1 2 3 (i + 4)) in HS.
  set (S5 := RND W S4 _ _ _ _ _ _ _ _ _) in *.
  pose proof (round5 W S5 (i + 5) HS) as E5. apply (RND_regs W S5 3 4 5 6 7 0 1 2 (i + 5)) in HS.
  set (S6 := RND W S5 _ _ _ _ _ _ _ _ _) in *.
  pose proof (round6 W S6 (i + 6) HS) as E6. apply (RND_regs W S6 2 3 4 5 6 7 0 1 (i + 6)) in HS.
  set (S7 := RND W S6 _ _ _ _ _ _ _ _ _) in *.
  pose proof (round7 W S7 (i + 7) HS) as E7. apply (RND_regs W S7 1 2 3 4 5 6 7 0 (i + 7)) in HS.
  split; [|done]. rewrite registers_8, E6, E5, E4, E3, E2, E1, E0 in E7. rewrite E7.
  cbn [seq foldl]. repeat (f_equal; try lia).
Qed.

Lemma rounds_fips W R n :
  eight_regs R →
  foldl (λ S j, eight_rounds W S (8 * j)) R (seq 0 n) = foldl (fips_round W) R (seq 0 (8 * n)) ∧
  eight_regs (foldl (λ S j, eight_rounds W S (8 * j)) R (seq 0 n)).
Proof.
  intros HS. induction n as [|n [IH IHr]]; [done|].
  rewrite seq_S, foldl_app. cbn [foldl].
  destruct (eight_rounds_fips W _ (8 * n) IHr) as [E Hr].
  replace (8 * S n)%nat with (8 * n + 8)%nat by lia. rewrite seq_app, foldl_app.
  cbn [Nat.add]. rewrite <- IH. done.
Qed.

Lemma feedback_zip (H R : list Z) :
  length H = length R → imap (λ i w, u64 (w + at_word R i)) H = zip_with (λ h r, u64 (h + r)) H R.
Proof.
  revert R. induction H as [|h H IH]; intros [|r R] E; try done. cbn. f_equal. apply IH. by injection E.
Qed.

Lemma compress_words_fips st buf :
  eight_regs st → bytes_ok buf → (128 <= length buf)%nat →
  compress_words st buf = fips_block st buf ∧ eight_regs (compress_words st buf).
Proof.
  intros Hst Hok Hlen. unfold compress_words, fips_block, schedule.
  destruct (load_W_words buf Hok Hlen) as [EW HW]. rewrite <- EW.
  destruct (fill_W_fold (load_W buf) (seq 16 64) HW) as [-> _].
  set (W := foldl schedule_step _ _). destruct (rounds_fips W st 10 Hst) as [E [_ Hr]].
  split; [|split].
  - change (8 * 10)%nat with 80%nat in E. rewrite <- E. apply feedback_zip. destruct Hst as [_ ->]. by rewrite Hr.
  - unfold words64. rewrite Forall_lookup. intros i w (y & _ & ->)%list_lookup_imap_Some. apply u64_range.
  - rewrite length_imap. apply Hst.
Qed.

#[global] Arguments compress_words : simpl never.
#[global] Arguments fips_block : simpl never.
#[global] Arguments STORE64H : simpl never.

(** ** The loops end *)

Lemma memcpy_length dst off src buf : memcpy dst off src = Ok buf → length buf = length dst.
Proof. unfold memcpy. case_match eqn:E; [|done]. intros [= <-]. apply Nat.leb_le in E. rewrite !length_app, length_take, length_drop. lia. Qed.

(** A turn consumes the bytes it handles: all but a full buffer shrink the input,
    and a full buffer is empty after the turn. *)
Lemma update_turn_progress md inp inp' err md' :
  (0 < length inp)%nat → (sha_curlen md <= 128)%nat → update_turn md inp = Ok (inp', (err, md')) →
  (sha_curlen md' <= 127)%nat ∧
  (length inp' + (if (sha_curlen md' =? 128)%nat then 1 else 0) < length inp + (if (sha_curlen md =? 128)%nat then 1 else 0))%nat.
Proof.
  intros Hi Hc. unfold update_turn. case_match eqn:E.
  - apply andb_prop in E as [E1 E2]. apply Nat.eqb_eq in E1. apply Nat.leb_le in E2.
    cbn. intros [= <- <- <-]. cbn. rewrite E1, length_drop. cbn. lia.
  - destruct (memcpy _ _ _) as [buf|]; [|done]. rewrite bind_Ok. cbn -[Nat.min Nat.sub].
    destruct (Nat.eqb_spec (sha_curlen md + Nat.min (length inp) (128 - sha_curlen md)) 128) as [E2|E2];
      cbn -[Nat.min Nat.sub]; intros [= <- <- <-]; cbn -[Nat.min Nat.sub Nat.eqb]; rewrite length_drop;
      destruct (Nat.eqb_spec (sha_curlen md) 128) as [E3|E3]; cbn [Nat.eqb];
      [lia|lia|lia|]. destruct (Nat.eqb_spec (sha_curlen md + Nat.min (length inp) (128 - sha_curlen md)) 128); lia.
Qed.

Lemma update_loop_terminates fuel md inp :
  (sha_curlen md <= 128)%nat →
  (length inp + (if (sha_curlen md =? 128)%nat then 1 else 0) <= fuel)%nat →
  is_Some (update_loop fuel md inp).
Proof.
  revert md inp. induction fuel as [|fuel IH]; intros md inp Hc Hf.
  - destruct inp; [by eexists | cbn in Hf; lia].
  - destruct inp as [|b inp]; [by eexists|]. cbn [update_loop].
    destruct (update_turn md (b :: inp)) as [[inp' [err md']]|e] eqn:E; [|by eexists].
    apply update_turn_progress in E as [? ?]; [|cbn; lia|done].
    destruct (negb (err =? 0)); [by eexists|]. apply IH; lia.
Qed.

(** More fuel does not change what the loop returns. *)
Lemma update_loop_fuel fuel fuel' md inp r :
  (fuel <= fuel')%nat → update_loop fuel md inp = Some r → update_loop fuel' md inp = Some r.
Proof.
  revert fuel' md inp. induction fuel as [|fuel IH]; intros fuel' md inp Hle.
  - destruct inp; [by destruct fuel'|done].
  - destruct fuel' as [|fuel']; [lia|]. destruct inp as [|b inp]; [done|]. cbn [update_loop].
    destruct (update_turn md (b :: inp)) as [[inp' [err md']]|e]; [|done].
    case_match; [done|]. apply IH. lia.
Qed.

(** C40: [sha512_update] terminates: for every context whose position the guard
    accepts and every input, the loop returns within one turn more than the
    input has bytes, and any larger number of turns gives the same outcome. *)
Theorem sha512_update_terminates md inp :
  (sha_curlen md <= 128)%nat →
  ∃ r, ∀ fuel, (length inp < fuel)%nat → update_loop fuel md inp = Some r.
Proof.
  intros Hc. destruct (update_loop_terminates (S (length inp)) md inp) as [r Hr]; [done|case_match; lia|].
  exists r. intros fuel Hf. by apply update_loop_fuel with (S (length inp)).
Qed.

(** The hypothesis holds of a context that is filled, and of three bytes. *)
Lemma sha512_update_terminates_witness :
  ∃ r, ∀ fuel, (length [97; 98; 99] < fuel)%nat → update_loop fuel any_context [97; 98; 99] = Some r.
Proof. apply (sha512_update_terminates any_context [97; 98; 99]). vm_compute. lia. Defined.

(** ** The context after some bytes of the message *)

Definition whole_blocks (blocks : list byte_array) : Prop := Forall (λ b, length b = 128%nat) blocks.

Record absorbed_as (blocks : list byte_array) (tail : byte_array) (md : sha512_context) : Prop := {
  ab_whole : whole_blocks blocks;
  ab_short : (length tail < 128)%nat;
  ab_bytes : bytes_ok tail;
  ab_state : sha_state md = foldl fips_block initial_state blocks;
  ab_regs : eight_regs (sha_state md);
  ab_curlen : sha_curlen md = length tail;
  ab_buf : take (length tail) (sha_buf md) = tail;
  ab_buflen : length (sha_buf md) = 128%nat;
  ab_length : sha_length md = u64 (1024 * Z.of_nat (length blocks));
}.

Definition sha_absorbed (d : byte_array) (md : sha512_context) : Prop :=
  ∃ blocks tail, d = concat blocks ++ tail ∧ absorbed_as blocks tail md.

Lemma fips_block_take st buf : (128 <= length buf)%nat → fips_block st buf = fips_block st (take 128 buf).
Proof.
  intros H. unfold fips_block, schedule. f_equal. f_equal. f_equal. f_equal.
  apply map_ext_in. intros i Hi%in_seq. f_equal.
  rewrite skipn_firstn_comm, take_take. f_equal. lia.
Qed.

Lemma compress_absorbs st buf :
  eight_regs st → bytes_ok (take 128 buf) → (128 <= length buf)%nat →
  compress_words st buf = fips_block st (take 128 buf) ∧ eight_regs (compress_words st buf).
Proof.
  intros Hst Hok Hlen. assert (E : compress_words st buf = compress_words st (take 128 buf)).
  { unfold compress_words. assert (load_W buf = load_W (take 128 buf)) as ->; [|done].
    apply map_ext_in. intros i Hi%in_seq. unfold LOAD64H, at_word.
    assert (T : ∀ j, (j < 8)%nat → nth j (drop (8 * i) (take 128 buf)) 0 = nth j (drop (8 * i) buf) 0).
    { intros j Hj. by rewrite !nth_lookup, !lookup_drop, lookup_take_lt by lia. }
    by rewrite !T by lia. }
  rewrite E. apply compress_words_fips; [done|done|]. rewrite length_take. lia.
Qed.

Lemma concat_app_l {A} (ls : list (list A)) l r : concat (ls ++ [l]) ++ r = concat ls ++ l ++ r.
Proof. rewrite concat_app. cbn. by rewrite app_nil_r, <- app_assoc. Qed.

(** The context after one more block. *)
Lemma absorb_block blocks st n block :
  whole_blocks blocks → length block = 128%nat → bytes_ok block →
  st = foldl fips_block initial_state blocks → eight_regs st → n = u64 (1024 * Z.of_nat (length blocks)) →
  whole_blocks (blocks ++ [block]) ∧
  compress_words st block = foldl fips_block initial_state (blocks ++ [block]) ∧
  eight_regs (compress_words st block) ∧
  u64 (n + 1024) = u64 (1024 * Z.of_nat (length (blocks ++ [block]))).
Proof.
  intros Hb Hl Hok Est Hr ->. destruct (compress_words_fips st block Hr Hok) as [E Hr']; [lia|].
  split; [apply Forall_app; split; [done|by apply Forall_singleton]|]. split; [|split; [done|]].
  - rewrite foldl_app. cbn [foldl]. by rewrite <- Est, E.
  - rewrite u64_add_l, length_app. f_equal. cbn [length]. lia.
Qed.

Lemma update_turn_absorbs d md inp :
  sha_absorbed d md → bytes_ok inp → (0 < length inp)%nat →
  ∃ k md', (0 < k)%nat ∧ update_turn md inp = Ok (drop k inp, (0, md')) ∧ sha_absorbed (d ++ take k inp) md'.
Proof.
  intros (blocks & tail & -> & [Hb Hs Hok Est Hr Ec Eb El En]) Hi Hpos. unfold update_turn. case_match eqn:E.
  - apply andb_prop in E as [E1%Nat.eqb_eq E2%Nat.leb_le].
    assert (tail = []) as -> by (apply nil_length_inv; lia).
    exists 128%nat. eexists. split; [lia|]. split; [reflexivity|].
    assert (L : length (take 128 inp) = 128%nat) by (rewrite length_take; lia).
    destruct (absorb_block blocks (sha_state md) (sha_length md) (take 128 inp)) as (?&?&?&?); try done; [by apply bytes_ok_take|].
    destruct (compress_absorbs (sha_state md) inp Hr) as [EC HC]; [by apply bytes_ok_take|done|].
    destruct (compress_words_fips (sha_state md) (take 128 inp) Hr) as [EC' _]; [by apply bytes_ok_take|lia|].
    exists (blocks ++ [take 128 inp]), []. split; [by rewrite concat_app_l, app_nil_r, app_nil_r|].
    split; cbn; try done; congruence.
  - set (n := Nat.min (length inp) (128 - sha_curlen md)).
    assert (Hn : (0 < n <= length inp)%nat ∧ (length tail + n <= 128)%nat) by lia.
    assert (Lt : length (take n inp) = n) by (rewrite length_take; lia).
    destruct (memcpy_spec (sha_buf md) (sha_curlen md) (take n inp)) as (buf & -> & Lb & Tb); [lia|].
    rewrite bind_Ok. rewrite Lt, Ec, Eb in Tb. cbn -[Nat.eqb]. rewrite Ec.
    assert (Hok' : bytes_ok (tail ++ take n inp)) by (apply bytes_ok_app; split; [done|by apply bytes_ok_take]).
    destruct (Nat.eqb_spec (length tail + n) 128) as [E1|E1].
    + exists n. eexists. split; [lia|]. split; [reflexivity|].
      rewrite E1, take_ge in Tb by lia. subst buf.
      destruct (absorb_block blocks (sha_state md) (sha_length md) (tail ++ take n inp)) as (?&?&?&?);
        try done; [rewrite length_app; lia|].
      exists (blocks ++ [tail ++ take n inp]), [].
      split; [by rewrite concat_app_l, app_nil_r, app_assoc|].
      split; cbn; try done; [lia|constructor|congruence].
    + exists n. eexists. split; [lia|]. split; [reflexivity|].
      exists blocks, (tail ++ take n inp). split; [by rewrite app_assoc|].
      split; cbn; try done; rewrite ?length_app, ?Lt; try done; try lia; congruence.
Qed.

Lemma absorbed_curlen d md : sha_absorbed d md → (sha_curlen md < 128)%nat.
Proof. intros (blocks & tail & _ & H). rewrite (ab_curlen _ _ _ H). apply (ab_short _ _ _ H). Qed.

Lemma update_loop_absorbs fuel d md inp :
  sha_absorbed d md → bytes_ok inp → (length inp <= fuel)%nat →
  ∃ md', update_loop fuel md inp = Some (Ok (0, md')) ∧ sha_absorbed (d ++ inp) md'.
Proof.
  revert d md inp. induction fuel as [|fuel IH]; intros d md inp Hd Hi Hf.
  - destruct inp; [|cbn in Hf; lia]. exists md. rewrite app_nil_r. done.
  - destruct inp as [|b inp]; [exists md; by rewrite app_nil_r|]. cbn [update_loop].
    destruct (update_turn_absorbs d md (b :: inp)) as (k & md1 & Hk & -> & Hd1); [done|done|cbn; lia|]. cbn [negb Z.eqb].
    destruct (IH (d ++ take k (b :: inp)) md1 (drop k (b :: inp))) as (md' & -> & Hd'); [done|by apply bytes_ok_drop| |].
    { rewrite length_drop. cbn in *. lia. }
    exists md'. split; [done|]. by rewrite <- app_assoc, take_drop in Hd'.
Qed.

Lemma sha512_update_absorbs d md inp :
  sha_absorbed d md → bytes_ok inp →
  ∃ md', sha512_update md (Some inp) = Ok (0, md') ∧ sha_absorbed (d ++ inp) md'.
Proof.
  intros Hd Hi. pose proof (absorbed_curlen d md Hd). unfold sha512_update.
  rewrite (proj2 (Nat.ltb_ge _ _)) by lia.
  destruct (update_loop_absorbs (S (length inp)) d md inp) as (md' & -> & Hd'); [done|done|lia|]. by exists md'.
Qed.

Lemma sha512_updates_absorb d md pieces :
  sha_absorbed d md → bytes_ok (concat pieces) →
  ∃ md', sha512_updates md pieces = Ok md' ∧ sha_absorbed (d ++ concat pieces) md'.
Proof.
  revert d md. induction pieces as [|p pieces IH]; intros d md Hd Hok; cbn [sha512_updates concat] in *.
  - exists md. by rewrite app_nil_r.
  - apply bytes_ok_app in Hok as [Hp Hok]. destruct (sha512_update_absorbs d md p) as (md1 & -> & Hd1); [done|done|].
    rewrite bind_Ok. destruct (IH _ _ Hd1 Hok) as (md' & -> & Hd'). exists md'. by rewrite <- app_assoc in Hd'.
Qed.

Lemma initial_regs : eight_regs initial_state.
Proof. split; [|done]. unfold words64, initial_state. repeat (constructor; [done|]). constructor. Qed.

Lemma sha512_init_absorbed md : length (sha_buf md) = 128%nat → sha_absorbed [] (snd (sha512_init md)).
Proof.
  intros Hb. exists [], []. split; [done|]. split; cbn; try done; [constructor|lia|constructor|apply initial_regs].
Qed.

(** ** The padding *)

Lemma blocks_of_cons b l : length b = 128%nat → blocks_of (b ++ l) = b :: blocks_of l.
Proof.
  intros Hb. unfold blocks_of. rewrite length_app, Hb.
  replace ((128 + length l) / 128)%nat with (S (length l / 128)).
  2: { replace (128 + length l)%nat with (length l + 1 * 128)%nat by lia. rewrite Nat.div_add by lia. lia. }
  cbn [seq]. rewrite fmap_cons. f_equal.
  - rewrite Nat.mul_0_r, drop_0. by rewrite <- Hb, take_app_length.
  - rewrite <- seq_shift, <- list_fmap_compose. apply map_ext. intros i. unfold compose.
    rewrite drop_app_ge, Hb by lia. do 2 f_equal. lia.
Qed.

Lemma blocks_of_whole blocks l : whole_blocks blocks → blocks_of (concat blocks ++ l) = blocks ++ blocks_of l.
Proof.
  induction 1 as [|b blocks Hb _ IH]; [done|]. cbn [concat]. by rewrite <- app_assoc, blocks_of_cons, IH.
Qed.

Lemma blocks_of_nil : blocks_of [] = [].
Proof. done. Qed.

Lemma blocks_of_one b : length b = 128%nat → blocks_of b = [b].
Proof. intros H. rewrite <- (app_nil_r b) at 1. by rewrite blocks_of_cons. Qed.

(** The zeros at the end of the buffer. *)
Lemma pad_zeros_spec n md :
  (sha_curlen md + n <= length (sha_buf md))%nat →
  ∃ md', pad_zeros n md = Ok md' ∧ sha_curlen md' = (sha_curlen md + n)%nat ∧
    sha_length md' = sha_length md ∧ sha_state md' = sha_state md ∧
    length (sha_buf md') = length (sha_buf md) ∧
    take (sha_curlen md + n) (sha_buf md') = take (sha_curlen md) (sha_buf md) ++ replicate n 0.
Proof.
  revert md. induction n as [|n IH]; intros md H; cbn [pad_zeros].
  - exists md. rewrite Nat.add_0_r, app_nil_r. done.
  - destruct (memcpy_spec (sha_buf md) (sha_curlen md) [0]) as (buf & -> & Lb & Tb); [cbn; lia|]. rewrite bind_Ok.
    destruct (IH (set_buffer buf (sha_curlen md + 1) md)) as (md' & -> & Ec & El & Es & Eb & Et); [cbn; lia|].
    cbn in *. exists md'. rewrite Tb in Et. split_and!; try done; [lia|congruence|].
    replace (sha_curlen md + S n)%nat with (sha_curlen md + 1 + n)%nat by lia. by rewrite Et, <- app_assoc.
Qed.

Lemma be_bytes_16 v : 0 <= v < 2 ^ 64 → be_bytes 16 v = replicate 8 0 ++ be_bytes 8 v.
Proof.
  intros Hv. unfold be_bytes. rewrite (le_bytes_split 8 8), Z.div_small by done.
  by rewrite rev_app_distr.
Qed.

Lemma length_be_bytes n v : length (be_bytes n v) = n.
Proof. unfold be_bytes. by rewrite length_rev, length_le_bytes. Qed.

Definition last_blocks (tail : byte_array) (bits : Z) : list byte_array :=
  if (length tail <=? 111)%nat
  then [tail ++ [0x80] ++ replicate (119 - length tail) 0 ++ be_bytes 8 bits]
  else [tail ++ [0x80] ++ replicate (127 - length tail) 0; replicate 120 0 ++ be_bytes 8 bits].

Lemma length_whole blocks : whole_blocks blocks → length (concat blocks) = (128 * length blocks)%nat.
Proof. induction 1 as [|b bs Hb _ IH]; [done|]. cbn [concat length]. rewrite length_app, Hb, IH. lia. Qed.

Lemma blocks_of_pad blocks tail :
  let d := concat blocks ++ tail in
  whole_blocks blocks → (length tail < 128)%nat → 8 * Z.of_nat (length d) < 2 ^ 64 →
  blocks_of (fips_pad d) = blocks ++ last_blocks tail (8 * Z.of_nat (length d)).
Proof.
  intros d Hb Ht Hd. unfold fips_pad. unfold d at 1. rewrite <- app_assoc, blocks_of_whole by done. f_equal.
  rewrite be_bytes_16 by lia. set (bits := 8 * Z.of_nat (length d)).
  pose proof (length_whole blocks Hb) as L.
  assert (Ld : length d = (128 * length blocks + length tail)%nat) by (unfold d; rewrite length_app; lia).
  rewrite app_assoc with (l := replicate _ 0), <- replicate_add. unfold last_blocks.
  destruct (Nat.leb_spec (length tail) 111).
  - replace (Z.to_nat ((111 - Z.of_nat (length d)) mod 128) + 8)%nat with (119 - length tail)%nat.
    + apply blocks_of_one. rewrite !length_app, length_replicate, length_be_bytes. cbn [length]. lia.
    + rewrite Ld. replace (111 - Z.of_nat (128 * length blocks + length tail))
        with (111 - Z.of_nat (length tail) + (- Z.of_nat (length blocks)) * 128) by lia.
      rewrite Z.mod_add, Z.mod_small by lia. lia.
  - replace (Z.to_nat ((111 - Z.of_nat (length d)) mod 128) + 8)%nat with (127 - length tail + 120)%nat.
    + rewrite replicate_add, <- app_assoc, !app_assoc, <- (app_assoc _ (replicate 120 0)).
      rewrite blocks_of_cons, blocks_of_one; [by rewrite <- app_assoc| |];
        rewrite ?length_app, ?length_replicate, ?length_be_bytes; cbn [length]; lia.
    + rewrite Ld. replace (111 - Z.of_nat (128 * length blocks + length tail))
        with (239 - Z.of_nat (length tail) + (- Z.of_nat (length blocks) - 1) * 128) by lia.
      rewrite Z.mod_add, Z.mod_small by lia. lia.
Qed.

Lemma final_block md pre st :
  length (sha_buf md) = 128%nat → (sha_curlen md <= 120)%nat → take (sha_curlen md) (sha_buf md) = pre →
  bytes_ok pre → sha_state md = st → eight_regs st → is_u64 (sha_length md) →
  ∃ md', finish_block md =
    Ok (0, concat (be_bytes 8 <$> fips_block st (pre ++ replicate (120 - sha_curlen md) 0 ++ be_bytes 8 (sha_length md))), md').
Proof.
  intros Lb Hc Tb Hok Es Hr Hl. unfold finish_block.
  destruct (pad_zeros_spec (120 - sha_curlen md) md) as (md1 & -> & Ec1 & El1 & Es1 & Lb1 & Tb1); [lia|].
  rewrite bind_Ok, El1, STORE64H_be by done.
  rewrite memcpy_full by (rewrite length_be_bytes; lia). rewrite bind_Ok. cbn [sha512_compress set_buffer sha_buf set_state sha_state].
  replace (sha_curlen md + (120 - sha_curlen md))%nat with 120%nat in Tb1 by lia.
  rewrite Tb1, Tb, Es1, Es, <- app_assoc.
  set (block := pre ++ _). destruct (compress_words_fips st block Hr) as [E [Hw _]].
  - unfold block. rewrite !bytes_ok_app. split; [done|]. split.
    + apply Forall_replicate. done.
    + unfold be_bytes. apply Forall_rev, le_bytes_ok.
  - unfold block. rewrite !length_app, length_replicate, length_be_bytes.
    assert (length pre = sha_curlen md) by (rewrite <- Tb, length_take; lia). lia.
  - eexists. rewrite <- E. do 3 f_equal. f_equal. apply map_ext_in. intros w Hw'. apply STORE64H_be.
    unfold words64 in Hw. rewrite Forall_forall in Hw. by apply Hw, list_elem_of_In.
Qed.

Lemma sha512_final_spec d md :
  sha_absorbed d md → 8 * Z.of_nat (length d) < 2 ^ 64 →
  ∃ md', sha512_final md = Ok (0, sha512_spec d, md').
Proof.
  intros (blocks & tail & -> & [Hb Hs Hok Est Hr Ec Eb El En]) Hd.
  pose proof (blocks_of_pad blocks tail Hb Hs Hd) as EP. unfold sha512_spec. rewrite EP, foldl_app, <- Est.
  pose proof (length_whole blocks Hb) as L. rewrite length_app in *.
  set (bits := 8 * Z.of_nat (length (concat blocks) + length tail)) in *.
  assert (EL : u64 (sha_length md + u64 (Z.of_nat (sha_curlen md) * 8)) = bits).
  { rewrite En, u64_add_l, u64_add_r, Ec, <- (u64_id bits); [f_equal; lia|]. split; lia. }
  assert (Hbits : is_u64 bits) by (split; lia).
  unfold sha512_final. rewrite (proj2 (Nat.leb_gt _ _)) by lia. cbv zeta. rewrite EL.
  cbn [set_length sha_buf sha_curlen].
  destruct (memcpy_spec (sha_buf md) (sha_curlen md) [0x80]) as (buf & -> & Lb & Tb); [cbn; lia|]. rewrite bind_Ok.
  rewrite Ec, Eb in Tb. cbn [length] in Tb. cbn [set_buffer sha_buf sha_curlen]. rewrite Ec.
  assert (Hok1 : bytes_ok (tail ++ [0x80])) by (apply bytes_ok_app; split; [done|by repeat constructor]).
  set (md1 := set_buffer buf _ _). unfold last_blocks. destruct (Nat.leb_spec (length tail) 111) as [Ht|Ht].
  - rewrite (proj2 (Nat.ltb_ge _ _)) by lia. rewrite bind_Ok.
    destruct (final_block md1 (tail ++ [0x80]) (sha_state md)) as (md' & ->); try done; try (cbn; lia).
    exists md'. assert ((120 - sha_curlen md1)%nat = (119 - length tail)%nat) as -> by (cbn; lia).
    rewrite <- app_assoc. reflexivity.
  - rewrite (proj2 (Nat.ltb_lt _ _)) by lia.
    destruct (pad_zeros_spec (128 - (length tail + 1)) md1) as (md2 & -> & Ec2 & El2 & Es2 & Lb2 & Tb2); [cbn; lia|].
    assert (Lp : length (sha_buf md2) = 128%nat) by (rewrite Lb2; cbn; lia).
    rewrite !bind_Ok. cbn [sha512_compress].
    assert (E2 : sha_buf md2 = tail ++ [0x80] ++ replicate (127 - length tail) 0).
    { assert (T1 : take (sha_curlen md1) (sha_buf md1) = tail ++ [0x80]) by exact Tb.
      rewrite T1, take_ge in Tb2 by (cbn; lia). rewrite Tb2, <- app_assoc.
      replace (128 - (length tail + 1))%nat with (127 - length tail)%nat by lia. reflexivity. }
    destruct (compress_words_fips (sha_state md) (sha_buf md2) Hr) as [EC HC]; [|lia|].
    { rewrite E2, app_assoc. apply bytes_ok_app. split; [done|]. by apply Forall_replicate. }
    rewrite bind_Ok. match goal with |- context [finish_block ?m] => destruct (final_block m [] (compress_words (sha_state md) (sha_buf md2))) as (md' & ->) end;
      try done; try (cbn; lia); [constructor|cbn; by rewrite Es2|cbn; by rewrite El2|].
    exists md'. cbn [set_buffer set_state sha_length sha_curlen foldl]. rewrite El2, EC, E2. reflexivity.
Qed.

Lemma sha512_ok ctx m : length (sha_buf ctx) = 128%nat → bytes_ok m → 8 * Z.of_nat (length m) < 2 ^ 64 →
  sha512 ctx (Some m) = Ok (0, sha512_spec m).
Proof.
  intros Hb Hm Hl. pose proof (sha512_init_absorbed ctx Hb) as H0. unfold sha512. cbn [sha512_init]. cbn [sha512_init snd] in H0.
  destruct (sha512_update_absorbs [] _ m H0) as (md & E & Hd); [done|]. cbn [negb Z.eqb]. rewrite E, bind_Ok.
  cbn [negb Z.eqb]. destruct (sha512_final_spec _ md Hd Hl) as (md' & ->). done.
Qed.

(** C15: The streaming interface computes SHA-512: for every message of whole
    bytes below 2^64 bits, cut into pieces in any way, and any context with its
    128-byte buffer, the updates and the final call stay within the buffer,
    return 0 and give the digest of FIPS 180-4, the one [sha512] gives for the
    whole message. *)
Theorem sha512_correct ctx pieces :
  let m := concat pieces in
  length (sha_buf ctx) = 128%nat → bytes_ok m → 8 * Z.of_nat (length m) < 2 ^ 64 →
  sha512_stream ctx pieces = Ok (0, sha512_spec m) ∧ sha512 ctx (Some m) = Ok (0, sha512_spec m).
Proof.
  intros m Hb Hm Hl. pose proof (sha512_init_absorbed ctx Hb) as H0. split.
  - unfold sha512_stream. destruct (sha512_updates_absorb [] (snd (sha512_init ctx)) pieces) as (md & -> & Hd); [done|done|].
    rewrite bind_Ok. destruct (sha512_final_spec _ md Hd Hl) as (md' & ->). done.
  - by apply sha512_ok.
Qed.

(** The message "abc" in two pieces: its digest begins with dd af 35 a1. *)
Lemma sha512_correct_witness :
  sha512_stream any_context [[97]; [98; 99]] = Ok (0, sha512_spec [97; 98; 99]) ∧
  sha512 any_context (Some [97; 98; 99]) = Ok (0, sha512_spec [97; 98; 99]).
Proof.
  apply (sha512_correct any_context [[97]; [98; 99]]); [reflexivity| |vm_compute; reflexivity].
  repeat constructor; vm_compute; congruence.
Defined.

Lemma sha512_spec_ok m : bytes_ok (sha512_spec m).
Proof.
  unfold sha512_spec. apply Forall_concat, Forall_map, Forall_forall. intros w _.
  unfold be_bytes. apply Forall_rev, le_bytes_ok.
Qed.

Lemma foldl_invariant {A B} (P : A → Prop) (f : A → B → A) l a :
  (∀ a b, P a → P (f a b)) → P a → P (foldl f a l).
Proof. intros Hf. revert a. induction l as [|b l IH]; cbn; auto. Qed.

Lemma length_fips_block H block : length H = 8%nat → length (fips_block H block) = 8%nat.
Proof.
  intros HH. unfold fips_block. rewrite length_zip_with, HH.
  rewrite (foldl_invariant (λ r, length r = 8%nat)); [done| |done].
  intros r t Hr. destruct (eight_words r Hr) as (a & b & c & d & e & f & g & h & ->). done.
Qed.

Lemma length_sha512_spec m : length (sha512_spec m) = 64%nat.
Proof.
  unfold sha512_spec.
  assert (H : length (foldl fips_block initial_state (blocks_of (fips_pad m))) = 8%nat).
  { apply (foldl_invariant (λ r, length r = 8%nat)); [|done]. intros. by apply length_fips_block. }
  destruct (eight_words _ H) as (a & b & c & d & e & f & g & h & ->).
  cbn [fmap list_fmap concat]. by rewrite !length_app, !length_be_bytes.
Qed.

(** ** The buffer keeps its size *)

Lemma pad_zeros_buffer n md md' : pad_zeros n md = Ok md' → length (sha_buf md') = length (sha_buf md).
Proof.
  revert md. induction n as [|n IH]; intros md H; cbn [pad_zeros] in H; [by injection H as <-|].
  apply bind_Ok_inv in H as (buf & Hm & H). rewrite (IH _ H). by apply memcpy_length in Hm.
Qed.

Lemma finish_block_buffer md ret out md' : finish_block md = Ok (ret, out, md') → length (sha_buf md') = length (sha_buf md).
Proof.
  unfold finish_block. intros H. apply bind_Ok_inv in H as (md1 & H1 & H). apply bind_Ok_inv in H as (buf & H2 & H).
  cbn [sha512_compress] in H. injection H as _ _ <-. cbn [set_state set_buffer sha_buf].
  by rewrite (memcpy_length _ _ _ _ H2), (pad_zeros_buffer _ _ _ H1).
Qed.

Lemma sha512_final_buffer md ret out md' : sha512_final md = Ok (ret, out, md') → length (sha_buf md') = length (sha_buf md).
Proof.
  unfold sha512_final. destruct (128 <=? _)%nat; [by intros [= _ _ <-]|]. intros H. apply bind_Ok_inv in H as (buf & H1 & H).
  apply memcpy_length in H1. apply bind_Ok_inv in H as (md1 & H2 & H). rewrite (finish_block_buffer _ _ _ _ H). clear H.
  revert H2. destruct (112 <? _)%nat; [|intros [= <-]; exact H1]. intros H2. apply bind_Ok_inv in H2 as (md2 & H2 & E).
  cbn [sha512_compress] in E. injection E as <-. cbn [set_state set_buffer sha_buf]. rewrite (pad_zeros_buffer _ _ _ H2). exact H1.
Qed.
