(* ===== verification/Limbs.v ===== *)
(** * Limbs: checked machine arithmetic on arrays of limbs

    What [ed25519/src/fe.c] and [ed25519/src/sc.c] do over and over: signed
    operations of 32 and 64 bits, and the carry from one limb of a number to
    another.  A signed operation that overflows has the outcome
    [undefined_behaviour], so a function that returns [Ok] has no overflow on
    that input.  A left shift is the multiplication the compilers make of it,
    for negative numbers too, and a right shift is arithmetic.

    The lemmas bound the limbs by a list of absolute values: a step that the
    bounds allow returns, its result is within computed bounds, and the number
    the limbs stand for changes by a multiple of the modulus. *)

From S2P Require Import Prelude Blake2.


(** ** The operations *)

Definition int32 (x : Z) : result Z :=
  if (- 2 ^ 31 <=? x) && (x <? 2 ^ 31) then Ok x else Throw undefined_behaviour.

Definition int64 (x : Z) : result Z :=
  if (- 2 ^ 63 <=? x) && (x <? 2 ^ 63) then Ok x else Throw undefined_behaviour.

Definition add32 (x y : Z) : result Z := int32 (x + y).
Definition sub32 (x y : Z) : result Z := int32 (x - y).
Definition mul32 (x y : Z) : result Z := int32 (x * y).
Definition add64 (x y : Z) : result Z := int64 (x + y).
Definition sub64 (x y : Z) : result Z := int64 (x - y).
Definition mul64 (x y : Z) : result Z := int64 (x * y).

(** [x0 + x1 + x2 + ...] *)
Definition sum64 (xs : list Z) : result Z :=
  match xs with
  | [] => Ok 0
  | x :: xs => foldl (λ s y, s ← s; add64 s y) (Ok x) xs
  end.

(** A carry of [w] bits from limb [i] to limb [j], with [r] added before the
    shift to round it and [k] times the carry added to limb [j]:
    [carry = (l[i] + r) >> w; l[j] += carry * k; l[i] -= carry << w]. *)
Definition carry (chk : Z → result Z) (k : Z) (i j : nat) (w r : Z) (l : list Z) : result (list Z) :=
  t ← chk (at_word l i + r);
  let c := Z.shiftr t w in
  d ← chk (c * k);
  x ← chk (at_word l j + d);
  let l := <[j := x]> l in
  s ← chk (c * 2 ^ w);
  y ← chk (at_word l i - s);
  Ok (<[i := y]> l).

(** [l[j] += l[i] * c] and [l[j] -= l[i] * c] *)
Definition add_mul (i j : nat) (c : Z) (l : list Z) : result (list Z) :=
  t ← mul64 (at_word l i) c;
  x ← add64 (at_word l j) t;
  Ok (<[j := x]> l).

Definition sub_mul (i j : nat) (c : Z) (l : list Z) : result (list Z) :=
  t ← mul64 (at_word l i) c;
  x ← sub64 (at_word l j) t;
  Ok (<[j := x]> l).

(** Statements one after the other. *)
Fixpoint run {A S} (step : S → A → result A) (steps : list S) (a : A) : result A :=
  match steps with
  | [] => Ok a
  | s :: steps => a ← step s a; run step steps a
  end.

(** A carry from limb [i] to the next one, not rounded. *)
Definition floor_carry (chk : Z → result Z) (width : nat → Z) (i : nat) (l : list Z) : result (list Z) :=
  carry chk 1 i (i + 1) (width i) 0 l.

(** ** The number a list of limbs stands for *)

Fixpoint weighted (ws l : list Z) : Z :=
  match ws, l with
  | w :: ws, x :: l => 2 ^ w * x + weighted ws l
  | _, _ => 0
  end.

(** ** Bounds *)

Definition within (B l : list Z) : Prop := Forall2 (λ b x, Z.abs x <= b) B l.

(** The bounds after a carry, when they exclude an overflow of [chk] at [M]. *)
Definition carry_bound (M k : Z) (i j : nat) (w r : Z) (B : list Z) : option (list Z) :=
  let b := at_word B i in
  let R := Z.max r (2 ^ w - 1 - r) in
  let C := (b + R) / 2 ^ w in
  let bj := at_word B j + C * k in
  if (b + r <=? M) && (C * k <=? M) && (bj <=? M) && (C * 2 ^ w <=? M) && (R <=? M)
  then Some (<[i := R]> (<[j := bj]> B)) else None.

Definition add_mul_bound (i j : nat) (c : Z) (B : list Z) : option (list Z) :=
  let bj := at_word B j + at_word B i * Z.abs c in
  if bj <=? 2 ^ 63 - 1 then Some (<[j := bj]> B) else None.

Fixpoint run_bound {S} (step : S → list Z → option (list Z)) (steps : list S) (B : list Z) : option (list Z) :=
  match steps with
  | [] => Some B
  | s :: steps => B ← step s B; run_bound step steps B
  end.

Definition floor_bound (M : Z) (width : nat → Z) (i : nat) (B : list Z) : option (list Z) :=
  carry_bound M 1 i (i + 1) (width i) 0 B.

(** ** Lemmas *)

Lemma int32_ok x : Z.abs x <= 2 ^ 31 - 1 → int32 x = Ok x.
Proof. intros H. unfold int32. rewrite (proj2 (Z.leb_le _ _)), (proj2 (Z.ltb_lt _ _)) by lia. done. Qed.

Lemma int64_ok x : Z.abs x <= 2 ^ 63 - 1 → int64 x = Ok x.
Proof. intros H. unfold int64. rewrite (proj2 (Z.leb_le _ _)), (proj2 (Z.ltb_lt _ _)) by lia. done. Qed.

Lemma ok_bind {A B} (m : result A) (k : A → result B) a r : m = Ok a → k a = r → (m ≫= k) = r.
Proof. by intros -> <-. Qed.

Lemma result_bind_assoc {A B C} (m : result A) (f : A → result B) (g : B → result C) :
  ((m ≫= f) ≫= g) = (m ≫= λ a, f a ≫= g).
Proof. by destruct m. Qed.

(** The function returns, with a result that satisfies [P]. *)
Definition returns {A} (r : result A) (P : A → Prop) : Prop := ∃ a, r = Ok a ∧ P a.

Lemma returns_Ok {A} (a : A) (P : A → Prop) : P a → returns (Ok a) P.
Proof. by exists a. Qed.

Lemma returns_bind {A B} (m : result A) (k : A → result B) (P : A → Prop) (Q : B → Prop) :
  returns m P → (∀ a, P a → returns (k a) Q) → returns (m ≫= k) Q.
Proof. intros (a & -> & Ha) H. by apply H. Qed.

Lemma returns_mono {A} (m : result A) (P Q : A → Prop) : returns m P → (∀ a, P a → Q a) → returns m Q.
Proof. intros (a & -> & Ha) H. exists a. auto. Qed.

Lemma add64_ok x y a b : Z.abs x <= a → Z.abs y <= b → a + b <= 2 ^ 63 - 1 → add64 x y = Ok (x + y).
Proof. intros. apply int64_ok. lia. Qed.

Lemma mul_bound x y a b : Z.abs x <= a → Z.abs y <= b → Z.abs (x * y) <= a * b.
Proof. intros. rewrite Z.abs_mul. apply Z.mul_le_mono_nonneg; lia. Qed.

Lemma mul64_ok x y a b : Z.abs x <= a → Z.abs y <= b → a * b <= 2 ^ 63 - 1 → mul64 x y = Ok (x * y).
Proof. intros Hx Hy H. apply int64_ok. pose proof (mul_bound x y a b Hx Hy). lia. Qed.

Lemma mul32_ok x y a b : Z.abs x <= a → Z.abs y <= b → a * b <= 2 ^ 31 - 1 → mul32 x y = Ok (x * y).
Proof. intros Hx Hy H. apply int32_ok. pose proof (mul_bound x y a b Hx Hy). lia. Qed.

Fixpoint sum_list (xs : list Z) : Z := match xs with [] => 0 | x :: xs => x + sum_list xs end.

Lemma sum_fold_ok xs : ∀ B s b,
  within B xs → Z.abs s <= b → b + sum_list B <= 2 ^ 63 - 1 →
  foldl (λ s y, s ← s; add64 s y) (Ok s) xs = Ok (s + sum_list xs) ∧ Z.abs (s + sum_list xs) <= b + sum_list B.
Proof.
  induction xs as [|x xs IH]; intros B s b HB Hs Hb.
  - apply Forall2_nil_inv_r in HB as ->. cbn in *. split; [f_equal|]; lia.
  - apply Forall2_cons_inv_r in HB as (b' & B' & Hx & HB' & ->). cbn in *.
    assert (0 <= sum_list B').
    { clear -HB'. induction HB' as [|b x B xs Hb _ IH]; cbn; lia. }
    rewrite (add64_ok s x b b') by lia.
    destruct (IH B' (s + x) (b + b')) as [-> ?]; [done|lia|lia|]. split; [f_equal|]; lia.
Qed.

Lemma sum64_ok xs B :
  within B xs → sum_list B <= 2 ^ 63 - 1 → sum64 xs = Ok (sum_list xs) ∧ Z.abs (sum_list xs) <= sum_list B.
Proof.
  intros HB Hs. destruct HB as [|b x B xs Hx HB]; [done|]. cbn in *.
  destruct (sum_fold_ok xs B x b HB Hx) as [-> ?]; [lia|]. done.
Qed.

Lemma within_length B l : within B l → length B = length l.
Proof. apply Forall2_length. Qed.

Lemma within_at B l i : within B l → Z.abs (at_word l i) <= at_word B i.
Proof.
  intros H. revert i. induction H as [|b x B l Hx _ IH]; intros [|i]; cbn; try lia; apply IH.
Qed.

Lemma within_insert B l i b x : within B l → Z.abs x <= b → within (<[i := b]> B) (<[i := x]> l).
Proof. intros H Hx. by apply Forall2_insert. Qed.

Lemma within_weaken B B' l : within B l → Forall2 Z.le B B' → within B' l.
Proof.
  intros H. revert B'. induction H as [|b x B l Hx _ IH]; intros B' HB; inversion HB; subst; constructor; [lia|by apply IH].
Qed.

Lemma weighted_insert ws l i x :
  length ws = length l → (i < length l)%nat →
  weighted ws (<[i := x]> l) = weighted ws l + 2 ^ at_word ws i * (x - at_word l i).
Proof.
  revert l i. induction ws as [|w ws IH]; intros [|y l] i Hl Hi; try (cbn in *; lia).
  destruct i as [|i]; cbn; [unfold at_word; cbn; lia|].
  cbn in Hl, Hi. rewrite IH by lia. unfold at_word. cbn. lia.
Qed.

Lemma weighted_app w1 w2 l1 l2 :
  length w1 = length l1 → weighted (w1 ++ w2) (l1 ++ l2) = weighted w1 l1 + weighted w2 l2.
Proof.
  revert l1. induction w1 as [|w w1 IH]; intros [|x l1] E; try done. cbn. injection E as E. rewrite IH by done. lia.
Qed.

Lemma weighted_within ws B l : within B l → Z.abs (weighted ws l) <= weighted ws B.
Proof.
  intros H. revert ws. induction H as [|b x B l Hx _ IH]; intros [|w ws]; cbn; try lia.
  pose proof (IH ws). pose proof (Z.pow_nonneg 2 w). assert (Z.abs (2 ^ w * x) <= 2 ^ w * b); [|lia].
  rewrite Z.abs_mul. apply Z.mul_le_mono_nonneg; lia.
Qed.

(** [chk] accepts the absolute values up to [M]. *)
Class Checked (chk : Z → result Z) (M : Z) : Prop := chk_ok x : Z.abs x <= M → chk x = Ok x.

#[export] Instance int32_checked : Checked int32 (2 ^ 31 - 1).
Proof. exact int32_ok. Qed.

#[export] Instance int64_checked : Checked int64 (2 ^ 63 - 1).
Proof. exact int64_ok. Qed.

(** The carry of a limb within [b], rounded by [r]. *)
Lemma carry_value x b w r :
  Z.abs x <= b → 0 < w → 0 <= r < 2 ^ w →
  let c := Z.shiftr (x + r) w in
  let R := Z.max r (2 ^ w - 1 - r) in
  Z.abs c <= (b + R) / 2 ^ w ∧ - r <= x - c * 2 ^ w <= 2 ^ w - 1 - r.
Proof.
  intros Hx Hw Hr c R. unfold c. rewrite shiftr_div by lia. clear c.
  pose proof (Z.div_mod (x + r) (2 ^ w) ltac:(lia)) as D.
  pose proof (Z.mod_pos_bound (x + r) (2 ^ w) ltac:(lia)) as Mb.
  set (c := (x + r) / 2 ^ w) in *. split; [|lia].
  apply Z.div_le_lower_bound; [lia|]. unfold R. nia.
Qed.

Lemma carry_ok chk M `{Checked chk M} k i j w r ws B B' l :
  within B l → length ws = length l → i ≠ j → (i < length l)%nat → (j < length l)%nat →
  0 < w → 0 <= r < 2 ^ w → 0 < k → carry_bound M k i j w r B = Some B' →
  ∃ l', carry chk k i j w r l = Ok l' ∧ within B' l' ∧
    (- r <= at_word l' i <= 2 ^ w - 1 - r) ∧
    (∀ m, m ≠ i → m ≠ j → at_word l' m = at_word l m) ∧
    weighted ws l' = weighted ws l + Z.shiftr (at_word l i + r) w * (2 ^ at_word ws j * k - 2 ^ at_word ws i * 2 ^ w).
Proof.
  intros HB Hl Hij Hi Hj Hw Hr Hk HB'. unfold carry_bound in HB'.
  destruct (carry_value (at_word l i) (at_word B i) w r (within_at B l i HB) Hw Hr) as [Hc Hy].
  pose proof (within_at B l i HB) as Hbi. pose proof (within_at B l j HB) as Hbj.
  set (R := Z.max r (2 ^ w - 1 - r)) in *. set (C := (at_word B i + R) / 2 ^ w) in *.
  destruct ((_ <=? M) && _ && _ && _ && _) eqn:E in HB'; [|done]. injection HB' as <-.
  rewrite !andb_true_iff, !Z.leb_le in E. destruct E as ((((E1&E2)&E3)&E4)&E5).
  set (c := Z.shiftr (at_word l i + r) w) in *.
  assert (Hck : Z.abs (c * k) <= C * k) by (apply mul_bound; lia).
  assert (Hcw : Z.abs (c * 2 ^ w) <= C * 2 ^ w) by (apply mul_bound; lia).
  unfold carry. rewrite (chk_ok (at_word l i + r)), bind_Ok by lia. cbv zeta. fold c.
  rewrite (chk_ok (c * k)), bind_Ok, (chk_ok (at_word l j + c * k)), bind_Ok by lia.
  rewrite at_insert, decide_False by done.
  rewrite (chk_ok (c * 2 ^ w)), bind_Ok, (chk_ok (at_word l i - c * 2 ^ w)), bind_Ok by lia.
  eexists. split; [done|]. split; [|split; [|split]].
  - apply within_insert; [apply within_insert; [done|lia]|lia].
  - rewrite at_insert by (by rewrite length_insert). by rewrite decide_True.
  - intros m Hmi Hmj. rewrite !at_insert by (by rewrite ?length_insert). by rewrite !decide_False.
  - rewrite !weighted_insert, at_insert by (by rewrite ?length_insert). rewrite decide_False by done. lia.
Qed.

Lemma run_app {A S} (step : S → A → result A) s1 s2 a : run step (s1 ++ s2) a = (run step s1 a ≫= run step s2).
Proof.
  revert a. induction s1 as [|s s1 IH]; intros a; [done|]. cbn. destruct (step s a) as [b|e]; [|done]. cbn. apply IH.
Qed.

Lemma run_bound_app {S} (step : S → list Z → option (list Z)) s1 s2 B :
  run_bound step (s1 ++ s2) B = (run_bound step s1 B ≫= run_bound step s2).
Proof.
  revert B. induction s1 as [|s s1 IH]; intros B; [done|]. cbn. destruct (step s B) as [b|]; [|done]. cbn. apply IH.
Qed.

Lemma carry_bound_length M k i j w r B B' : carry_bound M k i j w r B = Some B' → length B' = length B.
Proof. unfold carry_bound. case_match; [|done]. intros [= <-]. by rewrite !length_insert. Qed.

Lemma run_bound_length {S} (step : S → list Z → option (list Z)) steps B B' :
  (∀ s B B', step s B = Some B' → length B' = length B) → run_bound step steps B = Some B' → length B' = length B.
Proof.
  intros Hs. revert B. induction steps as [|s steps IH]; intros B E; [by injection E as <-|].
  cbn in E. apply bind_Some in E as (B1 & E1 & E2). rewrite (IH B1 E2). by eapply Hs.
Qed.

Lemma at_word_Forall (P : Z → Prop) l i : Forall P l → (i < length l)%nat → P (at_word l i).
Proof.
  intros H Hi. destruct (lookup_lt_is_Some_2 l i Hi) as [x Hx]. unfold at_word. rewrite nth_lookup, Hx.
  by eapply Forall_lookup_1 in H.
Qed.

(** The chain of carries from the first limb on: the limbs it leaves are the
    digits of the number, which it keeps. *)
Lemma floor_chain chk M `{Checked chk M} width ws n B B' l :
  within B l → length ws = length l → (n < length l)%nat → (∀ i, 0 < width i) →
  (∀ i, (i < n)%nat → at_word ws (i + 1) = at_word ws i + width i) → Forall (λ w, 0 <= w) ws →
  run_bound (floor_bound M width) (seq 0 n) B = Some B' →
  ∃ l', run (floor_carry chk width) (seq 0 n) l = Ok l' ∧ within B' l' ∧
    (∀ i, (i < n)%nat → 0 <= at_word l' i < 2 ^ width i) ∧
    (∀ i, (n < i)%nat → at_word l' i = at_word l i) ∧
    weighted ws l' = weighted ws l.
Proof.
  intros HB Hl Hn Hw Hws Hpos. revert B' Hn Hws. induction n as [|n IH]; intros B' Hn Hws HB'.
  - injection HB' as <-. exists l. split; [done|]. split; [done|]. split; [lia|]. done.
  - rewrite seq_S, run_bound_app in HB'. apply bind_Some in HB' as (B1 & E1 & E2).
    cbn in E2. apply bind_Some in E2 as (B2 & E2 & [= <-]).
    destruct (IH B1 ltac:(lia)) as (l1 & Er & HB1 & Hd & Hk & Ew); [intros i Hi; apply Hws; lia|done|].
    assert (L1 : length l1 = length l).
    { rewrite <- (within_length _ _ HB1), <- (within_length _ _ HB). eapply run_bound_length; [|exact E1].
      intros i. apply carry_bound_length. }
    pose proof (Hw n). destruct (carry_ok chk M 1 n (n + 1) (width n) 0 ws B1 B2 l1) as (l' & Ec & HB2 & Hr & Hm & Ew'); try done; try lia.
    exists l'. rewrite seq_S, run_app, Er, bind_Ok. cbn [run Nat.add]. unfold floor_carry at 1. rewrite Ec, bind_Ok.
    split; [done|]. split; [done|]. split; [|split].
    + intros i Hi. destruct (decide (i = n)) as [->|Hne]; [lia|]. rewrite Hm by lia. apply Hd. lia.
    + intros i Hi. rewrite Hm by lia. apply Hk. lia.
    + rewrite Ew', Hws, Ew by lia.
      pose proof (at_word_Forall _ ws n Hpos ltac:(lia)) as Hp. cbv beta in Hp.
      rewrite Z.pow_add_r by lia. lia.
Qed.
