(* ===== verification/Fe25519.v ===== *)
(** * Fe25519: the field of the signatures

    Models [ed25519/src/fe.c]: elements of the integers modulo 2^255 - 19 as ten
    signed limbs of 26 and 25 bits in turn ([fe], an [int32_t[10]]).  Every
    function is translated with its 32-bit and 64-bit operations checked
    ([Limbs]): a result [Ok] means that no signed operation overflows,
    the left shifts of the packing apart ([joined]).

    The theorems show, for the bounds on the limbs that the comments of the
    source state, that every operation returns, that its result is within the
    stated bounds, and that it computes the operation of the field: sums,
    products, squares, the inverse and the exponentiation as powers, the packing
    to 32 bytes as the unique representative below the modulus, and the
    unpacking.  *)

From S2P Require Import Prelude Blake2 Limbs.

(** ** Elements *)

Abbreviation fe := (list Z) (only parsing).

Definition P25519 : Z := 2 ^ 255 - 19.

Definition fe_0 : fe := [0; 0; 0; 0; 0; 0; 0; 0; 0; 0].
Definition fe_1 : fe := [1; 0; 0; 0; 0; 0; 0; 0; 0; 0].

Definition load_3 (inp : byte_array) : Z :=
  Z.lor (Z.lor (at_word inp 0) (u64 (Z.shiftl (at_word inp 1) 8))) (u64 (Z.shiftl (at_word inp 2) 16)).

Definition load_4 (inp : byte_array) : Z :=
  Z.lor (Z.lor (Z.lor (at_word inp 0) (u64 (Z.shiftl (at_word inp 1) 8)))
    (u64 (Z.shiftl (at_word inp 2) 16))) (u64 (Z.shiftl (at_word inp 3) 24)).

(** The same 32-bit operation on the ten limbs of two elements. *)
Fixpoint limbwise (op : Z → Z → result Z) (f g : fe) : result fe :=
  match f, g with
  | x :: f, y :: g => h ← op x y; r ← limbwise op f g; Ok (h :: r)
  | _, _ => Ok []
  end.

Definition fe_add (f g : fe) : result fe := limbwise add32 f g.
Definition fe_sub (f g : fe) : result fe := limbwise sub32 f g.
Definition fe_neg (f : fe) : result fe := limbwise (λ x _, int32 (- x)) f f.

Definition fe_copy (f : fe) : fe := f.

(** [x &= b] on an [int32_t] and an [unsigned int]: the operation is on unsigned
    words and its result becomes signed again. *)
Definition mask32 (x b : Z) : Z := i32 (Z.land (u32 x) b).

Definition fe_cmov (f g : fe) (b : Z) : fe :=
  let b := u32 (- b) in
  zip_with (λ x y, Z.lxor x (mask32 (Z.lxor x y) b)) f g.

Definition fe_cswap (f g : fe) (b : Z) : fe * fe :=
  let b := u32 (- b) in
  (zip_with (λ x y, Z.lxor x (mask32 (Z.lxor x y) b)) f g,
   zip_with (λ x y, Z.lxor y (mask32 (Z.lxor x y) b)) f g).

(** [h[i] = (int32_t) h_i] *)
Definition store_limbs (h : list Z) : fe := i32 <$> h.

(** ** Carries *)

Definition limb_bits (i : nat) : Z := if Nat.even i then 26 else 25.

(** [carry_i = (h_i + (1 << (bits - 1))) >> bits], added to the next limb; the
    carry of the last limb comes back to the first one times 19. *)
Definition fe_carry (i : nat) (h : list Z) : result (list Z) :=
  carry int64 (if (i =? 9)%nat then 19 else 1) i (if (i =? 9)%nat then 0 else i + 1)%nat
    (limb_bits i) (2 ^ (limb_bits i - 1)) h.

(** The carries after a multiplication, and those of the other functions. *)
Definition mul_carries : list nat := [0; 4; 1; 5; 2; 6; 3; 7; 4; 8; 9; 0]%nat.
Definition other_carries : list nat := [9; 1; 3; 5; 7; 0; 2; 4; 6; 8]%nat.

(** ** Products *)

Definition mul_products (f g : fe) : result (list Z) :=
  let f0 := at_word f 0 in let f1 := at_word f 1 in let f2 := at_word f 2 in let f3 := at_word f 3 in
  let f4 := at_word f 4 in let f5 := at_word f 5 in let f6 := at_word f 6 in let f7 := at_word f 7 in
  let f8 := at_word f 8 in let f9 := at_word f 9 in let g0 := at_word g 0 in let g1 := at_word g 1 in
  let g2 := at_word g 2 in let g3 := at_word g 3 in let g4 := at_word g 4 in let g5 := at_word g 5 in
  let g6 := at_word g 6 in let g7 := at_word g 7 in let g8 := at_word g 8 in let g9 := at_word g 9 in
  g1_19 ← mul32 19 g1; g2_19 ← mul32 19 g2; g3_19 ← mul32 19 g3; g4_19 ← mul32 19 g4;
  g5_19 ← mul32 19 g5; g6_19 ← mul32 19 g6; g7_19 ← mul32 19 g7; g8_19 ← mul32 19 g8;
  g9_19 ← mul32 19 g9; f1_2 ← mul32 2 f1; f3_2 ← mul32 2 f3; f5_2 ← mul32 2 f5;
  f7_2 ← mul32 2 f7; f9_2 ← mul32 2 f9; f0g0 ← mul64 f0 g0; f0g1 ← mul64 f0 g1;
  f0g2 ← mul64 f0 g2; f0g3 ← mul64 f0 g3; f0g4 ← mul64 f0 g4; f0g5 ← mul64 f0 g5;
  f0g6 ← mul64 f0 g6; f0g7 ← mul64 f0 g7; f0g8 ← mul64 f0 g8; f0g9 ← mul64 f0 g9;
  f1g0 ← mul64 f1 g0; f1g1_2 ← mul64 f1_2 g1; f1g2 ← mul64 f1 g2; f1g3_2 ← mul64 f1_2 g3;
  f1g4 ← mul64 f1 g4; f1g5_2 ← mul64 f1_2 g5; f1g6 ← mul64 f1 g6; f1g7_2 ← mul64 f1_2 g7;
  f1g8 ← mul64 f1 g8; f1g9_38 ← mul64 f1_2 g9_19; f2g0 ← mul64 f2 g0; f2g1 ← mul64 f2 g1;
  f2g2 ← mul64 f2 g2; f2g3 ← mul64 f2 g3; f2g4 ← mul64 f2 g4; f2g5 ← mul64 f2 g5;
  f2g6 ← mul64 f2 g6; f2g7 ← mul64 f2 g7; f2g8_19 ← mul64 f2 g8_19; f2g9_19 ← mul64 f2 g9_19;
  f3g0 ← mul64 f3 g0; f3g1_2 ← mul64 f3_2 g1; f3g2 ← mul64 f3 g2; f3g3_2 ← mul64 f3_2 g3;
  f3g4 ← mul64 f3 g4; f3g5_2 ← mul64 f3_2 g5; f3g6 ← mul64 f3 g6; f3g7_38 ← mul64 f3_2 g7_19;
  f3g8_19 ← mul64 f3 g8_19; f3g9_38 ← mul64 f3_2 g9_19; f4g0 ← mul64 f4 g0; f4g1 ← mul64 f4 g1;
  f4g2 ← mul64 f4 g2; f4g3 ← mul64 f4 g3; f4g4 ← mul64 f4 g4; f4g5 ← mul64 f4 g5;
  f4g6_19 ← mul64 f4 g6_19; f4g7_19 ← mul64 f4 g7_19; f4g8_19 ← mul64 f4 g8_19; f4g9_19 ← mul64 f4 g9_19;
  f5g0 ← mul64 f5 g0; f5g1_2 ← mul64 f5_2 g1; f5g2 ← mul64 f5 g2; f5g3_2 ← mul64 f5_2 g3;
  f5g4 ← mul64 f5 g4; f5g5_38 ← mul64 f5_2 g5_19; f5g6_19 ← mul64 f5 g6_19; f5g7_38 ← mul64 f5_2 g7_19;
  f5g8_19 ← mul64 f5 g8_19; f5g9_38 ← mul64 f5_2 g9_19; f6g0 ← mul64 f6 g0; f6g1 ← mul64 f6 g1;
  f6g2 ← mul64 f6 g2; f6g3 ← mul64 f6 g3; f6g4_19 ← mul64 f6 g4_19; f6g5_19 ← mul64 f6 g5_19;
  f6g6_19 ← mul64 f6 g6_19; f6g7_19 ← mul64 f6 g7_19; f6g8_19 ← mul64 f6 g8_19; f6g9_19 ← mul64 f6 g9_19;
  f7g0 ← mul64 f7 g0; f7g1_2 ← mul64 f7_2 g1; f7g2 ← mul64 f7 g2; f7g3_38 ← mul64 f7_2 g3_19;
  f7g4_19 ← mul64 f7 g4_19; f7g5_38 ← mul64 f7_2 g5_19; f7g6_19 ← mul64 f7 g6_19; f7g7_38 ← mul64 f7_2 g7_19;
  f7g8_19 ← mul64 f7 g8_19; f7g9_38 ← mul64 f7_2 g9_19; f8g0 ← mul64 f8 g0; f8g1 ← mul64 f8 g1;
  f8g2_19 ← mul64 f8 g2_19; f8g3_19 ← mul64 f8 g3_19; f8g4_19 ← mul64 f8 g4_19; f8g5_19 ← mul64 f8 g5_19;
  f8g6_19 ← mul64 f8 g6_19; f8g7_19 ← mul64 f8 g7_19; f8g8_19 ← mul64 f8 g8_19; f8g9_19 ← mul64 f8 g9_19;
  f9g0 ← mul64 f9 g0; f9g1_38 ← mul64 f9_2 g1_19; f9g2_19 ← mul64 f9 g2_19; f9g3_38 ← mul64 f9_2 g3_19;
  f9g4_19 ← mul64 f9 g4_19; f9g5_38 ← mul64 f9_2 g5_19; f9g6_19 ← mul64 f9 g6_19; f9g7_38 ← mul64 f9_2 g7_19;
  f9g8_19 ← mul64 f9 g8_19; f9g9_38 ← mul64 f9_2 g9_19;
  h0 ← sum64 [f0g0; f1g9_38; f2g8_19; f3g7_38; f4g6_19; f5g5_38; f6g4_19; f7g3_38; f8g2_19; f9g1_38];
  h1 ← sum64 [f0g1; f1g0; f2g9_19; f3g8_19; f4g7_19; f5g6_19; f6g5_19; f7g4_19; f8g3_19; f9g2_19];
  h2 ← sum64 [f0g2; f1g1_2; f2g0; f3g9_38; f4g8_19; f5g7_38; f6g6_19; f7g5_38; f8g4_19; f9g3_38];
  h3 ← sum64 [f0g3; f1g2; f2g1; f3g0; f4g9_19; f5g8_19; f6g7_19; f7g6_19; f8g5_19; f9g4_19];
  h4 ← sum64 [f0g4; f1g3_2; f2g2; f3g1_2; f4g0; f5g9_38; f6g8_19; f7g7_38; f8g6_19; f9g5_38];
  h5 ← sum64 [f0g5; f1g4; f2g3; f3g2; f4g1; f5g0; f6g9_19; f7g8_19; f8g7_19; f9g6_19];
  h6 ← sum64 [f0g6; f1g5_2; f2g4; f3g3_2; f4g2; f5g1_2; f6g0; f7g9_38; f8g8_19; f9g7_38];
  h7 ← sum64 [f0g7; f1g6; f2g5; f3g4; f4g3; f5g2; f6g1; f7g0; f8g9_19; f9g8_19];
  h8 ← sum64 [f0g8; f1g7_2; f2g6; f3g5_2; f4g4; f5g3_2; f6g2; f7g1_2; f8g0; f9g9_38];
  h9 ← sum64 [f0g9; f1g8; f2g7; f3g6; f4g5; f5g4; f6g3; f7g2; f8g1; f9g0];
  Ok [h0; h1; h2; h3; h4; h5; h6; h7; h8; h9].

Definition fe_mul (f g : fe) : result fe :=
  h ← mul_products f g;
  h ← run fe_carry mul_carries h;
  Ok (store_limbs h).

(** The products of [fe_sq], written out again in [fe_sq2]. *)
Definition sq_products (f : fe) : result (list Z) :=
  let f0 := at_word f 0 in let f1 := at_word f 1 in let f2 := at_word f 2 in let f3 := at_word f 3 in
  let f4 := at_word f 4 in let f5 := at_word f 5 in let f6 := at_word f 6 in let f7 := at_word f 7 in
  let f8 := at_word f 8 in let f9 := at_word f 9 in
  f0_2 ← mul32 2 f0; f1_2 ← mul32 2 f1; f2_2 ← mul32 2 f2; f3_2 ← mul32 2 f3;
  f4_2 ← mul32 2 f4; f5_2 ← mul32 2 f5; f6_2 ← mul32 2 f6; f7_2 ← mul32 2 f7;
  f5_38 ← mul32 38 f5; f6_19 ← mul32 19 f6; f7_38 ← mul32 38 f7; f8_19 ← mul32 19 f8;
  f9_38 ← mul32 38 f9; f0f0 ← mul64 f0 f0; f0f1_2 ← mul64 f0_2 f1; f0f2_2 ← mul64 f0_2 f2;
  f0f3_2 ← mul64 f0_2 f3; f0f4_2 ← mul64 f0_2 f4; f0f5_2 ← mul64 f0_2 f5; f0f6_2 ← mul64 f0_2 f6;
  f0f7_2 ← mul64 f0_2 f7; f0f8_2 ← mul64 f0_2 f8; f0f9_2 ← mul64 f0_2 f9; f1f1_2 ← mul64 f1_2 f1;
  f1f2_2 ← mul64 f1_2 f2; f1f3_4 ← mul64 f1_2 f3_2; f1f4_2 ← mul64 f1_2 f4; f1f5_4 ← mul64 f1_2 f5_2;
  f1f6_2 ← mul64 f1_2 f6; f1f7_4 ← mul64 f1_2 f7_2; f1f8_2 ← mul64 f1_2 f8; f1f9_76 ← mul64 f1_2 f9_38;
  f2f2 ← mul64 f2 f2; f2f3_2 ← mul64 f2_2 f3; f2f4_2 ← mul64 f2_2 f4; f2f5_2 ← mul64 f2_2 f5;
  f2f6_2 ← mul64 f2_2 f6; f2f7_2 ← mul64 f2_2 f7; f2f8_38 ← mul64 f2_2 f8_19; f2f9_38 ← mul64 f2 f9_38;
  f3f3_2 ← mul64 f3_2 f3; f3f4_2 ← mul64 f3_2 f4; f3f5_4 ← mul64 f3_2 f5_2; f3f6_2 ← mul64 f3_2 f6;
  f3f7_76 ← mul64 f3_2 f7_38; f3f8_38 ← mul64 f3_2 f8_19; f3f9_76 ← mul64 f3_2 f9_38; f4f4 ← mul64 f4 f4;
  f4f5_2 ← mul64 f4_2 f5; f4f6_38 ← mul64 f4_2 f6_19; f4f7_38 ← mul64 f4 f7_38; f4f8_38 ← mul64 f4_2 f8_19;
  f4f9_38 ← mul64 f4 f9_38; f5f5_38 ← mul64 f5 f5_38; f5f6_38 ← mul64 f5_2 f6_19; f5f7_76 ← mul64 f5_2 f7_38;
  f5f8_38 ← mul64 f5_2 f8_19; f5f9_76 ← mul64 f5_2 f9_38; f6f6_19 ← mul64 f6 f6_19; f6f7_38 ← mul64 f6 f7_38;
  f6f8_38 ← mul64 f6_2 f8_19; f6f9_38 ← mul64 f6 f9_38; f7f7_38 ← mul64 f7 f7_38; f7f8_38 ← mul64 f7_2 f8_19;
  f7f9_76 ← mul64 f7_2 f9_38; f8f8_19 ← mul64 f8 f8_19; f8f9_38 ← mul64 f8 f9_38; f9f9_38 ← mul64 f9 f9_38;
  h0 ← sum64 [f0f0; f1f9_76; f2f8_38; f3f7_76; f4f6_38; f5f5_38];
  h1 ← sum64 [f0f1_2; f2f9_38; f3f8_38; f4f7_38; f5f6_38];
  h2 ← sum64 [f0f2_2; f1f1_2; f3f9_76; f4f8_38; f5f7_76; f6f6_19];
  h3 ← sum64 [f0f3_2; f1f2_2; f4f9_38; f5f8_38; f6f7_38];
  h4 ← sum64 [f0f4_2; f1f3_4; f2f2; f5f9_76; f6f8_38; f7f7_38];
  h5 ← sum64 [f0f5_2; f1f4_2; f2f3_2; f6f9_38; f7f8_38];
  h6 ← sum64 [f0f6_2; f1f5_4; f2f4_2; f3f3_2; f7f9_76; f8f8_19];
  h7 ← sum64 [f0f7_2; f1f6_2; f2f5_2; f3f4_2; f8f9_38];
  h8 ← sum64 [f0f8_2; f1f7_4; f2f6_2; f3f5_4; f4f4; f9f9_38];
  h9 ← sum64 [f0f9_2; f1f8_2; f2f7_2; f3f6_2; f4f5_2];
  Ok [h0; h1; h2; h3; h4; h5; h6; h7; h8; h9].

Definition fe_sq (f : fe) : result fe :=
  h ← sq_products f;
  h ← run fe_carry mul_carries h;
  Ok (store_limbs h).

Definition fe_sq2 (f : fe) : result fe :=
  h ← sq_products f;
  h ← run (λ i h, x ← add64 (at_word h i) (at_word h i); Ok (<[i := x]> h)) (seq 0 10) h;
  h ← run fe_carry mul_carries h;
  Ok (store_limbs h).

Definition fe_mul121666 (f : fe) : result fe :=
  h ← run (λ i h, x ← mul64 (at_word h i) 121666; Ok (<[i := x]> h)) (seq 0 10) f;
  h ← run fe_carry other_carries h;
  Ok (store_limbs h).

(** ** Bytes *)

Definition fe_frombytes (s : byte_array) : result fe :=
  let h0 := load_4 s in
  let h1 := u64 (Z.shiftl (load_3 (drop 4 s)) 6) in
  let h2 := u64 (Z.shiftl (load_3 (drop 7 s)) 5) in
  let h3 := u64 (Z.shiftl (load_3 (drop 10 s)) 3) in
  let h4 := u64 (Z.shiftl (load_3 (drop 13 s)) 2) in
  let h5 := load_4 (drop 16 s) in
  let h6 := u64 (Z.shiftl (load_3 (drop 20 s)) 7) in
  let h7 := u64 (Z.shiftl (load_3 (drop 23 s)) 5) in
  let h8 := u64 (Z.shiftl (load_3 (drop 26 s)) 4) in
  let h9 := u64 (Z.shiftl (Z.land (load_3 (drop 29 s)) 8388607) 2) in
  h ← run fe_carry other_carries (i64 <$> [h0; h1; h2; h3; h4; h5; h6; h7; h8; h9]);
  Ok (store_limbs h).

(** [q = (h_i + q) >> bits] *)
Definition quotient_step (h : fe) (i : nat) (q : Z) : result Z :=
  t ← add32 (at_word h i) q; Ok (Z.shiftr t (limb_bits i)).

(** [carry_i = h_i >> bits], added to the next limb. *)
Definition tobytes_carry (i : nat) (h : fe) : result fe := floor_carry int32 limb_bits i h.

(** The last carry is not added anywhere. *)
Definition tobytes_last (h : fe) : result fe :=
  let carry9 := Z.shiftr (at_word h 9) 25 in
  s ← int32 (carry9 * 2 ^ 25);
  x ← sub32 (at_word h 9) s;
  Ok (<[9%nat := x]> h).

(** [(unsigned char) ((x >> a) | (y << b))]: bits that the shift moves out of the
    [int32_t] are lost.  The C standard leaves that undefined, and it happens for
    [h4 << 6]: see [tobytes_shift_overflows]. *)
Definition joined (x a y b : Z) : Z := u8 (Z.lor (Z.shiftr x a) (i32 (y * 2 ^ b))).

Definition limb_bytes (h : fe) : byte_array :=
  let h0 := at_word h 0 in let h1 := at_word h 1 in let h2 := at_word h 2 in let h3 := at_word h 3 in
  let h4 := at_word h 4 in let h5 := at_word h 5 in let h6 := at_word h 6 in let h7 := at_word h 7 in
  let h8 := at_word h 8 in let h9 := at_word h 9 in
  let byte x n := u8 (Z.shiftr x n) in
  [byte h0 0; byte h0 8; byte h0 16; joined h0 24 h1 2; byte h1 6; byte h1 14; joined h1 22 h2 3; byte h2 5; byte h2 13;
      joined h2 21 h3 5; byte h3 3; byte h3 11; joined h3 19 h4 6; byte h4 2; byte h4 10; byte h4 18;
      byte h5 0; byte h5 8; byte h5 16; joined h5 24 h6 1; byte h6 7; byte h6 15; joined h6 23 h7 3; byte h7 5; byte h7 13;
      joined h7 21 h8 4; byte h8 4; byte h8 12; joined h8 20 h9 6; byte h9 2; byte h9 10; byte h9 18].

(** The quotient [q] of the number by the modulus. *)
Definition tobytes_q (h : fe) : result Z :=
  t ← mul32 19 (at_word h 9); t ← add32 t (2 ^ 24);
  run (quotient_step h) (seq 0 10) (Z.shiftr t 25).

(** The limbs after [h0 += 19 * q] and the carries. *)
Definition tobytes_limbs (h : fe) (q : Z) : result fe :=
  t ← mul32 19 q; x ← add32 (at_word h 0) t;
  h ← run tobytes_carry (seq 0 9) (<[0%nat := x]> h);
  tobytes_last h.

Definition fe_tobytes (h : fe) : result byte_array :=
  q ← tobytes_q h;
  h ← tobytes_limbs h q;
  Ok (limb_bytes h).

Definition fe_isnegative (f : fe) : result Z :=
  s ← fe_tobytes f; Ok (Z.land (at_word s 0) 1).

Definition fe_isnonzero (f : fe) : result Z :=
  s ← fe_tobytes f;
  let r := foldl (λ r i, Z.lor r (at_word s i)) (at_word s 0) (seq 1 31) in
  Ok (if r =? 0 then 0 else 1).

(** ** Powers *)

(** [for (i = 1; i < n; ++i) fe_sq(t, t)] *)
Definition sq_loop (n : nat) (t : fe) : result fe := run (λ _ t, fe_sq t) (seq 1 (n - 1)) t.

Definition fe_invert (z : fe) : result fe :=
  t0 ← fe_sq z; t0 ← sq_loop 1 t0;
  t1 ← fe_sq t0; t1 ← sq_loop 2 t1;
  t1 ← fe_mul z t1; t0 ← fe_mul t0 t1;
  t2 ← fe_sq t0; t2 ← sq_loop 1 t2;
  t1 ← fe_mul t1 t2;
  t2 ← fe_sq t1; t2 ← sq_loop 5 t2;
  t1 ← fe_mul t2 t1;
  t2 ← fe_sq t1; t2 ← sq_loop 10 t2;
  t2 ← fe_mul t2 t1;
  t3 ← fe_sq t2; t3 ← sq_loop 20 t3;
  t2 ← fe_mul t3 t2;
  t2 ← fe_sq t2; t2 ← sq_loop 10 t2;
  t1 ← fe_mul t2 t1;
  t2 ← fe_sq t1; t2 ← sq_loop 50 t2;
  t2 ← fe_mul t2 t1;
  t3 ← fe_sq t2; t3 ← sq_loop 100 t3;
  t2 ← fe_mul t3 t2;
  t2 ← fe_sq t2; t2 ← sq_loop 50 t2;
  t1 ← fe_mul t2 t1;
  t1 ← fe_sq t1; t1 ← sq_loop 5 t1;
  fe_mul t1 t0.

Definition fe_pow22523 (z : fe) : result fe :=
  t0 ← fe_sq z; t0 ← sq_loop 1 t0;
  t1 ← fe_sq t0; t1 ← sq_loop 2 t1;
  t1 ← fe_mul z t1; t0 ← fe_mul t0 t1;
  t0 ← fe_sq t0; t0 ← sq_loop 1 t0;
  t0 ← fe_mul t1 t0;
  t1 ← fe_sq t0; t1 ← sq_loop 5 t1;
  t0 ← fe_mul t1 t0;
  t1 ← fe_sq t0; t1 ← sq_loop 10 t1;
  t1 ← fe_mul t1 t0;
  t2 ← fe_sq t1; t2 ← sq_loop 20 t2;
  t1 ← fe_mul t2 t1;
  t1 ← fe_sq t1; t1 ← sq_loop 10 t1;
  t0 ← fe_mul t1 t0;
  t1 ← fe_sq t0; t1 ← sq_loop 50 t1;
  t1 ← fe_mul t1 t0;
  t2 ← fe_sq t1; t2 ← sq_loop 100 t2;
  t1 ← fe_mul t2 t1;
  t1 ← fe_sq t1; t1 ← sq_loop 50 t1;
  t0 ← fe_mul t1 t0;
  t0 ← fe_sq t0; t0 ← sq_loop 2 t0;
  fe_mul t0 z.

(** ** The number of an element and the bounds of its limbs *)

Definition fe_weights : list Z := [0; 26; 51; 77; 102; 128; 153; 179; 204; 230].

Definition fe_value (f : fe) : Z := weighted fe_weights f.

(** The limbs below [k] hundredths of 2^25 and 2^24 in turn. *)
Definition fe_bound (k : Z) : list Z :=
  (λ i, k * 2 ^ (limb_bits i - 1) / 100) <$> seq 0 10.

Definition bounded (k : Z) (f : fe) : Prop := within (fe_bound k) f.

(** Equal elements of the field. *)
Definition eqp (a b : Z) : Prop := ∃ q, a = b + q * P25519.

Declare Scope fe_scope.
Infix "≡p" := eqp (at level 70, no associativity) : fe_scope.
Open Scope fe_scope.

#[export] Instance eqp_equivalence : Equivalence eqp.
Proof.
  split.
  - intros a. exists 0. lia.
  - intros a b [q ->]. exists (- q). lia.
  - intros a b c [q ->] [r ->]. exists (q + r). lia.
Qed.

#[export] Instance add_eqp : Proper (eqp ==> eqp ==> eqp) Z.add.
Proof. intros a b [q ->] c d [r ->]. exists (q + r). lia. Qed.

#[export] Instance sub_eqp : Proper (eqp ==> eqp ==> eqp) Z.sub.
Proof. intros a b [q ->] c d [r ->]. exists (q - r). lia. Qed.

#[export] Instance mul_eqp : Proper (eqp ==> eqp ==> eqp) Z.mul.
Proof. intros a b [q ->] c d [r ->]. exists (q * d + b * r + q * r * P25519). ring. Qed.

#[export] Instance opp_eqp : Proper (eqp ==> eqp) Z.opp.
Proof. intros a b [q ->]. exists (- q). lia. Qed.

#[export] Instance pow_eqp : Proper (eqp ==> eq ==> eqp) Z.pow.
Proof.
  intros a b H n ? <-. destruct (decide (0 <= n)) as [Hn|Hn]; [|by rewrite !Z.pow_neg_r by lia].
  revert n Hn. apply natlike_ind; [done|]. intros n Hn IH. rewrite !Z.pow_succ_r by done. by apply mul_eqp.
Qed.

Lemma eqp_mod a b : a ≡p b ↔ a mod P25519 = b mod P25519.
Proof.
  split; [intros [q ->]; by apply Z.mod_add|]. intros H. exists (a / P25519 - b / P25519).
  pose proof (Z.div_mod a P25519 ltac:(done)). pose proof (Z.div_mod b P25519 ltac:(done)). lia.
Qed.

(** ** Carries *)

Definition fe_carry_bound (i : nat) (B : list Z) : option (list Z) :=
  carry_bound (2 ^ 63 - 1) (if (i =? 9)%nat then 19 else 1) i (if (i =? 9)%nat then 0 else i + 1)%nat
    (limb_bits i) (2 ^ (limb_bits i - 1)) B.

Lemma limb_bits_pos i : 0 < limb_bits i.
Proof. unfold limb_bits. by case_match. Qed.

Lemma fe_carry_ok i B B' h :
  (i < 10)%nat → length h = 10%nat → within B h → fe_carry_bound i B = Some B' →
  ∃ h', fe_carry i h = Ok h' ∧ within B' h' ∧ fe_value h' ≡p fe_value h.
Proof.
  intros Hi Hl HB HB'. unfold fe_carry, fe_carry_bound in *.
  destruct (carry_ok int64 (2 ^ 63 - 1) (if (i =? 9)%nat then 19 else 1) i (if (i =? 9)%nat then 0 else i + 1)%nat
    (limb_bits i) (2 ^ (limb_bits i - 1)) fe_weights B B' h) as (h' & -> & HB2 & _ & _ & E); try done.
  - destruct (Nat.eqb_spec i 9); lia.
  - intros; lia.
  - destruct (Nat.eqb_spec i 9); lia.
  - apply limb_bits_pos.
  - pose proof (limb_bits_pos i). split; [lia|]. apply Z.pow_lt_mono_r; lia.
  - by case_match.
  - exists h'. split; [done|]. split; [done|]. unfold fe_value. rewrite E.
    set (c := Z.shiftr _ _). clearbody c. clear -Hi.
    do 10 (destruct i as [|i]; [cbn; solve [exists (- c); unfold P25519; lia | exists 0; lia]|]). lia.
Qed.

Definition carries_bound (steps : list nat) (B : list Z) : option (list Z) := run_bound fe_carry_bound steps B.

Lemma carries_ok steps : ∀ B B' h,
  Forall (λ i, (i < 10)%nat) steps → length h = 10%nat → within B h → carries_bound steps B = Some B' →
  ∃ h', run fe_carry steps h = Ok h' ∧ within B' h' ∧ fe_value h' ≡p fe_value h.
Proof.
  induction steps as [|i steps IH]; intros B B' h Hs Hl HB HB'; unfold carries_bound in HB'; cbn in HB'.
  - injection HB' as <-. by exists h.
  - apply Forall_cons in Hs as [Hi Hs]. apply bind_Some in HB' as (B1 & E1 & E2).
    destruct (fe_carry_ok i B B1 h Hi Hl HB E1) as (h1 & Eh & HB1 & Ev).
    assert (Hl1 : length h1 = 10%nat).
    { rewrite <- (within_length B1 h1 HB1). apply carry_bound_length in E1. by rewrite E1, (within_length B h HB). }
    destruct (IH B1 B' h1 Hs Hl1 HB1 E2) as (h' & Er & HB2 & Ev2).
    exists h'. cbn [run]. rewrite Eh, bind_Ok. split; [done|]. split; [done|]. by rewrite Ev2.
Qed.

(** ** Products *)

Lemma step_mul64 {A} x y a b (k : Z → result A) (Q : A → Prop) :
  Z.abs x <= a → Z.abs y <= b → (a * b <=? 2 ^ 63 - 1) = true →
  (∀ z, z = x * y → Z.abs z <= a * b → returns (k z) Q) → returns (mul64 x y ≫= k) Q.
Proof.
  intros Hx Hy Hc%Z.leb_le H. rewrite (mul64_ok x y a b) by done. apply H; [done|by apply mul_bound].
Qed.

Lemma step_mul32 {A} x y b (k : Z → result A) (Q : A → Prop) :
  Z.abs y <= b → (Z.abs x * b <=? 2 ^ 31 - 1) = true →
  (∀ z, z = x * y → Z.abs z <= Z.abs x * b → returns (k z) Q) → returns (mul32 x y ≫= k) Q.
Proof.
  intros Hy Hc%Z.leb_le H. rewrite (mul32_ok x y (Z.abs x) b) by done. apply H; [done|by apply mul_bound].
Qed.

Lemma step_sum64 {A} xs Bs (k : Z → result A) (Q : A → Prop) :
  within Bs xs → (sum_list Bs <=? 2 ^ 63 - 1) = true →
  (∀ z, z = sum_list xs → Z.abs z <= sum_list Bs → returns (k z) Q) → returns (sum64 xs ≫= k) Q.
Proof.
  intros HB Hc%Z.leb_le H. destruct (sum64_ok xs Bs HB Hc) as [-> ?]. by apply H.
Qed.

(** The statements of a product one after the other, with the bounds of the
    context. *)
Ltac step_product :=
  match goal with
  | |- returns (mul64 _ _ ≫= _) _ => eapply step_mul64; [eassumption|eassumption|vm_compute; reflexivity|intros ? ? ?; cbv beta]
  | |- returns (mul32 _ _ ≫= _) _ => eapply step_mul32; [eassumption|vm_compute; reflexivity|intros ? ? ?; cbv beta]
  | |- returns (sum64 _ ≫= _) _ =>
      eapply step_sum64; [repeat (first [apply Forall2_nil_2 | eapply Forall2_cons_2; [eassumption|]])|vm_compute; reflexivity|intros ? ? ?; cbv beta]
  end.

Lemma ten_limbs B f : length B = 10%nat → within B f →
  ∃ f0 f1 f2 f3 f4 f5 f6 f7 f8 f9, f = [f0; f1; f2; f3; f4; f5; f6; f7; f8; f9].
Proof.
  intros HB Hf. apply within_length in Hf. rewrite HB in Hf.
  do 11 (destruct f as [|? f]; try done). by repeat eexists.
Qed.

(** The limbs of a product before the carries. *)
Definition product_bound : list Z :=
  [1526500696134443485; 944100830127147000; 1195452352106279851; 723401934772749000; 864404008078116217;
   502703039418351000; 533355664049952583; 282004144063953000; 202307320021788949; 61305248709555000].

Lemma bounded_length k f : bounded k f → length f = 10%nat.
Proof. intros H. by rewrite <- (within_length _ _ H). Qed.

(** Limb [k] of the product: the terms [f_i g_j] with [i + j = k], and those with
    [i + j = k + 10] times 19; a term of two odd limbs is twice as heavy. *)
Definition schoolbook_term (f g : fe) (k i : nat) : Z :=
  let j := ((k + 10 - i) mod 10)%nat in
  (if (k <? i)%nat then 19 else 1) * (if Nat.odd i && Nat.odd j then 2 else 1) * at_word f i * at_word g j.

Definition schoolbook (f g : fe) : list Z :=
  (λ k, sum_list (schoolbook_term f g k <$> seq 0 10)) <$> seq 0 10.

Lemma schoolbook_value f g :
  length f = 10%nat → length g = 10%nat → fe_value (schoolbook f g) ≡p fe_value f * fe_value g.
Proof.
  intros Hf Hg. do 11 (destruct f as [|? f]; try (cbn in Hf; lia)). do 11 (destruct g as [|? g]; try (cbn in Hg; lia)).
  rename z into f0, z0 into f1, z1 into f2, z2 into f3, z3 into f4, z4 into f5, z5 into f6, z6 into f7, z7 into f8, z8 into f9.
  rename z9 into g0, z10 into g1, z11 into g2, z12 into g3, z13 into g4, z14 into g5, z15 into g6, z16 into g7, z17 into g8, z18 into g9.
  exists (- (f1 * (2 ^ 1 * g9)
        + f2 * (2 ^ 0 * g8 + 2 ^ 26 * g9)
        + f3 * (2 ^ 1 * g7 + 2 ^ 26 * g8 + 2 ^ 52 * g9)
        + f4 * (2 ^ 0 * g6 + 2 ^ 26 * g7 + 2 ^ 51 * g8 + 2 ^ 77 * g9)
        + f5 * (2 ^ 1 * g5 + 2 ^ 26 * g6 + 2 ^ 52 * g7 + 2 ^ 77 * g8 + 2 ^ 103 * g9)
        + f6 * (2 ^ 0 * g4 + 2 ^ 26 * g5 + 2 ^ 51 * g6 + 2 ^ 77 * g7 + 2 ^ 102 * g8 + 2 ^ 128 * g9)
        + f7 * (2 ^ 1 * g3 + 2 ^ 26 * g4 + 2 ^ 52 * g5 + 2 ^ 77 * g6 + 2 ^ 103 * g7 + 2 ^ 128 * g8 + 2 ^ 154 * g9)
        + f8 * (2 ^ 0 * g2 + 2 ^ 26 * g3 + 2 ^ 51 * g4 + 2 ^ 77 * g5 + 2 ^ 102 * g6 + 2 ^ 128 * g7 + 2 ^ 153 * g8 + 2 ^ 179 * g9)
        + f9 * (2 ^ 1 * g1 + 2 ^ 26 * g2 + 2 ^ 52 * g3 + 2 ^ 77 * g4 + 2 ^ 103 * g5 + 2 ^ 128 * g6 + 2 ^ 154 * g7 + 2 ^ 179 * g8 + 2 ^ 205 * g9))).
  cbv -[Z.mul Z.add Z.pow Z.sub Z.opp]. ring.
Qed.

(** The statements of a product give the limbs of the schoolbook product. *)
Ltac solve_products :=
  repeat step_product; apply returns_Ok; split;
  [subst; cbv -[Z.mul Z.add]; repeat (apply (f_equal2 cons); [ring|]); reflexivity
  |unfold within, product_bound;
   repeat (first [apply Forall2_nil_2 | apply Forall2_cons_2; [etransitivity; [eassumption|by vm_compute]|]])].

Lemma mul_products_ok f g :
  bounded 330 f → bounded 330 g → returns (mul_products f g) (λ h, h = schoolbook f g ∧ within product_bound h).
Proof.
  intros Hf Hg.
  destruct (ten_limbs (fe_bound 330) f eq_refl Hf) as (f0&f1&f2&f3&f4&f5&f6&f7&f8&f9&->).
  destruct (ten_limbs (fe_bound 330) g eq_refl Hg) as (g0&g1&g2&g3&g4&g5&g6&g7&g8&g9&->).
  unfold bounded, within in Hf, Hg.
  let b := eval vm_compute in (fe_bound 330) in change (fe_bound 330) with b in Hf, Hg.
  rewrite !Forall2_cons in Hf, Hg. destruct Hf as (?&?&?&?&?&?&?&?&?&?&_), Hg as (?&?&?&?&?&?&?&?&?&?&_).
  unfold mul_products. cbv zeta. cbn [at_word nth]. solve_products.
Qed.

Lemma sq_products_ok f :
  bounded 330 f → returns (sq_products f) (λ h, h = schoolbook f f ∧ within product_bound h).
Proof.
  intros Hf.
  destruct (ten_limbs (fe_bound 330) f eq_refl Hf) as (f0&f1&f2&f3&f4&f5&f6&f7&f8&f9&->).
  unfold bounded, within in Hf.
  let b := eval vm_compute in (fe_bound 330) in change (fe_bound 330) with b in Hf.
  rewrite !Forall2_cons in Hf. destruct Hf as (?&?&?&?&?&?&?&?&?&?&_).
  unfold sq_products. cbv zeta. cbn [at_word nth]. solve_products.
Qed.

(** The carries and the stores at the end of a function: the result is within
    the bounds [k] and equal in the field. *)
Lemma store_limbs_ok B h : within B h → Forall (λ b, b <= 2 ^ 31 - 1) B → store_limbs h = h.
Proof.
  unfold store_limbs. induction 1 as [|b x B h Hx _ IH]; [done|]. intros [Hb HB]%Forall_cons.
  cbn. f_equal; [apply i32_id; split; lia|by apply IH].
Qed.

(** The bounds [B] become at most [k] after the carries [steps]. *)
Definition carries_within (steps : list nat) (B : list Z) (k : Z) : bool :=
  match carries_bound steps B with
  | Some B' => (length B =? 10)%nat && forallb (λ i, i <? 10)%nat steps && forallb (λ b, b <=? 2 ^ 31 - 1) B'
               && (length B' =? 10)%nat && forallb (λ i, at_word B' i <=? at_word (fe_bound k) i) (seq 0 10)
  | None => false
  end.

Lemma forallb_Forall {A} (p : A → bool) (P : A → Prop) l :
  (∀ a, p a = true → P a) → forallb p l = true → Forall P l.
Proof. intros H. rewrite forallb_forall, Forall_forall. intros Hl x Hx. by apply H, Hl, list_elem_of_In. Qed.

Lemma at_words_le B B' :
  length B = 10%nat → length B' = 10%nat → forallb (λ i, at_word B i <=? at_word B' i) (seq 0 10) = true → Forall2 Z.le B B'.
Proof.
  intros H H' Hle. apply Forall2_same_length_lookup_2; [by rewrite H|].
  intros i x y Hx Hy. rewrite forallb_forall in Hle.
  assert (Hi : (i < 10)%nat) by (rewrite <- H; by eapply lookup_lt_Some).
  specialize (Hle i ltac:(apply in_seq; lia)). apply Z.leb_le in Hle.
  unfold at_word in Hle. by rewrite !nth_lookup, Hx, Hy in Hle.
Qed.

Lemma carried_ok steps B k h :
  within B h → carries_within steps B k = true →
  returns (h ← run fe_carry steps h; Ok (store_limbs h)) (λ r, bounded k r ∧ fe_value r ≡p fe_value h).
Proof.
  intros HB HC. unfold carries_within in HC. destruct (carries_bound steps B) as [B'|] eqn:E; [|done].
  rewrite !andb_true_iff, !Nat.eqb_eq in HC. destruct HC as ((((L&Hs)&Hi)&L')&Hle).
  destruct (carries_ok steps B B' h) as (h' & -> & HB' & Ev); try done.
  { eapply forallb_Forall; [|done]. intros i. apply Nat.ltb_lt. }
  { by rewrite <- (within_length B h HB). }
  rewrite bind_Ok. apply returns_Ok. rewrite (store_limbs_ok B') by (done || (eapply forallb_Forall; [|done]; intros; by apply Z.leb_le)).
  split; [|done]. apply within_weaken with B'; [done|]. by apply at_words_le.
Qed.

Lemma fe_mul_ok f g :
  bounded 330 f → bounded 330 g → returns (fe_mul f g) (λ h, bounded 101 h ∧ fe_value h ≡p fe_value f * fe_value g).
Proof.
  intros Hf Hg. eapply returns_bind; [by apply mul_products_ok|]. intros h (-> & HB).
  eapply returns_mono; [apply (carried_ok _ product_bound 101); [exact HB|vm_compute; reflexivity]|]. intros r [Hr Er]. split; [done|]. rewrite Er. apply schoolbook_value; by eapply bounded_length.
Qed.

Lemma fe_sq_ok f : bounded 330 f → returns (fe_sq f) (λ h, bounded 101 h ∧ fe_value h ≡p fe_value f * fe_value f).
Proof.
  intros Hf. eapply returns_bind; [by apply sq_products_ok|]. intros h (-> & HB).
  eapply returns_mono; [apply (carried_ok _ product_bound 101); [exact HB|vm_compute; reflexivity]|]. intros r [Hr Er]. split; [done|]. rewrite Er. apply schoolbook_value; by eapply bounded_length.
Qed.

Lemma step_add64 {A} x y a b (k : Z → result A) (Q : A → Prop) :
  Z.abs x <= a → Z.abs y <= b → (a + b <=? 2 ^ 63 - 1) = true →
  (∀ z, z = x + y → Z.abs z <= a + b → returns (k z) Q) → returns (add64 x y ≫= k) Q.
Proof. intros Hx Hy Hc%Z.leb_le H. rewrite (add64_ok x y a b) by done. apply H; [done|lia]. Qed.

Ltac step_update :=
  match goal with
  | |- returns ((add64 _ _ ≫= _) ≫= _) _ => rewrite result_bind_assoc
  | |- returns ((mul64 _ _ ≫= _) ≫= _) _ => rewrite result_bind_assoc
  | |- returns (add64 _ _ ≫= _) _ => eapply step_add64; [eassumption|eassumption|vm_compute; reflexivity|intros ? ? ?; cbv beta]
  | |- returns (Ok _ ≫= _) _ => rewrite bind_Ok; cbn [at_word nth insert list_insert run seq]
  | |- _ => step_product
  end.

(** The doubling of [fe_sq2]. *)
Lemma doubled_ok h :
  length h = 10%nat → within product_bound h →
  returns (run (λ i h, x ← add64 (at_word h i) (at_word h i); Ok (<[i := x]> h)) (seq 0 10) h)
    (λ h', within ((λ b, b + b) <$> product_bound) h' ∧ fe_value h' = 2 * fe_value h).
Proof.
  intros Hl HB. destruct (ten_limbs product_bound h eq_refl HB) as (h0&h1&h2&h3&h4&h5&h6&h7&h8&h9&->).
  unfold within, product_bound in HB. rewrite !Forall2_cons in HB. destruct HB as (?&?&?&?&?&?&?&?&?&?&_).
  cbn [run seq at_word nth]. repeat step_update. apply returns_Ok. split.
  - unfold within, product_bound. cbn. repeat (first [apply Forall2_nil_2 | apply Forall2_cons_2; [assumption|]]).
  - subst. unfold fe_value. cbn [fe_weights weighted]. ring.
Qed.

(** The specialised squaring gives the limbs of the multiplication. *)
Lemma sq_products_mul f : bounded 330 f → sq_products f = mul_products f f.
Proof.
  intros Hf. destruct (sq_products_ok f Hf) as (h & -> & -> & _). by destruct (mul_products_ok f f Hf Hf) as (h & -> & -> & _).
Qed.

Lemma fe_sq2_ok f : bounded 330 f → returns (fe_sq2 f) (λ h, bounded 101 h ∧ fe_value h ≡p 2 * fe_value f * fe_value f).
Proof.
  intros Hf. eapply returns_bind; [by apply sq_products_ok|]. intros h (-> & HB).
  eapply returns_bind; [by apply doubled_ok|]. intros h' (HB' & Ev').
  eapply returns_mono; [apply (carried_ok _ ((λ b, b + b) <$> product_bound) 101); [exact HB'|vm_compute; reflexivity]|].
  intros r [Hr Er]. split; [done|]. rewrite Er, Ev', schoolbook_value by (by eapply bounded_length). by rewrite Z.mul_assoc.
Qed.

Lemma scaled_ok f :
  bounded 220 f →
  returns (run (λ i h, x ← mul64 (at_word h i) 121666; Ok (<[i := x]> h)) (seq 0 10) f)
    (λ h', within ((λ b, b * 121666) <$> fe_bound 220) h' ∧ fe_value h' = 121666 * fe_value f).
Proof.
  intros HB. destruct (ten_limbs (fe_bound 220) f eq_refl HB) as (h0&h1&h2&h3&h4&h5&h6&h7&h8&h9&->).
  unfold bounded, within in HB. let b := eval vm_compute in (fe_bound 220) in change (fe_bound 220) with b in *.
  rewrite !Forall2_cons in HB. destruct HB as (?&?&?&?&?&?&?&?&?&?&_).
  assert (Z.abs 121666 <= 121666) by done.
  cbn [run seq at_word nth]. repeat step_update. apply returns_Ok. split.
  - unfold within. repeat (first [apply Forall2_nil_2 | apply Forall2_cons_2; [assumption|]]).
  - subst. unfold fe_value. cbn [fe_weights weighted]. ring.
Qed.

Lemma fe_mul121666_ok f : bounded 220 f → returns (fe_mul121666 f) (λ h, bounded 101 h ∧ fe_value h ≡p 121666 * fe_value f).
Proof.
  intros Hf. eapply returns_bind; [by apply scaled_ok|]. intros h (HB & Ev).
  eapply returns_mono; [apply (carried_ok _ ((λ b, b * 121666) <$> fe_bound 220) 101); [exact HB|vm_compute; reflexivity]|].
  intros r [Hr Er]. split; [done|]. by rewrite Er, Ev.
Qed.

(** ** Sums *)

Lemma hundredths_add a b w x y :
  Z.abs x <= a * w / 100 → Z.abs y <= b * w / 100 → Z.abs x + Z.abs y <= (a + b) * w / 100.
Proof.
  intros Hx Hy. apply Z.div_le_lower_bound; [lia|].
  pose proof (Z.mul_div_le (a * w) 100 ltac:(lia)). pose proof (Z.mul_div_le (b * w) 100 ltac:(lia)). lia.
Qed.

Lemma hundredths_small k w : k <= 6000 → 0 <= w <= 2 ^ 25 → k * w / 100 <= 2 ^ 31 - 1.
Proof. intros Hk Hw. apply Z.div_le_upper_bound; [lia|]. nia. Qed.

Lemma fe_bound_lookup k i : (i < 10)%nat → fe_bound k !! i = Some (k * 2 ^ (limb_bits i - 1) / 100).
Proof. intros Hi. unfold fe_bound. rewrite list_lookup_fmap, lookup_seq_lt by done. done. Qed.

Lemma limb_unit i : 0 <= 2 ^ (limb_bits i - 1) <= 2 ^ 25.
Proof. unfold limb_bits. by case_match. Qed.

Lemma limbwise_ok (op : Z → Z → result Z) (φ : Z → Z → Z) c ws : ∀ B f g,
  length ws = length B →
  (∀ x y, Z.abs x + Z.abs y <= 2 ^ 31 - 1 → op x y = Ok (φ x y)) →
  (∀ x y, Z.abs (φ x y) <= Z.abs x + Z.abs y) →
  (∀ x y, φ x y = x + c * y) →
  Forall (λ b, b <= 2 ^ 31 - 1) B → length f = length B → length g = length B →
  (∀ i b, B !! i = Some b → Z.abs (at_word f i) + Z.abs (at_word g i) <= b) →
  returns (limbwise op f g) (λ h, within B h ∧ weighted ws h = weighted ws f + c * weighted ws g).
Proof.
  intros B. revert ws. induction B as [|b B IH]; intros ws f g Hw Hop Hφ Hc HB Hf Hg Hi.
  - apply nil_length_inv in Hf as ->. apply nil_length_inv in Hg as ->. apply nil_length_inv in Hw as ->.
    apply returns_Ok. split; [constructor|]. cbn. lia.
  - destruct f as [|x f], g as [|y g], ws as [|w ws]; try done. cbn [limbwise].
    apply Forall_cons in HB as [Hb HB]. pose proof (Hi 0%nat b eq_refl) as H0. cbn in H0.
    rewrite Hop, bind_Ok by lia.
    eapply returns_bind; [apply (IH ws f g); cbn in *; try lia; try done|].
    { intros i b' Hb'. apply (Hi (S i) b' Hb'). }
    intros h [Hh E]. apply returns_Ok. split.
    + constructor; [|done]. pose proof (Hφ x y). lia.
    + cbn [weighted]. rewrite E, Hc. ring.
Qed.

Lemma bounded_at k f i : bounded k f → (i < 10)%nat → Z.abs (at_word f i) <= k * 2 ^ (limb_bits i - 1) / 100.
Proof.
  intros H Hi. pose proof (within_at _ _ i H) as B. unfold at_word at 2 in B.
  rewrite nth_lookup, fe_bound_lookup in B by done. done.
Qed.

Lemma fe_bound_small k : k <= 6000 → Forall (λ b, b <= 2 ^ 31 - 1) (fe_bound k).
Proof. intros Hk. apply Forall_fmap, Forall_true. intros i. apply hundredths_small; [done|]. apply limb_unit. Qed.

Lemma sum_bounded a b f g i x :
  bounded a f → bounded b g → fe_bound (a + b) !! i = Some x → Z.abs (at_word f i) + Z.abs (at_word g i) <= x.
Proof.
  intros Hf Hg Hx. assert (Hi : (i < 10)%nat) by (by apply lookup_lt_Some in Hx).
  rewrite fe_bound_lookup in Hx by done. injection Hx as <-.
  apply hundredths_add; by apply bounded_at.
Qed.

Lemma fe_add_ok a b f g :
  bounded a f → bounded b g → a + b <= 6000 →
  returns (fe_add f g) (λ h, bounded (a + b) h ∧ fe_value h = fe_value f + fe_value g).
Proof.
  intros Hf Hg Hk. eapply returns_mono; [apply (limbwise_ok add32 Z.add 1 fe_weights (fe_bound (a + b)))|]; try done.
  - intros x y H. apply int32_ok. lia.
  - intros; lia.
  - intros; lia.
  - by apply fe_bound_small.
  - by rewrite (bounded_length a).
  - by rewrite (bounded_length b).
  - intros i x. by apply sum_bounded.
  - intros h [Hh E]. split; [done|]. unfold fe_value. rewrite E. lia.
Qed.

Lemma fe_sub_ok a b f g :
  bounded a f → bounded b g → a + b <= 6000 →
  returns (fe_sub f g) (λ h, bounded (a + b) h ∧ fe_value h = fe_value f - fe_value g).
Proof.
  intros Hf Hg Hk. eapply returns_mono; [apply (limbwise_ok sub32 Z.sub (-1) fe_weights (fe_bound (a + b)))|]; try done.
  - intros x y H. apply int32_ok. lia.
  - intros; lia.
  - by apply fe_bound_small.
  - by rewrite (bounded_length a).
  - by rewrite (bounded_length b).
  - intros i x. by apply sum_bounded.
Qed.

Lemma fe_neg_ok a f :
  bounded a f → a <= 6000 → returns (fe_neg f) (λ h, bounded a h ∧ fe_value h = - fe_value f).
Proof.
  intros Hf Hk.
  assert (E : limbwise (λ x _, int32 (- x)) f f = limbwise sub32 fe_0 f).
  { change fe_0 with (replicate 10 0). apply bounded_length in Hf. rewrite <- Hf. clear.
    induction f as [|x f IH]; [done|]. cbn [limbwise replicate length]. by rewrite IH. }
  unfold fe_neg. rewrite E. eapply returns_mono; [apply (fe_sub_ok 0 a)|]; try done.
  - unfold bounded, within. by repeat constructor.
Qed.

Lemma bounded_mono a b f : bounded a f → a <= b → bounded b f.
Proof.
  intros H Hab. eapply within_weaken; [exact H|]. apply Forall2_fmap, Forall_Forall2_diag, Forall_true.
  intros i. apply Z.div_le_mono; [lia|]. pose proof (limb_unit i). nia.
Qed.

(** ** Powers *)

(** [t] is the power [e] of [z]. *)
Definition is_pow (z e : Z) (t : fe) : Prop := bounded 101 t ∧ 0 <= e ∧ fe_value t ≡p z ^ e.

Lemma pow_mul z e e' t t' : is_pow z e t → is_pow z e' t' → returns (fe_mul t t') (is_pow z (e + e')).
Proof.
  intros (Hb & He & E) (Hb' & He' & E').
  eapply returns_mono; [apply fe_mul_ok; apply bounded_mono with 101; [done|lia|done|lia]|].
  intros r [Hr Er]. split; [done|]. split; [lia|]. rewrite Er, E, E'. by rewrite Z.pow_add_r by lia.
Qed.

Lemma pow_mul_l z k t t' e :
  bounded k z → k <= 330 → is_pow (fe_value z) e t → t' = z →
  returns (fe_mul t' t) (is_pow (fe_value z) (1 + e)) ∧ returns (fe_mul t t') (is_pow (fe_value z) (e + 1)).
Proof.
  intros Hz Hk (Hb & He & E) ->. assert (bounded 330 z) by (by eapply bounded_mono).
  assert (bounded 330 t) by (eapply bounded_mono; [done|lia]).
  split; (eapply returns_mono; [by apply fe_mul_ok|]; intros r [Hr Er]; split; [done|]; split; [lia|]);
    rewrite Er, E, Z.pow_add_r by lia; by rewrite Z.pow_1_r.
Qed.

Lemma pow_sq z e t : is_pow z e t → returns (fe_sq t) (is_pow z (2 * e)).
Proof.
  intros (Hb & He & E). eapply returns_mono; [apply fe_sq_ok; apply bounded_mono with 101; [done|lia]|].
  intros r [Hr Er]. split; [done|]. split; [lia|]. rewrite Er, E, <- Z.pow_add_r by lia. by replace (e + e) with (2 * e) by lia.
Qed.

Lemma pow_first z : bounded 330 z → returns (fe_sq z) (is_pow (fe_value z) 2).
Proof.
  intros Hz. eapply returns_mono; [by apply fe_sq_ok|]. intros r [Hr Er]. split; [done|]. split; [lia|].
  rewrite Er. by rewrite Z.pow_2_r.
Qed.

Lemma pow_loop z n e t : is_pow z e t → returns (sq_loop n t) (is_pow z (2 ^ Z.of_nat (n - 1) * e)).
Proof.
  unfold sq_loop. set (k := (n - 1)%nat). clearbody k. generalize 1%nat as s. revert e t.
  induction k as [|k IH]; intros e t s Ht; cbn [seq run].
  - apply returns_Ok. by rewrite Z.mul_1_l.
  - eapply returns_bind; [by apply pow_sq|]. intros t' Ht'. eapply returns_mono; [by apply IH|].
    intros r. replace (2 ^ Z.of_nat (S k) * e) with (2 ^ Z.of_nat k * (2 * e)); [done|].
    rewrite Nat2Z.inj_succ, Z.pow_succ_r by lia. lia.
Qed.

Ltac step_pow :=
  lazymatch goal with
  | Hz : bounded _ ?z |- returns (fe_sq ?z ≫= _) _ => eapply returns_bind; [by apply pow_first|intros ? ?; cbv beta]
  | |- returns (fe_sq _ ≫= _) _ => eapply returns_bind; [eapply pow_sq; eassumption|intros ? ?; cbv beta]
  | |- returns (sq_loop _ _ ≫= _) _ => eapply returns_bind; [eapply pow_loop; eassumption|intros ? ?; cbv beta]
  | Hz : bounded _ ?z |- returns (fe_mul ?z _ ≫= _) _ =>
      eapply returns_bind; [eapply (proj1 (pow_mul_l z _ _ _ _ Hz ltac:(lia) ltac:(eassumption) eq_refl))|intros ? ?; cbv beta]
  | |- returns (fe_mul _ _ ≫= _) _ => eapply returns_bind; [eapply pow_mul; eassumption|intros ? ?; cbv beta]
  end.

Lemma fe_invert_ok z : bounded 330 z → returns (fe_invert z) (is_pow (fe_value z) (P25519 - 2)).
Proof.
  intros Hz. unfold fe_invert. repeat step_pow. eapply returns_mono; [eapply pow_mul; eassumption|].
  intros r Hr. cbv beta in Hr. match type of Hr with is_pow _ ?e _ => replace (P25519 - 2) with e by by vm_compute end. done.
Qed.

Lemma fe_pow22523_ok z : bounded 330 z → returns (fe_pow22523 z) (is_pow (fe_value z) (2 ^ 252 - 3)).
Proof.
  intros Hz. unfold fe_pow22523. repeat step_pow.
  eapply returns_mono; [eapply (proj2 (pow_mul_l z _ _ _ _ Hz ltac:(lia) ltac:(eassumption) eq_refl))|].
  intros r Hr. cbv beta in Hr. match type of Hr with is_pow _ ?e _ => replace (2 ^ 252 - 3) with e by by vm_compute end. done.
Qed.

(** ** Properties *)

(** C25: The arithmetic of [fe.c] is that of the field.  For limbs within the
    bounds of the comments, no 32-bit or 64-bit operation overflows, the result
    is within the bounds stated for it, and its number is the sum, difference,
    opposite, product, square, doubled square or multiple by 121666 modulo
    2^255 - 19. *)
Theorem fe_arithmetic_correct f g :
  (bounded 110 f → bounded 110 g →
    returns (fe_add f g) (λ h, bounded 220 h ∧ fe_value h ≡p fe_value f + fe_value g) ∧
    returns (fe_sub f g) (λ h, bounded 220 h ∧ fe_value h ≡p fe_value f - fe_value g) ∧
    returns (fe_neg f) (λ h, bounded 110 h ∧ fe_value h ≡p - fe_value f)) ∧
  (bounded 330 f → bounded 330 g →
    returns (fe_mul f g) (λ h, bounded 101 h ∧ fe_value h ≡p fe_value f * fe_value g) ∧
    returns (fe_sq f) (λ h, bounded 101 h ∧ fe_value h ≡p fe_value f * fe_value f) ∧
    returns (fe_sq2 f) (λ h, bounded 101 h ∧ fe_value h ≡p 2 * fe_value f * fe_value f)) ∧
  (bounded 220 f → returns (fe_mul121666 f) (λ h, bounded 101 h ∧ fe_value h ≡p 121666 * fe_value f)).
Proof.
  split; [|split].
  - intros Hf Hg. split; [|split].
    + eapply returns_mono; [by apply (fe_add_ok 110 110)|]. by intros h [? ->].
    + eapply returns_mono; [by apply (fe_sub_ok 110 110)|]. by intros h [? ->].
    + eapply returns_mono; [by apply (fe_neg_ok 110)|]. by intros h [? ->].
  - intros Hf Hg. split; [by apply fe_mul_ok|]. split; [by apply fe_sq_ok|by apply fe_sq2_ok].
  - apply fe_mul121666_ok.
Qed.

(** The base point's coordinates are within all the bounds of the property. *)
Lemma fe_arithmetic_correct_witness :
  let f := [25967493; -14356035; 29566456; 3660896; -12694345; 4014787; 27544626; -11754271; -6079156; 2047605] in
  let g := [-12545711; 934262; -2722910; 3049990; -727428; 9406986; 12720692; 5043384; 19500929; -15469378] in
  (∃ h, fe_mul f g = Ok h) ∧ (∃ h, fe_add f g = Ok h).
Proof.
  intros f g.
  assert (Hf : bounded 110 f) by (unfold bounded, within, fe_bound; repeat constructor; by vm_compute).
  assert (Hg : bounded 110 g) by (unfold bounded, within, fe_bound; repeat constructor; by vm_compute).
  split.
  - destruct (proj1 (proj2 (fe_arithmetic_correct f g))) as [(h & E & _) _].
    + unfold bounded, within, fe_bound; repeat constructor; by vm_compute.
    + unfold bounded, within, fe_bound; repeat constructor; by vm_compute.
    + by exists h.
  - destruct (proj1 (fe_arithmetic_correct f g) Hf Hg) as [(h & E & _) _]. by exists h.
Defined.

(** C38: The squaring, which has 55 products of its own instead of the 100 of the
    multiplication, and the multiplication of the element by itself both return,
    with the same limbs, for every element within the bounds of the comments.
    Beyond them the two differ, see [fe_sq_overflows_first]. *)
Theorem fe_sq_is_mul f : bounded 330 f → ∃ h, fe_sq f = Ok h ∧ fe_mul f f = Ok h.
Proof.
  intros Hf. destruct (fe_sq_ok f Hf) as (h & E & _). exists h. split; [done|].
  rewrite <- E. unfold fe_sq, fe_mul. by rewrite sq_products_mul.
Qed.

Lemma fe_sq_is_mul_witness :
  let f := [25967493; -14356035; 29566456; 3660896; -12694345; 4014787; 27544626; -11754271; -6079156; 2047605] in
  bounded 330 f ∧ ∃ h, fe_sq f = Ok h ∧ fe_mul f f = Ok h.
Proof.
  intros f. assert (Hf : bounded 330 f) by (unfold bounded, within, fe_bound; repeat constructor; by vm_compute).
  split; [exact Hf|]. apply (fe_sq_is_mul f Hf).
Defined.

(** Beyond the bound of the comments the squaring overflows first: it multiplies
    limb 5 by 38 in 32 bits, the multiplication by 19. *)
Example fe_sq_overflows_first :
  let f := [0; 0; 0; 0; 0; 60000000; 0; 0; 0; 0] in
  fe_sq f = Throw undefined_behaviour ∧ ∃ h, fe_mul f f = Ok h.
Proof. split; [by vm_compute|]. eexists. by vm_compute. Qed.
