(* ===== verification/FeBytes.v ===== *)
(** * FeBytes: field elements and their 32 bytes

    What [fe_frombytes] and [fe_tobytes] of [ed25519/src/fe.c] ([Fe25519])
    compute: the unpacking reads the number of the low 255 bits, and the packing
    writes the one representative below the modulus, so that two elements are
    equal exactly when their bytes are. *)

From S2P Require Import Prelude Blake2 Limbs Fe25519.

(** ** Unpacking *)

Lemma load_3_value a b c r : is_u8 a → is_u8 b → is_u8 c → load_3 (a :: b :: c :: r) = a + 2 ^ 8 * b + 2 ^ 16 * c.
Proof.
  unfold is_u8, is_unsigned. intros Ha Hb Hc. unfold load_3. cbn [at_word nth].
  rewrite !shiftl_mul by lia. rewrite !u64_id by (unfold is_u64, is_unsigned; lia).
  rewrite (lor_add' 8), (lor_add' 16) by lia. lia.
Qed.

Lemma load_4_value a b c d r :
  is_u8 a → is_u8 b → is_u8 c → is_u8 d → load_4 (a :: b :: c :: d :: r) = a + 2 ^ 8 * b + 2 ^ 16 * c + 2 ^ 24 * d.
Proof.
  unfold is_u8, is_unsigned. intros Ha Hb Hc Hd. unfold load_4. cbn [at_word nth].
  rewrite !shiftl_mul by lia. rewrite !u64_id by (unfold is_u64, is_unsigned; lia).
  rewrite (lor_add' 8), (lor_add' 16), (lor_add' 24) by lia. lia.
Qed.

Lemma thirty_two_bytes s : length s = 32%nat → bytes_ok s →
  ∃ b0 b1 b2 b3 b4 b5 b6 b7 b8 b9 b10 b11 b12 b13 b14 b15 b16 b17 b18 b19 b20 b21 b22 b23 b24 b25 b26 b27 b28 b29 b30 b31,
    s = [b0; b1; b2; b3; b4; b5; b6; b7; b8; b9; b10; b11; b12; b13; b14; b15;
         b16; b17; b18; b19; b20; b21; b22; b23; b24; b25; b26; b27; b28; b29; b30; b31] ∧
    is_u8 b0 ∧ is_u8 b1 ∧ is_u8 b2 ∧ is_u8 b3 ∧ is_u8 b4 ∧ is_u8 b5 ∧ is_u8 b6 ∧ is_u8 b7 ∧
    is_u8 b8 ∧ is_u8 b9 ∧ is_u8 b10 ∧ is_u8 b11 ∧ is_u8 b12 ∧ is_u8 b13 ∧ is_u8 b14 ∧ is_u8 b15 ∧
    is_u8 b16 ∧ is_u8 b17 ∧ is_u8 b18 ∧ is_u8 b19 ∧ is_u8 b20 ∧ is_u8 b21 ∧ is_u8 b22 ∧ is_u8 b23 ∧
    is_u8 b24 ∧ is_u8 b25 ∧ is_u8 b26 ∧ is_u8 b27 ∧ is_u8 b28 ∧ is_u8 b29 ∧ is_u8 b30 ∧ is_u8 b31.
Proof.
  intros Hl Hok. do 33 (destruct s as [|? s]; try done). unfold bytes_ok in Hok. rewrite !Forall_cons in Hok.
  repeat eexists; apply Hok.
Qed.

(** The limbs of the unpacking before the carries. *)
Definition unpack_bound : list Z :=
  [2 ^ 32; 2 ^ 30; 2 ^ 29; 2 ^ 27; 2 ^ 26; 2 ^ 32; 2 ^ 31; 2 ^ 29; 2 ^ 28; 2 ^ 25].

Lemma fe_frombytes_ok s :
  length s = 32%nat → bytes_ok s →
  returns (fe_frombytes s) (λ h, bounded 101 h ∧ fe_value h ≡p le_value s mod 2 ^ 255).
Proof.
  intros Hl Hok. destruct (thirty_two_bytes s Hl Hok) as
    (b0&b1&b2&b3&b4&b5&b6&b7&b8&b9&b10&b11&b12&b13&b14&b15&b16&b17&b18&b19&b20&b21&b22&b23&b24&b25&b26&b27&b28&b29&b30&b31&->&
     ?&?&?&?&?&?&?&?&?&?&?&?&?&?&?&?&?&?&?&?&?&?&?&?&?&?&?&?&?&?&?&?). clear Hl Hok.
  unfold fe_frombytes. cbv zeta. cbn [drop]. rewrite !load_3_value, !load_4_value by done.
  change 8388607 with (Z.ones 23). rewrite land_low, !shiftl_mul by lia.
  set (t := b29 + _ + _). pose proof (Z.div_mod t (2 ^ 23) ltac:(lia)) as Dt. pose proof (Z.mod_pos_bound t (2 ^ 23) ltac:(lia)) as Mt.
  unfold is_u8, is_unsigned in *.
  rewrite !u64_id by (unfold is_u64, is_unsigned; lia).
  set (h := [_; _; _; _; _; _; _; _; _; _]).
  assert (Eh : i64 <$> h = h).
  { unfold h. cbn [fmap list_fmap]. rewrite !i64_id by (unfold is_i64, is_signed; lia). done. }
  rewrite Eh. eapply returns_mono; [apply (carried_ok _ unpack_bound 101); [|vm_compute; reflexivity]|].
  - unfold within, unpack_bound, h. repeat (first [apply Forall2_nil_2 | apply Forall2_cons_2; [lia|]]).
  - intros r [Hr Er]. split; [done|]. rewrite Er.
    assert (fe_value h = le_value [b0; b1; b2; b3; b4; b5; b6; b7; b8; b9; b10; b11; b12; b13; b14; b15;
      b16; b17; b18; b19; b20; b21; b22; b23; b24; b25; b26; b27; b28; b29; b30; b31] mod 2 ^ 255) as ->; [|done].
    apply (Z.mod_unique_pos _ _ (t / 2 ^ 23)); unfold fe_value, h; cbn [fe_weights weighted le_value];
      set (m := t mod 2 ^ 23) in *; set (u := t / 2 ^ 23) in *; unfold t in Dt; lia.
Qed.

(** ** Packing *)

Lemma quotient_step_ok h i q :
  bounded 220 h → (i < 10)%nat → Z.abs q <= 64 →
  returns (quotient_step h i q) (λ q', q' = (at_word h i + q) / 2 ^ limb_bits i ∧ Z.abs q' <= 64).
Proof.
  intros Hh Hi Hq. pose proof (bounded_at 220 h i Hh Hi) as Hb. unfold quotient_step.
  assert (Hb' : Z.abs (at_word h i) <= 2 ^ limb_bits i + 2 ^ limb_bits i).
  { unfold limb_bits in *. destruct (Nat.even i).
    - etransitivity; [exact Hb|]. by vm_compute.
    - etransitivity; [exact Hb|]. by vm_compute. }
  assert (Hw : 2 ^ 25 <= 2 ^ limb_bits i <= 2 ^ 26) by (unfold limb_bits; by case_match).
  unfold add32. rewrite int32_ok by lia. rewrite bind_Ok. apply returns_Ok.
  rewrite shiftr_div by (unfold limb_bits; by case_match). split; [done|].
  set (W := 2 ^ limb_bits i) in *. set (x := at_word h i + q) in *.
  assert (-3 * W <= x < 3 * W) by lia.
  assert (-3 <= x / W < 3); [|lia]. split; [apply Z.div_le_lower_bound; lia | apply Z.div_lt_upper_bound; lia].
Qed.

Lemma weighted_multiple k ws l : 0 <= k → Forall (λ w, k <= w) ws → ∃ t, weighted ws l = 2 ^ k * t.
Proof.
  intros Hk. revert l. induction ws as [|w ws IH]; intros [|x l] H; cbn; try (exists 0; lia).
  apply Forall_cons in H as [Hw H]. destruct (IH l H) as [t ->]. exists (2 ^ (w - k) * x + t).
  replace w with (k + (w - k)) at 1 by lia. rewrite Z.pow_add_r by lia. ring.
Qed.

(** A carry by a floor division inside a larger one. *)
Lemma div_carry w b c t x : 0 <= w → 0 <= b → 0 <= c →
  (2 ^ (w + b) * t + 2 ^ (w + b) * (x / 2 ^ b)) / 2 ^ (w + b + c) = (2 ^ (w + b) * t + 2 ^ w * x) / 2 ^ (w + b + c).
Proof.
  intros Hw Hb Hc. rewrite !(Z.pow_add_r 2 (w + b) c) by lia. rewrite <- !Z.div_div by lia. f_equal.
  rewrite <- Z.mul_add_distr_l, Z.mul_comm, Z.div_mul by lia.
  rewrite Z.mul_comm, Z.div_add_l by lia. f_equal. rewrite Z.pow_add_r by lia.
  symmetry. apply Z.div_mul_cancel_l; lia.
Qed.

(** The quotient of the limbs from [i] on, with a carry [q] into limb [i]. *)
Lemma quotient_run h : bounded 220 h → ∀ n i q, (i + n = 10)%nat → Z.abs q <= 64 →
  returns (run (quotient_step h) (seq i n) q)
    (λ q', Z.abs q' <= 64 ∧ q' = (weighted (drop i fe_weights) (drop i h) + 2 ^ at_word (fe_weights ++ [255]) i * q) / 2 ^ 255).
Proof.
  intros Hh n. induction n as [|n IH]; intros i q Hi Hq.
  - assert (i = 10%nat) as -> by lia. apply returns_Ok. split; [done|]. cbn [fe_weights drop weighted app at_word nth].
    rewrite Z.add_0_l, Z.mul_comm, Z.div_mul by lia. done.
  - cbn [seq run]. eapply returns_bind; [apply (quotient_step_ok h i q); [done|lia|done]|].
    intros q' [-> Hq']. eapply returns_mono; [apply (IH (S i)); [lia|done]|].
    intros r [Hr Er]. split; [done|]. rewrite Er. clear Er IH.
    assert (Lh : length h = 10%nat) by (by eapply bounded_length).
    destruct (lookup_lt_is_Some_2 h i ltac:(lia)) as [x Hx].
    destruct (lookup_lt_is_Some_2 fe_weights i ltac:(cbn; lia)) as [w Hw].
    rewrite (drop_S h x i Hx), (drop_S fe_weights w i Hw). cbn [weighted].
    assert (at_word h i = x) as -> by (unfold at_word; by rewrite nth_lookup, Hx).
    assert (Ew : at_word (fe_weights ++ [255]) i = w ∧ at_word (fe_weights ++ [255]) (S i) = w + limb_bits i ∧ 0 <= w /\ w + limb_bits i <= 255).
    { assert (i < 10)%nat as Hi' by lia. clear -Hw Hi'. do 10 (destruct i as [|i]; [by injection Hw as <-|]). lia. }
    destruct Ew as (-> & -> & Hw0 & Hw1).
    destruct (weighted_multiple (w + limb_bits i) (drop (S i) fe_weights) (drop (S i) h)) as [t ->].
    { pose proof (limb_bits_pos i). lia. }
    { assert (i < 10)%nat as Hi' by lia. clear -Hw Hi'.
      do 10 (destruct i as [|i]; [injection Hw as <-; by repeat constructor|]). lia. }
    replace 255 with (w + limb_bits i + (255 - w - limb_bits i)) by lia.
    pose proof (limb_bits_pos i). rewrite div_carry by lia. f_equal. ring.
Qed.

Lemma tobytes_quotient h H :
  bounded 220 h → H = fe_value h →
  returns (tobytes_q h) (λ q, q = H / P25519 ∧ Z.abs q <= 64).
Proof.
  intros Hh ->. pose proof (bounded_at 220 h 9 Hh ltac:(lia)) as H9. unfold tobytes_q.
  change (220 * 2 ^ (limb_bits 9 - 1) / 100) with 36909875 in H9.
  unfold mul32, add32. rewrite int32_ok, bind_Ok by lia. rewrite int32_ok, bind_Ok by lia.
  rewrite shiftr_div by lia. set (h9 := at_word h 9) in *.
  pose proof (Z.div_mod (19 * h9 + 2 ^ 24) (2 ^ 25) ltac:(lia)) as D.
  pose proof (Z.mod_pos_bound (19 * h9 + 2 ^ 24) (2 ^ 25) ltac:(lia)) as M.
  set (q0 := (19 * h9 + 2 ^ 24) / 2 ^ 25) in *. set (m0 := (19 * h9 + 2 ^ 24) mod 2 ^ 25) in *.
  eapply returns_mono; [apply (quotient_run h Hh 10 0); [done|lia]|].
  intros q [Hq ->]. split; [|done]. cbn [drop at_word nth fe_weights app]. fold (fe_value h).
  destruct (ten_limbs (fe_bound 220) h eq_refl Hh) as (f0&f1&f2&f3&f4&f5&f6&f7&f8&f9&E).
  set (H := fe_value h).
  assert (HL : Z.abs (H - 2 ^ 230 * h9) <= 2 ^ 232).
  { unfold H, h9. rewrite E in Hh |- *. unfold bounded, within in Hh.
    let b := eval vm_compute in (fe_bound 220) in change (fe_bound 220) with b in Hh.
    rewrite !Forall2_cons, !Z.abs_le in Hh. apply Z.abs_le. unfold fe_value. cbn [weighted fe_weights at_word nth]. lia. }
  change (weighted _ (drop 0 h)) with H.
  pose proof (Z.div_mod H P25519 ltac:(done)) as DH. pose proof (Z.mod_pos_bound H P25519 ltac:(done)) as MH.
  set (q := H / P25519) in *. set (r := H mod P25519) in *.
  apply Z.abs_le in HL, H9. clearbody q r q0 m0 h9 H. clear -D M HL DH MH H9.
  symmetry. apply (Z.div_unique_pos _ _ _ (r - 19 * q + q0)).
  - assert (-3 <= q <= 3) by (unfold P25519 in *; lia).
    assert (0 <= q0 - 19 * q) by (unfold P25519 in *; lia).
    assert (q0 - 19 * q <= 19) by (unfold P25519 in *; lia).
    unfold P25519 in *. lia.
  - unfold P25519 in *. lia.
Qed.

(** The limbs as digits: each one in the range of its width. *)
Definition digits (h : fe) : Prop := length h = 10%nat ∧ ∀ i, (i < 10)%nat → 0 <= at_word h i < 2 ^ limb_bits i.

Lemma digits_list h : digits h →
  ∃ h0 h1 h2 h3 h4 h5 h6 h7 h8 h9, h = [h0; h1; h2; h3; h4; h5; h6; h7; h8; h9] ∧
    0 <= h0 < 2 ^ 26 ∧ 0 <= h1 < 2 ^ 25 ∧ 0 <= h2 < 2 ^ 26 ∧ 0 <= h3 < 2 ^ 25 ∧ 0 <= h4 < 2 ^ 26 ∧
    0 <= h5 < 2 ^ 25 ∧ 0 <= h6 < 2 ^ 26 ∧ 0 <= h7 < 2 ^ 25 ∧ 0 <= h8 < 2 ^ 26 ∧ 0 <= h9 < 2 ^ 25.
Proof.
  intros [Hl Hd]. do 11 (destruct h as [|? h]; try (cbn in Hl; lia)). do 10 eexists. split; [reflexivity|].
  exact (conj (Hd 0%nat ltac:(lia)) (conj (Hd 1%nat ltac:(lia)) (conj (Hd 2%nat ltac:(lia))
    (conj (Hd 3%nat ltac:(lia)) (conj (Hd 4%nat ltac:(lia)) (conj (Hd 5%nat ltac:(lia))
    (conj (Hd 6%nat ltac:(lia)) (conj (Hd 7%nat ltac:(lia)) (conj (Hd 8%nat ltac:(lia)) (Hd 9%nat ltac:(lia))))))))))).
Qed.

Lemma digits_value h : digits h → 0 <= fe_value h < 2 ^ 255.
Proof.
  intros (h0&h1&h2&h3&h4&h5&h6&h7&h8&h9&->&?&?&?&?&?&?&?&?&?&?)%digits_list.
  unfold fe_value. cbn [fe_weights weighted]. lia.
Qed.

(** A byte of a limb, and what is left above it. *)
Lemma peel x n : 0 <= n → u8 (Z.shiftr x n) = Z.shiftr x n - 2 ^ 8 * Z.shiftr x (n + 8).
Proof.
  intros Hn. unfold u8, wrap. rewrite !shiftr_div, Z.pow_add_r, <- Z.div_div by lia.
  pose proof (Z.div_mod (x / 2 ^ n) (2 ^ 8) ltac:(lia)). lia.
Qed.

Lemma u8_i32 x : u8 (i32 x) = u8 x.
Proof. width_lia. Qed.

Lemma u8_lor x y : u8 (Z.lor x y) = Z.lor (u8 x) (u8 y).
Proof. unfold u8, wrap. rewrite <- !(land_low _ 8) by lia. apply Z.land_lor_distr_l. Qed.

(** [(x >> a) | (y << b)] cut to a byte, whatever the shift loses above it. *)
Lemma join_byte (wr : Z → Z) x a y b :
  (∀ v, u8 (wr v) = u8 v) → 0 <= a → 0 < b <= 8 → 0 <= Z.shiftr x a < 2 ^ b →
  u8 (Z.lor (Z.shiftr x a) (wr (y * 2 ^ b))) = Z.shiftr x a + 2 ^ b * (y - 2 ^ (8 - b) * Z.shiftr y (8 - b)).
Proof.
  intros Hwr Ha Hb Hx.
  assert (E : 2 ^ 8 = 2 ^ b * 2 ^ (8 - b)) by (rewrite <- Z.pow_add_r by lia; f_equal; lia).
  rewrite u8_lor, Hwr. rewrite shiftr_div with (n := 8 - b) by lia.
  pose proof (Z.div_mod y (2 ^ (8 - b)) ltac:(lia)) as D.
  assert (u8 (Z.shiftr x a) = Z.shiftr x a) as -> by (apply wrap_id; nia).
  assert (u8 (y * 2 ^ b) = (y mod 2 ^ (8 - b)) * 2 ^ b) as ->.
  { unfold u8, wrap. rewrite E, (Z.mul_comm (2 ^ b)), Z.mul_mod_distr_r by lia. done. }
  rewrite lor_add' by lia. lia.
Qed.

Lemma joined_ok x a y b :
  0 <= a → 0 < b <= 8 → 0 <= Z.shiftr x a < 2 ^ b →
  joined x a y b = Z.shiftr x a + 2 ^ b * (y - 2 ^ (8 - b) * Z.shiftr y (8 - b)).
Proof. intros. apply join_byte; try done. apply u8_i32. Qed.

Lemma shiftr_range x n m : 0 <= x < 2 ^ n → 0 <= m <= n → 0 <= Z.shiftr x m < 2 ^ (n - m).
Proof.
  intros Hx Hm. rewrite shiftr_div by lia.
  split; [apply Z.div_pos; lia|apply Z.div_lt_upper_bound; [lia|]]. rewrite <- Z.pow_add_r by lia.
  replace (m + (n - m)) with n by lia. lia.
Qed.

Lemma shiftr_top x n : 0 <= n → 0 <= x < 2 ^ n → Z.shiftr x n = 0.
Proof. intros Hn Hx. rewrite shiftr_div by lia. by apply Z.div_small. Qed.

Lemma limb_bytes_ok h : digits h → limb_bytes h = le_bytes 32 (fe_value h).
Proof.
  intros (h0&h1&h2&h3&h4&h5&h6&h7&h8&h9&->&?&?&?&?&?&?&?&?&?&?)%digits_list.
  unfold limb_bytes. cbn [at_word nth]. cbv zeta.
  set (s := [_; _; _; _; _; _; _; _; _; _; _; _; _; _; _; _; _; _; _; _; _; _; _; _; _; _; _; _; _; _; _; _]).
  assert (Hs : bytes_ok s) by (unfold s; repeat constructor; apply wrap_range; lia).
  assert (Ev : le_value s = fe_value [h0; h1; h2; h3; h4; h5; h6; h7; h8; h9]).
  { unfold s, fe_value. cbn [le_value fe_weights weighted]. rewrite !peel by lia.
    rewrite !joined_ok by first [lia | by apply (shiftr_range _ 26) | by apply (shiftr_range _ 25)].
    rewrite !Z.shiftr_0_r. change (8 - 2) with 6. change (8 - 3) with 5. change (8 - 5) with 3. change (8 - 6) with 2.
    change (8 - 1) with 7. change (8 - 4) with 4.
    repeat match goal with |- context [Z.shiftr ?x (Z.add ?a ?b)] => let c := eval vm_compute in (a + b) in change (a + b) with c end.
    rewrite (shiftr_top h4 26), (shiftr_top h9 26) by lia. lia. }
  rewrite <- Ev. symmetry. exact (le_bytes_le_value s Hs).
Qed.

(** The bounds of the limbs before the carries of the packing. *)
Definition pack_bound : list Z := <[0%nat := 73819750 + 1216]> (fe_bound 220).

Lemma fe_tobytes_digits h q :
  bounded 220 h → Z.abs q <= 64 → 0 <= fe_value h - q * P25519 < P25519 →
  returns (tobytes_limbs h q) (λ d, digits d ∧ fe_value d = fe_value h - q * P25519).
Proof.
  intros Hh Hq Hr. pose proof (bounded_at 220 h 0 Hh ltac:(lia)) as H0. unfold tobytes_limbs.
  change (220 * 2 ^ (limb_bits 0 - 1) / 100) with 73819750 in H0.
  unfold mul32, add32. rewrite int32_ok, bind_Ok by lia. rewrite int32_ok, bind_Ok by lia.
  set (l := <[0%nat := _]> h). assert (Lh : length h = 10%nat) by (by eapply bounded_length).
  assert (Hl : within pack_bound l) by (apply within_insert; [done|lia]).
  assert (El : fe_value l = fe_value h + 19 * q).
  { unfold fe_value, l. rewrite weighted_insert by (rewrite Lh; done || lia). cbn [at_word nth fe_weights]. lia. }
  destruct (floor_chain int32 (2 ^ 31 - 1) limb_bits fe_weights 9 pack_bound
    (default [] (run_bound (floor_bound (2 ^ 31 - 1) limb_bits) (seq 0 9) pack_bound)) l)
    as (l' & Er & Hw & Hd & _ & Ev); try done.
  { unfold l. by rewrite length_insert, Lh. }
  { unfold l. rewrite length_insert. lia. }
  { intros i. apply limb_bits_pos. }
  { intros i Hi. do 9 (destruct i as [|i]; [done|]). lia. }
  { by repeat constructor. }
  unfold tobytes_carry. change (λ (i : nat) (h : fe), floor_carry int32 limb_bits i h) with (floor_carry int32 limb_bits).
  rewrite Er, bind_Ok. unfold tobytes_last.
  let b := eval vm_compute in (default [] (run_bound (floor_bound (2 ^ 31 - 1) limb_bits) (seq 0 9) pack_bound)) in
    change (default [] (run_bound (floor_bound (2 ^ 31 - 1) limb_bits) (seq 0 9) pack_bound)) with b in Hw.
  assert (L' : length l' = 10%nat) by (by rewrite <- (within_length _ _ Hw)).
  pose proof (within_at _ _ 9 Hw) as H9. unfold at_word at 2 in H9. cbn [nth] in H9.
  set (x := at_word l' 9) in *. rewrite shiftr_div by lia.
  pose proof (Z.div_mod x (2 ^ 25) ltac:(lia)) as D. pose proof (Z.mod_pos_bound x (2 ^ 25) ltac:(lia)) as M.
  set (c := x / 2 ^ 25) in *. rewrite int32_ok, bind_Ok by lia. unfold sub32. rewrite int32_ok, bind_Ok by lia.
  apply returns_Ok. assert (Hdig : digits (<[9%nat := x - c * 2 ^ 25]> l')).
  { split; [by rewrite length_insert|]. intros i Hi. rewrite at_insert by lia. destruct (decide (9%nat = i)) as [<-|Hne].
    - change (limb_bits 9) with 25. lia.
    - apply Hd. lia. }
  split; [done|]. pose proof (digits_value _ Hdig) as R.
  assert (E : fe_value (<[9%nat := x - c * 2 ^ 25]> l') = fe_value h + 19 * q - 2 ^ 255 * c).
  { unfold fe_value in *. rewrite weighted_insert by (rewrite ?L'; done || lia). rewrite Ev, El.
    change (at_word fe_weights 9) with 230. fold x. lia. }
  rewrite E in *. unfold P25519 in *. assert (c = q) by lia. lia.
Qed.

(** [fe_tobytes] writes the representative below the modulus. *)
Lemma fe_tobytes_ok h : bounded 220 h → fe_tobytes h = Ok (le_bytes 32 (fe_value h mod P25519)).
Proof.
  intros Hh. unfold fe_tobytes.
  destruct (tobytes_quotient h (fe_value h) Hh eq_refl) as (q & Eq & -> & Hq).
  set (q := fe_value h / P25519) in *.
  pose proof (Z.div_mod (fe_value h) P25519 ltac:(done)) as D. fold q in D.
  pose proof (Z.mod_pos_bound (fe_value h) P25519 ltac:(done)) as M.
  destruct (fe_tobytes_digits h q Hh Hq) as (d & Ed & Hd & Ev); [lia|].
  rewrite Eq, bind_Ok, Ed, bind_Ok, limb_bytes_ok by done.
  assert (fe_value d = fe_value h mod P25519) as -> by lia. done.
Qed.

Lemma fe_isnegative_ok f : bounded 220 f → fe_isnegative f = Ok (fe_value f mod P25519 mod 2).
Proof.
  intros Hf. unfold fe_isnegative. rewrite fe_tobytes_ok, bind_Ok by done. f_equal.
  rewrite land_1. set (v := fe_value f mod P25519). change (at_word (le_bytes 32 v) 0) with (v mod 256).
  apply (mod_mod_pow2 v 8 1). lia.
Qed.

(** The disjunction of the bytes is zero when they all are. *)
Lemma lor_bytes_zero s idx r :
  bytes_ok s → 0 <= r →
  (foldl (λ r i, Z.lor r (at_word s i)) r idx = 0 ↔ r = 0 ∧ Forall (λ i, at_word s i = 0) idx) ∧
  0 <= foldl (λ r i, Z.lor r (at_word s i)) r idx.
Proof.
  intros Hs. revert r. induction idx as [|i idx IH]; intros r Hr; cbn [foldl]; [split; [rewrite Forall_nil; tauto|done]|].
  pose proof (at_byte_u8 s i Hs) as Hi. unfold is_u8, is_unsigned in Hi.
  destruct (IH (Z.lor r (at_word s i))) as [E P]; [apply Z.lor_nonneg; lia|].
  split; [|done]. rewrite E, Forall_cons, Z.lor_eq_0_iff. tauto.
Qed.

Lemma le_bytes_zero n v : 0 <= v < 2 ^ (8 * Z.of_nat n) → (∀ i, (i < n)%nat → at_word (le_bytes n v) i = 0) → v = 0.
Proof.
  intros Hv H. assert (E : le_bytes n v = le_bytes n 0).
  { apply (nth_ext _ _ 0 0); [by rewrite !length_le_bytes|]. rewrite length_le_bytes. intros i Hi.
    specialize (H i Hi). unfold at_word in H. rewrite H. clear.
    revert i. induction n as [|n IH]; intros [|i]; try done. cbn. apply IH. }
  apply (f_equal le_value) in E. rewrite !le_value_le_bytes, Z.mod_0_l, Z.mod_small in E by lia. done.
Qed.

Lemma P25519_small v : 0 <= v mod P25519 < 2 ^ (8 * Z.of_nat 32).
Proof. pose proof (Z.mod_pos_bound v P25519 ltac:(done)). unfold P25519 in *. lia. Qed.

Lemma fe_isnonzero_ok f : bounded 220 f → fe_isnonzero f = Ok (if fe_value f mod P25519 =? 0 then 0 else 1).
Proof.
  intros Hf. unfold fe_isnonzero. rewrite fe_tobytes_ok, bind_Ok by done.
  set (v := fe_value f mod P25519). set (s := le_bytes 32 v).
  pose proof (at_byte_u8 s 0 (le_bytes_ok _ _)) as H0. unfold is_u8, is_unsigned in H0.
  destruct (lor_bytes_zero s (seq 1 31) (at_word s 0) (le_bytes_ok _ _)) as [E _]; [lia|].
  set (r := foldl _ _ _) in *. assert ((r =? 0) = (v =? 0)) as ->; [|done].
  apply eq_true_iff_eq. rewrite !Z.eqb_eq, E. split.
  - intros [Z0 Z1]. apply (le_bytes_zero 32); [apply P25519_small|]. intros [|i] Hi; [done|].
    rewrite Forall_forall in Z1. apply Z1, elem_of_seq. lia.
  - intros Hv. unfold s. rewrite Hv. split; [done|]. by repeat constructor.
Qed.

(** ** Conditional moves *)

Lemma mask32_all x : is_i32 x → mask32 x (u32 (- 1)) = x.
Proof.
  intros Hx. unfold mask32. change (u32 (- 1)) with (Z.ones 32). rewrite land_low by lia.
  fold (wrap 32 (u32 x)). assert (wrap 32 (u32 x) = u32 x) as -> by (apply wrap_id, u32_range).
  unfold i32, u32. rewrite swrap_wrap by lia. by apply swrap_id.
Qed.

Lemma mask32_none x : mask32 x (u32 (- 0)) = 0.
Proof. unfold mask32. change (u32 (- 0)) with 0. by rewrite Z.land_0_r. Qed.

Lemma lxor_i32 x y : is_i32 x → is_i32 y → is_i32 (Z.lxor x y).
Proof.
  intros Hx Hy. assert (B : ∀ z, is_i32 z ↔ ∀ n, 31 <= n → Z.testbit z n = Z.testbit z 31).
  { intros z. unfold is_i32, is_signed. split.
    - intros Hz n Hn. destruct (Z_lt_le_dec z 0) as [Hneg|Hpos].
      + rewrite <- (Z.lnot_involutive z), !(Z.lnot_spec (Z.lnot z)) by lia.
        assert (0 <= Z.lnot z < 2 ^ 31) by (unfold Z.lnot; lia).
        rewrite <- (Z.mod_small (Z.lnot z) (2 ^ 31)), !Z.mod_pow2_bits_high by lia. done.
      + rewrite <- (Z.mod_small z (2 ^ 31)), !Z.mod_pow2_bits_high by lia. done.
    - intros Hb. pose proof (Z.div_mod z (2 ^ 31) ltac:(lia)) as D. pose proof (Z.mod_pos_bound z (2 ^ 31) ltac:(lia)) as M.
      assert (z / 2 ^ 31 = 0 ∨ z / 2 ^ 31 = -1) as [E|E]; [|lia|lia].
      destruct (Z.testbit z 31) eqn:E31; [right|left]; apply Z.bits_inj'; intros n Hn;
        rewrite Z.div_pow2_bits, Hb by lia; rewrite ?Z.bits_0, ?Z.bits_m1 by lia; done. }
  apply B. intros n Hn. rewrite !Z.lxor_spec. by rewrite (proj1 (B x) Hx n Hn), (proj1 (B y) Hy n Hn).
Qed.

Definition fe_typed (f : fe) : Prop := length f = 10%nat ∧ Forall is_i32 f.

Lemma bounded_typed k f : k <= 6000 → bounded k f → fe_typed f.
Proof.
  intros Hk Hf. split; [by eapply bounded_length|]. unfold bounded, within in Hf.
  pose proof (fe_bound_small k Hk) as HB. revert HB. generalize dependent (fe_bound k). clear.
  intros B Hf HB. induction Hf as [|b x B f Hx _ IH]; [constructor|]. apply Forall_cons in HB as [Hb HB].
  constructor; [split; lia|by apply IH].
Qed.

Lemma fe_cmov_ok f g b : fe_typed f → fe_typed g → b = 0 ∨ b = 1 → fe_cmov f g b = if b =? 1 then g else f.
Proof.
  intros [Lf Hf] [Lg Hg] Hb. unfold fe_cmov. rewrite <- Lg in Lf. clear Lg. revert g Lf Hg.
  induction Hf as [|x f Hx _ IH]; intros [|y g] Lf Hg; try done; [by case_match|].
  apply Forall_cons in Hg as [Hy Hg]. injection Lf as Lf. cbn [zip_with]. rewrite (IH g Lf Hg).
  destruct Hb as [-> | ->]; cbn [Z.eqb Pos.eqb].
  - by rewrite mask32_none, Z.lxor_0_r.
  - rewrite mask32_all by (by apply lxor_i32). by rewrite <- Z.lxor_assoc, Z.lxor_nilpotent, Z.lxor_0_l.
Qed.

Lemma fe_cswap_ok f g b :
  fe_typed f → fe_typed g → b = 0 ∨ b = 1 → fe_cswap f g b = if b =? 1 then (g, f) else (f, g).
Proof.
  intros Hf Hg Hb. pose proof (fe_cmov_ok f g b Hf Hg Hb) as E. pose proof (fe_cmov_ok g f b Hg Hf Hb) as E'.
  unfold fe_cswap, fe_cmov in *. rewrite E.
  assert (zip_with (λ x y, Z.lxor y (mask32 (Z.lxor x y) (u32 (- b)))) f g =
          zip_with (λ x y, Z.lxor x (mask32 (Z.lxor x y) (u32 (- b)))) g f) as ->.
  { clear. revert g. induction f as [|x f IH]; intros [|y g]; cbn; try done. by rewrite IH, (Z.lxor_comm x y). }
  rewrite E'. destruct (b =? 1); done.
Qed.

(** An element within the tightest bounds for which the shift [h4 << 6] of the
    packing leaves the [int32_t]. *)
Lemma tobytes_shift_overflows :
  ∃ f q d, bounded 101 f ∧ tobytes_q f = Ok q ∧ tobytes_limbs f q = Ok d ∧
    int32 (at_word d 4 * 2 ^ 6) = Throw undefined_behaviour.
Proof.
  exists [0; 0; 0; 0; 2 ^ 25; 0; 0; 0; 0; 0], 0, [0; 0; 0; 0; 2 ^ 25; 0; 0; 0; 0; 0].
  split; [|by vm_compute]. unfold bounded, within, fe_bound. repeat constructor; by vm_compute.
Qed.

(** ** Properties *)

(** The 32 bytes of an element are canonical.  Packing never fails on an
    element within its bounds, writes 32 bytes that are the number below
    2^255 - 19, so that two elements have the same bytes exactly when they are
    equal in the field; unpacking any 32 bytes gives the number of their low 255
    bits, and packing it again gives the bytes back when that number is below
    the modulus and the top bit is clear. *)
Theorem fe_bytes_canonical :
  (∀ f, bounded 220 f → ∃ s, fe_tobytes f = Ok s ∧ length s = 32%nat ∧ bytes_ok s ∧ 0 <= le_value s < P25519 ∧ le_value s ≡p fe_value f) ∧
  (∀ f g, bounded 220 f → bounded 220 g → fe_tobytes f = fe_tobytes g ↔ fe_value f ≡p fe_value g) ∧
  (∀ s, length s = 32%nat → bytes_ok s →
    returns (fe_frombytes s) (λ h, bounded 101 h ∧ fe_value h ≡p le_value s mod 2 ^ 255 ∧
      (le_value s < P25519 → fe_tobytes h = Ok s))).
Proof.
  assert (V : ∀ f, le_value (le_bytes 32 (fe_value f mod P25519)) = fe_value f mod P25519).
  { intros f. rewrite le_value_le_bytes. apply Z.mod_small, P25519_small. }
  split; [|split].
  - intros f Hf. exists (le_bytes 32 (fe_value f mod P25519)). rewrite fe_tobytes_ok, length_le_bytes, V by done.
    split_and!; try done; [apply le_bytes_ok|by apply Z.mod_pos_bound|by apply Z.mod_pos_bound|].
    apply eqp_mod. by rewrite Z.mod_mod.
  - intros f g Hf Hg. rewrite !fe_tobytes_ok, eqp_mod by done. split; [|by intros ->].
    intros E. assert (E' : le_bytes 32 (fe_value f mod P25519) = le_bytes 32 (fe_value g mod P25519)) by congruence.
    by rewrite <- (V f), <- (V g), E'.
  - intros s Hl Hok. eapply returns_mono; [by apply fe_frombytes_ok|]. intros h [Hh Eh]. split; [done|]. split; [done|].
    intros Hs. rewrite fe_tobytes_ok by (eapply bounded_mono; [done|lia]). f_equal.
    apply eqp_mod in Eh. rewrite Eh. pose proof (le_value_range s Hok).
    rewrite (Z.mod_small _ (2 ^ 255)), Z.mod_small by (unfold P25519 in *; lia). rewrite <- Hl. by apply le_bytes_le_value.
Qed.

Lemma fe_bytes_canonical_witness :
  ∃ h, fe_frombytes (9 :: replicate 31 0) = Ok h ∧ fe_tobytes h = Ok (9 :: replicate 31 0).
Proof.
  destruct (proj2 (proj2 fe_bytes_canonical) (9 :: replicate 31 0)) as (h & E & _ & _ & R).
  - reflexivity.
  - vm_compute. repeat (constructor; [done|]). constructor.
  - exists h. split; [exact E|]. apply R. vm_compute. reflexivity.
Defined.
