(* ===== verification/Sc25519.v ===== *)
(** * Sc25519: the scalars of the signatures

    Models [ed25519/src/sc.c]: [sc_reduce], which reduces 64 bytes modulo the
    order L of the base point, and [sc_muladd], which computes [a b + c] modulo
    L on 32-byte scalars.  Both work on 24 limbs of 21 bits in signed 64-bit
    integers, and both are straight lines of three kinds of statements, which
    the model keeps as lists of steps: a fold of a high limb by 2^252 = - c
    modulo L, a rounded carry and a floor carry.

    The theorem shows that neither overflows and that the output is the reduced
    scalar, below L, for every input. *)

From S2P Require Import Prelude Blake2 Limbs Fe25519 FeBytes.

Definition L25519 : Z := 2 ^ 252 + 27742317777372353535851937790883648493.

(** ** The steps *)

Inductive sc_step :=
| Fold (i : nat)
| Carry (i : nat)
| Floor (i : nat).

(** [s_{i-12} += s_i * 666643; ...; s_i = 0] *)
Definition fold_limb (i : nat) (s : list Z) : result (list Z) :=
  s ← add_mul i (i - 12) 666643 s;
  s ← add_mul i (i - 11) 470296 s;
  s ← add_mul i (i - 10) 654183 s;
  s ← sub_mul i (i - 9) 997805 s;
  s ← add_mul i (i - 8) 136657 s;
  s ← sub_mul i (i - 7) 683901 s;
  Ok (<[i := 0]> s).

Definition sc_run (st : sc_step) (s : list Z) : result (list Z) :=
  match st with
  | Fold i => fold_limb i s
  | Carry i => carry int64 1 i (i + 1) 21 (2 ^ 20) s
  | Floor i => floor_carry int64 (λ _, 21) i s
  end.

(** The statements of [sc_reduce], which [sc_muladd] repeats. *)
Definition reduce_steps : list sc_step :=
  [Fold 23; Fold 22; Fold 21; Fold 20; Fold 19; Fold 18; Carry 6; Carry 8; Carry 10; Carry 12;
   Carry 14; Carry 16; Carry 7; Carry 9; Carry 11; Carry 13; Carry 15; Fold 17; Fold 16; Fold 15;
   Fold 14; Fold 13; Fold 12; Carry 0; Carry 2; Carry 4; Carry 6; Carry 8; Carry 10; Carry 1;
   Carry 3; Carry 5; Carry 7; Carry 9; Carry 11; Fold 12; Floor 0; Floor 1; Floor 2; Floor 3;
   Floor 4; Floor 5; Floor 6; Floor 7; Floor 8; Floor 9; Floor 10; Floor 11; Fold 12; Floor 0;
   Floor 1; Floor 2; Floor 3; Floor 4; Floor 5; Floor 6; Floor 7; Floor 8; Floor 9; Floor 10]%nat.

(** The statements of [sc_muladd] before them. *)
Definition muladd_carries : list sc_step :=
  [Carry 0; Carry 2; Carry 4; Carry 6; Carry 8; Carry 10; Carry 12; Carry 14; Carry 16; Carry 18;
   Carry 20; Carry 22; Carry 1; Carry 3; Carry 5; Carry 7; Carry 9; Carry 11; Carry 13; Carry 15;
   Carry 17; Carry 19; Carry 21]%nat.

(** ** Loads and stores *)

Definition reduce_limbs (s : byte_array) : list Z :=
  [Z.land 2097151 (load_3 s); Z.land 2097151 (Z.shiftr (load_4 (drop 2 s)) 5);
   Z.land 2097151 (Z.shiftr (load_3 (drop 5 s)) 2); Z.land 2097151 (Z.shiftr (load_4 (drop 7 s)) 7);
   Z.land 2097151 (Z.shiftr (load_4 (drop 10 s)) 4); Z.land 2097151 (Z.shiftr (load_3 (drop 13 s)) 1);
   Z.land 2097151 (Z.shiftr (load_4 (drop 15 s)) 6); Z.land 2097151 (Z.shiftr (load_3 (drop 18 s)) 3);
   Z.land 2097151 (load_3 (drop 21 s)); Z.land 2097151 (Z.shiftr (load_4 (drop 23 s)) 5);
   Z.land 2097151 (Z.shiftr (load_3 (drop 26 s)) 2); Z.land 2097151 (Z.shiftr (load_4 (drop 28 s)) 7);
   Z.land 2097151 (Z.shiftr (load_4 (drop 31 s)) 4); Z.land 2097151 (Z.shiftr (load_3 (drop 34 s)) 1);
   Z.land 2097151 (Z.shiftr (load_4 (drop 36 s)) 6); Z.land 2097151 (Z.shiftr (load_3 (drop 39 s)) 3);
   Z.land 2097151 (load_3 (drop 42 s)); Z.land 2097151 (Z.shiftr (load_4 (drop 44 s)) 5);
   Z.land 2097151 (Z.shiftr (load_3 (drop 47 s)) 2); Z.land 2097151 (Z.shiftr (load_4 (drop 49 s)) 7);
   Z.land 2097151 (Z.shiftr (load_4 (drop 52 s)) 4); Z.land 2097151 (Z.shiftr (load_3 (drop 55 s)) 1);
   Z.land 2097151 (Z.shiftr (load_4 (drop 57 s)) 6); Z.shiftr (load_4 (drop 60 s)) 3].

Definition scalar_limbs (s : byte_array) : list Z :=
  [Z.land 2097151 (load_3 s); Z.land 2097151 (Z.shiftr (load_4 (drop 2 s)) 5);
   Z.land 2097151 (Z.shiftr (load_3 (drop 5 s)) 2); Z.land 2097151 (Z.shiftr (load_4 (drop 7 s)) 7);
   Z.land 2097151 (Z.shiftr (load_4 (drop 10 s)) 4); Z.land 2097151 (Z.shiftr (load_3 (drop 13 s)) 1);
   Z.land 2097151 (Z.shiftr (load_4 (drop 15 s)) 6); Z.land 2097151 (Z.shiftr (load_3 (drop 18 s)) 3);
   Z.land 2097151 (load_3 (drop 21 s)); Z.land 2097151 (Z.shiftr (load_4 (drop 23 s)) 5);
   Z.land 2097151 (Z.shiftr (load_3 (drop 26 s)) 2); Z.shiftr (load_4 (drop 28 s)) 7].

Definition sc_bytes (s : list Z) : byte_array :=
  let s0 := at_word s 0 in let s1 := at_word s 1 in let s2 := at_word s 2 in let s3 := at_word s 3 in
  let s4 := at_word s 4 in let s5 := at_word s 5 in let s6 := at_word s 6 in let s7 := at_word s 7 in
  let s8 := at_word s 8 in let s9 := at_word s 9 in let s10 := at_word s 10 in let s11 := at_word s 11 in
  let byte x n := u8 (Z.shiftr x n) in
  let join x a y b := u8 (Z.lor (Z.shiftr x a) (i64 (y * 2 ^ b))) in
  [byte s0 0; byte s0 8; join s0 16 s1 5; byte s1 3; byte s1 11; join s1 19 s2 2;
   byte s2 6; join s2 14 s3 7; byte s3 1; byte s3 9; join s3 17 s4 4; byte s4 4;
   byte s4 12; join s4 20 s5 1; byte s5 7; join s5 15 s6 6; byte s6 2; byte s6 10;
   join s6 18 s7 3; byte s7 5; byte s7 13; byte s8 0; byte s8 8; join s8 16 s9 5;
   byte s9 3; byte s9 11; join s9 19 s10 2; byte s10 6; join s10 14 s11 7; byte s11 1;
   byte s11 9; byte s11 17].

(** ** The functions *)

(** The scalar replaces the first half of the array. *)
Definition sc_reduce (s : byte_array) : result byte_array :=
  l ← run sc_run reduce_steps (i64 <$> reduce_limbs s);
  Ok (sc_bytes l ++ drop 32 s).

(** [c + x0 * y0 + x1 * y1 + ...] *)
Definition madd64 (c : Z) (ps : list (Z * Z)) : result Z :=
  foldl (λ s p, s ← s; t ← mul64 p.1 p.2; add64 s t) (Ok c) ps.

Definition dot64 (ps : list (Z * Z)) : result Z :=
  match ps with
  | [] => Ok 0
  | p :: ps => t ← mul64 p.1 p.2; madd64 t ps
  end.

Definition muladd_products (a b c : list Z) : result (list Z) :=
  let a0 := at_word a 0 in let a1 := at_word a 1 in let a2 := at_word a 2 in let a3 := at_word a 3 in
  let a4 := at_word a 4 in let a5 := at_word a 5 in let a6 := at_word a 6 in let a7 := at_word a 7 in
  let a8 := at_word a 8 in let a9 := at_word a 9 in let a10 := at_word a 10 in let a11 := at_word a 11 in
  let b0 := at_word b 0 in let b1 := at_word b 1 in let b2 := at_word b 2 in let b3 := at_word b 3 in
  let b4 := at_word b 4 in let b5 := at_word b 5 in let b6 := at_word b 6 in let b7 := at_word b 7 in
  let b8 := at_word b 8 in let b9 := at_word b 9 in let b10 := at_word b 10 in let b11 := at_word b 11 in
  let c0 := at_word c 0 in let c1 := at_word c 1 in let c2 := at_word c 2 in let c3 := at_word c 3 in
  let c4 := at_word c 4 in let c5 := at_word c 5 in let c6 := at_word c 6 in let c7 := at_word c 7 in
  let c8 := at_word c 8 in let c9 := at_word c 9 in let c10 := at_word c 10 in let c11 := at_word c 11 in
  s0 ← madd64 c0 [(a0, b0)];
  s1 ← madd64 c1 [(a0, b1); (a1, b0)];
  s2 ← madd64 c2 [(a0, b2); (a1, b1); (a2, b0)];
  s3 ← madd64 c3 [(a0, b3); (a1, b2); (a2, b1); (a3, b0)];
  s4 ← madd64 c4 [(a0, b4); (a1, b3); (a2, b2); (a3, b1); (a4, b0)];
  s5 ← madd64 c5 [(a0, b5); (a1, b4); (a2, b3); (a3, b2); (a4, b1); (a5, b0)];
  s6 ← madd64 c6 [(a0, b6); (a1, b5); (a2, b4); (a3, b3); (a4, b2); (a5, b1); (a6, b0)];
  s7 ← madd64 c7 [(a0, b7); (a1, b6); (a2, b5); (a3, b4); (a4, b3); (a5, b2); (a6, b1); (a7, b0)];
  s8 ← madd64 c8 [(a0, b8); (a1, b7); (a2, b6); (a3, b5); (a4, b4); (a5, b3); (a6, b2); (a7, b1); (a8, b0)];
  s9 ← madd64 c9 [(a0, b9); (a1, b8); (a2, b7); (a3, b6); (a4, b5); (a5, b4); (a6, b3); (a7, b2); (a8, b1); (a9, b0)];
  s10 ← madd64 c10 [(a0, b10); (a1, b9); (a2, b8); (a3, b7); (a4, b6); (a5, b5); (a6, b4); (a7, b3); (a8, b2); (a9, b1); (a10, b0)];
  s11 ← madd64 c11 [(a0, b11); (a1, b10); (a2, b9); (a3, b8); (a4, b7); (a5, b6); (a6, b5); (a7, b4); (a8, b3); (a9, b2); (a10, b1); (a11, b0)];
  s12 ← dot64 [(a1, b11); (a2, b10); (a3, b9); (a4, b8); (a5, b7); (a6, b6); (a7, b5); (a8, b4); (a9, b3); (a10, b2); (a11, b1)];
  s13 ← dot64 [(a2, b11); (a3, b10); (a4, b9); (a5, b8); (a6, b7); (a7, b6); (a8, b5); (a9, b4); (a10, b3); (a11, b2)];
  s14 ← dot64 [(a3, b11); (a4, b10); (a5, b9); (a6, b8); (a7, b7); (a8, b6); (a9, b5); (a10, b4); (a11, b3)];
  s15 ← dot64 [(a4, b11); (a5, b10); (a6, b9); (a7, b8); (a8, b7); (a9, b6); (a10, b5); (a11, b4)];
  s16 ← dot64 [(a5, b11); (a6, b10); (a7, b9); (a8, b8); (a9, b7); (a10, b6); (a11, b5)];
  s17 ← dot64 [(a6, b11); (a7, b10); (a8, b9); (a9, b8); (a10, b7); (a11, b6)];
  s18 ← dot64 [(a7, b11); (a8, b10); (a9, b9); (a10, b8); (a11, b7)];
  s19 ← dot64 [(a8, b11); (a9, b10); (a10, b9); (a11, b8)];
  s20 ← dot64 [(a9, b11); (a10, b10); (a11, b9)];
  s21 ← dot64 [(a10, b11); (a11, b10)];
  s22 ← dot64 [(a11, b11)];
  Ok [s0; s1; s2; s3; s4; s5; s6; s7; s8; s9; s10; s11;
      s12; s13; s14; s15; s16; s17; s18; s19; s20; s21; s22; 0].

Definition sc_muladd (a b c : byte_array) : result byte_array :=
  s ← muladd_products (i64 <$> scalar_limbs a) (i64 <$> scalar_limbs b) (i64 <$> scalar_limbs c);
  l ← run sc_run (muladd_carries ++ reduce_steps) s;
  Ok (sc_bytes l).

(** ** The steps keep the number modulo L *)

Definition sc_weights : list Z := [0; 21; 42; 63; 84; 105; 126; 147; 168; 189; 210; 231;
  252; 273; 294; 315; 336; 357; 378; 399; 420; 441; 462; 483].

Definition sc_value (s : list Z) : Z := weighted sc_weights s.

Lemma sc_weights_at i : (i < 24)%nat → at_word sc_weights i = 21 * Z.of_nat i.
Proof. intros Hi. do 24 (destruct i as [|i]; [done|]). lia. Qed.

Definition eql (a b : Z) : Prop := ∃ q, a = b + q * L25519.

#[export] Instance eql_equivalence : Equivalence eql.
Proof.
  split.
  - intros a. exists 0. lia.
  - intros a b [q ->]. exists (- q). lia.
  - intros a b c [q ->] [r ->]. exists (q + r). lia.
Qed.

Lemma eql_mod a b : eql a b → a mod L25519 = b mod L25519.
Proof. intros [q ->]. by apply Z.mod_add. Qed.

Definition fold_bound (i : nat) (B : list Z) : option (list Z) :=
  B ← add_mul_bound i (i - 12) 666643 B;
  B ← add_mul_bound i (i - 11) 470296 B;
  B ← add_mul_bound i (i - 10) 654183 B;
  B ← add_mul_bound i (i - 9) 997805 B;
  B ← add_mul_bound i (i - 8) 136657 B;
  B ← add_mul_bound i (i - 7) 683901 B;
  Some (<[i := 0]> B).

Definition sc_bound (st : sc_step) (B : list Z) : option (list Z) :=
  match st with
  | Fold i => fold_bound i B
  | Carry i => carry_bound (2 ^ 63 - 1) 1 i (i + 1) 21 (2 ^ 20) B
  | Floor i => floor_bound (2 ^ 63 - 1) (λ _, 21) i B
  end.

(** The limb of a step and its neighbours are in the array. *)
Definition step_fits (st : sc_step) : bool :=
  match st with
  | Fold i => (12 <=? i)%nat && (i <? 24)%nat
  | Carry i | Floor i => (i <? 23)%nat
  end.

Lemma add_mul_ok i j c B B' l :
  add_mul_bound i j c B = Some B' → within B l → length l = 24%nat → i ≠ j → (j < 24)%nat → 0 <= c →
  (∃ l', add_mul i j c l = Ok l' ∧ within B' l' ∧ length l' = 24%nat ∧ at_word l' i = at_word l i ∧
    sc_value l' = sc_value l + 2 ^ (21 * Z.of_nat j) * (at_word l i * c)) ∧
  (∃ l', sub_mul i j c l = Ok l' ∧ within B' l' ∧ length l' = 24%nat ∧ at_word l' i = at_word l i ∧
    sc_value l' = sc_value l - 2 ^ (21 * Z.of_nat j) * (at_word l i * c)).
Proof.
  intros HB' HB Hl Hij Hj Hc. unfold add_mul_bound in HB'. case_match eqn:E; [|done]. injection HB' as <-.
  apply Z.leb_le in E. pose proof (within_at B l i HB) as Hi. pose proof (within_at B l j HB) as Hbj.
  rewrite Z.abs_eq in E by done.
  assert (Hm : Z.abs (at_word l i * c) <= at_word B i * c) by (apply mul_bound; lia).
  unfold add_mul, sub_mul, mul64, add64, sub64. rewrite int64_ok, !bind_Ok by lia.
  split; rewrite int64_ok, bind_Ok by lia; eexists; (split; [done|]); (split; [apply within_insert; [done|lia]|]);
    (split; [by rewrite length_insert|]); (split; [rewrite at_insert by lia; by rewrite decide_False by done|]);
    unfold sc_value; rewrite weighted_insert by (rewrite Hl; done || lia); rewrite sc_weights_at by done; lia.
Qed.

Lemma fold_limb_ok i B B' l :
  within B l → length l = 24%nat → (12 <= i < 24)%nat → fold_bound i B = Some B' →
  ∃ l', fold_limb i l = Ok l' ∧ within B' l' ∧ length l' = 24%nat ∧
    sc_value l' = sc_value l - at_word l i * 2 ^ (21 * Z.of_nat (i - 12)) * L25519.
Proof.
  intros HB Hl Hi HB'. unfold fold_bound in HB'.
  apply bind_Some in HB' as (B1 & E1 & HB'). apply bind_Some in HB' as (B2 & E2 & HB').
  apply bind_Some in HB' as (B3 & E3 & HB'). apply bind_Some in HB' as (B4 & E4 & HB').
  apply bind_Some in HB' as (B5 & E5 & HB'). apply bind_Some in HB' as (B6 & E6 & HB'). injection HB' as <-.
  unfold fold_limb.
  destruct (add_mul_ok _ _ _ _ _ l E1 HB Hl) as [(l1 & -> & W1 & L1 & A1 & V1) _]; [lia..|]. rewrite bind_Ok.
  destruct (add_mul_ok _ _ _ _ _ l1 E2 W1 L1) as [(l2 & -> & W2 & L2 & A2 & V2) _]; [lia..|]. rewrite bind_Ok.
  destruct (add_mul_ok _ _ _ _ _ l2 E3 W2 L2) as [(l3 & -> & W3 & L3 & A3 & V3) _]; [lia..|]. rewrite bind_Ok.
  destruct (add_mul_ok _ _ _ _ _ l3 E4 W3 L3) as [_ (l4 & -> & W4 & L4 & A4 & V4)]; [lia..|]. rewrite bind_Ok.
  destruct (add_mul_ok _ _ _ _ _ l4 E5 W4 L4) as [(l5 & -> & W5 & L5 & A5 & V5) _]; [lia..|]. rewrite bind_Ok.
  destruct (add_mul_ok _ _ _ _ _ l5 E6 W5 L5) as [_ (l6 & -> & W6 & L6 & A6 & V6)]; [lia..|]. rewrite bind_Ok.
  eexists. split; [done|]. split; [by apply within_insert|]. split; [by rewrite length_insert|].
  unfold sc_value in *. rewrite weighted_insert by (rewrite L6; done || lia). rewrite sc_weights_at by lia.
  assert (at_word l6 i = at_word l i) as -> by congruence.
  rewrite V6, V5, V4, V3, V2, V1, A5, A4, A3, A2, A1.
  set (x := at_word l i). set (k := Z.of_nat (i - 12)).
  replace (Z.of_nat i) with (k + 12) by lia. replace (Z.of_nat (i - 11)) with (k + 1) by lia.
  replace (Z.of_nat (i - 10)) with (k + 2) by lia. replace (Z.of_nat (i - 9)) with (k + 3) by lia.
  replace (Z.of_nat (i - 8)) with (k + 4) by lia. replace (Z.of_nat (i - 7)) with (k + 5) by lia.
  rewrite !Z.mul_add_distr_l, !Z.pow_add_r by lia. set (K := 2 ^ (21 * k)). unfold L25519. lia.
Qed.

Lemma add_mul_bound_length i j c B B' : add_mul_bound i j c B = Some B' → length B' = length B.
Proof. unfold add_mul_bound. case_match; [|done]. intros [= <-]. by rewrite length_insert. Qed.

Lemma sc_run_ok st B B' l :
  step_fits st = true → within B l → length l = 24%nat → sc_bound st B = Some B' →
  ∃ l', sc_run st l = Ok l' ∧ within B' l' ∧ length l' = 24%nat ∧ eql (sc_value l') (sc_value l).
Proof.
  intros Hf HB Hl HB'. destruct st as [i|i|i]; cbn [step_fits sc_bound sc_run] in Hf, HB' |- *.
  - apply andb_prop in Hf as [H1%Nat.leb_le H2%Nat.ltb_lt].
    destruct (fold_limb_ok i B B' l) as (l' & -> & W & L & V); try done. exists l'. split_and!; try done.
    rewrite V. exists (- (at_word l i * 2 ^ (21 * Z.of_nat (i - 12)))). lia.
  - apply Nat.ltb_lt in Hf.
    destruct (carry_ok int64 (2 ^ 63 - 1) 1 i (i + 1) 21 (2 ^ 20) sc_weights B B' l) as (l' & -> & W & _ & _ & V); try done; try lia.
    exists l'. split_and!; try done.
    + rewrite <- (within_length _ _ W). apply carry_bound_length in HB'. by rewrite HB', (within_length _ _ HB).
    + unfold sc_value. rewrite V, !sc_weights_at by lia. exists 0.
      replace (21 * Z.of_nat (i + 1)) with (21 * Z.of_nat i + 21) by lia. rewrite Z.pow_add_r by lia. lia.
  - apply Nat.ltb_lt in Hf.
    destruct (carry_ok int64 (2 ^ 63 - 1) 1 i (i + 1) 21 0 sc_weights B B' l) as (l' & E & W & _ & _ & V); try done; try lia.
    exists l'. split_and!; try done.
    + rewrite <- (within_length _ _ W). apply carry_bound_length in HB'. by rewrite HB', (within_length _ _ HB).
    + unfold sc_value. rewrite V, !sc_weights_at by lia. exists 0.
      replace (21 * Z.of_nat (i + 1)) with (21 * Z.of_nat i + 21) by lia. rewrite Z.pow_add_r by lia. lia.
Qed.

Lemma sc_steps_ok steps : ∀ B B' l,
  forallb step_fits steps = true → within B l → length l = 24%nat → run_bound sc_bound steps B = Some B' →
  ∃ l', run sc_run steps l = Ok l' ∧ within B' l' ∧ length l' = 24%nat ∧ eql (sc_value l') (sc_value l).
Proof.
  induction steps as [|st steps IH]; intros B B' l Hf HB Hl HB'; cbn in Hf, HB'.
  - injection HB' as <-. by exists l.
  - apply andb_prop in Hf as [Hf1 Hf]. apply bind_Some in HB' as (B1 & E1 & E2).
    destruct (sc_run_ok st B B1 l Hf1 HB Hl E1) as (l1 & Er & W1 & L1 & V1).
    destruct (IH B1 B' l1 Hf W1 L1 E2) as (l' & Er' & W & L & V). exists l'. cbn [run]. rewrite Er, bind_Ok.
    split_and!; try done. by rewrite V.
Qed.

(** ** The last statements leave the reduced number *)

(** Everything before the first floor carry. *)
Definition front_steps : list sc_step := take 36 reduce_steps.

Lemma reduce_steps_split :
  reduce_steps = front_steps ++ (Floor <$> seq 0 12) ++ [Fold 12] ++ (Floor <$> seq 0 11).
Proof. done. Qed.

Lemma run_floors n l : run sc_run (Floor <$> seq 0 n) l = run (floor_carry int64 (λ _, 21)) (seq 0 n) l.
Proof.
  generalize (seq 0 n) as s. intros s. revert l. induction s as [|i s IH]; intros l; [done|].
  cbn [fmap list_fmap run sc_run]. destruct (floor_carry _ _ _ _) as [l'|e]; [apply IH|done].
Qed.

Definition scalar_digits (l : list Z) : Prop :=
  length l = 24%nat ∧ (∀ i, (i < 11)%nat → 0 <= at_word l i < 2 ^ 21) ∧ 0 <= at_word l 11 <= 2 ^ 21 ∧
  (∀ i, (12 <= i)%nat → at_word l i = 0).

(** The number of the limbs: those that are not there count for nothing. *)
Lemma sc_value_low l n :
  length l = 24%nat → (n <= 24)%nat → (∀ i, (n <= i)%nat → at_word l i = 0) → sc_value l = weighted (take n sc_weights) (take n l).
Proof.
  intros Hl Hn Hz. unfold sc_value. rewrite <- (take_drop n sc_weights) at 1. rewrite <- (take_drop n l) at 1.
  rewrite weighted_app by (rewrite !length_take, Hl; done).
  assert (Z0 : ∀ w l, Forall (λ x, x = 0) l → weighted w l = 0).
  { induction w as [|w ws IH]; intros [|x l'] H; try done. apply Forall_cons in H as [-> H]. cbn. rewrite IH by done. lia. }
  rewrite (Z0 _ (drop n l)); [lia|]. apply Forall_lookup. intros i x Hx. rewrite lookup_drop in Hx.
  specialize (Hz (n + i)%nat ltac:(lia)). unfold at_word in Hz. by rewrite nth_lookup, Hx in Hz.
Qed.

Lemma within_zero B l i : within B l → at_word B i = 0 → at_word l i = 0.
Proof. intros H E. pose proof (within_at B l i H). lia. Qed.

(** The number of the first [n] limbs, each a digit. *)
Lemma digits_below n l :
  length l = 24%nat → (n <= 24)%nat → (∀ i, (i < n)%nat → 0 <= at_word l i < 2 ^ 21) →
  0 <= weighted (take n sc_weights) (take n l) < 2 ^ (21 * Z.of_nat n).
Proof.
  intros Hl. induction n as [|n IH]; intros Hn Hd; [done|].
  destruct (lookup_lt_is_Some_2 l n ltac:(lia)) as [x Hx].
  destruct (lookup_lt_is_Some_2 sc_weights n ltac:(cbn; lia)) as [w Hw].
  rewrite (take_S_r l n x Hx), (take_S_r sc_weights n w Hw).
  rewrite weighted_app by (rewrite !length_take, Hl; done). cbn [weighted].
  pose proof (IH ltac:(lia) ltac:(intros; apply Hd; lia)) as R. pose proof (Hd n ltac:(lia)) as Hdn.
  assert (at_word l n = x) as Ex by (unfold at_word; by rewrite nth_lookup, Hx). rewrite Ex in Hdn.
  assert (w = 21 * Z.of_nat n) as -> by (rewrite <- sc_weights_at by lia; unfold at_word; by rewrite nth_lookup, Hw).
  replace (21 * Z.of_nat (S n)) with (21 * Z.of_nat n + 21) by lia. rewrite Z.pow_add_r by lia. nia.
Qed.

(** The number as the first [n] limbs and the next one. *)
Lemma sc_value_split l n :
  length l = 24%nat → (n < 24)%nat → (∀ i, (n < i)%nat → at_word l i = 0) →
  sc_value l = weighted (take n sc_weights) (take n l) + 2 ^ (21 * Z.of_nat n) * at_word l n.
Proof.
  intros Hl Hn Hz. rewrite <- sc_weights_at by done.
  assert (Hz' : ∀ i, (n <= i)%nat → at_word (<[n := 0]> l) i = 0).
  { intros i Hi. rewrite at_insert by lia. case_decide; [done|]. apply Hz. lia. }
  pose proof (sc_value_low (<[n := 0]> l) n ltac:(by rewrite length_insert) ltac:(lia) Hz') as E.
  unfold sc_value in *. rewrite weighted_insert in E by (rewrite Hl; done || lia). rewrite take_insert_ge in E by lia. lia.
Qed.

Definition zero_from (n : nat) (B : list Z) : bool := forallb (λ b, b =? 0) (drop n B).

Lemma zero_from_at n B i : zero_from n B = true → (n <= i)%nat → at_word B i = 0.
Proof.
  unfold zero_from. rewrite forallb_forall. intros H Hi. unfold at_word. rewrite nth_lookup.
  destruct (B !! i) as [b|] eqn:E; [|done]. apply Z.eqb_eq, H, list_elem_of_In, (list_elem_of_lookup_2 _ (i - n)).
  rewrite lookup_drop. by replace (n + (i - n))%nat with i by lia.
Qed.

(** The bounds [B] allow the last statements, on a number below 2^252. *)
Definition tail_check (B : list Z) : bool :=
  (weighted sc_weights B <? 2 ^ 252) && zero_from 12 B &&
  match run_bound (floor_bound (2 ^ 63 - 1) (λ _, 21)) (seq 0 12) B with
  | Some B1 =>
    zero_from 13 B1 &&
    match fold_bound 12 B1 with
    | Some B2 =>
      zero_from 12 B2 &&
      match run_bound (floor_bound (2 ^ 63 - 1) (λ _, 21)) (seq 0 11) B2 with
      | Some B3 => true
      | None => false
      end
    | None => false
    end
  | None => false
  end.

Lemma sc_chain n B B' l :
  within B l → length l = 24%nat → (n < 24)%nat → run_bound (floor_bound (2 ^ 63 - 1) (λ _, 21)) (seq 0 n) B = Some B' →
  ∃ l', run sc_run (Floor <$> seq 0 n) l = Ok l' ∧ within B' l' ∧ length l' = 24%nat ∧
    (∀ i, (i < n)%nat → 0 <= at_word l' i < 2 ^ 21) ∧ (∀ i, (n < i)%nat → at_word l' i = at_word l i) ∧
    sc_value l' = sc_value l.
Proof.
  intros HB Hl Hn HB'. rewrite run_floors.
  destruct (floor_chain int64 (2 ^ 63 - 1) (λ _, 21) sc_weights n B B' l) as (l' & Er & W & Hd & Hk & V); try done; try lia.
  - intros i Hi. rewrite !sc_weights_at by lia. lia.
  - by repeat constructor.
  - exists l'. split_and!; try done. rewrite <- (within_length _ _ W), <- Hl, <- (within_length _ _ HB).
    eapply run_bound_length; [|exact HB']. intros i. apply carry_bound_length.
Qed.

Lemma reduce_tail B l :
  within B l → length l = 24%nat → tail_check B = true →
  ∃ l', run sc_run ((Floor <$> seq 0 12) ++ [Fold 12] ++ (Floor <$> seq 0 11)) l = Ok l' ∧
    scalar_digits l' ∧ sc_value l' = sc_value l mod L25519.
Proof.
  intros HB Hl Hc. unfold tail_check in Hc. rewrite !andb_true_iff in Hc. destruct Hc as ((HV & Z0) & Hc).
  destruct (run_bound _ (seq 0 12) B) as [B1|] eqn:E1; [|done]. apply andb_prop in Hc as [Z1 Hc].
  destruct (fold_bound 12 B1) as [B2|] eqn:E2; [|done]. apply andb_prop in Hc as [Z2 Hc].
  destruct (run_bound _ (seq 0 11) B2) as [B3|] eqn:E3; [|done]. clear Hc.
  apply Z.ltb_lt in HV. pose proof (weighted_within sc_weights B l HB) as HA. fold (sc_value l) in HA.
  destruct (sc_chain 12 B B1 l) as (l1 & R1 & W1 & L1 & D1 & _ & V1); try done; [lia|].
  destruct (fold_limb_ok 12 B1 B2 l1) as (l2 & R2 & W2 & L2 & V2); try done; [lia|].
  destruct (sc_chain 11 B2 B3 l2) as (l3 & R3 & W3 & L3 & D3 & K3 & V3); try done; [lia|].
  exists l3. rewrite run_app, R1, bind_Ok, run_app. cbn [run sc_run]. rewrite R2, !bind_Ok, R3. split; [done|].
  assert (Zl2 : ∀ i, (12 <= i)%nat → at_word l2 i = 0).
  { intros i Hi. apply (within_zero B2 l2 i W2). by apply zero_from_at with 12%nat. }
  assert (Zl3 : ∀ i, (11 < i)%nat → at_word l3 i = 0) by (intros i Hi; rewrite K3 by done; apply Zl2; lia).
  pose proof (sc_value_split l1 12 L1 ltac:(lia)) as S1.
  pose proof (digits_below 12 l1 L1 ltac:(lia) D1) as R12.
  pose proof (sc_value_split l3 11 L3 ltac:(lia) Zl3) as S3.
  pose proof (digits_below 11 l3 L3 ltac:(lia) D3) as R11.
  change (2 ^ (21 * Z.of_nat 11)) with (2 ^ 231) in *. change (2 ^ (21 * Z.of_nat 12)) with (2 ^ 252) in *.
  change (2 ^ (21 * Z.of_nat (12 - 12))) with 1 in V2.
  pose proof V1 as V1'. rewrite S1 in V1' by (intros i Hi; apply (within_zero B1 l1 i W1); by apply zero_from_at with 13%nat).
  set (x := at_word l1 12) in *. set (D := weighted (take 12 _) _) in *. set (T := weighted (take 11 _) _) in *.
  set (V := sc_value l) in *. set (t := at_word l3 11) in *. apply Z.abs_le in HA.
  assert (HR : 0 <= V - x * L25519 < L25519).
  { assert (x = 0 ∨ x = -1) as [-> | ->] by lia; unfold L25519; lia. }
  assert (E : sc_value l3 = V mod L25519).
  { apply (Z.mod_unique_pos _ _ x); [|]; rewrite V3, V2; unfold L25519 in *; lia. }
  split; [|done]. split; [done|]. split; [done|]. split; [|intros i Hi; apply Zl3; lia].
  fold t. rewrite V3, V2 in S3. unfold L25519 in *. lia.
Qed.

(** ** Loads and stores *)

Lemma u8_i64 x : u8 (i64 x) = u8 x.
Proof.
  pose proof (wrap_swrap 64 x ltac:(lia)) as E. unfold wrap in E. unfold u8, wrap, i64.
  by rewrite <- (mod_mod_pow2 x 64 8), <- (mod_mod_pow2 (swrap 64 x) 64 8), E by lia.
Qed.

Lemma scalar_digits_list l : scalar_digits l →
  ∃ s0 s1 s2 s3 s4 s5 s6 s7 s8 s9 s10 s11 r, l = s0 :: s1 :: s2 :: s3 :: s4 :: s5 :: s6 :: s7 :: s8 :: s9 :: s10 :: s11 :: r ∧
    0 <= s0 < 2 ^ 21 ∧ 0 <= s1 < 2 ^ 21 ∧ 0 <= s2 < 2 ^ 21 ∧ 0 <= s3 < 2 ^ 21 ∧ 0 <= s4 < 2 ^ 21 ∧ 0 <= s5 < 2 ^ 21 ∧
    0 <= s6 < 2 ^ 21 ∧ 0 <= s7 < 2 ^ 21 ∧ 0 <= s8 < 2 ^ 21 ∧ 0 <= s9 < 2 ^ 21 ∧ 0 <= s10 < 2 ^ 21 ∧ 0 <= s11 <= 2 ^ 21.
Proof.
  intros (Hl & Hd & H11 & _). do 12 (destruct l as [|? l]; try (cbn in Hl; lia)). do 13 eexists. split; [reflexivity|].
  exact (conj (Hd 0%nat ltac:(lia)) (conj (Hd 1%nat ltac:(lia)) (conj (Hd 2%nat ltac:(lia)) (conj (Hd 3%nat ltac:(lia))
    (conj (Hd 4%nat ltac:(lia)) (conj (Hd 5%nat ltac:(lia)) (conj (Hd 6%nat ltac:(lia)) (conj (Hd 7%nat ltac:(lia))
    (conj (Hd 8%nat ltac:(lia)) (conj (Hd 9%nat ltac:(lia)) (conj (Hd 10%nat ltac:(lia)) H11))))))))))).
Qed.

Lemma sc_bytes_ok l : scalar_digits l → sc_bytes l = le_bytes 32 (sc_value l).
Proof.
  intros Hd. pose proof Hd as (Hl & _ & _ & Hz). rewrite (sc_value_low l 12 Hl ltac:(lia) Hz). clear Hl Hz.
  destruct (scalar_digits_list l Hd) as (s0&s1&s2&s3&s4&s5&s6&s7&s8&s9&s10&s11&r&->&?&?&?&?&?&?&?&?&?&?&?&?).
  unfold sc_bytes. cbn [at_word nth]. cbv zeta.
  set (s := [_; _; _; _; _; _; _; _; _; _; _; _; _; _; _; _; _; _; _; _; _; _; _; _; _; _; _; _; _; _; _; _]).
  assert (Hs : bytes_ok s) by (unfold s; repeat constructor; apply wrap_range; lia).
  assert (Ev : le_value s = weighted (take 12 sc_weights) (take 12 (s0 :: s1 :: s2 :: s3 :: s4 :: s5 :: s6 :: s7 :: s8 :: s9 :: s10 :: s11 :: r))).
  { unfold s. cbn [le_value take sc_weights weighted]. rewrite !peel by lia.
    rewrite !(join_byte i64) by first [apply u8_i64 | lia | by apply (shiftr_range _ 21)].
    rewrite !Z.shiftr_0_r. change (8 - 2) with 6. change (8 - 3) with 5. change (8 - 5) with 3. change (8 - 6) with 2.
    change (8 - 1) with 7. change (8 - 4) with 4. change (8 - 7) with 1.
    repeat match goal with |- context [Z.shiftr ?x (Z.add ?a ?b)] => let c := eval vm_compute in (a + b) in change (a + b) with c end.
    rewrite (shiftr_top s7 21), (shiftr_top s11 25) by lia. lia. }
  rewrite <- Ev. symmetry. exact (le_bytes_le_value s Hs).
Qed.

Lemma load_3_mod s : bytes_ok s → (3 <= length s)%nat → load_3 s = le_value s mod 2 ^ 24.
Proof.
  intros Hok Hl. do 3 (destruct s as [|? s]; [cbn in Hl; lia|]). unfold bytes_ok in Hok. rewrite !Forall_cons in Hok.
  destruct Hok as (Ha & Hb & Hc & Hs). rewrite load_3_value by done. unfold is_u8, is_unsigned in *.
  cbn [le_value]. apply (Z.mod_unique_pos _ _ (le_value s)); lia.
Qed.

Lemma load_4_mod s : bytes_ok s → (4 <= length s)%nat → load_4 s = le_value s mod 2 ^ 32.
Proof.
  intros Hok Hl. do 4 (destruct s as [|? s]; [cbn in Hl; lia|]). unfold bytes_ok in Hok. rewrite !Forall_cons in Hok.
  destruct Hok as (Ha & Hb & Hc & Hd & Hs). rewrite load_4_value by done. unfold is_u8, is_unsigned in *.
  cbn [le_value]. apply (Z.mod_unique_pos _ _ (le_value s)); lia.
Qed.

(** A limb of 21 bits at the bit [8 k + r]. *)
Lemma limb_of_word v k r n :
  0 <= k → 0 <= r → r + 21 <= n →
  Z.land 2097151 (Z.shiftr (v / 2 ^ k mod 2 ^ n) r) = v / 2 ^ (k + r) mod 2 ^ 21.
Proof.
  intros Hk Hr Hn. rewrite Z.land_comm. change 2097151 with (Z.ones 21).
  apply Z.bits_inj'. intros i Hi. rewrite land_low, <- !Z.land_ones by lia.
  rewrite !Z.land_spec, Z.shiftr_spec, Z.land_spec, <- !Z.shiftr_div_pow2, !Z.shiftr_spec by lia.
  destruct (Z.lt_ge_cases i 21).
  - rewrite (Z.ones_spec_low 21 i), (Z.ones_spec_low n (i + r)) by lia. rewrite !andb_true_r. f_equal. lia.
  - rewrite (Z.ones_spec_high 21 i) by lia. by rewrite !andb_false_r.
Qed.

Lemma limb_of_low x : Z.land 2097151 (x mod 2 ^ 24) = x mod 2 ^ 21.
Proof. rewrite Z.land_comm. change 2097151 with (Z.ones 21). rewrite land_low by lia. by apply mod_mod_pow2. Qed.

Definition digit21 (v : Z) (i : nat) : Z := v / 2 ^ (21 * Z.of_nat i) mod 2 ^ 21.

Lemma digits21_sum v n : (n <= 23)%nat → 0 <= v →
  weighted (take (S n) sc_weights) ((digit21 v <$> seq 0 n) ++ [v / 2 ^ (21 * Z.of_nat n)]) = v.
Proof.
  intros Hn Hv. induction n as [|n IH].
  - cbn. rewrite Z.div_1_r. lia.
  - destruct (lookup_lt_is_Some_2 sc_weights (S n) ltac:(cbn; lia)) as [w Hw].
    assert (w = 21 * Z.of_nat (S n)) as -> by (rewrite <- sc_weights_at by lia; unfold at_word; by rewrite nth_lookup, Hw).
    rewrite (take_S_r sc_weights (S n) _ Hw), weighted_app by (rewrite length_take, length_fmap, length_seq; cbn [length sc_weights]; lia).
    specialize (IH ltac:(lia)).
    destruct (lookup_lt_is_Some_2 sc_weights n ltac:(cbn; lia)) as [w' Hw'].
    assert (w' = 21 * Z.of_nat n) as -> by (rewrite <- sc_weights_at by lia; unfold at_word; by rewrite nth_lookup, Hw').
    rewrite (take_S_r sc_weights n _ Hw') in IH |- *. rewrite seq_S, fmap_app. cbn [fmap list_fmap Nat.add].
    rewrite weighted_app in IH |- * by (rewrite length_take, length_fmap, length_seq; cbn [length sc_weights]; lia).
    cbn [weighted] in IH |- *. unfold digit21 at 2.
    replace (21 * Z.of_nat (S n)) with (21 * Z.of_nat n + 21) by lia.
    rewrite Z.pow_add_r, <- Z.div_div by lia.
    pose proof (Z.div_mod (v / 2 ^ (21 * Z.of_nat n)) (2 ^ 21) ltac:(lia)). nia.
Qed.

(** The limbs that the loads read, by their shape. *)
Ltac load_digit s Hok :=
  rewrite ?load_3_mod, ?load_4_mod, ?le_value_drop by
    (try (apply bytes_ok_drop; exact Hok); try exact Hok; rewrite ?length_drop; lia);
  rewrite ?limb_of_word by lia.

Lemma reduce_limbs_digits s :
  length s = 64%nat → bytes_ok s → reduce_limbs s = (digit21 (le_value s) <$> seq 0 23) ++ [le_value s / 2 ^ 483].
Proof.
  intros Hl Hok. unfold reduce_limbs. load_digit s Hok. set (v := le_value s).
  assert (Hv : 0 <= v < 2 ^ 512) by (pose proof (le_value_range s Hok) as R; rewrite Hl in R; exact R).
  rewrite !limb_of_low. cbn [seq fmap list_fmap app].
  assert (E23 : Z.shiftr (v / 2 ^ (8 * Z.of_nat 60) mod 2 ^ 32) 3 = v / 2 ^ 483).
  { change (8 * Z.of_nat 60) with 480. rewrite shiftr_div by lia. rewrite Z.mod_small.
    - rewrite Z.div_div by lia. done.
    - split; [apply Z.div_pos; lia|apply Z.div_lt_upper_bound; lia]. }
  rewrite E23. unfold digit21. rewrite (Z.div_1_r v : v / 2 ^ (21 * Z.of_nat 0) = v). reflexivity.
Qed.

Lemma scalar_limbs_digits s :
  length s = 32%nat → bytes_ok s → scalar_limbs s = (digit21 (le_value s) <$> seq 0 11) ++ [le_value s / 2 ^ 231].
Proof.
  intros Hl Hok. unfold scalar_limbs. load_digit s Hok. set (v := le_value s).
  assert (Hv : 0 <= v < 2 ^ 256) by (pose proof (le_value_range s Hok) as R; rewrite Hl in R; exact R).
  rewrite !limb_of_low. cbn [seq fmap list_fmap app].
  assert (E11 : Z.shiftr (v / 2 ^ (8 * Z.of_nat 28) mod 2 ^ 32) 7 = v / 2 ^ 231).
  { change (8 * Z.of_nat 28) with 224. rewrite shiftr_div by lia. rewrite Z.mod_small.
    - rewrite Z.div_div by lia. done.
    - split; [apply Z.div_pos; lia|apply Z.div_lt_upper_bound; lia]. }
  rewrite E11. unfold digit21. rewrite (Z.div_1_r v : v / 2 ^ (21 * Z.of_nat 0) = v). reflexivity.
Qed.

Lemma within_replicate b l n : length l = n → Forall (λ x, Z.abs x <= b) l → within (replicate n b) l.
Proof. intros <- H. induction H; cbn; constructor; done. Qed.

Lemma digit21_bound v i : Z.abs (digit21 v i) <= 2 ^ 21.
Proof. unfold digit21. pose proof (Z.mod_pos_bound (v / 2 ^ (21 * Z.of_nat i)) (2 ^ 21) ltac:(lia)). lia. Qed.

Lemma digits_within v n t b : Z.abs t <= b →
  within (replicate n (2 ^ 21) ++ [b]) ((digit21 v <$> seq 0 n) ++ [t]).
Proof.
  intros Ht. apply Forall2_app; [|by repeat constructor].
  apply within_replicate; [by rewrite length_fmap, length_seq|]. apply Forall_fmap, Forall_true. intros i. apply digit21_bound.
Qed.

Lemma i64_within B l : within B l → Forall (λ b, b <= 2 ^ 63 - 1) B → i64 <$> l = l.
Proof.
  induction 1 as [|b x B l Hx _ IH]; intros H; [done|]. apply Forall_cons in H as [Hb H].
  cbn. rewrite IH by done. f_equal. apply i64_id. split; lia.
Qed.

(** From a front part within its bounds to the bytes. *)
Lemma reduce_ok steps B B' l :
  within B l → length l = 24%nat → forallb step_fits (steps ++ front_steps) = true →
  run_bound sc_bound (steps ++ front_steps) B = Some B' → tail_check B' = true →
  returns (run sc_run (steps ++ reduce_steps) l) (λ l', sc_bytes l' = le_bytes 32 (sc_value l mod L25519)).
Proof.
  intros HB Hl Hf HB' Hc. destruct (sc_steps_ok _ B B' l Hf HB Hl HB') as (l1 & R1 & W1 & L1 & V1).
  destruct (reduce_tail B' l1 W1 L1 Hc) as (l2 & R2 & D2 & V2). exists l2.
  rewrite reduce_steps_split, app_assoc, run_app, R1, bind_Ok. split; [done|].
  rewrite sc_bytes_ok by done. by rewrite V2, (eql_mod _ _ V1).
Qed.

Lemma sc_reduce_ok s :
  length s = 64%nat → bytes_ok s → sc_reduce s = Ok (le_bytes 32 (le_value s mod L25519) ++ drop 32 s).
Proof.
  intros Hl Hok. unfold sc_reduce. rewrite reduce_limbs_digits by done. set (v := le_value s).
  assert (Hv : 0 <= v < 2 ^ 512) by (pose proof (le_value_range s Hok) as R; rewrite Hl in R; exact R).
  set (l := _ ++ [_]). assert (HB : within (replicate 23 (2 ^ 21) ++ [2 ^ 29]) l).
  { apply digits_within. rewrite Z.abs_eq by (apply Z.div_pos; lia). apply Z.lt_le_incl, Z.div_lt_upper_bound; lia. }
  rewrite (i64_within _ l HB) by (cbn; repeat constructor; lia).
  destruct (reduce_ok [] (replicate 23 (2 ^ 21) ++ [2 ^ 29])
    (default [] (run_bound sc_bound front_steps (replicate 23 (2 ^ 21) ++ [2 ^ 29]))) l) as (l' & E & Eb);
    [done| |by vm_compute|by vm_compute|by vm_compute|].
  { unfold l. by rewrite length_app, length_fmap, length_seq. }
  cbn [app] in E. rewrite E, bind_Ok, Eb.
  assert (sc_value l = v) as -> by exact (digits21_sum v 23 ltac:(lia) ltac:(lia)). done.
Qed.

(** ** The products *)

Fixpoint dot (ps : list (Z * Z)) : Z := match ps with [] => 0 | p :: ps => p.1 * p.2 + dot ps end.

Lemma madd64_ok ps : ∀ c b,
  Z.abs c <= b → Forall (λ p, Z.abs p.1 <= 2 ^ 25 ∧ Z.abs p.2 <= 2 ^ 25) ps → b + 2 ^ 50 * Z.of_nat (length ps) <= 2 ^ 63 - 1 →
  madd64 c ps = Ok (c + dot ps) ∧ Z.abs (c + dot ps) <= b + 2 ^ 50 * Z.of_nat (length ps).
Proof.
  induction ps as [|[x y] ps IH]; intros c b Hc Hp Hb; cbn [dot length fst snd] in *.
  - unfold madd64. cbn. split; [f_equal|]; lia.
  - apply Forall_cons in Hp as [[Hx Hy] Hp]. cbn [fst snd] in *.
    pose proof (mul_bound x y (2 ^ 25) (2 ^ 25) Hx Hy) as Hm.
    destruct (IH (c + x * y) (b + 2 ^ 50)) as [E R]; [lia|done|lia|].
    unfold madd64 in *. cbn [foldl fst snd]. rewrite bind_Ok. unfold mul64 at 2, add64 at 2.
    rewrite int64_ok, bind_Ok, int64_ok by lia. rewrite E. split; [f_equal|]; lia.
Qed.

Lemma step_madd64 {A} c ps (k : Z → result A) (Q : A → Prop) :
  Z.abs c <= 2 ^ 25 → Forall (λ p, Z.abs p.1 <= 2 ^ 25 ∧ Z.abs p.2 <= 2 ^ 25) ps → (length ps <= 12)%nat →
  (∀ z, z = c + dot ps → Z.abs z <= 2 ^ 54 → returns (k z) Q) → returns (madd64 c ps ≫= k) Q.
Proof.
  intros Hc Hp Hl H. destruct (madd64_ok ps c (2 ^ 25) Hc Hp) as [-> R]; [lia|]. apply H; [done|]. lia.
Qed.

Lemma step_dot64 {A} ps (k : Z → result A) (Q : A → Prop) :
  Forall (λ p, Z.abs p.1 <= 2 ^ 25 ∧ Z.abs p.2 <= 2 ^ 25) ps → (0 < length ps <= 12)%nat →
  (∀ z, z = dot ps → Z.abs z <= 2 ^ 54 → returns (k z) Q) → returns (dot64 ps ≫= k) Q.
Proof.
  intros Hp Hl H. destruct ps as [|[x y] ps]; [cbn in Hl; lia|]. apply Forall_cons in Hp as [[Hx Hy] Hp]. cbn [fst snd length] in *.
  pose proof (mul_bound x y (2 ^ 25) (2 ^ 25) Hx Hy) as Hm. unfold dot64, mul64. cbn [fst snd].
  rewrite int64_ok, bind_Ok by lia. destruct (madd64_ok ps (x * y) (2 ^ 50)) as [-> R]; [lia|done|lia|].
  apply H; [done|]. cbn [dot fst snd]. lia.
Qed.

Lemma twelve_limbs f : length f = 12%nat → Forall (λ x, Z.abs x <= 2 ^ 25) f →
  ∃ f0 f1 f2 f3 f4 f5 f6 f7 f8 f9 f10 f11, f = [f0; f1; f2; f3; f4; f5; f6; f7; f8; f9; f10; f11] ∧
    Z.abs f0 <= 2 ^ 25 ∧ Z.abs f1 <= 2 ^ 25 ∧ Z.abs f2 <= 2 ^ 25 ∧ Z.abs f3 <= 2 ^ 25 ∧ Z.abs f4 <= 2 ^ 25 ∧ Z.abs f5 <= 2 ^ 25 ∧
    Z.abs f6 <= 2 ^ 25 ∧ Z.abs f7 <= 2 ^ 25 ∧ Z.abs f8 <= 2 ^ 25 ∧ Z.abs f9 <= 2 ^ 25 ∧ Z.abs f10 <= 2 ^ 25 ∧ Z.abs f11 <= 2 ^ 25.
Proof.
  intros Hl Hf. do 13 (destruct f as [|? f]; try done). rewrite !Forall_cons in Hf. do 12 eexists. split; [done|]. tauto.
Qed.

Ltac step_scalar :=
  match goal with
  | |- returns (madd64 _ _ ≫= _) _ =>
      apply step_madd64; [assumption|repeat (constructor; [split; assumption|]); constructor|cbn [length]; lia|intros ? ? ?; cbv beta]
  | |- returns (dot64 _ ≫= _) _ =>
      apply step_dot64; [repeat (constructor; [split; assumption|]); constructor|cbn [length]; lia|intros ? ? ?; cbv beta]
  end.

Lemma muladd_products_ok a b c :
  length a = 12%nat → length b = 12%nat → length c = 12%nat →
  Forall (λ x, Z.abs x <= 2 ^ 25) a → Forall (λ x, Z.abs x <= 2 ^ 25) b → Forall (λ x, Z.abs x <= 2 ^ 25) c →
  let w := take 12 sc_weights in
  returns (muladd_products a b c) (λ s, length s = 24%nat ∧ within (replicate 23 (2 ^ 54) ++ [0]) s ∧
    sc_value s = weighted w a * weighted w b + weighted w c).
Proof.
  intros La Lb Lc Ha Hb Hc w.
  destruct (twelve_limbs a La Ha) as (a0&a1&a2&a3&a4&a5&a6&a7&a8&a9&a10&a11&->&?&?&?&?&?&?&?&?&?&?&?&?).
  destruct (twelve_limbs b Lb Hb) as (b0&b1&b2&b3&b4&b5&b6&b7&b8&b9&b10&b11&->&?&?&?&?&?&?&?&?&?&?&?&?).
  destruct (twelve_limbs c Lc Hc) as (c0&c1&c2&c3&c4&c5&c6&c7&c8&c9&c10&c11&->&?&?&?&?&?&?&?&?&?&?&?&?).
  clear La Lb Lc Ha Hb Hc. unfold muladd_products. cbv zeta. cbn [at_word nth]. repeat step_scalar.
  apply returns_Ok. split; [done|]. split.
  - cbn [replicate app]. unfold within. repeat (constructor; [assumption|]). by repeat constructor.
  - subst w. subst. unfold sc_value. cbn [sc_weights take weighted dot fst snd]. ring.
Qed.

Lemma scalar_limbs_ok s :
  length s = 32%nat → bytes_ok s →
  i64 <$> scalar_limbs s = scalar_limbs s ∧ length (scalar_limbs s) = 12%nat ∧
  Forall (λ x, Z.abs x <= 2 ^ 25) (scalar_limbs s) ∧ weighted (take 12 sc_weights) (scalar_limbs s) = le_value s.
Proof.
  intros Hl Hok. rewrite scalar_limbs_digits by done. set (v := le_value s).
  assert (Hv : 0 <= v < 2 ^ 256) by (pose proof (le_value_range s Hok) as R; rewrite Hl in R; exact R).
  assert (Ht : Z.abs (v / 2 ^ 231) <= 2 ^ 25).
  { rewrite Z.abs_eq by (apply Z.div_pos; lia). apply Z.lt_le_incl, Z.div_lt_upper_bound; lia. }
  pose proof (digits_within v 11 _ _ Ht) as HB. split_and!.
  - apply (i64_within _ _ HB). cbn. repeat constructor; lia.
  - by rewrite length_app, length_fmap, length_seq.
  - apply Forall_app; split; [|by constructor]. apply Forall_fmap, Forall_true. intros i. cbn.
    pose proof (digit21_bound v i). lia.
  - exact (digits21_sum v 11 ltac:(lia) ltac:(lia)).
Qed.

Lemma sc_muladd_ok a b c :
  length a = 32%nat → length b = 32%nat → length c = 32%nat → bytes_ok a → bytes_ok b → bytes_ok c →
  sc_muladd a b c = Ok (le_bytes 32 ((le_value a * le_value b + le_value c) mod L25519)).
Proof.
  intros La Lb Lc Ha Hb Hc. unfold sc_muladd.
  destruct (scalar_limbs_ok a La Ha) as (-> & Na & Ba & Va).
  destruct (scalar_limbs_ok b Lb Hb) as (-> & Nb & Bb & Vb).
  destruct (scalar_limbs_ok c Lc Hc) as (-> & Nc & Bc & Vc).
  destruct (muladd_products_ok _ _ _ Na Nb Nc Ba Bb Bc) as (s & -> & Ls & Ws & Vs). rewrite bind_Ok.
  destruct (reduce_ok muladd_carries (replicate 23 (2 ^ 54) ++ [0])
    (default [] (run_bound sc_bound (muladd_carries ++ front_steps) (replicate 23 (2 ^ 54) ++ [0]))) s) as (l' & -> & Eb);
    [done|done|by vm_compute|by vm_compute|by vm_compute|].
  rewrite bind_Ok, Eb, Vs, Va, Vb, Vc. done.
Qed.

(** ** Properties *)

(** C26: The scalar arithmetic is arithmetic modulo the group order.  For every 64
    bytes, [sc_reduce] performs no signed overflow, replaces the first 32 bytes
    by the little-endian number of the input modulo L and keeps the rest; for all
    32-byte [a], [b], [c], [sc_muladd] performs no overflow and gives
    [(a b + c) mod L], canonical: its number is below L. *)
Theorem sc_arithmetic_correct :
  (∀ s, length s = 64%nat → bytes_ok s →
    sc_reduce s = Ok (le_bytes 32 (le_value s mod L25519) ++ drop 32 s)) ∧
  (∀ a b c, length a = 32%nat → length b = 32%nat → length c = 32%nat → bytes_ok a → bytes_ok b → bytes_ok c →
    ∃ s, sc_muladd a b c = Ok s ∧ length s = 32%nat ∧ bytes_ok s ∧
      le_value s = (le_value a * le_value b + le_value c) mod L25519).
Proof.
  split; [apply sc_reduce_ok|]. intros a b c La Lb Lc Ha Hb Hc. eexists. split; [by apply sc_muladd_ok|].
  split; [apply length_le_bytes|]. split; [apply le_bytes_ok|].
  rewrite le_value_le_bytes. apply Z.mod_small.
  pose proof (Z.mod_pos_bound (le_value a * le_value b + le_value c) L25519 ltac:(done)). unfold L25519 in *. lia.
Qed.

(** L - 1 times itself plus L - 1. *)
Lemma sc_arithmetic_correct_witness :
  let m := le_bytes 32 (L25519 - 1) in
  (∃ s, sc_muladd m m m = Ok s ∧ le_value s = 0) ∧ sc_reduce (m ++ replicate 32 0) = Ok (m ++ replicate 32 0).
Proof.
  intros m. assert (Hl : length m = 32%nat) by reflexivity.
  assert (Hok : bytes_ok m) by apply le_bytes_ok. split.
  - destruct (proj2 sc_arithmetic_correct m m m Hl Hl Hl Hok Hok Hok) as (s & E & _ & _ & V).
    exists s. split; [exact E|]. rewrite V. vm_compute. reflexivity.
  - rewrite (proj1 sc_arithmetic_correct (m ++ replicate 32 0)).
    + vm_compute. reflexivity.
    + reflexivity.
    + apply bytes_ok_app. split; [exact Hok|]. by repeat constructor.
Defined.
