(* ===== verification/Primes.v ===== *)
(** * Primes: certificates for the two primes of the curve

    The field of the curve is the integers modulo [P25519].  That this number is
    prime is what makes [fe_invert] an inverse and [fe_pow22523] a square root.
    The order [L25519] of the base point is prime too.
    Both are proved by Pocklington's criterion: [n] is prime when the prime factors
    of a divisor of [n - 1] above the square root of [n] pass two tests on the
    powers of one base.  The powers are computed with machine-integer big
    numbers, and the factors of the factors down to trial division. *)
From S2P Require Import Prelude Limbs Fe25519 Sc25519.
From Stdlib Require Import Znumtheory Zmod.Zmod.
From Bignums Require Import BigZ.

(** ** Powers modulo a number *)

Fixpoint big_pow_mod (n a : BigZ.t) (e : positive) : BigZ.t :=
  match e with
  | xH => BigZ.modulo a n
  | xO e => let b := big_pow_mod n a e in BigZ.modulo (BigZ.mul b b) n
  | xI e => let b := big_pow_mod n a e in BigZ.modulo (BigZ.mul (BigZ.mul b b) a) n
  end.

Definition pow_mod (a e n : Z) : Z :=
  match e with
  | Zpos e => BigZ.to_Z (big_pow_mod (BigZ.of_Z n) (BigZ.of_Z a) e)
  | _ => 1 mod n
  end.

Lemma big_pow_mod_spec n a e :
  BigZ.to_Z (big_pow_mod n a e) = BigZ.to_Z a ^ Zpos e mod BigZ.to_Z n.
Proof.
  induction e as [e IH|e IH|]; cbn [big_pow_mod].
  - rewrite BigZ.spec_modulo, !BigZ.spec_mul, IH, (Pos2Z.inj_xI e).
    rewrite Z.pow_add_r, Z.pow_1_r, Z.pow_twice_r by lia.
    by rewrite <- Zmult_mod_idemp_l, <- Zmult_mod, Zmult_mod_idemp_l.
  - rewrite BigZ.spec_modulo, BigZ.spec_mul, IH, (Pos2Z.inj_xO e).
    by rewrite Z.pow_twice_r, <- Zmult_mod.
  - by rewrite BigZ.spec_modulo, Z.pow_1_r.
Qed.

Lemma pow_mod_spec a e n : 0 <= e → pow_mod a e n = a ^ e mod n.
Proof. destruct e; [done| |done]. intros _. unfold pow_mod. by rewrite big_pow_mod_spec, !BigZ.spec_of_Z. Qed.

(** ** Prime divisors *)

Lemma prime_divisor n : 1 < n → ∃ r, Z.prime r ∧ (r | n).
Proof.
  induction n as [n IH] using (well_founded_induction (Z.lt_wf 0)). intros Hn.
  destruct (prime_dec n) as [Hp|Hp]; [exists n; split; [by apply prime_alt|done]|].
  destruct (not_prime_divide n Hn Hp) as (u & Hu & Hd).
  destruct (IH u) as (r & Hr & Hru); [lia|lia|]. exists r. split; [done|]. by transitivity u.
Qed.

Lemma small_prime_divisor n : 1 < n → ~ Z.prime n → ∃ r, Z.prime r ∧ (r | n) ∧ r * r <= n.
Proof.
  intros Hn Hp. destruct (not_prime_divide n Hn) as (u & Hu & v & Huv); [by rewrite <- prime_alt|].
  assert (∃ d, 1 < d ∧ (d | n) ∧ d * d <= n) as (d & Hd & Hdn & Hdd).
  { assert (1 < v) by nia. destruct (Z.le_ge_cases u v).
    - exists u. split; [lia|]. split; [by exists v|nia].
    - exists v. split; [lia|]. split; [exists u; lia|nia]. }
  destruct (prime_divisor d Hd) as (r & Hr & Hrd). exists r. split; [done|].
  split; [by transitivity d|]. pose proof (Z.prime_ge_2 r Hr). apply Z.divide_pos_le in Hrd; nia.
Qed.

Definition trial_division (k : nat) (n : Z) : bool :=
  (1 <? n) && (n <? Z.of_nat k * Z.of_nat k) && forallb (λ d, negb (n mod Z.of_nat d =? 0)) (seq 2 (k - 2)).

Lemma trial_division_prime k n : trial_division k n = true → Z.prime n.
Proof.
  unfold trial_division. rewrite !andb_true_iff, Z.ltb_lt, Z.ltb_lt, forallb_forall. intros ((Hn & Hk) & H).
  destruct (prime_dec n) as [Hp|Hp]; [by apply prime_alt|]. rewrite <- prime_alt in Hp.
  destruct (small_prime_divisor n Hn Hp) as (r & Hr & Hd & Hrr). pose proof (Z.prime_ge_2 r Hr).
  specialize (H (Z.to_nat r)). rewrite in_seq, Z2Nat.id in H by lia.
  rewrite Z.mod0_divide in H by done. discriminate H. nia.
Qed.

(** ** Pocklington's criterion *)

(** A number whose [q]-th power is 1 and that is not 1 modulo [r] has order [q]. *)
Lemma order_divides r q b :
  Z.prime r → Z.prime q → b ^ q mod r = 1 → b mod r ≠ 1 → (q | r - 1).
Proof.
  intros Hr Hq Hbq Hb. pose proof (Z.prime_ge_2 r Hr). pose proof (Z.prime_ge_2 q Hq).
  destruct (decide ((r - 1) mod q = 0)) as [E|E]; [by apply Z.mod_divide; [lia|]|]. exfalso. apply Hb.
  assert (Hc : Z.coprime q (r - 1)) by (apply Z.coprime_prime_l; [done|]; by intros ?%Z.mod0_divide).
  apply Z.Bezout_coprime_iff in Hc. destruct Hc as (u & v & Huv).
  set (k := Z.abs u + Z.abs v). set (w := k * q - v).
  assert (Hw : (u + k * (r - 1)) * q = 1 + w * (r - 1)) by (unfold w; lia).
  assert (Hk : 0 <= k ∧ v <= k ∧ - u <= k) by lia.
  assert (k * 1 <= k * q ∧ k * 1 <= k * (r - 1)) as [??] by (split; apply Z.mul_le_mono_nonneg_l; lia).
  assert (0 <= w ∧ 0 <= u + k * (r - 1)) as [??] by (unfold w; lia). clearbody w k.
  assert (b mod r ≠ 0).
  { intros E0. rewrite <- Z.mod_pow_l, E0, Z.pow_0_l, Z.mod_0_l in Hbq by lia. lia. }
  assert (Hf : b ^ (r - 1) mod r = 1) by (rewrite Z.sub_1_r; by apply Z.fermat_nz).
  assert (E1 : b ^ ((u + k * (r - 1)) * q) mod r = 1).
  { rewrite Z.mul_comm, Z.pow_mul_r, <- Z.mod_pow_l, Hbq, Z.pow_1_l, Z.mod_1_l; lia. }
  rewrite Hw, Z.pow_add_r, Z.pow_1_r, Z.mul_comm, (Z.mul_comm w), Z.pow_mul_r in E1 by nia.
  by rewrite <- Zmult_mod_idemp_l, <- Z.mod_pow_l, Hf, Z.pow_1_l, Z.mod_1_l, Z.mul_1_l in E1 by lia.
Qed.

Definition product (qs : list Z) : Z := foldr Z.mul 1 qs.

Lemma product_divides qs m :
  NoDup qs → Forall Z.prime qs → Forall (λ q, (q | m)) qs → (product qs | m).
Proof.
  revert m. induction qs as [|q qs IH]; intros m Hn Hp Hd; [apply Z.divide_1_l|].
  apply NoDup_cons in Hn as [Hq Hn]. apply Forall_cons in Hp as [Hpq Hp]. apply Forall_cons in Hd as [Hdq Hd].
  destruct Hdq as [c ->]. cbn. rewrite Z.mul_comm. apply Z.mul_divide_mono_r, IH; [done..|].
  rewrite Forall_forall in *. intros q' Hin. pose proof (Hp q' Hin) as Hp'.
  destruct (proj1 (Z.divide_prime_mul c q q' Hp') (Hd q' Hin)) as [?|Hdiv]; [done|].
  apply Z.divide_prime_prime in Hdiv; [|done..]. by subst q'.
Qed.

Definition pocklington (a n : Z) (qs : list Z) : bool :=
  (1 <? n) && (n <? product qs * product qs) && bool_decide (NoDup qs) &&
  (pow_mod a (n - 1) n =? 1) &&
  forallb (λ q, ((n - 1) mod q =? 0) && (Z.gcd (pow_mod a ((n - 1) / q) n - 1) n =? 1)) qs.

Theorem pocklington_prime a n qs : pocklington a n qs = true → Forall Z.prime qs → Z.prime n.
Proof.
  unfold pocklington. rewrite !andb_true_iff, !Z.ltb_lt, Z.eqb_eq, forallb_forall, bool_decide_eq_true.
  intros ((((Hn & Hlt) & Hdup) & Ha) & Hall) Hqs. rewrite pow_mod_spec in Ha by lia.
  destruct (prime_dec n) as [Hp|Hp]; [by apply prime_alt|]. rewrite <- prime_alt in Hp. exfalso.
  destruct (small_prime_divisor n Hn Hp) as (r & Hr & Hd & Hrr). pose proof (Z.prime_ge_2 r Hr).
  assert (Hdiv : (product qs | r - 1)).
  { apply product_divides; [done..|]. rewrite Forall_forall in *. intros q Hq. pose proof (Z.prime_ge_2 q (Hqs q Hq)).
    specialize (Hall q (proj1 (list_elem_of_In _ _) Hq)). rewrite andb_true_iff, !Z.eqb_eq in Hall.
    destruct Hall as [Hqn Hg]. apply Z.mod_divide in Hqn; [|lia]. destruct Hqn as [c Hc].
    rewrite Hc, Z.div_mul in Hg by lia. rewrite pow_mod_spec in Hg by nia.
    apply (order_divides r q (a ^ c)); [done|by apply Hqs| |].
    - rewrite <- Z.pow_mul_r, <- Hc by nia.
      rewrite <- (Z.mod_mod_divide _ n r), Ha by done. apply Z.mod_1_l. lia.
    - intros E. enough (Hr1 : (r | 1)) by (apply Z.divide_pos_le in Hr1; lia). rewrite <- Hg.
      apply Z.gcd_greatest; [|done]. apply Z.mod_divide; [lia|].
      by rewrite Zminus_mod, Z.mod_mod_divide, E, Zminus_mod_idemp_r by done. }
  apply Z.absle_divide in Hdiv; [|lia]. nia.
Qed.

(** ** The prime of the field *)

Ltac by_trials k := apply (trial_division_prime k); reflexivity.
Ltac by_powers qs := apply (pocklington_prime 2 _ qs); [vm_compute; reflexivity|rewrite ?Forall_cons, Forall_nil; auto with primes].

Create HintDb primes.

Lemma prime_97 : Z.prime 97.
Proof. by_trials 10%nat. Qed.
#[export] Hint Resolve prime_97 : primes.

Lemma prime_103 : Z.prime 103.
Proof. by_trials 11%nat. Qed.
#[export] Hint Resolve prime_103 : primes.

Lemma prime_127 : Z.prime 127.
Proof. by_trials 12%nat. Qed.
#[export] Hint Resolve prime_127 : primes.

Lemma prime_173 : Z.prime 173.
Proof. by_trials 14%nat. Qed.
#[export] Hint Resolve prime_173 : primes.

Lemma prime_419 : Z.prime 419.
Proof. by_trials 21%nat. Qed.
#[export] Hint Resolve prime_419 : primes.

Lemma prime_991 : Z.prime 991.
Proof. by_trials 32%nat. Qed.
#[export] Hint Resolve prime_991 : primes.

Lemma prime_1723 : Z.prime 1723.
Proof. by_trials 42%nat. Qed.
#[export] Hint Resolve prime_1723 : primes.

Lemma prime_8574133 :
  Z.prime 8574133.
Proof. by_powers [991; 103]. Qed.
#[export] Hint Resolve prime_8574133 : primes.

Lemma prime_51_bits :
  Z.prime 1919519569386763.
Proof. by_powers [8574133; 127]. Qed.
#[export] Hint Resolve prime_51_bits : primes.

Lemma prime_569003 :
  Z.prime 569003.
Proof. by_powers [419; 97]. Qed.
#[export] Hint Resolve prime_569003 : primes.

Lemma prime_32_bits :
  Z.prime 2773320623.
Proof. by_powers [569003]. Qed.
#[export] Hint Resolve prime_32_bits : primes.

Lemma prime_37_bits :
  Z.prime 72106336199.
Proof. by_powers [2773320623]. Qed.
#[export] Hint Resolve prime_37_bits : primes.

Lemma prime_116_bits :
  Z.prime 75445702479781427272750846543864801.
Proof. by_powers [1919519569386763; 72106336199]. Qed.
#[export] Hint Resolve prime_116_bits : primes.

Lemma prime_430751 :
  Z.prime 430751.
Proof. by_powers [1723]. Qed.
#[export] Hint Resolve prime_430751 : primes.

Lemma prime_4153 :
  Z.prime 4153.
Proof. by_powers [173]. Qed.
#[export] Hint Resolve prime_4153 : primes.

Lemma prime_55_bits :
  Z.prime 31757755568855353.
Proof. by_powers [430751; 4153]. Qed.
#[export] Hint Resolve prime_55_bits : primes.

Lemma prime_236_bits :
  Z.prime 74058212732561358302231226437062788676166966415465897661863160754340907.
Proof. by_powers [75445702479781427272750846543864801; 31757755568855353]. Qed.
#[export] Hint Resolve prime_236_bits : primes.

Theorem P25519_prime : Z.prime P25519.
Proof.
  by_powers [74058212732561358302231226437062788676166966415465897661863160754340907].
Qed.

(** ** The order of the base point *)

Lemma prime_73 : Z.prime 73.
Proof. by_trials 9%nat. Qed.
#[export] Hint Resolve prime_73 : primes.

Lemma prime_2551 : Z.prime 2551.
Proof. by_trials 51%nat. Qed.
#[export] Hint Resolve prime_2551 : primes.

Lemma prime_1224481 :
  Z.prime 1224481.
Proof. by_powers [2551]. Qed.
#[export] Hint Resolve prime_1224481 : primes.

Lemma prime_3797 :
  Z.prime 3797.
Proof. by_powers [73]. Qed.
#[export] Hint Resolve prime_3797 : primes.

Lemma prime_531581 :
  Z.prime 531581.
Proof. by_powers [3797]. Qed.
#[export] Hint Resolve prime_531581 : primes.

Lemma prime_51_bits_L :
  Z.prime 1257559732178653.
Proof. by_powers [1224481; 531581]. Qed.
#[export] Hint Resolve prime_51_bits_L : primes.

Lemma prime_62_bits :
  Z.prime 4434155615661930479.
Proof. by_powers [1257559732178653]. Qed.
#[export] Hint Resolve prime_62_bits : primes.

Lemma prime_88_bits :
  Z.prime 172054593956031949258510691.
Proof. by_powers [4434155615661930479]. Qed.
#[export] Hint Resolve prime_88_bits : primes.

Lemma prime_134_bits :
  Z.prime 19757330305831588566944191468367130476339.
Proof. by_powers [172054593956031949258510691]. Qed.
#[export] Hint Resolve prime_134_bits : primes.

Lemma prime_138_bits :
  Z.prime 276602624281642239937218680557139826668747.
Proof. by_powers [19757330305831588566944191468367130476339]. Qed.
#[export] Hint Resolve prime_138_bits : primes.

Theorem L25519_prime : Z.prime L25519.
Proof.
  by_powers [276602624281642239937218680557139826668747].
Qed.
