(* ===== verification/Edwards.v ===== *)
(** * Edwards: the twisted Edwards curve of Ed25519

    The field of [P25519] elements and the curve [-x^2 + y^2 = 1 + d x^2 y^2]
    over it.  [d] is not a square and [-1] is one, so the denominators of the
    addition formulas never vanish, and the points are a commutative group under
    the one pair of formulas; its multiples are what the signature scheme is
    about.  Nothing here is code: it is the mathematics that ge.c implements, and
    what the theorems on ge.c are stated with. *)
From S2P Require Import Prelude Limbs Fe25519 Primes.
From Stdlib Require Import Zmod.Zmod Field.

(** ** The field *)

Abbreviation F := (Zmod P25519).
Definition of_int (z : Z) : F := Zmod.of_Z P25519 z.
Definition to_int (x : F) : Z := Zmod.to_Z x.

Declare Scope field_scope.
Delimit Scope field_scope with F.
Notation "0" := (Zmod.zero : F) : field_scope.
Notation "1" := (Zmod.one : F) : field_scope.
Infix "+" := (@Zmod.add P25519) : field_scope.
Infix "-" := (@Zmod.sub P25519) : field_scope.
Infix "*" := (@Zmod.mul P25519) : field_scope.
Infix "/" := (@Zmod.mdiv P25519) : field_scope.
Notation "- x" := (@Zmod.opp P25519 x) : field_scope.
Infix "^" := (@Zmod.pow P25519) : field_scope.
Bind Scope field_scope with Zmod.

Definition F_field := Zmod.field_theory P25519 P25519_prime.
Definition F_ring := F_R F_field.

#[export] Instance F_eq_dec : EqDecision F.
Proof. intros x y. destruct (Zmod.eqb x y) eqn:E; [left; by apply Zmod.eqb_eq|right]. intros ->. by rewrite Zmod.eqb_refl in E. Defined.

#[global] Opaque P25519 Zmod.of_Z Zmod.add Zmod.sub Zmod.opp Zmod.mul Zmod.inv Zmod.mdiv Zmod.pow Zmod.eqb.
Add Field F_field_tactic : F_field.

Local Open Scope field_scope.

Lemma of_int_eq a b : of_int a = of_int b ↔ a mod P25519 = b mod P25519.
Proof. apply Zmod.of_Z_inj. Qed.

Lemma of_int_add a b : of_int (a + b)%Z = of_int a + of_int b.
Proof. apply Zmod.of_Z_add. Qed.

Lemma of_int_sub a b : of_int (a - b)%Z = of_int a - of_int b.
Proof. apply Zmod.of_Z_sub. Qed.

Lemma of_int_mul a b : of_int (a * b)%Z = of_int a * of_int b.
Proof. apply Zmod.of_Z_mul. Qed.

Lemma of_int_opp a : of_int (- a)%Z = - of_int a.
Proof. apply Zmod.of_Z_opp. Qed.

Lemma of_int_0 : of_int 0 = 0.
Proof. apply Zmod.of_Z_0. Qed.

Lemma of_int_1 : of_int 1 = 1.
Proof. apply Zmod.of_Z_1. Qed.

Lemma of_int_eqp a b : eqp a b → of_int a = of_int b.
Proof. intros H. by apply of_int_eq, eqp_mod. Qed.

Lemma to_int_of_int z : to_int (of_int z) = z mod P25519.
Proof. apply Zmod.to_Z_of_Z. Qed.

Lemma of_int_to_int x : of_int (to_int x) = x.
Proof. apply Zmod.of_Z_to_Z. Qed.

Create Rewrite HintDb field_values.
#[export] Hint Rewrite of_int_add of_int_sub of_int_mul of_int_opp of_int_0 of_int_1 : field_values.

Lemma F_integral x y : x * y = 0 → x = 0 ∨ y = 0.
Proof. apply Zmod.mul_0_iff_prime, P25519_prime. Qed.

Lemma F_mul_neq_0 x y : x ≠ 0 → y ≠ 0 → x * y ≠ 0.
Proof. intros Hx Hy [?|?]%F_integral; done. Qed.

Lemma F_one_neq_0 : (1 : F) ≠ 0.
Proof. apply (F_1_neq_0 F_field). Qed.

Lemma F_2_neq_0 : (1 + 1 : F) ≠ 0.
Proof. rewrite <- of_int_1, <- of_int_add, <- of_int_0, of_int_eq. by vm_compute. Qed.

Lemma F_square_eq x y : x * x = y * y → x = y ∨ x = - y.
Proof.
  intros H. destruct (F_integral (x - y) (x + y)) as [E|E]; [ring [H]|left|right].
  - transitivity (x - y + y); [ring|]. rewrite E. ring.
  - transitivity (x + y - y); [ring|]. rewrite E. ring.
Qed.

(** ** The constants of the curve *)

Definition curve_d : F := of_int (-121665) / of_int 121666.
Definition curve_i : F :=
  of_int 19681161376707505956807079304988542015446066515923890162744021073123829784752.

Lemma curve_d_int :
  curve_d = of_int 37095705934669439343138083508754565189542113879843219016388785533085940283555.
Proof.
  assert (H : of_int 121666 ≠ 0) by (rewrite <- of_int_0, of_int_eq; by vm_compute).
  assert (E : of_int (-121665) = of_int 37095705934669439343138083508754565189542113879843219016388785533085940283555 * of_int 121666)
    by (rewrite <- of_int_mul, of_int_eq; by vm_compute).
  unfold curve_d. rewrite E. by field.
Qed.

Lemma d_scaled : of_int 121666 * (1 + curve_d) = 1.
Proof.
  unfold curve_d. assert (of_int 121666 ≠ 0). { rewrite <- of_int_0, of_int_eq. by vm_compute. }
  transitivity (of_int 121666 + of_int (-121665)); [by field|]. rewrite <- of_int_add. apply of_int_1.
Qed.

Lemma curve_i_int :
  curve_i = of_int 19681161376707505956807079304988542015446066515923890162744021073123829784752.
Proof. done. Qed.

Lemma curve_i_square : curve_i * curve_i = - (1).
Proof. unfold curve_i. rewrite <- of_int_mul, <- of_int_1, <- of_int_opp, of_int_eq. by vm_compute. Qed.

(** Euler's criterion, the half that is needed: a square has the power 1. *)
Lemma square_power x : x ≠ 0 → (x * x) ^ ((P25519 - 1) / 2) = 1.
Proof.
  intros Hx. rewrite <- Zmod.pow_2_r, <- Zmod.pow_mul_r_nonneg by (by vm_compute).
  assert (E : (2 * ((P25519 - 1) / 2) = Z.pred P25519)%Z) by (by vm_compute). rewrite E.
  apply Zmod.fermat_nz; [done|apply P25519_prime].
Qed.

Lemma curve_d_power : curve_d ^ ((P25519 - 1) / 2) = - (1).
Proof.
  rewrite curve_d_int. unfold of_int. rewrite <- Zmod.of_Z_pow by (by vm_compute).
  rewrite <- Zmod.of_Z_1, <- Zmod.of_Z_opp. apply Zmod.of_Z_inj.
  rewrite <- pow_mod_spec by (by vm_compute). by vm_compute.
Qed.

Lemma curve_d_nonsquare x : x * x ≠ curve_d.
Proof.
  intros E. pose proof curve_d_power as H. rewrite <- E in H.
  assert (H0 : curve_d ≠ 0) by (rewrite curve_d_int, <- of_int_0, of_int_eq; by vm_compute).
  rewrite square_power in H.
  - apply F_2_neq_0. rewrite H at 2. ring.
  - intros ->. apply H0. rewrite <- E. ring.
Qed.

(** ** Points *)

Definition on_curve (x y : F) : bool :=
  Zmod.eqb (y * y - x * x) (1 + curve_d * (x * x) * (y * y)).

Record point := Point { px : F; py : F; p_on_curve : on_curve px py = true }.

Lemma on_curve_eq x y : on_curve x y = true ↔ y * y - x * x = 1 + curve_d * (x * x) * (y * y).
Proof. apply Zmod.eqb_eq. Qed.

Lemma curve_eq P : py P * py P - px P * px P = 1 + curve_d * (px P * px P) * (py P * py P).
Proof. apply on_curve_eq, p_on_curve. Qed.

Lemma point_eq P Q : px P = px Q → py P = py Q → P = Q.
Proof.
  destruct P as [x y H], Q as [x' y' H']; cbn. intros <- <-. f_equal. apply (proof_irrel H H').
Qed.

(** ** The denominators of the addition formulas *)

Section Complete.
  Variables x1 y1 x2 y2 : F.
  Hypothesis C1 : y1 * y1 - x1 * x1 = 1 + curve_d * (x1 * x1) * (y1 * y1).
  Hypothesis C2 : y2 * y2 - x2 * x2 = 1 + curve_d * (x2 * x2) * (y2 * y2).

Let e : F := curve_d * x1 * x2 * y1 * y2.

Lemma square_ratio s : e * e = 1 → s * s = 1 →
  (curve_i * x1 + s * e * y1) * (curve_i * x1 + s * e * y1) =
  curve_d * (x1 * y1 * (curve_i * x2 + s * y2)) * (x1 * y1 * (curve_i * x2 + s * y2)).
Proof.
  intros He Hs. transitivity (y1 * y1 - x1 * x1 + (1 + 1) * curve_i * s * e * x1 * y1).
  { ring [curve_i_square Hs He]. }
  rewrite C1. transitivity (curve_d * (x1 * x1) * (y1 * y1) * (y2 * y2 - x2 * x2) + (1 + 1) * curve_i * s * e * x1 * y1).
  - rewrite C2. rewrite <- He at 1. unfold e. ring.
  - unfold e. ring [curve_i_square Hs].
Qed.

(** Otherwise the curve would make [d] a square. *)
Lemma denominator_square : e * e ≠ 1.
Proof.
  intros He.
  assert (He0 : e ≠ 0) by (intros E; apply F_one_neq_0; rewrite <- He, E; ring).
  assert (Hx2 : curve_i * x2 ≠ 0).
  { intros E. apply F_one_neq_0. transitivity (e * e * (curve_i * curve_i) * - (1)); [ring [He curve_i_square]|].
    transitivity ((curve_i * x2) * (curve_i * x2) * (curve_d * x1 * y1 * y2) * (curve_d * x1 * y1 * y2) * - (1));
      [unfold e; ring|rewrite E; ring]. }
  assert (∃ s, s * s = 1 ∧ curve_i * x2 + s * y2 ≠ 0) as (s & Hs & Hn).
  { destruct (decide (curve_i * x2 + 1 * y2 = 0)) as [E|E]; [|exists 1; split; [ring|done]].
    exists (- (1)). split; [ring|]. intros E'. apply (F_mul_neq_0 _ _ F_2_neq_0 Hx2).
    transitivity ((curve_i * x2 + 1 * y2) + (curve_i * x2 + - (1) * y2)); [ring|]. rewrite E, E'. ring. }
  assert (Hw : x1 * y1 * (curve_i * x2 + s * y2) ≠ 0).
  { apply F_mul_neq_0; [|done]. intros E. apply He0. unfold e.
    transitivity (x1 * y1 * (curve_d * x2 * y2)); [ring|]. rewrite E. ring. }
  pose proof (square_ratio s He Hs) as HR. set (w := x1 * y1 * (curve_i * x2 + s * y2)) in *.
  apply (curve_d_nonsquare ((curve_i * x1 + s * e * y1) / w)).
  transitivity ((curve_i * x1 + s * e * y1) * (curve_i * x1 + s * e * y1) / (w * w)); [by field|].
  rewrite HR. by field.
Qed.

Lemma denominators : 1 + e ≠ 0 ∧ 1 - e ≠ 0.
Proof.
  split; intros E; apply denominator_square.
  - transitivity ((1 + e) * (e - 1) + 1); [ring|]. rewrite E. ring.
  - transitivity (1 - (1 - e) * (1 + e)); [ring|]. rewrite E. ring.
Qed.
End Complete.

(** ** The polynomial identities of the group law

    The curve's equation, divided by [d], is a rule that lowers the degree; the
    identities hold after rewriting with it. *)

Section Identities.
  Variables d c : F.
  Hypothesis Hc : c * d = 1.

Definition degree_rule (x y : F) : Prop := x * x * y * y = c * (y * y - x * x - 1).

Lemma closed_numerators x1 y1 x2 y2 :
  degree_rule x1 y1 → degree_rule x2 y2 →
  let e := d * x1 * x2 * y1 * y2 in
  let X := x1 * y2 + x2 * y1 in
  let Y := y1 * y2 + x1 * x2 in
  (Y * Y) * ((1 + e) * (1 + e)) - (X * X) * ((1 - e) * (1 - e)) =
  (1 + e) * (1 + e) * ((1 - e) * (1 - e)) + d * (X * X) * (Y * Y).
Proof. unfold degree_rule. intros C1 C2. cbv zeta. ring [C1 C2 Hc]. Qed.

(** The sum of [X / Z, Y / W] and [x, y]: numerators and denominators. *)
Definition sum_x (X Z Y W x y : F) : F := X * W * y + x * (Z * Y).
Definition sum_z (X Z Y W x y : F) : F := Z * W + d * X * x * Y * y.
Definition sum_y (X Z Y W x y : F) : F := Y * Z * y + X * W * x.
Definition sum_w (X Z Y W x y : F) : F := Z * W - d * X * x * Y * y.

Lemma assoc_numerators x1 y1 x2 y2 x3 y3 :
  degree_rule x1 y1 → degree_rule x2 y2 → degree_rule x3 y3 →
  let X12 := sum_x x1 1 y1 1 x2 y2 in let Z12 := sum_z x1 1 y1 1 x2 y2 in
  let Y12 := sum_y x1 1 y1 1 x2 y2 in let W12 := sum_w x1 1 y1 1 x2 y2 in
  let X23 := sum_x x2 1 y2 1 x3 y3 in let Z23 := sum_z x2 1 y2 1 x3 y3 in
  let Y23 := sum_y x2 1 y2 1 x3 y3 in let W23 := sum_w x2 1 y2 1 x3 y3 in
  sum_x X12 Z12 Y12 W12 x3 y3 * sum_z X23 Z23 Y23 W23 x1 y1 =
  sum_x X23 Z23 Y23 W23 x1 y1 * sum_z X12 Z12 Y12 W12 x3 y3 ∧
  sum_y X12 Z12 Y12 W12 x3 y3 * sum_w X23 Z23 Y23 W23 x1 y1 =
  sum_y X23 Z23 Y23 W23 x1 y1 * sum_w X12 Z12 Y12 W12 x3 y3.
Proof.
  unfold degree_rule. intros C1 C2 C3. cbv zeta. unfold sum_x, sum_y, sum_z, sum_w.
  split; ring [C1 C2 C3 Hc].
Qed.
End Identities.

Definition curve_c : F := 1 / curve_d.

Lemma curve_d_neq_0 : curve_d ≠ 0.
Proof. intros E. apply (curve_d_nonsquare 0). rewrite E. ring. Qed.

Lemma curve_c_d : curve_c * curve_d = 1.
Proof. unfold curve_c. field. apply curve_d_neq_0. Qed.

Lemma curve_degree_rule x y :
  y * y - x * x = 1 + curve_d * (x * x) * (y * y) → degree_rule curve_c x y.
Proof. unfold degree_rule. intros ->. ring [curve_c_d]. Qed.

#[global] Opaque curve_d curve_c curve_i.

Lemma point_rule P : degree_rule curve_c (px P) (py P).
Proof. apply curve_degree_rule, curve_eq. Qed.

(** ** The group *)

Definition den (P Q : point) : F := curve_d * px P * px Q * py P * py Q.

Lemma den_ok P Q : 1 + den P Q ≠ 0 ∧ 1 - den P Q ≠ 0.
Proof. apply denominators; apply curve_eq. Qed.

Lemma add_on_curve P Q :
  on_curve ((px P * py Q + px Q * py P) / (1 + den P Q)) ((py P * py Q + px P * px Q) / (1 - den P Q)) = true.
Proof.
  apply on_curve_eq. destruct (den_ok P Q) as [D1 D2].
  pose proof (closed_numerators curve_d curve_c curve_c_d _ _ _ _ (point_rule P) (point_rule Q)) as H.
  cbv zeta in H. fold (den P Q) in H.
  set (X := px P * py Q + px Q * py P) in *. set (Y := py P * py Q + px P * px Q) in *.
  revert H D1 D2. generalize (1 + den P Q) (1 - den P Q). intros Z W H HZ HW.
  transitivity ((Y * Y * (Z * Z) - X * X * (W * W)) / (Z * Z * (W * W))); [by field|]. rewrite H. by field.
Qed.

Definition padd (P Q : point) : point := Point _ _ (add_on_curve P Q).

Lemma zero_on_curve : on_curve 0 1 = true.
Proof. apply on_curve_eq. ring. Qed.

Definition pzero : point := Point 0 1 zero_on_curve.

Lemma opp_on_curve P : on_curve (- px P) (py P) = true.
Proof. apply on_curve_eq. pose proof (curve_eq P) as H. transitivity (py P * py P - px P * px P); [ring|]. rewrite H. ring. Qed.

Definition popp (P : point) : point := Point _ _ (opp_on_curve P).

Lemma den_comm P Q : den P Q = den Q P.
Proof. unfold den. ring. Qed.

Lemma padd_comm P Q : padd P Q = padd Q P.
Proof. apply point_eq; cbn; rewrite (den_comm P Q); f_equal; ring. Qed.

Lemma padd_zero_l P : padd pzero P = P.
Proof.
  assert (E : den pzero P = 0) by (unfold den; cbn; ring).
  apply point_eq; cbn; rewrite E; field; apply F_one_neq_0.
Qed.

Lemma padd_opp_r P : padd P (popp P) = pzero.
Proof.
  destruct (den_ok P (popp P)) as [D1 D2]. pose proof (curve_eq P) as H. apply point_eq; cbn.
  - by field.
  - assert (E : py P * py P + px P * - px P = 1 - den P (popp P)).
    { transitivity (py P * py P - px P * px P); [ring|]. rewrite H. unfold den; cbn. ring. }
    rewrite E. by field.
Qed.

(** A sum when the coordinates of the first point are fractions. *)
Lemma fraction_denominators (d X Z Y W x y : F) : Z ≠ 0 → W ≠ 0 →
  sum_z d X Z Y W x y = (1 + d * (X / Z) * x * (Y / W) * y) * (Z * W) ∧
  sum_w d X Z Y W x y = (1 - d * (X / Z) * x * (Y / W) * y) * (Z * W).
Proof. intros HZ HW. unfold sum_z, sum_w. split; field; auto. Qed.

Lemma fraction_numerators (X Z Y W x y D : F) : Z ≠ 0 → W ≠ 0 → D ≠ 0 →
  (X / Z * y + x * (Y / W)) / D = sum_x X Z Y W x y / (D * (Z * W)) ∧
  (Y / W * y + X / Z * x) / D = sum_y X Z Y W x y / (D * (Z * W)).
Proof. intros HZ HW HD. unfold sum_x, sum_y. split; field; auto. Qed.

Lemma padd_fraction S R X Z Y W :
  Z ≠ 0 → W ≠ 0 → px S = X / Z → py S = Y / W →
  sum_z curve_d X Z Y W (px R) (py R) ≠ 0 ∧ sum_w curve_d X Z Y W (px R) (py R) ≠ 0 ∧
  px (padd S R) = sum_x X Z Y W (px R) (py R) / sum_z curve_d X Z Y W (px R) (py R) ∧
  py (padd S R) = sum_y X Z Y W (px R) (py R) / sum_w curve_d X Z Y W (px R) (py R).
Proof.
  intros HZ HW Ex Ey. destruct (den_ok S R) as [D1 D2]. pose proof (F_mul_neq_0 _ _ HZ HW) as HZW.
  destruct (fraction_denominators curve_d X Z Y W (px R) (py R) HZ HW) as [-> ->]. cbn.
  assert (E : den S R = curve_d * (X / Z) * px R * (Y / W) * py R) by (unfold den; by rewrite Ex, Ey).
  rewrite <- E, Ex, Ey. split; [by apply F_mul_neq_0|]. split; [by apply F_mul_neq_0|].
  split; [exact (proj1 (fraction_numerators _ _ _ _ _ _ _ HZ HW D1))|exact (proj2 (fraction_numerators _ _ _ _ _ _ _ HZ HW D2))].
Qed.

Lemma cross_eq a b u v : b ≠ 0 → v ≠ 0 → a * v = u * b → a / b = u / v.
Proof. intros Hb Hv H. transitivity (a * v / (b * v)); [by field|]. rewrite H. by field. Qed.

Lemma padd_assoc P Q R : padd P (padd Q R) = padd (padd P Q) R.
Proof.
  pose proof F_one_neq_0 as H1.
  assert (H : ∀ A, px A = px A / 1 ∧ py A = py A / 1) by (intros; split; by field).
  destruct (padd_fraction P Q (px P) 1 (py P) 1) as (Z12 & W12 & X12 & Y12); [done|done|apply H..|].
  destruct (padd_fraction Q R (px Q) 1 (py Q) 1) as (Z23 & W23 & X23 & Y23); [done|done|apply H..|].
  rewrite (padd_comm P). pose proof (padd_fraction _ R _ _ _ _ Z12 W12 X12 Y12) as (ZL & WL & XL & YL).
  pose proof (padd_fraction _ P _ _ _ _ Z23 W23 X23 Y23) as (ZR & WR & XR & YR).
  destruct (assoc_numerators curve_d curve_c curve_c_d _ _ _ _ _ _ (point_rule P) (point_rule Q) (point_rule R)) as [EX EY].
  cbv zeta in EX, EY. apply point_eq; [rewrite XL, XR|rewrite YL, YR].
  - exact (cross_eq _ _ _ _ ZR ZL (eq_sym EX)).
  - exact (cross_eq _ _ _ _ WR WL (eq_sym EY)).
Qed.

Lemma padd_zero_r P : padd P pzero = P.
Proof. rewrite padd_comm. apply padd_zero_l. Qed.

Lemma padd_opp_l P : padd (popp P) P = pzero.
Proof. rewrite padd_comm. apply padd_opp_r. Qed.

Lemma padd_cancel_l P Q R : padd P Q = padd P R → Q = R.
Proof.
  intros H. rewrite <- (padd_zero_l Q), <- (padd_zero_l R), <- (padd_opp_l P), <- !padd_assoc. by rewrite H.
Qed.

Lemma popp_unique P Q : padd P Q = pzero → Q = popp P.
Proof. intros H. apply (padd_cancel_l P). by rewrite H, padd_opp_r. Qed.

Lemma popp_popp P : popp (popp P) = P.
Proof. symmetry. apply popp_unique, padd_opp_l. Qed.

Lemma popp_padd P Q : popp (padd P Q) = padd (popp P) (popp Q).
Proof.
  symmetry. apply popp_unique. rewrite (padd_comm (popp P)), padd_assoc, <- (padd_assoc P), padd_opp_r.
  by rewrite padd_zero_r, padd_opp_r.
Qed.

Lemma popp_zero : popp pzero = pzero.
Proof. symmetry. apply popp_unique, padd_zero_l. Qed.

(** ** Multiples *)

Definition pmul (k : Z) (P : point) : point :=
  match k with
  | Z0 => pzero
  | Zpos k => Pos.iter_op padd k P
  | Zneg k => popp (Pos.iter_op padd k P)
  end.

Lemma pmul_1 P : pmul 1 P = P.
Proof. done. Qed.

Lemma pmul_opp k P : pmul (- k) P = popp (pmul k P).
Proof. destruct k; cbn; [by rewrite popp_zero|done|by rewrite popp_popp]. Qed.

Lemma pmul_succ_nonneg k P : 0 <= k → pmul (k + 1) P = padd P (pmul k P).
Proof.
  destruct k as [|k|]; [intros _; cbn; by rewrite padd_zero_r| |lia]. intros _.
  replace (Zpos k + 1)%Z with (Zpos (Pos.succ k)) by lia. cbn. apply Pos.iter_op_succ, padd_assoc.
Qed.

Lemma pmul_succ k P : pmul (k + 1) P = padd P (pmul k P).
Proof.
  destruct (Z.le_gt_cases 0 k) as [Hk|Hk]; [by apply pmul_succ_nonneg|].
  apply (padd_cancel_l (popp P)). rewrite padd_assoc, padd_opp_l, padd_zero_l.
  replace k with (- (- (k + 1) + 1))%Z at 2 by lia. rewrite (pmul_opp (- (k + 1) + 1)), (pmul_succ_nonneg (- (k + 1))), popp_padd by lia.
  by rewrite <- pmul_opp, Z.opp_involutive.
Qed.

Lemma pmul_add a b P : pmul (a + b) P = padd (pmul a P) (pmul b P).
Proof.
  revert a. apply Z.bi_induction; [by intros ?? ->|by rewrite Z.add_0_l, padd_zero_l|].
  intros a. replace (Z.succ a + b)%Z with (a + b + 1)%Z by lia.
  rewrite <- Z.add_1_r, !pmul_succ, <- padd_assoc. split; [by intros ->|apply padd_cancel_l].
Qed.

Lemma pmul_zero a : pmul a pzero = pzero.
Proof.
  revert a. apply Z.bi_induction; [by intros ?? ->|done|].
  intros a. rewrite <- Z.add_1_r, pmul_succ, padd_zero_l. done.
Qed.

Lemma pmul_mul a b P : pmul (a * b) P = pmul a (pmul b P).
Proof.
  revert a. apply Z.bi_induction; [by intros ?? ->|done|].
  intros a. rewrite <- Z.add_1_r, pmul_succ, Z.mul_add_distr_r, Z.mul_1_l, pmul_add, padd_comm.
  split; [by intros ->|apply padd_cancel_l].
Qed.

Lemma pmul_popp a P : pmul a (popp P) = popp (pmul a P).
Proof.
  assert (E : popp P = pmul (-1) P) by done. rewrite E, <- pmul_mul, <- pmul_opp. f_equal. lia.
Qed.

Lemma pmul_mod k n P : pmul n P = pzero → pmul (k mod n) P = pmul k P.
Proof.
  intros H. destruct (decide (n = 0)%Z) as [->|Hn]; [by rewrite Z.mod_0_r|].
  rewrite (Z.div_mod k n) at 2 by done. by rewrite pmul_add, Z.mul_comm, pmul_mul, H, pmul_zero, padd_zero_l.
Qed.
