(* ===== verification/Ge25519.v ===== *)
(** * Ge25519: group elements (ed25519/src/ge.c)

    The points of the curve in the four forms of the source: projective [ge_p2],
    extended [ge_p3], completed [ge_p1p1] and the two forms of a second operand,
    [ge_cached] and [ge_precomp]; every operation of the file as it is written, in
    the monad of the field operations, whose outcome is undefined behaviour when a
    limb overflows.  The tables of precomp_data.h are in GeTables. *)
From S2P Require Import Prelude Blake2 Limbs Fe25519 FeBytes.

Record ge_p2 := { p2_X : fe; p2_Y : fe; p2_Z : fe }.

Record ge_p3 := { p3_X : fe; p3_Y : fe; p3_Z : fe; p3_T : fe }.

Record ge_p1p1 := { p1_X : fe; p1_Y : fe; p1_Z : fe; p1_T : fe }.

Record ge_precomp := { yplusx : fe; yminusx : fe; xy2d : fe }.

Record ge_cached := { YplusX : fe; YminusX : fe; c_Z : fe; T2d : fe }.

(** ** Addition and doubling *)

Definition ge_add (p : ge_p3) (q : ge_cached) : result ge_p1p1 :=
  X ← fe_add (p3_Y p) (p3_X p);
  Y ← fe_sub (p3_Y p) (p3_X p);
  Z ← fe_mul X (YplusX q);
  Y ← fe_mul Y (YminusX q);
  T ← fe_mul (T2d q) (p3_T p);
  X ← fe_mul (p3_Z p) (c_Z q);
  t0 ← fe_add X X;
  X ← fe_sub Z Y;
  Y ← fe_add Z Y;
  Z ← fe_add t0 T;
  T ← fe_sub t0 T;
  Ok {| p1_X := X; p1_Y := Y; p1_Z := Z; p1_T := T |}.

Definition ge_sub (p : ge_p3) (q : ge_cached) : result ge_p1p1 :=
  X ← fe_add (p3_Y p) (p3_X p);
  Y ← fe_sub (p3_Y p) (p3_X p);
  Z ← fe_mul X (YminusX q);
  Y ← fe_mul Y (YplusX q);
  T ← fe_mul (T2d q) (p3_T p);
  X ← fe_mul (p3_Z p) (c_Z q);
  t0 ← fe_add X X;
  X ← fe_sub Z Y;
  Y ← fe_add Z Y;
  Z ← fe_sub t0 T;
  T ← fe_add t0 T;
  Ok {| p1_X := X; p1_Y := Y; p1_Z := Z; p1_T := T |}.

Definition ge_madd (p : ge_p3) (q : ge_precomp) : result ge_p1p1 :=
  X ← fe_add (p3_Y p) (p3_X p);
  Y ← fe_sub (p3_Y p) (p3_X p);
  Z ← fe_mul X (yplusx q);
  Y ← fe_mul Y (yminusx q);
  T ← fe_mul (xy2d q) (p3_T p);
  t0 ← fe_add (p3_Z p) (p3_Z p);
  X ← fe_sub Z Y;
  Y ← fe_add Z Y;
  Z ← fe_add t0 T;
  T ← fe_sub t0 T;
  Ok {| p1_X := X; p1_Y := Y; p1_Z := Z; p1_T := T |}.

Definition ge_msub (p : ge_p3) (q : ge_precomp) : result ge_p1p1 :=
  X ← fe_add (p3_Y p) (p3_X p);
  Y ← fe_sub (p3_Y p) (p3_X p);
  Z ← fe_mul X (yminusx q);
  Y ← fe_mul Y (yplusx q);
  T ← fe_mul (xy2d q) (p3_T p);
  t0 ← fe_add (p3_Z p) (p3_Z p);
  X ← fe_sub Z Y;
  Y ← fe_add Z Y;
  Z ← fe_sub t0 T;
  T ← fe_add t0 T;
  Ok {| p1_X := X; p1_Y := Y; p1_Z := Z; p1_T := T |}.

Definition ge_p2_dbl (p : ge_p2) : result ge_p1p1 :=
  X ← fe_sq (p2_X p);
  Z ← fe_sq (p2_Y p);
  T ← fe_sq2 (p2_Z p);
  Y ← fe_add (p2_X p) (p2_Y p);
  t0 ← fe_sq Y;
  Y ← fe_add Z X;
  Z ← fe_sub Z X;
  X ← fe_sub t0 Y;
  T ← fe_sub T Z;
  Ok {| p1_X := X; p1_Y := Y; p1_Z := Z; p1_T := T |}.

(** ** Conversions *)

Definition ge_p1p1_to_p2 (p : ge_p1p1) : result ge_p2 :=
  X ← fe_mul (p1_X p) (p1_T p);
  Y ← fe_mul (p1_Y p) (p1_Z p);
  Z ← fe_mul (p1_Z p) (p1_T p);
  Ok {| p2_X := X; p2_Y := Y; p2_Z := Z |}.

Definition ge_p1p1_to_p3 (p : ge_p1p1) : result ge_p3 :=
  X ← fe_mul (p1_X p) (p1_T p);
  Y ← fe_mul (p1_Y p) (p1_Z p);
  Z ← fe_mul (p1_Z p) (p1_T p);
  T ← fe_mul (p1_X p) (p1_Y p);
  Ok {| p3_X := X; p3_Y := Y; p3_Z := Z; p3_T := T |}.

Definition ge_p2_0 : ge_p2 := {| p2_X := fe_0; p2_Y := fe_1; p2_Z := fe_1 |}.

Definition ge_p3_0 : ge_p3 := {| p3_X := fe_0; p3_Y := fe_1; p3_Z := fe_1; p3_T := fe_0 |}.

Definition ge_p3_to_p2 (p : ge_p3) : ge_p2 :=
  {| p2_X := fe_copy (p3_X p); p2_Y := fe_copy (p3_Y p); p2_Z := fe_copy (p3_Z p) |}.

Definition ge_p3_dbl (p : ge_p3) : result ge_p1p1 := ge_p2_dbl (ge_p3_to_p2 p).

Definition d2 : fe :=
  [-21827239; -5839606; -30745221; 13898782; 229458; 15978800; -12551817; -6495438; 29715968; 9444199].

Definition ge_p3_to_cached (p : ge_p3) : result ge_cached :=
  a ← fe_add (p3_Y p) (p3_X p);
  s ← fe_sub (p3_Y p) (p3_X p);
  t ← fe_mul (p3_T p) d2;
  Ok {| YplusX := a; YminusX := s; c_Z := fe_copy (p3_Z p); T2d := t |}.

(** ** The encoding *)

Definition fe_d : fe :=
  [-10913610; 13857413; -15372611; 6949391; 114729; -8787816; -6275908; -3247719; -18696448; -12055116].

Definition sqrtm1 : fe :=
  [-32595792; -7943725; 9377950; 3500415; 12389472; -272473; -25146209; -2005654; 326686; 11406482].

(** [h] is what the caller's structure holds: its [T] is written last, and not at
    all when the bytes are refused. *)
Definition ge_frombytes_negate_vartime (h : ge_p3) (s : byte_array) : result (Z * ge_p3) :=
  hY ← fe_frombytes s;
  let hZ := fe_1 in
  u ← fe_sq hY;
  v ← fe_mul u fe_d;
  u ← fe_sub u hZ;
  v ← fe_add v hZ;
  v3 ← fe_sq v;
  v3 ← fe_mul v3 v;
  hX ← fe_sq v3;
  hX ← fe_mul hX v;
  hX ← fe_mul hX u;
  hX ← fe_pow22523 hX;
  hX ← fe_mul hX v3;
  hX ← fe_mul hX u;
  vxx ← fe_sq hX;
  vxx ← fe_mul vxx v;
  check ← fe_sub vxx u;
  let finish hX :=
    n ← fe_isnegative hX;
    hX ← (if n =? Z.shiftr (at_word s 31) 7 then fe_neg hX else Ok hX);
    hT ← fe_mul hX hY;
    Ok (0, {| p3_X := hX; p3_Y := hY; p3_Z := hZ; p3_T := hT |}) in
  n ← fe_isnonzero check;
  if negb (n =? 0) then
    check ← fe_add vxx u;
    n ← fe_isnonzero check;
    if negb (n =? 0) then Ok (-1, {| p3_X := hX; p3_Y := hY; p3_Z := hZ; p3_T := p3_T h |})
    else hX ← fe_mul hX sqrtm1; finish hX
  else finish hX.

Definition encode_xyz (X Y Z : fe) : result byte_array :=
  recip ← fe_invert Z;
  x ← fe_mul X recip;
  y ← fe_mul Y recip;
  s ← fe_tobytes y;
  n ← fe_isnegative x;
  Ok (<[31%nat := u8 (Z.lxor (at_word s 31) (Z.shiftl n 7))]> s).

Definition ge_p3_tobytes (h : ge_p3) : result byte_array := encode_xyz (p3_X h) (p3_Y h) (p3_Z h).

Definition ge_tobytes (h : ge_p2) : result byte_array := encode_xyz (p2_X h) (p2_Y h) (p2_Z h).

(** ** Two scalars: sliding windows *)

Definition bit_digits (a : byte_array) : list Z :=
  (λ i, Z.land 1 (Z.shiftr (at_word a (i / 8)) (Z.of_nat (i mod 8)))) <$> seq 0 256.

(** [for (k = i + b; k < 256; ++k)]: the first zero becomes 1, the ones before it 0. *)
Fixpoint carry_up (n k : nat) (r : list Z) : list Z :=
  match n with
  | O => r
  | S n => if at_word r k =? 0 then <[k := 1]> r else carry_up n (S k) (<[k := 0]> r)
  end.

(** [for (b = 1; b <= 6 && i + b < 256; ++b)], [n] turns being left. *)
Fixpoint slide_window (n i b : nat) (r : list Z) : list Z :=
  match n with
  | O => r
  | S n =>
      if (i + b <? 256)%nat then
        if at_word r (i + b) =? 0 then slide_window n i (S b) r
        else
          let x := Z.shiftl (at_word r (i + b)) (Z.of_nat b) in
          if at_word r i + x <=? 15 then
            slide_window n i (S b) (<[(i + b)%nat := 0]> (<[i := i8 (at_word r i + x)]> r))
          else if -15 <=? at_word r i - x then
            slide_window n i (S b) (carry_up (256 - (i + b)) (i + b) (<[i := i8 (at_word r i - x)]> r))
          else r
      else r
  end.

Definition slide_turn (r : list Z) (i : nat) : list Z :=
  if at_word r i =? 0 then r else slide_window 6 i 1 r.

Definition slide (a : byte_array) : list Z := foldl slide_turn (bit_digits a) (seq 0 256).

(** [A, 3A, 5A, ...]: each entry is the one before it plus [A2]. *)
Fixpoint odd_multiples (n : nat) (A2 : ge_p3) (Ai : ge_cached) : result (list ge_cached) :=
  match n with
  | O => Ok [Ai]
  | S n =>
      t ← ge_add A2 Ai;
      u ← ge_p1p1_to_p3 t;
      Ai' ← ge_p3_to_cached u;
      rest ← odd_multiples n A2 Ai';
      Ok (Ai :: rest)
  end.

(** An element of a table; there is nothing behind its end. *)
Definition table_entry {A} (table : list A) (i : Z) : result A :=
  match table !! Z.to_nat i with
  | Some a => Ok a
  | None => Throw undefined_behaviour
  end.

(** The two additions of a turn, for a digit of [a] and of [b]. *)
Definition add_digit (Ai : list ge_cached) (digit : Z) (t : ge_p1p1) : result ge_p1p1 :=
  if 0 <? digit then
    u ← ge_p1p1_to_p3 t; q ← table_entry Ai (Z.quot digit 2); ge_add u q
  else if digit <? 0 then
    u ← ge_p1p1_to_p3 t; q ← table_entry Ai (Z.quot (- digit) 2); ge_sub u q
  else Ok t.

Definition madd_digit (Bi : list ge_precomp) (digit : Z) (t : ge_p1p1) : result ge_p1p1 :=
  if 0 <? digit then
    u ← ge_p1p1_to_p3 t; q ← table_entry Bi (Z.quot digit 2); ge_madd u q
  else if digit <? 0 then
    u ← ge_p1p1_to_p3 t; q ← table_entry Bi (Z.quot (- digit) 2); ge_msub u q
  else Ok t.

Definition double_turn (Ai : list ge_cached) (Bi : list ge_precomp) (aslide bslide : list Z) (i : nat) (r : ge_p2) :
    result ge_p2 :=
  t ← ge_p2_dbl r;
  t ← add_digit Ai (at_word aslide i) t;
  t ← madd_digit Bi (at_word bslide i) t;
  ge_p1p1_to_p2 t.

(** [for (i = 255; i >= 0; --i)] down to the first digit that is not 0: how many
    digits are left. *)
Fixpoint used_digits (n : nat) (aslide bslide : list Z) : nat :=
  match n with
  | O => O
  | S i => if negb (at_word aslide i =? 0) || negb (at_word bslide i =? 0) then n else used_digits i aslide bslide
  end.

Definition double_scalarmult (Bi : list ge_precomp) (a : byte_array) (A : ge_p3) (b : byte_array) : result ge_p2 :=
  let aslide := slide a in
  let bslide := slide b in
  A0 ← ge_p3_to_cached A;
  t ← ge_p3_dbl A;
  A2 ← ge_p1p1_to_p3 t;
  Ai ← odd_multiples 7 A2 A0;
  run (double_turn Ai Bi aslide bslide) (rev (seq 0 (used_digits 256 aslide bslide))) ge_p2_0.

(** ** Multiples of the base point *)

Definition equal (b c : Z) : Z :=
  let x := Z.lxor (u8 b) (u8 c) in
  u8 (Z.shiftr (u64 (x - 1)) 63).

Definition negative (b : Z) : Z := u8 (Z.shiftr (u64 b) 63).

Definition cmov (t u : ge_precomp) (b : Z) : ge_precomp :=
  {| yplusx := fe_cmov (yplusx t) (yplusx u) b;
     yminusx := fe_cmov (yminusx t) (yminusx u) b;
     xy2d := fe_cmov (xy2d t) (xy2d u) b |}.

Definition select (base : list (list ge_precomp)) (pos : nat) (b : Z) : result ge_precomp :=
  let bnegative := negative b in
  let babs := u8 (b - Z.shiftl (Z.land (- bnegative) b) 1) in
  row ← table_entry base (Z.of_nat pos);
  t ← run (λ j t, u ← table_entry row (Z.of_nat j); Ok (cmov t u (equal (i8 babs) (Z.of_nat j + 1))))
        (seq 0 8) {| yplusx := fe_1; yminusx := fe_1; xy2d := fe_0 |};
  m ← fe_neg (xy2d t);
  let minust := {| yplusx := fe_copy (yminusx t); yminusx := fe_copy (yplusx t); xy2d := m |} in
  Ok (cmov t minust bnegative).

Definition nibbles (a : byte_array) : list Z :=
  concat ((λ x, [Z.land (Z.shiftr x 0) 15; Z.land (Z.shiftr x 4) 15]) <$> take 32 a).

(** [for (i = 0; i < 63; ++i)]: digits of at most 8; the carry is a [signed char]. *)
Definition recode_turn (s : list Z * Z) (i : nat) : list Z * Z :=
  let '(e, carry) := s in
  let ei := i8 (at_word e i + carry) in
  let carry := Z.shiftr (i8 (ei + 8)) 4 in
  (<[i := i8 (ei - Z.shiftl carry 4)]> e, carry).

Definition recode (a : byte_array) : list Z :=
  let '(e, carry) := foldl recode_turn (nibbles a, 0) (seq 0 63) in
  <[63%nat := i8 (at_word e 63 + carry)]> e.

Definition base_turn (base : list (list ge_precomp)) (e : list Z) (i : nat) (h : ge_p3) : result ge_p3 :=
  t ← select base (i / 2) (at_word e i);
  r ← ge_madd h t;
  ge_p1p1_to_p3 r.

Definition four_doublings (h : ge_p3) : result ge_p3 :=
  r ← ge_p3_dbl h;
  s ← ge_p1p1_to_p2 r;
  r ← ge_p2_dbl s;
  s ← ge_p1p1_to_p2 r;
  r ← ge_p2_dbl s;
  s ← ge_p1p1_to_p2 r;
  r ← ge_p2_dbl s;
  ge_p1p1_to_p3 r.

Definition scalarmult_base (base : list (list ge_precomp)) (a : byte_array) : result ge_p3 :=
  let e := recode a in
  h ← run (base_turn base e) ((λ i, 2 * i + 1)%nat <$> seq 0 32) ge_p3_0;
  h ← four_doublings h;
  run (base_turn base e) ((λ i, 2 * i)%nat <$> seq 0 32) h.
