(* ===== verification/GePoints.v ===== *)
(** * GePoints: the operations of ge.c are the group operations

    What it means that a structure of ge.c stands for a point, with the bounds on
    the limbs that keep the next operation from overflowing, and for each
    operation that it returns, within these bounds, the point it should. *)
From S2P Require Import Prelude Blake2 Limbs Fe25519 FeBytes Primes Edwards Ge25519.
From Stdlib Require Import Zmod.Zmod Field.

Local Open Scope field_scope.
Add Field F_field_ops : F_field.

(** ** Field elements *)

Definition val (f : fe) : F := of_int (fe_value f).

(** [f] has bounded limbs and stands for [x]. *)
Definition stands (k : Z) (f : fe) (x : F) : Prop := bounded k f ∧ val f = x.

Lemma stands_weaken a b f x : stands a f x → a <= b → stands b f x.
Proof. intros [Hb Hv] H. split; [by eapply bounded_mono|done]. Qed.

Lemma mul_stands f g x y : stands 330 f x → stands 330 g y → returns (fe_mul f g) (λ h, stands 101 h (x * y)).
Proof.
  intros [Hf <-] [Hg <-]. eapply returns_mono; [by apply fe_mul_ok|]. intros h [Hh E].
  split; [done|]. unfold val. by rewrite <- of_int_mul; apply of_int_eqp.
Qed.

Lemma sq_stands f x : stands 330 f x → returns (fe_sq f) (λ h, stands 101 h (x * x)).
Proof.
  intros [Hf <-]. eapply returns_mono; [by apply fe_sq_ok|]. intros h [Hh E].
  split; [done|]. unfold val. by rewrite <- of_int_mul; apply of_int_eqp.
Qed.

Lemma sq2_stands f x : stands 330 f x → returns (fe_sq2 f) (λ h, stands 101 h ((1 + 1) * (x * x))).
Proof.
  intros [Hf <-]. eapply returns_mono; [by apply fe_sq2_ok|]. intros h [Hh E].
  split; [done|]. unfold val. rewrite (of_int_eqp _ _ E), !of_int_mul. change 2%Z with (1 + 1)%Z.
  rewrite of_int_add, of_int_1. ring.
Qed.

Lemma add_stands a b f g x y : stands a f x → stands b g y → a + b <= 6000 →
  returns (fe_add f g) (λ h, stands (a + b) h (x + y)).
Proof.
  intros [Hf <-] [Hg <-] H. eapply returns_mono; [by apply (fe_add_ok a b)|]. intros h [Hh E].
  split; [done|]. unfold val. by rewrite E, of_int_add.
Qed.

Lemma sub_stands a b f g x y : stands a f x → stands b g y → a + b <= 6000 →
  returns (fe_sub f g) (λ h, stands (a + b) h (x - y)).
Proof.
  intros [Hf <-] [Hg <-] H. eapply returns_mono; [by apply (fe_sub_ok a b)|]. intros h [Hh E].
  split; [done|]. unfold val. by rewrite E, of_int_sub.
Qed.

Lemma neg_stands a f x : stands a f x → a <= 6000 → returns (fe_neg f) (λ h, stands a h (- x)).
Proof.
  intros [Hf <-] H. eapply returns_mono; [by apply (fe_neg_ok a)|]. intros h [Hh E].
  split; [done|]. unfold val. by rewrite E, of_int_opp.
Qed.

Lemma stands_0 : stands 101 fe_0 0.
Proof. split; [by repeat constructor|]. unfold val. change (fe_value fe_0) with 0%Z. apply of_int_0. Qed.

Lemma stands_1 : stands 1 fe_1 1.
Proof. split; [by repeat constructor|]. unfold val. change (fe_value fe_1) with 1%Z. apply of_int_1. Qed.

Lemma stands_eq k f x y : stands k f x → x = y → stands k f y.
Proof. by intros H <-. Qed.

Lemma stands_intro k f x : bounded k f → val f = x → stands k f x.
Proof. done. Qed.

Lemma stands_bounded k f x : stands k f x → bounded k f.
Proof. by intros []. Qed.

Lemma stands_val k f x : stands k f x → val f = x.
Proof. by intros []. Qed.

Lemma val_def f : val f = of_int (fe_value f).
Proof. done. Qed.

#[global] Opaque stands val.

(** One operation on field elements whose operands are known. *)
Ltac small_bound := vm_compute; discriminate.
Ltac known := match goal with H : stands _ ?f _ |- stands _ ?f _ => exact H end.
Ltac weaker := eapply stands_weaken; [known|small_bound].
Ltac field_op :=
  lazymatch goal with
  | |- returns (fe_mul _ _) _ => eapply mul_stands; weaker
  | |- returns (fe_sq _) _ => eapply sq_stands; weaker
  | |- returns (fe_sq2 _) _ => eapply sq2_stands; weaker
  | |- returns (fe_add _ _) _ => eapply add_stands; [known|known|small_bound]
  | |- returns (fe_sub _ _) _ => eapply sub_stands; [known|known|small_bound]
  | |- returns (fe_neg _) _ => eapply neg_stands; [known|small_bound]
  end.
Ltac field_step :=
  lazymatch goal with |- returns (_ ≫= _) _ => eapply returns_bind; [field_op|cbv beta; intros] end.

(** ** What the structures stand for *)

Definition rep_p2 (h : ge_p2) (P : point) : Prop :=
  ∃ z, z ≠ 0 ∧ stands 101 (p2_X h) (px P * z) ∧ stands 101 (p2_Y h) (py P * z) ∧ stands 101 (p2_Z h) z.

Definition rep_p3 (h : ge_p3) (P : point) : Prop :=
  ∃ z, z ≠ 0 ∧ stands 101 (p3_X h) (px P * z) ∧ stands 101 (p3_Y h) (py P * z) ∧ stands 101 (p3_Z h) z ∧
    stands 101 (p3_T h) (px P * py P * z).

Definition rep_p1p1 (h : ge_p1p1) (P : point) : Prop :=
  ∃ z t, z ≠ 0 ∧ t ≠ 0 ∧ stands 303 (p1_X h) (px P * z) ∧ stands 303 (p1_Y h) (py P * t) ∧
    stands 303 (p1_Z h) z ∧ stands 303 (p1_T h) t.

Definition rep_cached (h : ge_cached) (P : point) : Prop :=
  ∃ z, z ≠ 0 ∧ stands 202 (YplusX h) ((py P + px P) * z) ∧ stands 202 (YminusX h) ((py P - px P) * z) ∧
    stands 101 (c_Z h) z ∧ stands 101 (T2d h) ((1 + 1) * curve_d * px P * py P * z).

Definition rep_precomp (h : ge_precomp) (P : point) : Prop :=
  stands 101 (yplusx h) (py P + px P) ∧ stands 101 (yminusx h) (py P - px P) ∧
  stands 101 (xy2d h) ((1 + 1) * curve_d * px P * py P).

(** ** Addition *)

Section Values.
  Variables d x1 y1 x2 y2 z1 z2 : F.
Let e := d * x1 * x2 * y1 * y2.
  Hypothesis D1 : 1 + e ≠ 0.
  Hypothesis D2 : 1 - e ≠ 0.
Let X := (y1 * z1 + x1 * z1) * ((y2 + x2) * z2).
Let Y := (y1 * z1 - x1 * z1) * ((y2 - x2) * z2).
Let T := (1 + 1) * d * x2 * y2 * z2 * (x1 * y1 * z1).
Let t0 := z1 * z2 + z1 * z2.

Lemma add_values :
  X - Y = (x1 * y2 + x2 * y1) / (1 + e) * (t0 + T) ∧ X + Y = (y1 * y2 + x1 * x2) / (1 - e) * (t0 - T) ∧
  t0 + T = (1 + 1) * (z1 * z2) * (1 + e) ∧ t0 - T = (1 + 1) * (z1 * z2) * (1 - e).
Proof.
  assert (E1 : t0 + T = (1 + 1) * (z1 * z2) * (1 + e)) by (unfold t0, T, e; ring).
  assert (E2 : t0 - T = (1 + 1) * (z1 * z2) * (1 - e)) by (unfold t0, T, e; ring).
  rewrite E1, E2. revert D1 D2. generalize (1 + e) (1 - e). intros D D' HD HD'. unfold X, Y.
  split; [by field|]. split; [by field|done].
Qed.
End Values.

Lemma F_product3 a b c : a ≠ 0 → b ≠ 0 → c ≠ 0 → (1 + 1) * (a * b) * c ≠ 0.
Proof. intros. apply F_mul_neq_0; [apply F_mul_neq_0; [apply F_2_neq_0|by apply F_mul_neq_0]|done]. Qed.

(** The completed sum of two points, from its four coordinates. *)
Lemma rep_sum r P Q z1 z2 x y z t :
  z1 ≠ 0 → z2 ≠ 0 →
  stands 303 (p1_X r) x → stands 303 (p1_Y r) y → stands 303 (p1_Z r) z → stands 303 (p1_T r) t →
  x = (py P * z1 + px P * z1) * ((py Q + px Q) * z2) - (py P * z1 - px P * z1) * ((py Q - px Q) * z2) →
  y = (py P * z1 + px P * z1) * ((py Q + px Q) * z2) + (py P * z1 - px P * z1) * ((py Q - px Q) * z2) →
  z = z1 * z2 + z1 * z2 + (1 + 1) * curve_d * px Q * py Q * z2 * (px P * py P * z1) →
  t = z1 * z2 + z1 * z2 - (1 + 1) * curve_d * px Q * py Q * z2 * (px P * py P * z1) →
  rep_p1p1 r (padd P Q).
Proof.
  intros Hz1 Hz2 HX HY HZ HT Ex Ey Ez Et. destruct (den_ok P Q) as [D1 D2].
  destruct (add_values curve_d (px P) (py P) (px Q) (py Q) z1 z2 D1 D2) as (EX & EY & EZ & ET).
  fold (den P Q) in EX, EY, EZ, ET. rewrite <- Ez, <- Ex in EX. rewrite <- Et, <- Ey in EY.
  rewrite <- Ez in EZ. rewrite <- Et in ET. exists z, t.
  split; [rewrite EZ; by apply F_product3|]. split; [rewrite ET; by apply F_product3|].
  split; [exact (stands_eq _ _ _ _ HX EX)|]. split; [exact (stands_eq _ _ _ _ HY EY)|done].
Qed.

Ltac completed P Q z1 z2 :=
  apply returns_Ok; eapply (rep_sum _ P Q z1 z2); cbn [p1_X p1_Y p1_Z p1_T];
  [assumption|assumption|weaker|weaker|weaker|weaker| | | | ]; cbn [px py popp].

Lemma ge_add_ok p q P Q : rep_p3 p P → rep_cached q Q → returns (ge_add p q) (λ r, rep_p1p1 r (padd P Q)).
Proof.
  intros (z1 & Hz1 & HX & HY & HZ & HT) (z2 & Hz2 & HA & HS & HZ' & HT'). unfold ge_add.
  repeat field_step. completed P Q z1 z2; reflexivity.
Qed.

Lemma ge_sub_ok p q P Q :
  rep_p3 p P → rep_cached q Q → returns (ge_sub p q) (λ r, rep_p1p1 r (padd P (popp Q))).
Proof.
  intros (z1 & Hz1 & HX & HY & HZ & HT) (z2 & Hz2 & HA & HS & HZ' & HT'). unfold ge_sub.
  repeat field_step. completed P (popp Q) z1 z2; ring.
Qed.

Lemma ge_madd_ok p q P Q : rep_p3 p P → rep_precomp q Q → returns (ge_madd p q) (λ r, rep_p1p1 r (padd P Q)).
Proof.
  intros (z1 & Hz1 & HX & HY & HZ & HT) (HA & HS & HT'). pose proof F_one_neq_0. unfold ge_madd.
  repeat field_step. completed P Q z1 (1 : F); ring.
Qed.

Lemma ge_msub_ok p q P Q :
  rep_p3 p P → rep_precomp q Q → returns (ge_msub p q) (λ r, rep_p1p1 r (padd P (popp Q))).
Proof.
  intros (z1 & Hz1 & HX & HY & HZ & HT) (HA & HS & HT'). pose proof F_one_neq_0. unfold ge_msub.
  repeat field_step. completed P (popp Q) z1 (1 : F); ring.
Qed.

(** ** Doubling and conversions *)

Lemma rep_p3_to_p2 h P : rep_p3 h P → rep_p2 (ge_p3_to_p2 h) P.
Proof. intros (z & Hz & HX & HY & HZ & _). by exists z. Qed.

Lemma double_values d x y z : y * y - x * x = 1 + d * (x * x) * (y * y) →
  let e := d * x * x * y * y in 1 + e ≠ 0 → 1 - e ≠ 0 →
  (x * z + y * z) * (x * z + y * z) - (y * z * (y * z) + x * z * (x * z)) = (x * y + x * y) / (1 + e) * (z * z * (1 + e)) ∧
  y * z * (y * z) + x * z * (x * z) = (y * y + x * x) / (1 - e) * (z * z * (1 - e)) ∧
  y * z * (y * z) - x * z * (x * z) = z * z * (1 + e) ∧
  (1 + 1) * (z * z) - (y * z * (y * z) - x * z * (x * z)) = z * z * (1 - e).
Proof.
  intros H e D1 D2.
  assert (E : y * z * (y * z) - x * z * (x * z) = z * z * (1 + e)).
  { transitivity (z * z * (y * y - x * x)); [ring|]. rewrite H. unfold e. ring. }
  split; [|split; [|split; [done|rewrite E; ring]]].
  - revert D1. generalize (1 + e). intros D HD. by field.
  - revert D2. generalize (1 - e). intros D HD. by field.
Qed.

Lemma ge_p2_dbl_ok p P : rep_p2 p P → returns (ge_p2_dbl p) (λ r, rep_p1p1 r (padd P P)).
Proof.
  intros (z & Hz & HX & HY & HZ). unfold ge_p2_dbl. repeat field_step. apply returns_Ok.
  destruct (den_ok P P) as [D1 D2].
  destruct (double_values curve_d (px P) (py P) z (curve_eq P) D1 D2) as (EX & EY & EZ & ET).
  fold (den P P) in *. exists (z * z * (1 + den P P)), (z * z * (1 - den P P)).
  pose proof (F_mul_neq_0 _ _ Hz Hz) as Hzz. cbn [p1_X p1_Y p1_Z p1_T].
  split; [by apply F_mul_neq_0|]. split; [by apply F_mul_neq_0|].
  split; [eapply stands_eq; [weaker|exact EX]|]. split; [eapply stands_eq; [weaker|exact EY]|].
  split; [eapply stands_eq; [weaker|exact EZ]|]. eapply stands_eq; [weaker|exact ET].
Qed.

Lemma ge_p3_dbl_ok p P : rep_p3 p P → returns (ge_p3_dbl p) (λ r, rep_p1p1 r (padd P P)).
Proof. intros H. by apply ge_p2_dbl_ok, rep_p3_to_p2. Qed.

Lemma ge_p1p1_to_p2_ok r P : rep_p1p1 r P → returns (ge_p1p1_to_p2 r) (λ h, rep_p2 h P).
Proof.
  intros (z & t & Hz & Ht & HX & HY & HZ & HT). unfold ge_p1p1_to_p2. repeat field_step. apply returns_Ok.
  exists (z * t). split; [by apply F_mul_neq_0|]. cbn [p2_X p2_Y p2_Z].
  split; [eapply stands_eq; [known|ring]|]. split; [eapply stands_eq; [known|ring]|known].
Qed.

Lemma ge_p1p1_to_p3_ok r P : rep_p1p1 r P → returns (ge_p1p1_to_p3 r) (λ h, rep_p3 h P).
Proof.
  intros (z & t & Hz & Ht & HX & HY & HZ & HT). unfold ge_p1p1_to_p3. repeat field_step. apply returns_Ok.
  exists (z * t). split; [by apply F_mul_neq_0|]. cbn [p3_X p3_Y p3_Z p3_T].
  split; [eapply stands_eq; [known|ring]|]. split; [eapply stands_eq; [known|ring]|].
  split; [known|eapply stands_eq; [known|ring]].
Qed.

Lemma rep_p2_0 : rep_p2 ge_p2_0 pzero.
Proof.
  pose proof stands_0 as H0. pose proof stands_1 as H1. exists 1. split; [apply F_one_neq_0|]. cbn [ge_p2_0 p2_X p2_Y p2_Z px py pzero].
  split; [eapply stands_eq; [weaker|ring]|]. split; [eapply stands_eq; [weaker|ring]|weaker].
Qed.

Lemma rep_p3_0 : rep_p3 ge_p3_0 pzero.
Proof.
  pose proof stands_0 as H0. pose proof stands_1 as H1. exists 1. split; [apply F_one_neq_0|]. cbn [ge_p3_0 p3_X p3_Y p3_Z p3_T px py pzero].
  split; [eapply stands_eq; [weaker|ring]|]. split; [eapply stands_eq; [weaker|ring]|]. split; [weaker|].
  eapply stands_eq; [weaker|ring].
Qed.

(** The constants: [d], [2 d] and the square root of [-1]. *)
Lemma bounded_check k f : forallb (λ p, Z.abs p.2 <=? p.1) (zip (fe_bound k) f) && (length f =? 10)%nat = true → bounded k f.
Proof.
  rewrite andb_true_iff, Nat.eqb_eq, forallb_forall. intros [H Hl]. apply Forall2_same_length_lookup. split; [done|].
  intros i b x Hb Hx. apply Z.leb_le, (H (b, x)), list_elem_of_In, list_elem_of_lookup. exists i.
  by rewrite lookup_zip_with, Hb, Hx.
Qed.

Lemma constant_stands f z : bounded 101 f → fe_value f mod P25519 = z mod P25519 → stands 101 f (of_int z).
Proof. intros Hb E. apply stands_intro; [done|]. rewrite val_def. by apply of_int_eq. Qed.

Lemma fe_d_stands : stands 101 fe_d curve_d.
Proof. rewrite curve_d_int. apply constant_stands; [by apply bounded_check|by vm_compute]. Qed.

Lemma d2_stands : stands 101 d2 ((1 + 1) * curve_d).
Proof.
  rewrite curve_d_int, <- of_int_1, <- of_int_add, <- of_int_mul. apply constant_stands; [by apply bounded_check|by vm_compute].
Qed.

Lemma sqrtm1_stands : stands 101 sqrtm1 curve_i.
Proof. rewrite curve_i_int. apply constant_stands; [by apply bounded_check|by vm_compute]. Qed.

Lemma ge_p3_to_cached_ok h P : rep_p3 h P → returns (ge_p3_to_cached h) (λ q, rep_cached q P).
Proof.
  intros (z & Hz & HX & HY & HZ & HT). pose proof d2_stands as Hd. unfold ge_p3_to_cached.
  repeat field_step. apply returns_Ok. exists z. split; [done|]. cbn [YplusX YminusX c_Z T2d].
  split; [eapply stands_eq; [weaker|ring]|]. split; [eapply stands_eq; [weaker|ring]|].
  split; [done|]. eapply stands_eq; [known|ring].
Qed.

(** ** Entries of a table *)

Lemma rep_precomp_zero : rep_precomp {| yplusx := fe_1; yminusx := fe_1; xy2d := fe_0 |} pzero.
Proof.
  pose proof stands_0 as H0. pose proof stands_1 as H1. split; [|split]; cbn [yplusx yminusx xy2d px py pzero];
    (eapply stands_eq; [weaker|ring]).
Qed.

Lemma rep_precomp_neg q P : rep_precomp q P →
  returns (fe_neg (xy2d q)) (λ m, rep_precomp {| yplusx := fe_copy (yminusx q); yminusx := fe_copy (yplusx q); xy2d := m |} (popp P)).
Proof.
  intros (H1 & H2 & H3). eapply returns_mono; [field_op|]. cbv beta. intros m Hm. unfold rep_precomp, fe_copy.
  cbn [yplusx yminusx xy2d px py popp]. split; [|split]; (eapply stands_eq; [known|ring]).
Qed.

(** Negating [X] and [T] negates the point. *)
Lemma rep_p3_neg h P : rep_p3 h P →
  ∃ X T, fe_neg (p3_X h) = Ok X ∧ fe_neg (p3_T h) = Ok T ∧
    rep_p3 {| p3_X := X; p3_Y := p3_Y h; p3_Z := p3_Z h; p3_T := T |} (popp P).
Proof.
  intros (z & Hz & HX & HY & HZ & HT). destruct (neg_stands 101 _ _ HX) as (X & EX & HX'); [done|].
  destruct (neg_stands 101 _ _ HT) as (T & ET & HT'); [done|]. exists X, T. split; [done|]. split; [done|].
  exists z. split; [done|]. cbn [p3_X p3_Y p3_Z p3_T px py popp].
  split; [eapply stands_eq; [known|ring]|]. split; [done|]. split; [done|]. eapply stands_eq; [known|ring].
Qed.
