(* ===== verification/GeEncoding.v ===== *)
(** * GeEncoding: the 32 bytes of a point

    A point is sent as the number [y] with the parity of [x] in the top bit.
    [ge_p3_tobytes] and [ge_tobytes] write these bytes for every representation of
    the point, and [ge_frombytes_negate_vartime] finds the negated point exactly
    when there is one: its square root is right for every field element. *)
From S2P Require Import Prelude Blake2 Limbs Fe25519 FeBytes Primes Edwards Ge25519 GePoints.
From Stdlib Require Import Zmod.Zmod Field.

Local Open Scope field_scope.
Add Field F_field_encoding : F_field.

Definition sign_bit (x : F) : Z := (to_int x mod 2)%Z.

Definition encode (P : point) : byte_array := le_bytes 32 (to_int (py P) + 2 ^ 255 * sign_bit (px P)).

(** The point that 32 bytes stand for: the sign of 0 is not looked at, and a
    number of [P25519] or more is taken modulo [P25519]. *)
Definition byte_y (s : byte_array) : F := of_int (le_value s mod 2 ^ 255).
Definition byte_sign (s : byte_array) : Z := (le_value s / 2 ^ 255)%Z.
Definition decodes (s : byte_array) (P : point) : Prop :=
  py P = byte_y s ∧ (px P = 0 ∨ sign_bit (px P) = byte_sign s).

(** ** Powers *)

Lemma is_pow_stands z e h x : is_pow (fe_value z) e h → val z = x → stands 101 h (x ^ e).
Proof.
  intros (Hb & He & E) <-. apply stands_intro; [done|]. rewrite !val_def, (of_int_eqp _ _ E). by apply Zmod.of_Z_pow.
Qed.

Lemma invert_stands f x : stands 330 f x → x ≠ 0 → returns (fe_invert f) (λ h, stands 101 h (1 / x)).
Proof.
  intros H Hx. eapply returns_mono; [apply fe_invert_ok, (stands_bounded _ _ _ H)|]. intros h Hh.
  eapply stands_eq; [eapply is_pow_stands; [exact Hh|exact (stands_val _ _ _ H)]|].
  rewrite (Zmod.fermat_inv _ Hx P25519_prime). by field.
Qed.

Lemma pow22523_stands f x : stands 330 f x → returns (fe_pow22523 f) (λ h, stands 101 h (x ^ (2 ^ 252 - 3))).
Proof.
  intros H. eapply returns_mono; [apply fe_pow22523_ok, (stands_bounded _ _ _ H)|]. intros h Hh.
  eapply is_pow_stands; [exact Hh|exact (stands_val _ _ _ H)].
Qed.

Lemma stands_int k f x : stands k f x → fe_value f mod P25519 = to_int x.
Proof. intros H. by rewrite <- (stands_val _ _ _ H), val_def, to_int_of_int. Qed.

Lemma isnegative_stands k f x : stands k f x → k <= 220 → fe_isnegative f = Ok (sign_bit x).
Proof.
  intros H Hk. rewrite fe_isnegative_ok; [|by eapply bounded_mono; [eapply stands_bounded|]].
  by rewrite (stands_int _ _ _ H).
Qed.

Lemma to_int_0_iff x : to_int x = 0%Z ↔ x = 0.
Proof. apply Zmod.unsigned_0_iff. Qed.

Lemma isnonzero_stands k f x :
  stands k f x → k <= 220 → fe_isnonzero f = Ok (if decide (x = 0%F) then 0 else 1)%Z.
Proof.
  intros H Hk. rewrite fe_isnonzero_ok; [|by eapply bounded_mono; [eapply stands_bounded|]].
  rewrite (stands_int _ _ _ H). destruct (decide (x = 0)) as [E|E].
  - apply to_int_0_iff in E. by rewrite E.
  - rewrite <- to_int_0_iff in E. apply Z.eqb_neq in E. by rewrite E.
Qed.

(** ** Writing *)

Lemma to_int_range x : 0 <= to_int x < P25519.
Proof. by apply Zmod.unsigned_pos_bound. Qed.

Lemma sign_bit_range x : 0 <= sign_bit x < 2.
Proof. by apply Z.mod_pos_bound. Qed.

(** [s[31] ^= n << 7] sets the top bit of a number below [2^255]. *)
Lemma set_top_bit v n : 0 <= v < 2 ^ 255 → 0 <= n < 2 →
  <[31%nat := u8 (Z.lxor (at_word (le_bytes 32 v) 31) (Z.shiftl n 7))]> (le_bytes 32 v) = le_bytes 32 (v + 2 ^ 255 * n).
Proof.
  intros Hv Hn. set (b := (v / 2 ^ 248)%Z). assert (E1 : ∀ x, le_bytes 1 x = [(x mod 256)%Z]) by done.
  assert (Hb : 0 <= b < 128) by (unfold b; split; [apply Z.div_pos|apply Z.div_lt_upper_bound]; lia).
  assert (E : le_bytes 32 v = le_bytes 31 v ++ [b]).
  { rewrite (le_bytes_split 31 1), E1. do 2 f_equal. apply Z.mod_small. lia. }
  assert (Hx : u8 (Z.lxor b (Z.shiftl n 7)) = (b + 128 * n)%Z).
  { destruct (decide (n = 0)%Z) as [->|]; [rewrite Z.shiftl_0_l, Z.lxor_0_r, Z.add_0_r; apply wrap_id; lia|].
    assert (n = 1)%Z as -> by lia. rewrite <- Z.add_nocarry_lxor; [apply wrap_id; cbn; lia|].
    rewrite <- (Z.mod_small b (2 ^ 7)) by lia. by rewrite <- Z.land_ones, <- Z.land_assoc, Z.land_0_r. }
  assert (Ea : at_word (le_bytes 32 v) 31 = b).
  { rewrite E. unfold at_word. rewrite app_nth2; rewrite length_le_bytes; [done|lia]. }
  rewrite Ea, Hx, E. rewrite insert_app_r_alt, length_le_bytes by (rewrite length_le_bytes; lia). cbn [Nat.sub insert list_insert].
  rewrite (le_bytes_split 31 1 (v + _)), E1. f_equal.
  - rewrite <- (le_bytes_mod 31 (v + _)), <- (le_bytes_mod 31 v). f_equal.
    replace (2 ^ 255 * n)%Z with (128 * n * 2 ^ 248)%Z by lia. by rewrite Z.mod_add.
  - f_equal. replace (2 ^ 255 * n)%Z with (128 * n * 2 ^ 248)%Z by lia.
    change (2 ^ (8 * Z.of_nat 31))%Z with (2 ^ 248)%Z. rewrite Z.div_add by done. fold b. rewrite Z.mod_small; lia.
Qed.

Lemma encode_xyz_ok X Y Z P z : z ≠ 0 →
  stands 101 X (px P * z) → stands 101 Y (py P * z) → stands 101 Z z → encode_xyz X Y Z = Ok (encode P).
Proof.
  intros Hz HX HY HZ. unfold encode_xyz.
  destruct (invert_stands Z z) as (r & -> & Hr); [weaker|done|]. rewrite bind_Ok.
  destruct (mul_stands X r (px P * z) (1 / z)) as (x & -> & Hx); [weaker|weaker|]. rewrite bind_Ok.
  destruct (mul_stands Y r (py P * z) (1 / z)) as (y & -> & Hy); [weaker|weaker|]. rewrite bind_Ok.
  apply (stands_eq _ _ _ (px P)) in Hx; [|by field]. apply (stands_eq _ _ _ (py P)) in Hy; [|by field].
  rewrite fe_tobytes_ok, bind_Ok by (eapply bounded_mono; [eapply stands_bounded, Hy|done]).
  rewrite (stands_int _ _ _ Hy), (isnegative_stands 101 x (px P)), bind_Ok by done.
  rewrite set_top_bit; [done| |apply sign_bit_range].
  pose proof (to_int_range (py P)) as H. assert (P25519 < 2 ^ 255)%Z by (by vm_compute). lia.
Qed.

Lemma ge_p3_tobytes_ok h P : rep_p3 h P → ge_p3_tobytes h = Ok (encode P).
Proof. intros (z & Hz & HX & HY & HZ & _). by apply encode_xyz_ok with z. Qed.

Lemma ge_tobytes_ok h P : rep_p2 h P → ge_tobytes h = Ok (encode P).
Proof. intros (z & Hz & HX & HY & HZ). by apply encode_xyz_ok with z. Qed.

(** ** The square root *)

Lemma decode_v_neq_0 y : y * y * curve_d + 1 ≠ 0.
Proof.
  intros E. assert (Hy : y ≠ 0) by (intros ->; apply F_one_neq_0; rewrite <- E; ring).
  apply (curve_d_nonsquare (curve_i / y)). transitivity (curve_i * curve_i / (y * y)); [by field|].
  rewrite curve_i_square. transitivity ((y * y * curve_d - (y * y * curve_d + 1)) / (y * y)); [by field|]. rewrite E. by field.
Qed.

(** A number whose [x^2 v] is [u] is the coordinate of a point, and the other way
    round. *)
Lemma decode_on_curve x y : x * x * (y * y * curve_d + 1) = y * y - 1 ↔ on_curve x y = true.
Proof.
  rewrite on_curve_eq. split; intros H.
  - transitivity ((y * y - 1) + 1 - x * x); [ring|]. rewrite <- H. ring.
  - transitivity ((1 + curve_d * (x * x) * (y * y)) - 1 + x * x); [ring|]. rewrite <- H. ring.
Qed.

Section Root.
  Variables u v : F.
Let v3 := v * v * v.
Let w := v3 * v3 * v * u.
Let candidate := w ^ (2 ^ 252 - 3) * v3 * u.

Lemma candidate_square : candidate * candidate * v = u * w ^ (2 ^ 253 - 5).
Proof.
  assert (E : (2 ^ 253 - 5 = (2 ^ 252 - 3) + (2 ^ 252 - 3) + 1)%Z) by (by vm_compute).
  rewrite E, !Zmod.pow_add_r_nonneg, Zmod.pow_1_r by (by vm_compute). unfold candidate.
  generalize (w ^ (2 ^ 252 - 3)). intros q. unfold w, v3. ring.
Qed.

Lemma candidate_root x : x * x * v = u → candidate * candidate * v = u ∨ candidate * candidate * v = - u.
Proof.
  intros Hx. rewrite candidate_square. destruct (decide (u = 0)) as [Hu|Hu]; [left; rewrite Hu; ring|].
  assert (Hr : x * v * v * v * v ≠ 0).
  { intros E. apply Hu. rewrite <- Hx. destruct (F_integral (x * v * v * v) v E) as [E3|E3]; [|rewrite E3; ring].
    destruct (F_integral (x * v * v) v E3) as [E2|E2]; [|rewrite E2; ring].
    destruct (F_integral (x * v) v E2) as [E1|E1]; [|rewrite E1; ring].
    transitivity (x * (x * v)); [ring|]. rewrite E1. ring. }
  assert (Ew : w = x * v * v * v * v * (x * v * v * v * v)) by (unfold w, v3; rewrite <- Hx; ring).
  assert (E1 : w ^ (2 ^ 253 - 5) * w ^ (2 ^ 253 - 5) = 1).
  { rewrite <- Zmod.pow_add_r_nonneg by (by vm_compute).
    assert (E : (2 ^ 253 - 5 + (2 ^ 253 - 5) = (P25519 - 1) / 2)%Z) by (by vm_compute). rewrite E, Ew. by apply square_power. }
  destruct (F_square_eq (w ^ (2 ^ 253 - 5)) 1) as [-> | ->]; [rewrite E1; ring|left; ring|right; ring].
Qed.
End Root.

(** ** Reading *)

Lemma byte_sign_top s : length s = 32%nat → bytes_ok s → Z.shiftr (at_word s 31) 7 = byte_sign s ∧ 0 <= byte_sign s < 2.
Proof.
  intros Hl Hok. unfold byte_sign. pose proof (le_value_range s Hok) as Hr. rewrite Hl in Hr.
  assert (E : at_word s 31 = (le_value s / 2 ^ 248)%Z).
  { rewrite <- (le_bytes_le_value s Hok) at 1. rewrite Hl, (le_bytes_split 31 1).
    unfold at_word. rewrite app_nth2; rewrite length_le_bytes; [|lia]. cbn [Nat.sub nth le_bytes].
    apply Z.mod_small. split; [apply Z.div_pos|apply Z.div_lt_upper_bound]; lia. }
  rewrite E, Z.shiftr_div_pow2, Z.div_div by lia. split; [done|].
  split; [apply Z.div_pos|apply Z.div_lt_upper_bound]; lia.
Qed.

Lemma sign_bit_opp x : x ≠ 0 → sign_bit (- x) = (1 - sign_bit x)%Z.
Proof.
  intros Hx. unfold sign_bit. rewrite <- to_int_0_iff in Hx. pose proof (to_int_range x) as Hr.
  assert (E : to_int (- x) = (P25519 - to_int x)%Z).
  { transitivity ((- to_int x) mod P25519)%Z; [apply Zmod.unsigned_opp|].
    symmetry. apply (Z.mod_unique _ _ (-1)); lia. }
  assert (HP : P25519 = (2 * (2 ^ 254 - 10) + 1)%Z) by (by vm_compute).
  rewrite E, HP. pose proof (Z.div_mod (to_int x) 2 ltac:(lia)) as D.
  pose proof (Z.mod_pos_bound (to_int x) 2 ltac:(lia)) as B. symmetry. apply (Z.mod_unique _ _ (2 ^ 254 - 10 - to_int x / 2)); lia.
Qed.

Lemma decodes_unique s P Q : decodes s P → decodes s Q → P = Q.
Proof.
  intros [Hy Hs] [Hy' Hs']. assert (Ey : py P = py Q) by congruence. apply point_eq; [|done].
  pose proof (proj2 (decode_on_curve (px P) (py P)) (p_on_curve P)) as H.
  pose proof (proj2 (decode_on_curve (px Q) (py Q)) (p_on_curve Q)) as H'.
  rewrite <- Ey in H'. pose proof (decode_v_neq_0 (py P)) as Hv. set (v := py P * py P * curve_d + 1) in *.
  assert (E : px P * px P = px Q * px Q).
  { transitivity (px P * px P * v / v); [by field|]. rewrite H, <- H'. by field. }
  apply F_square_eq in E as [E|E]; [done|]. destruct (decide (px Q = 0)) as [E0|E0]; [rewrite E, E0; ring|].
  destruct Hs' as [?|Hs']; [done|]. pose proof (sign_bit_opp _ E0) as Ho. rewrite <- E in Ho.
  pose proof (sign_bit_range (px Q)). destruct Hs as [Hs|Hs]; [|lia].
  rewrite Hs in E. exfalso. apply E0. transitivity (- - px Q); [ring|]. rewrite <- E. ring.
Qed.

Lemma neg_point P x y : px P = - x → py P = y → px (popp P) = x ∧ py (popp P) = y.
Proof. intros Ex Ey. cbn. rewrite Ex, Ey. split; [ring|done]. Qed.

(** The last steps of reading, once [x] is a coordinate: the sign that was not
    asked for is taken, as the result is negated. *)
Definition decode_finish (s : byte_array) (hY hX : fe) : result (Z * ge_p3) :=
  n ← fe_isnegative hX;
  hX ← (if n =? Z.shiftr (at_word s 31) 7 then fe_neg hX else Ok hX);
  hT ← fe_mul hX hY;
  Ok (0%Z, {| p3_X := hX; p3_Y := hY; p3_Z := fe_1; p3_T := hT |}).

Definition decoded (s : byte_array) (r : Z * ge_p3) : Prop := ∃ P, r.1 = 0%Z ∧ decodes s P ∧ rep_p3 r.2 (popp P).

Lemma choose_sign s hX x : length s = 32%nat → bytes_ok s → stands 101 hX x →
  returns (if sign_bit x =? Z.shiftr (at_word s 31) 7 then fe_neg hX else Ok hX)
    (λ h, ∃ x', stands 101 h x' ∧ x' * x' = x * x ∧ (x' = 0 ∨ sign_bit (- x') = byte_sign s)).
Proof.
  intros Hl Hok HX. destruct (byte_sign_top s Hl Hok) as [-> Hs]. destruct (Z.eqb_spec (sign_bit x) (byte_sign s)) as [E|E].
  - eapply returns_mono; [by apply (neg_stands 101 hX x)|]. intros h Hh. exists (- x). split; [done|]. split; [ring|right].
    rewrite <- E. f_equal. ring.
  - apply returns_Ok. exists x. split; [done|]. split; [done|]. destruct (decide (x = 0)) as [?|Hx]; [by left|right].
    rewrite (sign_bit_opp _ Hx). pose proof (sign_bit_range x). lia.
Qed.

Lemma decode_finish_ok s hY hX x : length s = 32%nat → bytes_ok s →
  stands 101 hY (byte_y s) → stands 101 hX x → on_curve x (byte_y s) = true →
  returns (decode_finish s hY hX) (decoded s).
Proof.
  intros Hl Hok HY HX Hc. unfold decode_finish. rewrite (isnegative_stands 101 hX x), bind_Ok by done.
  eapply returns_bind; [by apply (choose_sign s hX x)|]. intros h (x' & Hh & Ex & Hsign). field_step. apply returns_Ok.
  assert (Hc' : on_curve (- x') (byte_y s) = true).
  { apply decode_on_curve. apply decode_on_curve in Hc. rewrite <- Hc, <- Ex. ring. }
  exists (Point _ _ Hc'). split; [done|]. pose proof stands_1 as H1. split.
  - split; [done|]. cbn. destruct Hsign as [->|Hs]; [left; ring|by right].
  - exists 1. split; [apply F_one_neq_0|]. cbn [p3_X p3_Y p3_Z p3_T px py popp fst snd].
    split; [eapply stands_eq; [known|ring]|]. split; [eapply stands_eq; [known|ring]|].
    split; [weaker|]. eapply stands_eq; [known|ring].
Qed.

Lemma no_root_no_point y P :
  let u := y * y - 1 in let v := y * y * curve_d + 1 in
  let v3 := v * v * v in let c := (v3 * v3 * v * u) ^ (2 ^ 252 - 3) * v3 * u in
  c * c * v - u ≠ 0 → c * c * v + u ≠ 0 → py P ≠ y.
Proof.
  intros u v v3 c H1 H2 E. pose proof (proj2 (decode_on_curve (px P) (py P)) (p_on_curve P)) as H. rewrite E in H.
  destruct (candidate_root u v (px P) H) as [Hc|Hc]; fold v3 in Hc; fold c in Hc.
  - apply H1. rewrite Hc. ring.
  - apply H2. rewrite Hc. ring.
Qed.

Lemma F_sub_0 x y : x - y = 0 → x = y.
Proof. intros E. transitivity (x - y + y); [ring|]. rewrite E. ring. Qed.

Lemma F_add_0 x y : x + y = 0 → x = - y.
Proof. intros E. apply F_sub_0. rewrite <- E. ring. Qed.

Tactic Notation "test_zero" "as" simple_intropattern(pat) :=
  match goal with
  | H : stands ?k ?c ?x |- returns (fe_isnonzero ?c ≫= _) _ =>
      rewrite (isnonzero_stands k c x H) by small_bound; rewrite bind_Ok
  end;
  match goal with |- context [decide ?P] => destruct (decide P) as pat end; cbn [Z.eqb negb].

Lemma ge_frombytes_ok h s : length s = 32%nat → bytes_ok s →
  returns (ge_frombytes_negate_vartime h s) (λ r, decoded s r ∨ (r.1 = (-1)%Z ∧ ∀ P, py P ≠ byte_y s)).
Proof.
  intros Hl Hok. unfold ge_frombytes_negate_vartime. pose proof stands_1 as H1. pose proof fe_d_stands as Hd. pose proof sqrtm1_stands as Hi.
  eapply returns_bind; [by apply fe_frombytes_ok|]. intros hY (Hb & Ey). cbv beta in Hb, Ey.
  assert (HY : stands 101 hY (byte_y s)) by (apply stands_intro; [done|rewrite val_def; by apply of_int_eqp]).
  set (y := byte_y s) in *.
  do 9 field_step. eapply returns_bind; [apply pow22523_stands; weaker|cbv beta; intros]. do 5 field_step.
  test_zero as [E|E].
  - eapply returns_mono; [|by left]. eapply decode_finish_ok; [done|done|known|known|].
    apply decode_on_curve. by apply F_sub_0.
  - field_step. test_zero as [E'|E'].
    + field_step. eapply returns_mono; [|by left]. eapply decode_finish_ok; [done|done|known|known|].
      apply decode_on_curve. fold y. apply F_add_0 in E'. transitivity (- - (y * y - 1)); [|ring]. rewrite <- E'.
      ring [curve_i_square].
    + apply returns_Ok. right. split; [done|]. intros P. by apply no_root_no_point.
Qed.

(** ** The bytes of a point are read back *)

Lemma length_point_bytes P : length (encode P) = 32%nat.
Proof. apply length_le_bytes. Qed.

Lemma encode_ok P : bytes_ok (encode P).
Proof. apply le_bytes_ok. Qed.

Lemma encode_value P : le_value (encode P) = (to_int (py P) + 2 ^ 255 * sign_bit (px P))%Z.
Proof.
  unfold encode. rewrite le_value_le_bytes. apply Z.mod_small. pose proof (to_int_range (py P)). pose proof (sign_bit_range (px P)).
  assert (P25519 < 2 ^ 255)%Z by (by vm_compute). change (2 ^ (8 * Z.of_nat 32))%Z with (2 * 2 ^ 255)%Z. lia.
Qed.

Lemma decodes_encode P : decodes (encode P) P.
Proof.
  pose proof (to_int_range (py P)). assert (P25519 < 2 ^ 255)%Z by (by vm_compute).
  unfold decodes, byte_y, byte_sign. rewrite encode_value, (Z.mul_comm (2 ^ 255)). split; [|right].
  - rewrite Z.mod_add, Z.mod_small by lia. by rewrite of_int_to_int.
  - rewrite Z.div_add, Z.div_small by lia. done.
Qed.

Lemma encode_inj P Q : encode P = encode Q → P = Q.
Proof. intros E. apply (decodes_unique (encode P)); [apply decodes_encode|rewrite E; apply decodes_encode]. Qed.
