(* ===== verification/GeScalar.v ===== *)
(** * GeScalar: the scalar multiplications of ge.c

    The signed digits of the two recodings stand for the scalar, and the loops
    over them compute the multiples: [ge_scalarmult_base] those of the base point
    from its table of 32 rows, [ge_double_scalarmult_vartime] a sum of two
    multiples with sliding windows.  The tables are parameters here, with what
    their entries stand for as hypotheses; GeTables shows it of the ones in
    precomp_data.h. *)
From S2P Require Import Prelude Blake2 Limbs Fe25519 FeBytes Primes Edwards Ge25519 GePoints.

(** ** Numbers by their digits *)

Definition digits_value (b : Z) (l : list Z) : Z := foldr (λ e acc, e + b * acc) 0 l.

Lemma digits_value_app b l x : digits_value b (l ++ [x]) = digits_value b l + b ^ Z.of_nat (length l) * x.
Proof.
  unfold digits_value. induction l as [|y l IH]; cbn [app foldr length]; [lia|]. rewrite IH, Nat2Z.inj_succ, Z.pow_succ_r; lia.
Qed.

Lemma at_word_lookup l i : (i < length l)%nat → l !! i = Some (at_word l i).
Proof. intros H. unfold at_word. rewrite nth_lookup. destruct (lookup_lt_is_Some_2 l i H) as [x ->]. done. Qed.

Lemma take_insert_S (l : list Z) i x : (i < length l)%nat → take (S i) (<[i := x]> l) = take i l ++ [x].
Proof.
  intros H. rewrite (take_S_r _ _ x) by (by apply list_lookup_insert_eq). by rewrite take_insert_ge.
Qed.

Lemma digits_value_take b l i : (i < length l)%nat →
  digits_value b (take (S i) l) = digits_value b (take i l) + b ^ Z.of_nat i * at_word l i.
Proof. intros H. rewrite (take_S_r _ _ _ (at_word_lookup l i H)), digits_value_app, length_take. do 3 f_equal. lia. Qed.

(** ** Digits of at most 8 *)

Lemma nibbles_value a : bytes_ok a → digits_value 16 (concat ((λ x, [Z.land (Z.shiftr x 0) 15; Z.land (Z.shiftr x 4) 15]) <$> a)) = le_value a.
Proof.
  induction 1 as [|x a Hx _ IH]; [done|]. cbn [fmap list_fmap concat app le_value digits_value foldr].
  unfold digits_value in IH. rewrite IH. change 15 with (Z.ones 4). rewrite !Z.land_ones, Z.shiftr_0_r, Z.shiftr_div_pow2 by lia.
  unfold is_u8, is_unsigned in Hx. change (2 ^ 4) with 16. pose proof (Z.div_mod x 16 ltac:(lia)).
  rewrite (Z.mod_small (x / 16)); [lia|]. split; [apply Z.div_pos|apply Z.div_lt_upper_bound]; lia.
Qed.

Lemma nibbles_ok a : length a = 32%nat → bytes_ok a →
  length (nibbles a) = 64%nat ∧ Forall (λ x, 0 <= x <= 15) (nibbles a) ∧ digits_value 16 (nibbles a) = le_value a.
Proof.
  intros Hl Hok. unfold nibbles. rewrite take_ge by lia. split; [|split; [|by apply nibbles_value]].
  - rewrite <- (Nat.mul_1_r 64). change 64%nat with (2 * 32)%nat. rewrite <- Hl. clear. induction a as [|x a IH]; cbn in *; lia.
  - assert (H : ∀ y, 0 <= Z.land y 15 <= 15).
    { intros y. change 15 with (Z.ones 4) at 1 2. rewrite Z.land_ones by lia.
      pose proof (Z.mod_pos_bound y (2 ^ 4) ltac:(lia)). lia. }
    apply Forall_concat, Forall_map, Forall_true. intros x. by repeat (constructor; [apply H|]).
Qed.

Record recoded (e0 : list Z) (i : nat) (s : list Z * Z) : Prop := {
  rc_length : length s.1 = length e0;
  rc_rest : drop i s.1 = drop i e0;
  rc_carry : 0 <= s.2 <= 1;
  rc_small : Forall (λ x, -8 <= x <= 8) (take i s.1);
  rc_value : digits_value 16 (take i s.1) + 16 ^ Z.of_nat i * s.2 = digits_value 16 (take i e0)
}.

Lemma i8_id x : -128 <= x < 128 → i8 x = x.
Proof. intros. apply swrap_id; [lia|split; cbn; lia]. Qed.

Lemma recode_turn_ok e0 i s : (i < length e0)%nat → 0 <= at_word e0 i <= 15 →
  recoded e0 i s → recoded e0 (S i) (recode_turn s i).
Proof.
  intros Hi Hx [Hl Hd Hc Hs Hv]. destruct s as [e c]. cbn [fst snd] in *. unfold recode_turn.
  assert (Ex : at_word e i = at_word e0 i).
  { unfold at_word. rewrite !nth_lookup. f_equal. rewrite <- (Nat.add_0_r i), <- !lookup_drop. by rewrite Hd. }
  rewrite Ex. set (x := at_word e0 i) in *. rewrite (i8_id (x + c)), (i8_id (x + c + 8)), Z.shiftr_div_pow2 by lia.
  change (2 ^ 4) with 16. set (c' := (x + c + 8) / 16). rewrite Z.shiftl_mul_pow2 by lia. change (2 ^ 4) with 16.
  assert (Hc' : c' * 16 <= x + c + 8 < c' * 16 + 16).
  { pose proof (Z.div_mod (x + c + 8) 16 ltac:(lia)). pose proof (Z.mod_pos_bound (x + c + 8) 16 ltac:(lia)). unfold c'. lia. }
  rewrite i8_id by lia. constructor; cbn [fst snd].
  - by rewrite length_insert.
  - rewrite drop_insert_lt by lia. replace (S i) with (i + 1)%nat by lia. by rewrite <- !drop_drop, Hd.
  - lia.
  - rewrite take_insert_S by lia. apply Forall_app. split; [done|]. repeat constructor; lia.
  - rewrite take_insert_S, digits_value_app, length_take, digits_value_take by lia.
    replace (i `min` length e)%nat with i by lia. fold x. rewrite <- Hv, Nat2Z.inj_succ, Z.pow_succ_r by lia. lia.
Qed.

Lemma recode_loop e0 n : (n <= length e0)%nat → Forall (λ x, 0 <= x <= 15) e0 →
  recoded e0 n (foldl recode_turn (e0, 0) (seq 0 n)).
Proof.
  intros Hn He. induction n as [|n IH]; [by constructor|]. rewrite seq_S, foldl_snoc.
  apply recode_turn_ok; [lia| |apply IH; lia]. rewrite Forall_forall in He. apply He, list_elem_of_lookup. exists n.
  apply at_word_lookup. lia.
Qed.

Lemma digits_value_bound l : Forall (λ x, 0 <= x) l → 0 <= digits_value 16 l.
Proof. unfold digits_value. induction 1; cbn [foldr]; lia. Qed.

(** The digits of [recode] are between -8 and 8 and stand for the scalar. *)
Lemma recode_ok a : length a = 32%nat → bytes_ok a → le_value a < 2 ^ 255 →
  length (recode a) = 64%nat ∧ Forall (λ x, -8 <= x <= 8) (recode a) ∧ digits_value 16 (recode a) = le_value a.
Proof.
  intros Hl Hok Ha. destruct (nibbles_ok a Hl Hok) as (Ln & Hn & Vn). unfold recode.
  destruct (recode_loop (nibbles a) 63) as [L D C S V]; [lia|done|].
  destruct (foldl recode_turn (nibbles a, 0) (seq 0 63)) as [e c]. cbn [fst snd] in *.
  assert (E63 : at_word e 63 = at_word (nibbles a) 63).
  { unfold at_word. rewrite !nth_lookup. f_equal. change 63%nat with (63 + 0)%nat. rewrite <- !lookup_drop. by rewrite D. }
  assert (T : le_value a = digits_value 16 (take 63 (nibbles a)) + 16 ^ 63 * at_word (nibbles a) 63).
  { rewrite <- Vn, <- (take_ge (nibbles a) 64) at 1 by lia. by rewrite digits_value_take by lia. }
  assert (H0 : 0 <= digits_value 16 (take 63 (nibbles a))).
  { apply digits_value_bound, Forall_take. eapply Forall_impl; [exact Hn|]. cbn. lia. }
  assert (H63 : 0 <= at_word (nibbles a) 63 <= 7).
  { rewrite Forall_forall in Hn. assert (Hx : 0 <= at_word (nibbles a) 63 <= 15).
    { apply Hn, list_elem_of_lookup. exists 63%nat. apply at_word_lookup. lia. }
    change (2 ^ 255) with (8 * 16 ^ 63) in Ha. nia. }
  rewrite E63, i8_id by lia. set (x := at_word (nibbles a) 63) in *.
  assert (Et : <[63%nat := x + c]> e = take 63 e ++ [x + c]).
  { rewrite <- (take_insert_S e 63 (x + c)) by lia. rewrite take_ge; [done|]. rewrite length_insert. lia. }
  rewrite Et. split; [|split].
  - rewrite length_app, length_take. cbn [length]. lia.
  - apply Forall_app. split; [done|]. repeat constructor; lia.
  - rewrite digits_value_app, length_take, T, <- V. replace (63 `min` length e)%nat with 63%nat by lia. lia.
Qed.

(** ** A row of the table *)

Definition base_table (base : list (list ge_precomp)) (B : point) : Prop :=
  ∀ i j, (i < 32)%nat → (j < 8)%nat → ∃ row q, base !! i = Some row ∧ row !! j = Some q ∧
    rep_precomp q (pmul ((Z.of_nat j + 1) * 256 ^ Z.of_nat i) B).

Lemma stands_typed f x : stands 101 f x → fe_typed f.
Proof. intros H. apply (bounded_typed 101); [done|]. by eapply stands_bounded. Qed.

Lemma cmov_ok t u b P Q : rep_precomp t P → rep_precomp u Q → b = 0 ∨ b = 1 → cmov t u b = if b =? 1 then u else t.
Proof.
  intros (H1 & H2 & H3) (K1 & K2 & K3) Hb. unfold cmov.
  rewrite !fe_cmov_ok by (done || by eapply stands_typed).
  destruct t, u; by destruct (b =? 1).
Qed.

Lemma digit_tests b : -8 <= b <= 8 →
  negative b = (if b <? 0 then 1 else 0) ∧ u8 (b - Z.shiftl (Z.land (- negative b) b) 1) = Z.abs b ∧
  ∀ k, 1 <= k <= 8 → equal (i8 (Z.abs b)) k = if Z.abs b =? k then 1 else 0.
Proof.
  intros Hb. assert (Hd : b = -8 ∨ b = -7 ∨ b = -6 ∨ b = -5 ∨ b = -4 ∨ b = -3 ∨ b = -2 ∨ b = -1 ∨ b = 0 ∨
    b = 1 ∨ b = 2 ∨ b = 3 ∨ b = 4 ∨ b = 5 ∨ b = 6 ∨ b = 7 ∨ b = 8) by lia.
  assert (Hk : ∀ k, 1 <= k <= 8 → k = 1 ∨ k = 2 ∨ k = 3 ∨ k = 4 ∨ k = 5 ∨ k = 6 ∨ k = 7 ∨ k = 8) by lia.
  destruct_or! Hd; subst b; (split; [done|]; split; [done|]; intros k Hk'; apply Hk in Hk'; destruct_or! Hk'; by subst k).
Qed.

Lemma bool_digit (c : bool) : (if c then 1 else 0) = 0 ∨ (if c then 1 else 0) = 1.
Proof. destruct c; auto. Qed.

Section Select.
  Variables (base : list (list ge_precomp)) (B : point) (pos : nat) (b : Z).
  Hypothesis Hbase : base_table base B.
  Hypothesis Hpos : (pos < 32)%nat.
  Hypothesis Hb : -8 <= b <= 8.

Let neutral := {| yplusx := fe_1; yminusx := fe_1; xy2d := fe_0 |}.
Let step row := λ j t, u ← table_entry row (Z.of_nat j); Ok (cmov t u (equal (i8 (Z.abs b)) (Z.of_nat j + 1))).

Lemma table_entry_ok {A} (l : list A) i x : l !! i = Some x → table_entry l (Z.of_nat i) = Ok x.
Proof. intros H. unfold table_entry. by rewrite Nat2Z.id, H. Qed.

Lemma select_loop row n : base !! pos = Some row → (n <= 8)%nat →
  returns (run (step row) (seq 0 n) neutral)
    (λ t, rep_precomp t (if decide (1 <= Z.abs b <= Z.of_nat n) then pmul (Z.abs b * 256 ^ Z.of_nat pos) B else pzero)).
Proof.
  intros Hrow Hn. induction n as [|n IH].
  - apply returns_Ok. destruct (decide _); [lia|apply rep_precomp_zero].
  - rewrite seq_S, run_app. eapply returns_bind; [apply IH; lia|]. intros t Ht. cbn [run Nat.add].
    destruct (Hbase pos n) as (row' & q & Hr & Hq & Hrep); [done|lia|]. assert (row' = row) as -> by congruence.
    unfold step. rewrite (table_entry_ok row n q Hq), bind_Ok, bind_Ok. apply returns_Ok.
    destruct (digit_tests b Hb) as (_ & _ & He). rewrite He by lia.
    rewrite (cmov_ok t q _ _ _ Ht Hrep) by apply bool_digit. destruct (Z.eqb_spec (Z.abs b) (Z.of_nat n + 1)) as [E|E]; cbn [Z.eqb Pos.eqb].
    + rewrite decide_True by lia. by rewrite E.
    + destruct (decide (1 <= Z.abs b <= Z.of_nat n)); [rewrite decide_True by lia|rewrite decide_False by lia]; exact Ht.
Qed.

Lemma select_ok : returns (select base pos b) (λ t, rep_precomp t (pmul (b * 256 ^ Z.of_nat pos) B)).
Proof.
  destruct (Hbase pos 0%nat) as (row & _ & Hrow & _); [done|lia|]. destruct (digit_tests b Hb) as (En & Ea & _).
  unfold select. rewrite (table_entry_ok base pos row Hrow), bind_Ok, Ea, En.
  eapply returns_bind; [by apply (select_loop row 8%nat)|]. intros t Ht. cbv beta in Ht.
  eapply returns_bind; [by apply (rep_precomp_neg t _ Ht)|]. intros m Hm. cbv beta in Hm. apply returns_Ok.
  rewrite (cmov_ok _ _ _ _ _ Ht Hm) by apply bool_digit.
  destruct (Z.ltb_spec b 0); cbn [Z.eqb Pos.eqb].
  - rewrite decide_True, <- pmul_opp in Hm by lia. by replace (b * _) with (- (Z.abs b * 256 ^ Z.of_nat pos)) by lia.
  - destruct (decide (b = 0)) as [->|]; [done|].
    rewrite decide_True in Ht by lia. by replace (b * _) with (Z.abs b * 256 ^ Z.of_nat pos) by lia.
Qed.
End Select.

(** ** Multiples of the base point *)

Definition turns_value (e : list Z) (idx : list nat) : Z :=
  foldr (λ i acc, at_word e i * 256 ^ Z.of_nat (i / 2) + acc) 0 idx.

Lemma base_turn_ok base B e i h P :
  base_table base B → (i < 64)%nat → (∀ i, -8 <= at_word e i <= 8) → rep_p3 h P →
  returns (base_turn base e i h) (λ h, rep_p3 h (padd P (pmul (at_word e i * 256 ^ Z.of_nat (i / 2)) B))).
Proof.
  intros Hb Hi He Hh. unfold base_turn.
  eapply returns_bind; [apply (select_ok base B (i / 2)%nat (at_word e i) Hb); [apply Nat.Div0.div_lt_upper_bound; lia|done]|].
  intros t Ht. cbv beta in Ht. eapply returns_bind; [by apply (ge_madd_ok h t P _ Hh Ht)|].
  intros r Hr. by apply ge_p1p1_to_p3_ok.
Qed.

Lemma base_loop base B e idx h P :
  base_table base B → Forall (λ i, (i < 64)%nat) idx → (∀ i, -8 <= at_word e i <= 8) → rep_p3 h P →
  returns (run (base_turn base e) idx h) (λ h, rep_p3 h (padd P (pmul (turns_value e idx) B))).
Proof.
  intros Hb Hi He. revert h P. induction Hi as [|i idx Hi _ IH]; intros h P Hh; cbn [run turns_value foldr].
  { apply returns_Ok. cbn [pmul]. by rewrite padd_zero_r. }
  eapply returns_bind; [by apply (base_turn_ok base B e i h P)|]. intros h' Hh'. cbv beta in Hh'.
  eapply returns_mono; [by apply (IH h' _ Hh')|]. intros h'' Hh''. cbv beta in *. fold (turns_value e idx).
  by rewrite pmul_add, padd_assoc.
Qed.

Lemma pmul_double k P : padd (pmul k P) (pmul k P) = pmul (2 * k) P.
Proof. rewrite <- pmul_add. f_equal. lia. Qed.

Ltac ge_step lem := eapply returns_bind; [apply lem; eassumption|cbv beta; intros].

Lemma four_doublings_ok h P : rep_p3 h P → returns (four_doublings h) (λ h, rep_p3 h (pmul 16 P)).
Proof.
  intros H. rewrite <- (pmul_1 P) in H. unfold four_doublings. ge_step ge_p3_dbl_ok.
  do 3 (ge_step ge_p1p1_to_p2_ok; ge_step ge_p2_dbl_ok).
  eapply returns_mono; [by eapply ge_p1p1_to_p3_ok|]. intros h' Hh'. cbv beta in Hh'. by rewrite !pmul_double in Hh'.
Qed.

(** The odd digits first, sixteen times, and then the even ones. *)
Lemma interleaved_digits e n : (2 * n <= length e)%nat →
  16 * turns_value e ((λ i, 2 * i + 1)%nat <$> seq 0 n) + turns_value e ((λ i, 2 * i)%nat <$> seq 0 n) =
  digits_value 16 (take (2 * n) e).
Proof.
  assert (Hs : ∀ idx i, turns_value e (idx ++ [i]) = turns_value e idx + at_word e i * 256 ^ Z.of_nat (i / 2)).
  { intros idx i. unfold turns_value. induction idx as [|j idx IH]; cbn [app foldr]; [lia|]. rewrite IH. lia. }
  induction n as [|n IH]; [done|]. intros Hn. rewrite seq_S, !fmap_app. cbn [fmap list_fmap Nat.add]. rewrite !Hs.
  replace (2 * S n)%nat with (S (S (2 * n))) by lia. rewrite !digits_value_take, <- IH by lia.
  replace ((2 * n + 1) / 2)%nat with n by (rewrite Nat.add_comm, Nat.mul_comm, Nat.div_add; done).
  replace (2 * n / 2)%nat with n by (by rewrite Nat.mul_comm, Nat.div_mul). rewrite Nat.add_1_r.
  assert (E : 16 ^ Z.of_nat (2 * n) = 256 ^ Z.of_nat n).
  { rewrite Nat2Z.inj_mul, Z.pow_mul_r by lia. done. }
  rewrite (Nat2Z.inj_succ (2 * n)), Z.pow_succ_r, E by lia. lia.
Qed.

Lemma Forall_at_word (Q : Z → Prop) l i : Q 0 → Forall Q l → Q (at_word l i).
Proof.
  intros H0 H. unfold at_word. rewrite nth_lookup. destruct (l !! i) as [x|] eqn:E; [|done]. cbn. by eapply Forall_lookup_1.
Qed.

Lemma scalarmult_base_ok base B a :
  base_table base B → length a = 32%nat → bytes_ok a → le_value a < 2 ^ 255 →
  returns (scalarmult_base base a) (λ h, rep_p3 h (pmul (le_value a) B)).
Proof.
  intros Hb Hl Hok Ha. destruct (recode_ok a Hl Hok Ha) as (L & Hd & V). unfold scalarmult_base.
  assert (He : ∀ i, -8 <= at_word (recode a) i <= 8) by (intros i; apply (Forall_at_word (λ x, -8 <= x <= 8)); [lia|exact Hd]).
  revert L Hd V He. generalize (recode a). intros e L Hd V He. cbv zeta.
  eapply returns_bind; [apply (base_loop base B e _ ge_p3_0 pzero Hb); [|exact He|exact rep_p3_0]|].
  { apply Forall_fmap, Forall_seq. cbn. lia. }
  intros h Hh. cbv beta in Hh. rewrite padd_zero_l in Hh. ge_step four_doublings_ok.
  rewrite <- pmul_mul in *.
  eapply returns_mono; [eapply (base_loop base B e); [done| |exact He|eassumption]|].
  { apply Forall_fmap, Forall_seq. cbn. lia. }
  intros h' Hh'. cbv beta in Hh'. rewrite <- pmul_add, interleaved_digits, take_ge, V in Hh' by lia. done.
Qed.

(** ** Sliding windows

    [dv i r] is the number that the digits from [i] on stand for. *)

Definition dv (i : nat) (r : list Z) : Z := digits_value 2 (drop i r).

Definition bits_from (i : nat) (r : list Z) : Prop := ∀ j, (i <= j)%nat → at_word r j = 0 ∨ at_word r j = 1.

Definition same_before (i : nat) (r r' : list Z) : Prop := ∀ j, (j < i)%nat → at_word r' j = at_word r j.

Lemma dv_S i r : dv i r = at_word r i + 2 * dv (S i) r.
Proof.
  unfold dv, at_word. destruct (decide (i < length r)%nat) as [H|H].
  - destruct (lookup_lt_is_Some_2 r i H) as [x Hx]. rewrite (drop_S _ _ _ Hx), nth_lookup, Hx. done.
  - rewrite !drop_ge by lia. by rewrite nth_overflow by lia.
Qed.

Lemma dv_prefix i r r' : same_before i r r' → dv i r' = dv i r → dv 0 r' = dv 0 r.
Proof.
  induction i as [|i IH]; [done|]. intros Hs E. apply IH; [intros j Hj; apply Hs; lia|].
  rewrite (dv_S i r'), (dv_S i r), E. by rewrite Hs by lia.
Qed.

Lemma dv_ext i r r' : (∀ j, (i <= j)%nat → at_word r' j = at_word r j) → length r' = length r → dv i r' = dv i r.
Proof.
  intros H L. unfold dv. f_equal. apply list_eq. intros j. rewrite !lookup_drop.
  destruct (decide (i + j < length r)%nat).
  - rewrite !at_word_lookup, H by lia. done.
  - by rewrite !lookup_ge_None_2 by lia.
Qed.

Lemma at_word_insert l i j x : at_word (<[i := x]> l) j = if decide (i = j ∧ (j < length l)%nat) then x else at_word l j.
Proof.
  unfold at_word. rewrite !nth_lookup. destruct (decide (i = j ∧ (j < length l)%nat)) as [[-> H]|H].
  - by rewrite list_lookup_insert_eq.
  - destruct (decide (i = j)) as [->|Hn]; [|by rewrite list_lookup_insert_ne]. by rewrite list_insert_ge by lia.
Qed.

Lemma carry_up_ok n k r : length r = (k + n)%nat → bits_from k r → dv k r + 1 < 2 ^ Z.of_nat n →
  let r' := carry_up n k r in
  length r' = length r ∧ same_before k r r' ∧ bits_from k r' ∧ dv k r' = dv k r + 1.
Proof.
  revert k r. induction n as [|n IH]; intros k r L Hb Hv; cbn [carry_up].
  { rewrite dv_S in Hv. unfold dv in Hv. rewrite drop_ge in Hv by lia. unfold at_word in Hv. rewrite nth_overflow in Hv by lia. cbn in Hv. lia. }
  rewrite dv_S in Hv. rewrite Nat2Z.inj_succ, Z.pow_succ_r in Hv by lia.
  destruct (Z.eqb_spec (at_word r k) 0) as [E|E].
  - split; [by rewrite length_insert|]. split; [intros j Hj; rewrite at_word_insert, decide_False by lia; done|]. split.
    + intros j Hj. rewrite at_word_insert. case_decide; [by right|by apply Hb].
    + rewrite !(dv_S k), at_word_insert, decide_True by lia. rewrite (dv_ext (S k) r).
      * lia.
      * intros j Hj. rewrite at_word_insert, decide_False by lia. done.
      * by rewrite length_insert.
  - destruct (Hb k) as [?|E1]; [lia|done|]. set (r1 := <[k := 0]> r).
    assert (L1 : length r1 = length r) by apply length_insert.
    assert (E1' : ∀ j, j ≠ k → at_word r1 j = at_word r j) by (intros j Hj; unfold r1; rewrite at_word_insert, decide_False by lia; done).
    assert (Ek : at_word r1 k = 0) by (unfold r1; rewrite at_word_insert, decide_True by lia; done).
    assert (D1 : dv (S k) r1 = dv (S k) r) by (apply dv_ext; [intros j Hj; apply E1'; lia|done]).
    destruct (IH (S k) r1) as (L' & S' & B' & D'); [lia|intros j Hj; rewrite E1' by lia; apply Hb; lia|lia|].
    split; [lia|]. split; [intros j Hj; rewrite S', E1' by lia; done|]. split.
    + intros j Hj. destruct (decide (j = k)) as [->|]; [left; rewrite S' by lia; done|apply B'; lia].
    + rewrite (dv_S k (carry_up _ _ _)), S', Ek, D', D1, (dv_S k r), E1 by lia. lia.
Qed.

Lemma slide_window_end n i b r : (256 <= i + b)%nat → slide_window n i b r = r.
Proof. intros H. destruct n; [done|]. cbn [slide_window]. by rewrite (proj2 (Nat.ltb_ge _ _)) by lia. Qed.

Lemma insert_at_word (l : list Z) i : <[i := at_word l i]> l = l.
Proof.
  destruct (decide (i < length l)%nat) as [H|H]; [|by apply list_insert_ge; lia].
  apply list_insert_id. by apply at_word_lookup.
Qed.

(** A bit that fits is added to the digit and cleared. *)
Lemma add_step n i b r : length r = 256%nat → (1 <= b)%nat → bits_from (i + b) r →
  -15 <= at_word r i → at_word r i + 2 ^ Z.of_nat b <= 15 →
  slide_window (S n) i b r =
  slide_window n i (S b) (<[(i + b)%nat := 0]> (<[i := at_word r i + at_word r (i + b) * 2 ^ Z.of_nat b]> r)).
Proof.
  intros L Hb Hbits Hlo Hhi. destruct (decide (i + b < 256)%nat) as [H|H].
  - cbn [slide_window]. rewrite (proj2 (Nat.ltb_lt _ _) H). destruct (Hbits (i + b)%nat) as [E|E]; [lia|rewrite E; cbn [Z.eqb Z.mul]..].
    + rewrite Z.add_0_r, insert_at_word, <- E. by rewrite insert_at_word.
    + rewrite Z.shiftl_mul_pow2 by lia. rewrite Z.mul_1_l, (proj2 (Z.leb_le _ _) Hhi). rewrite i8_id by (pose proof (Z.pow_pos_nonneg 2 (Z.of_nat b)); lia). done.
  - rewrite !slide_window_end by lia. unfold at_word at 2. rewrite nth_overflow, Z.mul_0_l, Z.add_0_r, insert_at_word by lia.
    by rewrite list_insert_ge by lia.
Qed.

(** From the fifth bit on nothing fits: the window ends. *)
Lemma no_more_steps n i b r : (5 <= b)%nat → bits_from (i + b) r → -15 <= at_word r i <= 15 → slide_window n i b r = r.
Proof.
  revert b. induction n as [|n IH]; intros b Hb Hbits Hd; [done|]. cbn [slide_window].
  destruct (_ <? _)%nat; [|done]. destruct (Hbits (i + b)%nat) as [E|E]; [lia|rewrite E; cbn [Z.eqb]..].
  - apply IH; [lia| |done]. intros j Hj. apply Hbits. lia.
  - rewrite Z.shiftl_mul_pow2, Z.mul_1_l by lia.
    assert (2 ^ 5 <= 2 ^ Z.of_nat b) by (apply Z.pow_le_mono_r; lia).
    destruct (Z.leb_spec (at_word r i + 2 ^ Z.of_nat b) 15); [lia|].
    by destruct (Z.leb_spec (-15) (at_word r i - 2 ^ Z.of_nat b)); [lia|].
Qed.

(** The state of a window after [b - 1] bits have been added to the digit. *)
Record window (i b : nat) (r0 r : list Z) : Prop := {
  w_length : length r = 256%nat;
  w_before : same_before i r0 r;
  w_bits : bits_from (i + b) r;
  w_cleared : ∀ j, (i < j < i + b)%nat → at_word r j = 0;
  w_digit : 1 <= at_word r i < 2 ^ Z.of_nat b;
  w_odd : Z.odd (at_word r i) = true;
  w_value : dv i r = dv i r0
}.

Lemma dv_insert i j r x : (i <= j < length r)%nat →
  dv i (<[j := x]> r) = dv i r + 2 ^ Z.of_nat (j - i) * (x - at_word r j).
Proof.
  intros H. remember (j - i)%nat as n eqn:En. revert i H En. induction n as [|n IH]; intros i H En.
  - assert (j = i) as -> by lia. rewrite !(dv_S i), at_word_insert, decide_True, (dv_ext (S i) r) by (rewrite ?length_insert; lia || (intros; rewrite at_word_insert, decide_False by lia; done)).
    lia.
  - rewrite !(dv_S i), at_word_insert, decide_False, IH, Nat2Z.inj_succ, Z.pow_succ_r by lia. lia.
Qed.

Lemma window_step n i b r0 r : (i < 256)%nat → (1 <= b <= 3)%nat → window i b r0 r →
  ∃ r', slide_window (S n) i b r = slide_window n i (S b) r' ∧ window i (S b) r0 r'.
Proof.
  intros Hi Hb [L Hs Hbits Hc Hd Ho Hv].
  assert (Hp : 2 ^ Z.of_nat b <= 8) by (change 8 with (2 ^ 3); apply Z.pow_le_mono_r; lia).
  rewrite add_step by (lia || done). set (v := at_word r i) in *. set (x := at_word r (i + b)) in *.
  set (r1 := <[i := v + x * 2 ^ Z.of_nat b]> r). exists (<[(i + b)%nat := 0]> r1). split; [done|].
  assert (Hx : x = 0 ∨ x = 1) by (apply Hbits; lia).
  assert (L1 : length r1 = 256%nat) by (unfold r1; by rewrite length_insert).
  assert (E : ∀ j, at_word (<[(i + b)%nat := 0]> r1) j =
    if decide (j = i) then v + x * 2 ^ Z.of_nat b else if decide (j = i + b)%nat then 0 else at_word r j).
  { intros j. unfold r1. rewrite !at_word_insert, length_insert, L. destruct (decide (j = i)) as [->|].
    - by rewrite decide_False, decide_True by lia.
    - rewrite (decide_False (P := i = j ∧ _)) by lia. destruct (decide (j = i + b)%nat) as [->|]; [|by rewrite decide_False by lia].
      case_decide; [done|]. unfold at_word. apply nth_overflow. lia. }
  constructor.
  - by rewrite length_insert.
  - intros j Hj. rewrite E, !decide_False by lia. by apply Hs.
  - intros j Hj. rewrite E, !decide_False by lia. apply Hbits. lia.
  - intros j Hj. rewrite E, decide_False by lia. destruct (decide _); [done|]. apply Hc. lia.
  - rewrite E, decide_True by done. rewrite Nat2Z.inj_succ, Z.pow_succ_r by lia. destruct Hx as [-> | ->]; lia.
  - rewrite E, decide_True by done. rewrite Z.odd_add, Ho. destruct b as [|b]; [lia|].
    rewrite Nat2Z.inj_succ, Z.pow_succ_r, (Z.mul_comm 2), Z.mul_assoc, Z.odd_mul by lia. by rewrite andb_false_r.
  - rewrite <- Hv. destruct (decide (i + b < 256)%nat) as [H|H].
    + rewrite dv_insert by lia. unfold r1. rewrite dv_insert, at_word_insert, decide_False by lia. fold v x.
      rewrite Nat.sub_diag, Nat.add_comm, Nat.add_sub. lia.
    + rewrite list_insert_ge by lia. unfold r1. rewrite dv_insert by lia. fold v.
      assert (x = 0) as -> by (apply nth_overflow; lia). lia.
Qed.

(** A digit of the result: 0, or odd and of at most 15. *)
Definition odd_digit (x : Z) : Prop := x = 0 ∨ (Z.odd x = true ∧ -15 <= x <= 15).

Record slid (i : nat) (r0 r : list Z) : Prop := {
  sl_length : length r = 256%nat;
  sl_before : same_before i r0 r;
  sl_digit : odd_digit (at_word r i);
  sl_bits : bits_from (S i) r;
  sl_value : dv i r = dv i r0;
  sl_bound : dv (S i) r <= 2 ^ (254 - Z.of_nat i)
}.

Lemma half_bound i d v : (i < 256)%nat → 0 <= v → v + 2 * d <= 2 ^ (255 - Z.of_nat i) →
  d <= 2 ^ (254 - Z.of_nat i).
Proof.
  intros Hi Hv H. destruct (decide (i = 255%nat)) as [->|Hne].
  - change (2 ^ (255 - Z.of_nat 255)) with 1 in H. change (2 ^ (254 - Z.of_nat 255)) with 0. lia.
  - replace (255 - Z.of_nat i) with (Z.succ (254 - Z.of_nat i)) in H by lia. rewrite Z.pow_succ_r in H by lia. lia.
Qed.

Lemma window_value i r0 r : window i 4 r0 r → dv i r = at_word r i + 16 * dv (i + 4) r ∧ dv (S i) r = 8 * dv (i + 4) r.
Proof.
  intros H. pose proof (w_cleared _ _ _ _ H) as Hc. rewrite (dv_S i), (dv_S (S i)), (dv_S (S (S i))), (dv_S (S (S (S i)))).
  rewrite (Hc (S i)), (Hc (S (S i))), (Hc (S (S (S i)))) by lia. replace (i + 4)%nat with (S (S (S (S i)))) by lia. lia.
Qed.

Lemma window_last n i r0 r : (i < 256)%nat → window i 4 r0 r → dv i r0 <= 2 ^ (255 - Z.of_nat i) →
  slid i r0 (slide_window (S n) i 4 r).
Proof.
  intros Hi HW Hbound. destruct (window_value i r0 r HW) as [V1 V2]. destruct HW as [L Hs Hbits Hc Hd Ho Hv].
  change (2 ^ Z.of_nat 4) with 16 in Hd. set (v := at_word r i) in *. set (M := dv (i + 4) r) in *. rewrite <- Hv in Hbound.
  assert (Hx : at_word r (i + 4) = 0 ∨ at_word r (i + 4) = 1 ∧ (i + 4 < 256)%nat).
  { destruct (Hbits (i + 4)%nat) as [|E]; [lia|by left|right; split; [done|]]. unfold at_word in E.
    destruct (decide (i + 4 < 256)%nat); [done|]. rewrite nth_overflow in E; lia. }
  destruct Hx as [Hx|[Hx H4]].
  - assert (E : slide_window (S n) i 4 r = r).
    { cbn [slide_window]. rewrite Hx. cbn [Z.eqb]. destruct (_ <? _)%nat; [|done].
      apply no_more_steps; [lia|intros j Hj; apply Hbits; lia|fold v; lia]. }
    rewrite E. constructor; try done.
    + right. fold v. split; [done|lia].
    + intros j Hj. destruct (decide (j < i + 4)%nat); [left; apply Hc; lia|apply Hbits; lia].
    + apply (half_bound i _ v); lia.
  - set (r1 := <[i := v - 16]> r).
    assert (E1 : ∀ j, at_word r1 j = if decide (j = i) then v - 16 else at_word r j).
    { intros j. unfold r1. rewrite at_word_insert, L. by repeat case_decide; try lia. }
    assert (L1 : length r1 = 256%nat) by (unfold r1; by rewrite length_insert).
    assert (EM : dv (i + 4) r1 = M).
    { apply dv_ext; [|by rewrite L1, L]. intros j Hj. rewrite E1, decide_False by lia. done. }
    assert (HM : M + 1 <= 2 ^ (251 - Z.of_nat i)).
    { replace (255 - Z.of_nat i) with (4 + (251 - Z.of_nat i)) in Hbound by lia. rewrite Z.pow_add_r in Hbound by lia. lia. }
    destruct (carry_up_ok (256 - (i + 4)) (i + 4) r1) as (L2 & S2 & B2 & D2); [lia| | |].
    { intros j Hj. rewrite E1, decide_False by lia. by apply Hbits. }
    { rewrite EM. eapply Z.le_lt_trans; [exact HM|]. apply Z.pow_lt_mono_r; lia. }
    set (r2 := carry_up (256 - (i + 4)) (i + 4) r1) in *.
    assert (E2 : ∀ j, (i < j < i + 4)%nat → at_word r2 j = 0).
    { intros j Hj. rewrite S2, E1, decide_False by lia. apply Hc. lia. }
    assert (Ei : at_word r2 i = v - 16) by (rewrite S2, E1, decide_True by lia; done).
    assert (E : slide_window (S n) i 4 r = r2).
    { cbn [slide_window]. rewrite (proj2 (Nat.ltb_lt _ _) H4), Hx. cbn [Z.eqb]. fold v. change (Z.shiftl 1 (Z.of_nat 4)) with 16.
      destruct (Z.leb_spec (v + 16) 15); [lia|]. destruct (Z.leb_spec (-15) (v - 16)); [|lia].
      rewrite i8_id by lia. fold r1. fold r2.
      apply no_more_steps; [lia|intros j Hj; apply B2; lia|rewrite Ei; lia]. }
    assert (D3 : dv (S i) r2 = 8 * (M + 1)).
    { rewrite (dv_S (S i)), (dv_S (S (S i))), (dv_S (S (S (S i)))), (E2 (S i)), (E2 (S (S i))), (E2 (S (S (S i)))) by lia.
      replace (S (S (S (S i)))) with (i + 4)%nat by lia. rewrite D2, EM. lia. }
    rewrite E. constructor.
    + lia.
    + intros j Hj. rewrite S2, E1, decide_False by lia. by apply Hs.
    + right. rewrite Ei. split; [by rewrite Z.odd_sub, Ho|lia].
    + intros j Hj. destruct (decide (j < i + 4)%nat); [left; apply E2; lia|apply B2; lia].
    + rewrite (dv_S i), D3, Ei. lia.
    + rewrite D3. replace (254 - Z.of_nat i) with (3 + (251 - Z.of_nat i)) by lia. rewrite Z.pow_add_r by lia. lia.
Qed.

Lemma slide_window_ok i r : (i < 256)%nat → length r = 256%nat → bits_from i r → at_word r i = 1 →
  dv i r <= 2 ^ (255 - Z.of_nat i) → slid i r (slide_window 6 i 1 r).
Proof.
  intros Hi L Hb H1 Hbound.
  assert (H : window i 1 r r).
  { constructor; try done; rewrite ?H1; try done; intros j Hj; [apply Hb|]; lia. }
  destruct (window_step 5 i 1 r r) as (r2 & -> & H2); [done|lia|done|].
  destruct (window_step 4 i 2 r r2) as (r3 & -> & H3); [done|lia|done|].
  destruct (window_step 3 i 3 r r3) as (r4 & -> & H4); [done|lia|done|].
  by apply (window_last 2).
Qed.

Record sliding (N : Z) (i : nat) (r : list Z) : Prop := {
  sg_length : length r = 256%nat;
  sg_digits : ∀ j, (j < i)%nat → odd_digit (at_word r j);
  sg_bits : bits_from i r;
  sg_value : dv 0 r = N;
  sg_bound : dv i r <= 2 ^ (255 - Z.of_nat i)
}.

Lemma slide_turn_ok N i r : (i < 256)%nat → sliding N i r → sliding N (S i) (slide_turn r i).
Proof.
  intros Hi [L Hd Hb Hv Hbound]. unfold slide_turn.
  assert (E : 255 - Z.of_nat (S i) = 254 - Z.of_nat i) by lia.
  destruct (Hb i) as [H0|H1]; [lia|rewrite H0|rewrite H1]; cbn [Z.eqb].
  - constructor; [done| |intros j Hj; apply Hb; lia|done|rewrite E].
    + intros j Hj. destruct (decide (j = i)) as [->|]; [by left|apply Hd; lia].
    + rewrite dv_S, H0 in Hbound. by apply (half_bound i _ 0).
  - generalize (slide_window_ok i r Hi L Hb H1 Hbound). generalize (slide_window 6 i 1 r).
    intros r' [L' Hs Hdig Hb' Hv' Hbd]. constructor; try done.
    + intros j Hj. destruct (decide (j = i)) as [->|]; [done|]. rewrite Hs by lia. apply Hd. lia.
    + rewrite <- Hv. by apply (dv_prefix i).
    + by rewrite E.
Qed.

Lemma binary_value v n : digits_value 2 ((λ i, v / 2 ^ Z.of_nat i mod 2) <$> seq 0 n) = v mod 2 ^ Z.of_nat n.
Proof.
  induction n as [|n IH]; [by rewrite Z.mod_1_r|]. rewrite seq_S, fmap_app. cbn [fmap list_fmap Nat.add].
  rewrite digits_value_app, IH, length_fmap, length_seq, Nat2Z.inj_succ, Z.pow_succ_r, Z.mul_comm, (Z.mul_comm 2) by lia.
  rewrite Z.rem_mul_r by lia. lia.
Qed.

(** Bit [k] of a scalar. *)
Lemma byte_bit a k : length a = 32%nat → bytes_ok a → (k < 256)%nat →
  Z.land (Z.shiftr (at_word a (k / 8)) (Z.of_nat (k mod 8))) 1 = le_value a / 2 ^ Z.of_nat k mod 2.
Proof.
  intros Hl Hok Hi.
  pose proof (Nat.div_mod k 8 ltac:(lia)) as D. pose proof (Nat.mod_upper_bound k 8 ltac:(lia)) as B.
  assert (Hq : (k / 8 < 32)%nat) by (apply Nat.Div0.div_lt_upper_bound; lia).
  set (q := (k / 8)%nat) in *. set (m := (k mod 8)%nat) in *.
  assert (E : at_word a q = le_value a / 2 ^ (8 * Z.of_nat q) mod 256).
  { rewrite <- le_value_drop by (done || lia). rewrite (drop_S _ _ _ (at_word_lookup a q ltac:(lia))). cbn [le_value].
    pose proof (Forall_lookup_1 _ _ _ _ Hok (at_word_lookup a q ltac:(lia))) as Hx. unfold is_u8, is_unsigned in Hx.
    rewrite Z.mul_comm, Z.mod_add, Z.mod_small by lia. done. }
  rewrite E. change 1 with (Z.ones 1). rewrite Z.land_ones, Z.shiftr_div_pow2 by lia. change 256 with (2 ^ 8).
  rewrite D, Nat2Z.inj_add, Nat2Z.inj_mul, Z.pow_add_r, <- Z.div_div by lia.
  change (Z.of_nat 8) with 8. change (2 ^ 1) with 2. by rewrite <- !Z.testbit_spec', Z.mod_pow2_bits_low by lia.
Qed.

Lemma bit_digits_bits a : length a = 32%nat → bytes_ok a →
  bit_digits a = (λ i, le_value a / 2 ^ Z.of_nat i mod 2) <$> seq 0 256.
Proof.
  intros Hl Hok. unfold bit_digits. apply list_fmap_ext. intros k i Hi. apply lookup_seq in Hi as [-> Hi]. cbn [Nat.add].
  rewrite Z.land_comm. by apply byte_bit.
Qed.

Lemma bit_digits_ok a : length a = 32%nat → bytes_ok a →
  length (bit_digits a) = 256%nat ∧ bits_from 0 (bit_digits a) ∧ dv 0 (bit_digits a) = le_value a.
Proof.
  intros Hl Hok. rewrite (bit_digits_bits a Hl Hok). split; [by rewrite length_fmap, length_seq|]. split.
  - intros j _. apply (Forall_at_word (λ x, x = 0 ∨ x = 1)); [by left|]. apply Forall_fmap, Forall_true. intros i. cbn.
    pose proof (Z.mod_pos_bound (le_value a / 2 ^ Z.of_nat i) 2 ltac:(lia)). lia.
  - unfold dv. rewrite drop_0, binary_value. apply Z.mod_small. pose proof (le_value_range a Hok) as R. by rewrite Hl in R.
Qed.

(** The digits of [slide] are 0, or odd and at most 15, and stand for the scalar. *)
Lemma slide_ok a : length a = 32%nat → bytes_ok a → le_value a < 2 ^ 255 →
  length (slide a) = 256%nat ∧ (∀ j, odd_digit (at_word (slide a) j)) ∧ dv 0 (slide a) = le_value a.
Proof.
  intros Hl Hok Ha. destruct (bit_digits_ok a Hl Hok) as (L & Hb & Hv).
  assert (H : ∀ n, (n <= 256)%nat → sliding (le_value a) n (foldl slide_turn (bit_digits a) (seq 0 n))).
  { induction n as [|n IH]; intros Hn.
    - change (foldl _ _ _) with (bit_digits a). constructor; try done; [lia|]. rewrite Hv. change (2 ^ (255 - Z.of_nat 0)) with (2 ^ 255). lia.
    - rewrite seq_S, foldl_snoc. apply slide_turn_ok; [lia|]. apply IH. lia. }
  generalize (H 256%nat (le_n _)). unfold slide. generalize (foldl slide_turn (bit_digits a) (seq 0 256)).
  intros r [L' Hd _ Hv' _]. split; [done|]. split; [|done].
  intros j. destruct (decide (j < 256)%nat); [by apply Hd|]. left. apply nth_overflow. lia.
Qed.

(** ** Two scalars *)

Definition odd_table (Bi : list ge_precomp) (B : point) : Prop :=
  ∀ j, (j < 8)%nat → ∃ q, Bi !! j = Some q ∧ rep_precomp q (pmul (2 * Z.of_nat j + 1) B).

Definition cached_table (n : nat) (Ai : list ge_cached) (k : Z) (A : point) : Prop :=
  ∀ j, (j <= n)%nat → ∃ q, Ai !! j = Some q ∧ rep_cached q (pmul (2 * (k + Z.of_nat j) + 1) A).

Lemma odd_multiples_ok n A A2 Ai k : rep_p3 A2 (pmul 2 A) → rep_cached Ai (pmul (2 * k + 1) A) →
  returns (odd_multiples n A2 Ai) (λ l, cached_table n l k A).
Proof.
  intros H2. revert Ai k. induction n as [|n IH]; intros Ai k HA; cbn [odd_multiples].
  { apply returns_Ok. intros j Hj. assert (j = 0%nat) as -> by lia. exists Ai. split; [done|].
    by replace (2 * (k + Z.of_nat 0) + 1) with (2 * k + 1) by lia. }
  ge_step ge_add_ok. ge_step ge_p1p1_to_p3_ok. ge_step ge_p3_to_cached_ok.
  rewrite <- pmul_add in *. eapply returns_bind; [apply (IH _ (k + 1))|].
  { by replace (2 * (k + 1) + 1) with (2 + (2 * k + 1)) by lia. }
  intros l Hl. cbv beta in Hl. apply returns_Ok. intros [|j] Hj.
  - exists Ai. split; [done|]. by replace (2 * (k + Z.of_nat 0) + 1) with (2 * k + 1) by lia.
  - destruct (Hl j) as (q & Hq & Hr); [lia|]. exists q. split; [done|].
    by replace (2 * (k + Z.of_nat (S j)) + 1) with (2 * (k + 1 + Z.of_nat j) + 1) by lia.
Qed.

(** The place of an odd digit in its table. *)
Lemma odd_digit_index d : 0 < d → Z.odd d = true → d <= 15 →
  ∃ j, (j < 8)%nat ∧ Z.quot d 2 = Z.of_nat j ∧ d = 2 * Z.of_nat j + 1.
Proof.
  intros H0 Ho Hd. apply Z.odd_spec in Ho as [k Hk]. exists (Z.to_nat k). rewrite Z2Nat.id by lia.
  split; [lia|]. split; [|done]. rewrite Z.quot_div_nonneg by lia. symmetry. apply (Z.div_unique d 2 k 1); lia.
Qed.

Lemma add_digit_ok Ai A d t P : cached_table 7 Ai 0 A → odd_digit d → rep_p1p1 t P →
  returns (add_digit Ai d t) (λ t, rep_p1p1 t (padd P (pmul d A))).
Proof.
  intros HA Hd Ht. unfold add_digit. destruct (Z.ltb_spec 0 d) as [H0|H0]; [|destruct (Z.ltb_spec d 0) as [H1|H1]].
  - destruct Hd as [?|[Ho Hd]]; [lia|]. destruct (odd_digit_index d H0 Ho) as (j & Hj & -> & E); [lia|].
    destruct (HA j) as (q & Hq & Hr); [lia|]. ge_step ge_p1p1_to_p3_ok. rewrite (table_entry_ok Ai j q Hq), bind_Ok.
    rewrite Z.add_0_l, <- E in Hr. by apply ge_add_ok.
  - destruct Hd as [?|[Ho Hd]]; [lia|]. destruct (odd_digit_index (- d)) as (j & Hj & -> & E); [lia|by rewrite Z.odd_opp|lia|].
    destruct (HA j) as (q & Hq & Hr); [lia|]. ge_step ge_p1p1_to_p3_ok. rewrite (table_entry_ok Ai j q Hq), bind_Ok.
    rewrite Z.add_0_l, <- E in Hr. eapply returns_mono; [by apply ge_sub_ok|]. cbv beta. intros r. by rewrite <- pmul_opp, Z.opp_involutive.
  - assert (d = 0) as -> by lia. apply returns_Ok. cbn [pmul]. by rewrite padd_zero_r.
Qed.

Lemma madd_digit_ok Bi B d t P : odd_table Bi B → odd_digit d → rep_p1p1 t P →
  returns (madd_digit Bi d t) (λ t, rep_p1p1 t (padd P (pmul d B))).
Proof.
  intros HB Hd Ht. unfold madd_digit. destruct (Z.ltb_spec 0 d) as [H0|H0]; [|destruct (Z.ltb_spec d 0) as [H1|H1]].
  - destruct Hd as [?|[Ho Hd]]; [lia|]. destruct (odd_digit_index d H0 Ho) as (j & Hj & -> & E); [lia|].
    destruct (HB j) as (q & Hq & Hr); [lia|]. ge_step ge_p1p1_to_p3_ok. rewrite (table_entry_ok Bi j q Hq), bind_Ok.
    rewrite <- E in Hr. by apply ge_madd_ok.
  - destruct Hd as [?|[Ho Hd]]; [lia|]. destruct (odd_digit_index (- d)) as (j & Hj & -> & E); [lia|by rewrite Z.odd_opp|lia|].
    destruct (HB j) as (q & Hq & Hr); [lia|]. ge_step ge_p1p1_to_p3_ok. rewrite (table_entry_ok Bi j q Hq), bind_Ok.
    rewrite <- E in Hr. eapply returns_mono; [by apply ge_msub_ok|]. cbv beta. intros r. by rewrite <- pmul_opp, Z.opp_involutive.
  - assert (d = 0) as -> by lia. apply returns_Ok. cbn [pmul]. by rewrite padd_zero_r.
Qed.

Section Double.
  Variables (Ai : list ge_cached) (Bi : list ge_precomp) (A B : point) (aslide bslide : list Z).
  Hypothesis HA : cached_table 7 Ai 0 A.
  Hypothesis HB : odd_table Bi B.
  Hypothesis Ha : ∀ j, odd_digit (at_word aslide j).
  Hypothesis Hb : ∀ j, odd_digit (at_word bslide j).

Let sum a b := padd (pmul a A) (pmul b B).

Lemma sum_step a b x y : padd (padd (padd (sum a b) (sum a b)) (pmul x A)) (pmul y B) = sum (x + 2 * a) (y + 2 * b).
Proof.
  unfold sum. replace (x + 2 * a) with (a + (a + x)) by lia. replace (y + 2 * b) with (b + (b + y)) by lia. rewrite !pmul_add.
  rewrite <- !padd_assoc. f_equal. rewrite !padd_assoc, (padd_comm (pmul b B) (pmul a A)), <- !padd_assoc. f_equal.
  rewrite !padd_assoc. f_equal. rewrite (padd_comm _ (pmul x A)), <- !padd_assoc. done.
Qed.

Lemma double_turn_ok i r a b : rep_p2 r (sum a b) →
  returns (double_turn Ai Bi aslide bslide i r) (λ r, rep_p2 r (sum (at_word aslide i + 2 * a) (at_word bslide i + 2 * b))).
Proof.
  intros Hr. unfold double_turn. ge_step ge_p2_dbl_ok.
  eapply returns_bind; [apply (add_digit_ok Ai A); [done|apply Ha|eassumption]|cbv beta; intros].
  eapply returns_bind; [apply (madd_digit_ok Bi B); [done|apply Hb|eassumption]|cbv beta; intros].
  eapply returns_mono; [by eapply ge_p1p1_to_p2_ok|]. cbv beta. intros r' Hr'. by rewrite <- sum_step.
Qed.

Lemma double_loop n r : rep_p2 r (sum (dv n aslide) (dv n bslide)) →
  returns (run (double_turn Ai Bi aslide bslide) (rev (seq 0 n)) r) (λ r, rep_p2 r (sum (dv 0 aslide) (dv 0 bslide))).
Proof.
  revert r. induction n as [|n IH]; intros r Hr; [by apply returns_Ok|]. rewrite seq_S, rev_app_distr. cbn [rev app Nat.add run].
  eapply returns_bind; [by apply double_turn_ok|]. intros r' Hr'. cbv beta in Hr'. apply IH. by rewrite !(dv_S n).
Qed.

Lemma used_digits_ok n : dv n aslide = 0 → dv n bslide = 0 →
  dv (used_digits n aslide bslide) aslide = 0 ∧ dv (used_digits n aslide bslide) bslide = 0.
Proof.
  induction n as [|n IH]; intros Ea Eb; [done|]. cbn [used_digits].
  destruct (Z.eqb_spec (at_word aslide n) 0) as [Xa|Xa]; [|done]. destruct (Z.eqb_spec (at_word bslide n) 0) as [Xb|Xb]; [|done].
  cbn [negb orb]. apply IH; rewrite dv_S; lia.
Qed.
End Double.

Lemma double_scalarmult_ok Bi B a A P b :
  odd_table Bi B → length a = 32%nat → bytes_ok a → le_value a < 2 ^ 255 →
  length b = 32%nat → bytes_ok b → le_value b < 2 ^ 255 → rep_p3 A P →
  returns (double_scalarmult Bi a A b) (λ r, rep_p2 r (padd (pmul (le_value a) P) (pmul (le_value b) B))).
Proof.
  intros HB La Oa Va Lb Ob Vb HA. unfold double_scalarmult.
  destruct (slide_ok a La Oa Va) as (LA & DA & EA). destruct (slide_ok b Lb Ob Vb) as (LB & DB & EB).
  revert LA DA EA LB DB EB. generalize (slide a) (slide b). intros as_ bs LA DA EA LB DB EB. cbv zeta.
  ge_step ge_p3_to_cached_ok. ge_step ge_p3_dbl_ok. ge_step ge_p1p1_to_p3_ok.
  eapply returns_bind; [apply (odd_multiples_ok 7 P _ _ 0)|].
  { by rewrite <- (pmul_1 P), pmul_double in *. }
  { done. }
  intros Ai HAi. cbv beta in HAi. rewrite <- EA, <- EB. eapply double_loop; [done..|].
  destruct (used_digits_ok as_ bs 256) as [-> ->]; [unfold dv; by rewrite drop_ge by lia..|].
  cbn [pmul]. rewrite padd_zero_r. apply rep_p2_0.
Qed.
