(* ===== verification/GeBase.v ===== *)
(** * GeBase: the base point and its tables

    The base point of Ed25519, and three computations on machine-integer big
    numbers, each with the theorem that makes its outcome a fact about points:
    every entry of the two tables of precomp_data.h is the multiple of the base
    point it should be, and [L25519] times the base point is the neutral element. *)
From S2P Require Import Prelude Blake2 Limbs Fe25519 FeBytes Sc25519 Primes Edwards Ge25519 GePoints GeScalar GeTables.
From Stdlib Require Import Zmod.Zmod Field.
From Bignums Require Import BigZ.

Local Open Scope field_scope.
Add Field F_field_base : F_field.

(** ** Field elements as big numbers *)

Definition big_p : BigZ.t := Eval vm_compute in BigZ.of_Z P25519.
Definition big_half : BigZ.t := Eval vm_compute in BigZ.of_Z ((P25519 + 1) / 2).
Definition big_d : BigZ.t :=
  Eval vm_compute in BigZ.of_Z 37095705934669439343138083508754565189542113879843219016388785533085940283555.

Definition mulp (a b : BigZ.t) : BigZ.t := BigZ.modulo (BigZ.mul a b) big_p.
Definition samep (a b : BigZ.t) : bool := BigZ.eqb (BigZ.modulo (BigZ.sub a b) big_p) BigZ.zero.

Definition elt (a : BigZ.t) : F := of_int (BigZ.to_Z a).

Lemma elt_mulp a b : elt (mulp a b) = elt a * elt b.
Proof.
  unfold elt, mulp. rewrite BigZ.spec_modulo, BigZ.spec_mul. rewrite <- of_int_mul. apply of_int_eq.
  assert (E : BigZ.to_Z big_p = P25519) by (by vm_compute). rewrite E. apply Zmod_mod.
Qed.

Lemma elt_add a b : elt (BigZ.add a b) = elt a + elt b.
Proof. unfold elt. by rewrite BigZ.spec_add, of_int_add. Qed.

Lemma elt_sub a b : elt (BigZ.sub a b) = elt a - elt b.
Proof. unfold elt. by rewrite BigZ.spec_sub, of_int_sub. Qed.

Lemma elt_same a b : samep a b = true → elt a = elt b.
Proof.
  unfold samep. rewrite BigZ.spec_eqb, Z.eqb_eq, BigZ.spec_modulo, BigZ.spec_sub. intros H.
  assert (E : BigZ.to_Z big_p = P25519) by (by vm_compute). rewrite E in H.
  assert (H0 : elt a - elt b = 0).
  { unfold elt. rewrite <- of_int_sub, <- of_int_0. apply of_int_eq. rewrite H. done. }
  transitivity (elt a - elt b + elt b); [ring|]. rewrite H0. ring.
Qed.

Lemma elt_d : elt big_d = curve_d.
Proof. rewrite curve_d_int. unfold elt. apply of_int_eq. by vm_compute. Qed.

Lemma elt_half : elt big_half * (1 + 1) = 1.
Proof.
  unfold elt. rewrite <- of_int_1, <- of_int_add, <- of_int_mul. apply of_int_eq. by vm_compute.
Qed.

Lemma elt_one : elt BigZ.one = 1.
Proof. unfold elt. rewrite BigZ.spec_1. apply of_int_1. Qed.

Lemma elt_zero : elt BigZ.zero = 0.
Proof. unfold elt. rewrite BigZ.spec_0. apply of_int_0. Qed.

Create Rewrite HintDb elts.
#[export] Hint Rewrite elt_mulp elt_add elt_sub elt_d elt_one elt_zero : elts.
#[global] Opaque elt mulp samep.

(** ** Points by two or three numbers *)

(** Affine coordinates. *)
Definition affine (c : BigZ.t * BigZ.t) (P : point) : Prop := elt c.1 = px P ∧ elt c.2 = py P.

(** Projective ones. *)
Definition projective (c : BigZ.t * BigZ.t * BigZ.t) (P : point) : Prop :=
  let '(X, Y, Z) := c in elt Z ≠ 0 ∧ elt X = px P * elt Z ∧ elt Y = py P * elt Z.

Definition sum_check (c1 c2 c3 : BigZ.t * BigZ.t) : bool :=
  let '(x1, y1) := c1 in
  let '(x2, y2) := c2 in
  let '(x3, y3) := c3 in
  let e := mulp (mulp (mulp (mulp big_d x1) x2) y1) y2 in
  samep (mulp x3 (BigZ.add BigZ.one e)) (BigZ.add (mulp x1 y2) (mulp x2 y1)) &&
  samep (mulp y3 (BigZ.sub BigZ.one e)) (BigZ.add (mulp y1 y2) (mulp x1 x2)).

Lemma F_divide x y z : z ≠ 0 → x * z = y → x = y / z.
Proof. intros Hz <-. by field. Qed.

Lemma sum_check_ok c1 c2 c3 P Q : affine c1 P → affine c2 Q → sum_check c1 c2 c3 = true → affine c3 (padd P Q).
Proof.
  destruct c1 as [x1 y1], c2 as [x2 y2], c3 as [x3 y3]. intros [X1 Y1] [X2 Y2]. cbn [fst snd] in *. unfold sum_check.
  rewrite andb_true_iff. intros [HX HY]. apply elt_same in HX, HY. destruct (den_ok P Q) as [D1 D2].
  autorewrite with elts in HX, HY. rewrite X1, X2, Y1, Y2 in HX, HY.
  fold (den P Q) in HX, HY. split; cbn [fst snd padd px py]; by apply F_divide.
Qed.

Definition proj_dbl (c : BigZ.t * BigZ.t * BigZ.t) : BigZ.t * BigZ.t * BigZ.t :=
  let '(X, Y, Z) := c in
  let A := mulp X X in
  let B := mulp Y Y in
  let C := mulp Z Z in
  let D := BigZ.add X Y in
  let E := BigZ.sub (mulp D D) (BigZ.add B A) in
  let G := BigZ.sub B A in
  let H := BigZ.sub (BigZ.add C C) G in
  (mulp E H, mulp (BigZ.add B A) G, mulp G H).

Lemma proj_dbl_ok c P : projective c P → projective (proj_dbl c) (padd P P).
Proof.
  destruct c as [[X Y] Z]. intros (HZ & EX & EY). unfold projective, proj_dbl.
  autorewrite with elts. rewrite EX, EY. set (z := elt Z) in *. destruct (den_ok P P) as [D1 D2].
  destruct (double_values curve_d (px P) (py P) z (curve_eq P) D1 D2) as (VX & VY & VZ & VT). fold (den P P) in *.
  assert (VT' : z * z + z * z - z * z * (1 + den P P) = z * z * (1 - den P P)) by ring.
  rewrite VX, VZ, VT', VY. pose proof (F_mul_neq_0 _ _ HZ HZ) as Hzz.
  split; [by apply F_mul_neq_0; apply F_mul_neq_0|]. cbn [padd px py]. split; ring.
Qed.

Definition proj_add (c : BigZ.t * BigZ.t * BigZ.t) (c2 : BigZ.t * BigZ.t) : BigZ.t * BigZ.t * BigZ.t :=
  let '(X, Y, Z) := c in
  let '(x, y) := c2 in
  let C := mulp Z Z in
  let e := mulp (mulp (mulp (mulp big_d X) x) Y) y in
  let D1 := BigZ.add C e in
  let D2 := BigZ.sub C e in
  (mulp (mulp Z (BigZ.add (mulp X y) (mulp x Y))) D2, mulp (mulp Z (BigZ.add (mulp Y y) (mulp X x))) D1, mulp D1 D2).

Lemma proj_add_ok c c2 P Q : projective c P → affine c2 Q → projective (proj_add c c2) (padd P Q).
Proof.
  destruct c as [[X Y] Z], c2 as [x y]. intros (HZ & EX & EY) [Ex Ey]. cbn [fst snd] in *. unfold projective, proj_add.
  autorewrite with elts. rewrite EX, EY, Ex, Ey. set (z := elt Z) in *. destruct (den_ok P Q) as [D1 D2].
  assert (E : curve_d * (px P * z) * px Q * (py P * z) * py Q = z * z * den P Q) by (unfold den; ring).
  rewrite E. clear E. pose proof (F_mul_neq_0 _ _ HZ HZ) as Hzz. cbn [padd px py].
  assert (E1 : z * z + z * z * den P Q = z * z * (1 + den P Q)) by ring.
  assert (E2 : z * z - z * z * den P Q = z * z * (1 - den P Q)) by ring. rewrite E1, E2.
  revert D1 D2. generalize (1 + den P Q) (1 - den P Q). intros D D' HD HD'.
  split; [by apply F_mul_neq_0; apply F_mul_neq_0|]. split; by field.
Qed.

(** ** Entries *)

Definition big_of (f : fe) : BigZ.t := BigZ.of_Z (fe_value f).

Definition coords (q : ge_precomp) : BigZ.t * BigZ.t :=
  let a := big_of (yplusx q) in
  let s := big_of (yminusx q) in
  (mulp (BigZ.sub a s) big_half, mulp (BigZ.add a s) big_half).

Definition fits (f : fe) : bool := forallb (λ p, Z.abs p.2 <=? p.1) (zip (fe_bound 101) f) && (length f =? 10)%nat.

Definition entry_check (q : ge_precomp) : bool :=
  let '(x, y) := coords q in
  fits (yplusx q) && fits (yminusx q) && fits (xy2d q) && samep (big_of (xy2d q)) (mulp (mulp (BigZ.add big_d big_d) x) y).

Lemma elt_big_of f : elt (big_of f) = val f.
Proof. rewrite val_def. Transparent elt. unfold elt, big_of. by rewrite BigZ.spec_of_Z. Opaque elt. Qed.

Lemma halves a s : (a - s) * elt big_half + (a + s) * elt big_half = a ∧ (a + s) * elt big_half - (a - s) * elt big_half = s.
Proof.
  pose proof elt_half as H. split.
  - transitivity (a * (elt big_half * (1 + 1))); [ring|]. rewrite H. ring.
  - transitivity (s * (elt big_half * (1 + 1))); [ring|]. rewrite H. ring.
Qed.

Lemma entry_check_ok q P : entry_check q = true → affine (coords q) P → rep_precomp q P.
Proof.
  unfold entry_check, affine. destruct (coords q) as [x y] eqn:E. cbn [fst snd]. unfold coords in E. injection E as Ex Ey.
  rewrite !andb_true_iff. intros (((Ha & Hs) & Ht) & Hv) [Hx Hy]. apply elt_same in Hv.
  rewrite elt_big_of in Hv. autorewrite with elts in Hv. rewrite Hx, Hy in Hv.
  rewrite <- Ex in Hx. rewrite <- Ey in Hy. autorewrite with elts in Hx, Hy. rewrite !elt_big_of in Hx, Hy.
  destruct (halves (val (yplusx q)) (val (yminusx q))) as [H1 H2]. rewrite Hx, Hy in H1, H2.
  split; [|split]; apply stands_intro; try (by apply bounded_check).
  - rewrite <- H1. ring.
  - by rewrite <- H2.
  - rewrite Hv. ring.
Qed.

Lemma coords_ok q P : rep_precomp q P → affine (coords q) P.
Proof.
  intros (Ha & Hs & _). apply stands_val in Ha, Hs. unfold affine, coords. cbn [fst snd]. autorewrite with elts.
  rewrite !elt_big_of, Ha, Hs. pose proof elt_half as H. split.
  - transitivity (px P * (elt big_half * (1 + 1))); [ring|]. rewrite H. ring.
  - transitivity (py P * (elt big_half * (1 + 1))); [ring|]. rewrite H. ring.
Qed.

(** Each entry is the one before it plus [step]. *)
Fixpoint chain_check (step prev : BigZ.t * BigZ.t) (qs : list ge_precomp) : bool :=
  match qs with
  | [] => true
  | q :: qs => entry_check q && sum_check prev step (coords q) && chain_check step (coords q) qs
  end.

Lemma chain_check_ok step prev qs B a s :
  chain_check step prev qs = true → affine step (pmul s B) → affine prev (pmul a B) →
  ∀ j q, qs !! j = Some q → rep_precomp q (pmul (a + (Z.of_nat j + 1) * s) B).
Proof.
  revert prev a. induction qs as [|q0 qs IH]; intros prev a H Hs Hp j q Hj; [done|]. cbn [chain_check] in H.
  rewrite !andb_true_iff in H. destruct H as [[He Hc] H].
  assert (H0 : affine (coords q0) (pmul (a + s) B)) by (rewrite pmul_add; by eapply sum_check_ok).
  destruct j as [|j]; cbn in Hj.
  - injection Hj as ->. replace (a + (Z.of_nat 0 + 1) * s)%Z with (a + s)%Z by lia. by apply entry_check_ok.
  - replace (a + (Z.of_nat (S j) + 1) * s)%Z with (a + s + (Z.of_nat j + 1) * s)%Z by lia. by eapply IH.
Qed.

(** ** Rows *)

Definition same_point (c : BigZ.t * BigZ.t) (P : BigZ.t * BigZ.t * BigZ.t) : bool :=
  let '(x, y) := c in
  let '(X, Y, Z) := P in
  samep (mulp x Z) X && samep (mulp y Z) Y.

Lemma F_cancel x y z : z ≠ 0 → x * z = y * z → x = y.
Proof. intros Hz E. transitivity (x * z / z); [by field|]. rewrite E. by field. Qed.

Lemma same_point_ok c c' P : same_point c c' = true → projective c' P → affine c P.
Proof.
  destruct c as [x y], c' as [[X Y] Z]. unfold same_point. rewrite andb_true_iff. intros [HX HY] (HZ & EX & EY).
  apply elt_same in HX, HY. rewrite elt_mulp in HX, HY. split; cbn [fst snd]; apply (F_cancel _ _ (elt Z)); congruence.
Qed.

Lemma projective_of_affine x y P : affine (x, y) P → projective (x, y, BigZ.one) P.
Proof. intros [Hx Hy]. cbn in *. rewrite elt_one, Hx, Hy. split; [apply F_one_neq_0|]. split; ring. Qed.

Definition next_row (c : BigZ.t * BigZ.t) : BigZ.t * BigZ.t * BigZ.t :=
  proj_dbl (proj_dbl (proj_dbl (proj_dbl (proj_dbl (c.1, c.2, BigZ.one))))).

Fixpoint rows_check (start : BigZ.t * BigZ.t * BigZ.t) (rows : list (list ge_precomp)) : bool :=
  match rows with
  | [] => true
  | row :: rows =>
      match row with
      | q0 :: qs =>
          (length row =? 8)%nat && entry_check q0 && same_point (coords q0) start && chain_check (coords q0) (coords q0) qs &&
          rows_check (next_row (coords (nth 7 row q0))) rows
      | [] => false
      end
  end.

Lemma next_row_ok c P : affine c P → projective (next_row c) (pmul 32 P).
Proof.
  intros H. destruct c as [x y]. apply projective_of_affine in H. rewrite <- (pmul_1 P) in H. unfold next_row. cbn [fst snd].
  do 5 apply proj_dbl_ok in H. by rewrite !pmul_double in H.
Qed.

Lemma rows_check_ok start rows B i : 0 <= i →
  rows_check start rows = true → projective start (pmul (256 ^ i) B) →
  ∀ k row, rows !! k = Some row → length row = 8%nat ∧
    ∀ j q, row !! j = Some q → rep_precomp q (pmul ((Z.of_nat j + 1) * 256 ^ (i + Z.of_nat k)) B).
Proof.
  intros Hi. revert start i Hi. induction rows as [|row rows IH]; intros start i Hi H Hstart k r Hk; [done|]. cbn [rows_check] in H.
  destruct row as [|q0 qs]; [done|]. rewrite !andb_true_iff, Nat.eqb_eq in H. destruct H as ((((HL & He) & H0) & Hc) & Hrest).
  assert (HA : affine (coords q0) (pmul (256 ^ i) B)) by (by eapply same_point_ok).
  assert (Hrow : ∀ j q, (q0 :: qs) !! j = Some q → rep_precomp q (pmul ((Z.of_nat j + 1) * 256 ^ i) B)).
  { intros [|j] q Hj; cbn in Hj.
    - injection Hj as <-. rewrite Z.mul_1_l. by apply entry_check_ok.
    - replace ((Z.of_nat (S j) + 1) * 256 ^ i)%Z with (256 ^ i + (Z.of_nat j + 1) * 256 ^ i)%Z by lia. by eapply chain_check_ok. }
  destruct k as [|k]; cbn in Hk.
  - injection Hk as <-. split; [done|]. by rewrite Z.add_0_r.
  - replace (i + Z.of_nat (S k))%Z with (i + 1 + Z.of_nat k)%Z by lia.
    apply (IH (next_row (coords (nth 7 (q0 :: qs) q0)))); [lia|done| |done].
    replace (256 ^ (i + 1))%Z with (32 * (8 * 256 ^ i))%Z by (rewrite Z.pow_add_r by lia; lia). rewrite pmul_mul.
    apply next_row_ok, coords_ok. apply (Hrow 7%nat). rewrite nth_lookup.
    destruct (lookup_lt_is_Some_2 (q0 :: qs) 7) as [x Hx]; [lia|]. by rewrite Hx.
Qed.

(** ** The base point *)

Definition base_x : Z := 15112221349535400772501151409588531511454012693041857206046113283949847762202.
Definition base_y : Z := 46316835694926478169428394003475163141307993866256225615783033603165251855960.

Lemma base_on_curve : on_curve (of_int base_x) (of_int base_y) = true.
Proof.
  apply on_curve_eq. rewrite curve_d_int. rewrite <- of_int_1, <- !of_int_mul, <- of_int_sub, <- of_int_add. apply of_int_eq.
  by vm_compute.
Qed.

(** The base point [(x, 4/5)] with [x] positive. *)
Definition base_point : point := Point _ _ base_on_curve.

Definition big_base : BigZ.t * BigZ.t := Eval vm_compute in (BigZ.of_Z base_x, BigZ.of_Z base_y).

Lemma big_base_ok : affine big_base base_point.
Proof. Transparent elt. split; cbn [base_point px py]; unfold elt; apply of_int_eq; by vm_compute. Opaque elt. Qed.

Lemma base_y_four_fifths : py base_point * of_int 5 = of_int 4.
Proof. cbn [base_point py]. rewrite <- of_int_mul. apply of_int_eq. by vm_compute. Qed.

Lemma base_rows_ok : rows_check (big_base.1, big_base.2, BigZ.one) base = true.
Proof. vm_compute. reflexivity. Qed.

Lemma base_table_ok : base_table base base_point.
Proof.
  intros i j Hi Hj. destruct (lookup_lt_is_Some_2 base i) as [row Hrow]; [exact Hi|].
  destruct (rows_check_ok _ base base_point 0 ltac:(lia) base_rows_ok) with (k := i) (row := row) as [HL H]; [|done|].
  { change (256 ^ 0)%Z with 1%Z. rewrite pmul_1. apply projective_of_affine, big_base_ok. }
  destruct (lookup_lt_is_Some_2 row j) as [q Hq]; [lia|]. exists row, q. by auto.
Qed.

(** [Bi]: the odd multiples, each the one before it plus twice the base point. *)
Definition bi_check : bool :=
  match Bi, base with
  | q0 :: qs, (_ :: q2 :: _) :: _ =>
      (length qs =? 7)%nat && entry_check q0 && same_point (coords q0) (big_base.1, big_base.2, BigZ.one) &&
      chain_check (coords q2) (coords q0) qs
  | _, _ => false
  end.

Lemma bi_check_ok : bi_check = true.
Proof. vm_compute. reflexivity. Qed.

Lemma odd_chain_ok q0 qs q2 B :
  length qs = 7%nat → entry_check q0 = true → affine (coords q0) B → rep_precomp q2 (pmul 2 B) →
  chain_check (coords q2) (coords q0) qs = true → odd_table (q0 :: qs) B.
Proof.
  intros HL He H0 H2 Hc j Hj. destruct (lookup_lt_is_Some_2 (q0 :: qs) j) as [q Hq]; [cbn; lia|]. exists q. split; [done|].
  destruct j as [|j]; cbn in Hq.
  - injection Hq as <-. change (2 * Z.of_nat 0 + 1)%Z with 1%Z. rewrite pmul_1. by apply entry_check_ok.
  - replace (2 * Z.of_nat (S j) + 1)%Z with (1 + (Z.of_nat j + 1) * 2)%Z by lia.
    eapply chain_check_ok; [exact Hc|by apply coords_ok|by rewrite pmul_1|done].
Qed.

Lemma odd_table_ok : odd_table Bi base_point.
Proof.
  pose proof bi_check_ok as H. unfold bi_check in H. destruct (base_table_ok 0%nat 1%nat) as (row & q & Hr & Hq & Hrep); [lia|lia|].
  revert H. generalize dependent base. generalize Bi. intros [|q0 qs]; [done|]. intros [|[|q1 [|q2 rest]] rows] Hr H; try done.
  cbn in Hr. injection Hr as <-. cbn in Hq. injection Hq as ->. rewrite !andb_true_iff, Nat.eqb_eq in H.
  destruct H as (((HL & He) & H0) & Hc). eapply odd_chain_ok; try done.
  eapply same_point_ok; [exact H0|]. apply projective_of_affine, big_base_ok.
Qed.

(** ** Its order *)

Fixpoint proj_mul (k : positive) : BigZ.t * BigZ.t * BigZ.t :=
  match k with
  | xH => (big_base.1, big_base.2, BigZ.one)
  | xO k => proj_dbl (proj_mul k)
  | xI k => proj_add (proj_dbl (proj_mul k)) big_base
  end.

Lemma proj_mul_ok k : projective (proj_mul k) (pmul (Zpos k) base_point).
Proof.
  induction k as [k IH|k IH|]; cbn [proj_mul].
  - replace (Zpos k~1) with (2 * Zpos k + 1)%Z by lia. rewrite pmul_add, <- pmul_double.
    apply proj_add_ok; [by apply proj_dbl_ok|apply big_base_ok].
  - replace (Zpos k~0) with (2 * Zpos k)%Z by lia. rewrite <- pmul_double. by apply proj_dbl_ok.
  - apply projective_of_affine, big_base_ok.
Qed.

Lemma base_order_check : same_point (BigZ.zero, BigZ.one) (proj_mul (Z.to_pos L25519)) = true.
Proof. vm_compute. reflexivity. Qed.

Lemma base_order : pmul L25519 base_point = pzero.
Proof.
  pose proof (same_point_ok _ _ _ base_order_check (proj_mul_ok (Z.to_pos L25519))) as H.
  rewrite Z2Pos.id in H by done. revert H. generalize (pmul L25519 base_point). intros P [Hx Hy]. cbn [fst snd] in *.
  rewrite elt_zero in Hx. rewrite elt_one in Hy. apply point_eq; cbn [pzero px py]; congruence.
Qed.

(** C11: the scalar multiplications refine those of the group.  For scalars of 32
    bytes below 2^255 and a structure that stands for a point [P]:
    [ge_scalarmult_base] returns [a B] and [ge_double_scalarmult_vartime] returns
    [a P + b B], with the tables of precomp_data.h; their loops end, no limb
    overflows and no table is read outside its bounds. *)
Theorem ge_scalarmult_correct a b A P :
  length a = 32%nat → bytes_ok a → le_value a < 2 ^ 255 → length b = 32%nat → bytes_ok b → le_value b < 2 ^ 255 →
  rep_p3 A P →
  returns (ge_scalarmult_base a) (λ h, rep_p3 h (pmul (le_value a) base_point)) ∧
  returns (ge_double_scalarmult_vartime a A b) (λ r, rep_p2 r (padd (pmul (le_value a) P) (pmul (le_value b) base_point))).
Proof.
  intros La Oa Va Lb Ob Vb HA. split.
  - exact (scalarmult_base_ok base base_point a base_table_ok La Oa Va).
  - exact (double_scalarmult_ok Bi base_point a A P b odd_table_ok La Oa Va Lb Ob Vb HA).
Qed.

(** The scalars of twos and of threes, and the neutral point. *)
Lemma ge_scalarmult_correct_witness :
  returns (ge_scalarmult_base (replicate 32 2)) (λ h, rep_p3 h (pmul (le_value (replicate 32 2)) base_point)) ∧
  returns (ge_double_scalarmult_vartime (replicate 32 2) ge_p3_0 (replicate 32 3))
    (λ r, rep_p2 r (padd (pmul (le_value (replicate 32 2)) pzero) (pmul (le_value (replicate 32 3)) base_point))).
Proof.
  apply (ge_scalarmult_correct (replicate 32 2) (replicate 32 3) ge_p3_0 pzero).
  - reflexivity.
  - by apply Forall_replicate.
  - vm_compute. reflexivity.
  - reflexivity.
  - by apply Forall_replicate.
  - vm_compute. reflexivity.
  - exact rep_p3_0.
Defined.
