(* ===== verification/Ed25519.v ===== *)
(** * Ed25519: key pairs, signatures and their check (ed25519/src)

    keypair.c, sign.c, verify.c, add_scalar.c and seed.c.  Arrays that the code
    passes by pointer are byte arrays, of which a callee reads the bytes it
    reads; local structures that are not initialised are arguments.  The theorems
    say which points of the curve the bytes stand for, that a signature made with
    a key pair is accepted, and which signatures are. *)
From S2P Require Import Prelude Blake2 Sha512 Limbs Fe25519 FeBytes Sc25519 Primes Edwards Ge25519.
From S2P Require Import GePoints GeEncoding GeScalar GeTables GeBase.

(** ** The calls of the hash *)

(** [sha512_init], one [sha512_update] for each piece and [sha512_final], by
    callers that do not look at the return codes. *)
Definition hash_pieces (hash : sha512_context) (pieces : list (option byte_array)) : result (byte_array * sha512_context) :=
  let '(_, hash) := sha512_init hash in
  hash ← run (λ p hash, '(_, hash) ← sha512_update hash p; Ok hash) pieces hash;
  '(_, out, hash) ← sha512_final hash;
  Ok (out, hash).

(** ** Key pairs *)

(** [key[0] &= 248; key[31] &= 63; key[31] |= 64] *)
Definition clamp (key : byte_array) : byte_array :=
  let key := <[0%nat := Z.land (at_word key 0) 248]> key in
  let key := <[31%nat := Z.land (at_word key 31) 63]> key in
  <[31%nat := Z.lor (at_word key 31) 64]> key.

(** The public and the private key. *)
Definition ed25519_create_keypair (ctx : sha512_context) (seed : byte_array) : result (byte_array * byte_array) :=
  '(_, private_key) ← sha512 ctx (Some (take 32 seed));
  let private_key := clamp private_key in
  A ← ge_scalarmult_base (take 32 private_key);
  public_key ← ge_p3_tobytes A;
  Ok (public_key, private_key).

(** ** Signatures *)

Definition ed25519_sign (hash : sha512_context) (message : option byte_array) (public_key private_key : byte_array) :
    result byte_array :=
  '(r, hash) ← hash_pieces hash [Some (take 32 (drop 32 private_key)); message];
  r ← sc_reduce r;
  R ← ge_scalarmult_base (take 32 r);
  signature ← ge_p3_tobytes R;
  '(hram, hash) ← hash_pieces hash [Some signature; Some (take 32 public_key); message];
  hram ← sc_reduce hram;
  s ← sc_muladd (take 32 hram) (take 32 private_key) (take 32 r);
  Ok (signature ++ s).

Definition consttime_equal (x y : byte_array) : Z :=
  let r := foldl (λ r i, Z.lor r (Z.lxor (at_word x i) (at_word y i))) (Z.lxor (at_word x 0) (at_word y 0)) (seq 1 31) in
  if r =? 0 then 1 else 0.

Definition ed25519_verify (hash : sha512_context) (A : ge_p3) (signature : byte_array) (message : option byte_array)
    (public_key : byte_array) : result Z :=
  if negb (Z.land (at_word signature 63) 224 =? 0) then Ok 0 else
  '(ret, A) ← ge_frombytes_negate_vartime A public_key;
  if negb (ret =? 0) then Ok 0 else
  '(h, hash) ← hash_pieces hash [Some (take 32 signature); Some (take 32 public_key); message];
  h ← sc_reduce h;
  R ← ge_double_scalarmult_vartime (take 32 h) A (take 32 (drop 32 signature));
  checker ← ge_tobytes R;
  if consttime_equal checker signature =? 0 then Ok 0 else Ok 1.

(** ** Adding a scalar to a key *)

Definition SC_1 : byte_array := 1 :: replicate 31 0.

Definition add_to_private (hash : sha512_context) (private_key n scalar : byte_array) : result (byte_array * sha512_context) :=
  key ← sc_muladd SC_1 n (take 32 private_key);
  let private_key := key ++ drop 32 private_key in
  '(hashbuf, hash) ← hash_pieces hash [Some (take 32 (drop 32 private_key)); Some (take 32 scalar)];
  Ok (take 32 private_key ++ take 32 hashbuf, hash).

(** The keys that are given, changed.  [unpacked] is the local structure that an
    encoding without a point leaves as it is in part. *)
Definition ed25519_add_scalar (hash : sha512_context) (unpacked : ge_p3) (public_key private_key : option byte_array)
    (scalar : byte_array) : result (option byte_array * option byte_array) :=
  let n := take 31 scalar ++ [Z.land (at_word scalar 31) 127] in
  private_key ← match private_key with
                | Some key => '(key, _) ← add_to_private hash key n scalar; Ok (Some key)
                | None => Ok None
                end;
  public_key ← match public_key with
               | Some key =>
                   A ← match private_key with
                       | Some private_key => ge_scalarmult_base (take 32 private_key)
                       | None =>
                           '(_, P) ← ge_frombytes_negate_vartime unpacked key;
                           X ← fe_neg (p3_X P);
                           T' ← fe_neg (p3_T P);
                           T ← ge_p3_to_cached {| p3_X := X; p3_Y := p3_Y P; p3_Z := p3_Z P; p3_T := T' |};
                           nB ← ge_scalarmult_base n;
                           A ← ge_add nB T;
                           ge_p1p1_to_p3 A
                       end;
                   key ← ge_p3_tobytes A;
                   Ok (Some key)
               | None => Ok None
               end;
  Ok (public_key, private_key).

(** ** The hash of the pieces *)

Definition joined_pieces (pieces : list (option byte_array)) : byte_array := concat (default [] <$> pieces).

Lemma hash_updates_ok d md pieces : sha_absorbed d md → bytes_ok (joined_pieces pieces) →
  returns (run (λ p hash, '(_, hash) ← sha512_update hash p; Ok hash) pieces md) (sha_absorbed (d ++ joined_pieces pieces)).
Proof.
  unfold joined_pieces. revert d md. induction pieces as [|p pieces IH]; intros d md Hd Hok; cbn [run fmap list_fmap concat] in *.
  { apply returns_Ok. by rewrite app_nil_r. }
  apply bytes_ok_app in Hok as [Hp Hok]. destruct p as [p|]; cbn [default] in *.
  - destruct (sha512_update_absorbs d md p Hd Hp) as (md1 & -> & Hd1). rewrite !bind_Ok, app_assoc. by apply IH.
  - cbn [sha512_update app]. rewrite !bind_Ok. by apply IH.
Qed.

Definition hash_input_ok (m : byte_array) : Prop := bytes_ok m ∧ 8 * Z.of_nat (length m) < 2 ^ 64.

Lemma hash_pieces_ok hash pieces : length (sha_buf hash) = 128%nat → hash_input_ok (joined_pieces pieces) →
  ∃ hash', hash_pieces hash pieces = Ok (sha512_spec (joined_pieces pieces), hash') ∧ length (sha_buf hash') = 128%nat.
Proof.
  intros Hb [Hok Hl]. unfold hash_pieces. pose proof (sha512_init_absorbed hash Hb) as H0.
  destruct (sha512_init hash) as [c md]. cbn [snd] in H0.
  destruct (hash_updates_ok [] md pieces H0 Hok) as (md1 & -> & H1). rewrite bind_Ok. cbn [app] in H1.
  destruct (sha512_final_spec _ md1 H1 Hl) as (md2 & E). rewrite E, bind_Ok. exists md2. split; [done|].
  rewrite (sha512_final_buffer _ _ _ _ E). by destruct H1 as (bs & tl & _ & [? ? ? ? ? ? ? ? ?]).
Qed.

(** ** Scalars *)

Definition scalar (a : byte_array) : Z := le_value (take 32 a).

Lemma reduced_scalar s : length s = 64%nat → bytes_ok s →
  ∃ r, sc_reduce s = Ok r ∧ length (take 32 r) = 32%nat ∧ bytes_ok (take 32 r) ∧ scalar r = le_value s mod L25519.
Proof.
  intros Hl Hok. rewrite sc_reduce_ok by done. eexists. split; [done|].
  rewrite take_app_length' by (by rewrite length_le_bytes). split; [apply length_le_bytes|]. split; [apply le_bytes_ok|].
  unfold scalar. rewrite take_app_length' by (by rewrite length_le_bytes). rewrite le_value_le_bytes. apply Z.mod_small.
  pose proof (Z.mod_pos_bound (le_value s) L25519 ltac:(done)). assert (L25519 < 2 ^ (8 * Z.of_nat 32)) by done. lia.
Qed.

Lemma mod_L_small v : 0 <= v mod L25519 < 2 ^ 253.
Proof. pose proof (Z.mod_pos_bound v L25519 ltac:(done)). assert (L25519 < 2 ^ 253) by done. lia. Qed.

Lemma ge_scalarmult_base_ok a : length a = 32%nat → bytes_ok a → le_value a < 2 ^ 255 →
  returns (ge_scalarmult_base a) (λ h, rep_p3 h (pmul (le_value a) base_point)).
Proof. apply scalarmult_base_ok, base_table_ok. Qed.

(** A multiple of the base point and its bytes. *)
Lemma base_multiple_bytes a : length a = 32%nat → bytes_ok a → le_value a < 2 ^ 255 →
  (h ← ge_scalarmult_base a; ge_p3_tobytes h) = Ok (encode (pmul (le_value a) base_point)).
Proof.
  intros Hl Hok Ha. destruct (ge_scalarmult_base_ok a Hl Hok Ha) as (h & -> & Hh). rewrite bind_Ok. by apply ge_p3_tobytes_ok.
Qed.

(** ** Key pairs *)

Lemma insert_bytes_ok l i x : bytes_ok l → is_u8 x → bytes_ok (<[i := x]> l).
Proof. intros Hl Hx. by apply Forall_insert. Qed.

(** A test on bytes that holds of all 256. *)
Lemma byte_forall (f : Z → bool) : forallb f (Z.of_nat <$> seq 0 256) = true → ∀ b, is_u8 b → f b = true.
Proof.
  rewrite forallb_forall. intros H b Hb. apply H, list_elem_of_In, list_elem_of_fmap. unfold is_u8, is_unsigned in Hb.
  exists (Z.to_nat b). rewrite Z2Nat.id by lia. split; [done|]. apply elem_of_seq. lia.
Qed.

Lemma clamp_low b : is_u8 b → Z.land b 248 = 8 * (b / 8).
Proof. intros Hb. apply Z.eqb_eq. by apply (byte_forall (λ b, Z.land b 248 =? 8 * (b / 8))). Qed.

Lemma clamp_high b : is_u8 b → Z.lor (Z.land b 63) 64 = b mod 64 + 64.
Proof. intros Hb. apply Z.eqb_eq. by apply (byte_forall (λ b, Z.lor (Z.land b 63) 64 =? b mod 64 + 64)). Qed.

Lemma thirty_two (l : byte_array) : length l = 32%nat → ∃ b0 mid b31, l = b0 :: mid ++ [b31] ∧ length mid = 30%nat.
Proof.
  intros Hl. destruct l as [|b0 l]; [done|]. injection Hl as Hl. destruct (exists_last (l := l)) as (mid & b31 & ->); [by intros ->|].
  rewrite length_app in Hl. cbn in Hl. exists b0, mid, b31. split; [done|lia].
Qed.

(** Clamping: the three low bits are cleared, bit 254 is set and bit 255 cleared. *)
Lemma clamp_ok key : (32 <= length key)%nat → bytes_ok key →
  length (clamp key) = length key ∧ bytes_ok (clamp key) ∧ drop 32 (clamp key) = drop 32 key ∧
  scalar (clamp key) = 2 ^ 254 + 8 * (scalar key / 8 mod 2 ^ 251).
Proof.
  intros Hl Hok. destruct (thirty_two (take 32 key)) as (b0 & mid & b31 & E & Lm); [rewrite length_take; lia|].
  assert (EK : key = b0 :: mid ++ b31 :: drop 32 key).
  { rewrite <- (take_drop 32 key) at 1. rewrite E. cbn. by rewrite <- app_assoc. }
  set (rest := drop 32 key) in *. rewrite EK in Hok. apply Forall_cons in Hok as [H0 Hok]. apply Forall_app in Hok as [Hm Hok].
  apply Forall_cons in Hok as [H31 Hr].
  assert (EC : clamp key = 8 * (b0 / 8) :: mid ++ b31 mod 64 + 64 :: rest).
  { rewrite EK. unfold clamp. cbn [insert list_insert]. change (at_word (b0 :: _) 0) with b0.
    assert (Ea : ∀ a x, at_word (a :: mid ++ x :: rest) 31 = x).
    { intros a x. unfold at_word. cbn [nth]. rewrite app_nth2 by lia. rewrite Lm. done. }
    assert (Ei : ∀ x y, <[30%nat := y]> (mid ++ x :: rest) = mid ++ y :: rest).
    { intros x y. rewrite <- Lm. by rewrite insert_app_r_alt, Nat.sub_diag by lia. }
    rewrite Ea, Ei, Ea, Ei. by rewrite clamp_low, clamp_high. }
  assert (S1 : ∀ a x, take 32 (a :: mid ++ x :: rest) = a :: mid ++ [x]).
  { intros a x. rewrite cons_middle, app_assoc, app_comm_cons. apply take_app_length'. rewrite length_cons, length_app. cbn. lia. }
  rewrite EC. unfold is_u8, is_unsigned in *.
  pose proof (Z.mod_pos_bound b31 64 ltac:(lia)) as M31. pose proof (Z.div_mod b0 8 ltac:(lia)) as D0. pose proof (Z.mod_pos_bound b0 8 ltac:(lia)).
  split; [|split; [|split]].
  - rewrite EK. rewrite !length_cons, !length_app. done.
  - constructor; [unfold is_u8, is_unsigned; lia|]. apply Forall_app. split; [done|]. constructor; [unfold is_u8, is_unsigned; lia|done].
  - rewrite cons_middle, app_assoc, app_comm_cons. apply drop_app_length'. rewrite length_cons, length_app. cbn. lia.
  - unfold scalar. rewrite S1, E. cbn [le_value]. rewrite !le_value_app, Lm. cbn [le_value].
    pose proof (le_value_range mid Hm) as Rm. rewrite Lm in Rm. change (8 * Z.of_nat 30) with 240 in *.
    set (m := le_value mid) in *. pose proof (Z.div_mod b31 64 ltac:(lia)) as D31.
    assert (Hq : (b0 + 256 * (m + 2 ^ 240 * (b31 + 256 * 0))) / 8 = b0 / 8 + 32 * (m + 2 ^ 240 * b31)).
    { symmetry. apply (Z.div_unique _ 8 _ (b0 mod 8)); lia. }
    rewrite Hq. rewrite <- (Z.mod_unique (b0 / 8 + 32 * (m + 2 ^ 240 * b31)) (2 ^ 251) (b31 / 64) (b0 / 8 + 32 * (m + 2 ^ 240 * (b31 mod 64)))); [lia| |lia].
    left. pose proof (Z.div_pos b0 8). pose proof (Z.div_lt_upper_bound b0 8 32). lia.
Qed.

Lemma clamp_hash_ok seed :
  length (clamp (sha512_spec seed)) = 64%nat ∧ bytes_ok (clamp (sha512_spec seed)) ∧
  drop 32 (clamp (sha512_spec seed)) = drop 32 (sha512_spec seed) ∧
  scalar (clamp (sha512_spec seed)) = 2 ^ 254 + 8 * (scalar (sha512_spec seed) / 8 mod 2 ^ 251).
Proof. rewrite <- (length_sha512_spec seed). apply clamp_ok; [rewrite length_sha512_spec; lia|apply sha512_spec_ok]. Qed.

Definition secret (seed : byte_array) : Z := scalar (clamp (sha512_spec seed)).

Lemma create_keypair_ok ctx seed : length (sha_buf ctx) = 128%nat → length seed = 32%nat → bytes_ok seed →
  ed25519_create_keypair ctx seed = Ok (encode (pmul (secret seed) base_point), clamp (sha512_spec seed)).
Proof.
  intros Hb Hl Hok. unfold ed25519_create_keypair. rewrite take_ge, sha512_ok, bind_Ok by (done || lia || (rewrite Hl; done)).
  destruct (clamp_hash_ok seed) as (Lc & Oc & _ & Ec).
  destruct (ge_scalarmult_base_ok (take 32 (clamp (sha512_spec seed)))) as (A & -> & HA).
  - rewrite length_take. lia.
  - by apply bytes_ok_take.
  - fold (scalar (clamp (sha512_spec seed))). rewrite Ec. pose proof (Z.mod_pos_bound (scalar (sha512_spec seed) / 8) (2 ^ 251) ltac:(lia)). lia.
  - rewrite bind_Ok, (ge_p3_tobytes_ok A _ HA), bind_Ok. done.
Qed.

(** ** Signing *)

(** The scalar of a hash, as the code reduces it. *)
Definition hash_scalar (m : byte_array) : Z := le_value (sha512_spec m) mod L25519.

Definition message_bytes (message : option byte_array) : byte_array := default [] message.

(** The signature of RFC 8032: [R] and [S = r + h a] for the nonce [r] from the
    second half of the private key. *)
Definition signature_spec (public_key private_key m : byte_array) : byte_array :=
  let r := hash_scalar (drop 32 private_key ++ m) in
  let R := encode (pmul r base_point) in
  let h := hash_scalar (R ++ public_key ++ m) in
  R ++ le_bytes 32 ((h * scalar private_key + r) mod L25519).

Lemma hashed_scalar hash pieces m : length (sha_buf hash) = 128%nat → joined_pieces pieces = m → hash_input_ok m →
  ∃ out hash' r, hash_pieces hash pieces = Ok (out, hash') ∧ length (sha_buf hash') = 128%nat ∧ sc_reduce out = Ok r ∧
    length (take 32 r) = 32%nat ∧ bytes_ok (take 32 r) ∧ le_value (take 32 r) = hash_scalar m.
Proof.
  intros Hb <- Hm. destruct (hash_pieces_ok hash pieces Hb Hm) as (hash' & E & Hb').
  destruct (reduced_scalar (sha512_spec (joined_pieces pieces)) (length_sha512_spec _) (sha512_spec_ok _)) as (r & Er & Lr & Or & Vr).
  by exists (sha512_spec (joined_pieces pieces)), hash', r.
Qed.

(** Messages that leave room for the 64 bytes hashed before them. *)
Definition message_ok (message : option byte_array) : Prop :=
  bytes_ok (message_bytes message) ∧ 8 * (Z.of_nat (length (message_bytes message)) + 64) < 2 ^ 64.

Lemma joined_two a m : joined_pieces [Some a; m] = a ++ message_bytes m.
Proof. unfold joined_pieces. cbn. by rewrite app_nil_r. Qed.

Lemma joined_three a b m : joined_pieces [Some a; Some b; m] = a ++ b ++ message_bytes m.
Proof. unfold joined_pieces. cbn. by rewrite app_nil_r. Qed.

Lemma sign_ok hash message public_key private_key :
  length (sha_buf hash) = 128%nat → message_ok message →
  length public_key = 32%nat → bytes_ok public_key → length private_key = 64%nat → bytes_ok private_key →
  ed25519_sign hash message public_key private_key = Ok (signature_spec public_key private_key (message_bytes message)).
Proof.
  intros Hb [Hm Lm] Lp Hp Ls Hs. unfold ed25519_sign. rewrite (take_ge (drop 32 private_key)), (take_ge public_key) by (rewrite ?length_drop; lia).
  destruct (hashed_scalar hash [Some (drop 32 private_key); message] _ Hb (joined_two _ _)) as (o1 & h1 & r & -> & Hb1 & Er & Lr & Or & Vr).
  { split; [apply bytes_ok_app; split; [by apply Forall_drop|done]|]. rewrite length_app, length_drop, Ls. lia. }
  rewrite bind_Ok, Er, bind_Ok. pose proof (mod_L_small (le_value (sha512_spec (drop 32 private_key ++ message_bytes message)))) as Hr.
  destruct (ge_scalarmult_base_ok (take 32 r) Lr Or) as (R & -> & HR).
  { rewrite Vr. unfold hash_scalar. lia. }
  rewrite bind_Ok, (ge_p3_tobytes_ok R _ HR), bind_Ok, Vr. unfold signature_spec.
  set (rs := hash_scalar (drop 32 private_key ++ _)) in *. set (enc := encode (pmul rs base_point)).
  destruct (hashed_scalar h1 [Some enc; Some public_key; message] _ Hb1 (joined_three _ _ _)) as (o2 & h2 & k & -> & Hb2 & Ek & Lk & Ok' & Vk).
  { split; [apply bytes_ok_app; split; [apply encode_ok|by apply bytes_ok_app]|]. unfold enc. rewrite !length_app, length_point_bytes. lia. }
  rewrite bind_Ok, Ek, bind_Ok, sc_muladd_ok, bind_Ok; try done; [|rewrite length_take; lia|by apply bytes_ok_take].
  by rewrite Vk, Vr.
Qed.

(** ** Verifying *)

Lemma lor_fold_zero (f : nat → Z) l r : foldl (λ r i, Z.lor r (f i)) r l = 0 ↔ r = 0 ∧ ∀ i, i ∈ l → f i = 0.
Proof.
  revert r. induction l as [|i l IH]; intros r; cbn [foldl].
  - split; [intros ->; split; [done|]; by intros i ?%not_elem_of_nil|by intros []].
  - rewrite IH, Z.lor_eq_0_iff. split.
    + intros ((Hr & Hi) & H). split; [done|]. intros j [->|Hj]%elem_of_cons; auto.
    + intros (Hr & H). split; [split; [done|apply H; constructor]|]. intros j Hj. apply H. by constructor.
Qed.

Lemma consttime_equal_ok x y : length x = 32%nat → (32 <= length y)%nat →
  consttime_equal x y = if decide (x = take 32 y) then 1 else 0.
Proof.
  intros Lx Ly. unfold consttime_equal. set (r := foldl _ _ _).
  assert (H : r = 0 ↔ x = take 32 y).
  { unfold r. rewrite (lor_fold_zero (λ i, Z.lxor (at_word x i) (at_word y i))). setoid_rewrite Z.lxor_eq_0_iff. split.
    - intros (H0 & H). apply list_eq_same_length with 32%nat; [rewrite length_take; lia|done|]. intros i a b Hi Ha Hb.
      rewrite lookup_take, decide_True in Hb by done. apply (nth_lookup_Some _ _ 0) in Ha, Hb. change (at_word x i = a) in Ha. change (at_word y i = b) in Hb.
      rewrite <- Ha, <- Hb. destruct i as [|i]; [done|]. apply H, elem_of_seq. lia.
    - intros ->. assert (E : ∀ i, (i < 32)%nat → at_word (take 32 y) i = at_word y i) by (intros i Hi; unfold at_word; rewrite !nth_lookup, lookup_take, decide_True by done; done).
      split; [by apply E; lia|]. intros i Hi%elem_of_seq. apply E. lia. }
  destruct (Z.eqb_spec r 0) as [E|E], (decide (x = take 32 y)) as [D|D]; tauto.
Qed.

(** The signatures that are accepted: the top three bits of [S] are clear, the
    public key is that of a point, and [R] is the encoding of [S B - h A]. *)
Definition accepts (signature m public_key : byte_array) : Prop :=
  at_word signature 63 < 32 ∧ ∃ A, decodes public_key A ∧
    encode (padd (pmul (scalar (drop 32 signature)) base_point)
                 (popp (pmul (hash_scalar (take 32 signature ++ public_key ++ m)) A))) = take 32 signature.

Lemma top_bits_clear b : is_u8 b → (Z.land b 224 =? 0) = (b <? 32).
Proof.
  intros Hb. apply eqb_prop. apply (byte_forall (λ b, Bool.eqb (Z.land b 224 =? 0) (b <? 32))); [by vm_compute|done].
Qed.

Lemma top_byte_bound s : length s = 64%nat → bytes_ok s → at_word s 63 < 32 → scalar (drop 32 s) < 2 ^ 255.
Proof.
  intros Hl Hok H. unfold scalar. rewrite take_ge by (rewrite length_drop; lia).
  destruct (thirty_two (drop 32 s)) as (b0 & mid & b31 & E & Lm); [rewrite length_drop; lia|].
  assert (Hd : bytes_ok (b0 :: mid ++ [b31])) by (rewrite <- E; by apply Forall_drop).
  assert (E31 : b31 = at_word s 63).
  { unfold at_word. rewrite nth_lookup. change 63%nat with (32 + 31)%nat. rewrite <- lookup_drop, E.
    change ((b0 :: mid ++ [b31]) !! 31%nat) with ((mid ++ [b31]) !! 30%nat). by rewrite lookup_app_r, Lm by lia. }
  rewrite E. cbn [le_value]. rewrite le_value_app, Lm. cbn [le_value]. unfold bytes_ok in Hd.
  rewrite Forall_cons, Forall_app in Hd. destruct Hd as (H0 & Hm & _). pose proof (le_value_range mid Hm) as R.
  rewrite Lm in R. change (8 * Z.of_nat 30) with 240 in *. unfold is_u8, is_unsigned in H0. lia.
Qed.

Lemma verify_ok hash A0 signature message public_key :
  length (sha_buf hash) = 128%nat → message_ok message →
  length signature = 64%nat → bytes_ok signature → length public_key = 32%nat → bytes_ok public_key →
  (ed25519_verify hash A0 signature message public_key = Ok 1 ∧ accepts signature (message_bytes message) public_key) ∨
  (ed25519_verify hash A0 signature message public_key = Ok 0 ∧ ~ accepts signature (message_bytes message) public_key).
Proof.
  intros Hb [Hm Lm] Ls Hs Lp Hp. unfold ed25519_verify, accepts.
  assert (H63 : is_u8 (at_word signature 63)) by (apply (at_word_Forall is_u8); [done|lia]).
  rewrite (top_bits_clear _ H63). destruct (Z.ltb_spec (at_word signature 63) 32) as [Ht|Ht]; cbn [negb]; [|right; split; [done|intros [? _]; lia]].
  destruct (ge_frombytes_ok A0 public_key Lp Hp) as ((ret & A) & -> & [(P & Er & Hdec & HA)|[Er Hno]]); cbn [fst snd] in *; subst ret; rewrite bind_Ok; cbn [Z.eqb negb].
  2:{ right. split; [done|]. intros (_ & P & [Hy _] & _). by apply (Hno P). }
  rewrite (take_ge public_key) by lia.
  destruct (hashed_scalar hash [Some (take 32 signature); Some public_key; message] _ Hb (joined_three _ _ _)) as (o & h & k & -> & _ & Ek & Lk & Hk & Vk).
  { split; [apply bytes_ok_app; split; [by apply bytes_ok_take|by apply bytes_ok_app]|]. rewrite !length_app, length_take. lia. }
  rewrite bind_Ok, Ek, bind_Ok. pose proof (top_byte_bound signature Ls Hs Ht) as Hbound.
  set (m := take 32 signature ++ public_key ++ message_bytes message) in *. pose proof (mod_L_small (le_value (sha512_spec m))) as HL.
  destruct (double_scalarmult_ok Bi base_point (take 32 k) A (popp P) (take 32 (drop 32 signature)) odd_table_ok Lk Hk) as (R & ER & HR).
  { rewrite Vk. unfold hash_scalar. lia. }
  { rewrite length_take, length_drop. lia. }
  { by apply bytes_ok_take, Forall_drop. }
  { exact Hbound. }
  { done. }
  unfold ge_double_scalarmult_vartime. rewrite ER, bind_Ok, (ge_tobytes_ok R _ HR), bind_Ok. fold (scalar (drop 32 signature)).
  rewrite Vk, pmul_popp, padd_comm, consttime_equal_ok by (apply length_point_bytes || lia).
  destruct (decide _) as [E|E]; cbn [Z.eqb].
  - left. split; [done|]. split; [done|]. by exists P.
  - right. split; [done|]. intros (_ & P' & Hdec' & E'). by rewrite (decodes_unique _ _ _ Hdec' Hdec) in E'.
Qed.

(** ** What is signed is accepted *)

Lemma signature_parts R S : length R = 32%nat → 0 <= S < L25519 →
  let signature := R ++ le_bytes 32 S in
  length signature = 64%nat ∧ take 32 signature = R ∧ scalar (drop 32 signature) = S ∧ at_word signature 63 < 32.
Proof.
  intros LR HS signature. unfold signature. assert (L25519 < 2 ^ 253) by done.
  assert (Ed : drop 32 (R ++ le_bytes 32 S) = le_bytes 32 S) by (by apply drop_app_length').
  split; [by rewrite length_app, LR, length_le_bytes|]. split; [by apply take_app_length'|]. rewrite Ed. split.
  - unfold scalar. rewrite take_ge by (by rewrite length_le_bytes). rewrite le_value_le_bytes. apply Z.mod_small.
    change (2 ^ (8 * Z.of_nat 32)) with (2 ^ 256). lia.
  - unfold at_word. rewrite app_nth2 by lia. rewrite LR. change (63 - 32)%nat with 31%nat.
    rewrite (le_bytes_split 31 1), app_nth2; rewrite length_le_bytes; [|lia]. cbn [Nat.sub nth le_bytes].
    rewrite Z.mod_small; [apply Z.div_lt_upper_bound; lia|]. split; [apply Z.div_pos; lia|apply Z.div_lt_upper_bound; lia].
Qed.

Lemma mod_L_range v : 0 <= v mod L25519 < L25519.
Proof. by apply Z.mod_pos_bound. Qed.

Lemma length_signature_spec public_key private_key m : length (signature_spec public_key private_key m) = 64%nat.
Proof. unfold signature_spec. by rewrite length_app, length_point_bytes, length_le_bytes. Qed.

Lemma signature_spec_ok public_key private_key m : bytes_ok (signature_spec public_key private_key m).
Proof. apply bytes_ok_app. split; [apply encode_ok|apply le_bytes_ok]. Qed.

Lemma signature_accepted private_key m :
  accepts (signature_spec (encode (pmul (scalar private_key) base_point)) private_key m) m
    (encode (pmul (scalar private_key) base_point)).
Proof.
  set (a := scalar private_key). set (pk := encode (pmul a base_point)). unfold signature_spec. fold a.
  set (r := hash_scalar (drop 32 private_key ++ m)). set (R := encode (pmul r base_point)). set (h := hash_scalar (R ++ pk ++ m)).
  destruct (signature_parts R ((h * a + r) mod L25519) (length_point_bytes _) (mod_L_range _)) as (_ & ET & ES & H63).
  split; [exact H63|]. exists (pmul a base_point). split; [apply decodes_encode|]. rewrite ES, ET. fold h.
  rewrite (pmul_mod _ _ _ base_order), pmul_add, pmul_mul, <- padd_assoc, (padd_comm (pmul r _)), padd_assoc, padd_opp_r.
  by rewrite padd_zero_l.
Qed.

(** C5: a signature made with a key pair is accepted.  For every seed of 32 bytes
    and every message the hash can take, whatever the uninitialised locals hold:
    the key pair is made, the message is signed and the check of the signature
    under the public key returns 1; no sum or product of limbs leaves its signed
    type and no table is left on the way (the one left shift that can lose its top
    bits is in the packing of [fe_tobytes], where it wraps). *)
Theorem ed25519_sign_verify ctx1 ctx2 ctx3 A0 seed message :
  length (sha_buf ctx1) = 128%nat → length (sha_buf ctx2) = 128%nat → length (sha_buf ctx3) = 128%nat →
  length seed = 32%nat → bytes_ok seed → message_ok message →
  ∃ public_key private_key signature,
    ed25519_create_keypair ctx1 seed = Ok (public_key, private_key) ∧
    ed25519_sign ctx2 message public_key private_key = Ok signature ∧
    ed25519_verify ctx3 A0 signature message public_key = Ok 1 ∧
    length public_key = 32%nat ∧ length private_key = 64%nat ∧ length signature = 64%nat.
Proof.
  intros H1 H2 H3 Hl Hok Hm. set (sk := clamp (sha512_spec seed)). set (pk := encode (pmul (secret seed) base_point)).
  destruct (clamp_hash_ok seed) as (Lc & Oc & _ & _).
  exists pk, sk, (signature_spec pk sk (message_bytes message)). split; [by apply create_keypair_ok|].
  split; [exact (sign_ok ctx2 message pk sk H2 Hm (length_point_bytes _) (encode_ok _) Lc Oc)|].
  split; [|split; [apply length_point_bytes|split; [done|apply length_signature_spec]]].
  destruct (verify_ok ctx3 A0 (signature_spec pk sk (message_bytes message)) message pk H3 Hm (length_signature_spec _ _ _)
    (signature_spec_ok _ _ _) (length_point_bytes _) (encode_ok _)) as [[? _]|[_ Hno]]; [done|].
  destruct Hno. apply signature_accepted.
Qed.

(** C14: which signatures are accepted.  The check always returns 1 or 0, and 1
    exactly when the top three bits of the last byte are clear, the public key is
    the encoding of a point [A], and the first half is the encoding of
    [S B - h A], for the hash [h] of the first half, the key and the message. *)
Theorem ed25519_verify_correct hash A0 signature message public_key :
  length (sha_buf hash) = 128%nat → message_ok message →
  length signature = 64%nat → bytes_ok signature → length public_key = 32%nat → bytes_ok public_key →
  ∃ b : bool, ed25519_verify hash A0 signature message public_key = Ok (if b then 1 else 0) ∧
    (b = true ↔ accepts signature (message_bytes message) public_key).
Proof.
  intros Hb Hm Ls Hs Lp Hp. destruct (verify_ok hash A0 signature message public_key) as [[-> H]|[-> H]]; try done.
  - by exists true.
  - by exists false.
Qed.

Lemma ed25519_sign_verify_witness :
  ∃ public_key private_key signature,
    ed25519_create_keypair any_context (replicate 32 7) = Ok (public_key, private_key) ∧
    ed25519_sign any_context (Some [97; 98; 99]) public_key private_key = Ok signature ∧
    ed25519_verify any_context ge_p3_0 signature (Some [97; 98; 99]) public_key = Ok 1 ∧
    length public_key = 32%nat ∧ length private_key = 64%nat ∧ length signature = 64%nat.
Proof.
  apply (ed25519_sign_verify any_context any_context any_context ge_p3_0 (replicate 32 7) (Some [97; 98; 99])); try reflexivity.
  - by apply Forall_replicate.
  - split; [repeat constructor; vm_compute; congruence|vm_compute; reflexivity].
Defined.

(** A signature of zeros under a key of zeros is not one. *)
Lemma ed25519_verify_correct_witness :
  ∃ b : bool, ed25519_verify any_context ge_p3_0 (replicate 64 0) None (replicate 32 0) = Ok (if b then 1 else 0) ∧
    (b = true ↔ accepts (replicate 64 0) [] (replicate 32 0)).
Proof.
  apply (ed25519_verify_correct any_context ge_p3_0 (replicate 64 0) None (replicate 32 0)); try reflexivity.
  - split; [constructor|vm_compute; reflexivity].
  - by apply Forall_replicate.
  - by apply Forall_replicate.
Defined.

(** ** Adding a scalar *)

Lemma mask_top b : is_u8 b → Z.land b 127 = b mod 128.
Proof. intros Hb. apply Z.eqb_eq. by apply (byte_forall (λ b, Z.land b 127 =? b mod 128)). Qed.

Lemma masked_scalar s : length s = 32%nat → bytes_ok s →
  let n := take 31 s ++ [Z.land (at_word s 31) 127] in
  length n = 32%nat ∧ bytes_ok n ∧ le_value n = le_value s mod 2 ^ 255.
Proof.
  intros Hl Hok n. assert (H31 : is_u8 (at_word s 31)) by (apply (at_word_Forall is_u8); [done|lia]).
  unfold n. rewrite (mask_top _ H31). unfold is_u8, is_unsigned in H31. set (b := at_word s 31) in *.
  pose proof (Z.mod_pos_bound b 128 ltac:(lia)) as Hb.
  assert (Es : s = take 31 s ++ [b]).
  { rewrite <- (take_drop 31 s) at 1. f_equal.  rewrite (drop_S _ _ _ (at_word_lookup s 31 ltac:(lia))), drop_ge by lia. done. }
  assert (Lt : length (take 31 s) = 31%nat) by (rewrite length_take; lia).
  split; [by rewrite length_app, Lt|]. split.
  - apply bytes_ok_app. split; [by apply bytes_ok_take|]. constructor; [unfold is_u8, is_unsigned; lia|constructor].
  - rewrite Es at 2. rewrite !le_value_app, Lt. cbn [le_value]. change (8 * Z.of_nat 31) with 248.
    pose proof (le_value_range (take 31 s) (bytes_ok_take _ _ Hok)) as R. rewrite Lt in R. change (8 * Z.of_nat 31) with 248 in R.
    pose proof (Z.div_mod b 128 ltac:(lia)). apply (Z.mod_unique _ _ (b / 128)); [left; lia|lia].
Qed.

(** The private key after the addition: the sum of the scalars, and a new second half. *)
Definition added_key (private_key s : byte_array) : byte_array :=
  le_bytes 32 ((le_value s mod 2 ^ 255 + scalar private_key) mod L25519) ++
  take 32 (sha512_spec (drop 32 private_key ++ s)).

Lemma scalar_added_key private_key s :
  scalar (added_key private_key s) = (le_value s mod 2 ^ 255 + scalar private_key) mod L25519.
Proof.
  unfold scalar at 1, added_key. rewrite take_app_length' by (by rewrite length_le_bytes). rewrite le_value_le_bytes.
  apply Z.mod_small. pose proof (mod_L_small (le_value s mod 2 ^ 255 + scalar private_key)).
  assert (2 ^ 253 < 2 ^ (8 * Z.of_nat 32)) by done. lia.
Qed.

Lemma added_key_ok private_key s : length (added_key private_key s) = 64%nat ∧ bytes_ok (added_key private_key s).
Proof.
  unfold added_key. split.
  - rewrite length_app, length_le_bytes, length_take, length_sha512_spec. done.
  - apply bytes_ok_app. split; [apply le_bytes_ok|apply bytes_ok_take, sha512_spec_ok].
Qed.

Lemma add_to_private_ok hash private_key n s : length (sha_buf hash) = 128%nat →
  length private_key = 64%nat → bytes_ok private_key → length s = 32%nat → bytes_ok s →
  length n = 32%nat → bytes_ok n → le_value n = le_value s mod 2 ^ 255 →
  ∃ hash', add_to_private hash private_key n s = Ok (added_key private_key s, hash').
Proof.
  intros Hb Lk Hk Ls Hs Ln Hn En. unfold add_to_private.
  rewrite sc_muladd_ok, bind_Ok; try done; [|rewrite length_take; lia|by repeat constructor|by apply bytes_ok_take].
  change (le_value SC_1) with 1. rewrite Z.mul_1_l, En. fold (scalar private_key).
  set (key := le_bytes 32 _). assert (Lkey : length key = 32%nat) by apply length_le_bytes.
  rewrite drop_app_length', take_app_length' by done. rewrite (take_ge s), (take_ge (drop 32 _)) by (rewrite ?length_drop; lia).
  destruct (hash_pieces_ok hash [Some (drop 32 private_key); Some s] Hb) as (h' & -> & _).
  { rewrite joined_two. change (message_bytes (Some s)) with s. split; [apply bytes_ok_app; split; [by apply Forall_drop|done]|].
    rewrite length_app, length_drop, Lk, Ls. done. }
  rewrite joined_two. change (message_bytes (Some s)) with s. by exists h'.
Qed.

(** The sum of the points, computed from the public key alone. *)
Lemma add_to_public_ok U n key P : length n = 32%nat → bytes_ok n → le_value n < 2 ^ 255 →
  length key = 32%nat → bytes_ok key → decodes key P →
  returns ('(_, P) ← ge_frombytes_negate_vartime U key;
           X ← fe_neg (p3_X P);
           T' ← fe_neg (p3_T P);
           T ← ge_p3_to_cached {| p3_X := X; p3_Y := p3_Y P; p3_Z := p3_Z P; p3_T := T' |};
           nB ← ge_scalarmult_base n;
           A ← ge_add nB T;
           ge_p1p1_to_p3 A) (λ A, rep_p3 A (padd (pmul (le_value n) base_point) P)).
Proof.
  intros Ln Hn Bn Lk Hk HP.
  destruct (ge_frombytes_ok U key Lk Hk) as ([ret h] & -> & [Hd|[_ Hno]]); [|by destruct (Hno P (proj1 HP))].
  rewrite bind_Ok. destruct Hd as (Q & _ & HQ & Hh). cbn [snd] in *. rewrite (decodes_unique _ _ _ HQ HP) in Hh.
  destruct (rep_p3_neg h _ Hh) as (X & T & -> & -> & Hneg). rewrite popp_popp in Hneg. rewrite !bind_Ok.
  eapply returns_bind; [exact (ge_p3_to_cached_ok _ _ Hneg)|]. intros q Hq.
  eapply returns_bind; [exact (ge_scalarmult_base_ok n Ln Hn Bn)|]. intros nB HnB.
  eapply returns_bind; [exact (ge_add_ok _ _ _ _ HnB Hq)|]. intros A HA. exact (ge_p1p1_to_p3_ok _ _ HA).
Qed.

(** Adding a scalar to a key pair.  The private scalar becomes the sum modulo
    the order of the base point, of the scalar with its top bit cleared; the
    public key becomes the encoding of that multiple of the base point, whether
    the call has the private key or computes it from the public key alone; and
    the new pair is a key pair again, of the right lengths. *)
Theorem ed25519_add_scalar_correct hash unpacked private_key s :
  length (sha_buf hash) = 128%nat → length private_key = 64%nat → bytes_ok private_key → length s = 32%nat → bytes_ok s →
  let public_key := encode (pmul (scalar private_key) base_point) in
  ∃ public_key' private_key',
    ed25519_add_scalar hash unpacked (Some public_key) (Some private_key) s = Ok (Some public_key', Some private_key') ∧
    ed25519_add_scalar hash unpacked (Some public_key) None s = Ok (Some public_key', None) ∧
    ed25519_add_scalar hash unpacked None (Some private_key) s = Ok (None, Some private_key') ∧
    scalar private_key' = (le_value s mod 2 ^ 255 + scalar private_key) mod L25519 ∧
    public_key' = encode (pmul (scalar private_key') base_point) ∧
    length private_key' = 64%nat ∧ bytes_ok private_key'.
Proof.
  intros Hb Lk Hk Ls Hs public_key. destruct (masked_scalar s Ls Hs) as (Ln & Hn & En).
  set (n := take 31 s ++ [Z.land (at_word s 31) 127]) in *. pose proof (Z.mod_pos_bound (le_value s) (2 ^ 255) ltac:(done)) as Bn.
  pose proof (scalar_added_key private_key s) as Ea. destruct (added_key_ok private_key s) as [La Ha].
  destruct (add_to_private_ok hash private_key n s) as (h' & E1); try done.
  pose proof (mod_L_small (le_value s mod 2 ^ 255 + scalar private_key)) as Bs. rewrite <- Ea in Bs.
  set (key := added_key private_key s) in *. exists (encode (pmul (scalar key) base_point)), key. unfold ed25519_add_scalar. fold n.
  rewrite E1, !bind_Ok.
  destruct (ge_scalarmult_base_ok (take 32 key)) as (A & -> & HA); [rewrite length_take; lia|by apply bytes_ok_take|unfold scalar in Bs; lia|].
  destruct (add_to_public_ok unpacked n public_key (pmul (scalar private_key) base_point)) as (A' & -> & HA');
    [done|done|lia|apply length_point_bytes|apply encode_ok|apply decodes_encode|].
  rewrite !bind_Ok, (ge_p3_tobytes_ok A _ HA), (ge_p3_tobytes_ok A' _ HA'), !bind_Ok.
  split; [done|]. split; [|done]. rewrite En, <- pmul_add, <- (pmul_mod _ _ _ base_order), <- Ea. done.
Qed.

(** The pair of a private key of ones and a scalar with its top bit set. *)
Lemma ed25519_add_scalar_correct_witness :
  let public_key := encode (pmul (scalar (replicate 64 1)) base_point) in
  ∃ public_key' private_key',
    ed25519_add_scalar any_context ge_p3_0 (Some public_key) (Some (replicate 64 1)) (replicate 32 255) =
      Ok (Some public_key', Some private_key') ∧
    ed25519_add_scalar any_context ge_p3_0 (Some public_key) None (replicate 32 255) = Ok (Some public_key', None) ∧
    ed25519_add_scalar any_context ge_p3_0 None (Some (replicate 64 1)) (replicate 32 255) = Ok (None, Some private_key') ∧
    scalar private_key' = (le_value (replicate 32 255) mod 2 ^ 255 + scalar (replicate 64 1)) mod L25519 ∧
    public_key' = encode (pmul (scalar private_key') base_point) ∧
    length private_key' = 64%nat ∧ bytes_ok private_key'.
Proof.
  apply (ed25519_add_scalar_correct any_context ge_p3_0 (replicate 64 1) (replicate 32 255)); try reflexivity.
  - by apply Forall_replicate.
  - by apply Forall_replicate.
Defined.
