(* ===== verification/KeyExchange.v ===== *)
(** * KeyExchange: the shared secret of two key pairs (ed25519/src/key_exchange.c)

    The Montgomery ladder.  The theorems say that it returns, that no limb
    overflows on the way, that its result is the Montgomery coordinate of the
    multiple of the point by the clamped private scalar, and that two parties
    with key pairs of the library compute the same bytes. *)
From S2P Require Import Prelude Blake2 Sha512 Limbs Fe25519 FeBytes Sc25519 Primes Edwards Ge25519.
From S2P Require Import GePoints GeEncoding GeScalar GeTables GeBase Ed25519.
From Stdlib Require Import Zmod.Zmod Field.

(** ** The code *)

(** The variables that live across a turn of the loop. *)
Record ladder := { x2 : fe; z2 : fe; x3 : fe; z3 : fe; swap : Z }.

(** The two conditional swaps. *)
Definition ladder_swap (l : ladder) : ladder :=
  let '(a2, a3) := fe_cswap (x2 l) (x3 l) (swap l) in
  let '(c2, c3) := fe_cswap (z2 l) (z3 l) (swap l) in
  {| x2 := a2; z2 := c2; x3 := a3; z3 := c3; swap := swap l |}.

(** The doubling and the differential addition of a turn. *)
Definition ladder_step (x1 : fe) (l : ladder) : result ladder :=
  tmp0 ← fe_sub (x3 l) (z3 l);
  tmp1 ← fe_sub (x2 l) (z2 l);
  x2' ← fe_add (x2 l) (z2 l);
  z2' ← fe_add (x3 l) (z3 l);
  z3' ← fe_mul tmp0 x2';
  z2' ← fe_mul z2' tmp1;
  tmp0 ← fe_sq tmp1;
  tmp1 ← fe_sq x2';
  x3' ← fe_add z3' z2';
  z2' ← fe_sub z3' z2';
  x2' ← fe_mul tmp1 tmp0;
  tmp1 ← fe_sub tmp1 tmp0;
  z2' ← fe_sq z2';
  z3' ← fe_mul121666 tmp1;
  x3' ← fe_sq x3';
  tmp0 ← fe_add tmp0 z3';
  z3' ← fe_mul x1 z2';
  z2' ← fe_mul tmp1 tmp0;
  Ok {| x2 := x2'; z2 := z2'; x3 := x3'; z3 := z3'; swap := swap l |}.

Definition ladder_turn (e : byte_array) (x1 : fe) (pos : nat) (l : ladder) : result ladder :=
  let b := Z.land (Z.shiftr (at_word e (pos / 8)) (Z.land (Z.of_nat pos) 7)) 1 in
  let l := ladder_swap {| x2 := x2 l; z2 := z2 l; x3 := x3 l; z3 := z3 l; swap := Z.lxor (swap l) b |} in
  ladder_step x1 {| x2 := x2 l; z2 := z2 l; x3 := x3 l; z3 := z3 l; swap := b |}.

Definition ed25519_key_exchange (public_key private_key : byte_array) : result byte_array :=
  let e := clamp (take 32 private_key) in
  x1 ← fe_frombytes (take 32 public_key);
  let tmp1 := fe_1 in
  tmp0 ← fe_add x1 tmp1;
  tmp1 ← fe_sub tmp1 x1;
  tmp1 ← fe_invert tmp1;
  x1 ← fe_mul tmp0 tmp1;
  l ← run (ladder_turn e x1) (rev (seq 0 255)) {| x2 := fe_1; z2 := fe_0; x3 := fe_copy x1; z3 := fe_1; swap := 0 |};
  let l := ladder_swap l in
  z2' ← fe_invert (z2 l);
  x2' ← fe_mul (x2 l) z2';
  fe_tobytes x2'.

(** ** The Montgomery coordinate *)

Local Open Scope field_scope.
Add Field F_field_ladder : F_field.

(** Zero for the neutral point, where the denominator is. *)
Definition u_coord (P : point) : F := if decide (py P = 1) then 0 else (1 + py P) / (1 - py P).

(** [x] and [z] are [1 + y] and [1 - y] of the point, up to a factor. *)
Definition rep_u (x z : fe) (P : point) : Prop :=
  ∃ l, l ≠ 0 ∧ stands 101 x (l * (1 + py P)) ∧ stands 101 z (l * (1 - py P)).

Lemma one_plus_d_neq_0 : 1 + curve_d ≠ 0.
Proof. intros E. apply F_one_neq_0. rewrite <- d_scaled, E. ring. Qed.

(** [-d] is not a square either. *)
Lemma one_plus_d_square y : 1 + curve_d * (y * y) ≠ 0.
Proof.
  intros E. destruct (decide (y = 0)) as [-> |Hy].
  { apply F_one_neq_0. rewrite <- E. ring. }
  apply (curve_d_nonsquare (curve_i / y)). transitivity (curve_i * curve_i / (y * y)); [by field|].
  rewrite curve_i_square. assert (Ed : curve_d * (y * y) = - (1)) by (transitivity (1 + curve_d * (y * y) - 1); [ring|rewrite E; ring]).
  rewrite <- Ed. by field.
Qed.

Section Formulas.
  Variable d : F.

Lemma x_square x y : y * y - x * x = 1 + d * (x * x) * (y * y) → x * x * (1 + d * (y * y)) = y * y - 1.
Proof. intros C. transitivity (x * x + (1 + d * (x * x) * (y * y)) - 1); [ring|rewrite <- C; ring]. Qed.

Lemma double_y_values x y : y * y - x * x = 1 + d * (x * x) * (y * y) →
  let D := 1 - d * x * x * y * y in let g := 1 + d * (y * y) in D ≠ 0 →
  (1 + (y * y + x * x) / D) * (g * D) = (1 + 1) * (1 + d) * (y * y) ∧
  (1 - (y * y + x * x) / D) * (g * D) = (1 + 1) * (1 - y * y) * g.
Proof.
  intros C D g HD. pose proof (x_square x y C) as X. fold g in X. split.
  - transitivity (g * (1 + y * y) + x * x * g * (1 - d * (y * y))); [|rewrite X; unfold g; ring].
    transitivity (g * (D + (y * y + x * x))); [by field|unfold D; ring].
  - transitivity (g * (1 - y * y) - x * x * g * (1 + d * (y * y))); [|rewrite X; unfold g; ring].
    transitivity (g * (D - (y * y + x * x))); [by field|unfold D; ring].
Qed.

(** The coordinates of a sum and of a difference. *)
Lemma sum_difference_values xq yq xr yr :
  yq * yq - xq * xq = 1 + d * (xq * xq) * (yq * yq) → yr * yr - xr * xr = 1 + d * (xr * xr) * (yr * yr) →
  let t := xr * xq in let w := yr * yq in let e := d * t * w in let G := (1 + d * (yq * yq)) * (1 + d * (yr * yr)) in
  1 - e ≠ 0 → 1 + e ≠ 0 →
  (1 + (w + t) / (1 - e)) * (1 + (w - t) / (1 + e)) * (G * ((1 - e) * (1 + e))) =
    (1 + d) * (1 + d * (w * w)) * ((yr + yq) * (yr + yq)) ∧
  (1 - (w + t) / (1 - e)) * (1 - (w - t) / (1 + e)) * (G * ((1 - e) * (1 + e))) =
    (1 + d) * (1 + d * (w * w)) * ((yr - yq) * (yr - yq)).
Proof.
  intros Cq Cr t w e G H1 H2. pose proof (x_square _ _ Cq) as Xq. pose proof (x_square _ _ Cr) as Xr.
  assert (T : t * t * G = (yq * yq - 1) * (yr * yr - 1)) by (rewrite <- Xq, <- Xr; unfold t, G; ring). split.
  - transitivity (G * ((1 + w) * (1 + w)) - t * t * G * ((1 - d * w) * (1 - d * w))); [|rewrite T; unfold G, w; ring].
    transitivity (G * ((1 - e + (w + t)) * (1 + e + (w - t)))); [by field|unfold e; ring].
  - transitivity (G * ((1 - w) * (1 - w)) - t * t * G * ((1 + d * w) * (1 + d * w))); [|rewrite T; unfold G, w; ring].
    transitivity (G * ((1 - e - (w + t)) * (1 + e - (w - t)))); [by field|unfold e; ring].
Qed.
End Formulas.

Lemma py_padd P Q : py (padd P Q) = (py P * py Q + px P * px Q) / (1 - den P Q).
Proof. reflexivity. Qed.

Lemma double_y Q : ∃ w, w ≠ 0 ∧
  (1 + py (padd Q Q)) * w = (1 + 1) * (1 + curve_d) * (py Q * py Q) ∧
  (1 - py (padd Q Q)) * w = (1 + 1) * (1 - py Q * py Q) * (1 + curve_d * (py Q * py Q)).
Proof.
  destruct (den_ok Q Q) as [_ D]. unfold den in D. exists ((1 + curve_d * (py Q * py Q)) * (1 - curve_d * px Q * px Q * py Q * py Q)).
  split; [apply F_mul_neq_0; [apply one_plus_d_square|exact D]|].
  apply (double_y_values curve_d (px Q) (py Q) (curve_eq Q) D).
Qed.

Lemma add_y Q R : ∃ k m, k ≠ 0 ∧ m ≠ 0 ∧
  (1 + py (padd R Q)) * (1 + py (padd R (popp Q))) * k = m * ((py R + py Q) * (py R + py Q)) ∧
  (1 - py (padd R Q)) * (1 - py (padd R (popp Q))) * k = m * ((py R - py Q) * (py R - py Q)).
Proof.
  destruct (den_ok R Q) as [D1 D2]. set (e := curve_d * (px R * px Q) * (py R * py Q)).
  assert (E : den R Q = e) by (unfold den, e; ring). assert (E' : den R (popp Q) = - e) by (unfold den, e; cbn; ring).
  rewrite E in D1, D2.
  destruct (sum_difference_values curve_d (px Q) (py Q) (px R) (py R) (curve_eq Q) (curve_eq R) D2 D1) as [V1 V2]. fold e in V1, V2.
  set (G := (1 + curve_d * (py Q * py Q)) * (1 + curve_d * (py R * py R))) in *.
  exists (G * ((1 - e) * (1 + e))), ((1 + curve_d) * (1 + curve_d * (py R * py Q * (py R * py Q)))).
  split; [exact (F_mul_neq_0 _ _ (F_mul_neq_0 _ _ (one_plus_d_square _) (one_plus_d_square _)) (F_mul_neq_0 _ _ D2 D1))|].
  split; [apply F_mul_neq_0; [apply one_plus_d_neq_0|apply one_plus_d_square]|].
  assert (ES : py (padd R Q) = (py R * py Q + px R * px Q) / (1 - e)) by (rewrite py_padd, E; reflexivity).
  assert (EP : py (padd R (popp Q)) = (py R * py Q - px R * px Q) / (1 + e)).
  { rewrite py_padd, E'. cbn [px py popp]. assert (1 - - e = 1 + e) as -> by ring.
    assert (py R * py Q + px R * - px Q = py R * py Q - px R * px Q) as -> by ring. reflexivity. }
  rewrite ES, EP. split; [exact V1|exact V2].
Qed.

(** ** The ladder *)

Lemma mul121666_stands f x : stands 220 f x → returns (fe_mul121666 f) (λ h, stands 101 h (of_int 121666 * x)).
Proof.
  intros H. eapply returns_mono; [apply fe_mul121666_ok, (stands_bounded _ _ _ H)|]. intros h [Hh E].
  apply stands_intro; [done|]. rewrite <- (stands_val _ _ _ H), !val_def, <- of_int_mul. by apply of_int_eqp.
Qed.

Ltac ladder_op :=
  lazymatch goal with
  | |- returns (fe_mul121666 _ ≫= _) _ => eapply returns_bind; [eapply mul121666_stands; weaker|cbv beta; intros]
  | _ => field_step
  end.

(** The two formulas of a turn, for coordinates up to factors. *)
Lemma double_scaled Q l (a : F) : l ≠ 0 → a * (1 + curve_d) = 1 → 
  let A := l * (1 + py Q) + l * (1 - py Q) in let B := l * (1 + py Q) - l * (1 - py Q) in
  let E := A * A - B * B in
  ∃ m, m ≠ 0 ∧ A * A * (B * B) = m * (1 + py (padd Q Q)) ∧ E * (B * B + a * E) = m * (1 - py (padd Q Q)).
Proof.
  intros Hl Ha A B E. destruct (double_y Q) as (w & Hw & V1 & V2).
  assert (H2 : (1 + 1 : F) ≠ 0) by apply F_2_neq_0.
  set (s := (1 + 1) * l * ((1 + 1) * l)).
  assert (Hs : s ≠ 0) by (unfold s; exact (F_mul_neq_0 _ _ (F_mul_neq_0 _ _ H2 Hl) (F_mul_neq_0 _ _ H2 Hl))).
  assert (EA : A * A = s) by (unfold A, s; ring). assert (EB : B * B = s * (py Q * py Q)) by (unfold B, s; ring).
  assert (Ea : a ≠ 0). { intros ->. apply F_one_neq_0. rewrite <- Ha. ring. }
  exists (s * s * a * w / (1 + 1)). split.
  { intros H0. apply (F_mul_neq_0 _ _ (F_mul_neq_0 _ _ (F_mul_neq_0 _ _ Hs Hs) Ea) Hw).
    transitivity (s * s * a * w / (1 + 1) * (1 + 1)); [by field|rewrite H0; ring]. }
  unfold E. rewrite EA, EB. generalize (py (padd Q Q)) V1 V2. generalize (py Q). clear -H2 Ha. intros y v V1 V2. split.
  - transitivity (s * s * a * ((1 + v) * w) / (1 + 1)); [rewrite V1|by field].
    transitivity (s * s * (y * y) * (a * (1 + curve_d))); [rewrite Ha; ring|by field].
  - transitivity (s * s * a * ((1 - v) * w) / (1 + 1)); [rewrite V2|by field].
    transitivity (s * s * (1 - y * y) * (y * y * (a * (1 + curve_d)) + a * (1 - y * y))); [rewrite Ha; ring|by field].
Qed.

Lemma add_scaled Q R l m u yP : l ≠ 0 → m ≠ 0 → py (padd R (popp Q)) = yP → u * (1 - yP) = 1 + yP → 1 + yP ≠ 0 →
  let DA := (m * (1 + py R) - m * (1 - py R)) * (l * (1 + py Q) + l * (1 - py Q)) in
  let CB := (m * (1 + py R) + m * (1 - py R)) * (l * (1 + py Q) - l * (1 - py Q)) in
  ∃ n, n ≠ 0 ∧ (DA + CB) * (DA + CB) = n * (1 + py (padd R Q)) ∧ u * ((DA - CB) * (DA - CB)) = n * (1 - py (padd R Q)).
Proof.
  intros Hl Hm EP Hu HP DA CB. destruct (add_y Q R) as (k & c & Hk & Hc & V1 & V2). rewrite EP in V1, V2.
  assert (H2 : (1 + 1 : F) ≠ 0) by apply F_2_neq_0. set (s := (1 + 1) * l * ((1 + 1) * m)).
  assert (Hs : s ≠ 0) by (exact (F_mul_neq_0 _ _ (F_mul_neq_0 _ _ H2 Hl) (F_mul_neq_0 _ _ H2 Hm))).
  assert (E1 : DA + CB = s * (py R + py Q)) by (unfold DA, CB, s; ring).
  assert (E2 : DA - CB = s * (py R - py Q)) by (unfold DA, CB, s; ring).
  exists (s * s * (1 + yP) * k / c). split.
  { intros H0. apply (F_mul_neq_0 _ _ (F_mul_neq_0 _ _ (F_mul_neq_0 _ _ Hs Hs) HP) Hk).
    transitivity (s * s * (1 + yP) * k / c * c); [by field|rewrite H0; ring]. }
  rewrite E1, E2. generalize (py (padd R Q)) V1 V2. generalize (py R) (py Q). clear -Hu Hc. intros yr yq v V1 V2. split.
  - transitivity (s * s * (c * ((yr + yq) * (yr + yq))) / c); [by field|rewrite <- V1; by field].
  - transitivity (u * (s * s) * (c * ((yr - yq) * (yr - yq))) / c); [by field|rewrite <- V2].
    transitivity (s * s * (1 - v) * (u * (1 - yP)) * k / c); [by field|rewrite Hu; by field].
Qed.

(** A turn after its swap: the double of the first point and the sum of the two. *)
Lemma ladder_step_ok x1 l Q R u yP :
  stands 101 x1 u → u * (1 - yP) = 1 + yP → 1 + yP ≠ 0 → py (padd R (popp Q)) = yP →
  rep_u (x2 l) (z2 l) Q → rep_u (x3 l) (z3 l) R →
  returns (ladder_step x1 l)
    (λ l', rep_u (x2 l') (z2 l') (padd Q Q) ∧ rep_u (x3 l') (z3 l') (padd R Q) ∧ swap l' = swap l).
Proof.
  intros Hx1 Hu HP EP (a & Ha & HX2 & HZ2) (b & Hb & HX3 & HZ3). unfold ladder_step. repeat ladder_op. apply returns_Ok.
  cbn [x2 z2 x3 z3 swap]. split; [|split; [|done]].
  - destruct (double_scaled Q a (of_int 121666) Ha d_scaled) as (m & Hm & E1 & E2). exists m. split; [exact Hm|].
    split; (eapply stands_eq; [known|]); [exact E1|exact E2].
  - destruct (add_scaled Q R a b u yP Ha Hb EP Hu HP) as (n & Hn & E1 & E2). exists n. split; [exact Hn|].
    split; (eapply stands_eq; [known|]); [exact E1|exact E2].
Qed.

(** The two points of the ladder: [k P] and [(k + 1) P], exchanged when [swap] is 1. *)
Definition on_ladder (P : point) (k : Z) (l : ladder) : Prop :=
  (swap l = 0%Z ∧ rep_u (x2 l) (z2 l) (pmul k P) ∧ rep_u (x3 l) (z3 l) (pmul (k + 1) P)) ∨
  (swap l = 1%Z ∧ rep_u (x2 l) (z2 l) (pmul (k + 1) P) ∧ rep_u (x3 l) (z3 l) (pmul k P)).

Lemma rep_u_typed x z P : rep_u x z P → fe_typed x ∧ fe_typed z.
Proof.
  intros (l & _ & Hx & Hz). split; (eapply (bounded_typed 101); [small_bound|]);
    [exact (stands_bounded _ _ _ Hx)|exact (stands_bounded _ _ _ Hz)].
Qed.

Lemma ladder_swap_ok a c a' c' s P Q : rep_u a c P → rep_u a' c' Q → s = 0%Z ∨ s = 1%Z →
  let l := ladder_swap {| x2 := a; z2 := c; x3 := a'; z3 := c'; swap := s |} in
  rep_u (x2 l) (z2 l) (if s =? 1 then Q else P) ∧ rep_u (x3 l) (z3 l) (if s =? 1 then P else Q).
Proof.
  intros HP HQ Hs. destruct (rep_u_typed _ _ _ HP) as [T2 U2]. destruct (rep_u_typed _ _ _ HQ) as [T3 U3].
  unfold ladder_swap. cbn [x2 z2 x3 z3 swap]. rewrite !fe_cswap_ok by done. by destruct (s =? 1).
Qed.

Lemma ladder_bit e pos : length e = 32%nat → bytes_ok e → (pos < 256)%nat →
  Z.land (Z.shiftr (at_word e (pos / 8)) (Z.land (Z.of_nat pos) 7)) 1 = (le_value e / 2 ^ Z.of_nat pos mod 2)%Z.
Proof.
  intros Hl Hok Hp. rewrite <- (byte_bit e pos Hl Hok Hp). change 7%Z with (Z.ones 3). rewrite Z.land_ones by lia.
  do 2 f_equal. change (2 ^ 3)%Z with (Z.of_nat 8). by rewrite <- Nat2Z.inj_mod.
Qed.

Lemma halved v n : (v / 2 ^ Z.of_nat n = 2 * (v / 2 ^ Z.of_nat (S n)) + v / 2 ^ Z.of_nat n mod 2)%Z.
Proof.
  assert (2 ^ Z.of_nat (S n) = 2 ^ Z.of_nat n * 2)%Z as -> by (rewrite Nat2Z.inj_succ, Z.pow_succ_r; lia).
  rewrite <- Z.div_div by lia. apply Z.div_mod. lia.
Qed.

(** The swap with the exclusive or of the two bits puts [(k + b) P] first. *)
Lemma on_ladder_swap P k l b : on_ladder P k l → (0 <= b < 2)%Z →
  let l' := ladder_swap {| x2 := x2 l; z2 := z2 l; x3 := x3 l; z3 := z3 l; swap := Z.lxor (swap l) b |} in
  rep_u (x2 l') (z2 l') (pmul (k + b) P) ∧ rep_u (x3 l') (z3 l') (pmul (k + 1 - b) P).
Proof.
  intros Hl Hb. assert (b = 0 ∨ b = 1)%Z as [-> | ->] by lia; rewrite ?Z.add_0_r, ?Z.sub_0_r, ?Z.add_simpl_r;
    destruct Hl as [(-> & H2 & H3)|(-> & H2 & H3)].
  - exact (ladder_swap_ok _ _ _ _ 0 _ _ H2 H3 (or_introl eq_refl)).
  - exact (ladder_swap_ok _ _ _ _ 1 _ _ H2 H3 (or_intror eq_refl)).
  - exact (ladder_swap_ok _ _ _ _ 1 _ _ H2 H3 (or_intror eq_refl)).
  - exact (ladder_swap_ok _ _ _ _ 0 _ _ H2 H3 (or_introl eq_refl)).
Qed.

Section Ladder.
  Context (e : byte_array) (x1 : fe) (u : F) (P : point).
  Hypotheses (Le : length e = 32%nat) (He : bytes_ok e).
  Hypotheses (Hx1 : stands 101 x1 u) (Hu : u * (1 - py P) = 1 + py P) (HP : 1 + py P ≠ 0).

(** The two points differ by [P] or its opposite, which have the same [y]. *)
Lemma ladder_difference k b : (0 <= b < 2)%Z → py (padd (pmul (k + 1 - b) P) (popp (pmul (k + b) P))) = py P.
Proof.
  intros Hb. rewrite <- pmul_opp, <- pmul_add. assert (b = 0 ∨ b = 1)%Z as [-> | ->] by lia.
  - by replace (k + 1 - 0 + - (k + 0))%Z with 1%Z by lia.
  - by replace (k + 1 - 1 + - (k + 1))%Z with (-1)%Z by lia.
Qed.

Lemma ladder_turn_ok pos l : (pos < 256)%nat → on_ladder P (le_value e / 2 ^ Z.of_nat (S pos)) l →
  returns (ladder_turn e x1 pos l) (on_ladder P (le_value e / 2 ^ Z.of_nat pos)).
Proof.
  intros Hpos Hl. unfold ladder_turn. rewrite (ladder_bit e pos Le He Hpos).
  pose proof (halved (le_value e) pos) as Ek. pose proof (Z.mod_pos_bound (le_value e / 2 ^ Z.of_nat pos) 2 ltac:(lia)) as Hb.
  set (b := (le_value e / 2 ^ Z.of_nat pos mod 2)%Z) in *. set (k := (le_value e / 2 ^ Z.of_nat (S pos))%Z) in *. rewrite Ek. clearbody b k. clear Ek.
  destruct (on_ladder_swap P k l b Hl Hb) as [G2 G3]. set (l1 := ladder_swap _) in *. clearbody l1.
  eapply returns_mono; [exact (ladder_step_ok x1 {| x2 := x2 l1; z2 := z2 l1; x3 := x3 l1; z3 := z3 l1; swap := b |} _ _ u (py P) Hx1 Hu HP
    (ladder_difference k b Hb) G2 G3)|].
  intros l' (H2 & H3 & Es). cbn [swap] in Es. rewrite <- pmul_add in H2, H3. unfold on_ladder. rewrite Es.
  assert (b = 0 ∨ b = 1)%Z as [E|E] by lia; [left|right]; (split; [done|]); split;
    match goal with H : rep_u ?x ?z (pmul ?i P) |- rep_u ?x ?z (pmul ?j P) => replace j with i by lia; exact H end.
Qed.

Lemma ladder_run n l : (n <= 255)%nat → on_ladder P (le_value e / 2 ^ Z.of_nat n) l →
  returns (run (ladder_turn e x1) (rev (seq 0 n)) l) (on_ladder P (le_value e)).
Proof.
  revert l. induction n as [|n IH]; intros l Hn Hl.
  - apply returns_Ok. by rewrite Z.div_1_r in Hl.
  - rewrite seq_S, rev_app_distr. cbn [rev app run Nat.add]. eapply returns_bind; [apply ladder_turn_ok; [lia|exact Hl]|].
    intros l' Hl'. apply IH; [lia|exact Hl'].
Qed.

Lemma ladder_start : le_value e < 2 ^ 255 →
  on_ladder P (le_value e / 2 ^ Z.of_nat 255) {| x2 := fe_1; z2 := fe_0; x3 := fe_copy x1; z3 := fe_1; swap := 0 |}.
Proof.
  intros Hv. pose proof (le_value_range e He). rewrite Z.div_small by (change (Z.of_nat 255) with 255%Z; lia).
  assert (H2 : (1 + 1 : F) ≠ 0) by apply F_2_neq_0.
  assert (Hz : 1 - py P ≠ 0). { intros E. apply HP. rewrite <- Hu, E. ring. }
  left. cbn [x2 z2 x3 z3 swap]. split; [done|]. split.
  - exists (1 / (1 + 1)). split; [intros E; apply F_one_neq_0; transitivity (1 / (1 + 1) * (1 + 1)); [by field|rewrite E; ring]|].
    cbn [py pmul pzero]. split; [eapply stands_eq; [eapply stands_weaken; [apply stands_1|small_bound]|by field]|].
    eapply stands_eq; [apply stands_0|ring].
  - exists (1 / (1 - py P)). split; [intros E; apply F_one_neq_0; transitivity (1 / (1 - py P) * (1 - py P)); [by field|rewrite E; ring]|].
    change (pmul (0 + 1) P) with P. split; (eapply stands_eq; [first [exact Hx1|eapply stands_weaken; [apply stands_1|small_bound]]|]).
    + rewrite <- Hu. by field.
    + by field.
Qed.
End Ladder.

(** ** The shared secret *)

(** [fe_invert] maps 0 to 0. *)
Lemma invert_zero f : stands 330 f 0 → returns (fe_invert f) (λ h, stands 101 h 0).
Proof.
  intros H. eapply returns_mono; [apply fe_invert_ok, (stands_bounded _ _ _ H)|]. intros h Hh.
  eapply stands_eq; [eapply is_pow_stands; [exact Hh|exact (stands_val _ _ _ H)]|]. apply Zmod.pow_0_l. vm_compute. discriminate.
Qed.

(** The end: the affine coordinate. *)
Lemma affine_u x z Q : rep_u x z Q → returns (z ← fe_invert z; fe_mul x z) (λ h, stands 101 h (u_coord Q)).
Proof.
  intros (l & Hl & Hx & Hz). unfold u_coord. destruct (decide (py Q = 1)) as [E|E].
  - eapply returns_bind; [apply invert_zero; eapply stands_weaken; [eapply stands_eq; [exact Hz|rewrite E; ring]|small_bound]|].
    intros i Hi. cbv beta in Hi. eapply returns_mono; [field_op|]. intros h Hh. cbv beta in Hh. eapply stands_eq; [exact Hh|ring].
  - assert (Hy : 1 - py Q ≠ 0). { intros E0. apply E. transitivity (1 - (1 - py Q)); [ring|rewrite E0; ring]. }
    eapply returns_bind; [eapply invert_stands; [weaker|by apply F_mul_neq_0]|].
    intros i Hi. cbv beta in Hi. eapply returns_mono; [field_op|]. intros h Hh. cbv beta in Hh. eapply stands_eq; [exact Hh|by field].
Qed.

Lemma ladder_final P k l : on_ladder P k l → let l' := ladder_swap l in rep_u (x2 l') (z2 l') (pmul k P).
Proof.
  intros H. destruct (on_ladder_swap P k l 0 H) as [G _]; [lia|]. rewrite Z.add_0_r, Z.lxor_0_r in G. by destruct l.
Qed.

Definition shared_secret (P : point) : byte_array := le_bytes 32 (to_int (u_coord P)).

Lemma key_exchange_ok public_key private_key P :
  length public_key = 32%nat → bytes_ok public_key → (32 <= length private_key)%nat → bytes_ok private_key →
  py P = byte_y public_key → py P ≠ 1 → py P ≠ - (1) →
  ed25519_key_exchange public_key private_key = Ok (shared_secret (pmul (scalar (clamp (take 32 private_key))) P)).
Proof.
  intros Lp Hp Ls Hs Ey H1 Hm1. unfold ed25519_key_exchange. rewrite (take_ge public_key) by lia.
  assert (L32 : length (take 32 private_key) = 32%nat) by (rewrite length_take; lia).
  destruct (clamp_ok (take 32 private_key)) as (Le & He & _ & Ve); [lia|by apply bytes_ok_take|]. rewrite L32 in Le.
  set (e := clamp (take 32 private_key)) in *. 
  assert (Hy1 : 1 - py P ≠ 0). { intros E. apply H1. transitivity (1 - (1 - py P)); [ring|rewrite E; ring]. }
  assert (Hy2 : 1 + py P ≠ 0). { intros E. apply Hm1. transitivity (1 + py P - 1); [ring|rewrite E; ring]. }
  destruct (fe_frombytes_ok public_key Lp Hp) as (y & -> & By & Vy). rewrite bind_Ok.
  assert (HY : stands 101 y (py P)) by (apply stands_intro; [done|rewrite val_def, Ey; by apply of_int_eqp]).
  pose proof stands_1 as HO.
  match goal with |- ?c = _ => enough (H : returns c (eq (shared_secret (pmul (scalar e) P)))) by (by destruct H as (? & ? & ->)) end.
  do 2 field_step. eapply returns_bind; [eapply invert_stands; [weaker|exact Hy1]|]. intros i Hi. cbv beta in Hi. field_step.
  match goal with H : stands _ ?x ((py P + 1) * (1 / (1 - py P))) |- _ =>
    assert (Hx1 : stands 101 x ((1 + py P) / (1 - py P))) by (eapply stands_eq; [exact H|by field]); set (x1 := x) in *
  end.
  assert (Hu : (1 + py P) / (1 - py P) * (1 - py P) = 1 + py P) by (by field).
  assert (Bv : le_value e < 2 ^ 255).
  { unfold scalar in Ve. rewrite (take_ge e) in Ve by lia. rewrite Ve.
    pose proof (Z.mod_pos_bound (le_value (take 32 (take 32 private_key)) / 8) (2 ^ 251) ltac:(lia)). lia. }
  eapply returns_bind; [apply (ladder_run e x1 _ P Le He Hx1 Hu Hy2 255); [lia|]; by apply (ladder_start e x1 _ P Le He Hx1 Hu Hy2)|].
  intros l Hl. pose proof (ladder_final _ _ _ Hl) as G. cbv zeta in G |- *. rewrite <- result_bind_assoc.
  eapply returns_bind; [exact (affine_u _ _ _ G)|]. intros h Hh. cbv beta in Hh.
  rewrite fe_tobytes_ok by (eapply bounded_mono; [exact (stands_bounded _ _ _ Hh)|small_bound]). apply returns_Ok.
  unfold shared_secret, scalar. rewrite (take_ge e) by lia. by rewrite (stands_int _ _ _ Hh).
Qed.

(** ** The key pairs of the library *)

Lemma base_point_neq : base_point ≠ pzero.
Proof.
  intros E. assert (Ey : to_int (py base_point) = 1%Z) by (rewrite E; by vm_compute). revert Ey. vm_compute. discriminate.
Qed.

(** The order of the base point is exactly the prime [L25519]. *)
Lemma base_multiple_zero a : pmul a base_point = pzero ↔ (L25519 | a).
Proof.
  split; [|intros [c ->]; by rewrite pmul_mul, base_order, pmul_zero]. intros E.
  destruct (Z.eq_dec (a mod L25519) 0) as [E0|E0]; [by apply Z.mod_divide|]. exfalso. apply base_point_neq.
  assert (Hc : Z.coprime L25519 a) by (apply Z.coprime_prime_l; [apply L25519_prime|]; by intros ?%Z.mod0_divide).
  apply Z.Bezout_coprime_iff in Hc. destruct Hc as (u & v & Huv).
  rewrite <- (pmul_1 base_point), <- Huv, pmul_add, !pmul_mul, base_order, E, !pmul_zero. apply padd_zero_l.
Qed.

Lemma small_multiple_neq c n : (0 < c < 32)%Z → (0 < n < 2 ^ 252)%Z → pmul (c * n) base_point ≠ pzero.
Proof.
  intros Hc Hn [H|H]%base_multiple_zero%(Z.divide_prime_mul _ _ _ L25519_prime); apply Z.divide_pos_le in H; unfold L25519 in *; lia.
Qed.

Lemma y_one P : py P = 1 → P = pzero.
Proof.
  intros E. apply point_eq; [|done]. pose proof (curve_eq P) as C. rewrite E in C.
  assert (E0 : px P * px P * (1 + curve_d) = 0).
  { transitivity (1 + curve_d * (px P * px P) * (1 * 1) - (1 * 1 - px P * px P)); [ring|rewrite <- C; ring]. }
  destruct (F_integral _ _ E0) as [H|H]; [|destruct (one_plus_d_neq_0 H)]. by destruct (F_integral _ _ H).
Qed.

Lemma y_minus_one P : py P = - (1) → padd P P = pzero.
Proof.
  intros E. apply y_one. destruct (double_y P) as (w & Hw & _ & V). rewrite E in V.
  assert (E0 : (1 - py (padd P P)) * w = 0) by (rewrite V; ring).
  destruct (F_integral _ _ E0) as [H|H]; [|destruct (Hw H)]. transitivity (1 - (1 - py (padd P P))); [ring|rewrite H; ring].
Qed.

Lemma public_point_ok seed : let P := pmul (secret seed) base_point in py P ≠ 1 ∧ py P ≠ - (1).
Proof.
  destruct (clamp_hash_ok seed) as (_ & _ & _ & E). fold (secret seed) in E.
  pose proof (Z.mod_pos_bound (scalar (sha512_spec seed) / 8) (2 ^ 251) ltac:(lia)) as B.
  set (m := (scalar (sha512_spec seed) / 8 mod 2 ^ 251)%Z) in *.
  split; intros H; [apply y_one in H|apply y_minus_one in H; rewrite <- pmul_add in H].
  - apply (small_multiple_neq 8 (2 ^ 251 + m)); [lia|lia|]. rewrite <- H. f_equal. lia.
  - apply (small_multiple_neq 16 (2 ^ 251 + m)); [lia|lia|]. rewrite <- H. f_equal. lia.
Qed.

(** A clamped scalar is not changed by clamping it again. *)
Lemma clamp_again seed : scalar (clamp (take 32 (clamp (sha512_spec seed)))) = secret seed.
Proof.
  destruct (clamp_hash_ok seed) as (Lc & Oc & _ & Ec). set (key := clamp (sha512_spec seed)) in *.
  assert (L32 : length (take 32 key) = 32%nat) by (rewrite length_take; lia).
  destruct (clamp_ok (take 32 key)) as (_ & _ & _ & ->); [lia|by apply bytes_ok_take|].
  assert (scalar (take 32 key) = scalar key) as -> by (unfold scalar; by rewrite take_take).
  change (secret seed) with (scalar key). rewrite Ec.
  pose proof (Z.mod_pos_bound (scalar (sha512_spec seed) / 8) (2 ^ 251) ltac:(lia)) as B.
  set (m := (scalar (sha512_spec seed) / 8 mod 2 ^ 251)%Z) in *. clearbody m. do 2 f_equal.
  assert ((2 ^ 254 + 8 * m) / 8 = 2 ^ 251 + m)%Z as -> by (symmetry; apply (Z.div_unique _ 8 _ 0); lia).
  symmetry. apply (Z.mod_unique _ _ 1); [left; lia|lia].
Qed.

(** C9: two parties compute the same secret.  For the key pairs of any two seeds,
    the exchange of one's public key with the other's private key returns, without
    an overflow of a limb, and gives both the same 32 bytes: the Montgomery
    coordinate of the product of the two private scalars times the base point. *)
Theorem ed25519_key_exchange_agrees ctx1 ctx2 seed1 seed2 :
  length (sha_buf ctx1) = 128%nat → length (sha_buf ctx2) = 128%nat →
  length seed1 = 32%nat → bytes_ok seed1 → length seed2 = 32%nat → bytes_ok seed2 →
  ∃ public1 private1 public2 private2,
    ed25519_create_keypair ctx1 seed1 = Ok (public1, private1) ∧
    ed25519_create_keypair ctx2 seed2 = Ok (public2, private2) ∧
    ed25519_key_exchange public2 private1 = Ok (shared_secret (pmul (secret seed1 * secret seed2) base_point)) ∧
    ed25519_key_exchange public1 private2 = Ok (shared_secret (pmul (secret seed1 * secret seed2) base_point)).
Proof.
  intros H1 H2 L1 O1 L2 O2.
  assert (K : ∀ sa sb, ed25519_key_exchange (encode (pmul (secret sb) base_point)) (clamp (sha512_spec sa)) =
    Ok (shared_secret (pmul (secret sa * secret sb) base_point))).
  { intros sa sb. destruct (clamp_hash_ok sa) as (Lc & Oc & _ & _). destruct (public_point_ok sb) as [Y1 Y2].
    assert (L : (32 <= length (clamp (sha512_spec sa)))%nat) by lia.
    rewrite (key_exchange_ok _ _ _ (length_point_bytes _) (encode_ok _) L Oc (proj1 (decodes_encode _)) Y1 Y2).
    by rewrite clamp_again, <- pmul_mul. }
  exists (encode (pmul (secret seed1) base_point)), (clamp (sha512_spec seed1)),
    (encode (pmul (secret seed2) base_point)), (clamp (sha512_spec seed2)).
  split; [by apply create_keypair_ok|]. split; [by apply create_keypair_ok|]. split; [apply K|].
  rewrite K. by rewrite Z.mul_comm.
Qed.

Local Open Scope Z_scope.

(** The seeds of ones and of twos. *)
Lemma ed25519_key_exchange_agrees_witness :
  ∃ public1 private1 public2 private2,
    ed25519_create_keypair any_context (replicate 32 1) = Ok (public1, private1) ∧
    ed25519_create_keypair any_context (replicate 32 2) = Ok (public2, private2) ∧
    ed25519_key_exchange public2 private1 =
      Ok (shared_secret (pmul (secret (replicate 32 1) * secret (replicate 32 2)) base_point)) ∧
    ed25519_key_exchange public1 private2 =
      Ok (shared_secret (pmul (secret (replicate 32 1) * secret (replicate 32 2)) base_point)).
Proof.
  apply (ed25519_key_exchange_agrees any_context any_context (replicate 32 1) (replicate 32 2)); try reflexivity.
  - by apply Forall_replicate.
  - by apply Forall_replicate.
Defined.
