(* ===== verification/Encdec.v ===== *)
(** * Encdec: byte order and the compact integer coding

    Models [csdb/include/csdb/internal/endian.h] ([reverse_byte_order] and the
    conversions built on it, for unsigned types) and
    [csdb/src/integral_encdec.{h,cpp}] (the variable-length coding of 64-bit
    integers: a unary length prefix in the first byte, then the payload, with
    sign extension on decoding). *)

From S2P Require Import Prelude.

(** ** endian.h *)

(** [_reverse_byte_order_helper<T, size>::value], at width [w = 8 * sizeof(T)]. *)
Fixpoint reverse_byte_order_helper (w : Z) (size : nat) (v : Z) : Z :=
  match size with
  | O => v
  | S O => v
  | S size' =>
      Z.lor (wrap w (Z.shiftl (Z.land v 0xFF) (Z.of_nat size' * 8)))
            (reverse_byte_order_helper w size' (Z.shiftr v 8))
  end.

Definition reverse_byte_order (sizeof : nat) (value : Z) : Z :=
  reverse_byte_order_helper (8 * Z.of_nat sizeof) sizeof value.

(** The conversions of a little-endian platform. *)
Definition to_little_endian (value : Z) : Z := value.
Definition from_little_endian (value : Z) : Z := value.
Definition to_big_endian (sizeof : nat) (value : Z) : Z := reverse_byte_order sizeof value.
Definition from_big_endian (sizeof : nat) (value : Z) : Z := reverse_byte_order sizeof value.

(** ** integral_encdec *)

(** [__builtin_clzl]: the number of leading zeros.  Its result on 0 is
    undefined; [clz0] stands for whatever it returns there. *)
Definition builtin_clzl (clz0 x : Z) : Z :=
  if x =? 0 then clz0 else 63 - Z.log2 x.

(** The number of bytes that follow the first one. *)
Definition encode_bytes (clz0 value : Z) : nat :=
  let copy := if Z.land value 0x8000000000000000 =? 0 then value else u64 (Z.lnot value) in
  let bits := u64 (Z.lxor (builtin_clzl clz0 copy) 63 + 2) in
  let bits := if bits <? 7 then 7 else bits in
  if bits <? 57 then Z.to_nat ((bits - 1) / 7) else 8%nat.

(** [encode(void*, uint64_t)]: the bytes written. *)
Definition encode_u64 (clz0 value : Z) : byte_array :=
  let value := to_little_endian value in
  let bytes := encode_bytes clz0 value in
  if (bytes <? 8)%nat then
    u8 (Z.lor (u64 (Z.shiftl value (Z.of_nat bytes + 1))) (Z.shiftl 1 (Z.of_nat bytes) - 1))
    :: le_bytes bytes (Z.shiftr value (7 - Z.of_nat bytes))
  else 0xFF :: le_bytes 8 value.

(** [encode(void*, bool)] *)
Definition encode_bool (value : bool) : byte_array := [if value then 1 else 0].

(** [encode<T>(void*, T)] for the other integral types: through [uint64_t]. *)
Definition encode_integral (clz0 value : Z) : byte_array := encode_u64 clz0 (u64 value).

(** [for (uint8_t mask = first; 0 != (mask & 0x1); ++bytes, mask >>= 1) {}];
    [fuel] bounds the iterations: a byte has at most eight low ones. *)
Fixpoint count_low_ones (fuel : nat) (mask : Z) : nat :=
  match fuel with
  | O => 0
  | S fuel' => if Z.land mask 1 =? 0 then 0 else S (count_low_ones fuel' (Z.shiftr mask 1))
  end.

(** [decode(const void*, size_t, uint64_t&)]: [None] is the return value 0;
    [Some (n, v)] is the return value [n] with [v] stored. *)
Definition decode_u64 (d : byte_array) : option (nat * Z) :=
  match d with
  | [] => None
  | first :: rest =>
      let bytes := count_low_ones 8 first in
      if (length d <? bytes + 1)%nat then None else
      let val := le_value (take bytes rest) in
      let val :=
        if (bytes <? 8)%nat then
          let val := u64 (Z.shiftl val (7 - Z.of_nat bytes)) in
          let val := Z.lor val (Z.shiftr first (Z.of_nat bytes + 1)) in
          if Z.land (nth bytes d 0) 0x80 =? 0 then val
          else Z.lor val (u64 (Z.shiftl (-1) ((Z.of_nat bytes + 1) * 7)))
        else val in
      Some ((bytes + 1)%nat, from_little_endian val)
  end.

(** [decode(const void*, size_t, bool&)] *)
Definition decode_bool (d : byte_array) : option (nat * bool) :=
  match d with
  | [] => None
  | b :: _ => Some (1%nat, negb (b =? 0))
  end.

(** [decode<T>(const void*, size_t, T&)], [cast] being [static_cast<T>]. *)
Definition decode_integral (cast : Z → Z) (d : byte_array) : option (nat * Z) :=
  match decode_u64 d with
  | Some (n, v) => Some (n, cast v)
  | None => None
  end.

(** ** Byte order *)

Lemma reverse_helper_spec w n v :
  (1 <= n)%nat → 8 * Z.of_nat n <= w → 0 <= v < 2 ^ (8 * Z.of_nat n) →
  reverse_byte_order_helper w n v = le_value (rev (le_bytes n v)).
Proof.
  intros Hn. revert v. induction Hn as [|n Hn IH]; intros v Hw Hv.
  { simpl. rewrite Z.mod_small by exact Hv. lia. }
  destruct n as [|n]; [lia|].
  change (reverse_byte_order_helper w (S (S n)) v) with
    (Z.lor (wrap w (Z.shiftl (Z.land v (Z.ones 8)) (Z.of_nat (S n) * 8)))
           (reverse_byte_order_helper w (S n) (Z.shiftr v 8))).
  change (le_bytes (S (S n)) v) with (v mod 2 ^ 8 :: le_bytes (S n) (v / 2 ^ 8)).
  rewrite land_low, shiftl_mul, shiftr_div by lia.
  set (m := S n) in *. clearbody m.
  assert (Ep : 2 ^ (8 * Z.of_nat (S m)) = 2 ^ 8 * 2 ^ (8 * Z.of_nat m)).
  { rewrite <- Z.pow_add_r by lia. f_equal. lia. }
  assert (Hq : 0 <= v / 2 ^ 8 < 2 ^ (8 * Z.of_nat m)).
  { split; [apply Z.div_pos; lia|]. apply Z.div_lt_upper_bound; lia. }
  rewrite IH by (lia || exact Hq).
  simpl rev. rewrite le_value_app. cbn [le_value].
  rewrite length_rev, length_le_bytes, Z.mul_0_r, Z.add_0_r.
  pose proof (Z.mod_pos_bound v (2 ^ 8) ltac:(lia)) as Hm.
  rewrite (Z.mul_comm (Z.of_nat m) 8).
  assert (Hpos : 0 < 2 ^ (8 * Z.of_nat m)) by lia.
  assert (2 ^ (8 * Z.of_nat (S m)) <= 2 ^ w) by (apply Z.pow_le_mono_r; lia).
  rewrite wrap_id by nia.
  rewrite lor_add; [lia|lia|].
  assert (bytes_ok (rev (le_bytes m (v / 2 ^ 8)))) as Hb by (apply Forall_rev, le_bytes_ok).
  apply le_value_range in Hb. by rewrite length_rev, length_le_bytes in Hb.
Qed.

Lemma reverse_spec n v :
  (1 <= n)%nat → 0 <= v < 2 ^ (8 * Z.of_nat n) →
  reverse_byte_order n v = le_value (rev (le_bytes n v)).
Proof. intros. apply reverse_helper_spec; lia. Qed.

Lemma reverse_range n v :
  (1 <= n)%nat → 0 <= v < 2 ^ (8 * Z.of_nat n) →
  0 <= reverse_byte_order n v < 2 ^ (8 * Z.of_nat n).
Proof.
  intros Hn Hv. rewrite reverse_spec by assumption.
  assert (bytes_ok (rev (le_bytes n v))) as Hb by (apply Forall_rev, le_bytes_ok).
  apply le_value_range in Hb. by rewrite length_rev, length_le_bytes in Hb.
Qed.

Lemma le_bytes_reverse n v :
  (1 <= n)%nat → 0 <= v < 2 ^ (8 * Z.of_nat n) →
  le_bytes n (reverse_byte_order n v) = rev (le_bytes n v).
Proof.
  intros Hn Hv. rewrite reverse_spec by assumption.
  assert (bytes_ok (rev (le_bytes n v))) as Hb by (apply Forall_rev, le_bytes_ok).
  apply le_bytes_le_value in Hb. by rewrite length_rev, length_le_bytes in Hb.
Qed.

Lemma reverse_involutive n v :
  (1 <= n)%nat → 0 <= v < 2 ^ (8 * Z.of_nat n) →
  reverse_byte_order n (reverse_byte_order n v) = v.
Proof.
  intros Hn Hv. rewrite reverse_spec by auto using reverse_range.
  rewrite le_bytes_reverse, rev_involutive, le_value_le_bytes by assumption.
  by apply Z.mod_small.
Qed.

(** ** The compact coding *)

(** [b] payload bytes are enough for [v]: as a signed number it fits in
    [7 * (b + 1)] bits. *)
Definition fits (b : nat) (v : Z) : Prop :=
  v < 2 ^ (7 * Z.of_nat b + 6) ∨ 2 ^ 64 - 2 ^ (7 * Z.of_nat b + 6) <= v.

(** The magnitude whose length the encoder measures. *)
Lemma encode_copy v : is_u64 v →
  (if Z.land v 0x8000000000000000 =? 0 then v else u64 (Z.lnot v))
  = (if v <? 2 ^ 63 then v else 2 ^ 64 - 1 - v).
Proof.
  intros Hv. rewrite top_bit_land by exact Hv. case_test; [done|].
  unfold Z.lnot. width_lia.
Qed.

Lemma lxor_63 x : 0 <= x <= 63 → Z.lxor (63 - x) 63 = x.
Proof.
  intros Hx. assert (∃ n, (n < 64)%nat ∧ x = Z.of_nat n) as (n & Hn & ->).
  { exists (Z.to_nat x). lia. }
  do 64 (destruct n as [|n]; [reflexivity|]). lia.
Qed.

Lemma encode_bytes_fits clz0 v :
  is_u64 v → (encode_bytes clz0 v < 8)%nat → fits (encode_bytes clz0 v) v.
Proof.
  intros Hv. unfold encode_bytes. rewrite encode_copy by exact Hv.
  set (c := if v <? 2 ^ 63 then v else 2 ^ 64 - 1 - v).
  assert (Hc : 0 <= c < 2 ^ 63) by (unfold c; case_test; unfold_widths; lia).
  set (bits := u64 _). set (b' := if bits <? 7 then 7 else bits).
  assert (Hb' : bits <= b' ∧ 7 <= b') by (unfold b'; case_test; lia).
  destruct (Z.ltb_spec b' 57) as [H57|]; [|lia]. intros _.
  assert (Hcb : c < 2 ^ (b' - 1)).
  { destruct (decide (c = 0)) as [E|E]; [rewrite E; lia|].
    assert (bits = Z.log2 c + 2) as Eb.
    { unfold bits, builtin_clzl. destruct (Z.eqb_spec c 0); [done|].
      pose proof (Z.log2_nonneg c).
      assert (Z.log2 c < 63) by (apply Z.log2_lt_pow2; lia).
      rewrite lxor_63 by lia. apply u64_id. unfold_widths. lia. }
    apply Z.log2_lt_cancel. rewrite Z.log2_pow2 by lia. lia. }
  assert (2 ^ (b' - 1) <= 2 ^ (7 * Z.of_nat (Z.to_nat ((b' - 1) / 7)) + 6)).
  { apply Z.pow_le_mono_r; [lia|]. rewrite Z2Nat.id by (apply Z.div_pos; lia).
    Z.to_euclidean_division_equations; lia. }
  unfold fits. unfold c in Hcb. destruct (v <? 2 ^ 63); [left|right]; lia.
Qed.

Lemma encode_bytes_le clz0 v : (encode_bytes clz0 v <= 8)%nat.
Proof.
  unfold encode_bytes. repeat case_test; try lia;
  rewrite Nat2Z.inj_le, Z2Nat.id; Z.to_euclidean_division_equations; lia.
Qed.

Lemma encode_shape clz0 v b :
  is_u64 v → encode_bytes clz0 v = b → (b < 8)%nat →
  encode_u64 clz0 v
  = v mod 2 ^ (7 - Z.of_nat b) * 2 ^ (Z.of_nat b + 1) + (2 ^ Z.of_nat b - 1)
    :: le_bytes b (v / 2 ^ (7 - Z.of_nat b)).
Proof.
  intros Hv Eb Hb. unfold encode_u64, to_little_endian. rewrite Eb.
  rewrite (proj2 (Nat.ltb_lt b 8)) by exact Hb.
  rewrite !shiftl_mul, shiftr_div, Z.mul_1_l by lia.
  f_equal. set (k := Z.of_nat b) in *.
  assert (Hk : 0 <= k <= 7) by lia.
  assert (2 ^ (k + 1) = 2 * 2 ^ k) by (rewrite Z.pow_add_r by lia; lia).
  assert (0 < 2 ^ k) by lia.
  unfold u64, wrap. replace 64 with ((63 - k) + (k + 1)) by lia.
  rewrite mod_shift, lor_add by lia.
  unfold u8, wrap. replace 8 with ((7 - k) + (k + 1)) at 1 by lia.
  rewrite add_mod_shift by lia. rewrite mod_mod_pow2 by lia. reflexivity.
Qed.

(** The unary prefix of the first byte is read back as the length. *)
Lemma count_low_ones_prefix fuel b x :
  (b < fuel)%nat → 0 <= x →
  count_low_ones fuel (x * 2 ^ (Z.of_nat b + 1) + (2 ^ Z.of_nat b - 1)) = b.
Proof.
  revert b. induction fuel as [|fuel IH]; intros b Hb Hx; [lia|].
  cbn [count_low_ones]. rewrite land_1, shiftr_div by lia. change (2 ^ 1) with 2.
  destruct b as [|b].
  - change (Z.of_nat 0 + 1) with 1. change (2 ^ Z.of_nat 0 - 1) with 0.
    rewrite Z.add_0_r, Z.mod_mul by done. reflexivity.
  - rewrite Nat2Z.inj_succ. rewrite (Z.pow_succ_r 2 (Z.of_nat b)) by lia.
    replace (Z.succ (Z.of_nat b) + 1) with (Z.succ (Z.of_nat b + 1)) by lia.
    rewrite Z.pow_succ_r by lia.
    set (y := x * 2 ^ (Z.of_nat b + 1) + (2 ^ Z.of_nat b - 1)).
    replace (x * (2 * 2 ^ (Z.of_nat b + 1)) + (2 * 2 ^ Z.of_nat b - 1)) with (1 + y * 2)
      by (unfold y; lia).
    rewrite Z.mod_add by done. change (1 mod 2 =? 0) with false. cbn iota. f_equal.
    rewrite Z.div_add by done. change (1 / 2) with 0. rewrite Z.add_0_l. apply IH; lia.
Qed.

Lemma count_low_ones_ff : count_low_ones 8 0xFF = 8%nat.
Proof. reflexivity. Qed.

Lemma land_80 x : (Z.land x 0x80 =? 0) = negb (Z.testbit x 7).
Proof.
  destruct (Z.testbit x 7) eqn:E; simpl.
  - apply Z.eqb_neq. intros H.
    assert (Z.testbit (Z.land x 0x80) 7 = false) as H7 by (by rewrite H).
    rewrite Z.land_spec, E in H7. discriminate.
  - apply Z.eqb_eq. apply Z.bits_inj'. intros i Hi. rewrite Z.land_spec, Z.bits_0.
    change 0x80 with (2 ^ 7). rewrite Z.pow2_bits_eqb by lia.
    destruct (Z.eqb_spec 7 i) as [<-|]; [by rewrite E|apply andb_false_r].
Qed.

(** The sign bit tested by the decoder is bit [7 * b + 6] of the value. *)
Lemma sign_bit v b rest :
  (b < 8)%nat → 0 <= v →
  Z.testbit (nth b ((v mod 2 ^ (7 - Z.of_nat b) * 2 ^ (Z.of_nat b + 1) + (2 ^ Z.of_nat b - 1)
                     :: le_bytes b (v / 2 ^ (7 - Z.of_nat b))) ++ rest) 0) 7
  = Z.testbit v (7 * Z.of_nat b + 6).
Proof.
  intros Hb Hv. destruct b as [|b].
  - cbn [nth app]. change (Z.of_nat 0) with 0.
    change (2 ^ 0 - 1) with 0. rewrite Z.add_0_r, Z.mul_pow2_bits by lia.
    apply Z.mod_pow2_bits_low. lia.
  - cbn [nth app]. rewrite app_nth1 by (rewrite length_le_bytes; lia).
    rewrite nth_le_bytes by lia.
    change 256 with (2 ^ 8). rewrite Z.mod_pow2_bits_low, <- Z.pow_mul_r by lia.
    rewrite !Z.div_pow2_bits by lia. f_equal. lia.
Qed.

(** Sign extension restores the value from its low [7 * k + 7] bits. *)
Lemma finish_decode v k :
  0 <= k <= 7 → is_u64 v →
  v < 2 ^ (7 * k + 6) ∨ 2 ^ 64 - 2 ^ (7 * k + 6) <= v →
  (if negb (Z.testbit v (7 * k + 6)) then v mod 2 ^ (7 * k + 7)
   else Z.lor (v mod 2 ^ (7 * k + 7)) (u64 (-1 * 2 ^ ((k + 1) * 7)))) = v.
Proof.
  intros Hk Hv Hf.
  assert (E : 2 ^ (7 * k + 7) = 2 * 2 ^ (7 * k + 6)).
  { rewrite <- Z.pow_succ_r by lia. f_equal. lia. }
  assert (0 < 2 ^ (7 * k + 6)) by lia.
  assert (H62 : 2 ^ (7 * k + 6) <= 2 ^ 55) by (apply Z.pow_le_mono_r; lia).
  assert (E64 : 2 ^ 64 = 2 ^ (57 - 7 * k) * 2 ^ (7 * k + 7)).
  { rewrite <- Z.pow_add_r by lia. f_equal. lia. }
  unfold is_u64, is_unsigned in Hv.
  destruct Hf as [Hlt|Hge].
  - rewrite (proj2 (Z.testbit_false v (7 * k + 6) ltac:(lia))).
    2: { by rewrite Z.div_small by lia. }
    cbn [negb]. apply Z.mod_small. lia.
  - rewrite (proj2 (Z.testbit_true v (7 * k + 6) ltac:(lia))).
    2: { assert (v / 2 ^ (7 * k + 6) = 2 ^ (58 - 7 * k) - 1) as ->.
         { assert (2 ^ 64 = 2 ^ (58 - 7 * k) * 2 ^ (7 * k + 6)).
           { rewrite <- Z.pow_add_r by lia. f_equal. lia. }
           symmetry. apply (Z.div_unique_pos _ _ _ (v - (2 ^ 64 - 2 ^ (7 * k + 6)))); lia. }
         replace (58 - 7 * k) with (Z.succ (57 - 7 * k)) by lia. rewrite Z.pow_succ_r by lia.
         replace (2 * 2 ^ (57 - 7 * k) - 1) with (1 + (2 ^ (57 - 7 * k) - 1) * 2) by lia.
         by rewrite Z.mod_add. }
    cbn [negb]. replace ((k + 1) * 7) with (7 * k + 7) by lia.
    assert (EW : u64 (-1 * 2 ^ (7 * k + 7)) = (2 ^ (57 - 7 * k) - 1) * 2 ^ (7 * k + 7)).
    { unfold u64, wrap. symmetry.
      apply (Z.mod_unique_pos _ _ (-1)); lia. }
    rewrite EW, lor_add' by (try apply Z.mod_pos_bound; lia).
    assert (v mod 2 ^ (7 * k + 7) = v - (2 ^ (57 - 7 * k) - 1) * 2 ^ (7 * k + 7)) as ->; [|lia].
    symmetry. apply (Z.mod_unique_pos _ _ (2 ^ (57 - 7 * k) - 1)); lia.
Qed.

Lemma decode_encode clz0 v rest :
  is_u64 v →
  decode_u64 (encode_u64 clz0 v ++ rest) = Some (length (encode_u64 clz0 v), v).
Proof.
  intros Hv. destruct (decide (encode_bytes clz0 v < 8)%nat) as [Hb|Hb].
  - pose proof (encode_bytes_fits clz0 v Hv Hb) as Hf.
    pose proof (encode_shape clz0 v _ Hv eq_refl Hb) as Hs.
    set (b := encode_bytes clz0 v) in *. rewrite Hs. clear Hs.
    pose proof (sign_bit v b rest Hb ltac:(apply Hv)) as Hsb.
    set (first := _ + (2 ^ Z.of_nat b - 1)) in *.
    assert (Hfirst : count_low_ones 8 first = b).
    { apply count_low_ones_prefix; [exact Hb|]. apply Z.mod_pos_bound. lia. }
    unfold decode_u64. cbn [app]. rewrite Hfirst.
    rewrite (proj2 (Nat.ltb_ge _ _)).
    2: { cbn [length]. rewrite length_app, length_le_bytes. lia. }
    cbn [length]. rewrite length_le_bytes, take_app_length' by (by rewrite length_le_bytes).
    f_equal. f_equal; [lia|]. unfold from_little_endian.
    rewrite (proj2 (Nat.ltb_lt b 8)) by exact Hb.
    rewrite land_80. cbn [app] in Hsb. rewrite Hsb.
    rewrite le_value_le_bytes, shiftl_mul, !shiftr_div, shiftl_mul by lia.
    set (k := Z.of_nat b) in *. assert (Hk : 0 <= k <= 7) by lia.
    assert (E7 : first / 2 ^ (k + 1) = v mod 2 ^ (7 - k)).
    { unfold first. rewrite Z.pow_add_r by lia.
      assert (0 < 2 ^ k) by lia. rewrite Z.div_add_l by lia.
      rewrite (Z.div_small (2 ^ k - 1)) by lia. lia. }
    rewrite E7. clear E7.
    pose proof (Z.mod_pos_bound v (2 ^ (7 - k)) ltac:(lia)) as Hm.
    pose proof (Z.mod_pos_bound (v / 2 ^ (7 - k)) (2 ^ (8 * k)) ltac:(lia)) as Hm2.
    assert (EV : (v / 2 ^ (7 - k)) mod 2 ^ (8 * k) * 2 ^ (7 - k) + v mod 2 ^ (7 - k)
                 = v mod 2 ^ (7 * k + 7)).
    { replace (7 * k + 7) with ((7 - k) + 8 * k) by lia.
      rewrite Z.pow_add_r, Z.rem_mul_r by lia. lia. }
    pose proof (Z.mod_pos_bound v (2 ^ (7 * k + 7)) ltac:(lia)) as HV.
    assert (H56 : 2 ^ (7 * k + 7) <= 2 ^ 63) by (apply Z.pow_le_mono_r; lia).
    rewrite u64_id by (unfold is_u64, is_unsigned; lia).
    rewrite lor_add, EV by lia. clear EV Hm Hm2.
    apply (finish_decode v k); assumption.
  - assert (encode_bytes clz0 v = 8%nat) as E8.
    { pose proof (encode_bytes_le clz0 v). lia. }
    unfold encode_u64, to_little_endian. rewrite E8. cbn [Nat.ltb Nat.leb].
    unfold decode_u64. cbn [app]. rewrite count_low_ones_ff.
    rewrite (proj2 (Nat.ltb_ge _ _)).
    2: { cbn [length]. rewrite length_app, length_le_bytes. lia. }
    cbn [length]. rewrite length_le_bytes, take_app_length' by (by rewrite length_le_bytes).
    cbn [Nat.ltb Nat.leb]. rewrite le_value_le_bytes.
    unfold from_little_endian. rewrite Z.mod_small by apply Hv. reflexivity.
Qed.

Lemma length_encode clz0 v : (1 <= length (encode_u64 clz0 v) <= 9)%nat.
Proof.
  pose proof (encode_bytes_le clz0 v).
  unfold encode_u64, to_little_endian. case_test; cbn [length]; rewrite length_le_bytes; lia.
Qed.

(** ** Properties *)

(** C39: The compact integer coding round-trips: for every 64-bit value, and
    whatever [__builtin_clzl] returns on zero, [decode] applied to the output of
    [encode] followed by any bytes returns the number of bytes [encode]
    reported, between 1 and [MAX_INTEGRAL_ENCODED_SIZE] = 9, and stores the
    original value; and [decode] never consumes more bytes than it was given. *)
Theorem decode_encode_roundtrip clz0 v rest d n w :
  is_u64 v →
  decode_u64 (encode_u64 clz0 v ++ rest) = Some (length (encode_u64 clz0 v), v)
  ∧ (1 <= length (encode_u64 clz0 v) <= 9)%nat
  ∧ (decode_u64 d = Some (n, w) → (n <= length d)%nat).
Proof.
  intros Hv. split; [by apply decode_encode|]. split; [apply length_encode|].
  destruct d as [|first rest']; [done|]. unfold decode_u64.
  destruct (Nat.ltb_spec (length (first :: rest')) (count_low_ones 8 first + 1)); [done|].
  intros [= <- _]. done.
Qed.

Lemma decode_encode_roundtrip_witness :
  decode_u64 (encode_u64 77 0xFFFFFFFFFFFF8000 ++ [1; 2])
  = Some (length (encode_u64 77 0xFFFFFFFFFFFF8000), 0xFFFFFFFFFFFF8000).
Proof.
  apply (decode_encode_roundtrip 77 0xFFFFFFFFFFFF8000 [1; 2] [] 0 0).
  vm_compute. intuition discriminate.
Defined.

(** The templated coding of a narrower signed type is lossless: for every
    [int32_t] (converted to [uint64_t] on the way out and back to [int32_t] on
    the way in) decoding the encoding gives the value back. *)
Theorem decode_encode_int32 clz0 v rest :
  is_i32 v →
  decode_integral i32 (encode_integral clz0 v ++ rest)
  = Some (length (encode_integral clz0 v), v).
Proof.
  intros Hv. unfold decode_integral, encode_integral.
  rewrite decode_encode by apply u64_range.
  do 2 f_equal. width_lia.
Qed.

Lemma decode_encode_int32_witness :
  decode_integral i32 (encode_integral 0 (-2147483648) ++ [])
  = Some (length (encode_integral 0 (-2147483648)), -2147483648).
Proof. apply decode_encode_int32. vm_compute. intuition discriminate. Defined.

(** [reverse_byte_order] reverses the object representation: the bytes of
    the result are the bytes of the argument in the opposite order, so that it
    is its own inverse and [from_big_endian] undoes [to_big_endian]. *)
Theorem reverse_byte_order_correct n v :
  (1 <= n)%nat → 0 <= v < 2 ^ (8 * Z.of_nat n) →
  le_bytes n (to_big_endian n v) = rev (le_bytes n v)
  ∧ from_big_endian n (to_big_endian n v) = v.
Proof.
  intros Hn Hv. split; [by apply le_bytes_reverse|by apply reverse_involutive].
Qed.

Lemma reverse_byte_order_correct_witness :
  from_big_endian 4 (to_big_endian 4 0x01020304) = 0x01020304.
Proof. apply reverse_byte_order_correct; [lia|]. vm_compute. intuition discriminate. Defined.
