(* ===== verification/Hex.v ===== *)
(** * Hex: hexadecimal text and fixed-size byte arrays

    Three parts of the node convert bytes to and from hexadecimal text:
    [from_hex]/[to_hex] of [csdb/include/csdb/internal/utils.h] (addresses,
    pool hashes), [bytesToHexString]/[hexStringToBytes] of
    [crypto/include/cscrypto/cscrypto.h] and [byteStreamToHex] of
    [net/include/net/Logger.hpp].  The file models all three, with the
    [FixedArray] of the crypto library, and shows that they agree. *)

From S2P Require Import Prelude.

(** ** csdb/internal/utils.h *)

Definition chr_0 : Z := 48.
Definition chr_9 : Z := 57.
Definition chr_A : Z := 65.
Definition chr_F : Z := 70.
Definition chr_a : Z := 97.
Definition chr_f : Z := 102.
Definition chr_z : Z := 122.

(** [toupper] of the "C" locale. *)
Definition toupper (c : Z) : Z := if (chr_a <=? c) && (c <=? chr_z) then c - 32 else c.

Definition digit_from_hex (val : Z) : option Z :=
  let val := toupper val in
  if (chr_0 <=? val) && (val <=? chr_9) then Some (u8 (val - chr_0))
  else if (chr_A <=? val) && (val <=? chr_F) then Some (u8 (val - chr_A + 10))
  else None.

(** Reads pairs of digits and stops at the first character that is not one, or
    at a dangling last digit. *)
Fixpoint from_hex (val : byte_array) : byte_array :=
  match val with
  | h :: l :: val' =>
      match digit_from_hex h with
      | Some hi =>
          match digit_from_hex l with
          | Some lo => u8 (Z.lor (Z.shiftl hi 4) lo) :: from_hex val'
          | None => []
          end
      | None => []
      end
  | _ => []
  end.

Definition digit_to_hex (val : Z) : Z :=
  if val <? 10 then val + chr_0 else val - 10 + chr_A.

Fixpoint to_hex (val : byte_array) : byte_array :=
  match val with
  | [] => []
  | b :: val' =>
      digit_to_hex (Z.land (Z.shiftr b 4) 0x0F) :: digit_to_hex (Z.land b 0x0F) :: to_hex val'
  end.

(** ** cscrypto.h *)

Definition byteToHex (byte : Z) : Z :=
  if byte <? 10 then byte + chr_0 else byte - 10 + chr_A.

Definition hexToByte (input : Z) : Z :=
  if (chr_0 <=? input) && (input <=? chr_9) then input - chr_0
  else if (chr_A <=? input) && (input <=? chr_F) then input - chr_A + 10
  else if (chr_a <=? input) && (input <=? chr_f) then input - chr_a + 10
  else 0.

(** [bytesToHexString]: [res] has [2 * size] characters, all overwritten. *)
Definition bytesToHexString (bytes : byte_array) : byte_array :=
  mjoin ((λ p, [byteToHex (Z.land (Z.shiftr p 4) 0x0F); byteToHex (Z.land p 0x0F)]) <$> bytes).

(** [hexStringToBytes]: [hex.size() / 2] bytes, the odd last digit dropped. *)
Definition hexStringToBytes (hex : byte_array) : byte_array :=
  (λ i, u8 (hexToByte (nth (2 * i) hex 0) * 16 + hexToByte (nth (2 * i + 1) hex 0)))
  <$> seq 0 (length hex / 2).

(** [FixedArray<BITS>(const Bytes&)]: truncated, or padded with zeros. *)
Definition FixedArray_from_bytes (sizeBytes : nat) (source : byte_array) : byte_array :=
  let len := Nat.min sizeBytes (length source) in
  take len source ++ replicate (sizeBytes - len) 0.

(** [FixedArray::toString] *)
Definition FixedArray_toString (bytes : byte_array) : byte_array := bytesToHexString bytes.

(** [right160]: the last 20 bytes of a 32-byte hash. *)
Definition right160 (h256 : byte_array) : byte_array := take 20 (drop 12 h256).

(** ** Logger.hpp *)

Definition hex_map : byte_array := str "0123456789ABCDEF".

Fixpoint byteStreamToHex (stream : byte_array) : byte_array :=
  match stream with
  | [] => []
  | c :: stream' =>
      nth (Z.to_nat (Z.shiftr c 4)) hex_map 0 :: nth (Z.to_nat (Z.land c 15)) hex_map 0
      :: byteStreamToHex stream'
  end.

(** ** Digits *)

(** A character accepted as a hexadecimal digit. *)
Definition is_hex_digit (c : Z) : bool :=
  match digit_from_hex c with Some _ => true | None => false end.

Lemma nibbles b : is_u8 b →
  Z.land (Z.shiftr b 4) 0x0F = b / 16 ∧ Z.land b 0x0F = b mod 16 ∧
  0 <= b / 16 < 16 ∧ 0 <= b mod 16 < 16.
Proof.
  intros Hb. change 0x0F with (Z.ones 4). rewrite !land_low, shiftr_div by lia.
  change (2 ^ 4) with 16. repeat split; width_lia.
Qed.

Lemma digit_roundtrip d : 0 <= d < 16 → digit_from_hex (digit_to_hex d) = Some d.
Proof.
  intros Hd. assert (∃ n, (n < 16)%nat ∧ d = Z.of_nat n) as (n & Hn & ->).
  { exists (Z.to_nat d). lia. }
  do 16 (destruct n as [|n]; [reflexivity|]). lia.
Qed.

Lemma digit_from_hex_range c d : digit_from_hex c = Some d → 0 <= d < 16.
Proof.
  unfold digit_from_hex, chr_0, chr_9, chr_A, chr_F. generalize (toupper c). intros v.
  repeat case_match; intros [= <-]; rewrite ?andb_true_iff, ?Z.leb_le in *; width_lia.
Qed.

Lemma digit_to_from c d : digit_from_hex c = Some d → digit_to_hex d = toupper c.
Proof.
  unfold digit_from_hex, digit_to_hex, chr_0, chr_9, chr_A, chr_F. generalize (toupper c). intros v.
  repeat case_match; intros [= <-];
  rewrite ?andb_true_iff, ?Z.leb_le, ?Z.ltb_lt, ?Z.ltb_ge in *; width_lia.
Qed.

Lemma join_nibbles hi lo : 0 <= hi < 16 → 0 <= lo < 16 →
  u8 (Z.lor (Z.shiftl hi 4) lo) = hi * 16 + lo.
Proof.
  intros. rewrite shiftl_mul, lor_add by lia. change (2 ^ 4) with 16.
  apply wrap_id. change (2 ^ 8) with 256. lia.
Qed.

(** ** csdb: printing and parsing *)

Lemma from_hex_to_hex b : bytes_ok b → from_hex (to_hex b) = b.
Proof.
  induction 1 as [|x b Hx _ IH]; [done|]. cbn [to_hex from_hex].
  destruct (nibbles x Hx) as (-> & -> & H1 & H2).
  rewrite !digit_roundtrip, join_nibbles, IH by assumption. f_equal. width_lia.
Qed.

Lemma from_hex_ok s : bytes_ok (from_hex s).
Proof.
  assert (∀ n s, (length s <= n)%nat → bytes_ok (from_hex s)) as H; [|by eapply H].
  clear s. induction n as [|n IH]; intros [|h [|l s]] Hn; cbn [length] in Hn;
    try constructor; try lia.
  cbn [from_hex]. do 2 (destruct digit_from_hex; [|constructor]).
  constructor; [apply wrap_range; lia|]. apply IH. lia.
Qed.

Lemma length_to_hex b : length (to_hex b) = (2 * length b)%nat.
Proof. induction b as [|x b IH]; [done|]. cbn [to_hex length]. lia. Qed.

(** Induction two characters at a time. *)
Lemma pairs_ind (P : byte_array → Prop) :
  P [] → (∀ a, P [a]) → (∀ a b s, P s → P (a :: b :: s)) → ∀ s, P s.
Proof.
  intros H0 H1 H2. assert (∀ n s, (length s <= n)%nat → P s) as H; [|by intros; eapply H].
  induction n as [|n IH]; intros [|a [|b s]] Hn; cbn [length] in Hn; auto; try lia.
  apply H2, IH. lia.
Qed.

Lemma to_hex_from_hex s :
  forallb is_hex_digit s = true → Nat.even (length s) = true →
  to_hex (from_hex s) = toupper <$> s.
Proof.
  induction s as [|a|a b s IH] using pairs_ind; try done.
  cbn [forallb length Nat.even]. rewrite !andb_true_iff. intros (Ha & Hb & Hs) He.
  unfold is_hex_digit in Ha, Hb. cbn [from_hex].
  destruct (digit_from_hex a) as [hi|] eqn:Ea; [|done].
  destruct (digit_from_hex b) as [lo|] eqn:Eb; [|done].
  pose proof (digit_from_hex_range _ _ Ea). pose proof (digit_from_hex_range _ _ Eb).
  rewrite join_nibbles by assumption. cbn [to_hex]. csimpl.
  destruct (nibbles (hi * 16 + lo)) as (-> & -> & _); [unfold_widths; lia|].
  rewrite Z.div_add_l, Z.div_small, Z.add_0_r by lia.
  rewrite Z.add_comm, Z.mod_add, Z.mod_small by lia.
  rewrite (digit_to_from _ _ Ea), (digit_to_from _ _ Eb), IH by assumption. reflexivity.
Qed.

(** ** The three implementations agree *)

Lemma hexToByte_digit c d : digit_from_hex c = Some d → hexToByte c = d.
Proof.
  unfold digit_from_hex, hexToByte, toupper, chr_0, chr_9, chr_A, chr_F, chr_a, chr_f, chr_z.
  repeat match goal with
  | |- context [?a && ?b] => destruct (a && b) eqn:?
  end; intros [= <-];
  rewrite ?andb_true_iff, ?andb_false_iff, ?Z.leb_le, ?Z.leb_gt in *; width_lia.
Qed.

Lemma bytesToHexString_to_hex b : bytesToHexString b = to_hex b.
Proof.
  unfold bytesToHexString. induction b as [|x b IH]; [done|]. csimpl. by rewrite <- IH.
Qed.

Lemma hex_map_digit d : 0 <= d < 16 → nth (Z.to_nat d) hex_map 0 = digit_to_hex d.
Proof.
  intros Hd. assert (∃ n, (n < 16)%nat ∧ d = Z.of_nat n) as (n & Hn & ->).
  { exists (Z.to_nat d). lia. }
  rewrite Nat2Z.id. do 16 (destruct n as [|n]; [reflexivity|]). lia.
Qed.

Lemma byteStreamToHex_to_hex b : bytes_ok b → byteStreamToHex b = to_hex b.
Proof.
  induction 1 as [|x b Hx _ IH]; [done|]. cbn [byteStreamToHex to_hex]. rewrite IH.
  destruct (nibbles x Hx) as (E1 & E2 & H1 & H2). rewrite E1, E2.
  assert (Z.shiftr x 4 = x / 16) as -> by (rewrite shiftr_div by lia; reflexivity).
  by rewrite !hex_map_digit.
Qed.

Lemma hexStringToBytes_cons a b s :
  hexStringToBytes (a :: b :: s) = u8 (hexToByte a * 16 + hexToByte b) :: hexStringToBytes s.
Proof.
  unfold hexStringToBytes.
  assert (length (a :: b :: s) / 2 = S (length s / 2))%nat as ->.
  { cbn [length]. replace (S (S (length s))) with (length s + 1 * 2)%nat by lia.
    rewrite Nat.div_add by lia. lia. }
  cbn [seq]. rewrite fmap_cons. f_equal.
  rewrite <- fmap_S_seq, <- list_fmap_compose. apply list_fmap_ext. intros _ i _. simpl.
  replace (i + S (i + 0))%nat with (S (i + (i + 0)))%nat by lia. reflexivity.
Qed.

Lemma hexStringToBytes_from_hex s :
  forallb is_hex_digit s = true → hexStringToBytes s = from_hex s.
Proof.
  induction s as [|a|a b s IH] using pairs_ind; [done|done|].
  cbn [forallb]. rewrite !andb_true_iff. intros (Ha & Hb & Hs).
  rewrite hexStringToBytes_cons, IH by exact Hs. unfold is_hex_digit in Ha, Hb. cbn [from_hex].
  destruct (digit_from_hex a) as [hi|] eqn:Ea; [|done].
  destruct (digit_from_hex b) as [lo|] eqn:Eb; [|done].
  pose proof (digit_from_hex_range _ _ Ea). pose proof (digit_from_hex_range _ _ Eb).
  rewrite (hexToByte_digit _ _ Ea), (hexToByte_digit _ _ Eb), join_nibbles by assumption.
  f_equal. apply wrap_id. change (2 ^ 8) with 256. lia.
Qed.

Lemma to_hex_digits b : bytes_ok b → forallb is_hex_digit (to_hex b) = true.
Proof.
  induction 1 as [|x b Hx _ IH]; [done|]. cbn [to_hex forallb]. rewrite IH.
  destruct (nibbles x Hx) as (-> & -> & H1 & H2).
  unfold is_hex_digit. by rewrite !digit_roundtrip.
Qed.

Lemma to_hex_inj a b : bytes_ok a → bytes_ok b → to_hex a = to_hex b → a = b.
Proof.
  intros Ha Hb E. rewrite <- (from_hex_to_hex a Ha), E. by apply from_hex_to_hex.
Qed.

#[export] Hint Resolve from_hex_ok : csdb.

(** ** Properties *)

(** Printing bytes in hexadecimal loses nothing: [from_hex] inverts
    [to_hex] on every byte string, and on a string of hexadecimal digits of even
    length [to_hex] gives it back in upper case. *)
Theorem hex_roundtrip b s :
  bytes_ok b → forallb is_hex_digit s = true → Nat.even (length s) = true →
  from_hex (to_hex b) = b ∧ length (to_hex b) = (2 * length b)%nat
  ∧ to_hex (from_hex s) = toupper <$> s.
Proof.
  intros Hb Hs He. split; [by apply from_hex_to_hex|].
  split; [apply length_to_hex|by apply to_hex_from_hex].
Qed.

Lemma hex_roundtrip_witness :
  from_hex (to_hex [0; 127; 255]) = [0; 127; 255]
  ∧ to_hex (from_hex (str "0a7fFF")) = str "0A7FFF".
Proof.
  pose proof (hex_roundtrip [0; 127; 255] (str "0a7fFF")) as H.
  assert (bytes_ok [0; 127; 255]) as H1 by (repeat constructor; discriminate).
  destruct (H H1 eq_refl eq_refl) as (H2 & _ & H3). split; [exact H2|exact H3].
Defined.

(** The three hexadecimal codecs of the node agree: on every byte string
    the crypto library's [bytesToHexString] and the logger's [byteStreamToHex]
    print what [to_hex] prints, and on every string of hexadecimal digits the
    crypto library's [hexStringToBytes] parses what [from_hex] parses. *)
Theorem hex_codecs_agree b s :
  bytes_ok b → forallb is_hex_digit s = true →
  bytesToHexString b = to_hex b ∧ byteStreamToHex b = to_hex b
  ∧ hexStringToBytes s = from_hex s.
Proof.
  intros Hb Hs. split; [apply bytesToHexString_to_hex|].
  split; [by apply byteStreamToHex_to_hex|by apply hexStringToBytes_from_hex].
Qed.

Lemma hex_codecs_agree_witness :
  byteStreamToHex [1; 171] = to_hex [1; 171] ∧ hexStringToBytes (str "01aB3") = from_hex (str "01aB3").
Proof.
  destruct (hex_codecs_agree [1; 171] (str "01aB3")) as (_ & H1 & H2);
    [repeat constructor; discriminate|reflexivity|]. split; assumption.
Defined.
