(* ===== verification/Cscrypto.v ===== *)
(** * Cscrypto: the node's cryptography and its C interface

    Models [ed25519/src/seed.c] (the generator of seeds), [crypto/src/cscrypto.cpp]
    (key pairs, addresses, signatures) and [crypto/src/cscrypto_c_api.cpp], on top
    of the signatures of [Ed25519] and the hash of [Blake2].  The variables with
    static storage are a record; the clock and the locals that are not initialised
    are arguments; the mutex of the context makes the calls a sequence, which is
    how they are modelled.  The theorems say that a key pair of the interface
    signs what it then verifies, which signatures it accepts, and that the keys of
    a process depend on nothing but the second of its first call. *)
From S2P Require Import Prelude Blake2 Sha512 Limbs Fe25519 Sc25519 Edwards Ge25519 GeEncoding GeBase Ed25519 Hex.

Local Open Scope Z_scope.

(** ** seed.c *)

Record pcg32_random_t := { pcg_state : Z; pcg_inc : Z }.

(** [INT_MAX - rot + 1] is computed in [uint32_t]. *)
Definition pcg32_random_r (rng : pcg32_random_t) : Z * pcg32_random_t :=
  let oldstate := pcg_state rng in
  let rng := {| pcg_state := u64 (oldstate * 6364136223846793005 + Z.lor (pcg_inc rng) 1); pcg_inc := pcg_inc rng |} in
  let xorshifted := u32 (Z.shiftr (Z.lxor (Z.shiftr oldstate 18) oldstate) 27) in
  let rot := u32 (Z.shiftr oldstate 59) in
  (Z.lor (Z.shiftr xorshifted rot) (u32 (Z.shiftl xorshifted (Z.land (u32 (2147483647 - rot + 1)) 31))), rng).

Definition PCG32_INITIALIZER : pcg32_random_t := {| pcg_state := 0x853c49e6748fea9b; pcg_inc := 0xda3e39cb94b95bdb |}.

(** The variables with static storage: the generator, [init] of
    [ed25519_create_seed] and the seed of the context of cscrypto.cpp. *)
Record crypto_state := { pcg32_random : pcg32_random_t; seed_init : Z; context_seed : byte_array }.

Definition crypto_start : crypto_state :=
  {| pcg32_random := PCG32_INITIALIZER; seed_init := 0; context_seed := replicate 32 0 |}.

(** [t] is what [time(NULL)] returns. *)
Definition ed25519_init_seed (t : Z) (rng : pcg32_random_t) : pcg32_random_t :=
  {| pcg_state := Z.lxor (pcg_state rng) (u64 t); pcg_inc := Z.lxor (pcg_inc rng) (u64 t) |}.

Definition seed_word (r : Z) : byte_array :=
  [Z.land r 0xFF; Z.land (Z.shiftr r 8) 0xFF; Z.land (Z.shiftr r 16) 0xFF; Z.land (Z.shiftr r 24) 0xFF].

Fixpoint seed_words (n : nat) (rng : pcg32_random_t) : byte_array * pcg32_random_t :=
  match n with
  | O => ([], rng)
  | S n =>
      let '(r, rng) := pcg32_random_r rng in
      let '(rest, rng) := seed_words n rng in
      (seed_word r ++ rest, rng)
  end.

(** The code after the first [return] is never reached. *)
Definition ed25519_create_seed (t : Z) (rng : pcg32_random_t) (init : Z) : Z * byte_array * pcg32_random_t * Z :=
  let '(init, rng) := if init =? 0 then (1, ed25519_init_seed t rng) else (init, rng) in
  let '(seed, rng) := seed_words 8 rng in
  (0, seed, rng, init).

(** ** cscrypto.cpp *)

(** The constructor of [FixedArray] from a pointer reads [sizeBytes] bytes. *)
Definition FixedArray_from_data (sizeBytes : nat) (source : byte_array) : result byte_array :=
  if (length source <? sizeBytes)%nat then Throw undefined_behaviour else Ok (take sizeBytes source).

Record KeyPair := { publicKey : byte_array; privateKey : byte_array }.

Definition generateKeyPair (ctx : sha512_context) (t : Z) (st : crypto_state) : result (KeyPair * crypto_state) :=
  let '(_, seed, rng, init) := ed25519_create_seed t (pcg32_random st) (seed_init st) in
  '(public_key, private_key) ← ed25519_create_keypair ctx seed;
  Ok ({| publicKey := public_key; privateKey := private_key |},
      {| pcg32_random := rng; seed_init := init; context_seed := seed |}).

Definition toAddress (public_key : byte_array) : result byte_array :=
  h ← cscrypto_blake2s public_key;
  Ok (right160 h).

Definition sign (ctx : sha512_context) (hash : byte_array) (keyPair : KeyPair) : result byte_array :=
  ed25519_sign ctx (Some hash) (publicKey keyPair) (privateKey keyPair).

Definition verify (ctx : sha512_context) (A : ge_p3) (public_key hash signature : byte_array) : result bool :=
  r ← ed25519_verify ctx A signature (Some hash) public_key;
  Ok (r =? 1).

(** ** cscrypto_c_api.cpp: the code, what is written and the new state *)

Definition cscrypto_generate_key_pair (ctx : sha512_context) (t : Z) (st : crypto_state) :
    result (Z * byte_array * byte_array * crypto_state) :=
  '(kp, st) ← generateKeyPair ctx t st;
  Ok (0, publicKey kp, privateKey kp, st).

Definition cscrypto_public_key_to_address (public_key : byte_array) : result (Z * byte_array) :=
  pk ← FixedArray_from_data 32 public_key;
  a ← toAddress pk;
  Ok (0, a).

Definition cscrypto_sign (ctx : sha512_context) (hash public_key private_key : byte_array) : result (Z * byte_array) :=
  h ← FixedArray_from_data 32 hash;
  pk ← FixedArray_from_data 32 public_key;
  sk ← FixedArray_from_data 64 private_key;
  s ← sign ctx h {| publicKey := pk; privateKey := sk |};
  Ok (0, s).

Definition cscrypto_verify (ctx : sha512_context) (A : ge_p3) (hash public_key signature : byte_array) : result Z :=
  h ← FixedArray_from_data 32 hash;
  pk ← FixedArray_from_data 32 public_key;
  s ← FixedArray_from_data 64 signature;
  ok ← verify ctx A pk h s;
  Ok (if ok : bool then 0 else 1).

Definition cscrypto_hash (data : byte_array) (data_length : nat) : result (Z * byte_array) :=
  if (length data <? data_length)%nat then Throw undefined_behaviour else
  h ← cscrypto_blake2s (take data_length data);
  Ok (0, h).

(** ** The generator *)

(** The output of a step is the word of the state, rotated to the right by the
    top five bits; the count of zero is not shifted out of the word. *)
Lemma pcg32_output_bits rng i : is_u64 (pcg_state rng) → 0 <= i < 32 →
  let x := u32 (Z.shiftr (Z.lxor (Z.shiftr (pcg_state rng) 18) (pcg_state rng)) 27) in
  let rot := pcg_state rng / 2 ^ 59 in
  Z.testbit (pcg32_random_r rng).1 i = Z.testbit x ((i + rot) mod 32).
Proof.
  intros [H0 H1] Hi x rot. unfold pcg32_random_r. cbn [fst]. fold x. rewrite (Z.shiftr_div_pow2 (pcg_state rng) 59) by lia. fold rot.
  assert (Hr : 0 <= rot < 32) by (unfold rot; split; [apply Z.div_pos; lia|apply Z.div_lt_upper_bound; lia]).
  assert (Hx : 0 <= x < 2 ^ 32) by (by apply Z.mod_pos_bound). clearbody x rot.
  assert (Er : u32 rot = rot) by (apply Z.mod_small; lia). rewrite Er.
  assert (Es : Z.land (u32 (2147483647 - rot + 1)) 31 = (- rot) mod 32).
  { change 31 with (Z.ones 5). rewrite Z.land_ones by lia. unfold u32, wrap. Z.to_euclidean_division_equations. lia. }
  rewrite Es. unfold u32, wrap. rewrite Z.lor_spec, Z.shiftr_spec, Z.mod_pow2_bits_low by lia.
  rewrite Z.shiftl_spec by lia. destruct (Z.eq_dec rot 0) as [-> |Hn].
  { change (- 0 mod 32) with 0. rewrite Z.add_0_r, Z.sub_0_r, Z.mod_small by lia. apply orb_diag. }
  replace ((- rot) mod 32) with (32 - rot) by (Z.to_euclidean_division_equations; lia).
  destruct (Z.ltb_spec (i + rot) 32).
  - rewrite (Z.testbit_neg_r _ (i - (32 - rot))), orb_false_r, Z.mod_small by lia. done.
  - replace ((i + rot) mod 32) with (i - (32 - rot)) by (Z.to_euclidean_division_equations; lia).
    rewrite <- (Z.mod_small x (2 ^ 32)) at 1 by done. by rewrite Z.mod_pow2_bits_high by lia.
Qed.

Lemma seed_word_ok r : length (seed_word r) = 4%nat ∧ bytes_ok (seed_word r).
Proof.
  split; [done|]. assert (H : ∀ v, is_u8 (Z.land v 0xFF)).
  { intros v. change 0xFF with (Z.ones 8). rewrite Z.land_ones by lia. by apply Z.mod_pos_bound. }
  repeat constructor; apply H.
Qed.

Lemma seed_words_ok n rng : length (seed_words n rng).1 = (4 * n)%nat ∧ bytes_ok (seed_words n rng).1.
Proof.
  revert rng. induction n as [|n IH]; intros rng; cbn [seed_words]; [by split; [|constructor]|].
  destruct (pcg32_random_r rng) as [r rng']. destruct (IH rng') as [Hl Hok].
  destruct (seed_words n rng') as [rest rng'']. cbn [fst] in *. destruct (seed_word_ok r) as [Lr Or].
  split; [rewrite length_app, Lr, Hl; lia|by apply bytes_ok_app].
Qed.

(** The seed that a call makes, and the generator it leaves. *)
Definition next_seed (t : Z) (st : crypto_state) : byte_array * pcg32_random_t :=
  seed_words 8 (if seed_init st =? 0 then ed25519_init_seed t (pcg32_random st) else pcg32_random st).

Lemma next_seed_ok t st : length (next_seed t st).1 = 32%nat ∧ bytes_ok (next_seed t st).1.
Proof. apply (seed_words_ok 8). Qed.

Definition key_pair (seed : byte_array) : KeyPair :=
  {| publicKey := encode (pmul (secret seed) base_point); privateKey := clamp (sha512_spec seed) |}.

Lemma generateKeyPair_ok ctx t st : length (sha_buf ctx) = 128%nat →
  let '(seed, rng) := next_seed t st in
  generateKeyPair ctx t st =
    Ok (key_pair seed, {| pcg32_random := rng; seed_init := if seed_init st =? 0 then 1 else seed_init st; context_seed := seed |}).
Proof.
  intros Hb. destruct (next_seed_ok t st) as [Hl Hok]. unfold generateKeyPair, ed25519_create_seed, next_seed in *.
  destruct (seed_init st =? 0); (destruct (seed_words 8 _) as [seed rng]; cbn [fst] in *;
    rewrite create_keypair_ok, bind_Ok by done; reflexivity).
Qed.

(** ** Signatures through the C interface *)

Lemma from_data_ok n s : (n <= length s)%nat → FixedArray_from_data n s = Ok (take n s).
Proof. intros H. unfold FixedArray_from_data. by rewrite (proj2 (Nat.ltb_ge _ _)). Qed.

Lemma hash_message_ok hash : (32 <= length hash)%nat → bytes_ok hash → message_ok (Some (take 32 hash)).
Proof.
  intros Hl Hok. split; [by apply bytes_ok_take|]. change (message_bytes (Some (take 32 hash))) with (take 32 hash).
  rewrite length_take, Nat.min_l by done. done.
Qed.

Lemma key_pair_ok seed : length (publicKey (key_pair seed)) = 32%nat ∧ bytes_ok (publicKey (key_pair seed)) ∧
  length (privateKey (key_pair seed)) = 64%nat ∧ bytes_ok (privateKey (key_pair seed)).
Proof.
  destruct (clamp_hash_ok seed) as (L & O & _ & _). split; [apply length_point_bytes|]. split; [apply encode_ok|]. by split.
Qed.

(** C10: the C interface end to end.  Whatever the state of the generator, the
    clock and the uninitialised locals: a key pair is generated, any 32-byte hash
    is signed with it, and the check of the signature returns 0; every code is 0
    and no buffer of the documented length is left. *)
Theorem cscrypto_sign_verify ctx1 ctx2 ctx3 A t st hash :
  length (sha_buf ctx1) = 128%nat → length (sha_buf ctx2) = 128%nat → length (sha_buf ctx3) = 128%nat →
  (32 <= length hash)%nat → bytes_ok hash →
  ∃ public_key private_key st' signature,
    cscrypto_generate_key_pair ctx1 t st = Ok (0, public_key, private_key, st') ∧
    cscrypto_sign ctx2 hash public_key private_key = Ok (0, signature) ∧
    cscrypto_verify ctx3 A hash public_key signature = Ok 0 ∧
    length public_key = 32%nat ∧ length private_key = 64%nat ∧ length signature = 64%nat ∧ seed_init st' ≠ 0.
Proof.
  intros H1 H2 H3 Lh Hh. pose proof (generateKeyPair_ok ctx1 t st H1) as G. destruct (next_seed t st) as [seed rng].
  destruct (key_pair_ok seed) as (Lp & Op & Ls & Os). pose proof (hash_message_ok hash Lh Hh) as Hm.
  set (kp := key_pair seed) in *. set (s := signature_spec (publicKey kp) (privateKey kp) (take 32 hash)).
  assert (Lg : length s = 64%nat) by apply length_signature_spec.
  eexists (publicKey kp), (privateKey kp), _, s. split; [unfold cscrypto_generate_key_pair; rewrite G; reflexivity|].
  split; [|split; [|cbn [seed_init]; repeat split; try done; destruct (Z.eqb_spec (seed_init st) 0); lia]].
  - unfold cscrypto_sign. rewrite !from_data_ok, !bind_Ok by lia. rewrite !(take_ge (publicKey kp)), !(take_ge (privateKey kp)) by lia.
    unfold sign. cbn [publicKey privateKey]. by rewrite (sign_ok ctx2 _ _ _ H2 Hm Lp Op Ls Os), bind_Ok.
  - unfold cscrypto_verify. rewrite !from_data_ok, !bind_Ok by lia. rewrite (take_ge (publicKey kp)), (take_ge s) by lia. unfold verify.
    destruct (verify_ok ctx3 A s (Some (take 32 hash)) (publicKey kp) H3 Hm Lg (signature_spec_ok _ _ _) Lp Op) as [[-> _]|[_ Hno]]; [done|].
    destruct Hno. apply signature_accepted.
Qed.

(** The address of a public key: the last 20 bytes of the BLAKE2sp hash of its
    first 32 bytes.  The header of the library documents BLAKE2s here. *)
Theorem cscrypto_address_is_sp public_key : (32 <= length public_key)%nat →
  cscrypto_public_key_to_address public_key = Ok (0, drop 12 (blake2sp_spec 32 [] (take 32 public_key))).
Proof.
  intros Lp. unfold cscrypto_public_key_to_address, toAddress. rewrite from_data_ok, bind_Ok by done.
  destruct (cscrypto_blake2s_total (take 32 public_key)) as (-> & Lb & _). rewrite !bind_Ok. unfold right160.
  by rewrite take_ge by (rewrite length_drop; lia).
Qed.

(** What the check of the C interface accepts.  It returns 0 or 1, and 0
    exactly for the signatures of the hash under the key that satisfy the equation
    of Ed25519; bytes beyond the documented lengths are not read. *)
Theorem cscrypto_verify_correct ctx A hash public_key signature :
  length (sha_buf ctx) = 128%nat → (32 <= length hash)%nat → bytes_ok hash →
  (32 <= length public_key)%nat → bytes_ok public_key → (64 <= length signature)%nat → bytes_ok signature →
  ∃ r, cscrypto_verify ctx A hash public_key signature = Ok r ∧ (r = 0 ∨ r = 1) ∧
    (r = 0 ↔ accepts (take 64 signature) (take 32 hash) (take 32 public_key)).
Proof.
  intros Hb Lh Hh Lp Hp Ls Hs. unfold cscrypto_verify, verify. rewrite !from_data_ok, !bind_Ok by lia.
  destruct (verify_ok ctx A (take 64 signature) (Some (take 32 hash)) (take 32 public_key) Hb (hash_message_ok hash Lh Hh))
    as [[-> H]|[-> H]]; try (rewrite length_take; lia); try (by apply bytes_ok_take).
  - exists 0. split; [done|]. split; [by left|]. by split.
  - exists 1. split; [done|]. split; [by right|]. by split.
Qed.

(** ** The keys of a process *)

(** Key pairs one after the other, each call with its own locals and clock. *)
Fixpoint generate_keys (calls : list (sha512_context * Z)) (st : crypto_state) : result (list KeyPair * crypto_state) :=
  match calls with
  | [] => Ok ([], st)
  | (ctx, t) :: calls =>
      '(kp, st) ← generateKeyPair ctx t st;
      '(kps, st) ← generate_keys calls st;
      Ok (kp :: kps, st)
  end.

(** The first [n] key pairs from a generator. *)
Fixpoint predicted_keys (n : nat) (rng : pcg32_random_t) : list KeyPair :=
  match n with
  | O => []
  | S n => let '(seed, rng) := seed_words 8 rng in key_pair seed :: predicted_keys n rng
  end.

Lemma generate_keys_after calls st :
  Forall (λ c, length (sha_buf c.1) = 128%nat) calls → seed_init st ≠ 0 →
  ∃ st', generate_keys calls st = Ok (predicted_keys (length calls) (pcg32_random st), st').
Proof.
  intros Hc. revert st. induction Hc as [|[ctx t] calls Hb _ IH]; intros st Hi; [by eexists|]. cbn [generate_keys length predicted_keys fst] in *.
  pose proof (generateKeyPair_ok ctx t st Hb) as G. unfold next_seed in G. rewrite (proj2 (Z.eqb_neq _ _) Hi) in G.
  destruct (seed_words 8 (pcg32_random st)) as [seed rng]. rewrite G, bind_Ok.
  destruct (IH {| pcg32_random := rng; seed_init := seed_init st; context_seed := seed |} Hi) as (st' & ->).
  cbn [pcg32_random]. rewrite bind_Ok. by eexists.
Qed.

(** The keys of a process are those of a clock.  The [n] key pairs that a
    process generates, however much time passes between the calls, are a fixed
    function of the second of the first call: the seeds come from a generator that
    this second alone initialises. *)
Theorem process_keys_of_time ctx t calls :
  length (sha_buf ctx) = 128%nat → Forall (λ c, length (sha_buf c.1) = 128%nat) calls →
  ∃ st, generate_keys ((ctx, t) :: calls) crypto_start =
    Ok (predicted_keys (S (length calls)) (ed25519_init_seed t PCG32_INITIALIZER), st).
Proof.
  intros Hb Hc. cbn [generate_keys predicted_keys]. pose proof (generateKeyPair_ok ctx t crypto_start Hb) as G.
  unfold next_seed in G. cbn [seed_init crypto_start pcg32_random Z.eqb] in G.
  destruct (seed_words 8 (ed25519_init_seed t PCG32_INITIALIZER)) as [seed rng]. rewrite G, bind_Ok.
  destruct (generate_keys_after calls {| pcg32_random := rng; seed_init := 1; context_seed := seed |} Hc) as (st & E); [done|].
  cbn [pcg32_random] in E. rewrite E, bind_Ok. by eexists.
Qed.

(** ** Witnesses *)

(** The hash of zeros, from a process that starts at time 0. *)
Lemma cscrypto_sign_verify_witness :
  ∃ public_key private_key st' signature,
    cscrypto_generate_key_pair any_context 0 crypto_start = Ok (0, public_key, private_key, st') ∧
    cscrypto_sign any_context (replicate 32 0) public_key private_key = Ok (0, signature) ∧
    cscrypto_verify any_context ge_p3_0 (replicate 32 0) public_key signature = Ok 0 ∧
    length public_key = 32%nat ∧ length private_key = 64%nat ∧ length signature = 64%nat ∧ seed_init st' ≠ 0.
Proof.
  apply (cscrypto_sign_verify any_context any_context any_context ge_p3_0 0 crypto_start (replicate 32 0)); try reflexivity.
  by apply Forall_replicate.
Defined.

Lemma cscrypto_verify_correct_witness :
  ∃ r, cscrypto_verify any_context ge_p3_0 (replicate 32 0) (replicate 32 0) (replicate 64 255) = Ok r ∧ (r = 0 ∨ r = 1) ∧
    (r = 0 ↔ accepts (take 64 (replicate 64 255)) (take 32 (replicate 32 0)) (take 32 (replicate 32 0))).
Proof.
  apply (cscrypto_verify_correct any_context ge_p3_0 (replicate 32 0) (replicate 32 0) (replicate 64 255)); try reflexivity.
  - by apply Forall_replicate.
  - by apply Forall_replicate.
  - by apply Forall_replicate.
Defined.

(** Two calls, the second ten seconds after the first. *)
Lemma process_keys_of_time_witness :
  ∃ st, generate_keys [(any_context, 1500000000); (any_context, 1500000010)] crypto_start =
    Ok (predicted_keys 2 (ed25519_init_seed 1500000000 PCG32_INITIALIZER), st).
Proof.
  apply (process_keys_of_time any_context 1500000000 [(any_context, 1500000010)]); [reflexivity|].
  by repeat constructor.
Defined.
