(* ===== verification/StdMap.v ===== *)
(** * StdMap: [std::map] as a sorted association list

    The sources keep user fields, balances and caches in [std::map], and
    serialise them by iterating in key order, so the order is part of the
    model: a map is the list of its entries, strictly increasing in the key.
    The key order is a class, instantiated for integers and for byte strings. *)

From S2P Require Import Prelude.

(** ** Key orders *)

Class KeyOrder (K : Type) := {
  key_ltb : K → K → bool;
  key_irrefl a : key_ltb a a = false;
  key_trans a b c : key_ltb a b = true → key_ltb b c = true → key_ltb a c = true;
  key_total a b : key_ltb a b = false → key_ltb b a = false → a = b;
}.

#[export] Instance Z_key_order : KeyOrder Z.
Proof.
  refine {| key_ltb := Z.ltb |}.
  - apply Z.ltb_irrefl.
  - intros a b c. rewrite !Z.ltb_lt. lia.
  - intros a b. rewrite !Z.ltb_ge. lia.
Defined.

#[export] Instance bytes_key_order : KeyOrder byte_array.
Proof.
  refine {| key_ltb := bytes_ltb |}.
  - apply bytes_ltb_irrefl.
  - apply bytes_ltb_trans.
  - apply bytes_ltb_total.
Defined.

(** ** Operations *)

Section StdMap.
Context {K V : Type} `{!KeyOrder K}.

Abbreviation stdmap := (list (K * V)).
Implicit Types m : stdmap.

(** [map::find], [map::count] *)
Fixpoint map_find (k : K) (m : stdmap) : option V :=
  match m with
  | [] => None
  | (k', v) :: m' =>
      if key_ltb k k' then None
      else if key_ltb k' k then map_find k m'
      else Some v
  end.

(** [m[k] = v] *)
Fixpoint map_set (k : K) (v : V) (m : stdmap) : stdmap :=
  match m with
  | [] => [(k, v)]
  | (k', v') :: m' =>
      if key_ltb k k' then (k, v) :: m
      else if key_ltb k' k then (k', v') :: map_set k v m'
      else (k', v) :: m'
  end.

(** [m.emplace(k, v)]: an existing entry is kept. *)
Definition map_emplace (k : K) (v : V) (m : stdmap) : stdmap :=
  match map_find k m with
  | Some _ => m
  | None => map_set k v m
  end.

(** [m.erase(k)] *)
Fixpoint map_erase (k : K) (m : stdmap) : stdmap :=
  match m with
  | [] => []
  | (k', v') :: m' =>
      if key_ltb k k' then m
      else if key_ltb k' k then (k', v') :: map_erase k m'
      else m'
  end.

(** [map(m.lower_bound(k), m.end())] *)
Fixpoint map_from (k : K) (m : stdmap) : stdmap :=
  match m with
  | [] => []
  | (k', v') :: m' => if key_ltb k' k then map_from k m' else m
  end.

Definition entry_lt (a b : K * V) : Prop := key_ltb a.1 b.1 = true.

(** The representation invariant. *)
Definition map_sorted (m : stdmap) : Prop := StronglySorted entry_lt m.

End StdMap.

(** Split on the two comparisons of the operations, identifying equal keys. *)
Ltac case_key :=
  match goal with
  | |- context [key_ltb ?a ?b] =>
      let E := fresh "E" in destruct (key_ltb a b) eqn:E
  end.

(** ** Laws *)

Section StdMapLaws.
Context {K V : Type} `{!KeyOrder K}.
Implicit Types (k : K) (v : V) (m : list (K * V)).

Lemma key_eq_or_lt k k' : k = k' ∨ key_ltb k k' = true ∨ key_ltb k' k = true.
Proof.
  destruct (key_ltb k k') eqn:E1; [auto|]. destruct (key_ltb k' k) eqn:E2; [auto|].
  left. by apply key_total.
Qed.

Lemma key_lt_asym k k' : key_ltb k k' = true → key_ltb k' k = false.
Proof.
  intros H. destruct (key_ltb k' k) eqn:E; [|done].
  pose proof (key_trans _ _ _ H E) as Hc. by rewrite key_irrefl in Hc.
Qed.

Lemma key_lt_neq k k' : key_ltb k k' = true → k ≠ k'.
Proof. intros H ->. by rewrite key_irrefl in H. Qed.

Lemma map_find_set_eq k v m : map_sorted m → map_find k (map_set k v m) = Some v.
Proof.
  induction 1 as [|[k' v'] m _ IH _]; simpl; [by rewrite key_irrefl|].
  destruct (key_ltb k k') eqn:E1; simpl; [by rewrite key_irrefl|].
  destruct (key_ltb k' k) eqn:E2; simpl; by rewrite E1, E2.
Qed.

Lemma map_find_ltb k m :
  Forall (λ e, key_ltb k e.1 = true) m → map_find k m = None.
Proof. destruct 1 as [|[k' v'] m H _]; simpl in *; [done|]. by rewrite H. Qed.

Lemma map_find_set_ne k k' v m :
  map_sorted m → k' ≠ k → map_find k' (map_set k v m) = map_find k' m.
Proof.
  intros Hs Hne. induction Hs as [|[k1 v1] m _ IH Hf]; simpl.
  - destruct (key_eq_or_lt k' k) as [|[E|E]]; [done|by rewrite E|].
    by rewrite E, (key_lt_asym _ _ E).
  - destruct (key_ltb k k1) eqn:E1; simpl.
    + destruct (key_eq_or_lt k' k) as [|[E|E]]; [done| |].
      * by rewrite E, (key_trans _ _ _ E E1).
      * by rewrite E, (key_lt_asym _ _ E).
    + destruct (key_ltb k1 k) eqn:E2; simpl; [by rewrite IH|].
      assert (k1 = k) as -> by (by apply key_total).
      destruct (key_eq_or_lt k' k) as [|[E|E]]; [done|by rewrite E|].
      by rewrite E, (key_lt_asym _ _ E).
Qed.

Lemma map_set_keys k v m e :
  e ∈ map_set k v m → e.1 = k ∨ e ∈ m.
Proof.
  induction m as [|[k1 v1] m IH]; simpl; rewrite ?list_elem_of_singleton; [by intros ->; left|].
  repeat case_key; rewrite ?elem_of_cons.
  - intros [->|H]; auto.
  - intros [->|H]; [auto|]. destruct (IH H); auto.
  - intros [->|H]; [|auto]. left. simpl. by apply key_total.
Qed.

Lemma map_set_sorted k v m : map_sorted m → map_sorted (map_set k v m).
Proof.
  induction 1 as [|[k1 v1] m Hs IH Hf]; simpl; [repeat constructor|].
  destruct (key_ltb k k1) eqn:E1.
  - constructor; [by constructor|]. constructor; [done|].
    eapply Forall_impl; [exact Hf|]. intros e He. exact (key_trans _ _ _ E1 He).
  - destruct (key_ltb k1 k) eqn:E2.
    + constructor; [done|]. apply Forall_forall. intros e He.
      destruct (map_set_keys _ _ _ _ He) as [Hk|Hin].
      * unfold entry_lt. simpl. by rewrite Hk.
      * by eapply (proj1 (Forall_forall _ _)) in Hf.
    + constructor; [done|]. exact Hf.
Qed.

Lemma map_emplace_sorted k v m : map_sorted m → map_sorted (map_emplace k v m).
Proof. intros. unfold map_emplace. destruct map_find; [done|]. by apply map_set_sorted. Qed.

(** An entry greater than all others goes to the end. *)
Lemma map_set_last k v m :
  Forall (λ e, key_ltb e.1 k = true) m → map_set k v m = m ++ [(k, v)].
Proof.
  induction 1 as [|[k1 v1] m Hk _ IH]; simpl in *; [done|].
  by rewrite (key_lt_asym _ _ Hk), Hk, IH.
Qed.

Lemma map_find_last k m :
  Forall (λ e, key_ltb e.1 k = true) m → map_find k m = None.
Proof.
  induction 1 as [|[k1 v1] m Hk _ IH]; simpl in *; [done|].
  by rewrite (key_lt_asym _ _ Hk), Hk.
Qed.

Lemma map_emplace_last k v m :
  Forall (λ e, key_ltb e.1 k = true) m → map_emplace k v m = m ++ [(k, v)].
Proof. intros H. unfold map_emplace. by rewrite map_find_last, map_set_last. Qed.

Lemma map_sorted_app_inv k v m1 m2 :
  map_sorted (m1 ++ (k, v) :: m2) → Forall (λ e, key_ltb e.1 k = true) m1.
Proof.
  unfold map_sorted. induction m1 as [|e m1 IH]; simpl; [constructor|].
  intros H. inversion H as [|? ? Hs Hf]; subst. constructor.
  - rewrite Forall_app, Forall_cons in Hf. by destruct Hf as (_ & Hk & _).
  - by apply IH.
Qed.

Lemma map_from_sorted k m : map_sorted m → map_sorted (map_from k m).
Proof.
  induction 1 as [|[k1 v1] m Hs IH Hf]; simpl; [constructor|].
  case_key; [done|]. by constructor.
Qed.

(** [map_from k] keeps exactly the entries whose key is not below [k]. *)
Lemma map_from_spec k m e :
  map_sorted m → e ∈ map_from k m ↔ e ∈ m ∧ key_ltb e.1 k = false.
Proof.
  induction 1 as [|[k1 v1] m Hs IH Hf]; simpl; [rewrite elem_of_nil; tauto|].
  destruct (key_ltb k1 k) eqn:E.
  - rewrite IH, elem_of_cons. split; [tauto|]. intros [[->|H] Hk]; [simpl in Hk; congruence|auto].
  - split; [|tauto]. intros He. split; [exact He|].
    apply elem_of_cons in He as [->|He]; [done|].
    rewrite Forall_forall in Hf. specialize (Hf _ He). unfold entry_lt in Hf. simpl in Hf.
    destruct (key_ltb e.1 k) eqn:E2; [|done].
    by rewrite (key_trans _ _ _ Hf E2) in E.
Qed.

Lemma map_find_elem k v m : map_sorted m → map_find k m = Some v ↔ (k, v) ∈ m.
Proof.
  induction 1 as [|[k1 v1] m Hs IH Hf]; simpl; [rewrite elem_of_nil; by split|].
  rewrite elem_of_cons. rewrite Forall_forall in Hf.
  destruct (key_ltb k k1) eqn:E1; [|destruct (key_ltb k1 k) eqn:E2].
  - split; [done|]. intros [[= -> ->]|Hin]; [by rewrite key_irrefl in E1|].
    specialize (Hf _ Hin). unfold entry_lt in Hf. simpl in Hf.
    by rewrite (key_lt_asym _ _ Hf) in E1.
  - rewrite IH. split; [auto|]. intros [[= -> ->]|Hin]; [by rewrite key_irrefl in E2|done].
  - assert (k = k1) as -> by (by apply key_total). split.
    + intros [= ->]. auto.
    + intros [[= ->]|Hin]; [done|]. specialize (Hf _ Hin).
      unfold entry_lt in Hf. simpl in Hf. by rewrite key_irrefl in Hf.
Qed.

End StdMapLaws.

#[export] Hint Resolve map_set_sorted map_emplace_sorted map_from_sorted : csdb.
