(* ===== verification/Streams.v ===== *)
(** * Streams: the binary streams of csdb

    Models [csdb/src/binary_streams.{h,cpp}].  An [obstream] is its buffer; an
    [ibstream] is the bytes not yet read ([data_] and [size_]).  Integers are
    stored as their object representation (little-endian), strings with a
    [uint32_t] length, byte arrays and maps with a [size_t] (8 byte) length.

    A [codec] packs the [put] and [get] of a type with the values it is meant
    for; [CodecLaws] is the contract the serialisable classes rely on: [put]
    only appends, [get] reads back what [put] wrote and leaves the rest of the
    stream, and whatever [get] accepts is a well-formed value. *)

From S2P Require Import Prelude StdMap.

Abbreviation obstream := byte_array (only parsing).
Abbreviation ibstream := byte_array (only parsing).

(** ** obstream *)

(** [put(const void*, size_t)] *)
Definition put_raw (buf : byte_array) (os : obstream) : obstream := os ++ buf.

(** [put(T)] for integral and enum types of [n] bytes. *)
Definition put_integral (n : nat) (value : Z) (os : obstream) : obstream :=
  os ++ le_bytes n value.

(** [put(const std::string&)] *)
Definition put_string (value : byte_array) (os : obstream) : obstream :=
  put_integral 4 (u32 (Z.of_nat (length value))) os ++ value.

(** [put(const byte_array&)] *)
Definition put_byte_array (value : byte_array) (os : obstream) : obstream :=
  put_integral 8 (Z.of_nat (length value)) os ++ value.

Section PutMap.
Context {K V : Type} (put_key : K → obstream → obstream) (put_value : V → obstream → obstream).

(** [put(const std::map&)] *)
Definition put_map (value : list (K * V)) (os : obstream) : obstream :=
  fold_left (λ os it, put_value it.2 (put_key it.1 os)) value
    (put_integral 8 (Z.of_nat (length value)) os).

(** [put_smart(const std::map&)]: the keys are left out. *)
Definition put_smart (value : list (K * V)) (os : obstream) : obstream :=
  fold_left (λ os it, put_value it.2 os) value
    (put_integral 4 (u32 (Z.of_nat (length value))) os).

End PutMap.

(** ** ibstream *)

(** [get(void*, size_t)] *)
Definition get_raw (size : Z) (ibs : ibstream) : option (byte_array * ibstream) :=
  if Z.of_nat (length ibs) <? size then None
  else Some (take (Z.to_nat size) ibs, drop (Z.to_nat size) ibs).

(** [get(T&)] for integral and enum types of [n] bytes, read as unsigned. *)
Definition get_integral (n : nat) (ibs : ibstream) : option (Z * ibstream) :=
  if (n <=? length ibs)%nat then Some (le_value (take n ibs), drop n ibs) else None.

(** [get(T&)] for signed integral types of [n] bytes. *)
Definition get_signed (n : nat) (ibs : ibstream) : option (Z * ibstream) :=
  if (n <=? length ibs)%nat
  then Some (swrap (8 * Z.of_nat n) (le_value (take n ibs)), drop n ibs) else None.

(** [get(std::string&)] *)
Definition get_string (ibs : ibstream) : option (byte_array * ibstream) :=
  '(size, ibs) ← get_integral 4 ibs; get_raw size ibs.

(** [get(byte_array&)] *)
Definition get_byte_array (ibs : ibstream) : option (byte_array * ibstream) :=
  '(size, ibs) ← get_integral 8 ibs; get_raw size ibs.

Section GetLoop.
Context {A S : Type} (get : ibstream → option (A * ibstream)) (add : A → S → S).

(** [for (size_t i = 0; i < size; ++i)] with a body that reads one element and
    stops the loop when it cannot.  [fuel] is one more than the bytes left:
    every element takes at least one (see [get_loop_enough]). *)
Fixpoint get_loop (fuel : nat) (left : Z) (acc : S) (ibs : ibstream) : option (S * ibstream) :=
  if left =? 0 then Some (acc, ibs)
  else match fuel with
       | O => None
       | Datatypes.S fuel' =>
           '(x, ibs) ← get ibs; get_loop fuel' (left - 1) (add x acc) ibs
       end.

(** The loop with its iterations counted down, as the reference. *)
Fixpoint get_times (n : nat) (acc : S) (ibs : ibstream) : option (S * ibstream) :=
  match n with
  | O => Some (acc, ibs)
  | Datatypes.S n' => '(x, ibs) ← get ibs; get_times n' (add x acc) ibs
  end.

End GetLoop.

Section GetMap.
Context {K V : Type} `{!KeyOrder K}.
Context (get_key : ibstream → option (K * ibstream)) (get_value : ibstream → option (V * ibstream)).

Definition get_entry (ibs : ibstream) : option ((K * V) * ibstream) :=
  '(key, ibs) ← get_key ibs; '(val, ibs) ← get_value ibs; Some ((key, val), ibs).

(** [get(std::map&)] *)
Definition get_map (ibs : ibstream) : option (list (K * V) * ibstream) :=
  '(size, ibs) ← get_integral 8 ibs;
  get_loop get_entry (λ it m, map_emplace it.1 it.2 m) (S (length ibs)) size [] ibs.

End GetMap.

(** ** Codecs *)

Record codec (A : Type) := Codec {
  c_put : A → obstream → obstream;
  c_get : ibstream → option (A * ibstream);
  c_ok : A → Prop;
}.
Arguments Codec {A}.
Arguments c_put {A}.
Arguments c_get {A}.
Arguments c_ok {A}.

Class CodecLaws {A} (c : codec A) := {
  put_append a os : c_put c a os = os ++ c_put c a [];
  put_bytes a : c_ok c a → bytes_ok (c_put c a []);
  get_put a rest : c_ok c a → c_get c (c_put c a [] ++ rest) = Some (a, rest);
  get_suffix ibs a rest : c_get c ibs = Some (a, rest) → ∃ used, ibs = used ++ rest;
  get_ok ibs a rest : bytes_ok ibs → c_get c ibs = Some (a, rest) → c_ok c a;
}.

(** A codec that never reads an element from no bytes. *)
Class CodecProgress {A} (c : codec A) :=
  get_progress ibs a rest : c_get c ibs = Some (a, rest) → (length rest < length ibs)%nat.

Definition c_uint (n : nat) : codec Z :=
  Codec (put_integral n) (get_integral n) (is_unsigned (8 * Z.of_nat n)).

Definition c_sint (n : nat) : codec Z :=
  Codec (put_integral n) (get_signed n) (is_signed (8 * Z.of_nat n)).

Definition c_string : codec byte_array :=
  Codec put_string get_string (λ s, bytes_ok s ∧ Z.of_nat (length s) < 2 ^ 32).

Definition c_byte_array : codec byte_array :=
  Codec put_byte_array get_byte_array (λ s, bytes_ok s ∧ Z.of_nat (length s) < 2 ^ 64).

Definition c_map {K V} `{!KeyOrder K} (ck : codec K) (cv : codec V) : codec (list (K * V)) :=
  Codec (put_map (c_put ck) (c_put cv)) (get_map (c_get ck) (c_get cv))
    (λ m, map_sorted m ∧ Z.of_nat (length m) < 2 ^ 64
          ∧ Forall (λ e, c_ok ck e.1 ∧ c_ok cv e.2) m).

(** ** Integers *)

Lemma get_integral_app n v rest :
  get_integral n (le_bytes n v ++ rest) = Some (v mod 2 ^ (8 * Z.of_nat n), rest).
Proof.
  unfold get_integral. rewrite (proj2 (Nat.leb_le _ _)).
  2: { rewrite length_app, length_le_bytes. lia. }
  rewrite take_app_length', drop_app_length' by (by rewrite length_le_bytes).
  by rewrite le_value_le_bytes.
Qed.

Lemma get_signed_app n v rest :
  get_signed n (le_bytes n v ++ rest)
  = Some (swrap (8 * Z.of_nat n) (v mod 2 ^ (8 * Z.of_nat n)), rest).
Proof.
  pose proof (get_integral_app n v rest) as H. unfold get_integral, get_signed in *.
  destruct (n <=? _)%nat; [|done]. by injection H as -> ->.
Qed.

Lemma get_integral_inv n ibs v rest :
  get_integral n ibs = Some (v, rest) →
  (n <= length ibs)%nat ∧ v = le_value (take n ibs) ∧ rest = drop n ibs.
Proof.
  unfold get_integral. destruct (Nat.leb_spec n (length ibs)); [|done].
  intros [= <- <-]. auto.
Qed.

Lemma get_integral_range n ibs v rest :
  bytes_ok ibs → get_integral n ibs = Some (v, rest) → is_unsigned (8 * Z.of_nat n) v.
Proof.
  intros Hb H. apply get_integral_inv in H as (Hn & -> & _).
  pose proof (le_value_range (take n ibs) (bytes_ok_take _ _ Hb)) as R.
  rewrite length_take_le in R by exact Hn. exact R.
Qed.

#[export] Instance c_uint_laws n : CodecLaws (c_uint n).
Proof.
  split; simpl.
  - intros. unfold put_integral. done.
  - intros. apply le_bytes_ok.
  - intros a rest Ha. unfold put_integral. rewrite app_nil_l, get_integral_app.
    by rewrite Z.mod_small.
  - intros ibs a rest H. apply get_integral_inv in H as (_ & _ & ->).
    exists (take n ibs). by rewrite take_drop.
  - intros. by eapply get_integral_range.
Qed.

Lemma c_sint_laws n : (0 < n)%nat → CodecLaws (c_sint n).
Proof.
  intros Hn. split; simpl.
  - done.
  - intros. apply le_bytes_ok.
  - intros a rest Ha. unfold put_integral. rewrite app_nil_l, get_signed_app.
    change (a mod 2 ^ (8 * Z.of_nat n)) with (wrap (8 * Z.of_nat n) a).
    rewrite swrap_wrap, swrap_id by (lia || exact Ha). done.
  - unfold get_signed. intros ibs a rest. case_match; [|done]. intros [= _ <-].
    exists (take n ibs). by rewrite take_drop.
  - unfold get_signed. intros ibs a rest _. case_match; [|done]. intros [= <- _].
    apply swrap_range. lia.
Qed.

#[export] Instance c_sint4_laws : CodecLaws (c_sint 4).
Proof. apply c_sint_laws. lia. Qed.

#[export] Instance c_sint8_laws : CodecLaws (c_sint 8).
Proof. apply c_sint_laws. lia. Qed.

#[export] Instance c_uint_progress n : (0 < n)%nat → CodecProgress (c_uint n).
Proof.
  intros Hn ibs a rest H. apply get_integral_inv in H as (Hl & _ & ->).
  rewrite length_drop. lia.
Qed.

#[export] Instance c_sint4_progress : CodecProgress (c_sint 4).
Proof.
  intros ibs a rest. simpl. unfold get_signed. case_match; [|done]. intros [= _ <-].
  rewrite Nat.leb_le in *. rewrite length_drop. lia.
Qed.

#[export] Instance c_sint8_progress : CodecProgress (c_sint 8).
Proof.
  intros ibs a rest. simpl. unfold get_signed. case_match; [|done]. intros [= _ <-].
  rewrite Nat.leb_le in *. rewrite length_drop. lia.
Qed.

(** ** Strings and byte arrays *)

Lemma get_raw_app s rest :
  get_raw (Z.of_nat (length s)) (s ++ rest) = Some (s, rest).
Proof.
  unfold get_raw. rewrite (proj2 (Z.ltb_ge _ _)) by (rewrite length_app; lia).
  rewrite Nat2Z.id, take_app_length, drop_app_length. done.
Qed.

Lemma get_raw_inv size ibs s rest :
  get_raw size ibs = Some (s, rest) →
  ibs = s ++ rest ∧ (0 <= size → Z.of_nat (length s) = size).
Proof.
  unfold get_raw. destruct (Z.ltb_spec (Z.of_nat (length ibs)) size); [done|].
  intros [= <- <-]. rewrite take_drop. split; [done|]. intros.
  rewrite length_take_le; lia.
Qed.

(** A length prefix of [n] bytes followed by the contents. *)
Lemma prefixed_laws n put get :
  (∀ s os, Z.of_nat (length s) < 2 ^ (8 * Z.of_nat n) →
     put s os = put_integral n (Z.of_nat (length s)) os ++ s) →
  (∀ s os, put s os = os ++ put s []) →
  (∀ ibs, get ibs = ('(size, ibs) ← get_integral n ibs; get_raw size ibs)) →
  CodecLaws (Codec put get (λ s, bytes_ok s ∧ Z.of_nat (length s) < 2 ^ (8 * Z.of_nat n))).
Proof.
  intros Hput Happ Hget. split; simpl.
  - apply Happ.
  - intros s [Hs Hl]. rewrite Hput by exact Hl. apply bytes_ok_app. split; [|done].
    apply le_bytes_ok.
  - intros s rest [Hs Hl]. rewrite Hput, Hget by exact Hl.
    unfold put_integral. simpl. rewrite <- app_assoc, get_integral_app. simpl.
    rewrite Z.mod_small by lia. apply get_raw_app.
  - intros ibs s rest. rewrite Hget. intros H.
    destruct (get_integral n ibs) as [[size ibs']|] eqn:E; [|done]. simpl in H.
    apply get_integral_inv in E as (_ & _ & ->). apply get_raw_inv in H as [H _].
    exists (take n ibs ++ s). rewrite <- app_assoc, <- H. by rewrite take_drop.
  - intros ibs s rest Hb. rewrite Hget. intros H.
    destruct (get_integral n ibs) as [[size ibs']|] eqn:E; [|done]. simpl in H.
    pose proof (get_integral_range _ _ _ _ Hb E) as Hr.
    apply get_integral_inv in E as (_ & _ & ->). apply get_raw_inv in H as [H Hs].
    apply (bytes_ok_drop n) in Hb. rewrite H in Hb. apply bytes_ok_app in Hb as [Hb _].
    split; [done|]. unfold is_unsigned in Hr. rewrite Hs; lia.
Qed.

#[export] Instance c_string_laws : CodecLaws c_string.
Proof.
  apply (prefixed_laws 4).
  - intros s os Hl. unfold put_string. f_equal. unfold put_integral. f_equal.
    f_equal. apply u32_id. split; [lia|exact Hl].
  - intros. unfold put_string, put_integral. by rewrite app_nil_l, app_assoc.
  - done.
Qed.

#[export] Instance c_byte_array_laws : CodecLaws c_byte_array.
Proof.
  apply (prefixed_laws 8).
  - done.
  - intros. unfold put_byte_array, put_integral. by rewrite app_nil_l, app_assoc.
  - done.
Qed.

(** ** Pairs and sequences *)

Definition c_pair {K V} (ck : codec K) (cv : codec V) : codec (K * V) :=
  Codec (λ e os, c_put cv e.2 (c_put ck e.1 os)) (get_entry (c_get ck) (c_get cv))
    (λ e, c_ok ck e.1 ∧ c_ok cv e.2).

#[export] Instance c_pair_laws {K V} (ck : codec K) (cv : codec V) :
  CodecLaws ck → CodecLaws cv → CodecLaws (c_pair ck cv).
Proof.
  intros Lk Lv. split; simpl.
  - intros e os. rewrite put_append, (put_append (c := ck)), (put_append _ (c_put ck _ [])).
    by rewrite app_assoc.
  - intros e [Hk Hv]. rewrite put_append. apply bytes_ok_app. split; by apply put_bytes.
  - intros [k v] rest [Hk Hv]. unfold get_entry. simpl in *.
    rewrite put_append, <- app_assoc, get_put by exact Hk. simpl.
    by rewrite get_put.
  - intros ibs [k v] rest. unfold get_entry. intros H.
    destruct (c_get ck ibs) as [[k' ibs1]|] eqn:E1; [|done]. simpl in H.
    destruct (c_get cv ibs1) as [[v' ibs2]|] eqn:E2; [|done]. simplify_eq/=.
    apply get_suffix in E1 as [u1 ->]. apply get_suffix in E2 as [u2 ->].
    exists (u1 ++ u2). by rewrite app_assoc.
  - intros ibs [k v] rest Hb. unfold get_entry. intros H.
    destruct (c_get ck ibs) as [[k' ibs1]|] eqn:E1; [|done]. simpl in H.
    destruct (c_get cv ibs1) as [[v' ibs2]|] eqn:E2; [|done]. simplify_eq/=.
    split; [by eapply get_ok|].
    apply get_suffix in E1 as [u1 ->]. apply bytes_ok_app in Hb as [_ Hb]. by eapply get_ok.
Qed.

Lemma get_le {A} (c : codec A) `{!CodecLaws c} ibs a rest :
  c_get c ibs = Some (a, rest) → (length rest <= length ibs)%nat.
Proof. intros H. apply get_suffix in H as [u ->]. rewrite length_app. lia. Qed.

#[export] Instance c_pair_progress {K V} (ck : codec K) (cv : codec V) :
  CodecProgress ck → CodecLaws cv → CodecProgress (c_pair ck cv).
Proof.
  intros Pk Lv ibs [k v] rest. simpl. unfold get_entry. intros H.
  destruct (c_get ck ibs) as [[k' ibs1]|] eqn:E1; [|done]. simpl in H.
  destruct (c_get cv ibs1) as [[v' ibs2]|] eqn:E2; [|done]. simplify_eq/=.
  apply get_progress in E1. apply get_le in E2; [lia|done].
Qed.

(** An encoding is uniquely readable: it determines the value and where it ends. *)
Lemma put_app_inj {A} (c : codec A) `{!CodecLaws c} a b r r' :
  c_ok c a → c_ok c b → c_put c a [] ++ r = c_put c b [] ++ r' → a = b ∧ r = r'.
Proof.
  intros Ha Hb E. pose proof (get_put a r Ha) as Ga. pose proof (get_put b r' Hb) as Gb.
  rewrite E, Gb in Ga. by simplify_eq.
Qed.

Lemma put_inj {A} (c : codec A) `{!CodecLaws c} a b :
  c_ok c a → c_ok c b → c_put c a [] = c_put c b [] → a = b.
Proof. intros Ha Hb E. by destruct (put_app_inj c a b [] [] Ha Hb ltac:(by rewrite E)). Qed.

(** The loop bound of the sources never binds before the input ends. *)
Lemma get_loop_enough {A S} (get : ibstream → option (A * ibstream)) (add : A → S → S) :
  (∀ ibs a rest, get ibs = Some (a, rest) → (length rest < length ibs)%nat) →
  ∀ fuel left acc ibs, (length ibs < fuel)%nat → 0 <= left →
  get_loop get add fuel left acc ibs = get_times get add (Z.to_nat left) acc ibs.
Proof.
  intros Hp. induction fuel as [|fuel IH]; intros left acc ibs Hf Hl; [lia|].
  simpl. destruct (Z.eqb_spec left 0) as [->|Hne]; [done|].
  replace (Z.to_nat left) with (Datatypes.S (Z.to_nat (left - 1))) by lia. simpl.
  destruct (get ibs) as [[x rest]|] eqn:E; [|done]. simpl.
  apply Hp in E. apply IH; lia.
Qed.

Lemma get_loop_suffix {A S} (c : codec A) `{!CodecLaws c} (add : A → S → S) fuel left acc ibs acc' rest :
  get_loop (c_get c) add fuel left acc ibs = Some (acc', rest) → ∃ used, ibs = used ++ rest.
Proof.
  revert left acc ibs. induction fuel as [|fuel IH]; intros left acc ibs; simpl;
    (destruct (left =? 0); [intros [= _ <-]; by exists []|]); [done|].
  destruct (c_get c ibs) as [[x s']|] eqn:E; [|done]. simpl. intros H.
  apply IH in H as [u ->]. apply get_suffix in E as [u' ->].
  exists (u' ++ u). by rewrite app_assoc.
Qed.

Arguments get_loop : simpl never.

Section Sequences.
Context {A S : Type} (c : codec A) `{!CodecLaws c} (add : A → S → S).

Definition put_all (l : list A) (os : obstream) : obstream :=
  fold_left (λ os x, c_put c x os) l os.

Lemma put_all_append l os : put_all l os = os ++ put_all l [].
Proof.
  unfold put_all. revert os. induction l as [|x l IH]; intros os; simpl; [by rewrite app_nil_r|].
  rewrite IH, (IH (c_put c x [])), put_append. by rewrite app_assoc.
Qed.

Lemma put_all_cons x l : put_all (x :: l) [] = c_put c x [] ++ put_all l [].
Proof. unfold put_all at 1. simpl. apply put_all_append. Qed.

Lemma put_all_bytes l : Forall (c_ok c) l → bytes_ok (put_all l []).
Proof.
  induction 1 as [|x l Hx _ IH]; [constructor|]. rewrite put_all_cons.
  apply bytes_ok_app. split; [by apply put_bytes|done].
Qed.

Lemma get_times_put l acc rest :
  Forall (c_ok c) l →
  get_times (c_get c) add (length l) acc (put_all l [] ++ rest)
  = Some (fold_left (λ acc x, add x acc) l acc, rest).
Proof.
  intros H. revert acc. induction H as [|x l Hx _ IH]; intros acc; [done|].
  rewrite put_all_cons, <- app_assoc. simpl. rewrite get_put by exact Hx. simpl. apply IH.
Qed.

Lemma get_times_suffix n acc ibs acc' rest :
  get_times (c_get c) add n acc ibs = Some (acc', rest) → ∃ used, ibs = used ++ rest.
Proof.
  revert acc ibs. induction n as [|n IH]; intros acc ibs; simpl.
  - intros [= _ <-]. by exists [].
  - destruct (c_get c ibs) as [[x ibs1]|] eqn:E; [|done]. simpl. intros H.
    apply IH in H as [u ->]. apply get_suffix in E as [u' ->].
    exists (u' ++ u). by rewrite app_assoc.
Qed.

(** An invariant of the accumulator that every well-formed element preserves
    holds at the end of the loop. *)
Lemma get_times_inv (P : nat → S → Prop) n i acc ibs acc' rest :
  (∀ j x a, c_ok c x → P j a → P (Datatypes.S j) (add x a)) →
  bytes_ok ibs → P i acc →
  get_times (c_get c) add n acc ibs = Some (acc', rest) → P (i + n)%nat acc'.
Proof.
  intros Hadd. revert i acc ibs. induction n as [|n IH]; intros i acc ibs Hb Hi; simpl.
  - intros [= <- _]. by rewrite Nat.add_0_r.
  - destruct (c_get c ibs) as [[x ibs1]|] eqn:E; [|done]. simpl. intros H.
    pose proof (get_ok _ _ _ Hb E) as Hx. apply get_suffix in E as [u ->].
    apply bytes_ok_app in Hb as [_ Hb].
    rewrite <- Nat.add_succ_comm. by eapply IH; eauto.
Qed.

End Sequences.

(** ** Maps *)

Section MapCodec.
Context {K V : Type} `{!KeyOrder K} (ck : codec K) (cv : codec V).
Context `{!CodecLaws ck, !CodecLaws cv, !CodecProgress ck}.

Lemma put_map_eq m os :
  put_map (c_put ck) (c_put cv) m os
  = os ++ le_bytes 8 (Z.of_nat (length m)) ++ put_all (c_pair ck cv) m [].
Proof.
  unfold put_map, put_integral. rewrite app_assoc.
  apply (put_all_append (c_pair ck cv)).
Qed.

Lemma get_map_eq ibs :
  bytes_ok ibs →
  get_map (c_get ck) (c_get cv) ibs
  = ('(size, ibs) ← get_integral 8 ibs;
     get_times (c_get (c_pair ck cv)) (λ it m, map_emplace it.1 it.2 m) (Z.to_nat size) [] ibs).
Proof.
  intros Hb. unfold get_map. destruct (get_integral 8 ibs) as [[size ibs']|] eqn:E; [|done]. simpl.
  apply (get_integral_range _ _ _ _ Hb) in E. unfold is_unsigned in E.
  apply get_loop_enough; [apply (get_progress (c := c_pair ck cv))|lia|lia].
Qed.

Lemma fold_emplace_sorted (m1 m2 : list (K * V)) :
  map_sorted (m1 ++ m2) →
  fold_left (λ m (it : K * V), map_emplace it.1 it.2 m) m2 m1 = m1 ++ m2.
Proof.
  revert m1. induction m2 as [|[k v] m2 IH]; intros m1 Hs; simpl; [by rewrite app_nil_r|].
  rewrite map_emplace_last by (by eapply map_sorted_app_inv).
  rewrite IH; by rewrite <- app_assoc.
Qed.

Lemma length_map_set k v (m : list (K * V)) : (length (map_set k v m) <= S (length m))%nat.
Proof. induction m as [|[k' v'] m IH]; simpl; [lia|]. repeat case_key; simpl; lia. Qed.

Lemma map_emplace_entries (P : K * V → Prop) k v m :
  P (k, v) → Forall P m → Forall P (map_emplace k v m).
Proof.
  intros Hp Hm. unfold map_emplace. destruct map_find; [done|].
  induction Hm as [|[k' v'] m Hx Hm IH]; simpl; [by repeat constructor|].
  destruct (key_ltb k k') eqn:E1; [by repeat constructor|].
  destruct (key_ltb k' k) eqn:E2; [by constructor|].
  assert (k' = k) as -> by (by apply key_total). by constructor.
Qed.

#[export] Instance c_map_laws : CodecLaws (c_map ck cv).
Proof.
  split; simpl.
  - intros m os. by rewrite put_map_eq, (put_map_eq m []).
  - intros m (Hs & Hl & Hf). rewrite put_map_eq. apply bytes_ok_app.
    split; [constructor|]. apply bytes_ok_app. split; [apply le_bytes_ok|].
    by apply put_all_bytes; [apply _|].
  - intros m rest (Hs & Hl & Hf). rewrite put_map_eq, app_nil_l, <- app_assoc.
    unfold get_map. rewrite get_integral_app. simpl.
    rewrite Z.mod_small by (split; [lia|exact Hl]).
    rewrite get_loop_enough; [|apply (get_progress (c := c_pair ck cv))|lia|lia].
    rewrite Nat2Z.id, (get_times_put (c_pair ck cv)) by exact Hf.
    by rewrite (fold_emplace_sorted []).
  - intros ibs m rest. unfold get_map.
    destruct (get_integral 8 ibs) as [[size ibs']|] eqn:E; [|done]. simpl.
    apply get_integral_inv in E as (_ & _ & ->). intros H.
    apply (get_loop_suffix (c_pair ck cv)) in H as [u H]. exists (take 8 ibs ++ u). rewrite <- app_assoc, <- H.
    by rewrite take_drop.
  - intros ibs m rest Hb. rewrite get_map_eq by exact Hb.
    destruct (get_integral 8 ibs) as [[size ibs']|] eqn:E; [|done]. simpl.
    pose proof (get_integral_range _ _ _ _ Hb E) as Hr.
    apply get_integral_inv in E as (_ & _ & ->). intros H.
    eapply (get_times_inv (c_pair ck cv) _ (λ j m, map_sorted m ∧ (length m <= j)%nat
              ∧ Forall (λ e, c_ok ck e.1 ∧ c_ok cv e.2) m) _ 0%nat) in H.
    + destruct H as (H1 & H2 & H3). split; [done|]. split; [|done].
      unfold is_unsigned in Hr. change (2 ^ 64) with (2 ^ (8 * Z.of_nat 8)). lia.
    + intros j [k v] a Hx (H1 & H2 & H3). split; [by apply map_emplace_sorted|].
      split; [|by apply map_emplace_entries].
      simpl. unfold map_emplace. destruct map_find; [lia|].
      pose proof (length_map_set k v a). lia.
    + by apply bytes_ok_drop.
    + split; [constructor|]. split; [simpl; lia|constructor].
Qed.

End MapCodec.

(** ** Records

    A record with the codec of the tuple of its fields. *)

Lemma iso_laws {A B} (c : codec A) (c' : codec B) (f : A → B) (g : B → A) :
  CodecLaws c →
  (∀ b, c_ok c' b → c_ok c (g b) ∧ f (g b) = b) → (∀ a, c_ok c a → c_ok c' (f a)) →
  (∀ b os, c_put c' b os = c_put c (g b) os) →
  (∀ ibs, c_get c' ibs = ('(a, rest) ← c_get c ibs; Some (f a, rest))) →
  CodecLaws c'.
Proof.
  intros L Hfg Hok Hput Hget. split.
  - intros. rewrite !Hput. apply put_append.
  - intros a [Ha _]%Hfg. rewrite Hput. by apply put_bytes.
  - intros a rest [Ha E]%Hfg. rewrite Hput, Hget, get_put by exact Ha.
    simpl. by rewrite E.
  - intros ibs b rest. rewrite Hget. destruct (c_get c ibs) as [[a r]|] eqn:E; [|done].
    simpl. intros [= _ <-]. by eapply get_suffix.
  - intros ibs b rest Hb. rewrite Hget. destruct (c_get c ibs) as [[a r]|] eqn:E; [|done].
    simpl. intros [= <- _]. apply Hok. by eapply get_ok.
Qed.

Lemma iso_progress {A B} (c : codec A) (c' : codec B) (f : A → B) :
  CodecProgress c →
  (∀ ibs, c_get c' ibs = ('(a, rest) ← c_get c ibs; Some (f a, rest))) →
  CodecProgress c'.
Proof.
  intros P Hget ibs b rest. rewrite Hget. destruct (c_get c ibs) as [[a r]|] eqn:E; [|done].
  simpl. intros [= _ <-]. by eapply get_progress.
Qed.

Arguments put_integral : simpl never.
Arguments get_integral : simpl never.
Arguments get_signed : simpl never.
Arguments put_string : simpl never.
Arguments get_string : simpl never.
Arguments put_byte_array : simpl never.
Arguments get_byte_array : simpl never.
Arguments put_map : simpl never.
Arguments get_map : simpl never.

(** Read the next value of a stream that begins with its encoding; [c] is its
    codec and [H] its well-formedness. *)
Ltac read_next c H :=
  rewrite (get_put (c := c) _ _ H), bind_Some'; cbv beta iota.

(** Compare two readers that call the same [get]s in the same order. *)
Ltac same_reads :=
  repeat (simpl; unfold get_entry; simpl;
    match goal with
    | |- context [mbind _ ?x] =>
        lazymatch x with
        | Some _ => fail
        | context [mbind _ _] => fail
        | get_entry _ _ _ => fail
        | c_get (c_pair _ _) _ => fail
        | _ => destruct x as [[? ?]|]
        end
    end); try reflexivity.

#[export] Hint Resolve put_all_bytes : csdb.
