(* ===== verification/Format.v ===== *)
(** * Format: numbers as text

    The number formatting and parsing the sources take from the C and C++
    libraries: [sprintf] with [%d] and a zero-padded [%0wu], the stream
    manipulators [std::hex], [std::setw] and [std::setfill], and
    [std::strtoul]-style parsing.  A text is a byte string. *)

From S2P Require Import Prelude.

(** The character of a digit below 16, lower case as [std::hex] prints it. *)
Definition digit_char (d : Z) : Z := if d <? 10 then 48 + d else 87 + d.

(** Digits in base [b], most significant first.  [fuel] bounds the number of
    digits; [print_base] passes one more than the binary logarithm. *)
Fixpoint print_digits (b : Z) (fuel : nat) (v : Z) : byte_array :=
  match fuel with
  | O => []
  | S fuel' =>
      if v <? b then [digit_char v]
      else print_digits b fuel' (v / b) ++ [digit_char (v mod b)]
  end.

Definition print_base (b v : Z) : byte_array := print_digits b (S (Z.to_nat (Z.log2 v))) v.

(** [%u] *)
Definition print_unsigned (v : Z) : byte_array := print_base 10 v.

(** [%d] *)
Definition print_int (v : Z) : byte_array :=
  if v <? 0 then 45 :: print_unsigned (- v) else print_unsigned v.

(** A minimal width with a fill character: [%0wu], [setw(w)] with [setfill]. *)
Definition pad_left (fill : Z) (w : nat) (s : byte_array) : byte_array :=
  replicate (w - length s) fill ++ s.

(** The value of a digit character in base at most 16. *)
Definition char_digit (c : Z) : option Z :=
  if (48 <=? c) && (c <=? 57) then Some (c - 48)
  else if (97 <=? c) && (c <=? 102) then Some (c - 87)
  else if (65 <=? c) && (c <=? 70) then Some (c - 55)
  else None.

(** The longest prefix of digits in base [b], as a number: what [strtoul]
    computes after white space and sign. *)
Fixpoint read_digits (b acc : Z) (s : byte_array) : Z * byte_array :=
  match s with
  | c :: s' =>
      match char_digit c with
      | Some d => if d <? b then read_digits b (acc * b + d) s' else (acc, s)
      | None => (acc, s)
      end
  | [] => (acc, [])
  end.

(** ** Lemmas *)

Definition is_digit (b c : Z) : Prop := ∃ d, 0 <= d < b ∧ c = digit_char d.

Lemma char_digit_char d : 0 <= d < 16 → char_digit (digit_char d) = Some d.
Proof.
  intros Hd. unfold char_digit, digit_char.
  repeat case_test; simpl; try lia; f_equal; lia.
Qed.

Lemma digit_char_u8 d : 0 <= d < 16 → is_u8 (digit_char d).
Proof. intros. unfold digit_char. case_test; unfold_widths; lia. Qed.

Lemma print_digits_enough b fuel v :
  2 <= b → 0 <= v → v < b ^ Z.of_nat fuel → (0 < fuel)%nat →
  print_digits b fuel v ≠ [] ∧ Forall (is_digit b) (print_digits b fuel v).
Proof.
  intros Hb. revert v. induction fuel as [|fuel IH]; intros v Hv Hf Hp; [lia|].
  simpl. case_test.
  - split; [done|]. constructor; [|constructor]. by exists v.
  - rewrite Nat2Z.inj_succ, Z.pow_succ_r in Hf by lia.
    destruct (decide (fuel = 0%nat)) as [->|]; [simpl in Hf; lia|].
    destruct (IH (v / b)) as [H1 H2]; [apply Z.div_pos; lia|apply Z.div_lt_upper_bound; lia|lia|].
    split; [by intros [_ ?]%app_eq_nil|].
    apply Forall_app. split; [done|]. constructor; [|constructor].
    exists (v mod b). split; [apply Z.mod_pos_bound; lia|done].
Qed.

Lemma log2_fuel b v : 2 <= b → 0 <= v → v < b ^ Z.of_nat (S (Z.to_nat (Z.log2 v))).
Proof.
  intros Hb Hv. rewrite Nat2Z.inj_succ, Z2Nat.id by apply Z.log2_nonneg.
  pose proof (Z.log2_nonneg v).
  destruct (decide (v = 0)) as [->|]; [apply Z.pow_pos_nonneg; lia|].
  pose proof (Z.log2_spec v ltac:(lia)) as [_ H2].
  eapply Z.lt_le_trans; [exact H2|]. apply Z.pow_le_mono_l. lia.
Qed.

Lemma print_base_digits b v :
  2 <= b → 0 <= v → print_base b v ≠ [] ∧ Forall (is_digit b) (print_base b v).
Proof. intros. apply print_digits_enough; [lia|lia|by apply log2_fuel|lia]. Qed.

(** Reading digits goes on where the previous ones stopped. *)
Lemma read_digits_app b acc s s' :
  2 <= b <= 16 → Forall (is_digit b) s →
  read_digits b acc (s ++ s') = read_digits b (read_digits b acc s).1 s'.
Proof.
  intros Hb H. revert acc. induction H as [|c s (d & Hd & ->) _ IH]; intros acc; [done|].
  simpl. rewrite char_digit_char by lia. rewrite (proj2 (Z.ltb_lt d b)) by lia. apply IH.
Qed.

Lemma read_digits_all b acc s :
  2 <= b <= 16 → Forall (is_digit b) s → (read_digits b acc s).2 = [].
Proof.
  intros Hb H. revert acc. induction H as [|c s (d & Hd & ->) _ IH]; intros acc; [done|].
  simpl. rewrite char_digit_char by lia. rewrite (proj2 (Z.ltb_lt d b)) by lia. apply IH.
Qed.

Lemma read_print_digits b fuel v acc :
  2 <= b <= 16 → 0 <= v → v < b ^ Z.of_nat fuel → (0 < fuel)%nat →
  (read_digits b acc (print_digits b fuel v)).1
  = acc * b ^ Z.of_nat (length (print_digits b fuel v)) + v.
Proof.
  intros Hb. revert v acc. induction fuel as [|fuel IH]; intros v acc Hv Hf Hp; [lia|].
  simpl. case_test.
  - simpl. rewrite char_digit_char by lia. rewrite (proj2 (Z.ltb_lt v b)) by lia. simpl.
    change (Z.of_nat 1) with 1. by rewrite Z.pow_1_r.
  - rewrite Nat2Z.inj_succ, Z.pow_succ_r in Hf by lia.
    destruct (decide (fuel = 0%nat)) as [->|]; [simpl in Hf; lia|].
    assert (0 <= v / b) by (apply Z.div_pos; lia).
    assert (v / b < b ^ Z.of_nat fuel) by (apply Z.div_lt_upper_bound; lia).
    rewrite read_digits_app by (try apply print_digits_enough; lia).
    rewrite IH by lia. simpl.
    pose proof (Z.mod_pos_bound v b ltac:(lia)).
    rewrite char_digit_char by lia. rewrite (proj2 (Z.ltb_lt (v mod b) b)) by lia. simpl.
    rewrite length_app. simpl. rewrite Nat2Z.inj_add, Z.pow_add_r by lia.
    change (Z.of_nat 1) with 1. rewrite Z.pow_1_r.
    pose proof (Z.div_mod v b ltac:(lia)). lia.
Qed.

(** Reading back a printed number. *)
Lemma read_print b v acc :
  2 <= b <= 16 → 0 <= v →
  (read_digits b acc (print_base b v)).1 = acc * b ^ Z.of_nat (length (print_base b v)) + v.
Proof. intros. apply read_print_digits; [lia|lia|apply log2_fuel; lia|lia]. Qed.

Lemma length_print_digits b fuel v k :
  2 <= b → 0 <= v < b ^ Z.of_nat k → (0 < k)%nat → (length (print_digits b fuel v) <= k)%nat.
Proof.
  intros Hb. revert v k. induction fuel as [|fuel IH]; intros v k Hv Hk; simpl; [lia|].
  case_test; simpl; [lia|]. rewrite length_app. simpl.
  destruct k as [|k]; [lia|]. rewrite Nat2Z.inj_succ, Z.pow_succ_r in Hv by lia.
  destruct (decide (k = 0%nat)) as [->|]; [simpl in Hv; lia|].
  assert (length (print_digits b fuel (v / b)) <= k)%nat; [|lia].
  apply IH; [|lia]. split; [apply Z.div_pos; lia|apply Z.div_lt_upper_bound; lia].
Qed.

Lemma length_print_base b v k :
  2 <= b → 0 <= v < b ^ Z.of_nat k → (0 < k)%nat → (length (print_base b v) <= k)%nat.
Proof. apply length_print_digits. Qed.

Lemma length_pad_left c w s : (length s <= w)%nat → length (pad_left c w s) = w.
Proof. intros. unfold pad_left. rewrite length_app, length_replicate. lia. Qed.

Lemma pad_digits b w s : 2 <= b → Forall (is_digit b) s → Forall (is_digit b) (pad_left 48 w s).
Proof.
  intros Hb H. apply Forall_app. split; [|done].
  apply Forall_replicate. exists 0. split; [lia|done].
Qed.

Lemma read_pad b w s :
  2 <= b <= 16 → Forall (is_digit b) s →
  read_digits b 0 (pad_left 48 w s) = read_digits b 0 s.
Proof.
  intros Hb H. unfold pad_left.
  rewrite read_digits_app; [|lia|apply Forall_replicate; exists 0; split; [lia|done]].
  f_equal. induction (w - length s)%nat as [|n IH]; [done|].
  cbn [replicate read_digits]. change (char_digit 48) with (Some 0).
  cbn iota. rewrite (proj2 (Z.ltb_lt 0 b)) by lia. exact IH.
Qed.

(** ** Positional value of a text of decimal digits *)

Definition decval (s : byte_array) : Z := (read_digits 10 0 s).1.

Lemma read_digits_acc s acc :
  Forall (is_digit 10) s →
  (read_digits 10 acc s).1 = acc * 10 ^ Z.of_nat (length s) + decval s.
Proof.
  unfold decval. intros H. revert acc. induction H as [|c s (d & Hd & ->) _ IH]; intros acc.
  - simpl. lia.
  - cbn [read_digits length]. rewrite char_digit_char by lia.
    rewrite (proj2 (Z.ltb_lt d 10)) by lia.
    rewrite (IH (acc * 10 + d)), (IH (0 * 10 + d)), Nat2Z.inj_succ, Z.pow_succ_r by lia. lia.
Qed.

Lemma decval_cons c s :
  is_digit 10 c → Forall (is_digit 10) s →
  decval (c :: s) = (c - 48) * 10 ^ Z.of_nat (length s) + decval s.
Proof.
  intros (d & Hd & ->) Hs. unfold decval at 1. cbn [read_digits].
  rewrite char_digit_char by lia. rewrite (proj2 (Z.ltb_lt d 10)) by lia.
  rewrite read_digits_acc by exact Hs. unfold digit_char.
  rewrite (proj2 (Z.ltb_lt d 10)) by lia. f_equal. f_equal. lia.
Qed.

Lemma decval_app s s' :
  Forall (is_digit 10) s → Forall (is_digit 10) s' →
  decval (s ++ s') = decval s * 10 ^ Z.of_nat (length s') + decval s'.
Proof.
  intros Hs Hs'. unfold decval at 1. rewrite read_digits_app by (lia || done).
  by apply read_digits_acc.
Qed.

Lemma is_digit_0 b : 2 <= b → is_digit b 48.
Proof. intros. exists 0. split; [lia|done]. Qed.

Lemma decval_zeros n : decval (replicate n 48) = 0.
Proof.
  induction n as [|n IH]; [done|]. cbn [replicate].
  rewrite decval_cons, IH; [lia|by apply is_digit_0|].
  apply Forall_replicate. by apply is_digit_0.
Qed.

Lemma decval_range s : Forall (is_digit 10) s → 0 <= decval s < 10 ^ Z.of_nat (length s).
Proof.
  induction 1 as [|c s Hc Hs IH]; [done|]. rewrite decval_cons by done.
  destruct Hc as (d & Hd & ->). cbn [length]. rewrite Nat2Z.inj_succ, Z.pow_succ_r by lia.
  unfold digit_char. rewrite (proj2 (Z.ltb_lt d 10)) by lia. nia.
Qed.

Lemma print_unsigned_digits v : 0 <= v → Forall (is_digit 10) (print_unsigned v).
Proof. intros. by apply print_base_digits. Qed.

Lemma decval_print v : 0 <= v → decval (print_unsigned v) = v.
Proof. intros. unfold decval, print_unsigned. rewrite read_print; lia. Qed.

Lemma decval_pad w s : Forall (is_digit 10) s → decval (pad_left 48 w s) = decval s.
Proof. intros. unfold decval. by rewrite read_pad. Qed.

Lemma is_digit_bounds c : is_digit 10 c → 48 <= c <= 57.
Proof. intros (d & Hd & ->). unfold digit_char. case_test; lia. Qed.

(** A text of hexadecimal digits read in base 10: either a letter stops it, or
    every digit is decimal. *)
Lemma read_digits_hex s acc :
  Forall (is_digit 16) s → (read_digits 10 acc s).2 = [] → Forall (is_digit 10) s.
Proof.
  intros H. revert acc. induction H as [|c s (d & Hd & ->) Hs IH]; intros acc; [constructor|].
  cbn [read_digits]. rewrite char_digit_char by lia. case_test; [|done].
  intros Hr. constructor; [exists d; split; [lia|done]|by eapply IH].
Qed.

Lemma is_digit_mono c : is_digit 10 c → is_digit 16 c.
Proof. intros (d & Hd & ->). exists d. split; [lia|done]. Qed.

(** The same decimal digits stand for less in base 10 than in base 16. *)
Lemma read_10_16 s :
  Forall (is_digit 10) s →
  let v10 := (read_digits 10 0 s).1 in let v16 := (read_digits 16 0 s).1 in
  0 <= v10 <= v16 ∧ (10 <= v16 → v10 < v16) ∧ (v16 < 10 → v10 = v16).
Proof.
  induction s as [|c s IH] using rev_ind; intros Hs; cbv zeta; [simpl; lia|].
  apply Forall_app in Hs as [Hs Hc]. apply Forall_singleton in Hc as (d & Hd & ->).
  specialize (IH Hs). cbv zeta in IH.
  rewrite !read_digits_app by (try lia; try done; by eapply Forall_impl, is_digit_mono).
  cbn [read_digits]. rewrite char_digit_char by lia.
  rewrite (proj2 (Z.ltb_lt d 10)), (proj2 (Z.ltb_lt d 16)) by lia. cbn [fst]. lia.
Qed.

Lemma digit_char_range d : 0 <= d < 16 → 48 <= digit_char d <= 57 ∨ 97 <= digit_char d <= 102.
Proof. intros. unfold digit_char. case_test; lia. Qed.

Lemma is_digit_bounds16 c : is_digit 16 c → 48 <= c <= 57 ∨ 97 <= c <= 102.
Proof. intros (d & Hd & ->). by apply digit_char_range. Qed.

(** A number below ten has one decimal digit in base 16. *)
Lemma print_hex_small v : 0 <= v < 10 → Forall (is_digit 10) (print_base 16 v).
Proof.
  intros Hv. unfold print_base. cbn [print_digits]. rewrite (proj2 (Z.ltb_lt v 16)) by lia.
  constructor; [by exists v|constructor].
Qed.
