(* ===== verification/Amount.v ===== *)
(** * Amount: fixed-point currency amounts

    Models [csdb/include/csdb/amount.h] and [csdb/src/amount.cpp].  An amount is
    a signed 32-bit integral part and an unsigned 64-bit fraction in units of
    10^-18; a negative amount has a negative integral part and a non-negative
    fraction.  The operations are related to exact arithmetic on the number of
    units [val].  Arithmetic on the integral part is reduced to 32 bits.  C++ leaves
    the overflow of a signed sum undefined, and the model wraps it: the equations
    modulo 2^32 units of the integral part hold for compilers that wrap, and the
    exact ones, which assume that the result fits, for all.  The operations on [double] are in [AmountDouble]. *)

From S2P Require Import Prelude StdMap Streams Format Math128.

(** ** Data and constructors *)

Record Amount := mkAmount { integral_ : Z; fraction_ : Z }.

#[export] Instance Amount_eq_dec : EqDecision Amount.
Proof. solve_decision. Defined.

Definition AMOUNT_MAX_FRACTION : Z := 1000000000000000000.

(** [Amount()] and [Amount(int32_t)] *)
Definition Amount_zero : Amount := mkAmount 0 0.
Definition Amount_of_int (value : Z) : Amount := mkAmount value 0.

(** [Amount::_check_fraction] *)
Definition Amount_check_fraction (fraction : uint128_t) : result Z :=
  if negb (0 =? hi_ fraction) || (AMOUNT_MAX_FRACTION <=? lo_ fraction)
  then Throw invalid_argument
  else Ok (lo_ fraction).

(** [Amount(int32_t integral, uint64_t numerator, uint64_t denominator)] *)
Definition Amount_of_ratio (integral numerator denominator : Z) : result Amount :=
  d ← u128_div (u128_add64 (u128_mul numerator AMOUNT_MAX_FRACTION) (denominator / 2)) denominator;
  f ← Amount_check_fraction (quotient_ d);
  Ok (mkAmount integral f).

(** [Amount(const division64_result&)] *)
Definition Amount_of_division (value : division64_result) : Amount :=
  mkAmount (i32 (lo_ (quotient_ value))) (remainder_ value).

(** [Amount(const uint128_t& value, bool divide)].  The divisor is the constant
    [AMOUNT_MAX_FRACTION], so the divisions do not throw. *)
Definition Amount_of_u128 (value : uint128_t) (divide : bool) : result Amount :=
  if (0 =? lo_ value) && (0 =? hi_ value) then Ok (Amount_of_division (Division64 (U128 0 0) 0))
  else if divide then
    d ← u128_div value AMOUNT_MAX_FRACTION;
    d' ← u128_div (quotient_ d) AMOUNT_MAX_FRACTION;
    Ok (Amount_of_division d')
  else
    d ← u128_div value AMOUNT_MAX_FRACTION;
    Ok (Amount_of_division d).

(** ** Reading and comparing *)

Definition Amount_round (a : Amount) : Z :=
  if fraction_ a <? AMOUNT_MAX_FRACTION / 2 then integral_ a else i32 (integral_ a + 1).

Definition Amount_eqb (a other : Amount) : bool :=
  (integral_ a =? integral_ other) && (fraction_ a =? fraction_ other).

Definition Amount_ltb (a other : Amount) : bool :=
  if integral_ a <? integral_ other then true
  else if integral_ other <? integral_ a then false
  else fraction_ a <? fraction_ other.

Definition Amount_gtb (a other : Amount) : bool :=
  if integral_ other <? integral_ a then true
  else if integral_ a <? integral_ other then false
  else fraction_ other <? fraction_ a.

Definition Amount_neqb (a other : Amount) : bool := negb (Amount_eqb a other).
Definition Amount_leb (a other : Amount) : bool := negb (Amount_gtb a other).
Definition Amount_geb (a other : Amount) : bool := negb (Amount_ltb a other).

(** ** Arithmetic *)

(** [operator-()] *)
Definition Amount_neg (a : Amount) : Amount :=
  if 0 =? fraction_ a then Amount_of_int (i32 (- integral_ a))
  else mkAmount (i32 (- integral_ a - 1)) (u64 (AMOUNT_MAX_FRACTION - fraction_ a)).

(** [operator+=(const Amount&)] *)
Definition Amount_add_assign (a other : Amount) : Amount :=
  let integral := i32 (integral_ a + integral_ other) in
  let fraction := u64 (fraction_ a + fraction_ other) in
  if AMOUNT_MAX_FRACTION <? fraction
  then mkAmount (i32 (integral + 1)) (u64 (fraction - AMOUNT_MAX_FRACTION))
  else mkAmount integral fraction.

(** [operator-=(const Amount&)] *)
Definition Amount_sub_assign (a other : Amount) : Amount :=
  let integral := i32 (integral_ a - integral_ other) in
  if fraction_ a <? fraction_ other
  then mkAmount (i32 (integral - 1))
         (u64 (fraction_ a + u64 (AMOUNT_MAX_FRACTION - fraction_ other)))
  else mkAmount integral (u64 (fraction_ a - fraction_ other)).

(** [operator+=(int32_t)] and [operator-=(int32_t)] *)
Definition Amount_add_assign_int (a : Amount) (other : Z) : Amount :=
  mkAmount (i32 (integral_ a + other)) (fraction_ a).
Definition Amount_sub_assign_int (a : Amount) (other : Z) : Amount :=
  mkAmount (i32 (integral_ a - other)) (fraction_ a).

(** [operator+(const Amount&)] *)
Definition Amount_add (a other : Amount) : Amount :=
  if AMOUNT_MAX_FRACTION <=? u64 (fraction_ a + fraction_ other)
  then mkAmount (i32 (integral_ a + integral_ other + 1))
         (u64 (fraction_ a + fraction_ other - AMOUNT_MAX_FRACTION))
  else mkAmount (i32 (integral_ a + integral_ other)) (u64 (fraction_ a + fraction_ other)).

(** [operator-(const Amount&)] *)
Definition Amount_sub (a other : Amount) : Amount :=
  if fraction_ a <? fraction_ other
  then mkAmount (i32 (integral_ a - integral_ other - 1))
         (u64 (fraction_ a + AMOUNT_MAX_FRACTION - fraction_ other))
  else mkAmount (i32 (integral_ a - integral_ other)) (u64 (fraction_ a - fraction_ other)).

(** [operator+(int32_t)], [operator-(int32_t)] and [operator-(int32_t, Amount)] *)
Definition Amount_add_int (a : Amount) (other : Z) : Amount :=
  mkAmount (i32 (integral_ a + other)) (fraction_ a).
Definition Amount_sub_int (a : Amount) (other : Z) : Amount :=
  mkAmount (i32 (integral_ a - other)) (fraction_ a).
Definition Amount_int_sub (a : Z) (b : Amount) : Amount := Amount_add_int (Amount_neg b) a.

(** The outcome of a recursive operator: [None] when the recursion does not
    end within the calls allowed. *)
Abbreviation outcome A := (option (result A)).

Definition outcome_map {A B} (f : A → B) (o : outcome A) : outcome B :=
  (λ r, a ← r; Ok (f a)) <$> o.

(** [operator*(const Amount&)].  At most two calls change a sign, so three
    levels are enough unless negation leaves a sign unchanged. *)
Fixpoint Amount_mul_fuel (fuel : nat) (a other : Amount) : outcome Amount :=
  match fuel with
  | O => None
  | S fuel' =>
      if integral_ a <? 0 then
        outcome_map Amount_neg (Amount_mul_fuel fuel' (Amount_neg a) other)
      else if integral_ other <? 0 then
        outcome_map Amount_neg (Amount_mul_fuel fuel' a (Amount_neg other))
      else Some (
        x ← Amount_of_u128 (u128_mul (fraction_ a) (u64 (integral_ other))) false;
        y ← Amount_of_u128 (u128_mul (fraction_ other) (u64 (integral_ a))) false;
        z ← Amount_of_u128 (u128_mul (fraction_ a) (fraction_ other)) true;
        Ok (Amount_add (Amount_add (Amount_add
              (Amount_of_int (i32 (integral_ a * integral_ other))) x) y) z))
  end.

Definition Amount_mul (a other : Amount) : outcome Amount := Amount_mul_fuel 3 a other.

(** [operator*(int32_t)] *)
Fixpoint Amount_mul_int_fuel (fuel : nat) (a : Amount) (other : Z) : outcome Amount :=
  match fuel with
  | O => None
  | S fuel' =>
      if other <? 0 then
        outcome_map Amount_neg (Amount_mul_int_fuel fuel' a (i32 (- other)))
      else Some (
        x ← Amount_of_u128 (u128_mul (fraction_ a) (u64 other)) false;
        Ok (Amount_add (Amount_of_int (i32 (integral_ a * other))) x))
  end.

Definition Amount_mul_int (a : Amount) (other : Z) : outcome Amount :=
  Amount_mul_int_fuel 2 a other.

(** [operator/(int32_t)] *)
Fixpoint Amount_div_fuel (fuel : nat) (a : Amount) (other : Z) : outcome Amount :=
  match fuel with
  | O => None
  | S fuel' =>
      if 0 =? other then Some (Throw overflow_error)
      else if other <? 0 then
        outcome_map Amount_neg (Amount_div_fuel fuel' a (i32 (- other)))
      else if 1 =? other then Some (Ok a)
      else if integral_ a <? 0 then
        outcome_map Amount_neg (Amount_div_fuel fuel' (Amount_neg a) other)
      else Some (
        d ← u128_div (u128_mul (u64 (integral_ a)) AMOUNT_MAX_FRACTION) (u64 other);
        x ← Amount_of_u128 (quotient_ d) false;
        Ok (Amount_add x (mkAmount 0 (fraction_ a / u64 other))))
  end.

Definition Amount_div (a : Amount) (other : Z) : outcome Amount := Amount_div_fuel 3 a other.

(** ** Text and serialisation *)

(** The loop of [to_string] that drops up to [n] trailing zeros; the buffer is
    kept reversed, so that its end is the head. *)
Fixpoint drop_zeros (n : nat) (rbuf : byte_array) : byte_array :=
  match n, rbuf with
  | S n', c :: rbuf' => if c =? 48 then drop_zeros n' rbuf' else rbuf
  | _, _ => rbuf
  end.

Definition drop_point (rbuf : byte_array) : byte_array :=
  match rbuf with
  | c :: rbuf' => if c =? 46 then rbuf' else rbuf
  | [] => []
  end.

(** [Amount::to_string] *)
Definition Amount_to_string (a : Amount) (min_decimal_places : nat) : byte_array :=
  let buf :=
    if (integral_ a <? 0) && negb (0 =? fraction_ a)
    then 45 :: print_int (i32 (-1 - integral_ a)) ++
         46 :: pad_left 48 18 (print_unsigned (u64 (AMOUNT_MAX_FRACTION - fraction_ a)))
    else print_int (integral_ a) ++ 46 :: pad_left 48 18 (print_unsigned (fraction_ a)) in
  rev (drop_point (drop_zeros (18 - Nat.min min_decimal_places 18) (rev buf))).

(** The template [amount_fraction<m, s...>]; ill-formed on no characters. *)
Fixpoint amount_fraction (m : Z) (s : byte_array) : option Z :=
  match s with
  | [] => None
  | [d] => Some (u64 ((d - 48) * m))
  | d :: s' => v ← amount_fraction (m / 10) s'; Some (u64 ((d - 48) * m + v))
  end.

(** The template [amount_full<s...>]: integral, multiplier and fraction;
    ill-formed without a point. *)
Fixpoint amount_full (s : byte_array) : option (Z * Z * Z) :=
  match s with
  | [] => None
  | d :: s' =>
      if d =? 46 then
        f ← amount_fraction (AMOUNT_MAX_FRACTION / 10) s'; Some (0, 1, f)
      else
        '(integral, multiplier, fraction) ← amount_full s';
        Some (u64 (integral + multiplier * (d - 48)), u64 (multiplier * 10), fraction)
  end.

(** The literal operator for texts with a point. *)
Definition Amount_literal (s : byte_array) : option Amount :=
  '(integral, _, fraction) ← amount_full s; Some (mkAmount (i32 integral) fraction).

(** [Amount::put] and [Amount::get] *)
Definition Amount_put (a : Amount) (os : obstream) : obstream :=
  put_integral 8 (fraction_ a) (put_integral 4 (integral_ a) os).

Definition Amount_get (ibs : ibstream) : option (Amount * ibstream) :=
  '(i, ibs) ← get_signed 4 ibs; '(f, ibs) ← get_integral 8 ibs; Some (mkAmount i f, ibs).

(** ** Specification *)

(** The number of units of 10^-18 an amount stands for. *)
Definition val (a : Amount) : Z := integral_ a * AMOUNT_MAX_FRACTION + fraction_ a.

(** Amounts in normal form. *)
Definition Amount_ok (a : Amount) : Prop :=
  is_i32 (integral_ a) ∧ 0 <= fraction_ a < AMOUNT_MAX_FRACTION.

(** Amounts whose fraction may also be a whole unit. *)
Definition Amount_weak (a : Amount) : Prop :=
  is_i32 (integral_ a) ∧ 0 <= fraction_ a <= AMOUNT_MAX_FRACTION.

(** Amounts as the object representation allows them. *)
Definition Amount_repr (a : Amount) : Prop := is_i32 (integral_ a) ∧ is_u64 (fraction_ a).

(** Numbers of units whose amount has a 32-bit integral part. *)
Definition units_ok (v : Z) : Prop := - 2 ^ 31 * AMOUNT_MAX_FRACTION <= v < 2 ^ 31 * AMOUNT_MAX_FRACTION.

#[export] Instance Amount_ok_dec a : Decision (Amount_ok a).
Proof. unfold Amount_ok, is_i32. apply _. Defined.

(** The amount of a number of units, its integral part reduced to 32 bits. *)
Definition Amount_of_units (v : Z) : Amount :=
  mkAmount (i32 (v / AMOUNT_MAX_FRACTION)) (v mod AMOUNT_MAX_FRACTION).

(** Unfold amounts down to linear arithmetic. *)
Ltac amount_lia :=
  unfold Amount_ok, Amount_weak, Amount_repr, units_ok, val, Amount_of_units,
    AMOUNT_MAX_FRACTION in *; cbn [integral_ fraction_] in *; width_lia.

(** ** Amounts as numbers of units *)

Lemma Amount_of_units_ok v : Amount_ok (Amount_of_units v).
Proof.
  split; [apply i32_range|]. apply Z.mod_pos_bound. done.
Qed.

Lemma val_of_units v : units_ok v → val (Amount_of_units v) = v.
Proof. amount_lia. Qed.

Lemma of_units_val a : Amount_ok a → Amount_of_units (val a) = a.
Proof. destruct a as [i f]. intros H. unfold Amount_of_units. f_equal; amount_lia. Qed.

Lemma val_units_ok a : Amount_ok a → units_ok (val a).
Proof. amount_lia. Qed.

Lemma Amount_ok_weak a : Amount_ok a → Amount_weak a.
Proof. amount_lia. Qed.

Lemma of_units_wrap v k :
  Amount_of_units (v + k * (2 ^ 32 * AMOUNT_MAX_FRACTION)) = Amount_of_units v.
Proof. unfold Amount_of_units. f_equal; amount_lia. Qed.

Lemma val_of_units_wrap v : ∃ k, val (Amount_of_units v) = v + k * (2 ^ 32 * AMOUNT_MAX_FRACTION).
Proof. exists (- ((v / AMOUNT_MAX_FRACTION + 2 ^ 31) / 2 ^ 32)). amount_lia. Qed.

Lemma Amount_neg_units a : Amount_ok a → Amount_neg a = Amount_of_units (- val a).
Proof.
  destruct a as [i f]. intros H. unfold Amount_neg, Amount_of_units, Amount_of_int; cbn [integral_ fraction_].
  case_test; f_equal; amount_lia.
Qed.

Lemma Amount_add_units a b :
  Amount_ok a → Amount_ok b → Amount_add a b = Amount_of_units (val a + val b).
Proof.
  destruct a as [i f], b as [j g]. intros Ha Hb.
  unfold Amount_add, Amount_of_units; cbn [integral_ fraction_].
  case_test; f_equal; amount_lia.
Qed.

Lemma Amount_sub_units a b :
  Amount_ok a → Amount_ok b → Amount_sub a b = Amount_of_units (val a - val b).
Proof.
  destruct a as [i f], b as [j g]. intros Ha Hb.
  unfold Amount_sub, Amount_of_units; cbn [integral_ fraction_].
  case_test; f_equal; amount_lia.
Qed.

Lemma neg_of_units x : Amount_neg (Amount_of_units x) = Amount_of_units (- x).
Proof.
  rewrite Amount_neg_units by apply Amount_of_units_ok.
  destruct (val_of_units_wrap x) as [k ->].
  rewrite <- (of_units_wrap (- x) (- k)). f_equal. lia.
Qed.

Lemma add_of_units x y : Amount_add (Amount_of_units x) (Amount_of_units y) = Amount_of_units (x + y).
Proof.
  rewrite Amount_add_units by apply Amount_of_units_ok.
  destruct (val_of_units_wrap x) as [k ->], (val_of_units_wrap y) as [j ->].
  rewrite <- (of_units_wrap (x + y) (k + j)). f_equal. lia.
Qed.

Lemma of_int_units i : Amount_of_int (i32 i) = Amount_of_units (i * AMOUNT_MAX_FRACTION).
Proof. unfold Amount_of_int, Amount_of_units. f_equal; amount_lia. Qed.

Lemma max_fraction_u64 : is_u64 AMOUNT_MAX_FRACTION.
Proof. done. Qed.

Lemma i32_lo q : u128_ok q → i32 (lo_ q) = i32 (u128_value q).
Proof. unfold u128_ok, u128_value. destruct q as [l h]; simpl. intros []. width_lia. Qed.

Lemma Amount_of_division_units q r v :
  u128_ok q → u128_value q = v / AMOUNT_MAX_FRACTION → r = v mod AMOUNT_MAX_FRACTION →
  Amount_of_division (Division64 q r) = Amount_of_units v.
Proof.
  intros Hq Ev ->. unfold Amount_of_division, Amount_of_units; cbn [quotient_ remainder_].
  by rewrite i32_lo, Ev.
Qed.

#[local] Opaque u128_div u128_mul.

Lemma of_u128_div v :
  u128_ok v →
  ∃ d, u128_div v AMOUNT_MAX_FRACTION = Ok d ∧ u128_ok (quotient_ d) ∧
    u128_value (quotient_ d) = u128_value v / AMOUNT_MAX_FRACTION ∧
    Amount_of_division d = Amount_of_units (u128_value v).
Proof.
  intros Hv.
  destruct (u128_div_value v AMOUNT_MAX_FRACTION) as (q & r & E & Hq & Eq & Er);
    [exact Hv|apply max_fraction_u64|discriminate|].
  exists (Division64 q r). split; [exact E|]. split; [exact Hq|]. split; [exact Eq|].
  apply Amount_of_division_units; assumption.
Qed.

Lemma Amount_of_u128_units v divide :
  u128_ok v →
  Amount_of_u128 v divide
  = Ok (Amount_of_units (if divide then u128_value v / AMOUNT_MAX_FRACTION else u128_value v)).
Proof.
  intros Hv. unfold Amount_of_u128. destruct (of_u128_div v Hv) as (d & -> & Hq & Eq & Ed).
  destruct (of_u128_div (quotient_ d) Hq) as (d' & E' & _ & _ & Ed').
  destruct ((0 =? lo_ v) && (0 =? hi_ v)) eqn:Z0.
  - apply andb_true_iff in Z0 as [E1%Z.eqb_eq E2%Z.eqb_eq].
    unfold u128_value. rewrite <- E1, <- E2. destruct divide; reflexivity.
  - rewrite !bind_Ok, E', bind_Ok, <- Eq, Ed, Ed'. by destruct divide.
Qed.

Lemma of_u128_mul x y divide :
  is_u64 x → is_u64 y →
  Amount_of_u128 (u128_mul x y) divide
  = Ok (Amount_of_units (if divide then x * y / AMOUNT_MAX_FRACTION else x * y)).
Proof.
  intros Hx Hy. destruct (u128_mul_value x y Hx Hy) as [Hok Hv].
  rewrite Amount_of_u128_units, Hv by exact Hok. reflexivity.
Qed.

(** ** Multiplication and division *)

(** The one amount whose negation does not fit. *)
Definition Amount_min : Amount := mkAmount (- 2 ^ 31) 0.

Lemma Amount_neg_val a :
  Amount_ok a → a ≠ Amount_min → Amount_ok (Amount_neg a) ∧ val (Amount_neg a) = - val a.
Proof.
  intros Ha Hm. rewrite Amount_neg_units by exact Ha. split; [apply Amount_of_units_ok|].
  apply val_of_units. destruct a as [i f].
  destruct (decide (i = - 2 ^ 31 ∧ f = 0)) as [[-> ->]|Hn]; [done|]. amount_lia.
Qed.

Lemma Amount_neg_min : Amount_neg Amount_min = Amount_min.
Proof. reflexivity. Qed.

Lemma Amount_sign a : Amount_ok a → (integral_ a <? 0) = (val a <? 0).
Proof.
  intros Ha. destruct (Z.ltb_spec (integral_ a) 0), (Z.ltb_spec (val a) 0); try done; amount_lia.
Qed.

Lemma integral_u64 a : Amount_ok a → 0 <= val a → is_u64 (integral_ a) ∧ u64 (integral_ a) = integral_ a.
Proof. intros Ha Hv. assert (is_u64 (integral_ a)) by amount_lia. split; [done|]. by apply u64_id. Qed.

Lemma fraction_u64 a : Amount_ok a → is_u64 (fraction_ a).
Proof. amount_lia. Qed.

Lemma Amount_mul_nonneg n a b :
  Amount_ok a → Amount_ok b → 0 <= val a → 0 <= val b →
  Amount_mul_fuel (S n) a b = Some (Ok (Amount_of_units (val a * val b / AMOUNT_MAX_FRACTION))).
Proof.
  intros Ha Hb Va Vb. cbn [Amount_mul_fuel]. rewrite !Amount_sign by assumption.
  rewrite (proj2 (Z.ltb_ge (val a) 0)), (proj2 (Z.ltb_ge (val b) 0)) by assumption.
  destruct (integral_u64 a Ha Va) as [Ia ->], (integral_u64 b Hb Vb) as [Ib ->].
  pose proof (fraction_u64 a Ha). pose proof (fraction_u64 b Hb).
  rewrite !of_u128_mul, !bind_Ok by assumption.
  rewrite of_int_units, !add_of_units. do 3 f_equal. unfold val.
  rewrite <- Z.div_add_l by done. f_equal. lia.
Qed.

Lemma outcome_neg x :
  outcome_map Amount_neg (Some (Ok (Amount_of_units x))) = Some (Ok (Amount_of_units (- x))).
Proof. unfold outcome_map. simpl. by rewrite neg_of_units. Qed.

Lemma Amount_mul_neg_l n a b :
  Amount_ok a → val a < 0 →
  Amount_mul_fuel (S n) a b = outcome_map Amount_neg (Amount_mul_fuel n (Amount_neg a) b).
Proof.
  intros Ha Va. cbn [Amount_mul_fuel]. rewrite Amount_sign by exact Ha.
  by rewrite (proj2 (Z.ltb_lt (val a) 0)) by exact Va.
Qed.

Lemma Amount_mul_neg_r n a b :
  Amount_ok a → Amount_ok b → 0 <= val a → val b < 0 →
  Amount_mul_fuel (S n) a b = outcome_map Amount_neg (Amount_mul_fuel n a (Amount_neg b)).
Proof.
  intros Ha Hb Va Vb. cbn [Amount_mul_fuel]. rewrite !Amount_sign by assumption.
  by rewrite (proj2 (Z.ltb_ge (val a) 0)), (proj2 (Z.ltb_lt (val b) 0)) by assumption.
Qed.

Lemma quot_neg_l x y : Z.quot (- x * y) AMOUNT_MAX_FRACTION = - Z.quot (x * y) AMOUNT_MAX_FRACTION.
Proof. rewrite Z.mul_opp_l. by apply Z.quot_opp_l. Qed.

Lemma Amount_mul_units_pos n a b :
  Amount_ok a → Amount_ok b → b ≠ Amount_min → 0 <= val a →
  Amount_mul_fuel (S (S n)) a b
  = Some (Ok (Amount_of_units (Z.quot (val a * val b) AMOUNT_MAX_FRACTION))).
Proof.
  intros Ha Hb Mb Va. destruct (Z.lt_ge_cases (val b) 0) as [Vb|Vb].
  - destruct (Amount_neg_val b Hb Mb) as [Hn En].
    rewrite Amount_mul_neg_r, Amount_mul_nonneg, En, outcome_neg by (assumption || lia).
    do 3 f_equal. rewrite <- Z.quot_div_nonneg by (unfold AMOUNT_MAX_FRACTION; nia).
    rewrite (Z.mul_comm (val a)), quot_neg_l, Z.mul_comm. lia.
  - rewrite Amount_mul_nonneg by assumption.
    by rewrite Z.quot_div_nonneg by (unfold AMOUNT_MAX_FRACTION; nia).
Qed.

Lemma Amount_mul_units a b :
  Amount_ok a → Amount_ok b → a ≠ Amount_min → b ≠ Amount_min →
  Amount_mul a b = Some (Ok (Amount_of_units (Z.quot (val a * val b) AMOUNT_MAX_FRACTION))).
Proof.
  intros Ha Hb Ma Mb. unfold Amount_mul.
  destruct (Z.lt_ge_cases (val a) 0) as [Va|Va]; [|by apply Amount_mul_units_pos].
  destruct (Amount_neg_val a Ha Ma) as [Hn En].
  rewrite Amount_mul_neg_l, Amount_mul_units_pos, En, outcome_neg by (assumption || lia).
  rewrite quot_neg_l. do 3 f_equal. lia.
Qed.

(** On the least amount the recursion does not end. *)
Lemma Amount_mul_min_none fuel b : Amount_mul_fuel fuel Amount_min b = None.
Proof.
  induction fuel as [|fuel IH]; [done|]. cbn [Amount_mul_fuel].
  change (integral_ Amount_min <? 0) with true. cbn iota. by rewrite Amount_neg_min, IH.
Qed.

Lemma Amount_mul_int_units a n :
  Amount_ok a → is_i32 n → n ≠ - 2 ^ 31 →
  Amount_mul_int a n = Some (Ok (Amount_of_units (val a * n))).
Proof.
  intros Ha Hn Mn. pose proof (fraction_u64 a Ha).
  assert (∀ f m, 0 <= m → is_i32 m →
    Amount_mul_int_fuel (S f) a m = Some (Ok (Amount_of_units (val a * m)))) as Hpos.
  { intros f m Hm Hr. cbn [Amount_mul_int_fuel]. rewrite (proj2 (Z.ltb_ge m 0)) by exact Hm.
    assert (is_u64 m) by width_lia. rewrite u64_id, of_u128_mul, bind_Ok by assumption.
    rewrite of_int_units, add_of_units. do 3 f_equal. unfold val. lia. }
  unfold Amount_mul_int. destruct (Z.lt_ge_cases n 0) as [Vn|Vn]; [|by apply Hpos].
  assert (Amount_mul_int_fuel 2 a n = outcome_map Amount_neg (Amount_mul_int_fuel 1 a (i32 (- n)))) as ->.
  { cbn [Amount_mul_int_fuel]. by rewrite (proj2 (Z.ltb_lt n 0)) by exact Vn. }
  rewrite i32_id, Hpos by width_lia.
  rewrite outcome_neg. do 3 f_equal. lia.
Qed.

(** The quotient of a non-negative amount: at most one unit below the exact one. *)
Lemma Amount_div_nonneg fuel a n :
  Amount_ok a → 0 <= val a → 0 < n → is_i32 n →
  ∃ q, Amount_div_fuel (S fuel) a n = Some (Ok (Amount_of_units q)) ∧
       0 <= q ∧ (q = val a / n ∨ q = val a / n - 1).
Proof.
  intros Ha Va Hn Hr. cbn [Amount_div_fuel].
  rewrite (proj2 (Z.eqb_neq 0 n)), (proj2 (Z.ltb_ge n 0)) by lia.
  destruct (Z.eqb_spec 1 n) as [<-|N1].
  { exists (val a). rewrite of_units_val by exact Ha. rewrite Z.div_1_r. auto. }
  rewrite Amount_sign by exact Ha. rewrite (proj2 (Z.ltb_ge (val a) 0)) by exact Va.
  assert (is_u64 n) as Hu by width_lia. rewrite (u64_id n) by exact Hu.
  destruct (integral_u64 a Ha Va) as [Ia ->].
  destruct (u128_mul_value (integral_ a) AMOUNT_MAX_FRACTION Ia max_fraction_u64) as [Hok Hv].
  destruct (u128_div_value _ n Hok Hu ltac:(lia)) as (q & r & -> & Hq & Eq & _).
  rewrite bind_Ok. cbn [quotient_]. rewrite Amount_of_u128_units, Eq, Hv, bind_Ok by exact Hq.
  set (x := integral_ a * AMOUNT_MAX_FRACTION / n).
  pose proof (Z.div_pos (fraction_ a) n) as P1.
  assert (0 <= x) as P2 by (apply Z.div_pos; amount_lia).
  assert (fraction_ a / n < AMOUNT_MAX_FRACTION) as P3
    by (apply Z.div_lt_upper_bound; [lia|]; unfold Amount_ok in Ha; nia).
  replace (mkAmount 0 (fraction_ a / n)) with (Amount_of_units (fraction_ a / n)).
  2: { unfold Amount_of_units. unfold Amount_ok in Ha.
       rewrite Z.div_small, Z.mod_small by lia. reflexivity. }
  rewrite add_of_units. exists (x + fraction_ a / n). split; [done|].
  unfold Amount_ok in Ha. split; [lia|]. subst x. unfold val.
  clear -Hn. Z.to_euclidean_division_equations. nia.
Qed.

Lemma Amount_div_pos fuel a n :
  Amount_ok a → a ≠ Amount_min → 0 < n → is_i32 n →
  ∃ q, Amount_div_fuel (S (S fuel)) a n = Some (Ok (Amount_of_units q)) ∧
       (q = Z.quot (val a) n ∨ q = Z.quot (val a) n - Z.sgn (val a)) ∧ 0 <= q * Z.sgn (val a).
Proof.
  intros Ha Ma Hn Hr. destruct (Z.lt_ge_cases (val a) 0) as [Va|Va].
  - destruct (Amount_neg_val a Ha Ma) as [Hm Em].
    destruct (Amount_div_nonneg fuel (Amount_neg a) n Hm ltac:(lia) Hn Hr) as (q & Eq & Q0 & Q).
    destruct (decide (n = 1)) as [->|N1].
    + exists (val a). rewrite of_units_val by exact Ha. rewrite Z.quot_1_r.
      repeat split; auto. rewrite Z.sgn_neg; lia.
    + exists (- q). rewrite Z.sgn_neg, Em in * by lia. split; [|split; [|lia]].
      * rewrite <- outcome_neg, <- Eq. cbn [Amount_div_fuel].
        rewrite (proj2 (Z.eqb_neq 0 n)), (proj2 (Z.ltb_ge n 0)), (proj2 (Z.eqb_neq 1 n)) by lia.
        by rewrite (Amount_sign a), (proj2 (Z.ltb_lt (val a) 0)) by assumption.
      * rewrite <- Z.quot_div_nonneg, Z.quot_opp_l in Q by lia. lia.
  - destruct (Amount_div_nonneg (S fuel) a n Ha Va Hn Hr) as (q & Eq & Q0 & Q).
    exists q. rewrite Z.quot_div_nonneg by lia. split; [done|].
    destruct (decide (val a = 0)) as [Z0|Z0].
    + rewrite Z0 in *. rewrite Z.div_0_l in * by lia. simpl. lia.
    + rewrite Z.sgn_pos by lia. lia.
Qed.

Lemma Amount_div_units a n :
  Amount_ok a → a ≠ Amount_min → is_i32 n → n ≠ 0 → n ≠ - 2 ^ 31 →
  ∃ q, Amount_div a n = Some (Ok (Amount_of_units q)) ∧
       (q = Z.quot (val a) n ∨ q = Z.quot (val a) n - Z.sgn (val a) * Z.sgn n) ∧
       0 <= q * (Z.sgn (val a) * Z.sgn n).
Proof.
  intros Ha Ma Hr N0 Mn. unfold Amount_div. destruct (Z.lt_ge_cases n 0) as [Vn|Vn].
  - destruct (Amount_div_pos 0 a (- n) Ha Ma ltac:(lia) ltac:(width_lia)) as (q & Eq & Q & Q0).
    exists (- q). rewrite (Z.sgn_neg n), Z.quot_opp_r in * by lia. split; [|lia].
    rewrite <- outcome_neg, <- Eq. rewrite <- (i32_id (- n)) by width_lia.
    cbn [Amount_div_fuel]. by rewrite (proj2 (Z.eqb_neq 0 n)), (proj2 (Z.ltb_lt n 0)) by lia.
  - destruct (Amount_div_pos 1 a n Ha Ma ltac:(lia) Hr) as (q & Eq & Q & Q0).
    exists q. rewrite (Z.sgn_pos n), !Z.mul_1_r by lia. auto.
Qed.

(** ** Compound assignment *)

Lemma Amount_add_assign_weak a b :
  Amount_weak a → Amount_weak b →
  Amount_weak (Amount_add_assign a b) ∧
  Amount_of_units (val (Amount_add_assign a b)) = Amount_of_units (val a + val b).
Proof.
  destruct a as [i f], b as [j g]. intros Ha Hb. unfold Amount_add_assign; cbn [integral_ fraction_].
  case_test; (split; [amount_lia|unfold Amount_of_units; f_equal; amount_lia]).
Qed.

Lemma Amount_sub_assign_weak a b :
  Amount_weak a → Amount_weak b →
  Amount_weak (Amount_sub_assign a b) ∧
  Amount_of_units (val (Amount_sub_assign a b)) = Amount_of_units (val a - val b).
Proof.
  destruct a as [i f], b as [j g]. intros Ha Hb. unfold Amount_sub_assign; cbn [integral_ fraction_].
  case_test; (split; [amount_lia|unfold Amount_of_units; f_equal; amount_lia]).
Qed.

Lemma of_units_inj x y : units_ok x → units_ok y → Amount_of_units x = Amount_of_units y → x = y.
Proof. intros Hx Hy E. by rewrite <- (val_of_units x), <- (val_of_units y), E. Qed.

(** ** Serialisation *)

Definition c_amount : codec Amount := Codec Amount_put Amount_get Amount_repr.

#[export] Instance c_amount_laws : CodecLaws c_amount.
Proof.
  apply (iso_laws (c_pair (c_sint 4) (c_uint 8)) c_amount
           (λ p, mkAmount p.1 p.2) (λ a, (integral_ a, fraction_ a))).
  - apply _.
  - by intros [].
  - by intros [].
  - done.
  - intros ibs. simpl. unfold Amount_get. same_reads.
Qed.

(** ** Text *)

Lemma drop_zeros_spec n rF rD :
  (n <= length rF)%nat →
  ∃ z rF', (z <= n)%nat ∧ rF = replicate z 48 ++ rF' ∧
           drop_zeros n (rF ++ 46 :: rD) = rF' ++ 46 :: rD.
Proof.
  revert rF. induction n as [|n IH]; intros rF Hn; [by exists 0%nat, rF|].
  destruct rF as [|c rF]; [simpl in Hn; lia|]. cbn [app drop_zeros].
  destruct (Z.eqb_spec c 48) as [->|Hc].
  - destruct (IH rF) as (z & rF' & Hz & -> & E); [simpl in Hn; lia|].
    exists (S z), rF'. split; [lia|]. done.
  - exists 0%nat, (c :: rF). split; [lia|]. done.
Qed.

Lemma drop_zeros_snoc n r c : c ≠ 48 → drop_zeros n (r ++ [c]) = drop_zeros n r ++ [c].
Proof.
  intros Hc. revert r. induction n as [|n IH]; intros [|x r]; try done; cbn [app drop_zeros].
  - by rewrite (proj2 (Z.eqb_neq c 48)).
  - case_test; [apply IH|done].
Qed.

Lemma drop_point_snoc r c : c ≠ 46 → drop_point (r ++ [c]) = drop_point r ++ [c].
Proof.
  intros Hc. destruct r as [|x r]; cbn [app drop_point]; [by rewrite (proj2 (Z.eqb_neq c 46))|].
  by case_test.
Qed.

(** Dropping trailing zeros of a fraction, and the point when nothing is left. *)
Lemma strip_shape n D F :
  (n <= length F)%nat → Forall (is_digit 10) F →
  ∃ F' z, F = F' ++ replicate z 48 ∧ (z <= n)%nat ∧
    rev (drop_point (drop_zeros n (rev (D ++ 46 :: F))))
    = D ++ (if decide (F' = []) then [] else 46 :: F').
Proof.
  intros Hn DF.
  replace (rev (D ++ 46 :: F)) with (rev F ++ 46 :: rev D)
    by (rewrite rev_app_distr; cbn; by rewrite <- app_assoc).
  destruct (drop_zeros_spec n (rev F) (rev D)) as (z & rF & Hz & EF & ->); [by rewrite length_rev|].
  assert (F = rev rF ++ replicate z 48) as EF'.
  { by rewrite <- (rev_involutive F), EF, rev_app_distr, rev_replicate. }
  exists (rev rF), z. split; [done|]. split; [done|].
  destruct rF as [|c rF]; [cbn; by rewrite rev_involutive, app_nil_r|].
  rewrite decide_False by (cbn; by intros [_ ?]%app_eq_nil).
  rewrite EF', Forall_app in DF. destruct DF as [DF _]. cbn [rev] in DF.
  rewrite Forall_app, Forall_singleton in DF. destruct DF as [_ Dc%is_digit_bounds].
  cbn [app drop_point]. rewrite (proj2 (Z.eqb_neq c 46)) by lia.
  rewrite app_comm_cons, rev_app_distr. cbn.
  rewrite rev_involutive, <- app_assoc. done.
Qed.

(** The text of a non-negative amount: the integral part, and the fraction
    without some trailing zeros. *)
Lemma to_string_shape a k :
  Amount_ok a → 0 <= val a →
  ∃ F z, (z <= 18 - Nat.min k 18)%nat ∧ (length F + z = 18)%nat ∧
    Forall (is_digit 10) F ∧ decval F * 10 ^ Z.of_nat z = fraction_ a ∧
    Amount_to_string a k
    = print_unsigned (integral_ a) ++ (if decide (F = []) then [] else 46 :: F).
Proof.
  intros Ha Va. assert (0 <= integral_ a) as Hi by amount_lia. destruct Ha as [_ Hf].
  unfold Amount_to_string, print_int. rewrite (proj2 (Z.ltb_ge (integral_ a) 0)) by lia. cbn [andb].
  assert (Forall (is_digit 10) (print_unsigned (fraction_ a))) as Dp by (apply print_unsigned_digits; lia).
  assert (length (pad_left 48 18 (print_unsigned (fraction_ a))) = 18%nat) as LF.
  { apply length_pad_left, length_print_base; [lia|exact Hf|lia]. }
  assert (Forall (is_digit 10) (pad_left 48 18 (print_unsigned (fraction_ a)))) as DF
    by (by apply pad_digits).
  destruct (strip_shape (18 - Nat.min k 18) (print_unsigned (integral_ a)) _ ltac:(rewrite LF; lia) DF)
    as (F & z & EF & Hz & ->).
  exists F, z. rewrite EF in LF, DF. rewrite length_app, length_replicate in LF.
  apply Forall_app in DF as [DF Dz]. repeat split; try done.
  rewrite <- (decval_print (fraction_ a)), <- (decval_pad 18 (print_unsigned (fraction_ a))), EF by (done || lia).
  rewrite decval_app, decval_zeros, length_replicate by done. lia.
Qed.

Lemma amount_fraction_digits c F w :
  is_digit 10 c → Forall (is_digit 10) F → 0 < w → 10 ^ Z.of_nat (S (length F)) * w <= 2 ^ 64 →
  amount_fraction (10 ^ Z.of_nat (length F) * w) (c :: F) = Some (decval (c :: F) * w).
Proof.
  intros Hc HF Hw. revert c Hc. induction HF as [|c' F Hc' HF IH]; intros c Hc Hle.
  - rewrite decval_cons by done. cbn [amount_fraction length] in *. f_equal.
    change (decval []) with 0. change (10 ^ Z.of_nat 0) with 1. change (10 ^ Z.of_nat 1) with 10 in Hle.
    apply is_digit_bounds in Hc. rewrite u64_id by (unfold_widths; nia). lia.
  - pose proof (decval_range (c :: c' :: F) ltac:(by repeat constructor)) as Hr.
    change (amount_fraction ?m (c :: c' :: F))
      with (v ← amount_fraction (m / 10) (c' :: F); Some (u64 ((c - 48) * m + v))).
    cbn [length] in *. set (L := 10 ^ Z.of_nat (length F) * w) in *.
    rewrite !Nat2Z.inj_succ, !Z.pow_succ_r in * by lia.
    replace (10 * 10 ^ Z.of_nat (length F) * w) with (L * 10) by lia.
    rewrite Z.div_mul by done. rewrite IH by (done || lia). simpl. f_equal.
    rewrite (decval_cons c) by (done || by constructor). cbn [length].
    rewrite decval_cons in Hr by (done || by constructor). cbn [length] in Hr.
    rewrite Nat2Z.inj_succ, Z.pow_succ_r in * by lia. rewrite u64_id; [lia|]. unfold_widths. nia.
Qed.

Lemma amount_full_digits D s f :
  Forall (is_digit 10) D → (length D <= 18)%nat → amount_full s = Some (0, 1, f) →
  amount_full (D ++ s) = Some (decval D, 10 ^ Z.of_nat (length D), f).
Proof.
  intros HD. induction HD as [|c D Hc HD IH]; intros Hl Hs; [done|].
  pose proof (decval_range (c :: D) ltac:(by constructor)) as Hr.
  rewrite decval_cons in * by done. pose proof (is_digit_bounds c Hc).
  cbn [app amount_full length] in *. rewrite (proj2 (Z.eqb_neq c 46)) by lia.
  rewrite IH by (done || lia). simpl.
  assert (10 ^ Z.of_nat (S (length D)) <= 10 ^ 18) by (apply Z.pow_le_mono_r; lia).
  rewrite Nat2Z.inj_succ, Z.pow_succ_r in * by lia. change (10 ^ 18) with 1000000000000000000 in *.
  rewrite !u64_id by (unfold_widths; nia). do 3 f_equal; lia.
Qed.

(** The literal with the digits of an amount is the amount. *)
Lemma Amount_literal_digits a c F :
  Amount_ok a → 0 <= val a → Forall (is_digit 10) (c :: F) → (length (c :: F) <= 18)%nat →
  decval (c :: F) * 10 ^ (18 - Z.of_nat (length (c :: F))) = fraction_ a →
  Amount_literal (print_unsigned (integral_ a) ++ 46 :: c :: F) = Some a.
Proof.
  intros Ha Va HF Hl Ef. assert (0 <= integral_ a) as Hi by amount_lia.
  apply Forall_cons in HF as [Hc HF]. cbn [length] in *.
  set (w := 10 ^ (18 - Z.of_nat (S (length F)))) in *.
  assert (0 < w) as Hw by (apply Z.pow_pos_nonneg; lia).
  assert (10 ^ Z.of_nat (S (length F)) * w = 10 ^ 18) as Ew
    by (unfold w; rewrite <- Z.pow_add_r by lia; f_equal; lia).
  clearbody w.
  assert (amount_full (46 :: c :: F) = Some (0, 1, fraction_ a)) as Es.
  { cbn [amount_full]. change (46 =? 46) with true. cbn iota.
    replace (AMOUNT_MAX_FRACTION / 10) with (10 ^ Z.of_nat (length F) * w).
    2: { rewrite Nat2Z.inj_succ, Z.pow_succ_r in Ew by lia.
         change (AMOUNT_MAX_FRACTION / 10) with (10 ^ 17). change (10 ^ 18) with (10 * 10 ^ 17) in Ew. lia. }
    assert (10 ^ Z.of_nat (S (length F)) * w <= 2 ^ 64) as Hle by (rewrite Ew; vm_compute; discriminate).
    rewrite (amount_fraction_digits c F w Hc HF Hw Hle).
    simpl. by rewrite Ef. }
  unfold Amount_literal. rewrite (amount_full_digits _ _ (fraction_ a)); [|by apply print_unsigned_digits| |done].
  - simpl. rewrite decval_print, i32_id by (done || apply Ha). by destruct a.
  - etransitivity; [apply (length_print_base 10 _ 10)|]; [lia| |lia|lia]. amount_lia.
Qed.

Lemma Amount_to_string_neg a k :
  Amount_ok a → a ≠ Amount_min → val a < 0 →
  Amount_to_string a k = 45 :: Amount_to_string (Amount_neg a) k.
Proof.
  intros Ha Ma Va. destruct (Amount_neg_val a Ha Ma) as [Hn En].
  assert (∀ n b, rev (drop_point (drop_zeros n (rev (45 :: b)))) = 45 :: rev (drop_point (drop_zeros n (rev b)))) as Hs.
  { intros n b. cbn [rev]. by rewrite drop_zeros_snoc, drop_point_snoc, rev_app_distr. }
  unfold Amount_to_string. rewrite <- Hs. do 4 f_equal.
  rewrite !Amount_sign, En by assumption.
  rewrite (proj2 (Z.ltb_lt (val a) 0)), (proj2 (Z.ltb_ge (- val a) 0)) by lia.
  assert (0 <= integral_ (Amount_neg a)) as Hi by amount_lia.
  unfold print_int. rewrite (proj2 (Z.ltb_ge (integral_ (Amount_neg a)) 0)) by exact Hi.
  cbn [andb]. unfold Amount_neg, Amount_of_int in *.
  destruct (Z.eqb_spec 0 (fraction_ a)) as [F0|F0]; cbn [negb integral_ fraction_] in *.
  - rewrite Amount_sign by exact Ha. rewrite (proj2 (Z.ltb_lt (val a) 0)) by exact Va.
    rewrite <- F0. rewrite i32_id by amount_lia. done.
  - rewrite (proj2 (Z.ltb_ge (i32 (-1 - integral_ a)) 0)) by amount_lia.
    by replace (- integral_ a - 1) with (-1 - integral_ a) by lia.
Qed.

(** ** Properties *)

(** C29: addition, subtraction and negation of amounts in normal form are exact
    on the number of units, their integral part reduced to 32 bits, and their
    results are in normal form; the order of amounts is the order of the
    numbers of units. *)
Theorem Amount_ring_exact a b :
  Amount_ok a → Amount_ok b →
  Amount_add a b = Amount_of_units (val a + val b) ∧
  Amount_sub a b = Amount_of_units (val a - val b) ∧
  Amount_neg a = Amount_of_units (- val a) ∧
  Amount_ltb a b = (val a <? val b) ∧ Amount_gtb a b = (val b <? val a) ∧
  Amount_eqb a b = (val a =? val b).
Proof.
  intros Ha Hb. split; [by apply Amount_add_units|]. split; [by apply Amount_sub_units|].
  split; [by apply Amount_neg_units|].
  destruct a as [i f], b as [j g]. unfold Amount_ltb, Amount_gtb, Amount_eqb; cbn [integral_ fraction_].
  repeat split; repeat case_test; simpl; try done; amount_lia.
Qed.

Lemma Amount_ring_exact_witness :
  Amount_add (mkAmount (-3) 600000000000000000) (mkAmount 1 700000000000000000)
  = mkAmount (-1) 300000000000000000.
Proof.
  assert (Amount_ok (mkAmount (-3) 600000000000000000)) as Ha by (split; vm_compute; split; discriminate || done).
  assert (Amount_ok (mkAmount 1 700000000000000000)) as Hb by (split; vm_compute; split; discriminate || done).
  destruct (Amount_ring_exact _ _ Ha Hb) as [E _]. rewrite E. reflexivity.
Defined.

(** The product of two amounts is the exact product truncated towards zero
    at the eighteenth decimal, and the recursion on the signs ends, unless an
    operand is the least amount -2^31. *)
Theorem Amount_mul_exact a b :
  Amount_ok a → Amount_ok b → a ≠ Amount_min → b ≠ Amount_min →
  Amount_mul a b = Some (Ok (Amount_of_units (Z.quot (val a * val b) AMOUNT_MAX_FRACTION))).
Proof. apply Amount_mul_units. Qed.

Lemma Amount_mul_exact_witness :
  Amount_mul (mkAmount (-2) 500000000000000000) (mkAmount 2 500000000000000001)
  = Some (Ok (mkAmount (-4) 249999999999999999)).
Proof. rewrite Amount_mul_exact; [reflexivity|..]; try (by intros [=]); split; vm_compute; split; discriminate || done. Defined.

(** Multiplying the least amount never returns: negation leaves it
    unchanged, so that the recursion on its sign has no end, whatever the
    number of calls allowed. *)
Theorem Amount_mul_least_diverges fuel b : Amount_mul_fuel fuel Amount_min b = None.
Proof. apply Amount_mul_min_none. Qed.

(** Dividing an amount by an integer gives the quotient truncated towards
    zero, or one unit nearer to zero; it throws exactly on a zero divisor. *)
Theorem Amount_div_correct a n :
  Amount_ok a → a ≠ Amount_min → is_i32 n → n ≠ - 2 ^ 31 →
  if n =? 0 then Amount_div a n = Some (Throw overflow_error)
  else ∃ r, Amount_div a n = Some (Ok r) ∧ Amount_ok r ∧
       (val r = Z.quot (val a) n ∨ val r = Z.quot (val a) n - Z.sgn (val a) * Z.sgn n).
Proof.
  intros Ha Ma Hn Mn. destruct (Z.eqb_spec n 0) as [->|N0]; [done|].
  destruct (Amount_div_units a n Ha Ma Hn N0 Mn) as (q & E & Q & Q0).
  exists (Amount_of_units q). split; [exact E|]. split; [apply Amount_of_units_ok|].
  rewrite val_of_units; [exact Q|].
  apply val_units_ok in Ha as Hu.
  assert (val a ≠ - 2 ^ 31 * AMOUNT_MAX_FRACTION) as Hv.
  { intros Hv. apply Ma. rewrite <- (of_units_val a Ha), Hv. reflexivity. }
  assert (Z.abs (Z.quot (val a) n) <= Z.abs (val a)) as Hq.
  { rewrite <- Z.quot_abs by exact N0. apply Z.quot_le_upper_bound; nia. }
  unfold units_ok in *. change (- 2 ^ 31) with (- (2 ^ 31)) in *. set (L := 2 ^ 31 * AMOUNT_MAX_FRACTION) in *.
  destruct (Z.sgn_spec (val a)) as [[? S1]|[[? S1]|[? S1]]], (Z.sgn_spec n) as [[? S2]|[[? S2]|[? S2]]];
    rewrite S1, S2 in *; lia.
Qed.

Lemma Amount_div_correct_witness :
  ∃ r, Amount_div (mkAmount 1 2) 3 = Some (Ok r) ∧ Amount_ok r ∧
       (val r = 333333333333333334 ∨ val r = 333333333333333333).
Proof.
  assert (Amount_ok (mkAmount 1 2)) as Ha by (split; vm_compute; split; discriminate || done).
  apply (Amount_div_correct (mkAmount 1 2) 3 Ha); [by intros [=]|split; done|done].
Defined.

(** When no sum overflows, [a += b] keeps the number of units exact, but stores [a + b] in normal
    form only when the fractions do not add up to exactly one: then the
    fraction is left at one whole unit, and the result is not in normal form. *)
Theorem Amount_add_assign_correct a b :
  Amount_ok a → Amount_ok b → is_i32 (integral_ a + integral_ b) → units_ok (val a + val b) →
  val (Amount_add_assign a b) = val a + val b ∧
  (Amount_add_assign a b = Amount_add a b ↔ fraction_ a + fraction_ b ≠ AMOUNT_MAX_FRACTION).
Proof.
  destruct a as [i f], b as [j g]. intros Ha Hb Hs Hu.
  unfold Amount_add_assign, Amount_add; cbn [integral_ fraction_].
  rewrite (u64_id (f + g)) by amount_lia.
  destruct (Z.ltb_spec AMOUNT_MAX_FRACTION (f + g)), (Z.leb_spec AMOUNT_MAX_FRACTION (f + g));
    (split; [amount_lia|split]); try lia.
  - intros. by assert (i32 (i32 (i + j) + 1) = i32 (i + j + 1)) as -> by width_lia.
  - intros [=]. amount_lia.
  - done.
Qed.

Lemma Amount_add_assign_correct_witness :
  val (Amount_add_assign (mkAmount 0 500000000000000000) (mkAmount 0 500000000000000000))
  = AMOUNT_MAX_FRACTION ∧
  Amount_eqb (Amount_add_assign (mkAmount 0 500000000000000000) (mkAmount 0 500000000000000000))
    (mkAmount 1 0) = false.
Proof.
  assert (Amount_ok (mkAmount 0 500000000000000000)) as Ha by (split; vm_compute; split; discriminate || done).
  split; [|reflexivity].
  apply (Amount_add_assign_correct _ _ Ha Ha); vm_compute; split; discriminate || done.
Defined.

(** [to_string] prints the decimal expansion of the amount: read back as a
    literal, the text of a non-negative amount gives the amount (a text without a
    point is that of an integer, and only printed when no decimal is asked for),
    and the text of a negative one is a minus sign and the text of its opposite. *)
Theorem Amount_to_string_correct a k :
  Amount_ok a → a ≠ Amount_min →
  if val a <? 0 then Amount_to_string a k = 45 :: Amount_to_string (Amount_neg a) k
  else Amount_literal (Amount_to_string a k) = Some a ∨
       k = 0%nat ∧ fraction_ a = 0 ∧ Amount_to_string a k = print_unsigned (integral_ a).
Proof.
  intros Ha Ma. destruct (Z.ltb_spec (val a) 0) as [Va|Va]; [by apply Amount_to_string_neg|].
  destruct (to_string_shape a k Ha Va) as (F & z & Hz & Hl & HF & Ef & ->).
  destruct F as [|c F].
  - right. rewrite decide_True by done. rewrite app_nil_r.
    change (decval []) with 0 in Ef. simpl in Hl. repeat split; lia.
  - left. rewrite decide_False by done. apply Amount_literal_digits; try done; [simpl in *; lia|].
    rewrite <- Ef. do 2 f_equal. simpl in *. lia.
Qed.

Lemma Amount_to_string_correct_witness :
  Amount_to_string (mkAmount (-2) 250000000000000000) 2 = str "-1.75".
Proof.
  assert (Amount_ok (mkAmount (-2) 250000000000000000)) as Ha by (split; vm_compute; split; discriminate || done).
  pose proof (Amount_to_string_correct _ 2 Ha ltac:(by intros [=])) as H.
  change (val _ <? 0) with true in H. cbn iota in H. rewrite H. reflexivity.
Defined.

(** The ratio constructor rounds to the nearest unit, and throws exactly
    when the denominator is zero or the rounded fraction is one or more. *)
Theorem Amount_of_ratio_correct i n d :
  is_i32 i → is_u64 n → is_u64 d →
  match Amount_of_ratio i n d with
  | Ok a => Amount_ok a ∧ integral_ a = i ∧ d ≠ 0 ∧
            2 * Z.abs (fraction_ a * d - n * AMOUNT_MAX_FRACTION) <= d
  | Throw overflow_error => d = 0
  | Throw invalid_argument => d ≠ 0 ∧ AMOUNT_MAX_FRACTION * d <= n * AMOUNT_MAX_FRACTION + d / 2
  | Throw _ => False
  end.
Proof.
  intros Hi Hn Hd. unfold Amount_of_ratio. destruct (Z.eq_dec d 0) as [->|D0]; [done|].
  destruct (u128_mul_value n AMOUNT_MAX_FRACTION Hn max_fraction_u64) as [Hok Hv].
  destruct (u128_add64_nocarry (u128_mul n AMOUNT_MAX_FRACTION) (d / 2)) as [Hok' Hv'];
    [done|width_lia|rewrite Hv; amount_lia|].
  destruct (u128_div_value _ d Hok' Hd D0) as (q & r & -> & Hq & Eq & _).
  rewrite bind_Ok. cbn [quotient_]. rewrite Hv', Hv in Eq.
  assert (0 < d) by (unfold_widths; lia).
  pose proof (Z.div_mod (n * AMOUNT_MAX_FRACTION + d / 2) d D0).
  pose proof (Z.mod_pos_bound (n * AMOUNT_MAX_FRACTION + d / 2) d ltac:(lia)).
  rewrite <- Eq in *. unfold Amount_check_fraction, u128_value, u128_ok in *.
  destruct (Z.eqb_spec 0 (hi_ q)) as [Hh|Hh], (Z.leb_spec AMOUNT_MAX_FRACTION (lo_ q)); simpl.
  - split; [done|]. rewrite <- Hh in *. nia.
  - rewrite <- Hh in *. split; [|split; [done|split; [done|]]].
    + unfold Amount_ok. simpl. unfold_widths. lia.
    + rewrite Z.mul_0_r, Z.add_0_r in *. Z.to_euclidean_division_equations. nia.
  - split; [done|]. unfold_widths. unfold AMOUNT_MAX_FRACTION in *. nia.
  - split; [done|]. unfold_widths. unfold AMOUNT_MAX_FRACTION in *. nia.
Qed.

Lemma Amount_of_ratio_correct_witness :
  ∃ a, Amount_of_ratio 7 2 3 = Ok a ∧ 2 * Z.abs (fraction_ a * 3 - 2 * AMOUNT_MAX_FRACTION) <= 3.
Proof.
  pose proof (Amount_of_ratio_correct 7 2 3 ltac:(split; done) ltac:(split; done) ltac:(split; done)) as H.
  destruct (Amount_of_ratio 7 2 3) as [a|e] eqn:E; [|vm_compute in E; discriminate].
  exists a. split; [done|apply H].
Defined.
