(* ===== verification/Doubles.v ===== *)
(** * Doubles: the binary64 arithmetic that amounts use

    The operations of [double] are those of the Standard Library's [SpecFloat]
    with 53 bits of precision, rounding to nearest even; they are functions on
    integers and can be evaluated.  The lemmas say what the sums, products and
    quotients of the code are worth: the exact result, up to less than one unit in
    the last place, and exactly it when it can be represented. *)
From S2P Require Import Prelude.
From Stdlib Require Import Floats.SpecFloat.

(** ** Operations *)

Abbreviation double := spec_float.

Definition dadd : double → double → double := SFadd 53 1024.
Definition dsub : double → double → double := SFsub 53 1024.
Definition dmul : double → double → double := SFmul 53 1024.
Definition ddiv : double → double → double := SFdiv 53 1024.

(** [static_cast<double>] of an integer. *)
Definition double_of_int (z : Z) : double := binary_normalize 53 1024 z 0 false.

(** The number without its fraction; none for infinities and NaN. *)
Definition double_trunc (f : double) : option Z :=
  match f with
  | S754_zero _ => Some 0
  | S754_finite s m e => Some (cond_Zopp s (if 0 <=? e then Zpos m * 2 ^ e else Zpos m / 2 ^ (- e)))
  | _ => None
  end.

(** ** The number of a double *)

(** Powers of two in units of [2^-1200]. *)
Definition pw (e : Z) : Z := 2 ^ (e + 1200).

Definition units (f : double) : Z :=
  match f with
  | S754_finite s m e => cond_Zopp s (Zpos m * pw e)
  | _ => 0
  end.

(** Zero, or finite and below [2^953], which no number of the code reaches. *)
Definition is_finite (f : double) : Prop :=
  match f with
  | S754_zero _ => True
  | S754_finite _ _ e => -1074 <= e <= 900
  | _ => False
  end.

Lemma pw_pos e : -1200 <= e → 0 < pw e.
Proof. intros H. apply Z.pow_pos_nonneg; lia. Qed.

Lemma pw_add e n : -1200 <= e → 0 <= n → pw (e + n) = pw e * 2 ^ n.
Proof. intros He Hn. unfold pw. rewrite <- Z.pow_add_r by lia. f_equal. lia. Qed.

Lemma pw_le a b : a <= b → pw a <= pw b.
Proof. intros H. unfold pw. apply Z.pow_le_mono_r; lia. Qed.

Lemma pw_lt_inv a b : -1200 <= b → pw a < pw b → a < b.
Proof. intros Hb H. unfold pw in H. apply Z.pow_lt_mono_r_iff in H; lia. Qed.

Lemma pw_divide a b : -1200 <= a <= b → (pw a | pw b).
Proof. intros H. replace b with (a + (b - a)) by lia. rewrite pw_add by lia. by apply Z.divide_factor_l. Qed.

Lemma digits_range m : 2 ^ (Zpos (digits2_pos m) - 1) <= Zpos m < 2 ^ Zpos (digits2_pos m).
Proof.
  induction m as [m IH|m IH|]; cbn [digits2_pos]; [| |done];
    rewrite Pos2Z.inj_succ, <- Z.add_1_r, Z.add_simpl_r, Z.pow_add_r by lia;
    (replace (Zpos (digits2_pos m)) with (Zpos (digits2_pos m) - 1 + 1) in * by lia);
    rewrite Z.add_simpl_r in IH; rewrite Z.pow_add_r in * by lia; lia.
Qed.

(** ** Rounding *)

(** Whether bits have been shifted out. *)
Definition lost (r : shr_record) : bool := shr_r r || shr_s r.

(** The record stands for [x] cut to multiples of [p]. *)
Definition cut (r : shr_record) (p x : Z) : Prop :=
  0 <= shr_m r ∧ shr_m r * p <= x < (shr_m r + 1) * p ∧ (lost r = false ↔ x = shr_m r * p).

Lemma cut_shr_1 r p x : 0 < p → cut r p x → cut (shr_1 r) (2 * p) x.
Proof.
  destruct r as [m r s]. unfold cut, lost. cbn [shr_m shr_r shr_s]. intros Hp (Hm & Hx & Hl).
  assert (E : shr_m (shr_1 {| shr_m := m; shr_r := r; shr_s := s |}) = m / 2 ∧
    shr_r (shr_1 {| shr_m := m; shr_r := r; shr_s := s |}) = (m mod 2 =? 1) ∧
    shr_s (shr_1 {| shr_m := m; shr_r := r; shr_s := s |}) = r || s).
  { destruct m as [|[q|q|]|q]; [done| | |done|lia]; (split; [|split; [|done]]); cbn [shr_1 shr_m shr_r].
    - apply (Z.div_unique _ _ _ 1); lia.
    - symmetry. apply Z.eqb_eq. symmetry. apply (Z.mod_unique _ _ (Zpos q)); lia.
    - apply (Z.div_unique _ _ _ 0); lia.
    - symmetry. apply Z.eqb_neq. rewrite <- (Z.mod_unique (Zpos q~0) 2 (Zpos q) 0); lia. }
  destruct E as (-> & -> & ->). pose proof (Z.div_mod m 2 ltac:(lia)) as D. pose proof (Z.mod_pos_bound m 2 ltac:(lia)) as B.
  set (q := m / 2) in *. set (b := m mod 2) in *. clearbody q b. subst m. split; [lia|]. split; [nia|].
  rewrite orb_false_iff, Z.eqb_neq, Hl. split; [intros [Hb ->]; assert (b = 0) by lia; nia|].
  intros ->. assert (b = 0) by nia. nia.
Qed.

Lemma iter_pos_nat {A} (f : A → A) n x : SpecFloat.iter_pos f n x = Nat.iter (Pos.to_nat n) f x.
Proof.
  assert (Hadd : ∀ a b x, Nat.iter (a + b) f x = Nat.iter a f (Nat.iter b f x)).
  { intros a b y. induction a as [|a IH]; [done|]. cbn [Nat.add Nat.iter nat_rect]. exact (f_equal f IH). }
  revert x. induction n as [n IH|n IH|]; intros x; cbn [SpecFloat.iter_pos]; [| |done].
  - rewrite !IH. change (Nat.iter (Pos.to_nat n) f (f x)) with (Nat.iter (Pos.to_nat n) f (Nat.iter 1 f x)).
    rewrite <- !Hadd. f_equal. lia.
  - rewrite !IH, <- Hadd. f_equal. lia.
Qed.

Lemma cut_shr r e n p x : 0 < p → 0 <= n → cut r p x → ∃ r', shr r e n = (r', e + n) ∧ cut r' (p * 2 ^ n) x.
Proof.
  intros Hp Hn Hc. destruct n as [|n|n]; [|clear Hn|lia].
  - exists r. cbn [shr]. by rewrite Z.add_0_r, Z.mul_1_r.
  - cbn [shr]. eexists. split; [done|]. rewrite iter_pos_nat. rewrite <- (positive_nat_Z n).
    induction (Pos.to_nat n) as [|k IH]; [by rewrite Z.mul_1_r|]. cbn [Nat.iter nat_rect].
    rewrite Nat2Z.inj_succ, Z.pow_succ_r by lia. replace (p * (2 * 2 ^ Z.of_nat k)) with (2 * (p * 2 ^ Z.of_nat k)) by lia.
    by apply cut_shr_1; [lia|].
Qed.

Lemma cut_round r p x : 0 < p → cut r p x →
  let q := round_nearest_even (shr_m r) (loc_of_shr_record r) in
  shr_m r <= q <= shr_m r + 1 ∧ Z.abs (q * p - x) < p.
Proof.
  intros Hp (Hm & Hx & Hl) q.
  assert (Hq : q = shr_m r ∨ (lost r = true ∧ q = shr_m r + 1)).
  { unfold q, lost. destruct r as [m [|] [|]]; cbn [loc_of_shr_record round_nearest_even shr_m shr_r shr_s orb];
      [by right| |by left|by left]. destruct (Z.even m); [by left|by right]. }
  split; [lia|]. destruct Hq as [-> |[Hlost ->]]; [lia|].
  assert (x ≠ shr_m r * p) by (intros E; apply Hl in E; congruence). lia.
Qed.

(** [f] is a rounding of [x], which is below [2^k]: less than one unit in the last
    place away, and [x] itself where that has no digits below the last place. *)
Definition near (f : double) (x k : Z) : Prop :=
  is_finite f ∧ Z.abs (units f - x) < pw (k - 53) ∧ ((pw (k - 53) | x) → units f = x) ∧
  (0 <= x → 0 <= units f) ∧ (x <= 0 → units f <= 0).

Lemma fexp_eq e : fexp 53 1024 e = Z.max (e - 53) (-1074).
Proof. done. Qed.

Lemma multiples_near p a b : 0 < p → (p | a) → (p | b) → Z.abs (a - b) < p → a = b.
Proof.
  intros Hp [i ->] [j ->] H. rewrite <- Z.mul_sub_distr_r, Z.abs_mul, (Z.abs_eq p) in H by lia.
  assert (Z.abs (i - j) < 1) by (apply (Z.mul_lt_mono_pos_r p); lia). f_equal. lia.
Qed.

(** The mantissa that carries into a bit of its own is shifted once more. *)
Lemma renormalise s q E : 0 <= q <= 2 ^ 53 → -1074 <= E <= 899 →
  let '(mrs, e') := shr_fexp 53 1024 q E loc_Exact in
  let f := match shr_m mrs with
           | Z0 => S754_zero s
           | Zpos m => if Z.leb e' (1024 - 53) then S754_finite s m e' else S754_infinity s
           | _ => S754_nan
           end in
  is_finite f ∧ units f = cond_Zopp s (q * pw E).
Proof.
  intros Hq HE. unfold shr_fexp. rewrite fexp_eq. destruct q as [|m|m]; [| |lia].
  - cbn [Zdigits2 shr_record_of_loc]. destruct (Z.max (0 + E - 53) (-1074) - E) eqn:En; [|lia|]; cbn; by destruct s.
  - cbn [Zdigits2 shr_record_of_loc]. pose proof (digits_range m) as D. set (d := Zpos (digits2_pos m)) in *.
    destruct (Z.eq_dec (Zpos m) (2 ^ 53)) as [Em|Em].
    + assert (m = 9007199254740992%positive) as -> by lia. change d with 54.
      assert (Z.max (54 + E - 53) (-1074) - E = 1) as -> by lia. cbn [shr iter_pos shr_1 shr_m].
      rewrite (proj2 (Z.leb_le _ _)) by lia. cbn [units is_finite]. split; [lia|]. f_equal. rewrite pw_add by lia. lia.
    + assert (Hd : d <= 53). { assert (d - 1 < 53); [|lia]. apply (Z.pow_lt_mono_r_iff 2); lia. }
      destruct (Z.max (d + E - 53) (-1074) - E) eqn:En; [|lia|]; cbn [shr shr_m];
        (rewrite (proj2 (Z.leb_le _ _)) by lia; cbn [units is_finite]; split; [lia|done]).
Qed.

(** [x] is weighted with [w], for quotients that are not binary fractions. *)
Lemma round_aux_ok s m e l w x k :
  0 < w → cut (shr_record_of_loc (Zpos m) l) (pw e * w) x → -1200 <= e <= 900 →
  l = loc_Exact ∨ e <= fexp 53 1024 (Zpos (digits2_pos m) + e) → x < pw k * w → -1000 <= k <= 900 →
  ∃ f y, binary_round_aux 53 1024 s (Zpos m) e l = f ∧ is_finite f ∧ units f = cond_Zopp s y ∧ 0 <= y ∧
    Z.abs (y * w - x) < pw (k - 53) * w ∧ ((pw (k - 53) * w | x) → y * w = x).
Proof.
  intros Hw Hc He Hl Hx Hk. unfold binary_round_aux. unfold shr_fexp at 1. pose proof (digits_range m) as D. cbn [Zdigits2].
  set (d := Zpos (digits2_pos m)) in *. rewrite fexp_eq in *. set (E := Z.max (d + e - 53) (-1074)) in *.
  assert (Em : shr_m (shr_record_of_loc (Zpos m) l) = Zpos m) by (by destruct l as [|[]]).
  assert (Hpe : 0 < pw e) by (apply pw_pos; lia).
  pose proof Hc as (_ & Hmx & _). rewrite Em in Hmx.
  assert (Hde : d + e <= k).
  { assert (d + e - 1 < k); [|lia]. apply pw_lt_inv; [lia|]. replace (d + e - 1) with (e + (d - 1)) by lia.
    rewrite pw_add by lia. apply (Z.mul_lt_mono_pos_r w); [done|]. assert (0 < pw e * w) by nia. nia. }
  assert (HE : E <= k - 53) by lia. assert (HpE : pw E * w <= pw (k - 53) * w) by (apply Z.mul_le_mono_nonneg_r; [lia|by apply pw_le]).
  destruct (Z.le_gt_cases e E) as [Hle|Hgt].
  - destruct (cut_shr _ e (E - e) (pw e * w) x ltac:(nia) ltac:(lia) Hc) as (r & -> & Hr).
    replace (pw e * w * 2 ^ (E - e)) with (pw E * w) in Hr by (replace E with (e + (E - e)) at 1 by lia; rewrite pw_add by lia; lia).
    replace (e + (E - e)) with E by lia. assert (HP : 0 < pw E * w) by (assert (0 < pw E) by (apply pw_pos; lia); nia).
    destruct (cut_round r (pw E * w) x HP Hr) as [Hq Ha]. set (q := round_nearest_even _ _) in *. destruct Hr as (Hr0 & Hr & _).
    assert (Hq2 : shr_m r < 2 ^ 53).
    { apply (Z.mul_lt_mono_pos_r (pw E * w)); [done|]. rewrite (Z.mul_comm (2 ^ 53)), Z.mul_shuffle0, <- pw_add by lia.
      assert (pw (e + d) * w <= pw (E + 53) * w) by (apply Z.mul_le_mono_nonneg_r; [lia|apply pw_le; lia]).
      rewrite (pw_add e d) in * by lia. assert (0 < pw e * w) by nia. nia. }
    pose proof (renormalise s q E ltac:(lia) ltac:(lia)) as Hn.
    destruct (shr_fexp 53 1024 q E loc_Exact) as [mrs e']. destruct Hn as [Hf Hu]. eexists _, (q * pw E).
    rewrite <- Z.mul_assoc. split; [reflexivity|]. split; [exact Hf|]. split; [exact Hu|]. split; [nia|]. split; [lia|]. intros Hd.
    apply (multiples_near (pw E * w)); [done|by apply Z.divide_factor_r| |done].
    etransitivity; [|exact Hd]. apply Z.mul_divide_mono_r, pw_divide. lia.
  - destruct Hl as [-> |Hl]; [|lia]. assert (E - e < 0) by lia. cbn [shr_record_of_loc].
    destruct (E - e) as [|n|n] eqn:En; [lia|lia|]. cbn [shr shr_m loc_of_shr_record round_nearest_even].
    unfold shr_fexp. cbn [Zdigits2 shr_record_of_loc]. fold d. rewrite fexp_eq. fold E. rewrite En. cbn [shr shr_m].
    rewrite (proj2 (Z.leb_le _ _)) by lia. destruct Hc as (_ & _ & Hc). cbn [lost shr_r shr_s shr_m shr_record_of_loc orb] in Hc.
    assert (x = Zpos m * (pw e * w)) as -> by (by apply Hc). eexists _, (Zpos m * pw e). rewrite Z.mul_assoc. split; [reflexivity|].
    cbn [is_finite units]. split; [lia|]. split; [done|]. split; [lia|]. rewrite Z.sub_diag. split; [|done].
    assert (0 < pw (k - 53)) by (apply pw_pos; lia). cbn [Z.abs]. nia.
Qed.

Lemma near_signed s f y x k : is_finite f → units f = cond_Zopp s y → 0 <= y → 0 <= x →
  Z.abs (y - x) < pw (k - 53) → ((pw (k - 53) | x) → y = x) → near f (cond_Zopp s x) k.
Proof.
  intros Hf Hu Hy Hx Ha Hd. unfold near. rewrite Hu. split; [done|].
  assert (H0 : x = 0 → y = 0) by (intros ->; apply Hd, Z.divide_0_r).
  destruct s; cbn [cond_Zopp]; (split; [lia|]; split; [|lia]; intros H).
  - f_equal. apply Hd. exact (proj1 (Z.divide_opp_r _ _) H).
  - by apply Hd.
Qed.

Lemma iter_xO m n : Zpos (Pos.iter xO m n) = Zpos m * 2 ^ Zpos n.
Proof.
  rewrite <- (positive_nat_Z n), Pos2Nat.inj_iter. induction (Pos.to_nat n) as [|k IH]; [cbn; lia|].
  cbn [Nat.iter nat_rect]. rewrite Nat2Z.inj_succ, Z.pow_succ_r, Pos2Z.inj_xO, IH by lia. lia.
Qed.

Lemma shl_align_ok m e e' : -1200 <= e' →
  let '(mz, ez) := shl_align m e e' in ez = Z.min e e' ∧ Zpos mz * pw ez = Zpos m * pw e.
Proof.
  intros He. unfold shl_align. destruct (e' - e) as [|d|d] eqn:E; [split; [lia|done]|split; [lia|done]|].
  split; [lia|]. rewrite iter_xO, <- Z.mul_assoc. f_equal. rewrite Z.mul_comm, <- pw_add by lia. f_equal. lia.
Qed.

Lemma normalize_ok z e b k : -1200 <= e <= 900 → Z.abs z * pw e < pw k → -1000 <= k <= 900 →
  near (binary_normalize 53 1024 z e b) (z * pw e) k.
Proof.
  assert (Hr : ∀ s m, -1200 <= e <= 900 → Zpos m * pw e < pw k → -1000 <= k <= 900 →
    near (binary_round 53 1024 s m e) (cond_Zopp s (Zpos m * pw e)) k).
  { intros s m He Hx Hk. unfold binary_round. rewrite fexp_eq.
    pose proof (shl_align_ok m e (Z.max (Zpos (digits2_pos m) + e - 53) (-1074)) ltac:(lia)) as Hs.
    destruct (shl_align _ _ _) as [mz ez]. destruct Hs as [Ez Hs]. rewrite <- Hs in *.
    assert (Hpe : 0 < pw ez) by (apply pw_pos; lia).
    destruct (round_aux_ok s mz ez loc_Exact 1 (Zpos mz * pw ez) k) as (f & y & -> & Hf & Hu & Hy & Ha & Hd); [done| |lia|by left|lia|done|].
    - unfold cut, lost. cbn. rewrite Z.mul_1_r. split; [lia|]. split; [lia|]. done.
    - rewrite !Z.mul_1_r in *. apply (near_signed s f y); try done. lia. }
  intros He Hx Hk. destruct z as [|m|m]; cbn [binary_normalize].
  - cbn. assert (0 < pw (k - 53)) by (apply pw_pos; lia). repeat split; done || lia.
  - exact (Hr false m He Hx Hk).
  - change (Zneg m) with (- Zpos m). rewrite Z.mul_opp_l. exact (Hr true m He Hx Hk).
Qed.

(** ** The operations *)

Lemma near_exact f k : is_finite f → -1000 <= k → near f (units f) k.
Proof.
  intros Hf Hk. assert (0 < pw (k - 53)) by (apply pw_pos; lia). split; [done|]. rewrite Z.sub_diag. by repeat split.
Qed.

Lemma double_of_int_ok z k : Z.abs z < 2 ^ k → 0 <= k <= 900 → near (double_of_int z) (z * pw 0) k.
Proof.
  intros Hz Hk. apply normalize_ok; [lia| |lia]. rewrite <- (Z.add_0_l k), pw_add by lia.
  assert (0 < pw 0) by (by apply pw_pos). rewrite (Z.mul_comm (pw 0)). by apply Z.mul_lt_mono_pos_r.
Qed.

(** Integers below [2^53] are doubles. *)
Lemma double_of_int_exact z : Z.abs z < 2 ^ 53 → is_finite (double_of_int z) ∧ units (double_of_int z) = z * pw 0.
Proof.
  intros Hz. destruct (double_of_int_ok z 53 Hz ltac:(lia)) as (Hf & _ & He & _). split; [done|]. apply He, Z.divide_factor_r.
Qed.

Lemma aligned s m e e' : -1200 <= e' <= e → cond_Zopp s (Zpos (fst (shl_align m e e'))) * pw e' = cond_Zopp s (Zpos m * pw e).
Proof.
  intros He. pose proof (shl_align_ok m e e' ltac:(lia)) as H. destruct (shl_align m e e') as [mz ez]. destruct H as [-> H].
  rewrite Z.min_r in H by lia. cbn [fst]. rewrite <- H. destruct s; cbn [cond_Zopp]; lia.
Qed.

Lemma dadd_ok x y k : is_finite x → is_finite y → Z.abs (units x + units y) < pw k → -1000 <= k <= 900 →
  near (dadd x y) (units x + units y) k.
Proof.
  intros Hx Hy Hs Hk. destruct x as [sx|sx| |sx mx ex], y as [sy|sy| |sy my ey]; try done; cbn [dadd SFadd units is_finite] in *.
  - destruct sx, sy; apply (near_exact (S754_zero _)); done || lia.
  - rewrite Z.add_0_l. apply (near_exact (S754_finite sy my ey)); [done|lia].
  - rewrite Z.add_0_r. apply (near_exact (S754_finite sx mx ex)); [done|lia].
  - set (ez := Z.min ex ey). rewrite <- (aligned sx mx ex ez), <- (aligned sy my ey ez), <- Z.mul_add_distr_r in * by lia.
    apply normalize_ok; [lia| |lia]. by rewrite Z.abs_mul, (Z.abs_eq (pw ez)) in Hs by (apply Z.pow_nonneg; lia).
Qed.

Lemma dsub_ok x y k : is_finite x → is_finite y → Z.abs (units x - units y) < pw k → -1000 <= k <= 900 →
  near (dsub x y) (units x - units y) k.
Proof.
  intros Hx Hy Hs Hk. destruct x as [sx|sx| |sx mx ex], y as [sy|sy| |sy my ey]; try done; cbn [dsub SFsub units is_finite] in *.
  - destruct sx, sy; apply (near_exact (S754_zero _)); done || lia.
  - rewrite Z.sub_0_l. replace (- cond_Zopp sy (Zpos my * pw ey)) with (units (S754_finite (negb sy) my ey)) by (destruct sy; cbn; lia).
    apply near_exact; [done|lia].
  - rewrite Z.sub_0_r. apply (near_exact (S754_finite sx mx ex)); [done|lia].
  - set (ez := Z.min ex ey). rewrite <- (aligned sx mx ex ez), <- (aligned sy my ey ez), <- Z.mul_sub_distr_r in * by lia.
    apply normalize_ok; [lia| |lia]. by rewrite Z.abs_mul, (Z.abs_eq (pw ez)) in Hs by (apply Z.pow_nonneg; lia).
Qed.

Lemma pw_mul a b : -1200 <= a → -1200 <= b → -1200 <= a + b → pw a * pw b = pw (a + b) * pw 0.
Proof. intros Ha Hb Hab. unfold pw. rewrite <- !Z.pow_add_r by lia. f_equal. lia. Qed.

(** The product by a number with few digits after the point. *)
Lemma dmul_ok x sy my ey p k : is_finite x → -126 <= ey <= 0 →
  p * pw 0 = units x * units (S754_finite sy my ey) → Z.abs p < pw k → -1000 <= k <= 900 →
  near (dmul x (S754_finite sy my ey)) p k.
Proof.
  intros Hx Hy Hp Hs Hk. assert (H0 : 0 < pw 0) by (by apply pw_pos).
  destruct x as [sx|sx| |sx mx ex]; try done; cbn [dmul SFmul units is_finite] in *.
  - assert (p = 0) as -> by nia. apply (near_exact (S754_zero _)); done || lia.
  - set (e := ex + ey). set (m := (mx * my)%positive). set (x := Zpos m * pw e).
    assert (Hpe : 0 < pw e) by (apply pw_pos; lia).
    assert (Ep : p = cond_Zopp (xorb sx sy) x).
    { apply (Z.mul_reg_r _ _ (pw 0)); [lia|]. rewrite Hp. unfold x, m. rewrite Pos2Z.inj_mul.
      pose proof (pw_mul ex ey ltac:(lia) ltac:(lia) ltac:(lia)) as E. fold e in E. destruct sx, sy; cbn [xorb cond_Zopp]; nia. }
    destruct (round_aux_ok (xorb sx sy) m e loc_Exact 1 x k) as (f & y & -> & Hf & Hu & Hy' & Ha & Hd);
      [done| |lia|by left| |done|].
    + unfold cut, lost, x. cbn. rewrite Z.mul_1_r. split; [lia|]. split; [lia|]. done.
    + rewrite Z.mul_1_r. destruct (xorb sx sy); cbn [cond_Zopp] in Ep; unfold x in *; lia.
    + rewrite !Z.mul_1_r in *. rewrite Ep. apply (near_signed _ f y); try done. unfold x. lia.
Qed.

(** The location of a remainder. *)
Lemma cut_remainder q r d p : 0 <= q → 0 <= r < d → 0 < p → cut (shr_record_of_loc q (new_location d r)) (p * d) ((d * q + r) * p).
Proof.
  intros Hq Hr Hp. assert (El : new_location d r = loc_Exact ∧ r = 0 ∨ (∃ c, new_location d r = loc_Inexact c) ∧ r ≠ 0).
  { unfold new_location, new_location_even, new_location_odd.
    destruct (Z.even d); (destruct (Z.eqb_spec r 0); [by left|right; split; [by eexists|done]]). }
  unfold cut, lost. destruct El as [[-> ->]|[[c ->] Hn]].
  - cbn. split; [done|]. split; [nia|]. split; intros; [lia|done].
  - assert (E : shr_m (shr_record_of_loc q (loc_Inexact c)) = q) by (by destruct c). rewrite E. split; [done|].
    split; [nia|]. split; [by destruct c|nia].
Qed.

Lemma div_eucl_ok a b : 0 < b → ∃ q r, Z.div_eucl a b = (q, r) ∧ a = b * q + r ∧ 0 <= r < b.
Proof.
  intros Hb. pose proof (Z_div_mod a b ltac:(lia)) as H. destruct (Z.div_eucl a b) as [q r]. by exists q, r.
Qed.

(** The quotient of two positive numbers. *)
Lemma ddiv_ok mx ex my ey k : let dx := Zpos (digits2_pos mx) in let dy := Zpos (digits2_pos my) in
  -1100 <= ex - ey <= 900 → -1000 <= dx + ex - (dy + ey) → Zpos mx * pw (ex - ey) < pw k * Zpos my → -1000 <= k <= 900 →
  let f := ddiv (S754_finite false mx ex) (S754_finite false my ey) in
  is_finite f ∧ 0 <= units f ∧ Z.abs (units f * Zpos my - Zpos mx * pw (ex - ey)) < pw (k - 53) * Zpos my.
Proof.
  intros dx dy He HD Hx Hk. cbn [ddiv SFdiv xorb]. unfold SFdiv_core_binary. cbn [Zdigits2]. fold dx dy.
  pose proof (digits_range mx) as Dx. pose proof (digits_range my) as Dy. fold dx in Dx. fold dy in Dy.
  assert (0 < dx ∧ 0 < dy) as [Hdx Hdy] by lia. rewrite fexp_eq.
  replace (Z.max (dx + ex - (dy + ey) - 53) (-1074)) with (dx + ex - (dy + ey) - 53) by lia.
  set (e := Z.min (dx + ex - (dy + ey) - 53) (ex - ey)). set (s := ex - ey - e). assert (Hs : 0 <= s) by lia.
  replace (match s with Z0 => Zpos mx | Zpos _ => Z.shiftl (Zpos mx) s | Zneg _ => 0 end) with (Zpos mx * 2 ^ s)
    by (destruct s; [lia|symmetry; apply Z.shiftl_mul_pow2; lia|lia]).
  destruct (div_eucl_ok (Zpos mx * 2 ^ s) (Zpos my) ltac:(lia)) as (q & r & -> & Em & Hr).
  assert (Hm : 2 ^ (dx - 1 + s) <= Zpos mx * 2 ^ s) by (rewrite Z.pow_add_r by lia; nia).
  assert (Hq : 2 ^ (dx - 1 + s - dy) <= q).
  { apply Z.lt_succ_r, (Z.mul_lt_mono_pos_l (2 ^ dy)); [lia|]. rewrite <- Z.pow_add_r by lia.
    replace (dy + (dx - 1 + s - dy)) with (dx - 1 + s) by lia. nia. }
  assert (0 < 2 ^ (dx - 1 + s - dy)) by (apply Z.pow_pos_nonneg; lia). destruct q as [|q|q]; [lia| |lia].
  pose proof (digits_range q) as Dq. set (dq := Zpos (digits2_pos q)) in *.
  assert (Hdq : dx - 1 + s - dy < dq) by (apply (Z.pow_lt_mono_r_iff 2); lia).
  assert (Ex : Zpos mx * pw (ex - ey) = (Zpos my * Zpos q + r) * pw e).
  { rewrite <- Em. replace (ex - ey) with (e + s) by lia. rewrite pw_add by lia. lia. }
  destruct (round_aux_ok false q e (new_location (Zpos my) r) (Zpos my) (Zpos mx * pw (ex - ey)) k)
    as (f & y & -> & Hf & Hu & Hy & Ha & _); [lia| |lia| |done|done|].
  - rewrite Ex. apply cut_remainder; [lia|done|apply pw_pos; lia].
  - right. rewrite fexp_eq. fold dq. lia.
  - cbn [cond_Zopp] in Hu. rewrite Hu. by split; [|split].
Qed.

(** ** Comparison and truncation *)

Definition valid (f : double) : bool := valid_binary 53 1024 f.

Lemma canonical_digits s m e : valid (S754_finite s m e) = true →
  -1074 <= e ∧ Zpos m < 2 ^ 53 ∧ (-1074 < e → 2 ^ 52 <= Zpos m).
Proof.
  unfold valid. cbn [valid_binary]. unfold SpecFloat.bounded, canonical_mantissa. rewrite fexp_eq, andb_true_iff, Z.eqb_eq.
  intros [H _]. pose proof (digits_range m) as D. set (d := Zpos (digits2_pos m)) in *. split; [lia|].
  assert (Hd : d <= 53) by lia. split; [pose proof (Z.pow_le_mono_r 2 d 53); lia|]. intros He. assert (d = 53) as E by lia.
  rewrite E in D. change (53 - 1) with 52 in D. lia.
Qed.

(** The order of doubles of the same sign is that of exponents, then mantissas. *)
Lemma magnitude_compare m1 e1 m2 e2 s1 s2 :
  valid (S754_finite s1 m1 e1) = true → valid (S754_finite s2 m2 e2) = true →
  match e1 ?= e2 with Lt => Lt | Gt => Gt | Eq => Pos.compare_cont Eq m1 m2 end = (Zpos m1 * pw e1 ?= Zpos m2 * pw e2).
Proof.
  assert (Hlt : ∀ m1 e1 m2 e2 s1 s2, valid (S754_finite s1 m1 e1) = true → valid (S754_finite s2 m2 e2) = true →
    e1 < e2 → Zpos m1 * pw e1 < Zpos m2 * pw e2).
  { clear. intros m1 e1 m2 e2 s1 s2 V1 V2 He. destruct (canonical_digits _ _ _ V1) as (H1 & B1 & _).
    destruct (canonical_digits _ _ _ V2) as (H2 & _ & B2). specialize (B2 ltac:(lia)).
    assert (pw (e1 + 1) <= pw e2) by (apply pw_le; lia). rewrite pw_add in * by lia.
    assert (0 < pw e1) by (apply pw_pos; lia). nia. }
  intros V1 V2. destruct (Z.compare_spec e1 e2) as [-> |He|He].
  - destruct (canonical_digits _ _ _ V1) as (H1 & _). assert (0 < pw e2) by (apply pw_pos; lia).
    change (Pos.compare_cont Eq m1 m2) with (Zpos m1 ?= Zpos m2). symmetry.
    destruct (Z.compare_spec (Zpos m1) (Zpos m2)); [apply Z.compare_eq_iff|apply Z.compare_lt_iff|apply Z.compare_gt_iff]; nia.
  - symmetry. apply Z.compare_lt_iff. by eapply Hlt.
  - symmetry. apply Z.compare_gt_iff. by eapply Hlt.
Qed.

Definition number (f : double) : bool := match f with S754_zero _ | S754_finite _ _ _ => true | _ => false end.

Lemma compare_ok x y : valid x = true → valid y = true → number x = true → number y = true →
  SFcompare x y = Some (units x ?= units y).
Proof.
  intros Vx Vy Nx Ny.
  assert (Hp : ∀ s m e, valid (S754_finite s m e) = true → 0 < Zpos m * pw e).
  { intros s m e V. destruct (canonical_digits _ _ _ V) as (H & _). assert (0 < pw e) by (apply pw_pos; lia). lia. }
  destruct x as [sx|sx| |sx mx ex], y as [sy|sy| |sy my ey]; try done; cbn [SFcompare units]; f_equal.
  - pose proof (Hp _ _ _ Vy). destruct sy; cbn [cond_Zopp]; symmetry; [apply Z.compare_gt_iff|apply Z.compare_lt_iff]; lia.
  - pose proof (Hp _ _ _ Vx). destruct sx; cbn [cond_Zopp]; symmetry; [apply Z.compare_lt_iff|apply Z.compare_gt_iff]; lia.
  - pose proof (Hp _ _ _ Vx). pose proof (Hp _ _ _ Vy). pose proof (magnitude_compare _ _ _ _ _ _ Vx Vy) as M.
    destruct sx, sy; cbn [cond_Zopp].
    + rewrite Z.compare_opp, (Z.compare_antisym (Zpos mx * pw ex)), <- M. by destruct (ex ?= ey).
    + symmetry. apply Z.compare_lt_iff. lia.
    + symmetry. apply Z.compare_gt_iff. lia.
    + exact M.
Qed.

Lemma dltb_ok x y : valid x = true → valid y = true → number x = true → number y = true →
  SFltb x y = (units x <? units y).
Proof. intros. unfold SFltb. rewrite compare_ok by done. unfold Z.ltb. by destruct (units x ?= units y). Qed.

Lemma double_trunc_ok f : is_finite f → double_trunc f = Some (Z.quot (units f) (pw 0)).
Proof.
  destruct f as [s|s| |s m e]; try done. intros He. cbn [is_finite double_trunc units] in *. f_equal.
  assert (E : (if 0 <=? e then Zpos m * 2 ^ e else Zpos m / 2 ^ (- e)) = Z.quot (Zpos m * pw e) (pw 0)).
  { assert (0 < pw 0) by (by apply pw_pos). assert (0 < pw e) by (apply pw_pos; lia). rewrite Z.quot_div_nonneg by lia.
    destruct (Z.leb_spec 0 e).
    - replace (Zpos m * pw e) with (Zpos m * 2 ^ e * pw 0) by (replace e with (0 + e) at 2 by lia; rewrite pw_add by lia; lia).
      by rewrite Z.div_mul by lia.
    - replace 0 with (e + - e) at 1 by lia. rewrite pw_add by lia. rewrite (Z.mul_comm (pw e)), Z.div_mul_cancel_r by lia. done. }
  rewrite E. destruct s; cbn [cond_Zopp]; [|done]. rewrite Z.quot_opp_l; [done|]. assert (0 < pw 0) by (by apply pw_pos). lia.
Qed.

#[global] Opaque pw.
