(* ===== verification/AmountDouble.v ===== *)
(** * AmountDouble: amounts and floating point

    The constructor of [Amount] from a [double] (csdb/src/amount.cpp), the
    conversion back and the operators with a [double] operand
    (csdb/include/csdb/amount.h), over the arithmetic of [Doubles].  The theorems
    say for every double what the constructor does: which are refused, which have
    no defined behaviour, and that the amount of any other is within 3.2e-15 of
    it; that whole numbers are converted exactly; and how far [to_double] is from
    the amount. *)
From S2P Require Import Prelude Limbs Math128 Amount Doubles.
From Stdlib Require Import Floats.SpecFloat.

(** ** The code *)

(** Conversions to an integer type that does not have the number are undefined. *)
Definition double_to_int32 (f : double) : result Z :=
  match double_trunc f with
  | Some z => int32 z
  | None => Throw undefined_behaviour
  end.

Definition double_to_uint64 (f : double) : result Z :=
  match double_trunc f with
  | Some z => if (0 <=? z) && (z <? 2 ^ 64) then Ok z else Throw undefined_behaviour
  | None => Throw undefined_behaviour
  end.

(** The constants [0.0] and [0.5]. *)
Definition double_zero : double := S754_zero false.
Definition double_half : double := S754_finite false 4503599627370496 (-53).

(** [std::numeric_limits<double>::digits10] *)
Definition digits10 : nat := 15.

(** [frac *= 10; multiplier /= 10] *)
Definition frac_turn (s : double * Z) : double * Z := (dmul s.1 (double_of_int 10), s.2 / 10).

(** [Amount(double)] *)
Definition Amount_of_double (value : double) : result Amount :=
  if SFltb value (double_of_int (- 2 ^ 31)) || SFltb (double_of_int (2 ^ 31 - 1)) value then Throw overflow_error else
  integral ← double_to_int32 value;
  integral ← (if SFltb value double_zero then int32 (integral - 1) else Ok integral);
  let frac := dsub value (double_of_int integral) in
  let '(frac, multiplier) := Nat.iter digits10 frac_turn (frac, AMOUNT_MAX_FRACTION) in
  f ← double_to_uint64 (dadd frac double_half);
  let fraction := u64 (f * multiplier) in
  if AMOUNT_MAX_FRACTION <=? fraction
  then integral ← int32 (integral + 1); Ok (mkAmount integral (fraction - AMOUNT_MAX_FRACTION))
  else Ok (mkAmount integral fraction).

Definition Amount_to_double (a : Amount) : double :=
  dadd (double_of_int (integral_ a)) (ddiv (double_of_int (fraction_ a)) (double_of_int AMOUNT_MAX_FRACTION)).

(** [operator+(double)], [operator-(double)] and [operator*(double)], which are
    also [operator+(double, Amount)] and [operator*(double, Amount)]. *)
Definition Amount_add_double (a : Amount) (other : double) : result Amount :=
  b ← Amount_of_double other; Ok (Amount_add a b).
Definition Amount_sub_double (a : Amount) (other : double) : result Amount :=
  b ← Amount_of_double other; Ok (Amount_sub a b).
Definition Amount_mul_double (a : Amount) (other : double) : outcome Amount :=
  match Amount_of_double other with
  | Ok b => Amount_mul a b
  | Throw e => Some (Throw e)
  end.

(** [operator+=(double)] and [operator-=(double)] *)
Definition Amount_add_assign_double (a : Amount) (other : double) : result Amount :=
  b ← Amount_of_double other; Ok (Amount_add_assign a b).
Definition Amount_sub_assign_double (a : Amount) (other : double) : result Amount :=
  b ← Amount_of_double other; Ok (Amount_sub_assign a b).

(** [operator-(double, Amount)] *)
Definition double_sub_Amount (a : double) (b : Amount) : result Amount :=
  a ← Amount_of_double a; Ok (Amount_sub a b).

(** ** The digits of the fraction *)

Lemma double_ten : double_of_int 10 = S754_finite false 5629499534213120 (-49).
Proof. vm_compute. reflexivity. Qed.

Lemma units_ten : units (double_of_int 10) = 10 * pw 0.
Proof. apply (double_of_int_exact 10). done. Qed.

(** One turn: ten times the number, up to a unit in the last place. *)
Lemma turn_ok f k : is_finite f → 0 <= units f → 10 * units f < pw k → 0 <= k <= 53 →
  let f' := dmul f (double_of_int 10) in
  is_finite f' ∧ 0 <= units f' ∧ Z.abs (units f' - 10 * units f) < pw (k - 53) ∧
  (∀ c, units f = c * pw 0 → units f' = 10 * c * pw 0).
Proof.
  intros Hf H0 Hk Bk. destruct (dmul_ok f false 5629499534213120 (-49) (10 * units f) k) as (Hf' & Ha & Hd & Hs & _);
    [done|lia| |lia|lia|].
  - rewrite <- double_ten, units_ten. lia.
  - cbv zeta. rewrite double_ten. split; [done|]. split; [lia|]. split; [done|]. intros c Ec.
    rewrite Hd, Ec; [lia|]. rewrite Ec, Z.mul_assoc. apply Z.divide_mul_r, pw_divide. lia.
Qed.

(** What the turns add up to: the bound of the number and of its error in units of
    [2^-53], for products below the powers of two of the list. *)
Fixpoint turn_bounds (ks : list Z) (u err : Z) : option (Z * Z) :=
  match ks with
  | [] => Some (u, err)
  | k :: ks =>
      if (10 * u <? 2 ^ (k + 53)) && (0 <=? k) && (k <=? 53) then turn_bounds ks (10 * u + 2 ^ k) (10 * err + 2 ^ k) else None
  end.

Lemma turns_ok ks u err u' err' f m p : turn_bounds ks u err = Some (u', err') →
  is_finite f → 0 <= units f <= u * pw (-53) → Z.abs (units f - p) <= err * pw (-53) →
  let f' := (Nat.iter (length ks) frac_turn (f, m)).1 in
  is_finite f' ∧ 0 <= units f' <= u' * pw (-53) ∧ Z.abs (units f' - 10 ^ Z.of_nat (length ks) * p) <= err' * pw (-53) ∧
  (∀ c, units f = c * pw 0 → units f' = 10 ^ Z.of_nat (length ks) * c * pw 0).
Proof.
  assert (Hh : 0 < pw (-53)) by (by apply pw_pos).
  revert u err f m p. induction ks as [|k ks IH]; intros u err f m p E Hf Hu He; cbn [turn_bounds length] in *.
  - injection E as -> ->. cbn. rewrite Z.mul_1_l. split; [done|]. split; [done|]. split; [done|]. intros c ->. lia.
  - destruct ((10 * u <? 2 ^ (k + 53)) && (0 <=? k) && (k <=? 53)) eqn:C; [|done].
    rewrite !andb_true_iff, Z.ltb_lt, !Z.leb_le in C. destruct C as [[C1 C2] C3].
    assert (Ek : pw k = 2 ^ (k + 53) * pw (-53)) by (rewrite Z.mul_comm, <- pw_add by lia; f_equal; lia).
    assert (Ek' : pw (k - 53) = 2 ^ k * pw (-53)) by (rewrite Z.mul_comm, <- pw_add by lia; f_equal; lia).
    destruct (turn_ok f k Hf) as (Hf' & H0 & Ha & Hc); [lia|rewrite Ek; nia|lia|]. rewrite Ek' in Ha.
    cbv zeta. rewrite Nat.iter_succ_r. change (frac_turn (f, m)) with (dmul f (double_of_int 10), m / 10).
    destruct (IH _ _ (dmul f (double_of_int 10)) (m / 10) (10 * p) E Hf') as (F & U & A & X); [lia|lia|].
    rewrite Nat2Z.inj_succ, Z.pow_succ_r by lia. split; [done|]. split; [done|]. split.
    + replace (10 * 10 ^ Z.of_nat (length ks) * p) with (10 ^ Z.of_nat (length ks) * (10 * p)) by lia. exact A.
    + intros c Ec. rewrite (X (10 * c) (Hc c Ec)). lia.
Qed.

Lemma fifteen_turns f m p : is_finite f → 0 <= units f <= pw 0 + 2 * pw (-53) → Z.abs (units f - p) <= 2 * pw (-53) →
  let f' := (Nat.iter digits10 frac_turn (f, m)).1 in
  is_finite f' ∧ 0 <= units f' ∧ 1000 * Z.abs (units f' - 10 ^ 15 * p) <= 2550 * pw 0 ∧
  (∀ c, units f = c * pw 0 → units f' = 10 ^ 15 * c * pw 0).
Proof.
  intros Hf Hu He. assert (E0 : pw 0 = 2 ^ 53 * pw (-53)) by (rewrite Z.mul_comm, <- pw_add by lia; done).
  assert (Hh : 0 < pw (-53)) by (by apply pw_pos).
  destruct (turn_bounds [4; 7; 10; 14; 17; 20; 24; 27; 30; 34; 37; 40; 44; 47; 50] (2 ^ 53 + 2) 2) as [[u' err']|] eqn:E;
    [|by vm_compute in E].
  destruct (turns_ok _ _ _ _ _ f m p E Hf) as (F & U & A & X); [lia|lia|]. cbn [length] in F, U, A, X. change (Z.of_nat 15) with 15 in *.
  vm_compute in E. injection E as <- <-. split; [exact F|]. split; [apply U|]. split; [|exact X]. unfold digits10. lia.
Qed.

Lemma units_half : units double_half = pw (-1) ∧ 2 * pw (-1) = pw 0 ∧ 8 * pw (-3) = pw 0 ∧ pw 50 = 2 ^ 50 * pw 0.
Proof. by vm_compute. Qed.

(** The fifteen digits, rounded. *)
Lemma digits_ok f m p : is_finite f → 0 <= units f <= pw 0 + 2 * pw (-53) → Z.abs (units f - p) <= 2 * pw (-53) → 0 <= p <= pw 0 →
  ∃ n, double_to_uint64 (dadd (Nat.iter digits10 frac_turn (f, m)).1 double_half) = Ok n ∧ 0 <= n <= 10 ^ 15 + 3 ∧
    1000 * Z.abs (n * pw 0 - 10 ^ 15 * p) <= 3180 * pw 0 ∧ (∀ c, units f = c * pw 0 → n = 10 ^ 15 * c).
Proof.
  intros Hf Hu He Hp. destruct (fifteen_turns f m p Hf Hu He) as (F & F0 & A & X). set (g := (Nat.iter _ _ _).1) in *. clearbody g.
  destruct units_half as (Eh & E1 & E3 & E50). assert (H0 : 0 < pw 0) by (by apply pw_pos).
  destruct (dadd_ok g double_half 50 F) as (Fs & As & Ds & Ss & _); [done|rewrite Eh; lia|lia|]. rewrite Eh in *.
  change (50 - 53) with (-3) in *. set (t := dadd g double_half) in *. clearbody t. unfold double_to_uint64. rewrite (double_trunc_ok t Fs).
  specialize (Ss ltac:(lia)). rewrite Z.quot_div_nonneg by lia. pose proof (Z.div_mod (units t) (pw 0) ltac:(lia)) as Dm.
  pose proof (Z.mod_pos_bound (units t) (pw 0) H0) as Bm. set (n := units t / pw 0) in *. set (r := units t mod pw 0) in *. clearbody n r.
  assert (Hn : 0 <= n <= 10 ^ 15 + 3) by nia. rewrite (proj2 (Z.leb_le _ _)), (proj2 (Z.ltb_lt _ _)) by lia. cbn [andb].
  exists n. split; [done|]. split; [done|]. split; [lia|]. intros c Ec. rewrite (X c Ec) in Ds.
  rewrite Ds in Dm; [nia|]. apply Z.divide_add_r; [apply Z.divide_mul_r; exists 8; lia|exists 4; lia].
Qed.

(** The part of the constructor after the integral part is known. *)
Definition fraction_part (value : double) (integral : Z) : result Amount :=
  let '(frac, multiplier) := Nat.iter digits10 frac_turn (dsub value (double_of_int integral), AMOUNT_MAX_FRACTION) in
  f ← double_to_uint64 (dadd frac double_half);
  let fraction := u64 (f * multiplier) in
  if AMOUNT_MAX_FRACTION <=? fraction
  then integral ← int32 (integral + 1); Ok (mkAmount integral (fraction - AMOUNT_MAX_FRACTION))
  else Ok (mkAmount integral fraction).

Lemma multiplier_ok f : (Nat.iter digits10 frac_turn (f, AMOUNT_MAX_FRACTION)).2 = 1000.
Proof.
  assert (H : ∀ n m, (Nat.iter n frac_turn (f, m)).2 = Nat.iter n (λ m, m / 10) m).
  { intros n m. induction n as [|n IH]; [done|]. exact (f_equal (λ m, m / 10) IH). }
  by rewrite H.
Qed.

Lemma int32_in_range z : -2 ^ 31 <= z < 2 ^ 31 → int32 z = Ok z.
Proof. intros H. unfold int32. by rewrite (proj2 (Z.leb_le _ _)), (proj2 (Z.ltb_lt _ _)) by lia. Qed.

Lemma fraction_part_ok value integral : is_finite value → -2 ^ 31 <= integral < 2 ^ 31 →
  0 <= units value - integral * pw 0 <= pw 0 → units value <= (2 ^ 31 - 1) * pw 0 →
  ∃ a, fraction_part value integral = Ok a ∧ Amount_ok a ∧
    Z.abs (val a * pw 0 - AMOUNT_MAX_FRACTION * units value) <= 3180 * pw 0 ∧
    (∀ z, units value = z * pw 0 → a = Amount_of_int z).
Proof.
  intros Hf Hi Hp Hv. unfold fraction_part. assert (H0 : 0 < pw 0) by (by apply pw_pos).
  destruct (double_of_int_exact integral ltac:(lia)) as [Fi Ui]. set (p := units value - integral * pw 0) in *.
  assert (E1 : pw 1 = 2 * pw 0 ∧ pw (1 - 53) = 2 * pw (-53)) by (by vm_compute). destruct E1 as [E1 E52].
  destruct (dsub_ok value (double_of_int integral) 1 Hf Fi) as (Ff & Af & Df & Sf & _); [rewrite Ui; lia|lia|].
  rewrite Ui, E52 in *. fold p in Af, Df, Sf. set (f := dsub value (double_of_int integral)) in *. clearbody f. specialize (Sf ltac:(lia)).
  destruct (digits_ok f AMOUNT_MAX_FRACTION p Ff) as (n & En & Hn & An & Xn); [lia|lia|lia|].
  pose proof (multiplier_ok f) as Em. destruct (Nat.iter digits10 frac_turn (f, AMOUNT_MAX_FRACTION)) as [g m].
  cbn [fst snd] in En, Em. subst m. rewrite En, bind_Ok. cbv zeta.
  assert (u64 (n * 1000) = n * 1000) as -> by (apply u64_id; unfold is_u64, is_unsigned; lia).
  assert (X : ∀ z, units value = z * pw 0 → n = 10 ^ 15 * (z - integral) ∧ 0 <= z - integral <= 1).
  { intros z Ez. assert (Ep : p = (z - integral) * pw 0) by lia. split; [apply Xn; rewrite <- Ep; apply Df|nia].
    rewrite Ep. apply Z.divide_mul_r. rewrite <- E52. apply pw_divide. lia. }
  unfold AMOUNT_MAX_FRACTION in *. destruct (Z.leb_spec 1000000000000000000 (n * 1000)) as [Hc|Hc].
  - assert (integral + 1 < 2 ^ 31) by nia. rewrite int32_in_range, bind_Ok by lia. eexists. split; [done|].
    split; [unfold Amount_ok, is_i32, is_signed, AMOUNT_MAX_FRACTION; cbn [integral_ fraction_]; lia|].
    unfold val, AMOUNT_MAX_FRACTION. cbn [integral_ fraction_]. split; [lia|]. intros z Ez. destruct (X z Ez) as [-> Hz].
    unfold Amount_of_int. f_equal; lia.
  - eexists. split; [done|]. split; [unfold Amount_ok, is_i32, is_signed, AMOUNT_MAX_FRACTION; cbn [integral_ fraction_]; lia|].
    unfold val, AMOUNT_MAX_FRACTION. cbn [integral_ fraction_]. split; [lia|]. intros z Ez. destruct (X z Ez) as [-> Hz].
    unfold Amount_of_int. f_equal; lia.
Qed.

Lemma in_range_finite f : valid f = true → number f = true → Z.abs (units f) <= 2 ^ 31 * pw 0 → is_finite f.
Proof.
  destruct f as [s|s| |s m e]; try done. intros V _ H. destruct (canonical_digits _ _ _ V) as (He & _). cbn [is_finite units] in *.
  assert (E : pw 32 = 2 ^ 32 * pw 0) by (by vm_compute). assert (0 < pw 0) by (by apply pw_pos). assert (0 < pw e) by (apply pw_pos; lia).
  split; [done|]. assert (e < 32); [|lia]. apply pw_lt_inv; [lia|]. destruct s; cbn [cond_Zopp] in H; nia.
Qed.

(** Which doubles the first guard lets pass. *)
Lemma guard_ok value : valid value = true → number value = true →
  SFltb value (double_of_int (- 2 ^ 31)) || SFltb (double_of_int (2 ^ 31 - 1)) value =
    (units value <? - 2 ^ 31 * pw 0) || ((2 ^ 31 - 1) * pw 0 <? units value).
Proof.
  intros V N. rewrite !dltb_ok by done.
  by rewrite (proj2 (double_of_int_exact (- 2 ^ 31) eq_refl)), (proj2 (double_of_int_exact (2 ^ 31 - 1) eq_refl)).
Qed.

(** The integral part: the truncated number, one less when it is negative. *)
Lemma integral_part value : valid value = true → number value = true →
  - 2 ^ 31 * pw 0 <= units value <= (2 ^ 31 - 1) * pw 0 →
  (integral ← double_to_int32 value; (if SFltb value double_zero then int32 (integral - 1) else Ok integral)) =
    (if units value =? - 2 ^ 31 * pw 0 then Throw undefined_behaviour
     else Ok (if units value <? 0 then Z.quot (units value) (pw 0) - 1 else Z.quot (units value) (pw 0))).
Proof.
  intros V N H. assert (H0 : 0 < pw 0) by (by apply pw_pos). unfold double_to_int32.
  rewrite double_trunc_ok by (apply in_range_finite; [done|done|lia]). rewrite dltb_ok by done. change (units double_zero) with 0.
  set (v := units value) in *. set (q := Z.quot v (pw 0)).
  assert (Hq : if v <? 0 then - 2 ^ 31 <= q <= 0 ∧ (q = - 2 ^ 31 ↔ v = - 2 ^ 31 * pw 0) else 0 <= q < 2 ^ 31 ∧ v ≠ - 2 ^ 31 * pw 0).
  { pose proof (Z.quot_rem v (pw 0) ltac:(lia)) as E. fold q in E. destruct (Z.ltb_spec v 0).
    - pose proof (Z.rem_bound_pos_neg v (pw 0) H0 ltac:(lia)). nia.
    - pose proof (Z.rem_bound_pos v (pw 0) ltac:(lia) H0). nia. }
  clearbody q. destruct (Z.ltb_spec v 0); rewrite int32_in_range, bind_Ok by lia.
  - destruct (Z.eqb_spec v (- 2 ^ 31 * pw 0)) as [E|E].
    + destruct Hq as [_ Hq]. apply Hq in E. by rewrite E.
    + apply int32_in_range. assert (q ≠ - 2 ^ 31) by (intros ?; apply E, Hq; done). lia.
  - by rewrite (proj2 (Z.eqb_neq _ _)) by lia.
Qed.

Lemma Amount_of_double_parts value :
  Amount_of_double value =
    if SFltb value (double_of_int (- 2 ^ 31)) || SFltb (double_of_int (2 ^ 31 - 1)) value then Throw overflow_error else
    (integral ← (integral ← double_to_int32 value; (if SFltb value double_zero then int32 (integral - 1) else Ok integral));
     fraction_part value integral).
Proof. unfold Amount_of_double. case_match; [done|]. by rewrite result_bind_assoc. Qed.

(** C30: the amount of a double, for every double.  Infinities and numbers outside
    the range of [int32_t] are refused; NaN and the least [int32_t], which pass the
    guard, have no defined behaviour; any other number gives an amount in normal
    form that differs from it by at most 3.18e-15, and a whole number gives exactly
    its amount.  ([units] is the number times [pw 0], which is [2^1200].) *)
Theorem Amount_of_double_correct value : valid value = true →
  match value with
  | S754_nan => Amount_of_double value = Throw undefined_behaviour
  | S754_infinity _ => Amount_of_double value = Throw overflow_error
  | _ =>
      let v := units value in
      (v < - 2 ^ 31 * pw 0 ∨ (2 ^ 31 - 1) * pw 0 < v → Amount_of_double value = Throw overflow_error) ∧
      (v = - 2 ^ 31 * pw 0 → Amount_of_double value = Throw undefined_behaviour) ∧
      (- 2 ^ 31 * pw 0 < v <= (2 ^ 31 - 1) * pw 0 → ∃ a, Amount_of_double value = Ok a ∧ Amount_ok a ∧
        Z.abs (val a * pw 0 - AMOUNT_MAX_FRACTION * v) <= 3180 * pw 0 ∧ (∀ z, v = z * pw 0 → a = Amount_of_int z))
  end.
Proof.
  intros V. assert (H0 : 0 < pw 0) by (by apply pw_pos).
  enough (K : number value = true → let v := units value in
    (v < - 2 ^ 31 * pw 0 ∨ (2 ^ 31 - 1) * pw 0 < v → Amount_of_double value = Throw overflow_error) ∧
    (v = - 2 ^ 31 * pw 0 → Amount_of_double value = Throw undefined_behaviour) ∧
    (- 2 ^ 31 * pw 0 < v <= (2 ^ 31 - 1) * pw 0 → ∃ a, Amount_of_double value = Ok a ∧ Amount_ok a ∧
      Z.abs (val a * pw 0 - AMOUNT_MAX_FRACTION * v) <= 3180 * pw 0 ∧ (∀ z, v = z * pw 0 → a = Amount_of_int z))).
  { destruct value as [s|s| |s m e]; [by apply K| |done|by apply K]. by destruct s. }
  intros N v. rewrite Amount_of_double_parts, (guard_ok value V N). fold v.
  split; [intros Hv; by rewrite (proj2 (orb_true_iff _ _)) by (rewrite !Z.ltb_lt; lia)|].
  split; intros Hv; (assert (G : (v <? - 2 ^ 31 * pw 0) || ((2 ^ 31 - 1) * pw 0 <? v) = false)
    by (rewrite orb_false_iff, !Z.ltb_ge; lia)); rewrite G, (integral_part value V N) by (fold v; lia); fold v.
  - by rewrite (proj2 (Z.eqb_eq _ _) Hv).
  - rewrite (proj2 (Z.eqb_neq _ _)), bind_Ok by lia. apply fraction_part_ok; [apply in_range_finite; fold v; done || lia| | |fold v; lia].
    + pose proof (Z.quot_rem v (pw 0) ltac:(lia)) as E. destruct (Z.ltb_spec v 0).
      * pose proof (Z.rem_bound_pos_neg v (pw 0) H0 ltac:(lia)). nia.
      * pose proof (Z.rem_bound_pos v (pw 0) ltac:(lia) H0). nia.
    + fold v. pose proof (Z.quot_rem v (pw 0) ltac:(lia)) as E. destruct (Z.ltb_spec v 0).
      * pose proof (Z.rem_bound_pos_neg v (pw 0) H0 ltac:(lia)). lia.
      * pose proof (Z.rem_bound_pos v (pw 0) ltac:(lia) H0). lia.
Qed.

(** ** Back to double *)

Lemma double_max_fraction : double_of_int AMOUNT_MAX_FRACTION = S754_finite false 7812500000000000 7.
Proof. vm_compute. reflexivity. Qed.

(** The fraction as a part of 1: two roundings. *)
Lemma fraction_ratio f : 0 <= f < AMOUNT_MAX_FRACTION →
  let q := ddiv (double_of_int f) (double_of_int AMOUNT_MAX_FRACTION) in
  is_finite q ∧ 0 <= units q ∧ Z.abs (units q * AMOUNT_MAX_FRACTION - f * pw 0) < AMOUNT_MAX_FRACTION * pw (-51) ∧
  (f = 0 → units q = 0).
Proof.
  intros Hf. rewrite double_max_fraction. unfold AMOUNT_MAX_FRACTION in *.
  assert (0 < pw 0 ∧ 0 < pw (-51)) as [H0 H51] by (split; by apply pw_pos).
  assert (pw 7 = 128 * pw 0 ∧ pw 1 = 2 * pw 0 ∧ 2 * pw (-52) = pw (-51) ∧ 2 ^ 51 * pw (-51) = pw 0) as (E7 & E1 & E52 & E51) by (by vm_compute).
  destruct (double_of_int_ok f 60 ltac:(lia) ltac:(lia)) as (Ff & Af & Df & Sf & _). change (60 - 53) with 7 in *.
  destruct (Z.eq_dec f 0) as [-> |Hn]; [cbn; split; [done|]; split; [done|]; split; [lia|done]|].
  assert (Hpos : pw 0 <= units (double_of_int f)).
  { destruct (Z.lt_ge_cases f (2 ^ 53)) as [Hs|Hs]; [rewrite (proj2 (double_of_int_exact f ltac:(lia))); nia|]. nia. }
  assert (Hfp : f * pw 0 <= 10 ^ 18 * pw 0) by nia.
  destruct (double_of_int f) as [s|s| |s m e]; [cbn in Hpos; lia|done|done|]. cbn [is_finite units] in *.
  assert (He : 0 < pw e) by (apply pw_pos; lia). destruct s; cbn [cond_Zopp] in *; [lia|].
  assert (Ee : pw e = 128 * pw (e - 7)) by (replace e with (e - 7 + 7) at 1 by lia; rewrite pw_add by lia; lia).
  assert (Hd : 0 < Zpos (digits2_pos m) + e).
  { apply pw_lt_inv; [lia|]. rewrite Z.add_comm, pw_add by lia. pose proof (digits_range m). nia. }
  assert (Em : Zpos m * pw e = 128 * (Zpos m * pw (e - 7))) by (rewrite Ee; lia).
  destruct (ddiv_ok m e 7812500000000000 7 1) as (Fq & Sq & Aq); [lia|cbn; lia|lia|lia|].
  split; [done|]. split; [done|]. split; [|done]. change (1 - 53) with (-52) in Aq. lia.
Qed.

(** The double of an amount.  For an amount in normal form whose integral part
    is below [2^k], [to_double] is finite and differs from the amount by less than
    [2^(k - 51)]; for a whole number of units it is exact. *)
Theorem Amount_to_double_correct a k : Amount_ok a → Z.abs (integral_ a) < 2 ^ k → 1 <= k <= 31 →
  is_finite (Amount_to_double a) ∧
  Z.abs (units (Amount_to_double a) * AMOUNT_MAX_FRACTION - val a * pw 0) < AMOUNT_MAX_FRACTION * pw (k - 51) ∧
  (fraction_ a = 0 → units (Amount_to_double a) = integral_ a * pw 0).
Proof.
  destruct a as [i f]. unfold Amount_ok, val, Amount_to_double. cbn [integral_ fraction_]. intros [_ Hf] Hi Hk.
  assert (0 < pw 0 ∧ 0 < pw (-51)) as [H0 H51] by (split; by apply pw_pos).
  assert (2 ^ 51 * pw (-51) = pw 0) as E51 by (by vm_compute).
  assert (Ek : pw (k + 1) = 2 ^ (k + 1) * pw 0 ∧ pw (k + 1 - 53) = 2 ^ (k - 1) * pw (-51) ∧ pw (k - 51) = 2 ^ k * pw (-51)).
  { split; [|split]; rewrite Z.mul_comm, <- pw_add by lia; f_equal; lia. }
  destruct Ek as (Ek1 & Ek2 & Ek3). rewrite Z.pow_add_r in Ek1 by lia. change (2 ^ 1) with 2 in Ek1.
  assert (E2 : 2 ^ k = 2 * 2 ^ (k - 1)) by (rewrite <- Z.pow_succ_r by lia; f_equal; lia).
  assert (1 <= 2 ^ (k - 1)) by (assert (0 < 2 ^ (k - 1)) by (apply Z.pow_pos_nonneg; lia); lia).
  pose proof (Z.pow_le_mono_r 2 k 31 ltac:(lia) ltac:(lia)). destruct (double_of_int_exact i ltac:(lia)) as [Fi Ui].
  destruct (fraction_ratio f Hf) as (Fq & Sq & Aq & Zq). set (q := ddiv _ _) in *. clearbody q. unfold AMOUNT_MAX_FRACTION in *.
  destruct (dadd_ok (double_of_int i) q (k + 1) Fi Fq) as (Fs & As & Ds & _); [rewrite Ui, Ek1; nia|lia|]. rewrite Ui, Ek2 in *.
  split; [done|]. split; [rewrite Ek3, E2; nia|]. intros ->. rewrite Ds, (Zq eq_refl); [lia|]. rewrite (Zq eq_refl), Z.add_0_r.
  rewrite <- Ek2. apply Z.divide_mul_r, pw_divide. lia.
Qed.

(** ** Witnesses *)

(** 0.1, the nearest double to it. *)
Definition double_tenth : double := S754_finite false 7205759403792794 (-56).

Lemma Amount_of_double_correct_witness : valid double_tenth = true ∧
  ∃ a, Amount_of_double double_tenth = Ok a ∧ Amount_ok a ∧
    Z.abs (val a * pw 0 - AMOUNT_MAX_FRACTION * units double_tenth) <= 3180 * pw 0.
Proof.
  assert (V : valid double_tenth = true) by (vm_compute; reflexivity). split; [exact V|].
  destruct (proj2 (proj2 (Amount_of_double_correct double_tenth V))) as (a & E & Ha & Hd & _).
  - split; vm_compute; congruence.
  - exists a. split; [exact E|]. split; [exact Ha|exact Hd].
Defined.

(** An amount of 7.25. *)
Lemma Amount_to_double_correct_witness :
  let a := mkAmount 7 250000000000000000 in
  is_finite (Amount_to_double a) ∧
  Z.abs (units (Amount_to_double a) * AMOUNT_MAX_FRACTION - val a * pw 0) < AMOUNT_MAX_FRACTION * pw (3 - 51) ∧
  (fraction_ a = 0 → units (Amount_to_double a) = integral_ a * pw 0).
Proof.
  apply (Amount_to_double_correct (mkAmount 7 250000000000000000) 3).
  - vm_compute. repeat split; congruence.
  - vm_compute. reflexivity.
  - split; vm_compute; congruence.
Defined.
