(* ===== verification/Values.v ===== *)
(** * Values: user fields, addresses, currencies and pool hashes

    Models [csdb/src/user_field.cpp], [csdb/src/address.cpp],
    [csdb/src/currency.cpp] and the class [PoolHash] of [csdb/src/pool.cpp].
    These classes are handles on shared immutable data ([SharedData] shows that
    such a handle behaves as a value), so a value of the model is the data; the
    pointer comparisons that shortcut the equality tests are then redundant.
    The hash function is [Blake2.cscrypto_blake2s]; the signatures are
    third-party code, and a class. *)

From S2P Require Import Prelude Blake2 Hex StdMap Streams Amount.

(** ** Cryptographic primitives *)

Definition hash_size : nat := 32.
Definition public_key_size : nat := 32.

(** [crypto::calc_hash]; the function it calls always gives a digest
    ([Blake2.cscrypto_blake2s_total]). *)
Definition calc_hash (buffer : byte_array) : byte_array :=
  match cscrypto_blake2s buffer with
  | Ok result => result
  | Throw _ => []
  end.

#[global] Opaque calc_hash.

Lemma calc_hash_length m : length (calc_hash m) = hash_size.
Proof. Transparent calc_hash. unfold calc_hash. by destruct (cscrypto_blake2s_total m) as (-> & -> & _). Qed.
#[global] Opaque calc_hash.

Lemma calc_hash_bytes m : bytes_ok (calc_hash m).
Proof. Transparent calc_hash. unfold calc_hash. by destruct (cscrypto_blake2s_total m) as (-> & _ & ?). Qed.
#[global] Opaque calc_hash.

(** The signatures are those of libsodium. *)
Class Crypto := {
  crypto_sign_detached : byte_array → byte_array → byte_array;
  crypto_verify_detached : byte_array → byte_array → byte_array → bool;
}.

(** What the sources rely on: a signature has 64 bytes, and one made with a
    secret key verifies with its public key. *)
Class CryptoLaws (C : Crypto) (key_pair : byte_array → byte_array → Prop) := {
  sign_length m sk : length (crypto_sign_detached m sk) = 64%nat;
  sign_bytes m sk : bytes_ok (crypto_sign_detached m sk);
  verify_sign m pk sk :
    key_pair pk sk → crypto_verify_detached (crypto_sign_detached m sk) m pk = true;
}.

(** A concrete instance, which shows that the laws can hold: a signature is the
    first 32 bytes of the message and the key. *)
Definition toy_crypto : Crypto := {|
  crypto_sign_detached m sk := le_bytes 32 (le_value m) ++ le_bytes 32 (le_value sk);
  crypto_verify_detached sig m pk :=
    bytes_eqb sig (le_bytes 32 (le_value m) ++ le_bytes 32 (le_value pk));
|}.

Lemma toy_crypto_laws : CryptoLaws toy_crypto eq.
Proof.
  split.
  - intros. reflexivity.
  - intros. apply bytes_ok_app. split; apply le_bytes_ok.
  - intros m pk sk ->. apply bytes_eqb_refl.
Qed.

(** ** User fields *)

Definition user_field_id_t_bytes : nat := 4.

Inductive UserField :=
| UF_Unknown
| UF_Integer (i_value : Z)
| UF_String (s_value : byte_array)
| UF_Amount (a_value : Amount).

#[export] Instance UserField_eq_dec : EqDecision UserField.
Proof. solve_decision. Defined.

(** [UserField::type] *)
Definition UserField_type (f : UserField) : Z :=
  match f with
  | UF_Unknown => 0
  | UF_Integer _ => 1
  | UF_String _ => 2
  | UF_Amount _ => 3
  end.

(** [UserField(T)] for integral types and [bool] *)
Definition UserField_of_integral (value : Z) : UserField := UF_Integer (u64 value).
Definition UserField_of_bool (value : bool) : UserField := UF_Integer (if value then 1 else 0).

Definition UserField_is_valid (f : UserField) : bool := negb (0 =? UserField_type f).

(** [UserField::value<T>()] *)
Definition UserField_value_u64 (f : UserField) : Z :=
  match f with UF_Integer v => v | _ => 0 end.
Definition UserField_value_string (f : UserField) : byte_array :=
  match f with UF_String s => s | _ => [] end.
Definition UserField_value_amount (f : UserField) : Amount :=
  match f with UF_Amount a => a | _ => Amount_zero end.
Definition UserField_value_bool (f : UserField) : bool := negb (0 =? UserField_value_u64 f).

(** [UserField::priv::is_equal] *)
Definition UserField_is_equal (f other : UserField) : bool :=
  if negb (UserField_type f =? UserField_type other) then false
  else match f, other with
       | UF_Integer i, UF_Integer j => i =? j
       | UF_String s, UF_String t => bytes_eqb s t
       | UF_Amount a, UF_Amount b => Amount_eqb a b
       | _, _ => true
       end.

(** [UserField::priv::put] *)
Definition UserField_put (f : UserField) (os : obstream) : obstream :=
  match f with
  | UF_Integer v => put_integral 8 v (put_integral 1 (UserField_type f) os)
  | UF_String s => put_string s (put_integral 1 (UserField_type f) os)
  | UF_Amount a => Amount_put a (put_integral 1 (UserField_type f) os)
  | UF_Unknown => os
  end.

(** [UserField::priv::get] *)
Definition UserField_get (ibs : ibstream) : option (UserField * ibstream) :=
  '(type, ibs) ← get_integral 1 ibs;
  if type =? 1 then '(v, ibs) ← get_integral 8 ibs; Some (UF_Integer v, ibs)
  else if type =? 2 then '(s, ibs) ← get_string ibs; Some (UF_String s, ibs)
  else if type =? 3 then '(a, ibs) ← Amount_get ibs; Some (UF_Amount a, ibs)
  else None.

(** ** Addresses *)

Definition Address_is_valid (a : byte_array) : bool := (length a =? public_key_size)%nat.
Definition Address_eqb (a other : byte_array) : bool := bytes_eqb a other.
Definition Address_ltb (a other : byte_array) : bool := bytes_ltb a other.
Definition Address_to_string (a : byte_array) : byte_array := to_hex a.

Definition Address_from_string (val : byte_array) : byte_array :=
  let data := from_hex val in
  if (public_key_size =? length data)%nat then data else [].

Definition Address_public_key (a : byte_array) : byte_array := a.

Definition Address_from_public_key (key : byte_array) : byte_array :=
  if (public_key_size =? length key)%nat then key else [].

(** [from_public_key(const char* key)]: the caller's buffer has at least
    [public_key_size] bytes. *)
Definition Address_from_public_key_ptr (key : byte_array) : byte_array := take public_key_size key.

Definition Address_put (a : byte_array) (os : obstream) : obstream := put_byte_array a os.
Definition Address_get (ibs : ibstream) : option (byte_array * ibstream) := get_byte_array ibs.

(** ** Currencies *)

Definition Currency_is_valid (name : byte_array) : bool := negb (bytes_eqb name []).
Definition Currency_to_string (name : byte_array) : byte_array := name.
Definition Currency_eqb (name other : byte_array) : bool := bytes_eqb name other.
Definition Currency_ltb (name other : byte_array) : bool := bytes_ltb name other.
Definition Currency_put (name : byte_array) (os : obstream) : obstream := put_string name os.
Definition Currency_get (ibs : ibstream) : option (byte_array * ibstream) := get_string ibs.

(** ** Pool hashes *)

Definition PoolHash_is_empty (h : byte_array) : bool := bytes_eqb h [].
Definition PoolHash_size (h : byte_array) : nat := length h.
Definition PoolHash_to_string (h : byte_array) : byte_array := to_hex h.
Definition PoolHash_to_binary (h : byte_array) : byte_array := h.
Definition PoolHash_eqb (h other : byte_array) : bool := bytes_eqb h other.
Definition PoolHash_ltb (h other : byte_array) : bool := bytes_ltb h other.

Definition PoolHash_from_binary (data : byte_array) : byte_array :=
  let sz := length data in
  if (0 =? sz)%nat || (hash_size =? sz)%nat then data else [].

Definition PoolHash_from_string (s : byte_array) : byte_array :=
  let hash := from_hex s in
  let sz := length hash in
  if (0 =? sz)%nat || (hash_size =? sz)%nat then hash else [].

Definition PoolHash_calc_from_data (data : byte_array) : byte_array := calc_hash data.

Definition PoolHash_put (h : byte_array) (os : obstream) : obstream := put_byte_array h os.
Definition PoolHash_get (ibs : ibstream) : option (byte_array * ibstream) := get_byte_array ibs.

(** ** Codecs *)

Definition UserField_ok (f : UserField) : Prop :=
  match f with
  | UF_Unknown => False
  | UF_Integer v => is_u64 v
  | UF_String s => c_ok c_string s
  | UF_Amount a => Amount_repr a
  end.

Definition c_user_field : codec UserField := Codec UserField_put UserField_get UserField_ok.
Definition c_address : codec byte_array := Codec Address_put Address_get (c_ok c_byte_array).
Definition c_currency : codec byte_array := Codec Currency_put Currency_get (c_ok c_string).
Definition c_pool_hash : codec byte_array := Codec PoolHash_put PoolHash_get (c_ok c_byte_array).
Definition c_user_fields : codec (list (Z * UserField)) := c_map (c_sint 4) c_user_field.

#[export] Instance c_address_laws : CodecLaws c_address := c_byte_array_laws.
#[export] Instance c_currency_laws : CodecLaws c_currency := c_string_laws.
#[export] Instance c_pool_hash_laws : CodecLaws c_pool_hash := c_byte_array_laws.

(** One alternative of a tagged union: the tag is written in front. *)
Definition c_tag {A} (tag : Z) (c : codec A) : codec A :=
  Codec (λ a os, c_put c a (put_integral 1 tag os))
    (λ ibs, '(t, ibs) ← get_integral 1 ibs; if t =? tag then c_get c ibs else None) (c_ok c).

Lemma get_put_tag {A} (c : codec A) `{!CodecLaws c} tag a rest :
  is_u8 tag →
  get_integral 1 (c_put c a (put_integral 1 tag []) ++ rest) = Some (tag, c_put c a [] ++ rest).
Proof.
  intros Ht. rewrite put_append, <- app_assoc. unfold put_integral.
  rewrite app_nil_l, get_integral_app. by rewrite Z.mod_small by exact Ht.
Qed.

#[export] Instance c_tag_laws {A} tag (c : codec A) :
  CodecLaws c → is_u8 tag → CodecLaws (c_tag tag c).
Proof.
  intros L Ht. split; simpl.
  - intros a os. rewrite put_append, (put_append a (put_integral 1 tag [])).
    unfold put_integral. by rewrite app_nil_l, app_assoc.
  - intros a Ha. rewrite put_append. apply bytes_ok_app. split; [apply le_bytes_ok|].
    by apply put_bytes.
  - intros a rest Ha. rewrite get_put_tag by (exact L || exact Ht). simpl. rewrite Z.eqb_refl. by apply get_put.
  - intros ibs a rest. destruct (get_integral 1 ibs) as [[t ibs']|] eqn:E; [|done]. simpl.
    case_test; [|done]. intros H. apply get_suffix in H as [u ->].
    apply (get_suffix (c := c_uint 1)) in E as [u' ->]. exists (u' ++ u). by rewrite app_assoc.
  - intros ibs a rest Hb. destruct (get_integral 1 ibs) as [[t ibs']|] eqn:E; [|done]. simpl.
    case_test; [|done]. intros H.
    apply (get_suffix (c := c_uint 1)) in E as [u' ->]. apply bytes_ok_app in Hb as [_ Hb].
    by eapply get_ok.
Qed.

#[export] Instance c_user_field_laws : CodecLaws c_user_field.
Proof.
  assert (is_u8 1) as T1 by (split; done). assert (is_u8 2) as T2 by (split; done).
  assert (is_u8 3) as T3 by (split; done).
  pose proof (c_tag_laws 1 (c_uint 8) _ T1) as L1.
  pose proof (c_tag_laws 2 c_string _ T2) as L2.
  pose proof (c_tag_laws 3 c_amount _ T3) as L3.
  assert (∀ ibs f rest, UserField_get ibs = Some (f, rest) →
    match f with
    | UF_Unknown => False
    | UF_Integer v => c_get (c_tag 1 (c_uint 8)) ibs = Some (v, rest)
    | UF_String s => c_get (c_tag 2 c_string) ibs = Some (s, rest)
    | UF_Amount a => c_get (c_tag 3 c_amount) ibs = Some (a, rest)
    end) as Hget.
  { intros ibs f rest. unfold UserField_get. simpl.
    destruct (get_integral 1 ibs) as [[t ibs']|]; [|done]. simpl.
    repeat case_test; try done; try lia;
      [destruct (get_integral 8 ibs') as [[? ?]|]|destruct (get_string ibs') as [[? ?]|]
      |destruct (Amount_get ibs') as [[? ?]|]]; intros; by simplify_eq/=. }
  split.
  - intros [|v|s|a] os; [by rewrite app_nil_r|..].
    + apply (put_append (c := c_tag 1 (c_uint 8))).
    + apply (put_append (c := c_tag 2 c_string)).
    + apply (put_append (c := c_tag 3 c_amount)).
  - intros [|v|s|a] Hok; [done|..].
    + by apply (put_bytes (c := c_tag 1 (c_uint 8))).
    + by apply (put_bytes (c := c_tag 2 c_string)).
    + by apply (put_bytes (c := c_tag 3 c_amount)).
  - intros [|v|s|a] rest Hok; [done|..]; cbn [c_get c_user_field]; unfold UserField_get.
    + change (c_put c_user_field (UF_Integer v) []) with (c_put (c_uint 8) v (put_integral 1 1 [])).
      rewrite (get_put_tag (c_uint 8) 1 v rest T1).
      assert (get_integral 8 (c_put (c_uint 8) v [] ++ rest) = Some (v, rest)) as E by exact (get_put v rest Hok).
      cbn -[get_integral get_string Amount_get c_put]. by rewrite E.
    + change (c_put c_user_field (UF_String s) []) with (c_put c_string s (put_integral 1 2 [])).
      rewrite (get_put_tag c_string 2 s rest T2).
      assert (get_string (c_put c_string s [] ++ rest) = Some (s, rest)) as E by exact (get_put s rest Hok).
      cbn -[get_integral get_string Amount_get c_put]. by rewrite E.
    + change (c_put c_user_field (UF_Amount a) []) with (c_put c_amount a (put_integral 1 3 [])).
      rewrite (get_put_tag c_amount 3 a rest T3).
      assert (Amount_get (c_put c_amount a [] ++ rest) = Some (a, rest)) as E by exact (get_put a rest Hok).
      cbn -[get_integral get_string Amount_get c_put]. by rewrite E.
  - intros ibs f rest H%Hget. destruct f; [done|..].
    + by apply (get_suffix (c := c_tag 1 (c_uint 8))) in H.
    + by apply (get_suffix (c := c_tag 2 c_string)) in H.
    + by apply (get_suffix (c := c_tag 3 c_amount)) in H.
  - intros ibs f rest Hb H%Hget. destruct f; [done|..].
    + by apply (get_ok (c := c_tag 1 (c_uint 8)) ibs i_value rest).
    + by apply (get_ok (c := c_tag 2 c_string) ibs s_value rest).
    + by apply (get_ok (c := c_tag 3 c_amount) ibs a_value rest).
Qed.

#[export] Instance c_user_fields_laws : CodecLaws c_user_fields.
Proof. apply c_map_laws; apply _. Qed.

(** ** Lemmas *)

Lemma UserField_ok_valid f : UserField_ok f → UserField_is_valid f = true.
Proof. by destruct f. Qed.

Lemma UserField_is_equal_eq f other : UserField_is_equal f other = true ↔ f = other.
Proof.
  unfold UserField_is_equal. destruct f, other; simpl; split; try done; try congruence.
  - intros ->%Z.eqb_eq. done.
  - intros [= ->]. apply Z.eqb_refl.
  - intros ->%bytes_eqb_eq. done.
  - intros [= ->]. apply bytes_eqb_refl.
  - unfold Amount_eqb. intros [E1%Z.eqb_eq E2%Z.eqb_eq]%andb_true_iff.
    destruct a_value, a_value0. simpl in *. by subst.
  - intros [= ->]. unfold Amount_eqb. by rewrite !Z.eqb_refl.
Qed.

Lemma Address_from_to_string a :
  bytes_ok a → Address_is_valid a = true → Address_from_string (Address_to_string a) = a.
Proof.
  unfold Address_is_valid, Address_from_string, Address_to_string. intros Hb Hv%Nat.eqb_eq.
  rewrite from_hex_to_hex by exact Hb. by rewrite Hv.
Qed.

Lemma PoolHash_from_to_string h :
  bytes_ok h → length h = 0%nat ∨ length h = hash_size →
  PoolHash_from_string (PoolHash_to_string h) = h.
Proof.
  unfold PoolHash_from_string, PoolHash_to_string. intros Hb Hl.
  rewrite from_hex_to_hex by exact Hb. by destruct Hl as [-> | ->].
Qed.

Lemma PoolHash_is_empty_spec h : PoolHash_is_empty h = true ↔ h = [].
Proof. apply bytes_eqb_eq. Qed.
