(* ===== verification/Transaction.v ===== *)
(** * Transaction: transactions and their identifiers

    Models [csdb/src/transaction.cpp] and [csdb/src/transaction_p.h].  A
    [TransactionID] is the hash of a pool and an index in it; a [Transaction] is
    its [priv] record.  Setters do nothing on a transaction that a pool has
    sealed.  The copy constructor of [priv] drops the identifier and the seal:
    it is [Transaction_clone]. *)

From S2P Require Import Prelude Hex StdMap Streams Format Amount Values.

(** ** Transaction identifiers *)

Record TransactionID := mkTransactionID { id_pool_hash_ : byte_array; id_index_ : Z }.

#[export] Instance TransactionID_eq_dec : EqDecision TransactionID.
Proof. solve_decision. Defined.

(** [TransactionID()] *)
Definition TransactionID_default : TransactionID := mkTransactionID [] 0.

Definition TransactionID_is_valid (id : TransactionID) : bool :=
  negb (PoolHash_is_empty (id_pool_hash_ id)).

Definition TransactionID_to_string (id : TransactionID) : byte_array :=
  PoolHash_to_string (id_pool_hash_ id) ++ 58 :: pad_left 48 8 (print_base 16 (id_index_ id)).

(** [std::isspace] in the C locale. *)
Definition is_space (c : Z) : bool := (c =? 32) || ((9 <=? c) && (c <=? 13)).

Fixpoint skip_space (s : byte_array) : byte_array :=
  match s with
  | c :: s' => if is_space c then skip_space s' else s
  | [] => []
  end.

Definition UINTMAX_MAX : Z := 0xFFFFFFFFFFFFFFFF.

(** [strtoumax(s, &end, 10)]: the value and the text at [end]; without a digit
    [end] is [s].  Values out of range saturate. *)
Definition strtoumax10 (s : byte_array) : Z * byte_array :=
  let s1 := skip_space s in
  let '(neg, s2) := match s1 with
                    | c :: s' => if c =? 45 then (true, s') else if c =? 43 then (false, s') else (false, s1)
                    | [] => (false, s1)
                    end in
  let '(v, rest) := read_digits 10 0 s2 in
  if (length rest =? length s2)%nat then (0, s)
  else if UINTMAX_MAX <? v then (UINTMAX_MAX, rest)
  else (if neg then u64 (- v) else v, rest).

(** A C string: the bytes before the first zero. *)
Fixpoint c_str (s : byte_array) : byte_array :=
  match s with
  | c :: s' => if c =? 0 then [] else c :: c_str s'
  | [] => []
  end.

(** [str.find(c)], as the text before and after. *)
Fixpoint split_at (c : Z) (s : byte_array) : option (byte_array * byte_array) :=
  match s with
  | [] => None
  | x :: s' => if x =? c then Some ([], s') else '(a, b) ← split_at c s'; Some (x :: a, b)
  end.

Definition TransactionID_from_string (s : byte_array) : TransactionID :=
  match split_at 58 s with
  | None => TransactionID_default
  | Some (before, after) =>
      let ph := PoolHash_from_string before in
      if PoolHash_is_empty ph then TransactionID_default
      else
        let start := c_str after in
        if (length start =? 0)%nat then TransactionID_default
        else
          let '(idx, end_) := strtoumax10 start in
          if negb (length end_ =? length start)%nat && (length end_ =? 0)%nat
          then mkTransactionID ph idx
          else TransactionID_default
  end.

Definition TransactionID_eqb (id other : TransactionID) : bool :=
  PoolHash_eqb (id_pool_hash_ id) (id_pool_hash_ other) && (id_index_ id =? id_index_ other).

Definition TransactionID_ltb (id other : TransactionID) : bool :=
  if PoolHash_eqb (id_pool_hash_ id) (id_pool_hash_ other)
  then id_index_ id <? id_index_ other
  else PoolHash_ltb (id_pool_hash_ id) (id_pool_hash_ other).

Definition TransactionID_put (id : TransactionID) (os : obstream) : obstream :=
  put_integral 8 (id_index_ id) (PoolHash_put (id_pool_hash_ id) os).

Definition TransactionID_get (ibs : ibstream) : option (TransactionID * ibstream) :=
  '(h, ibs) ← PoolHash_get ibs; '(i, ibs) ← get_integral 8 ibs; Some (mkTransactionID h i, ibs).

(** ** Transactions *)

Record Transaction := mkTransaction {
  t_read_only_ : bool;
  t_id_ : TransactionID;
  t_innerID_ : Z;
  t_source_ : byte_array;
  t_target_ : byte_array;
  t_currency_ : byte_array;
  t_amount_ : Amount;
  t_max_fee_ : Amount;
  t_counted_fee_ : Amount;
  t_signature_ : byte_array;
  t_balance_ : Amount;
  t_user_fields_ : list (Z * UserField);
}.

#[export] Instance Transaction_eq_dec : EqDecision Transaction.
Proof. solve_decision. Defined.

(** [Transaction()].  The constructor leaves [innerID_] uninitialised; the argument
    is what it happens to hold. *)
Definition Transaction_new (innerID : Z) : Transaction :=
  mkTransaction false TransactionID_default innerID [] [] [] Amount_zero Amount_zero Amount_zero []
    Amount_zero [].

(** The same where the transaction only stands for a missing one, and its number
    is not used. *)
Definition Transaction_default : Transaction := Transaction_new 0.

(** [Transaction::priv(const priv&)] *)
Definition Transaction_clone (t : Transaction) : Transaction :=
  mkTransaction false TransactionID_default (t_innerID_ t) (t_source_ t) (t_target_ t)
    (t_currency_ t) (t_amount_ t) (t_max_fee_ t) (t_counted_fee_ t) (t_signature_ t)
    (t_balance_ t) (t_user_fields_ t).

(** [Transaction::priv(innerID, ..., balance)] *)
Definition Transaction_priv (innerID : Z) (source target currency : byte_array)
    (amount max_fee counted_fee : Amount) (signature : byte_array) (balance : Amount) : Transaction :=
  mkTransaction false TransactionID_default innerID source target currency amount max_fee
    counted_fee signature balance [].

(** The constructor without a balance, with the order in which it passes its
    arguments on. *)
Definition Transaction_make8 (innerID : Z) (source target currency : byte_array)
    (amount max_fee counted_fee : Amount) (signature : byte_array) : Transaction :=
  Transaction_priv innerID source target currency max_fee counted_fee amount signature amount.

(** The constructor with a balance; the header calls the three amounts
    [amount], [max_fee] and [counted_fee]. *)
Definition Transaction_make9 (innerID : Z) (source target currency : byte_array)
    (amount max_fee counted_fee : Amount) (signature : byte_array) (balance : Amount) : Transaction :=
  Transaction_priv innerID source target currency amount max_fee counted_fee signature balance.

(** [Transaction::priv::_update_id] *)
Definition Transaction_update_id (pool_hash : byte_array) (index : Z) (t : Transaction) : Transaction :=
  mkTransaction true (mkTransactionID pool_hash index) (t_innerID_ t) (t_source_ t) (t_target_ t)
    (t_currency_ t) (t_amount_ t) (t_max_fee_ t) (t_counted_fee_ t) (t_signature_ t)
    (t_balance_ t) (t_user_fields_ t).

Definition Transaction_is_valid (t : Transaction) : bool :=
  Address_is_valid (t_source_ t) && Address_is_valid (t_target_ t) &&
  Currency_is_valid (t_currency_ t) && Amount_geb (t_amount_ t) Amount_zero &&
  negb (Address_eqb (t_source_ t) (t_target_ t)).

(** *** Setters *)

Definition Transaction_set_innerID (innerID : Z) (t : Transaction) : Transaction :=
  if t_read_only_ t then t else
  mkTransaction (t_read_only_ t) (t_id_ t) innerID (t_source_ t) (t_target_ t) (t_currency_ t)
    (t_amount_ t) (t_max_fee_ t) (t_counted_fee_ t) (t_signature_ t) (t_balance_ t) (t_user_fields_ t).

Definition Transaction_set_source (source : byte_array) (t : Transaction) : Transaction :=
  if t_read_only_ t then t else
  mkTransaction (t_read_only_ t) (t_id_ t) (t_innerID_ t) source (t_target_ t) (t_currency_ t)
    (t_amount_ t) (t_max_fee_ t) (t_counted_fee_ t) (t_signature_ t) (t_balance_ t) (t_user_fields_ t).

Definition Transaction_set_target (target : byte_array) (t : Transaction) : Transaction :=
  if t_read_only_ t then t else
  mkTransaction (t_read_only_ t) (t_id_ t) (t_innerID_ t) (t_source_ t) target (t_currency_ t)
    (t_amount_ t) (t_max_fee_ t) (t_counted_fee_ t) (t_signature_ t) (t_balance_ t) (t_user_fields_ t).

Definition Transaction_set_currency (currency : byte_array) (t : Transaction) : Transaction :=
  if t_read_only_ t then t else
  mkTransaction (t_read_only_ t) (t_id_ t) (t_innerID_ t) (t_source_ t) (t_target_ t) currency
    (t_amount_ t) (t_max_fee_ t) (t_counted_fee_ t) (t_signature_ t) (t_balance_ t) (t_user_fields_ t).

Definition Transaction_set_amount (amount : Amount) (t : Transaction) : Transaction :=
  if t_read_only_ t then t else
  mkTransaction (t_read_only_ t) (t_id_ t) (t_innerID_ t) (t_source_ t) (t_target_ t) (t_currency_ t)
    amount (t_max_fee_ t) (t_counted_fee_ t) (t_signature_ t) (t_balance_ t) (t_user_fields_ t).

Definition Transaction_set_max_fee (max_fee : Amount) (t : Transaction) : Transaction :=
  if t_read_only_ t then t else
  mkTransaction (t_read_only_ t) (t_id_ t) (t_innerID_ t) (t_source_ t) (t_target_ t) (t_currency_ t)
    (t_amount_ t) max_fee (t_counted_fee_ t) (t_signature_ t) (t_balance_ t) (t_user_fields_ t).

Definition Transaction_set_counted_fee (counted_fee : Amount) (t : Transaction) : Transaction :=
  if t_read_only_ t then t else
  mkTransaction (t_read_only_ t) (t_id_ t) (t_innerID_ t) (t_source_ t) (t_target_ t) (t_currency_ t)
    (t_amount_ t) (t_max_fee_ t) counted_fee (t_signature_ t) (t_balance_ t) (t_user_fields_ t).

Definition Transaction_set_signature (signature : byte_array) (t : Transaction) : Transaction :=
  if t_read_only_ t then t else
  mkTransaction (t_read_only_ t) (t_id_ t) (t_innerID_ t) (t_source_ t) (t_target_ t) (t_currency_ t)
    (t_amount_ t) (t_max_fee_ t) (t_counted_fee_ t) signature (t_balance_ t) (t_user_fields_ t).

Definition Transaction_set_balance (balance : Amount) (t : Transaction) : Transaction :=
  if t_read_only_ t then t else
  mkTransaction (t_read_only_ t) (t_id_ t) (t_innerID_ t) (t_source_ t) (t_target_ t) (t_currency_ t)
    (t_amount_ t) (t_max_fee_ t) (t_counted_fee_ t) (t_signature_ t) balance (t_user_fields_ t).

Definition Transaction_add_user_field (id : Z) (field : UserField) (t : Transaction) : bool * Transaction :=
  if t_read_only_ t || negb (UserField_is_valid field) then (false, t) else
  (true, mkTransaction (t_read_only_ t) (t_id_ t) (t_innerID_ t) (t_source_ t) (t_target_ t) (t_currency_ t)
    (t_amount_ t) (t_max_fee_ t) (t_counted_fee_ t) (t_signature_ t) (t_balance_ t)
    (map_set id field (t_user_fields_ t))).

Definition Transaction_user_field (id : Z) (t : Transaction) : UserField :=
  match map_find id (t_user_fields_ t) with Some f => f | None => UF_Unknown end.

Definition Transaction_user_field_ids (t : Transaction) : list Z := (t_user_fields_ t).*1.

(** *** Serialisation *)

Definition Transaction_put (t : Transaction) (os : obstream) : obstream :=
  let os := put_integral 8 (t_innerID_ t) os in
  let os := Address_put (t_source_ t) os in
  let os := Address_put (t_target_ t) os in
  let os := Currency_put (t_currency_ t) os in
  let os := Amount_put (t_amount_ t) os in
  let os := Amount_put (t_max_fee_ t) os in
  let os := Amount_put (t_counted_fee_ t) os in
  let os := put_map (put_integral 4) UserField_put (t_user_fields_ t) os in
  let os := put_string (t_signature_ t) os in
  Amount_put (t_balance_ t) os.

Definition Transaction_get (ibs : ibstream) : option (Transaction * ibstream) :=
  '(innerID, ibs) ← get_signed 8 ibs;
  '(source, ibs) ← Address_get ibs;
  '(target, ibs) ← Address_get ibs;
  '(currency, ibs) ← Currency_get ibs;
  '(amount, ibs) ← Amount_get ibs;
  '(max_fee, ibs) ← Amount_get ibs;
  '(counted_fee, ibs) ← Amount_get ibs;
  '(user_fields, ibs) ← get_map (get_signed 4) UserField_get ibs;
  '(signature, ibs) ← get_string ibs;
  '(balance, ibs) ← Amount_get ibs;
  Some (mkTransaction false TransactionID_default innerID source target currency amount max_fee
          counted_fee signature balance user_fields, ibs).

Definition Transaction_to_binary (t : Transaction) : byte_array :=
  if negb (Transaction_is_valid t) then [] else Transaction_put t [].

Definition Transaction_from_binary (data : byte_array) : Transaction :=
  match Transaction_get data with
  | None => Transaction_default
  | Some (t, _) => t
  end.

Definition Transaction_from_byte_stream (data : byte_array) : Transaction :=
  match Transaction_get data with
  | None => Transaction_default
  | Some (t, _) => t
  end.

Definition Transaction_to_byte_stream (t : Transaction) : byte_array := Transaction_put t [].

(** [vector::erase] of one element. *)
Definition erase_at (n : nat) (l : byte_array) : byte_array := take n l ++ drop (S n) l.

(** [to_byte_stream_for_sig]; [None] when a key has fewer than the 32 bytes
    that are read from it. *)
Definition Transaction_to_byte_stream_for_sig (t : Transaction) : option byte_array :=
  if (length (Address_public_key (t_source_ t)) <? 32)%nat
     || (length (Address_public_key (t_target_ t)) <? 32)%nat then None
  else
    let os := put_integral 8 (t_innerID_ t) [] in
    let os := put_raw (take 32 (Address_public_key (t_source_ t))) os in
    let os := put_raw (take 32 (Address_public_key (t_target_ t))) os in
    let currency := if bytes_eqb (Currency_to_string (t_currency_ t)) (str "CS") then 1 else 0 in
    let os := Amount_put (t_amount_ t) os in
    let os := Amount_put (t_max_fee_ t) os in
    let os := put_integral 1 currency os in
    let fixed_prefix_length := length os in
    let custom_user_fields := map_from 0 (t_user_fields_ t) in
    if negb (length custom_user_fields =? 0)%nat then
      Some (erase_at (fixed_prefix_length + 4) (put_smart UserField_put custom_user_fields os))
    else Some (put_integral 4 0 os).

(** ** Well-formed transactions *)

Definition Transaction_ok (t : Transaction) : Prop :=
  is_i64 (t_innerID_ t) ∧ c_ok c_byte_array (t_source_ t) ∧ c_ok c_byte_array (t_target_ t) ∧
  c_ok c_string (t_currency_ t) ∧ Amount_repr (t_amount_ t) ∧ Amount_repr (t_max_fee_ t) ∧
  Amount_repr (t_counted_fee_ t) ∧ c_ok c_user_fields (t_user_fields_ t) ∧
  c_ok c_string (t_signature_ t) ∧ Amount_repr (t_balance_ t).

(** Not sealed by a pool: what the serialised form describes. *)
Definition Transaction_unsealed (t : Transaction) : Prop :=
  t_read_only_ t = false ∧ t_id_ t = TransactionID_default.

Definition c_transaction : codec Transaction :=
  Codec Transaction_put Transaction_get (λ t, Transaction_ok t ∧ Transaction_unsealed t).

(** The tuple of the serialised fields. *)
Definition c_transaction_fields :=
  c_pair (c_sint 8) (c_pair c_address (c_pair c_address (c_pair c_currency (c_pair c_amount
    (c_pair c_amount (c_pair c_amount (c_pair c_user_fields (c_pair c_string c_amount)))))))).

#[export] Instance c_transaction_laws : CodecLaws c_transaction.
Proof.
  apply (iso_laws c_transaction_fields c_transaction
    (λ '(i, (s, (d, (c, (a, (m, (f, (u, (g, b))))))))),
       mkTransaction false TransactionID_default i s d c a m f g b u)
    (λ t, (t_innerID_ t, (t_source_ t, (t_target_ t, (t_currency_ t, (t_amount_ t,
           (t_max_fee_ t, (t_counted_fee_ t, (t_user_fields_ t, (t_signature_ t, t_balance_ t))))))))))).
  - unfold c_transaction_fields. apply _.
  - intros [] [Hok [Hr Hi]]. simpl in *. subst. done.
  - intros (i & s & d & c & a & m & f & u & g & b) H. done.
  - done.
  - intros ibs. cbn [c_get c_transaction]. unfold c_transaction_fields, Transaction_get.
    unfold c_user_fields, c_map, c_address, c_currency, Address_get, Currency_get. same_reads.
Qed.

#[export] Instance c_transaction_progress : CodecProgress c_transaction.
Proof.
  apply (iso_progress c_transaction_fields c_transaction
    (λ '(i, (s, (d, (c, (a, (m, (f, (u, (g, b))))))))),
       mkTransaction false TransactionID_default i s d c a m f g b u)).
  - unfold c_transaction_fields. apply _.
  - intros ibs. cbn [c_get c_transaction]. unfold c_transaction_fields, Transaction_get.
    unfold c_user_fields, c_map, c_address, c_currency, Address_get, Currency_get. same_reads.
Qed.

(** ** Lemmas *)

Lemma Transaction_put_clone t os : Transaction_put (Transaction_clone t) os = Transaction_put t os.
Proof. done. Qed.

Lemma Transaction_clone_ok t : Transaction_ok t → c_ok c_transaction (Transaction_clone t).
Proof. done. Qed.

Lemma Transaction_get_put t rest :
  Transaction_ok t → Transaction_get (Transaction_put t [] ++ rest) = Some (Transaction_clone t, rest).
Proof. intros H. apply (get_put (c := c_transaction) (Transaction_clone t) rest). by apply Transaction_clone_ok. Qed.

Lemma Transaction_clone_update h i t : Transaction_clone (Transaction_update_id h i t) = Transaction_clone t.
Proof. done. Qed.

Lemma split_at_app c s s' : c ∉ s → split_at c (s ++ c :: s') = Some (s, s').
Proof.
  induction s as [|x s IH]; cbn [app split_at]; intros Hn; [by rewrite Z.eqb_refl|].
  rewrite (proj2 (Z.eqb_neq x c)) by (intros ->; apply Hn; constructor).
  rewrite IH; [done|]. intros ?. apply Hn. by constructor.
Qed.

Lemma c_str_id s : Forall (λ c, c ≠ 0) s → c_str s = s.
Proof.
  induction 1 as [|c s Hc _ IH]; [done|]. cbn [c_str].
  rewrite (proj2 (Z.eqb_neq c 0)) by exact Hc. by rewrite IH.
Qed.

Lemma strtoumax10_hex s :
  Forall (is_digit 16) s → s ≠ [] →
  strtoumax10 s = (let '(v, rest) := read_digits 10 0 s in
                   if (length rest =? length s)%nat then (0, s)
                   else if UINTMAX_MAX <? v then (UINTMAX_MAX, rest) else (v, rest)).
Proof.
  intros H Hne. destruct H as [|c s Hc Hs]; [done|].
  apply is_digit_bounds16 in Hc. unfold strtoumax10. cbn [skip_space].
  assert (is_space c = false) as -> by (unfold is_space; repeat case_test; simpl; try done; lia).
  by rewrite (proj2 (Z.eqb_neq c 45)), (proj2 (Z.eqb_neq c 43)) by lia.
Qed.

(** The text [from_string] reads as the index of an identifier that
    [to_string] printed. *)
Lemma TransactionID_from_to_string_eq h i :
  bytes_ok h → length h = hash_size → 0 <= i →
  TransactionID_from_string (TransactionID_to_string (mkTransactionID h i))
  = (let s := pad_left 48 8 (print_base 16 i) in
     let '(idx, end_) := strtoumax10 s in
     if negb (length end_ =? length s)%nat && (length end_ =? 0)%nat
     then mkTransactionID h idx else TransactionID_default).
Proof.
  intros Hb Hl Hi. unfold TransactionID_from_string, TransactionID_to_string. cbn [id_pool_hash_ id_index_].
  assert (Forall (is_digit 16) (pad_left 48 8 (print_base 16 i))) as Hd
    by (apply pad_digits; [lia|]; by apply print_base_digits).
  rewrite split_at_app.
  2: { intros Hin. pose proof (to_hex_digits h Hb) as HF. rewrite forallb_forall in HF.
       apply list_elem_of_In, HF in Hin. done. }
  rewrite PoolHash_from_to_string by auto.
  assert (PoolHash_is_empty h = false) as ->.
  { apply not_true_iff_false. rewrite PoolHash_is_empty_spec. by intros ->. }
  rewrite c_str_id.
  2: { eapply Forall_impl; [exact Hd|]. intros c Hc. apply is_digit_bounds16 in Hc. lia. }
  assert (length (pad_left 48 8 (print_base 16 i)) ≠ 0%nat) as Hn.
  { unfold pad_left. rewrite length_app, length_replicate. lia. }
  by rewrite (proj2 (Nat.eqb_neq _ _) Hn).
Qed.

Lemma Transaction_put_length_amount a : length (Amount_put a []) = 12%nat.
Proof. unfold Amount_put, put_integral. by rewrite !length_app, !length_le_bytes. Qed.

(** The fixed part of the signed bytes. *)
Definition sig_prefix (t : Transaction) : byte_array :=
  le_bytes 8 (t_innerID_ t) ++ t_source_ t ++ t_target_ t ++
  Amount_put (t_amount_ t) [] ++ Amount_put (t_max_fee_ t) [] ++
  [if bytes_eqb (t_currency_ t) (str "CS") then 1 else 0].

Lemma length_sig_prefix t :
  length (t_source_ t) = 32%nat → length (t_target_ t) = 32%nat → length (sig_prefix t) = 97%nat.
Proof.
  intros Hs Ht. unfold sig_prefix.
  by rewrite !length_app, length_le_bytes, Hs, Ht, !Transaction_put_length_amount.
Qed.

Lemma take_erase_at n m l : (n <= m)%nat → take n (erase_at m l) = take n l.
Proof.
  intros H. unfold erase_at. destruct (decide (m <= length l)%nat).
  - rewrite take_app_le by (rewrite length_take; lia). rewrite take_take. f_equal. lia.
  - rewrite (take_ge l m), (drop_ge l) by lia. by rewrite app_nil_r.
Qed.

Lemma put_smart_prefix (l : list (Z * UserField)) os :
  take (length os) (put_smart UserField_put l os) = os.
Proof.
  unfold put_smart.
  assert (∀ l o, fold_left (λ os (it : Z * UserField), UserField_put it.2 os) l (os ++ o) =
                 os ++ fold_left (λ os (it : Z * UserField), UserField_put it.2 os) l o) as H.
  { clear. induction l as [|[k f] l IH]; intros o; [done|]. simpl.
    rewrite <- IH. f_equal. change UserField_put with (c_put c_user_field).
    rewrite put_append, (put_append f o). by rewrite app_assoc. }
  unfold put_integral. rewrite H. apply take_app_length.
Qed.

Lemma for_sig_prefix t b :
  length (t_source_ t) = 32%nat → length (t_target_ t) = 32%nat →
  Transaction_to_byte_stream_for_sig t = Some b → take 97 b = sig_prefix t.
Proof.
  intros Hs Ht. unfold Transaction_to_byte_stream_for_sig, Address_public_key, Currency_to_string.
  rewrite Hs, Ht. cbn [Nat.ltb Nat.leb orb].
  set (os := put_integral 1 _ _). assert (os = sig_prefix t) as E.
  { unfold os, put_raw, sig_prefix, Amount_put, put_integral. rewrite !take_ge by lia.
    rewrite app_nil_l, <- !app_assoc. cbn [app]. do 8 f_equal. by destruct (bytes_eqb _ _). }
  pose proof (length_sig_prefix t Hs Ht) as L. rewrite E. clear os E.
  set (P := sig_prefix t) in *. clearbody P. case_match; intros [= <-].
  - rewrite take_erase_at by lia. rewrite <- L. apply put_smart_prefix.
  - unfold put_integral. rewrite <- L. apply take_app_length.
Qed.

(** ** Properties *)

(** C22: reading back the bytes of a well-formed transaction gives its data,
    without the identifier and the seal, and leaves what follows; whatever bytes
    are read as a transaction, the result is well-formed. *)
Theorem Transaction_roundtrip t rest ibs :
  (Transaction_ok t →
   Transaction_get (Transaction_to_byte_stream t ++ rest) = Some (Transaction_clone t, rest) ∧
   Transaction_from_binary (Transaction_to_byte_stream t) = Transaction_clone t) ∧
  (bytes_ok ibs → ∀ t' rest', Transaction_get ibs = Some (t', rest') →
   Transaction_ok t' ∧ (length rest' < length ibs)%nat).
Proof.
  split.
  - intros Ht. split; [by apply Transaction_get_put|].
    unfold Transaction_from_binary, Transaction_to_byte_stream.
    pose proof (Transaction_get_put t [] Ht) as E. rewrite app_nil_r in E. by rewrite E.
  - intros Hb t' rest' H. split.
    + apply (get_ok (c := c_transaction) ibs t' rest' Hb H).
    + apply (get_progress (c := c_transaction) ibs t' rest' H).
Qed.

(** The text of a transaction identifier, whose index is printed in
    hexadecimal but read in decimal, reads back as the same identifier exactly
    when the index is below ten. *)
Theorem TransactionID_text_roundtrip h i :
  bytes_ok h → length h = hash_size → is_u64 i →
  TransactionID_from_string (TransactionID_to_string (mkTransactionID h i)) = mkTransactionID h i
  ↔ i < 10.
Proof.
  intros Hb Hl Hi. rewrite TransactionID_from_to_string_eq by (unfold_widths; done || lia). cbv zeta.
  assert (0 <= i) as Hi0 by (unfold_widths; lia).
  destruct (print_base_digits 16 i ltac:(lia) Hi0) as [Hne Hd].
  pose proof (pad_digits 16 8 _ ltac:(lia) Hd) as Hp.
  set (s := pad_left 48 8 (print_base 16 i)) in *.
  assert (s ≠ []) as Hs by (unfold s, pad_left; by intros [_ ?]%app_eq_nil).
  assert ((read_digits 16 0 s).1 = i) as E16.
  { unfold s. rewrite read_pad by (lia || done). rewrite read_print by lia. lia. }
  rewrite strtoumax10_hex by done. destruct (read_digits 10 0 s) as [v rest] eqn:E.
  assert (mkTransactionID h i ≠ TransactionID_default) as Hnd by (intros [= -> _]; done).
  destruct rest as [|c rest].
  - pose proof (read_digits_hex s 0 Hp ltac:(by rewrite E)) as H10.
    pose proof (read_10_16 s H10) as Hle. cbv zeta in Hle. rewrite E, E16 in Hle. cbn [fst] in Hle.
    rewrite (proj2 (Nat.eqb_neq (length []) (length s))) by (destruct s; [done|simpl; lia]).
    rewrite (proj2 (Z.ltb_ge UINTMAX_MAX v)) by (unfold UINTMAX_MAX; unfold_widths; lia).
    rewrite (proj2 (Nat.eqb_neq (length []) (length s))) by (destruct s; [done|simpl; lia]).
    simpl. split; [intros [=]; lia|]. intros. f_equal. lia.
  - assert (10 <= i) as Hge.
    { apply Z.nlt_ge. intros Hlt. pose proof (print_hex_small i ltac:(lia)) as Hsm.
      pose proof (read_digits_all 10 0 s ltac:(lia) ltac:(by apply pad_digits)) as Hr.
      by rewrite E in Hr. }
    split; [|lia]. intros Heq. exfalso. apply Hnd. rewrite <- Heq.
    destruct (length (c :: rest) =? length s)%nat; [by rewrite Nat.eqb_refl|].
    destruct (UINTMAX_MAX <? v); simpl; by rewrite andb_false_r.
Qed.

Lemma TransactionID_text_roundtrip_witness :
  TransactionID_from_string (TransactionID_to_string (mkTransactionID (replicate 32 171) 7))
  = mkTransactionID (replicate 32 171) 7 ∧
  TransactionID_from_string (TransactionID_to_string (mkTransactionID (replicate 32 171) 16))
  ≠ mkTransactionID (replicate 32 171) 16.
Proof.
  assert (bytes_ok (replicate 32 171)) as Hb by (apply Forall_replicate; split; done).
  split.
  - by apply (TransactionID_text_roundtrip (replicate 32 171) 7 Hb eq_refl ltac:(split; done)).
  - intros E. apply (TransactionID_text_roundtrip (replicate 32 171) 16 Hb eq_refl ltac:(split; done)) in E.
    lia.
Defined.

(** The bytes that are signed determine the number, the parties, the
    amount and the fee limit of a transaction, and whether its currency is the
    native one. *)
Theorem for_sig_binds t1 t2 :
  Transaction_ok t1 → Transaction_ok t2 →
  Address_is_valid (t_source_ t1) = true → Address_is_valid (t_target_ t1) = true →
  Address_is_valid (t_source_ t2) = true → Address_is_valid (t_target_ t2) = true →
  Transaction_to_byte_stream_for_sig t1 = Transaction_to_byte_stream_for_sig t2 →
  t_innerID_ t1 = t_innerID_ t2 ∧ t_source_ t1 = t_source_ t2 ∧ t_target_ t1 = t_target_ t2 ∧
  t_amount_ t1 = t_amount_ t2 ∧ t_max_fee_ t1 = t_max_fee_ t2 ∧
  bytes_eqb (t_currency_ t1) (str "CS") = bytes_eqb (t_currency_ t2) (str "CS").
Proof.
  unfold Address_is_valid. rewrite !Nat.eqb_eq. unfold public_key_size.
  intros Ok1 Ok2 S1 T1 S2 T2 E.
  assert (∃ b, Transaction_to_byte_stream_for_sig t1 = Some b) as [b Eb].
  { unfold Transaction_to_byte_stream_for_sig, Address_public_key. rewrite S1, T1.
    cbn [Nat.ltb Nat.leb orb]. case_match; eauto. }
  pose proof (for_sig_prefix t1 b S1 T1 Eb) as P1. rewrite E in Eb.
  pose proof (for_sig_prefix t2 b S2 T2 Eb) as P2. rewrite P1 in P2. unfold sig_prefix in P2.
  apply app_inj_1 in P2 as [E1 P2]; [|by rewrite !length_le_bytes].
  apply app_inj_1 in P2 as [E2 P2]; [|by rewrite S1].
  apply app_inj_1 in P2 as [E3 P2]; [|by rewrite T1].
  apply app_inj_1 in P2 as [E4 P2]; [|by rewrite !Transaction_put_length_amount].
  apply app_inj_1 in P2 as [E5 P2]; [|by rewrite !Transaction_put_length_amount].
  unfold Transaction_ok in Ok1, Ok2. destruct_and!.
  split; [|split; [done|split; [done|split; [|split]]]].
  - by apply (put_inj (c_sint 8)).
  - by apply (put_inj c_amount).
  - by apply (put_inj c_amount).
  - by destruct (bytes_eqb (t_currency_ t1) _), (bytes_eqb (t_currency_ t2) _).
Qed.

(** A transaction between two addresses, for the examples. *)
Definition sample_transaction (fields : list (Z * UserField)) : Transaction :=
  mkTransaction false TransactionID_default 7 (replicate 32 1) (replicate 32 2) (str "CS")
    (mkAmount 5 250000000000000000) (mkAmount 1 0) (mkAmount 0 10000000000000000)
    (replicate 64 9) (mkAmount 100 0) fields.

(** Discharge the well-formedness of a closed value. *)
Ltac closed_ok :=
  repeat match goal with
  | |- _ ∧ _ => split
  | |- Forall _ (_ :: _) => constructor
  | |- Forall _ [] => constructor
  | |- Forall _ (replicate _ _) => apply Forall_replicate
  | |- StronglySorted _ _ => constructor
  | |- bytes_ok _ => unfold bytes_ok
  | |- c_ok _ _ => unfold c_ok; simpl
  end; try done.

Lemma sample_transaction_ok f :
  UserField_ok f → Transaction_ok (sample_transaction [(0, f)]).
Proof.
  intros Hf. unfold Transaction_ok, sample_transaction, Amount_repr, c_user_fields, c_map, map_sorted; simpl.
  closed_ok; try (apply str_ok); closed_ok.
Qed.

Lemma Transaction_roundtrip_witness :
  Transaction_from_binary (Transaction_to_byte_stream (sample_transaction [(0, UF_Integer 42)]))
  = sample_transaction [(0, UF_Integer 42)].
Proof.
  destruct (Transaction_roundtrip (sample_transaction [(0, UF_Integer 42)]) [] []) as [H _].
  destruct H as [_ E]; [apply sample_transaction_ok; split; done|]. exact E.
Defined.

Lemma for_sig_binds_witness :
  t_amount_ (sample_transaction [(0, UF_Integer 42)]) = t_amount_ (sample_transaction [(5, UF_Integer 42)]).
Proof.
  apply (for_sig_binds (sample_transaction [(0, UF_Integer 42)]) (sample_transaction [(5, UF_Integer 42)]));
    try reflexivity; [apply sample_transaction_ok; split; done|].
  unfold Transaction_ok, sample_transaction, Amount_repr, c_user_fields, c_map, map_sorted; simpl.
  closed_ok; try (apply str_ok); closed_ok.
Defined.

(** The bytes that are signed do not determine the user fields: the type of
    the first field and the field numbers are left out, so that an integer and a
    string of four bytes may be signed alike. *)
Lemma for_sig_ambiguous :
  ∃ t1 t2, Transaction_is_valid t1 = true ∧ Transaction_is_valid t2 = true ∧
    Transaction_user_field 0 t1 = UF_Integer (4 + 2 ^ 32 * le_value (str "spam")) ∧
    Transaction_user_field 0 t2 = UF_String (str "spam") ∧
    Transaction_to_byte_stream_for_sig t1 = Transaction_to_byte_stream_for_sig t2.
Proof.
  exists (sample_transaction [(0, UF_Integer (4 + 2 ^ 32 * le_value (str "spam")))]),
         (sample_transaction [(0, UF_String (str "spam"))]).
  repeat split; vm_compute; reflexivity.
Qed.

(** The constructor without a balance stores the fee limit as the amount. *)
Lemma Transaction_make8_rotates i s d c a m f g :
  t_amount_ (Transaction_make8 i s d c a m f g) = m ∧
  t_max_fee_ (Transaction_make8 i s d c a m f g) = f ∧
  t_counted_fee_ (Transaction_make8 i s d c a m f g) = a.
Proof. done. Qed.
