(* ===== verification/Pool.v ===== *)
(** * Pool: blocks of transactions

    Models the class [Pool] of [csdb/src/pool.cpp].  A pool is built by adding
    transactions and fields, sealed by [compose] (which serialises it, hashes
    the bytes and numbers its transactions), and read back by [from_binary].
    The functions of libsodium and LZ4 are parameters.  Saving and loading,
    which need a storage, are in [Storage]. *)

From S2P Require Import Prelude Hex StdMap Streams Format Amount Values Transaction.

(** ** Data *)

Record Pool := mkPool {
  p_is_valid_ : bool;
  p_read_only_ : bool;
  p_hash_ : byte_array;
  p_previous_hash_ : byte_array;
  p_sequence_ : Z;
  p_transactions_ : list Transaction;
  p_transactionsCount_ : Z;
  p_user_fields_ : list (Z * UserField);
  p_signature_ : byte_array;
  p_writer_public_key_ : byte_array;
  p_binary_representation_ : byte_array;
  p_storage_ : option nat;
}.

#[export] Instance Pool_eq_dec : EqDecision Pool.
Proof. solve_decision. Defined.

(** [Pool()] *)
Definition Pool_default : Pool := mkPool false false [] [] 0 [] 0 [] [] [] [] None.

(** [Pool(previous_hash, sequence, storage)] *)
Definition Pool_make (previous_hash : byte_array) (sequence : Z) (storage : option nat) : Pool :=
  mkPool true false [] previous_hash sequence [] 0 [] [] [] [] storage.

(** Assignments to the fields of [Pool::priv]. *)
Definition assign_is_valid (b : bool) (p : Pool) : Pool :=
  mkPool b (p_read_only_ p) (p_hash_ p) (p_previous_hash_ p) (p_sequence_ p) (p_transactions_ p)
    (p_transactionsCount_ p) (p_user_fields_ p) (p_signature_ p) (p_writer_public_key_ p)
    (p_binary_representation_ p) (p_storage_ p).
Definition assign_hash (h : byte_array) (p : Pool) : Pool :=
  mkPool (p_is_valid_ p) (p_read_only_ p) h (p_previous_hash_ p) (p_sequence_ p) (p_transactions_ p)
    (p_transactionsCount_ p) (p_user_fields_ p) (p_signature_ p) (p_writer_public_key_ p)
    (p_binary_representation_ p) (p_storage_ p).
Definition assign_previous_hash (h : byte_array) (p : Pool) : Pool :=
  mkPool (p_is_valid_ p) (p_read_only_ p) (p_hash_ p) h (p_sequence_ p) (p_transactions_ p)
    (p_transactionsCount_ p) (p_user_fields_ p) (p_signature_ p) (p_writer_public_key_ p)
    (p_binary_representation_ p) (p_storage_ p).
Definition assign_sequence (s : Z) (p : Pool) : Pool :=
  mkPool (p_is_valid_ p) (p_read_only_ p) (p_hash_ p) (p_previous_hash_ p) s (p_transactions_ p)
    (p_transactionsCount_ p) (p_user_fields_ p) (p_signature_ p) (p_writer_public_key_ p)
    (p_binary_representation_ p) (p_storage_ p).
Definition assign_transactions (ts : list Transaction) (p : Pool) : Pool :=
  mkPool (p_is_valid_ p) (p_read_only_ p) (p_hash_ p) (p_previous_hash_ p) (p_sequence_ p) ts
    (p_transactionsCount_ p) (p_user_fields_ p) (p_signature_ p) (p_writer_public_key_ p)
    (p_binary_representation_ p) (p_storage_ p).
Definition assign_transactionsCount (n : Z) (p : Pool) : Pool :=
  mkPool (p_is_valid_ p) (p_read_only_ p) (p_hash_ p) (p_previous_hash_ p) (p_sequence_ p)
    (p_transactions_ p) n (p_user_fields_ p) (p_signature_ p) (p_writer_public_key_ p)
    (p_binary_representation_ p) (p_storage_ p).
Definition assign_user_fields (u : list (Z * UserField)) (p : Pool) : Pool :=
  mkPool (p_is_valid_ p) (p_read_only_ p) (p_hash_ p) (p_previous_hash_ p) (p_sequence_ p)
    (p_transactions_ p) (p_transactionsCount_ p) u (p_signature_ p) (p_writer_public_key_ p)
    (p_binary_representation_ p) (p_storage_ p).
Definition assign_signature (s : byte_array) (p : Pool) : Pool :=
  mkPool (p_is_valid_ p) (p_read_only_ p) (p_hash_ p) (p_previous_hash_ p) (p_sequence_ p)
    (p_transactions_ p) (p_transactionsCount_ p) (p_user_fields_ p) s (p_writer_public_key_ p)
    (p_binary_representation_ p) (p_storage_ p).
Definition assign_writer_public_key (k : byte_array) (p : Pool) : Pool :=
  mkPool (p_is_valid_ p) (p_read_only_ p) (p_hash_ p) (p_previous_hash_ p) (p_sequence_ p)
    (p_transactions_ p) (p_transactionsCount_ p) (p_user_fields_ p) (p_signature_ p) k
    (p_binary_representation_ p) (p_storage_ p).
Definition assign_binary_representation (b : byte_array) (p : Pool) : Pool :=
  mkPool (p_is_valid_ p) (p_read_only_ p) (p_hash_ p) (p_previous_hash_ p) (p_sequence_ p)
    (p_transactions_ p) (p_transactionsCount_ p) (p_user_fields_ p) (p_signature_ p)
    (p_writer_public_key_ p) b (p_storage_ p).
Definition assign_read_only (b : bool) (p : Pool) : Pool :=
  mkPool (p_is_valid_ p) b (p_hash_ p) (p_previous_hash_ p) (p_sequence_ p) (p_transactions_ p)
    (p_transactionsCount_ p) (p_user_fields_ p) (p_signature_ p) (p_writer_public_key_ p)
    (p_binary_representation_ p) (p_storage_ p).
Definition assign_storage (s : option nat) (p : Pool) : Pool :=
  mkPool (p_is_valid_ p) (p_read_only_ p) (p_hash_ p) (p_previous_hash_ p) (p_sequence_ p)
    (p_transactions_ p) (p_transactionsCount_ p) (p_user_fields_ p) (p_signature_ p)
    (p_writer_public_key_ p) (p_binary_representation_ p) s.

(** Compute the assignments of a pool written field by field. *)
Ltac pool_fields :=
  cbv [assign_is_valid assign_hash assign_previous_hash assign_sequence assign_transactions
       assign_transactionsCount assign_user_fields assign_signature assign_writer_public_key
       assign_binary_representation assign_read_only assign_storage Pool_default
       p_is_valid_ p_read_only_ p_hash_ p_previous_hash_ p_sequence_ p_transactions_
       p_transactionsCount_ p_user_fields_ p_signature_ p_writer_public_key_
       p_binary_representation_ p_storage_].

(** ** Serialisation *)

(** [Pool::priv::put_for_sig] *)
Definition Pool_put_for_sig (p : Pool) (os : obstream) : obstream :=
  let os := PoolHash_put (p_previous_hash_ p) os in
  let os := put_integral 8 (p_sequence_ p) os in
  let os := put_map (put_integral 4) UserField_put (p_user_fields_ p) os in
  let os := put_integral 8 (Z.of_nat (length (p_transactions_ p))) os in
  let os := fold_left (λ os it, Transaction_put it os) (p_transactions_ p) os in
  put_byte_array (p_writer_public_key_ p) os.

(** [Pool::priv::put] *)
Definition Pool_put (p : Pool) (os : obstream) : obstream :=
  let os := PoolHash_put (p_previous_hash_ p) os in
  let os := put_integral 8 (p_sequence_ p) os in
  let os := put_map (put_integral 4) UserField_put (p_user_fields_ p) os in
  let os := put_integral 8 (Z.of_nat (length (p_transactions_ p))) os in
  let os := fold_left (λ os it, Transaction_put it os) (p_transactions_ p) os in
  let os := put_byte_array (p_writer_public_key_ p) os in
  put_string (p_signature_ p) os.

(** [Pool::priv::get_meta] *)
Definition Pool_get_meta (p : Pool) (ibs : ibstream) : option (Pool * Z * ibstream) :=
  '(previous_hash, ibs) ← PoolHash_get ibs;
  '(sequence, ibs) ← get_integral 8 ibs;
  '(user_fields, ibs) ← get_map (get_signed 4) UserField_get ibs;
  '(cnt, ibs) ← get_integral 8 ibs;
  Some (assign_is_valid true (assign_transactionsCount (u32 cnt)
          (assign_user_fields user_fields (assign_sequence sequence
             (assign_previous_hash previous_hash p)))), cnt, ibs).

(** [std::vector<Transaction>::max_size()]: a handle takes eight bytes. *)
Definition vector_max_size : Z := (2 ^ 63 - 1) / 8.

(** [Pool::priv::get].  [reserve] throws when the count is beyond what a vector
    can hold. *)
Definition Pool_get (p : Pool) (ibs : ibstream) : result (option Pool) :=
  match Pool_get_meta p ibs with
  | None => Ok None
  | Some (p, cnt, ibs) =>
      if vector_max_size <? cnt then Throw length_error
      else Ok (
        '(transactions, ibs) ←
          get_loop Transaction_get (λ tran ts, ts ++ [tran]) (S (length ibs)) cnt [] ibs;
        '(writer_public_key, ibs) ← get_byte_array ibs;
        '(signature, ibs) ← get_string ibs;
        Some (assign_is_valid true (assign_signature signature
                (assign_writer_public_key writer_public_key (assign_transactions transactions p)))))
  end.

Section PoolOps.
Context `{Crypto}.

(** [Pool::priv::update_transactions] *)
Definition Pool_update_transactions (p : Pool) : Pool :=
  let hash := PoolHash_calc_from_data (p_binary_representation_ p) in
  assign_transactions (imap (λ idx t, Transaction_update_id hash (Z.of_nat idx) t) (p_transactions_ p))
    (assign_hash hash (assign_read_only true p)).

(** [Pool::priv::compose] *)
Definition Pool_priv_compose (p : Pool) : Pool :=
  if negb (p_is_valid_ p) then assign_hash [] (assign_binary_representation [] p)
  else Pool_update_transactions (assign_binary_representation (Pool_put p []) p).

(** [Pool::compose] *)
Definition Pool_compose (p : Pool) : bool * Pool :=
  if p_read_only_ p then (true, p)
  else if negb (p_is_valid_ p) then (false, p)
  else (true, Pool_priv_compose p).

(** [Pool::hash], which fills in a missing hash. *)
Definition Pool_hash (p : Pool) : byte_array * Pool :=
  let p := if PoolHash_is_empty (p_hash_ p)
           then assign_hash (PoolHash_calc_from_data (p_binary_representation_ p)) p else p in
  (p_hash_ p, p).

Definition Pool_to_binary (p : Pool) : byte_array := p_binary_representation_ p.

(** [Pool::from_binary] *)
Definition Pool_from_binary (data : byte_array) : result Pool :=
  r ← Pool_get Pool_default data;
  match r with
  | None => Ok Pool_default
  | Some p => Ok (Pool_update_transactions (assign_binary_representation data p))
  end.

(** [Pool::meta_from_binary], with the count it returns by reference. *)
Definition Pool_meta_from_binary (data : byte_array) : option (Pool * Z) :=
  '(p, cnt, _) ← Pool_get_meta Pool_default data;
  Some (assign_binary_representation data p, cnt).

(** [Pool::meta_from_byte_stream] *)
Definition Pool_meta_from_byte_stream (data : byte_array) : Pool :=
  match Pool_get_meta Pool_default data with
  | None => Pool_default
  | Some (p, _, _) => p
  end.

(** [Pool::from_lz4_byte_stream].  [LZ4_decompress_safe] gets the compressed
    bytes and the zeroed buffer and returns the buffer it leaves; the code does
    not look at its result. *)
Definition Pool_from_lz4_byte_stream (LZ4_decompress_safe : byte_array → byte_array → byte_array)
    (data : byte_array) (uncompressedSize : Z) : result Pool :=
  let binary := LZ4_decompress_safe data (replicate (Z.to_nat uncompressedSize) 0) in
  r ← Pool_get (assign_binary_representation binary Pool_default) binary;
  match r with
  | None => Ok Pool_default
  | Some p => Ok (assign_hash (PoolHash_calc_from_data (p_binary_representation_ p)) p)
  end.

(** [Pool::to_byte_stream], with the size it returns by reference. *)
Definition Pool_to_byte_stream (p : Pool) : byte_array * Z * Pool :=
  let p := if bytes_eqb (p_binary_representation_ p) []
           then assign_binary_representation (Pool_put p []) p else p in
  (p_binary_representation_ p, u32 (Z.of_nat (length (p_binary_representation_ p))), p).

Definition Pool_to_byte_stream_for_sig (p : Pool) : byte_array := Pool_put_for_sig p [].

(** [Pool::sign] *)
Definition Pool_sign (private_key : byte_array) (p : Pool) : Pool :=
  assign_signature (crypto_sign_detached (Pool_to_byte_stream_for_sig p) private_key) p.

(** [Pool::verify_signature] *)
Definition Pool_verify_signature (p : Pool) : bool :=
  if negb (length (p_writer_public_key_ p) =? 32)%nat || negb (length (p_signature_ p) =? 64)%nat
  then false
  else crypto_verify_detached (p_signature_ p) (Pool_to_byte_stream_for_sig p) (p_writer_public_key_ p).

End PoolOps.

(** ** Access *)

(** [Pool::transaction(size_t)] *)
Definition Pool_transaction (p : Pool) (index : Z) : Transaction :=
  if index <? Z.of_nat (length (p_transactions_ p))
  then nth (Z.to_nat index) (p_transactions_ p) Transaction_default
  else Transaction_default.

(** [Pool::transaction(TransactionID)] *)
Definition Pool_transaction_by_id (p : Pool) (id : TransactionID) : Transaction :=
  if negb (p_is_valid_ p) || negb (p_read_only_ p) || negb (TransactionID_is_valid id)
     || negb (PoolHash_eqb (id_pool_hash_ id) (p_hash_ p))
     || (Z.of_nat (length (p_transactions_ p)) <=? id_index_ id)
  then Transaction_default
  else nth (Z.to_nat (id_index_ id)) (p_transactions_ p) Transaction_default.

(** [Pool::get_last_by_source] and [Pool::get_last_by_target]: the last one that
    matches, found from the end. *)
Definition Pool_get_last_by_source (p : Pool) (source : byte_array) : Transaction :=
  if negb (p_is_valid_ p) then Transaction_default
  else match List.find (λ t, Address_eqb (t_source_ t) source) (rev (p_transactions_ p)) with
       | Some t => t
       | None => Transaction_default
       end.

Definition Pool_get_last_by_target (p : Pool) (target : byte_array) : Transaction :=
  if negb (p_is_valid_ p) then Transaction_default
  else match List.find (λ t, Address_eqb (t_target_ t) target) (rev (p_transactions_ p)) with
       | Some t => t
       | None => Transaction_default
       end.

(** ** Modification *)

Definition Pool_add_transaction (transaction : Transaction) (p : Pool) : bool * Pool :=
  if p_read_only_ p then (false, p)
  else if negb (Transaction_is_valid transaction) then (false, p)
  else (true, assign_transactionsCount (u32 (p_transactionsCount_ p + 1))
                (assign_transactions (p_transactions_ p ++ [Transaction_clone transaction]) p)).

Definition Pool_recount (p : Pool) : Pool :=
  assign_transactionsCount (u32 (Z.of_nat (length (p_transactions_ p)))) p.

Definition Pool_set_sequence (seq : Z) (p : Pool) : Pool :=
  if p_read_only_ p then p else assign_sequence seq (assign_is_valid true p).

Definition Pool_set_previous_hash (previous_hash : byte_array) (p : Pool) : Pool :=
  if p_read_only_ p then p else assign_previous_hash previous_hash (assign_is_valid true p).

Definition Pool_set_writer_public_key (writer_public_key : byte_array) (p : Pool) : Pool :=
  if p_read_only_ p then p else assign_writer_public_key writer_public_key (assign_is_valid true p).

Definition Pool_set_storage (storage : option nat) (p : Pool) : Pool :=
  assign_storage storage (assign_is_valid true p).

Definition Pool_add_user_field (id : Z) (field : UserField) (p : Pool) : bool * Pool :=
  if p_read_only_ p || negb (UserField_is_valid field) then (false, p)
  else (true, assign_user_fields (map_set id field (p_user_fields_ p)) (assign_is_valid true p)).

Definition Pool_user_field (id : Z) (p : Pool) : UserField :=
  match map_find id (p_user_fields_ p) with Some f => f | None => UF_Unknown end.

Definition Pool_user_field_ids (p : Pool) : list Z := (p_user_fields_ p).*1.

Definition Pool_clear (p : Pool) : bool * Pool :=
  let p := assign_transactions [] p in (bool_decide (p_transactions_ p = []), p).

(** [Pool::priv::get_storage]: the first open one of the candidate, the pool's
    own storage and the default storage. *)
Definition Pool_get_storage (isOpen : option nat → bool) (defaultStorage : option nat)
    (candidate : option nat) (p : Pool) : option nat :=
  if isOpen candidate then candidate
  else if isOpen (p_storage_ p) then p_storage_ p
  else defaultStorage.

(** ** Well-formed pools *)

Definition Pool_ok (p : Pool) : Prop :=
  c_ok c_pool_hash (p_previous_hash_ p) ∧ is_u64 (p_sequence_ p) ∧
  c_ok c_user_fields (p_user_fields_ p) ∧ Forall Transaction_ok (p_transactions_ p) ∧
  Z.of_nat (length (p_transactions_ p)) <= vector_max_size ∧
  c_ok c_byte_array (p_writer_public_key_ p) ∧ c_ok c_string (p_signature_ p).

(** The bytes of a pool, field by field. *)
Definition pool_head (p : Pool) : byte_array :=
  c_put c_pool_hash (p_previous_hash_ p) [] ++ c_put (c_uint 8) (p_sequence_ p) [] ++
  c_put c_user_fields (p_user_fields_ p) [] ++
  c_put (c_uint 8) (Z.of_nat (length (p_transactions_ p))) [].

Lemma Pool_put_sig p os : Pool_put p os = put_string (p_signature_ p) (Pool_put_for_sig p os).
Proof. done. Qed.

Lemma Pool_put_for_sig_eq p :
  Pool_put_for_sig p []
  = pool_head p ++ put_all c_transaction (p_transactions_ p) [] ++
    c_put c_byte_array (p_writer_public_key_ p) [].
Proof.
  change (Pool_put_for_sig p []) with
    (c_put c_byte_array (p_writer_public_key_ p) (put_all c_transaction (p_transactions_ p)
       (c_put (c_uint 8) (Z.of_nat (length (p_transactions_ p)))
          (c_put c_user_fields (p_user_fields_ p) (c_put (c_uint 8) (p_sequence_ p)
             (c_put c_pool_hash (p_previous_hash_ p) [])))))).
  unfold pool_head. rewrite put_append, put_all_append by apply _.
  rewrite (put_append (c := c_uint 8) (Z.of_nat _)), (put_append (c := c_user_fields)).
  rewrite (put_append (c := c_uint 8) (p_sequence_ p)). by rewrite <- !app_assoc.
Qed.

Lemma Pool_put_eq p :
  Pool_put p [] = Pool_put_for_sig p [] ++ c_put c_string (p_signature_ p) [].
Proof. rewrite Pool_put_sig. apply (put_append (c := c_string)). Qed.

Lemma Pool_get_meta_put p0 p rest :
  Pool_ok p →
  Pool_get_meta p0 (pool_head p ++ rest)
  = Some (assign_is_valid true (assign_transactionsCount (u32 (Z.of_nat (length (p_transactions_ p))))
            (assign_user_fields (p_user_fields_ p) (assign_sequence (p_sequence_ p)
               (assign_previous_hash (p_previous_hash_ p) p0)))),
          Z.of_nat (length (p_transactions_ p)), rest).
Proof.
  intros (Hh & Hs & Hu & _ & Hn & _). unfold Pool_get_meta, pool_head. rewrite <- !app_assoc.
  assert (c_ok (c_uint 8) (Z.of_nat (length (p_transactions_ p)))) as Hc.
  { split; [lia|]. eapply Z.le_lt_trans; [exact Hn|done]. }
  change PoolHash_get with (c_get c_pool_hash). read_next c_pool_hash Hh.
  change (get_integral 8) with (c_get (c_uint 8)). read_next (c_uint 8) Hs.
  change (get_map (get_signed 4) UserField_get) with (c_get c_user_fields).
  read_next c_user_fields Hu. by read_next (c_uint 8) Hc.
Qed.

Lemma put_all_clone ts :
  put_all c_transaction ts [] = put_all c_transaction (Transaction_clone <$> ts) [].
Proof.
  induction ts as [|t ts IH]; [done|]. rewrite fmap_cons, !put_all_cons by apply _. by rewrite IH.
Qed.

Lemma fold_snoc {A} (l acc : list A) : fold_left (λ ts t, ts ++ [t]) l acc = acc ++ l.
Proof.
  revert acc. induction l as [|x l IH]; intros acc; simpl; [by rewrite app_nil_r|].
  rewrite IH. by rewrite <- app_assoc.
Qed.

(** The loop over the transactions, with the fuel of the source. *)
Lemma get_transactions ts rest :
  Forall Transaction_ok ts →
  get_loop Transaction_get (λ tran ts, ts ++ [tran])
    (S (length (put_all c_transaction ts [] ++ rest))) (Z.of_nat (length ts)) []
    (put_all c_transaction ts [] ++ rest)
  = Some (Transaction_clone <$> ts, rest).
Proof.
  intros Hts. rewrite get_loop_enough; [|apply (get_progress (c := c_transaction))|lia|lia].
  rewrite Nat2Z.id, put_all_clone, <- (length_fmap Transaction_clone ts).
  change Transaction_get with (c_get c_transaction).
  rewrite get_times_put; [|apply _|]; [by rewrite fold_snoc|].
  apply Forall_fmap. eapply Forall_impl; [exact Hts|]. intros t. apply Transaction_clone_ok.
Qed.

(** What [get] makes of the bytes of a pool. *)
Definition pool_read (p0 p : Pool) : Pool :=
  assign_is_valid true (assign_signature (p_signature_ p)
    (assign_writer_public_key (p_writer_public_key_ p)
      (assign_transactions (Transaction_clone <$> p_transactions_ p)
        (assign_is_valid true (assign_transactionsCount (u32 (Z.of_nat (length (p_transactions_ p))))
          (assign_user_fields (p_user_fields_ p) (assign_sequence (p_sequence_ p)
            (assign_previous_hash (p_previous_hash_ p) p0)))))))).

Lemma Pool_get_put p0 p rest :
  Pool_ok p → Pool_get p0 (Pool_put p [] ++ rest) = Ok (Some (pool_read p0 p)).
Proof.
  intros Hok. pose proof Hok as (_ & _ & _ & Hts & Hn & Hk & Hsig).
  unfold Pool_get. rewrite Pool_put_eq, Pool_put_for_sig_eq, <- !app_assoc.
  rewrite Pool_get_meta_put by exact Hok.
  rewrite (proj2 (Z.ltb_ge vector_max_size _)) by exact Hn.
  rewrite get_transactions by exact Hts. f_equal. rewrite bind_Some'; cbv beta iota.
  change get_byte_array with (c_get c_byte_array). read_next c_byte_array Hk.
  change get_string with (c_get c_string). by read_next c_string Hsig.
Qed.

(** Whatever is read as a pool is well-formed. *)
Lemma get_transactions_ok ibs fuel cnt ts rest :
  bytes_ok ibs → (length ibs < fuel)%nat → 0 <= cnt →
  get_loop Transaction_get (λ tran ts, ts ++ [tran]) fuel cnt [] ibs = Some (ts, rest) →
  Forall Transaction_ok ts ∧ Z.of_nat (length ts) = cnt ∧ bytes_ok rest.
Proof.
  intros Hb Hf Hc H. rewrite get_loop_enough in H; [|apply (get_progress (c := c_transaction))|lia|lia].
  pose proof H as Hs. apply (get_times_suffix c_transaction) in Hs as [u ->].
  apply (get_times_inv c_transaction _ (λ n ts, Forall Transaction_ok ts ∧ length ts = n) _ 0%nat) in H.
  - destruct H as [H1 H2]. split; [done|]. split; [lia|]. by apply bytes_ok_app in Hb as [_ ?].
  - intros n t l [Ht _] [Hl El]. split; [apply Forall_app; split; [done|by constructor]|].
    rewrite length_app. simpl. lia.
  - done.
  - split; [constructor|done].
Qed.

Lemma get_rest_ok {A} (c : codec A) `{!CodecLaws c} ibs a rest :
  bytes_ok ibs → c_get c ibs = Some (a, rest) → c_ok c a ∧ bytes_ok rest.
Proof.
  intros Hb H. split; [by eapply get_ok|]. apply get_suffix in H as [u ->].
  by apply bytes_ok_app in Hb as [_ ?].
Qed.

Lemma Pool_get_meta_ok p0 ibs p cnt rest :
  bytes_ok ibs → Pool_get_meta p0 ibs = Some (p, cnt, rest) →
  c_ok c_pool_hash (p_previous_hash_ p) ∧ is_u64 (p_sequence_ p) ∧ c_ok c_user_fields (p_user_fields_ p) ∧
  is_u64 cnt ∧ p_transactionsCount_ p = u32 cnt ∧ p_is_valid_ p = true ∧ bytes_ok rest.
Proof.
  intros Hb. unfold Pool_get_meta. change PoolHash_get with (c_get c_pool_hash).
  change (get_integral 8) with (c_get (c_uint 8)).
  change (get_map (get_signed 4) UserField_get) with (c_get c_user_fields).
  destruct (c_get c_pool_hash ibs) as [[h s1]|] eqn:E1; [|done]. rewrite bind_Some'.
  apply get_rest_ok in E1 as [H1 B1]; [|apply _|done].
  destruct (c_get (c_uint 8) s1) as [[q s2]|] eqn:E2; [|done]. rewrite bind_Some'.
  apply get_rest_ok in E2 as [H2 B2]; [|apply _|done].
  destruct (c_get c_user_fields s2) as [[u s3]|] eqn:E3; [|done]. rewrite bind_Some'.
  apply get_rest_ok in E3 as [H3 B3]; [|apply _|done].
  destruct (c_get (c_uint 8) s3) as [[n s4]|] eqn:E4; [|done]. rewrite bind_Some'.
  apply get_rest_ok in E4 as [H4 B4]; [|apply _|done].
  intros [= <- <- <-]. auto 10.
Qed.

Lemma Pool_get_ok p0 ibs p :
  bytes_ok ibs → Pool_get p0 ibs = Ok (Some p) →
  Pool_ok p ∧ p_is_valid_ p = true ∧
  p_transactionsCount_ p = u32 (Z.of_nat (length (p_transactions_ p))).
Proof.
  intros Hb. unfold Pool_get. destruct (Pool_get_meta p0 ibs) as [[[p1 cnt] s1]|] eqn:E1; [|done].
  apply Pool_get_meta_ok in E1 as (Hh & Hs & Hu & Hc & Ec & _ & B1); [|done].
  destruct (Z.ltb_spec vector_max_size cnt) as [|Hle]; [done|]. intros [= H]. revert H.
  change get_byte_array with (c_get c_byte_array). change get_string with (c_get c_string).
  destruct (get_loop _ _ _ _ _ _) as [[ts s2]|] eqn:E2; [|done]. rewrite bind_Some'.
  apply get_transactions_ok in E2 as (Ht & Hn & B2); [|done|lia|unfold_widths; lia].
  destruct (c_get c_byte_array s2) as [[k s3]|] eqn:E3; [|done]. rewrite bind_Some'.
  apply get_rest_ok in E3 as [Hk B3]; [|apply _|done].
  destruct (c_get c_string s3) as [[g s4]|] eqn:E4; [|done]. rewrite bind_Some'.
  apply get_rest_ok in E4 as [Hg B4]; [|apply _|done].
  intros [= <-]. unfold Pool_ok. cbn. rewrite Ec, Hn. repeat split; try done; apply Hh || apply Hu || apply Hk || apply Hg || apply Hs.
Qed.

(** ** Sealed pools *)

Section Sealed.
Context `{Crypto}.

(** A pool after [compose] or [from_binary]: its hash is the hash of its bytes,
    and its transactions carry their place in it. *)
Definition Pool_sealed (p : Pool) : Prop :=
  p_is_valid_ p = true ∧ p_read_only_ p = true ∧
  p_hash_ p = calc_hash (p_binary_representation_ p) ∧
  ∀ i t, p_transactions_ p !! i = Some t →
    t_read_only_ t = true ∧ t_id_ t = mkTransactionID (p_hash_ p) (Z.of_nat i).

Lemma Pool_update_transactions_sealed p :
  p_is_valid_ p = true → Pool_sealed (Pool_update_transactions p).
Proof.
  intros Hv. unfold Pool_sealed, Pool_update_transactions; cbn. split; [done|]. split; [done|].
  split; [done|]. intros i t Hi. rewrite list_lookup_imap in Hi.
  destruct (p_transactions_ p !! i); [|done]. by simplify_eq/=.
Qed.

Lemma Pool_priv_compose_valid p :
  p_is_valid_ p = true →
  Pool_priv_compose p = Pool_update_transactions (assign_binary_representation (Pool_put p []) p).
Proof. unfold Pool_priv_compose. by intros ->. Qed.

Lemma Pool_put_update p os :
  Pool_put (Pool_update_transactions p) os = Pool_put p os.
Proof.
  unfold Pool_put, Pool_update_transactions; cbn. rewrite length_imap. do 2 f_equal.
  set (o := put_integral 8 _ _). clearbody o. set (h := PoolHash_calc_from_data _). clearbody h.
  assert (∀ ts o k, fold_left (λ os it, Transaction_put it os)
            (imap (λ idx t, Transaction_update_id h (Z.of_nat (k + idx)) t) ts) o
          = fold_left (λ os it, Transaction_put it os) ts o) as E.
  { clear. induction ts as [|t ts IH]; intros o k; [done|]. cbn [imap fold_left].
    change (Transaction_put (Transaction_update_id h (Z.of_nat (k + 0)) t) o) with (Transaction_put t o).
    rewrite <- (IH _ (S k)). f_equal. apply imap_ext. intros i x _. unfold compose.
    by rewrite Nat.add_succ_r. }
  apply (E _ _ 0%nat).
Qed.

(** The operations of the class that are meant for building a pool. *)
Inductive pool_op :=
| op_add_transaction (t : Transaction)
| op_set_sequence (seq : Z)
| op_set_previous_hash (h : byte_array)
| op_set_writer_public_key (k : byte_array)
| op_add_user_field (id : Z) (f : UserField)
| op_set_storage (s : option nat)
| op_compose
| op_hash
| op_to_byte_stream.

Definition pool_exec (op : pool_op) (p : Pool) : Pool :=
  match op with
  | op_add_transaction t => (Pool_add_transaction t p).2
  | op_set_sequence seq => Pool_set_sequence seq p
  | op_set_previous_hash h => Pool_set_previous_hash h p
  | op_set_writer_public_key k => Pool_set_writer_public_key k p
  | op_add_user_field id f => (Pool_add_user_field id f p).2
  | op_set_storage s => Pool_set_storage s p
  | op_compose => (Pool_compose p).2
  | op_hash => (Pool_hash p).2
  | op_to_byte_stream => (Pool_to_byte_stream p).2
  end.

Definition pool_run (ops : list pool_op) (p : Pool) : Pool := fold_left (λ p op, pool_exec op p) ops p.

(** The bytes of a sealed pool are those of its fields. *)
Definition Pool_consistent (p : Pool) : Prop :=
  p_read_only_ p = true → Pool_sealed p ∧ p_binary_representation_ p = Pool_put p [].

Context {key_pair : byte_array → byte_array → Prop} {L : CryptoLaws _ key_pair}.

Lemma calc_hash_nonempty m : PoolHash_is_empty (calc_hash m) = false.
Proof.
  apply not_true_iff_false. rewrite PoolHash_is_empty_spec. intros E.
  pose proof (calc_hash_length m) as Hl. by rewrite E in Hl.
Qed.

Lemma Pool_put_nonempty p : bytes_eqb (Pool_put p []) [] = false.
Proof.
  apply not_true_iff_false. rewrite bytes_eqb_eq. rewrite Pool_put_sig.
  unfold put_string, put_integral. intros [E _]%app_eq_nil. by apply app_eq_nil in E as [_ ?].
Qed.

(** On a sealed pool every operation leaves all but the storage alone. *)
Lemma pool_exec_sealed op p :
  p_read_only_ p = true → Pool_consistent p → ∃ s, pool_exec op p = assign_storage s p.
Proof.
  intros Hr Hc. destruct (Hc Hr) as [(Hv & _ & Hh & _) Hb].
  assert (p = assign_storage (p_storage_ p) p) as Hid by (by destruct p).
  destruct op; cbn [pool_exec].
  - exists (p_storage_ p). unfold Pool_add_transaction. by rewrite Hr.
  - exists (p_storage_ p). unfold Pool_set_sequence. by rewrite Hr.
  - exists (p_storage_ p). unfold Pool_set_previous_hash. by rewrite Hr.
  - exists (p_storage_ p). unfold Pool_set_writer_public_key. by rewrite Hr.
  - exists (p_storage_ p). unfold Pool_add_user_field. by rewrite Hr.
  - exists s. destruct p. cbn in *. by subst.
  - exists (p_storage_ p). unfold Pool_compose. by rewrite Hr.
  - exists (p_storage_ p). unfold Pool_hash. by rewrite Hh, calc_hash_nonempty.
  - exists (p_storage_ p). unfold Pool_to_byte_stream. by rewrite Hb, Pool_put_nonempty.
Qed.

Lemma Pool_consistent_storage s p : Pool_consistent p → Pool_consistent (assign_storage s p).
Proof. done. Qed.

Lemma pool_exec_consistent op p : Pool_consistent p → Pool_consistent (pool_exec op p).
Proof.
  intros Hc. destruct (p_read_only_ p) eqn:Hr.
  - destruct (pool_exec_sealed op p Hr Hc) as [s ->]. by apply Pool_consistent_storage.
  - assert (p_read_only_ (pool_exec op p) = true → op = op_compose ∧ p_is_valid_ p = true) as Hop.
    { destruct op; cbn [pool_exec]; unfold Pool_add_transaction, Pool_set_sequence,
        Pool_set_previous_hash, Pool_set_writer_public_key, Pool_add_user_field, Pool_set_storage,
        Pool_compose, Pool_hash, Pool_to_byte_stream; rewrite ?Hr; repeat case_match; cbn; try congruence;
        intros; split; try done; by apply negb_false_iff. }
    intros Hr'. destruct (Hop Hr') as [-> Hv]. cbn [pool_exec]. unfold Pool_compose. rewrite Hr, Hv.
    cbn [negb snd]. rewrite Pool_priv_compose_valid by exact Hv.
    split; [by apply Pool_update_transactions_sealed|]. by rewrite Pool_put_update.
Qed.

Lemma pool_run_consistent ops p : Pool_consistent p → Pool_consistent (pool_run ops p).
Proof.
  unfold pool_run. revert p. induction ops as [|op ops IH]; intros p Hc; [done|].
  cbn [fold_left]. by apply IH, pool_exec_consistent.
Qed.

Lemma Pool_compose_valid p :
  p_is_valid_ p = true → p_read_only_ p = false →
  Pool_compose p = (true, Pool_update_transactions (assign_binary_representation (Pool_put p []) p)).
Proof.
  intros Hv Hr. unfold Pool_compose. rewrite Hr, Hv. cbn [negb]. by rewrite Pool_priv_compose_valid.
Qed.

Lemma Pool_ok_update p : Pool_ok p → Pool_ok (Pool_update_transactions p).
Proof.
  intros (H1 & H2 & H3 & H4 & H5 & H6 & H7). unfold Pool_ok, Pool_update_transactions.
  cbn [p_previous_hash_ p_sequence_ p_user_fields_ p_transactions_ p_writer_public_key_ p_signature_
       assign_transactions assign_hash assign_read_only].
  rewrite length_imap. split; [exact H1|]. split; [exact H2|]. split; [exact H3|].
  split; [|split; [exact H5|split; [exact H6|exact H7]]].
  apply Forall_lookup. intros i t Hi. rewrite list_lookup_imap in Hi.
  destruct (p_transactions_ p !! i) as [t'|] eqn:Ei; [|done]. simplify_eq/=.
  exact (Forall_lookup_1 _ _ _ _ H4 Ei).
Qed.

(** A sealed pool is read back from the bytes of its fields. *)
Lemma Pool_sealed_roundtrip p :
  Pool_ok p → Pool_sealed p → p_binary_representation_ p = Pool_put p [] →
  Pool_from_binary (p_binary_representation_ p) = Ok (assign_storage None (Pool_recount p)).
Proof.
  intros Hok (Hv & Hr & Hh & Hid) Hb. unfold Pool_from_binary.
  pose proof (Pool_get_put Pool_default p [] Hok) as E. rewrite app_nil_r in E.
  rewrite Hb, E, bind_Ok, <- Hb. f_equal.
  assert (imap (λ idx t, Transaction_update_id (p_hash_ p) (Z.of_nat idx) t)
            (Transaction_clone <$> p_transactions_ p) = p_transactions_ p) as Et.
  { apply list_eq. intros i. rewrite list_lookup_imap, list_lookup_fmap.
    destruct (p_transactions_ p !! i) as [t|] eqn:Ei; [|done]. simpl.
    destruct (Hid i t Ei) as [Ht1 Ht2]. f_equal. destruct t. simpl in *. by subst. }
  unfold Pool_update_transactions, Pool_recount, pool_read, PoolHash_calc_from_data.
  rewrite Hh in Et. destruct p. cbn in *. subst. pool_fields. by rewrite Et.
Qed.

(** ** Properties *)

(** C21: reading back the bytes that [compose] stored gives the composed pool,
    its hash and the identifiers of its transactions included; only the storage
    it belongs to is not part of the bytes, and the count is recomputed. *)
Theorem Pool_compose_roundtrip p :
  Pool_ok p → p_is_valid_ p = true → p_read_only_ p = false →
  (Pool_compose p).1 = true ∧
  Pool_from_binary (Pool_to_binary (Pool_compose p).2)
  = Ok (assign_storage None (Pool_recount (Pool_compose p).2)).
Proof.
  intros Hok Hv Hr. rewrite Pool_compose_valid by assumption. split; [done|]. cbn [snd].
  apply Pool_sealed_roundtrip.
  - by apply Pool_ok_update.
  - by apply Pool_update_transactions_sealed.
  - by rewrite Pool_put_update.
Qed.

(** C35: whatever bytes are given to [from_binary], it either throws because
    the count of transactions exceeds what a vector holds, or returns the empty
    invalid pool, or a well-formed sealed pool that keeps the bytes as they
    are. *)
Theorem Pool_from_binary_sound data :
  bytes_ok data →
  match Pool_from_binary data with
  | Ok p => p = Pool_default ∨
            Pool_ok p ∧ Pool_sealed p ∧ Pool_to_binary p = data ∧
            p_transactionsCount_ p = u32 (Z.of_nat (length (p_transactions_ p)))
  | Throw e => e = length_error ∧
      ∃ p cnt rest, Pool_get_meta Pool_default data = Some (p, cnt, rest) ∧ vector_max_size < cnt
  end.
Proof.
  intros Hb. unfold Pool_from_binary. destruct (Pool_get Pool_default data) as [[p|]|e] eqn:E.
  - right. apply Pool_get_ok in E as (Hok & Hv & Hc); [|done].
    split; [by apply Pool_ok_update|]. split; [by apply Pool_update_transactions_sealed|].
    split; [done|]. unfold Pool_update_transactions; cbn. by rewrite length_imap.
  - by left.
  - cbn. unfold Pool_get in E. destruct (Pool_get_meta _ _) as [[[p cnt] rest]|]; [|done].
    destruct (Z.ltb_spec vector_max_size cnt); [|done]. injection E as <-. split; [done|].
    by exists p, cnt, rest.
Qed.

(** C36: whatever is done to a pool with the building operations, once it is
    sealed its bytes are those of its fields, its hash is the hash of these
    bytes, and its transactions carry the hash and their index; no later
    operation changes anything but the storage. *)
Theorem Pool_seal_invariant ops1 ops2 h seq s :
  let p := pool_run ops1 (Pool_make h seq s) in
  p_read_only_ p = true →
  Pool_sealed p ∧ Pool_to_binary p = Pool_put p [] ∧
  ∃ s', pool_run ops2 p = assign_storage s' p.
Proof.
  cbv zeta. intros Hr.
  assert (Pool_consistent (pool_run ops1 (Pool_make h seq s))) as Hc by (by apply pool_run_consistent).
  destruct (Hc Hr) as [Hs Hb]. split; [done|]. split; [done|].
  set (p := pool_run ops1 _) in *. clearbody p. revert p Hr Hc Hs Hb.
  induction ops2 as [|op ops IH]; intros p Hr Hc Hs Hb; [exists (p_storage_ p); by destruct p|].
  change (pool_run (op :: ops) p) with (pool_run ops (pool_exec op p)).
  destruct (pool_exec_sealed op p Hr Hc) as [s1 ->].
  destruct (IH (assign_storage s1 p)) as [s2 ->]; try done. by exists s2.
Qed.

Lemma Pool_by_own_id p i t :
  Pool_sealed p → p_transactions_ p !! i = Some t → Pool_transaction_by_id p (t_id_ t) = t.
Proof.
  intros (Hv & Hr & Hh & Hid) Hi. destruct (Hid i t Hi) as [_ ->].
  unfold Pool_transaction_by_id, TransactionID_is_valid, PoolHash_eqb. cbn [id_pool_hash_ id_index_].
  pose proof (lookup_lt_Some _ _ _ Hi) as Hlt.
  rewrite Hv, Hr, Hh, calc_hash_nonempty, bytes_eqb_refl. cbn [negb orb].
  rewrite (proj2 (Z.leb_gt _ _)) by lia. rewrite Nat2Z.id. by apply nth_lookup_Some.
Qed.

(** In a sealed pool every transaction is found by its own identifier. *)
Theorem Pool_transaction_by_id_complete p i t :
  Pool_sealed p → p_transactions_ p !! i = Some t → Pool_transaction_by_id p (t_id_ t) = t.
Proof. apply Pool_by_own_id. Qed.

(** C27: a pool signed with the secret key of its writer verifies, and the
    signed bytes determine the previous hash, the number, the fields, the data of
    the transactions and the writer of a pool. *)
Theorem Pool_signature_correct p p' pk sk :
  (key_pair pk sk → length pk = 32%nat → p_read_only_ p = false →
   Pool_verify_signature (Pool_sign sk (Pool_set_writer_public_key pk p)) = true) ∧
  (Pool_ok p → Pool_ok p' → Pool_to_byte_stream_for_sig p = Pool_to_byte_stream_for_sig p' →
   p_previous_hash_ p = p_previous_hash_ p' ∧ p_sequence_ p = p_sequence_ p' ∧
   p_user_fields_ p = p_user_fields_ p' ∧
   Transaction_clone <$> p_transactions_ p = Transaction_clone <$> p_transactions_ p' ∧
   p_writer_public_key_ p = p_writer_public_key_ p').
Proof.
  split.
  - intros Hk Hl Hr. unfold Pool_set_writer_public_key. rewrite Hr.
    unfold Pool_verify_signature, Pool_sign. cbn -[crypto_sign_detached Pool_to_byte_stream_for_sig].
    rewrite Hl, sign_length. cbn [Nat.eqb negb orb]. by apply verify_sign.
  - intros Hok Hok' E. unfold Pool_to_byte_stream_for_sig in E.
    assert (∀ q, Pool_ok q → Pool_ok (assign_signature [] q)) as Hq.
    { intros q (Q1 & Q2 & Q3 & Q4 & Q5 & Q6 & _). split; [exact Q1|]. split; [exact Q2|].
      split; [exact Q3|]. split; [exact Q4|]. split; [exact Q5|]. split; [exact Q6|].
      split; [constructor|done]. }
    pose proof (Pool_get_put Pool_default (assign_signature [] p) [] (Hq _ Hok)) as G.
    pose proof (Pool_get_put Pool_default (assign_signature [] p') [] (Hq _ Hok')) as G'.
    rewrite Pool_put_eq in G, G'.
    change (Pool_put_for_sig (assign_signature [] p) []) with (Pool_put_for_sig p []) in G.
    change (Pool_put_for_sig (assign_signature [] p') []) with (Pool_put_for_sig p' []) in G'.
    change (p_signature_ (assign_signature [] p)) with (p_signature_ (assign_signature [] p')) in G.
    rewrite E, G' in G. destruct p, p'. injection G. auto.
Qed.

End Sealed.

(** ** Examples *)

Definition sample_pool : Pool :=
  mkPool true false [] (replicate 32 5) 3 [sample_transaction [(0, UF_Integer 42)]] 1 [] [] [] [] None.

Lemma sample_pool_ok : Pool_ok sample_pool.
Proof.
  pose proof (sample_transaction_ok (UF_Integer 42) ltac:(split; done)) as Ht.
  unfold Pool_ok, sample_pool; cbn -[replicate].
  split; [split; [apply Forall_replicate; split; done|done]|]. split; [split; done|].
  split; [split; [constructor|split; [done|constructor]]|].
  split; [constructor; [exact Ht|constructor]|]. split; [done|].
  split; (split; [constructor|done]).
Qed.

Lemma Pool_compose_roundtrip_witness :
  Pool_from_binary (Pool_to_binary (Pool_compose sample_pool).2)
  = Ok (assign_storage None (Pool_recount (Pool_compose sample_pool).2)).
Proof.
  destruct (Pool_compose_roundtrip sample_pool sample_pool_ok eq_refl eq_refl) as [_ E].
  exact E.
Defined.

Lemma Pool_from_binary_sound_witness :
  match Pool_from_binary (Pool_put sample_pool []) with
  | Ok p => Pool_to_binary p = Pool_put sample_pool []
  | Throw _ => False
  end.
Proof.
  assert (bytes_ok (Pool_put sample_pool [])) as Hb by (apply (bool_decide_unpack _); vm_compute; exact I).
  assert (match Pool_from_binary (Pool_put sample_pool []) with Ok p => p_is_valid_ p | Throw _ => false end = true) as Hv
    by (vm_compute; reflexivity).
  pose proof (Pool_from_binary_sound (Pool_put sample_pool []) Hb) as H.
  destruct (Pool_from_binary (Pool_put sample_pool [])) as [p|e]; [|discriminate].
  destruct H as [-> |(_ & _ & E & _)]; [discriminate|exact E].
Defined.

Lemma Pool_seal_invariant_witness :
  ∃ s', pool_run [op_set_sequence 9; op_set_storage (Some 4%nat)]
          (pool_run [op_add_transaction (sample_transaction []); op_compose] (Pool_make [] 1 None))
        = assign_storage s'
          (pool_run [op_add_transaction (sample_transaction []); op_compose] (Pool_make [] 1 None)).
Proof.
  destruct (Pool_seal_invariant
    [op_add_transaction (sample_transaction []); op_compose]
    [op_set_sequence 9; op_set_storage (Some 4%nat)] [] 1 None eq_refl) as (_ & _ & H). exact H.
Defined.

Lemma Pool_transaction_by_id_complete_witness :
  let p := (Pool_compose sample_pool).2 in
  let t := nth 0 (p_transactions_ p) Transaction_default in
  Pool_transaction_by_id p (t_id_ t) = t.
Proof.
  cbv zeta. apply (Pool_transaction_by_id_complete _ 0%nat).
  - apply (Pool_update_transactions_sealed
             (assign_binary_representation (Pool_put sample_pool []) sample_pool)). reflexivity.
  - reflexivity.
Defined.

Lemma Pool_signature_correct_witness :
  @Pool_verify_signature toy_crypto
    (@Pool_sign toy_crypto (replicate 32 8) (Pool_set_writer_public_key (replicate 32 8) sample_pool)) = true.
Proof.
  apply (@Pool_signature_correct toy_crypto eq toy_crypto_laws sample_pool sample_pool); reflexivity.
Defined.

(** A header with a huge count makes [from_binary] throw. *)
Lemma Pool_from_binary_throws :
  Pool_from_binary (le_bytes 8 0 ++ le_bytes 8 0 ++ le_bytes 8 0 ++ le_bytes 8 (2 ^ 62))
  = Throw length_error.
Proof. reflexivity. Qed.

(** [clear] empties a sealed pool as well, and leaves its count as it was. *)
Lemma Pool_clear_count p :
  p_transactions_ (Pool_clear p).2 = [] ∧
  p_transactionsCount_ (Pool_clear p).2 = p_transactionsCount_ p ∧
  p_read_only_ (Pool_clear p).2 = p_read_only_ p.
Proof. done. Qed.
