(* ===== verification/Database.v ===== *)
(** * Database: the key-value store under the storage

    Models [csdb/src/database.cpp] and [csdb/src/database_berkeleydb.cpp].  The
    driver keeps two tables of Berkeley DB: the blocks by record number (sequence
    number plus one) and the record numbers by block hash.  Berkeley DB is a
    parameter, the class [BerkeleyDb] with its documented behaviour
    [BerkeleyDbLaws]; the abstract class [Database] of the sources is the class
    [Database], and [DatabaseLaws] is what the storage relies on. *)

From S2P Require Import Prelude Format Streams.

(** ** The interface *)

(** [Database::Error] *)
Inductive DatabaseError :=
| Db_NoError | Db_NotFound | Db_Corruption | Db_NotSupported | Db_InvalidArgument
| Db_IOError | Db_NotOpen | Db_UnknownError.

#[export] Instance DatabaseError_eq_dec : EqDecision DatabaseError.
Proof. solve_decision. Defined.

(** [last_error_struct] *)
Record db_error := DbError { de_error : DatabaseError; de_message : byte_array }.

(** [Database::set_last_error]; the message is the formatted one. *)
Definition Database_set_last_error (error : DatabaseError) (message : byte_array) : db_error :=
  DbError error message.

(** [Database::last_error_message] *)
Definition Database_last_error_message (les : db_error) : byte_array :=
  if negb (bytes_eqb (de_message les) []) then de_message les
  else match de_error les with
       | Db_NoError => str "No error"
       | Db_NotFound => str "Database is not found"
       | Db_Corruption => str "Database is corrupted"
       | Db_NotSupported => str "Database is not supported"
       | Db_InvalidArgument => str "Invalis argument passed"
       | Db_IOError => str "I/O error"
       | Db_NotOpen => str "Database is not open"
       | Db_UnknownError => str "Unknown error"
       end.

(** The virtual functions the storage calls.  [db_get] is [get] with a place
    for the value, [db_exists] is [get] without; [db_blocks] is the sequence of
    values of a fresh iterator. *)
Class Database (D : Type) := {
  db_is_open : D → bool;
  db_put : byte_array → Z → byte_array → D → result (bool * D);
  db_get : byte_array → D → result (option byte_array * D);
  db_exists : byte_array → D → result (bool * D);
  db_blocks : D → result (list byte_array * D);
  db_error_message : D → byte_array;
}.

(** The contract, on two views of the state: the number stored under a key and
    the block stored under a number.  A [put] that reports failure has not entered
    the key; it may have replaced the block of the number. *)
Class DatabaseLaws (D : Type) `{!Database D} (ready : D → Prop)
    (index : D → gmap byte_array Z) (blocks : D → gmap Z byte_array) := {
  db_ready_open d : ready d → db_is_open d = true;
  db_put_spec key seq_no value d :
    ready d → ∃ b d', db_put key seq_no value d = Ok (b, d') ∧ ready d' ∧
      index d' = (if b then <[key := u32 (seq_no + 1)]> (index d) else index d) ∧
      (blocks d' = <[u32 (seq_no + 1) := value]> (blocks d) ∨ b = false ∧ blocks d' = blocks d);
  db_get_spec key d :
    ready d → ∃ d', db_get key d = Ok (index d !! key ≫= λ n, blocks d !! n, d') ∧
      ready d' ∧ index d' = index d ∧ blocks d' = blocks d;
  db_exists_spec key d :
    ready d → ∃ d', db_exists key d = Ok (bool_decide (is_Some (index d !! key)), d') ∧
      ready d' ∧ index d' = index d ∧ blocks d' = blocks d;
  db_blocks_spec d :
    ready d → ∃ d' ks, db_blocks d = Ok (omap (λ k, blocks d !! k) ks, d') ∧
      StronglySorted Z.lt ks ∧ (∀ k, k ∈ ks ↔ is_Some (blocks d !! k)) ∧
      ready d' ∧ index d' = index d ∧ blocks d' = blocks d;
}.

(** ** Berkeley DB

    [recno] is a table opened with [DB_RECNO], [htab] one opened with [DB_HASH];
    a call returns a non-zero status or its result. *)
Class BerkeleyDb (recno htab : Type) := {
  recno_put : Z → byte_array → recno → Z + recno;
  recno_get : Z → recno → Z + byte_array;
  recno_first : recno → Z + (Z * byte_array);
  recno_next : Z → recno → Z + (Z * byte_array);
  htab_put : byte_array → Z → htab → Z + htab;
  htab_get : byte_array → htab → Z + Z;
  htab_exists : byte_array → htab → Z;
}.

Class BerkeleyDbLaws (recno htab : Type) `{!BerkeleyDb recno htab}
    (recno_view : recno → gmap Z byte_array) (htab_view : htab → gmap byte_array Z) := {
  recno_put_view n v t t' : recno_put n v t = inr t' → recno_view t' = <[n := v]> (recno_view t);
  recno_get_some n v t : recno_view t !! n = Some v → recno_get n t = inr v;
  recno_get_none n t : recno_view t !! n = None → ∃ s, recno_get n t = inl s ∧ s ≠ 0;
  (** A cursor visits the records in increasing order of their numbers. *)
  recno_first_some n v t : recno_first t = inr (n, v) →
    recno_view t !! n = Some v ∧ ∀ m, is_Some (recno_view t !! m) → n <= m;
  recno_first_none s t : recno_first t = inl s → s ≠ 0 ∧ recno_view t = ∅;
  recno_next_some n k v t : recno_next n t = inr (k, v) →
    recno_view t !! k = Some v ∧ n < k ∧ ∀ m, is_Some (recno_view t !! m) → n < m → k <= m;
  recno_next_none n s t : recno_next n t = inl s →
    s ≠ 0 ∧ ∀ m, is_Some (recno_view t !! m) → m <= n;
  htab_put_view k n t t' : htab_put k n t = inr t' → htab_view t' = <[k := n]> (htab_view t);
  htab_get_some k n t : htab_view t !! k = Some n → htab_get k t = inr n;
  htab_get_none k t : htab_view t !! k = None → ∃ s, htab_get k t = inl s ∧ s ≠ 0;
  htab_exists_spec k t : htab_exists k t = 0 ↔ is_Some (htab_view t !! k);
}.

(** ** The driver *)

Section Driver.
Context {recno htab : Type} `{!BerkeleyDb recno htab}.

(** [db_blocks_] and [db_seq_no_] are null until they are opened. *)
Record DatabaseBerkeleyDB := mkBdb {
  bd_blocks_ : option recno;
  bd_seq_no_ : option htab;
  bd_last_error : db_error;
}.

Definition ENOENT : Z := 2.

(** [DatabaseBerkeleyDB()] *)
Definition Bdb_default : DatabaseBerkeleyDB := mkBdb None None (DbError Db_NoError []).

Definition Bdb_set_last_error (e : DatabaseError) (m : byte_array) (d : DatabaseBerkeleyDB) : DatabaseBerkeleyDB :=
  mkBdb (bd_blocks_ d) (bd_seq_no_ d) (Database_set_last_error e m).

(** [set_last_error_from_berkeleydb] *)
Definition Bdb_set_last_error_from_berkeleydb (status : Z) (d : DatabaseBerkeleyDB) : DatabaseBerkeleyDB :=
  let err := if status =? 0 then Db_NoError else if status =? ENOENT then Db_NotFound else Db_UnknownError in
  if bool_decide (err = Db_NoError) then Bdb_set_last_error err [] d
  else Bdb_set_last_error err (str "LevelDB error: " ++ print_int status) d.

(** [open]: [dir] tells whether the directory exists or could be created, and
    the other arguments are what the two calls of Berkeley DB return. *)
Definition Bdb_open (dir : bool) (blocks : Z + recno) (seq_no : Z + htab) (d : DatabaseBerkeleyDB)
    : bool * DatabaseBerkeleyDB :=
  if negb dir then (false, d)
  else
    let d := mkBdb None None (bd_last_error d) in
    match blocks with
    | inl status => (false, Bdb_set_last_error_from_berkeleydb status d)
    | inr b =>
        let d := mkBdb (Some b) None (bd_last_error d) in
        match seq_no with
        | inl status => (false, Bdb_set_last_error_from_berkeleydb status d)
        | inr s => (true, Bdb_set_last_error Db_NoError [] (mkBdb (Some b) (Some s) (bd_last_error d)))
        end
    end.

Definition Bdb_is_open (d : DatabaseBerkeleyDB) : bool :=
  match bd_blocks_ d with Some _ => true | None => false end.

(** [put] *)
Definition Bdb_put (key : byte_array) (seq_no : Z) (value : byte_array) (d : DatabaseBerkeleyDB)
    : result (bool * DatabaseBerkeleyDB) :=
  match bd_blocks_ d with
  | None => Ok (false, Bdb_set_last_error Db_NotOpen [] d)
  | Some blocks =>
      let db_seq_no := u32 (seq_no + 1) in
      match recno_put db_seq_no value blocks with
      | inl status => Ok (false, Bdb_set_last_error_from_berkeleydb status d)
      | inr blocks' =>
          let d := mkBdb (Some blocks') (bd_seq_no_ d) (bd_last_error d) in
          match bd_seq_no_ d with
          | None => Throw undefined_behaviour
          | Some seq =>
              match htab_put key db_seq_no seq with
              | inl status => Ok (false, Bdb_set_last_error_from_berkeleydb status d)
              | inr seq' =>
                  Ok (true, Bdb_set_last_error Db_NoError [] (mkBdb (Some blocks') (Some seq') (bd_last_error d)))
              end
          end
      end
  end.

(** [get] with a null pointer *)
Definition Bdb_exists (key : byte_array) (d : DatabaseBerkeleyDB) : result (bool * DatabaseBerkeleyDB) :=
  match bd_blocks_ d with
  | None => Ok (false, Bdb_set_last_error Db_NotOpen [] d)
  | Some _ =>
      match bd_seq_no_ d with
      | None => Throw undefined_behaviour
      | Some seq => Ok (htab_exists key seq =? 0, d)
      end
  end.

(** [get] with a place for the value *)
Definition Bdb_get (key : byte_array) (d : DatabaseBerkeleyDB) : result (option byte_array * DatabaseBerkeleyDB) :=
  match bd_blocks_ d with
  | None => Ok (None, Bdb_set_last_error Db_NotOpen [] d)
  | Some blocks =>
      match bd_seq_no_ d with
      | None => Throw undefined_behaviour
      | Some seq =>
          match htab_get key seq with
          | inl status => Ok (None, Bdb_set_last_error_from_berkeleydb status d)
          | inr db_seq_no =>
              match recno_get db_seq_no blocks with
              | inl status => Ok (None, Bdb_set_last_error_from_berkeleydb status d)
              | inr value => Ok (Some value, Bdb_set_last_error Db_NoError [] d)
              end
          end
      end
  end.

(** *** The iterator: the record the cursor is on, and the flag and value kept
    by the class. *)
Record BdbIterator := mkBdbIterator { it_pos : Z; it_valid_ : bool; it_value_ : byte_array }.

Definition BdbIterator_new : BdbIterator := mkBdbIterator 0 true [].

Definition BdbIterator_seek_to_first (blocks : recno) (it : BdbIterator) : BdbIterator :=
  match recno_first blocks with
  | inr (n, v) => mkBdbIterator n true v
  | inl _ => mkBdbIterator (it_pos it) false (it_value_ it)
  end.

Definition BdbIterator_next (blocks : recno) (it : BdbIterator) : BdbIterator :=
  match recno_next (it_pos it) blocks with
  | inr (n, v) => mkBdbIterator n true v
  | inl _ => mkBdbIterator (it_pos it) false (it_value_ it)
  end.

Definition BdbIterator_value (it : BdbIterator) : byte_array :=
  if it_valid_ it then it_value_ it else [].

(** The values of [for (it->seek_to_first(); it->is_valid(); it->next())].
    A cursor advances strictly, so the number of records bounds the loop. *)
Fixpoint BdbIterator_values (fuel : nat) (blocks : recno) (it : BdbIterator) : list byte_array :=
  match fuel with
  | O => []
  | S fuel' =>
      if it_valid_ it
      then BdbIterator_value it :: BdbIterator_values fuel' blocks (BdbIterator_next blocks it)
      else []
  end.

End Driver.
Arguments DatabaseBerkeleyDB : clear implicits.

(** ** The driver meets the contract *)

Section DriverLaws.
Context {recno htab : Type} `{!BerkeleyDb recno htab}.
Context (recno_view : recno → gmap Z byte_array) (htab_view : htab → gmap byte_array Z).

#[export] Instance Bdb_Database : Database (DatabaseBerkeleyDB recno htab) := {|
  db_is_open := Bdb_is_open;
  db_put := Bdb_put;
  db_get := Bdb_get;
  db_exists := Bdb_exists;
  db_blocks d :=
    match bd_blocks_ d with
    | None => Ok ([], Bdb_set_last_error Db_NotOpen [] d)
    | Some b => Ok (BdbIterator_values (S (size (recno_view b))) b
                      (BdbIterator_seek_to_first b BdbIterator_new), d)
    end;
  db_error_message d := Database_last_error_message (bd_last_error d);
|}.

Definition Bdb_ready (d : DatabaseBerkeleyDB recno htab) : Prop :=
  is_Some (bd_blocks_ d) ∧ is_Some (bd_seq_no_ d).

Definition Bdb_index (d : DatabaseBerkeleyDB recno htab) : gmap byte_array Z :=
  match bd_seq_no_ d with Some s => htab_view s | None => ∅ end.

Definition Bdb_blocks (d : DatabaseBerkeleyDB recno htab) : gmap Z byte_array :=
  match bd_blocks_ d with Some b => recno_view b | None => ∅ end.

Context {L : BerkeleyDbLaws recno htab recno_view htab_view}.

(** The keys of a table in increasing order. *)
Lemma sorted_keys {V} (m : gmap Z V) :
  ∃ ks, StronglySorted Z.lt ks ∧ (∀ k, k ∈ ks ↔ is_Some (m !! k)) ∧ length ks = size m.
Proof.
  set (ks := merge_sort Z.le (elements (dom m))). exists ks.
  assert (NoDup ks) as Hnd by (unfold ks; rewrite merge_sort_Permutation; apply NoDup_elements).
  assert (StronglySorted Z.le ks) as Hs by (apply (StronglySorted_merge_sort Z.le)).
  split; [|split].
  - clearbody ks. induction Hs as [|k ks Hs IH Hf]; [constructor|].
    apply NoDup_cons in Hnd as [Hk Hnd]. constructor; [by apply IH|].
    rewrite Forall_forall in *. intros x Hx. specialize (Hf x Hx).
    assert (k ≠ x) by (by intros ->). lia.
  - intros k. unfold ks. rewrite merge_sort_Permutation, elem_of_elements. apply elem_of_dom.
  - unfold ks. rewrite merge_sort_Permutation. by rewrite <- size_dom.
Qed.

Lemma BdbIterator_values_spec b pre n post v fuel :
  StronglySorted Z.lt (pre ++ n :: post) →
  (∀ k, k ∈ pre ++ n :: post ↔ is_Some (recno_view b !! k)) →
  recno_view b !! n = Some v → (length post < fuel)%nat →
  BdbIterator_values fuel b (mkBdbIterator n true v) = omap (λ k, recno_view b !! k) (n :: post).
Proof.
  revert pre n v fuel. induction post as [|k post IH]; intros pre n v fuel Hs Hk Hv Hf;
    (destruct fuel as [|fuel]; [simpl in Hf; lia|]); cbn [BdbIterator_values it_valid_ omap list_omap];
    rewrite Hv; unfold BdbIterator_value, BdbIterator_next; cbn [it_valid_ it_value_ it_pos]; f_equal.
  - destruct (recno_next n b) as [s|[k v']] eqn:E; [by destruct fuel|].
    apply recno_next_some in E as (H1 & H2 & _).
    assert (k ∈ pre ++ [n]) as Hin by (apply Hk; eauto).
    apply elem_of_app in Hin as [Hin|Hin%list_elem_of_singleton]; [|lia].
    apply StronglySorted_app in Hs as (Hlt & _ & _). specialize (Hlt k n Hin ltac:(by constructor)). lia.
  - assert (n < k ∧ ∀ m, m ∈ post → k < m) as [Hnk Hpost].
    { apply StronglySorted_app in Hs as (_ & _ & Hs). apply StronglySorted_inv in Hs as [Hs Hf1].
      apply StronglySorted_inv in Hs as [_ Hf2]. rewrite !Forall_forall in *.
      split; [apply Hf1; by constructor|]. intros m Hm. by apply Hf2. }
    assert (is_Some (recno_view b !! k)) as [vk Hvk].
    { apply Hk. apply elem_of_app. right. right. by left. }
    destruct (recno_next n b) as [s|[j vj]] eqn:E.
    + apply recno_next_none in E as [_ E]. specialize (E k (ex_intro _ _ Hvk)). lia.
    + apply recno_next_some in E as (H1 & H2 & H3). specialize (H3 k (ex_intro _ _ Hvk) Hnk).
      assert (j = k) as ->.
      { assert (j ∈ pre ++ n :: k :: post) as Hj by (apply Hk; eauto).
        apply StronglySorted_app in Hs as (Hlt & _ & _).
        apply elem_of_app in Hj as [Hj|Hj]; [specialize (Hlt j n Hj ltac:(by constructor)); lia|].
        rewrite !elem_of_cons in Hj. destruct Hj as [->|[->|Hj]]; [lia|done|]. specialize (Hpost j Hj). lia. }
      simplify_eq. apply (IH (pre ++ [n])); rewrite <- ?app_assoc; try done. simpl in Hf. lia.
Qed.

Lemma Bdb_blocks_values b :
  ∃ ks, BdbIterator_values (S (size (recno_view b))) b (BdbIterator_seek_to_first b BdbIterator_new)
        = omap (λ k, recno_view b !! k) ks ∧
  StronglySorted Z.lt ks ∧ (∀ k, k ∈ ks ↔ is_Some (recno_view b !! k)).
Proof.
  destruct (sorted_keys (recno_view b)) as (ks & Hs & Hk & Hl). exists ks. split; [|done].
  rewrite <- Hl. unfold BdbIterator_seek_to_first.
  destruct (recno_first b) as [s|[n v]] eqn:E.
  - apply recno_first_none in E as [_ E]. destruct ks as [|k ks]; [done|].
    assert (is_Some (recno_view b !! k)) as [v Hv] by (apply Hk; by constructor). by rewrite E in Hv.
  - apply recno_first_some in E as [Hv Hmin]. assert (n ∈ ks) as Hn by (apply Hk; eauto).
    destruct ks as [|k ks]; [by apply elem_of_nil in Hn|].
    assert (k = n) as ->.
    { specialize (Hmin k ltac:(apply Hk; by constructor)). apply elem_of_cons in Hn as [->|Hn]; [done|].
      apply StronglySorted_inv in Hs as [_ Hf]. rewrite Forall_forall in Hf. specialize (Hf n Hn). lia. }
    apply (BdbIterator_values_spec b [] n ks v); try done. simpl. lia.
Qed.

#[export] Instance Bdb_laws : DatabaseLaws (DatabaseBerkeleyDB recno htab) Bdb_ready Bdb_index Bdb_blocks.
Proof.
  split.
  - intros d [[b Hb] _]. simpl. unfold Bdb_is_open. by rewrite Hb.
  - intros key seq value [ob os e] [[b Hb] [s Hs]]. simpl in *. subst. unfold Bdb_put; simpl.
    destruct (recno_put _ value b) as [st|b'] eqn:Eb.
    { eexists _, _. split; [done|]. unfold Bdb_set_last_error_from_berkeleydb, Bdb_ready, Bdb_index, Bdb_blocks.
      case_match; simpl; eauto 6. }
    apply recno_put_view in Eb. destruct (htab_put key _ s) as [st|s'] eqn:Es.
    { eexists _, _. split; [done|]. unfold Bdb_set_last_error_from_berkeleydb, Bdb_ready, Bdb_index, Bdb_blocks.
      case_match; simpl; eauto 6. }
    apply htab_put_view in Es. eexists _, _. split; [done|]. unfold Bdb_ready, Bdb_index, Bdb_blocks. simpl. eauto 6.
  - intros key [ob os e] [[b Hb] [s Hs]]. simpl in *. subst. unfold Bdb_get, Bdb_index, Bdb_blocks; simpl.
    assert (∀ st d, Bdb_ready d → Bdb_ready (Bdb_set_last_error_from_berkeleydb st d) ∧
      bd_seq_no_ (Bdb_set_last_error_from_berkeleydb st d) = bd_seq_no_ d ∧
      bd_blocks_ (Bdb_set_last_error_from_berkeleydb st d) = bd_blocks_ d) as Herr.
    { intros st d Hd. unfold Bdb_set_last_error_from_berkeleydb. by case_match. }
    destruct (htab_view s !! key) as [n|] eqn:En.
    + rewrite (htab_get_some _ _ _ En). simpl. destruct (recno_view b !! n) as [v|] eqn:Ev.
      * rewrite (recno_get_some _ _ _ Ev). eexists. split; [done|]. split; [split; simpl; eauto|done].
      * destruct (recno_get_none _ _ Ev) as (st & -> & _). eexists. split; [done|].
        destruct (Herr st (mkBdb (Some b) (Some s) e)) as (R1 & R2 & R3); [split; simpl; eauto|].
        rewrite R2, R3. done.
    + destruct (htab_get_none _ _ En) as (st & -> & _). eexists. split; [done|].
      destruct (Herr st (mkBdb (Some b) (Some s) e)) as (R1 & R2 & R3); [split; simpl; eauto|].
      rewrite R2, R3. done.
  - intros key [ob os e] [[b Hb] [s Hs]]. simpl in *. subst. unfold Bdb_exists, Bdb_index; simpl.
    exists (mkBdb (Some b) (Some s) e). split; [|split; [split; simpl; eauto|done]]. do 2 f_equal.
    destruct (Z.eqb_spec (htab_exists key s) 0) as [E|E].
    + symmetry. apply bool_decide_eq_true. by apply htab_exists_spec.
    + symmetry. apply bool_decide_eq_false. by rewrite <- htab_exists_spec.
  - intros d [[b Hb] Hs]. destruct (Bdb_blocks_values b) as (ks & E & H1 & H2). exists d, ks.
    cbn [db_blocks Bdb_Database]. unfold Bdb_blocks. rewrite Hb, E.
    split; [done|]. split; [done|]. split; [exact H2|]. split; [split; [by eexists|done]|done].
Qed.

End DriverLaws.

(** ** A concrete Berkeley DB: tables as finite maps, in memory *)

Definition mem_keys (m : gmap Z byte_array) : list Z := merge_sort Z.le (elements (dom m)).

Definition mem_at (m : gmap Z byte_array) (ks : list Z) : Z + (Z * byte_array) :=
  match ks with
  | k :: _ => match m !! k with Some v => inr (k, v) | None => inl (-30988) end
  | [] => inl (-30988)
  end.

Definition mem_bdb : BerkeleyDb (gmap Z byte_array) (gmap byte_array Z) := {|
  recno_put n v t := inr (<[n := v]> t);
  recno_get n t := match t !! n with Some v => inr v | None => inl (-30988) end;
  recno_first t := mem_at t (mem_keys t);
  recno_next n t := mem_at t (filter (λ k, n < k) (mem_keys t));
  htab_put k n t := inr (<[k := n]> t);
  htab_get k t := match t !! k with Some n => inr n | None => inl (-30988) end;
  htab_exists k t := match t !! k with Some _ => 0 | None => -30988 end;
|}.

Lemma mem_at_spec (m : gmap Z byte_array) ks :
  StronglySorted Z.le ks → (∀ k, k ∈ ks → is_Some (m !! k)) →
  match mem_at m ks with
  | inr (n, v) => m !! n = Some v ∧ n ∈ ks ∧ ∀ k, k ∈ ks → n <= k
  | inl s => s ≠ 0 ∧ ks = []
  end.
Proof.
  intros Hs Hk. destruct Hs as [|k ks Hs Hf]; simpl; [done|].
  destruct (Hk k ltac:(by constructor)) as [v Hv]. rewrite Hv. split; [done|].
  split; [by constructor|]. intros j Hj. apply elem_of_cons in Hj as [->|Hj]; [lia|].
  rewrite Forall_forall in Hf. by apply Hf.
Qed.

Lemma mem_keys_spec (m : gmap Z byte_array) :
  StronglySorted Z.le (mem_keys m) ∧ ∀ k, k ∈ mem_keys m ↔ is_Some (m !! k).
Proof.
  split; [apply (StronglySorted_merge_sort Z.le)|].
  intros k. unfold mem_keys. rewrite merge_sort_Permutation, elem_of_elements. apply elem_of_dom.
Qed.

Lemma StronglySorted_filter_le (P : Z → Prop) `{∀ x, Decision (P x)} l :
  StronglySorted Z.le l → StronglySorted Z.le (filter P l).
Proof.
  induction 1 as [|x l Hs IH Hf]; [constructor|]. rewrite filter_cons. case_decide; [|done].
  constructor; [done|]. rewrite Forall_forall in *. intros y Hy. apply Hf.
  by apply list_elem_of_filter in Hy as [_ ?].
Qed.

Lemma mem_bdb_laws : @BerkeleyDbLaws _ _ mem_bdb id id.
Proof.
  split; simpl.
  - by intros n v t t' [= <-].
  - intros n v t E. by rewrite E.
  - intros n t E. rewrite E. by eexists.
  - intros n v t E. destruct (mem_keys_spec t) as [Hs Hk].
    pose proof (mem_at_spec t _ Hs (λ k, proj1 (Hk k))) as H. rewrite E in H.
    destruct H as (H1 & _ & H3). split; [done|]. intros m Hm. by apply H3, Hk.
  - intros s t E. destruct (mem_keys_spec t) as [Hs Hk].
    pose proof (mem_at_spec t _ Hs (λ k, proj1 (Hk k))) as H. rewrite E in H.
    destruct H as [H1 H2]. split; [done|]. apply map_empty. intros k.
    destruct (t !! k) as [v|] eqn:Ev; [|done].
    assert (k ∈ mem_keys t) as Hin by (apply Hk; eauto). rewrite H2 in Hin. by apply elem_of_nil in Hin.
  - intros n k v t E. destruct (mem_keys_spec t) as [Hs Hk].
    pose proof (mem_at_spec t _ (StronglySorted_filter_le (λ k, n < k) _ Hs)) as H.
    rewrite E in H. destruct H as (H1 & H2 & H3).
    { intros j [_ Hj]%list_elem_of_filter. by apply Hk. }
    apply list_elem_of_filter in H2 as [H2 _]. split; [done|]. split; [done|].
    intros m Hm Hn. apply H3, list_elem_of_filter. split; [done|]. by apply Hk.
  - intros n s t E. destruct (mem_keys_spec t) as [Hs Hk].
    pose proof (mem_at_spec t _ (StronglySorted_filter_le (λ k, n < k) _ Hs)) as H.
    rewrite E in H. destruct H as [H1 H2].
    { intros j [_ Hj]%list_elem_of_filter. by apply Hk. }
    split; [done|]. intros m Hm. apply Z.nlt_ge. intros Hn.
    assert (m ∈ filter (λ k, n < k) (mem_keys t)) as Hin
      by (apply list_elem_of_filter; split; [done|by apply Hk]).
    rewrite H2 in Hin. by apply elem_of_nil in Hin.
  - by intros k n t t' [= <-].
  - intros k n t E. by rewrite E.
  - intros k t E. rewrite E. by eexists.
  - intros k t. unfold id. by destruct (t !! k); split; intros Hx.
Qed.

Definition mem_database : Database (DatabaseBerkeleyDB (gmap Z byte_array) (gmap byte_array Z)) :=
  @Bdb_Database _ _ mem_bdb id.

Definition mem_empty : DatabaseBerkeleyDB (gmap Z byte_array) (gmap byte_array Z) :=
  mkBdb (Some ∅) (Some ∅) (DbError Db_NoError []).

Lemma mem_database_laws :
  @DatabaseLaws _ mem_database Bdb_ready (Bdb_index id) (Bdb_blocks id).
Proof. apply (@Bdb_laws _ _ mem_bdb id id mem_bdb_laws). Qed.

(** ** Properties *)

Section DriverProperties.
Context {recno htab : Type} `{!BerkeleyDb recno htab}.
Context (recno_view : recno → gmap Z byte_array) (htab_view : htab → gmap byte_array Z).
Context {L : BerkeleyDbLaws recno htab recno_view htab_view}.

(** A block that was put is read back under its key, and every other key
    keeps its block, provided that its number is another one; under a key with
    the same number the new block is read. *)
Theorem Bdb_put_get (d d' : DatabaseBerkeleyDB recno htab) key seq_no value :
  Bdb_ready d → Bdb_put key seq_no value d = Ok (true, d') →
  (∃ d1, Bdb_get key d' = Ok (Some value, d1)) ∧
  ∀ key' v n d0, key' ≠ key → Bdb_get key' d = Ok (Some v, d0) →
    Bdb_index htab_view d !! key' = Some n →
    ∃ d1, Bdb_get key' d' = Ok (Some (if bool_decide (n = u32 (seq_no + 1)) then value else v), d1).
Proof.
  pose proof (@Bdb_laws _ _ _ recno_view htab_view L) as DL. intros Hd Hput.
  destruct (@db_put_spec _ _ _ _ _ DL key seq_no value d Hd) as (b & d2 & E & Hr & Hb).
  cbn [db_put Bdb_Database] in E. rewrite Hput in E. injection E as <- <-. destruct Hb as [Hi [Hbl|[? _]]]; [|done].
  split.
  - destruct (@db_get_spec _ _ _ _ _ DL key d' Hr) as (d1 & G & _). exists d1. cbn [db_get Bdb_Database] in G.
    rewrite G, Hi, lookup_insert_eq. simpl. by rewrite Hbl, lookup_insert_eq.
  - intros key' v n d0 Hne Hget Hn. destruct (@db_get_spec _ _ _ _ _ DL key' d' Hr) as (d3 & G & _). exists d3.
    destruct (@db_get_spec _ _ _ _ _ DL key' d Hd) as (d4 & G0 & _). cbn [db_get Bdb_Database] in G, G0.
    rewrite Hget, Hn in G0. simpl in G0. injection G0 as Ev _.
    rewrite G, Hi, lookup_insert_ne, Hn by done. simpl. rewrite Hbl.
    case_bool_decide; [subst; by rewrite lookup_insert_eq|].
    by rewrite lookup_insert_ne, <- Ev by done.
Qed.

End DriverProperties.

Lemma Bdb_put_get_witness :
  ∃ d1 d', @Bdb_put _ _ mem_bdb [1; 2] 7 [9; 9] mem_empty = Ok (true, d') ∧
    @Bdb_get _ _ mem_bdb [1; 2] d' = Ok (Some [9; 9], d1).
Proof.
  destruct (@Bdb_put _ _ mem_bdb [1; 2] 7 [9; 9] mem_empty) as [[b d']|] eqn:E; [|discriminate].
  destruct b; [|discriminate].
  destruct (@Bdb_put_get _ _ mem_bdb id id mem_bdb_laws mem_empty d' [1; 2] 7 [9; 9]) as [[d1 H] _];
    [split; eexists; reflexivity|exact E|]. by exists d1, d'.
Defined.

(** When only the second table fails to open, the driver calls itself open,
    and the first write goes through a null pointer. *)
Lemma Bdb_half_open {recno htab} `{!BerkeleyDb recno htab} (b b' : recno) status key seq_no value d :
  recno_put (u32 (seq_no + 1)) value b = inr b' →
  let d' := (Bdb_open true (inr b) (inl status : Z + htab) d).2 in
  (Bdb_open true (inr b) (inl status : Z + htab) d).1 = false ∧ Bdb_is_open d' = true ∧
  Bdb_put key seq_no value d' = Throw undefined_behaviour.
Proof.
  intros E. unfold Bdb_open, Bdb_set_last_error_from_berkeleydb; simpl.
  split; [done|]. case_match; simpl; (split; [done|]); unfold Bdb_put; simpl; by rewrite E.
Qed.
