(* ===== verification/Storage.v ===== *)
(** * Storage: the block storage

    Models [csdb/src/storage.cpp] on top of the [Database] interface, with
    [Pool::save] and [Pool::load].  [pool_save] only queues a pool; a thread
    writes the queue to the database when it is woken.  The operations of the
    two threads that exclude each other by the lock are steps of [sys_step].
    The functions that walk the chain are in [Chain]. *)

From S2P Require Import Prelude Hex StdMap Streams Format Amount Values Transaction Pool Database.

(** [Storage::Error] *)
Inductive StorageError :=
| St_NoError | St_NotOpen | St_DatabaseError | St_ChainError | St_DataIntegrityError
| St_UserCancelled | St_InvalidParameter | St_UnknownError.

#[export] Instance StorageError_eq_dec : EqDecision StorageError.
Proof. solve_decision. Defined.

Section Storage.
Context {D : Type} `{!Database D}.

(** ** State *)

(** [Storage::priv], with the error record of the calling thread. *)
Record Storage := mkStorage {
  s_db : option D;
  s_last_hash : byte_array;
  s_count_pool : Z;
  s_write_queue : list Pool;
  s_quit : bool;
  s_last_error : StorageError;
  s_last_error_message : byte_array;
}.

(** [Storage()] *)
Definition Storage_default : Storage := mkStorage None [] 0 [] false St_NoError [].

Definition Storage_set_last_error (e : StorageError) (m : byte_array) (st : Storage) : Storage :=
  mkStorage (s_db st) (s_last_hash st) (s_count_pool st) (s_write_queue st) (s_quit st) e m.

Definition assign_db (d : option D) (st : Storage) : Storage :=
  mkStorage d (s_last_hash st) (s_count_pool st) (s_write_queue st) (s_quit st)
    (s_last_error st) (s_last_error_message st).

Definition Storage_set_last_hash (h : byte_array) (st : Storage) : Storage :=
  mkStorage (s_db st) h (s_count_pool st) (s_write_queue st) (s_quit st)
    (s_last_error st) (s_last_error_message st).

Definition Storage_set_size (n : Z) (st : Storage) : Storage :=
  mkStorage (s_db st) (s_last_hash st) n (s_write_queue st) (s_quit st)
    (s_last_error st) (s_last_error_message st).

Definition assign_queue (q : list Pool) (st : Storage) : Storage :=
  mkStorage (s_db st) (s_last_hash st) (s_count_pool st) q (s_quit st)
    (s_last_error st) (s_last_error_message st).

Definition assign_quit (b : bool) (st : Storage) : Storage :=
  mkStorage (s_db st) (s_last_hash st) (s_count_pool st) (s_write_queue st) b
    (s_last_error st) (s_last_error_message st).

(** [Storage::db_last_error_message] *)
Definition Storage_db_last_error_message (st : Storage) : byte_array :=
  match s_db st with
  | Some d => db_error_message d
  | None => str "Database not specified"
  end.

(** [Storage::last_error_message] *)
Definition Storage_last_error_message (st : Storage) : byte_array :=
  if negb (bytes_eqb (s_last_error_message st) []) then s_last_error_message st
  else match s_last_error st with
       | St_NoError => str "No error"
       | St_NotOpen => str "Storage is not open"
       | St_DatabaseError => str "Database error: " ++ Storage_db_last_error_message st
       | St_ChainError => str "Chain integrity error"
       | St_DataIntegrityError => str "Data integrity error"
       | St_UserCancelled => str "Operation cancalled by user"
       | St_InvalidParameter => str "Invalid parameter passed to method."
       | St_UnknownError => str "Unknown error"
       end.

Definition Storage_isOpen (st : Storage) : bool :=
  match s_db st with Some d => db_is_open d | None => false end.

(** ** Opening *)

(** [als.resize(n)] *)
Definition als_resize (n : nat) (als : list (byte_array * byte_array)) : list (byte_array * byte_array) :=
  take n als ++ replicate (n - length als) ([], []).

(** The loop of [rescan] over the blocks. [lastSeq] has 32 bits; an index past
    the end of the vector is undefined behaviour. *)
Fixpoint rescan_loop (callback : option (Z → bool)) (vs : list byte_array) (lastSeq : Z)
    (als : list (byte_array * byte_array)) (st : Storage)
    : result (option (list (byte_array * byte_array)) * Storage) :=
  match vs with
  | [] => Ok (Some als, st)
  | v :: vs' =>
      let real_hash := PoolHash_calc_from_data v in
      p ← Pool_from_binary v;
      if negb (p_is_valid_ p) then
        Ok (None, Storage_set_last_error St_DataIntegrityError
                    (str "Data integrity error: Corrupted pool for key '" ++ PoolHash_to_string real_hash
                       ++ str "'.") st)
      else
        let '(h, p) := Pool_hash p in
        if negb (PoolHash_eqb h real_hash) then
          Ok (None, Storage_set_last_error St_DataIntegrityError
                      (str "Data integrity error: key does not match real hash (key: '"
                         ++ PoolHash_to_string h ++ str "'; real hash: '"
                         ++ PoolHash_to_string real_hash ++ str "')") st)
        else
          let st := Storage_set_size (u64 (s_count_pool st + 1)) st in
          let cancelled := match callback with Some f => f (s_count_pool st) | None => false end in
          if cancelled then Ok (None, Storage_set_last_error St_UserCancelled [] st)
          else
            let '(lastSeq, als) :=
              if lastSeq <=? p_sequence_ p
              then (u32 (p_sequence_ p), als_resize (Z.to_nat (u32 (u32 (p_sequence_ p) + 1))) als)
              else (lastSeq, als) in
            if Z.of_nat (length als) <=? p_sequence_ p then Throw undefined_behaviour
            else rescan_loop callback vs' lastSeq
                   (<[Z.to_nat (p_sequence_ p) := (real_hash, p_previous_hash_ p)]> als) st
  end.

(** The check of the links that follows it. *)
Fixpoint rescan_links (prev : byte_array) (als : list (byte_array * byte_array)) : byte_array :=
  match als with
  | [] => prev
  | (h, ph) :: als' => if negb (PoolHash_eqb ph prev) then prev else rescan_links h als'
  end.

(** [Storage::priv::rescan] *)
Definition Storage_rescan (callback : option (Z → bool)) (st : Storage) : result (bool * Storage) :=
  let st := Storage_set_size 0 (Storage_set_last_hash [] st) in
  match s_db st with
  | None => Throw undefined_behaviour
  | Some d =>
      '(vs, d) ← db_blocks d;
      '(r, st) ← rescan_loop callback vs 0 [] (assign_db (Some d) st);
      match r with
      | None => Ok (false, st)
      | Some [] => Ok (true, st)
      | Some ((h0, _) :: als) => Ok (true, Storage_set_last_hash (rescan_links h0 als) st)
      end
  end.

(** [Storage::open(OpenOptions)] *)
Definition Storage_open (db : option D) (callback : option (Z → bool)) (st : Storage)
    : result (bool * Storage) :=
  match db with
  | None => Ok (false, Storage_set_last_error St_DatabaseError (str "No valid database driver specified.") st)
  | Some d =>
      let st := assign_db (Some d) st in
      if negb (db_is_open d) then
        Ok (false, Storage_set_last_error St_DatabaseError
                     (str "Error open database: " ++ db_error_message d) st)
      else
        '(ok, st) ← Storage_rescan callback st;
        if negb ok then Ok (false, assign_db None st)
        else Ok (true, Storage_set_last_error St_NoError [] st)
  end.

(** [Storage::close] *)
Definition Storage_close (st : Storage) : Storage :=
  Storage_set_last_error St_NoError [] (assign_db None st).

(** ** Writing *)

(** [Storage::pool_save].  The hash of a pool is filled in by asking for it. *)
Definition Storage_pool_save (pool : Pool) (st : Storage) : result (bool * Storage) :=
  match s_db st with
  | Some d =>
      if negb (db_is_open d) then Ok (false, Storage_set_last_error St_NotOpen [] st)
      else if negb (p_is_valid_ pool) then
        Ok (false, Storage_set_last_error St_InvalidParameter (str "pool_save: Invalid pool passed") st)
      else
        let '(hash, pool) := Pool_hash pool in
        '(present, d) ← db_exists (PoolHash_to_binary hash) d;
        let st := assign_db (Some d) st in
        if (present : bool) then
          Ok (false, Storage_set_last_error St_InvalidParameter
                       (str "pool_save: Pool already pressent [hash: " ++ PoolHash_to_string hash
                          ++ str "]") st)
        else Ok (true, Storage_set_last_error St_NoError [] (assign_queue (s_write_queue st ++ [pool]) st))
  | None => Ok (false, Storage_set_last_error St_NotOpen [] st)
  end.

(** The pool the writer stores: composed unless it is sealed already, with its
    hash. *)
Definition writer_pool (pool : Pool) : byte_array * Pool :=
  Pool_hash (if negb (p_read_only_ pool) then (Pool_compose pool).2 else pool).

(** The body of the inner loop of [write_routine]; the result of [put] is not
    looked at. *)
Definition Storage_write_one (pool : Pool) (st : Storage) : result Storage :=
  let '(hash, pool) := writer_pool pool in
  match s_db st with
  | None => Throw undefined_behaviour
  | Some d =>
      '(_, d) ← db_put (PoolHash_to_binary hash) (u32 (p_sequence_ pool)) (Pool_to_binary pool) d;
      let st := Storage_set_size (u64 (s_count_pool st + 1)) (assign_db (Some d) st) in
      Ok (if PoolHash_eqb (s_last_hash st) (p_previous_hash_ pool)
          then Storage_set_last_hash hash st else st)
  end.

(** The inner loop of [write_routine]: write and pop until the queue is empty. *)
Fixpoint Storage_write_loop (queue : list Pool) (st : Storage) : result Storage :=
  match queue with
  | [] => Ok (assign_queue [] st)
  | pool :: queue' => st ← Storage_write_one pool st; Storage_write_loop queue' (assign_queue queue' st)
  end.

Definition Storage_write_drain (st : Storage) : result Storage := Storage_write_loop (s_write_queue st) st.

(** *** The two threads

    The writer has not taken the lock yet, has found [quit] unset and holds the
    lock, waits, has been woken, or has returned.  A notification reaches it only
    while it waits.  [pool_save] queues and notifies under the lock; the
    destructor sets [quit] and notifies without it. *)
Inductive writer := W_start | W_checked | W_waiting | W_woken | W_done.

Definition notify_one (w : writer) : writer :=
  match w with W_waiting => W_woken | w => w end.

(** [while (!quit)] *)
Definition writer_check (st : Storage) : writer := if s_quit st then W_done else W_checked.

Inductive sys_step : Storage * writer → Storage * writer → Prop :=
| step_save pool st st' w :
    w ≠ W_checked → Storage_pool_save pool st = Ok (true, st') → sys_step (st, w) (st', notify_one w)
| step_start st : sys_step (st, W_start) (st, writer_check st)
| step_wait st : sys_step (st, W_checked) (st, W_waiting)
| step_spurious st : sys_step (st, W_waiting) (st, W_woken)
| step_drain st st' :
    Storage_write_drain st = Ok st' → sys_step (st, W_woken) (st', writer_check st')
| step_destroy st w : sys_step (st, w) (assign_quit true st, notify_one w).

(** ** Reading *)

(** [Storage::pool_load] *)
Definition Storage_pool_load (hash : byte_array) (st : Storage) : result (Pool * Storage) :=
  match s_db st with
  | Some d =>
      if negb (db_is_open d) then Ok (Pool_default, Storage_set_last_error St_NotOpen [] st)
      else if PoolHash_is_empty hash then
        Ok (Pool_default, Storage_set_last_error St_InvalidParameter (str "pool_load: Empty hash passed") st)
      else
        '(data, d) ← db_get (PoolHash_to_binary hash) d;
        let st := assign_db (Some d) st in
        match (data : option byte_array) with
        | None => Ok (Pool_default, Storage_set_last_error St_DatabaseError [] st)
        | Some data =>
            res ← Pool_from_binary data;
            if negb (p_is_valid_ res) then
              Ok (res, Storage_set_last_error St_DataIntegrityError
                         (str "pool_load: Error decoding pool [hash: " ++ PoolHash_to_string hash ++ str "]") st)
            else Ok (res, Storage_set_last_error St_NoError [] st)
        end
  | None => Ok (Pool_default, Storage_set_last_error St_NotOpen [] st)
  end.

(** [Storage::pool_load_meta], with the count it returns by reference. *)
Definition Storage_pool_load_meta (hash : byte_array) (cnt : Z) (st : Storage) : result (Pool * Z * Storage) :=
  match s_db st with
  | Some d =>
      if negb (db_is_open d) then Ok (Pool_default, cnt, Storage_set_last_error St_NotOpen [] st)
      else if PoolHash_is_empty hash then
        Ok (Pool_default, cnt,
            Storage_set_last_error St_InvalidParameter (str "pool_load_meta: Empty hash passed") st)
      else
        '(data, d) ← db_get (PoolHash_to_binary hash) d;
        let st := assign_db (Some d) st in
        match (data : option byte_array) with
        | None => Ok (Pool_default, cnt, Storage_set_last_error St_DatabaseError [] st)
        | Some data =>
            match Pool_meta_from_binary data with
            | None =>
                Ok (Pool_default, cnt, Storage_set_last_error St_DataIntegrityError
                      (str "pool_load_meta: Error decoding pool [hash: " ++ PoolHash_to_string hash ++ str "]") st)
            | Some (res, cnt) => Ok (res, cnt, Storage_set_last_error St_NoError [] st)
            end
        end
  | None => Ok (Pool_default, cnt, Storage_set_last_error St_NotOpen [] st)
  end.

(** [Storage::transaction] *)
Definition Storage_transaction (id : TransactionID) (st : Storage) : result (Transaction * Storage) :=
  if negb (TransactionID_is_valid id) then
    Ok (Transaction_default,
        Storage_set_last_error St_InvalidParameter (str "transaction: Transaction id is not valid") st)
  else
    '(p, st) ← Storage_pool_load (id_pool_hash_ id) st;
    Ok (Pool_transaction_by_id p id, st).

(** [Pool::load] on an open storage: the pool, with the storage it came from. *)
Definition Pool_load (self : option nat) (hash : byte_array) (st : Storage) : result (Pool * Storage) :=
  '(res, st) ← Storage_pool_load hash st;
  Ok (if p_is_valid_ res then Pool_set_storage self res else res, st).

(** [Pool::save] on the storage that [get_storage] selects. *)
Definition Pool_save (self : option nat) (pool : Pool) (st : Storage) : result (bool * Pool * Storage) :=
  if negb (p_is_valid_ pool) then Ok (false, pool, st)
  else if negb (Storage_isOpen st) then Ok (false, pool, st)
  else
    let pool := if PoolHash_is_empty (p_hash_ pool)
                then assign_hash (PoolHash_calc_from_data (p_binary_representation_ pool)) pool else pool in
    '(ok, st) ← Storage_pool_save pool st;
    if (ok : bool) then Ok (true, assign_storage self pool, st) else Ok (false, pool, st).

End Storage.
Arguments Storage : clear implicits.

(** ** Lemmas *)

Section StorageLaws.
Context {D : Type} {DB : Database D} {ready : D → Prop} {index : D → gmap byte_array Z}
  {blocks : D → gmap Z byte_array} {DL : DatabaseLaws D ready index blocks}.

(** Pools the writer can store: valid, well-formed, and with the bytes of their
    fields when they are sealed. *)
Definition storable (p : Pool) : Prop :=
  Pool_ok p ∧ p_is_valid_ p = true ∧ Pool_consistent p.

Lemma writer_pool_spec p :
  storable p →
  let '(h, q) := writer_pool p in
  h = calc_hash (Pool_put p []) ∧ p_hash_ q = h ∧ p_binary_representation_ q = Pool_put p [] ∧
  p_sequence_ q = p_sequence_ p ∧ p_previous_hash_ q = p_previous_hash_ p ∧ p_is_valid_ q = true ∧
  Pool_from_binary (Pool_put p []) = Ok (assign_storage None (Pool_recount q)).
Proof.
  intros (Hok & Hv & Hc). unfold writer_pool. destruct (p_read_only_ p) eqn:Hr; cbn [negb].
  - destruct (Hc Hr) as [Hs Hb]. pose proof Hs as (_ & _ & Hh & _).
    unfold Pool_hash. rewrite Hh, calc_hash_nonempty, Hb. repeat split; try done.
    + by rewrite Hh, Hb.
    + rewrite <- Hb. by apply Pool_sealed_roundtrip.
  - rewrite Pool_compose_valid by assumption. cbn [snd].
    set (q := Pool_update_transactions _). unfold Pool_hash.
    change (p_hash_ q) with (calc_hash (Pool_put p [])). rewrite calc_hash_nonempty.
    repeat split; try done. apply (Pool_sealed_roundtrip q).
    + by apply Pool_ok_update.
    + by apply Pool_update_transactions_sealed.
    + unfold q. by rewrite Pool_put_update.
Qed.

(** The record number of a pool, and the key it is stored under. *)
Definition pool_number (p : Pool) : Z := u32 (u32 (p_sequence_ p) + 1).
Definition pool_key (p : Pool) : byte_array := calc_hash (Pool_put p []).

(** What the database answers to the write of a pool, and to the writes of a
    queue; the code does not look at the answers. *)
Definition put_result (p : Pool) (st : Storage D) : bool :=
  match s_db st with
  | None => false
  | Some d =>
      match db_put (PoolHash_to_binary (writer_pool p).1) (u32 (p_sequence_ (writer_pool p).2))
              (Pool_to_binary (writer_pool p).2) d with
      | Ok (b, _) => b
      | Throw _ => false
      end
  end.

Fixpoint put_results (qs : list Pool) (st : Storage D) : list bool :=
  match qs with
  | [] => []
  | p :: qs' =>
      put_result p st ::
        match Storage_write_one p st with
        | Ok st' => put_results qs' (assign_queue qs' st')
        | Throw _ => []
        end
  end.

Lemma Storage_write_one_spec p st d :
  storable p → s_db st = Some d → ready d →
  ∃ d' st', Storage_write_one p st = Ok st' ∧ s_db st' = Some d' ∧ ready d' ∧
    index d' = (if put_result p st then <[pool_key p := pool_number p]> (index d) else index d) ∧
    (blocks d' = <[pool_number p := Pool_put p []]> (blocks d) ∨ put_result p st = false ∧ blocks d' = blocks d) ∧
    s_count_pool st' = u64 (s_count_pool st + 1) ∧ s_quit st' = s_quit st ∧
    s_last_hash st' = (if bytes_eqb (s_last_hash st) (p_previous_hash_ p) then pool_key p else s_last_hash st).
Proof.
  intros Hp Hd Hr. pose proof (writer_pool_spec p Hp) as Hq. unfold Storage_write_one, put_result.
  destruct (writer_pool p) as [h q]. destruct Hq as (-> & Hh & Hb & Hs & Hprev & _ & _). cbn [fst snd].
  rewrite Hd. unfold PoolHash_to_binary, Pool_to_binary. rewrite Hs, Hb, Hprev.
  destruct (db_put_spec (calc_hash (Pool_put p [])) (u32 (p_sequence_ p)) (Pool_put p []) d Hr)
    as (b & d' & E & Hr' & Hi & Hbl).
  rewrite E, bind_Ok. exists d'. eexists. split; [done|].
  unfold PoolHash_eqb. cbn [s_last_hash Storage_set_size assign_db].
  destruct (bytes_eqb (s_last_hash st) (p_previous_hash_ p)); done.
Qed.

(** [linked h qs]: the pools follow each other from the block [h]. *)
Fixpoint linked (h : byte_array) (qs : list Pool) : Prop :=
  match qs with
  | [] => True
  | p :: qs' => p_previous_hash_ p = h ∧ linked (pool_key p) qs'
  end.

(** The last hash after the pools: it moves with those that continue it. *)
Definition follow (h : byte_array) (qs : list Pool) : byte_array :=
  fold_left (λ h p, if bytes_eqb h (p_previous_hash_ p) then pool_key p else h) qs h.

Lemma follow_linked h qs : linked h qs → follow h qs = from_option pool_key h (last qs).
Proof.
  revert h. induction qs as [|p qs IH]; intros h; [done|]. intros [<- Hl]. unfold follow in *.
  cbn [fold_left]. rewrite bytes_eqb_refl, (IH _ Hl), last_cons. by destruct (last qs).
Qed.

Lemma linked_app h a b : linked h (a ++ b) ↔ linked h a ∧ linked (from_option pool_key h (last a)) b.
Proof.
  revert h. induction a as [|p a IH]; intros h; cbn [app linked]; [tauto|]. rewrite IH, last_cons.
  destruct (last a); cbn; tauto.
Qed.

(** The pools of the queue whose writes succeeded and whose key and number no
    later pool has are in the tables; nothing else was entered in them. *)
Lemma Storage_write_loop_spec qs st d :
  Forall storable qs → s_db st = Some d → ready d →
  ∃ d' st', Storage_write_loop qs st = Ok st' ∧ s_db st' = Some d' ∧ ready d' ∧
    s_write_queue st' = [] ∧ s_quit st' = s_quit st ∧
    s_count_pool st' = fold_left (λ n _, u64 (n + 1)) qs (s_count_pool st) ∧
    s_last_hash st' = follow (s_last_hash st) qs ∧
    (∀ i p, qs !! i = Some p → put_results qs st !! i = Some true →
       pool_key p ∉ pool_key <$> drop (S i) qs → pool_number p ∉ pool_number <$> drop (S i) qs →
       index d' !! pool_key p = Some (pool_number p) ∧ blocks d' !! pool_number p = Some (Pool_put p [])) ∧
    (∀ k, (∀ i p, qs !! i = Some p → put_results qs st !! i = Some true → pool_key p ≠ k) →
       index d' !! k = index d !! k) ∧
    (∀ n, n ∉ pool_number <$> qs → blocks d' !! n = blocks d !! n).
Proof.
  intros Hqs. revert st d. induction Hqs as [|p qs Hp Hqs IH]; intros st d Hd Hr.
  - exists d. eexists. split; [done|]. cbn. by do 6 (split; [done|]).
  - cbn [Storage_write_loop put_results]. destruct (Storage_write_one_spec p st d Hp Hd Hr)
      as (d1 & st1 & E & Hd1 & Hr1 & Hi1 & Hb1 & Hc1 & Hq1 & Hl1).
    rewrite E, bind_Ok.
    destruct (IH (assign_queue qs st1) d1 Hd1 Hr1) as (d2 & st2 & E2 & Hd2 & Hr2 & Hq2 & Hqt2 & Hc2 & Hl2 & Hin & Hik & Hbn).
    exists d2, st2. split; [exact E2|]. split; [done|]. split; [done|]. split; [done|].
    split; [by rewrite Hqt2|]. split; [rewrite Hc2; cbn; by rewrite Hc1|].
    split; [rewrite Hl2; unfold follow; cbn; by rewrite Hl1|]. split; [|split].
    + intros [|i] x Hx Hs Hk Hn; [|by apply (Hin i)]. cbn in Hx, Hs, Hk, Hn. rewrite drop_0 in Hk, Hn.
      injection Hx as <-. injection Hs as Hs. rewrite Hs in Hi1, Hb1.
      rewrite Hik, Hi1, lookup_insert_eq, Hbn; [|done|].
      * split; [done|]. destruct Hb1 as [->|[? _]]; [by rewrite lookup_insert_eq|done].
      * intros i y Hy _ Heq. apply Hk. rewrite <- Heq. apply list_elem_of_fmap_2. by eapply list_elem_of_lookup_2.
    + intros k Hk. rewrite Hik by (intros i x Hx Hs; by apply (Hk (S i))). rewrite Hi1.
      destruct (put_result p st) eqn:Hres; [|done]. rewrite lookup_insert_ne; [done|]. by apply (Hk 0%nat p).
    + intros n Hnot. rewrite fmap_cons in Hnot. apply not_elem_of_cons in Hnot as [Hne Hnot]. rewrite Hbn by done.
      destruct Hb1 as [->|[_ ->]]; [by rewrite lookup_insert_ne|done].
Qed.

Lemma length_put_results qs st d :
  Forall storable qs → s_db st = Some d → ready d → length (put_results qs st) = length qs.
Proof.
  intros Hqs. revert st d. induction Hqs as [|p qs Hp _ IH]; intros st d Hd Hr; [done|]. cbn [put_results length].
  destruct (Storage_write_one_spec p st d Hp Hd Hr) as (d1 & st1 & -> & Hd1 & Hr1 & _). by rewrite (IH _ d1).
Qed.

Lemma nodup_later {A B} (f : A → B) l i j x y :
  NoDup (f <$> l) → l !! i = Some x → l !! j = Some y → f x = f y → i = j.
Proof.
  intros Hn Hx Hy E. apply (NoDup_lookup (f <$> l) i j (f x) Hn); rewrite list_lookup_fmap; [by rewrite Hx|by rewrite Hy, E].
Qed.

Lemma nodup_drop {A B} (f : A → B) l i x : NoDup (f <$> l) → l !! i = Some x → f x ∉ f <$> drop (S i) l.
Proof.
  intros Hn Hx (y & E & Hy)%list_elem_of_fmap. apply list_elem_of_lookup_1 in Hy as (j & Hy). rewrite lookup_drop in Hy.
  pose proof (nodup_later f l _ _ _ _ Hn Hx Hy E). lia.
Qed.

(** With keys and numbers that differ, every pool whose write succeeded is in the
    tables, and no key of the others was entered. *)
Lemma Storage_write_loop_nodup qs st d :
  Forall storable qs → s_db st = Some d → ready d → NoDup (pool_key <$> qs) → NoDup (pool_number <$> qs) →
  ∃ d' st', Storage_write_loop qs st = Ok st' ∧ s_db st' = Some d' ∧ ready d' ∧
    s_write_queue st' = [] ∧
    s_count_pool st' = fold_left (λ n _, u64 (n + 1)) qs (s_count_pool st) ∧
    s_last_hash st' = follow (s_last_hash st) qs ∧
    (∀ i p, qs !! i = Some p → put_results qs st !! i = Some true →
       index d' !! pool_key p = Some (pool_number p) ∧ blocks d' !! pool_number p = Some (Pool_put p [])) ∧
    (∀ i p, qs !! i = Some p → put_results qs st !! i = Some false → index d' !! pool_key p = index d !! pool_key p) ∧
    (∀ k, k ∉ pool_key <$> qs → index d' !! k = index d !! k) ∧
    (∀ n, n ∉ pool_number <$> qs → blocks d' !! n = blocks d !! n).
Proof.
  intros Hq Hd Hr Hk Hn. destruct (Storage_write_loop_spec qs st d Hq Hd Hr)
    as (d' & st' & E & Hd' & Hr' & Hqe & _ & Hc & Hl & Hin & Hik & Hbn).
  exists d', st'. do 6 (split; [done|]). split; [|split; [|split; [|done]]].
  - intros i p Hp Hs. apply (Hin i p); [done|done|by apply nodup_drop..].
  - intros i p Hp Hs. apply Hik. intros j x Hx Hsx Heq. pose proof (nodup_later pool_key qs _ _ _ _ Hk Hx Hp Heq). congruence.
  - intros k Hnot. apply Hik. intros i p Hp _ <-. apply Hnot, list_elem_of_fmap_2. by eapply list_elem_of_lookup_2.
Qed.

Lemma Storage_pool_load_spec st d h n b :
  s_db st = Some d → ready d → h ≠ [] → index d !! h = Some n → blocks d !! n = Some b →
  ∃ d', Storage_pool_load h st =
    (res ← Pool_from_binary b;
     Ok (res, Storage_set_last_error (if p_is_valid_ res then St_NoError else St_DataIntegrityError)
                (if p_is_valid_ res then [] else
                   str "pool_load: Error decoding pool [hash: " ++ PoolHash_to_string h ++ str "]")
                (assign_db (Some d') st))) ∧
    ready d' ∧ index d' = index d ∧ blocks d' = blocks d.
Proof.
  intros Hd Hr Hh Hi Hb. unfold Storage_pool_load. rewrite Hd, (db_ready_open d Hr). cbn [negb].
  assert (PoolHash_is_empty h = false) as ->.
  { apply not_true_iff_false. by rewrite PoolHash_is_empty_spec. }
  destruct (db_get_spec (PoolHash_to_binary h) d Hr) as (d' & E & Hr' & Hi' & Hb').
  exists d'. split; [|done]. rewrite E, bind_Ok. unfold PoolHash_to_binary. rewrite Hi. cbn [mbind option_bind].
  rewrite Hb. destruct (Pool_from_binary b) as [res|e]; [|done]. rewrite !bind_Ok.
  by destruct (p_is_valid_ res).
Qed.

Lemma Storage_pool_load_missing st d h :
  s_db st = Some d → ready d → h ≠ [] → index d !! h = None →
  ∃ st', Storage_pool_load h st = Ok (Pool_default, st') ∧ s_last_error st' = St_DatabaseError.
Proof.
  intros Hd Hr Hh Hi. unfold Storage_pool_load. rewrite Hd, (db_ready_open d Hr). cbn [negb].
  assert (PoolHash_is_empty h = false) as -> by (apply not_true_iff_false; by rewrite PoolHash_is_empty_spec).
  destruct (db_get_spec (PoolHash_to_binary h) d Hr) as (d' & -> & _). unfold PoolHash_to_binary. rewrite bind_Ok, Hi.
  eexists. split; done.
Qed.

Lemma pool_key_nonempty p : pool_key p ≠ [].
Proof.
  intros Hempty. pose proof (calc_hash_nonempty (Pool_put p [])) as Hx.
  unfold pool_key in Hempty. by rewrite Hempty in Hx.
Qed.

Lemma Storage_write_loop_queue q st st' :
  Storage_write_loop q st = Ok st' → s_write_queue st' = [].
Proof.
  revert st. induction q as [|p q IH]; intros st E; cbn [Storage_write_loop] in E; [by injection E as <-|].
  destruct (Storage_write_one p st) as [st1|]; [|done]. rewrite bind_Ok in E. by eapply IH.
Qed.

Lemma Storage_pool_save_quit p st b st' :
  Storage_pool_save p st = Ok (b, st') → s_quit st' = s_quit st.
Proof.
  unfold Storage_pool_save. destruct (s_db st) as [d|]; [|by intros [= _ <-]].
  destruct (db_is_open d); [|by intros [= _ <-]]. destruct (p_is_valid_ p); [|by intros [= _ <-]]. cbn [negb].
  destruct (Pool_hash p) as [h q]. destruct (db_exists _ d) as [[pr d']|]; [|done]. rewrite bind_Ok.
  destruct pr; by intros [= _ <-].
Qed.

(** The writer has started, goes to wait only on an empty queue, and returns
    only when the storage is destroyed. *)
Definition writer_inv (x : Storage D * writer) : Prop :=
  match x.2 with
  | W_start => False
  | W_checked | W_waiting => s_write_queue x.1 = []
  | W_woken => True
  | W_done => s_quit x.1 = true
  end.

Lemma sys_step_inv x y : sys_step x y → writer_inv x → writer_inv y.
Proof.
  unfold writer_inv. intros Hs Hi. destruct Hs as [pool st st' w Hw E|st|st|st|st st' E|st w]; cbn in *; try done.
  - destruct w; try done. cbn. by rewrite (Storage_pool_save_quit _ _ _ _ E).
  - unfold writer_check. destruct (s_quit st') eqn:Hq; [done|]. by eapply Storage_write_loop_queue.
  - by destruct w.
Qed.

Lemma Pool_from_binary_hash v p :
  Pool_from_binary v = Ok p → p_is_valid_ p = true → p_hash_ p = calc_hash v.
Proof.
  unfold Pool_from_binary. destruct (Pool_get Pool_default v) as [[q|]|e]; [|by intros [= <-]|done].
  rewrite bind_Ok. by intros [= <-].
Qed.

(** What [rescan] notes of a block: its hash and the hash before it. *)
Definition block_link (v : byte_array) : byte_array * byte_array :=
  match Pool_from_binary v with
  | Ok p => (calc_hash v, p_previous_hash_ p)
  | Throw _ => ([], [])
  end.

(** Blocks that hold valid pools numbered from [k] on. *)
Fixpoint numbered (k : Z) (vs : list byte_array) : Prop :=
  match vs with
  | [] => True
  | v :: vs' =>
      (∃ p, Pool_from_binary v = Ok p ∧ p_is_valid_ p = true ∧ p_sequence_ p = k) ∧ numbered (k + 1) vs'
  end.

Lemma als_resize_S als : als_resize (S (length als)) als = als ++ [([], [])].
Proof.
  unfold als_resize. rewrite take_ge by lia. f_equal.
  by replace (S (length als) - length als)%nat with 1%nat by lia.
Qed.

Lemma rescan_loop_spec vs als (st : Storage D) lastSeq :
  numbered (Z.of_nat (length als)) vs → 0 <= lastSeq <= Z.of_nat (length als) →
  Z.of_nat (length als + length vs) < 2 ^ 32 → s_count_pool st = Z.of_nat (length als) →
  rescan_loop None vs lastSeq als st
  = Ok (Some (als ++ (block_link <$> vs)), Storage_set_size (Z.of_nat (length als + length vs)) st).
Proof.
  revert als st lastSeq. induction vs as [|v vs IH]; intros als st lastSeq Hn Hl Hlt Hc.
  - cbn. rewrite app_nil_r, Nat.add_0_r, <- Hc. by destruct st.
  - destruct Hn as [(p & E & Hv & Hs) Hn]. cbn [rescan_loop]. cbn [length] in Hlt.
    rewrite E, bind_Ok, Hv. cbn [negb]. pose proof (Pool_from_binary_hash v p E Hv) as Hh.
    unfold Pool_hash. rewrite Hh, calc_hash_nonempty, Hh.
    unfold PoolHash_calc_from_data, PoolHash_eqb. rewrite bytes_eqb_refl. cbn [negb].
    rewrite (proj2 (Z.leb_le lastSeq (p_sequence_ p))) by lia.
    rewrite Hs, (u32_id (Z.of_nat (length als))), u32_id by (unfold_widths; lia).
    replace (Z.to_nat (Z.of_nat (length als) + 1)) with (S (length als)) by lia.
    rewrite als_resize_S, length_app, (proj2 (Z.leb_gt _ _)) by (simpl; lia).
    rewrite Nat2Z.id, insert_app_r_alt, Nat.sub_diag by lia. cbn [list_insert insert].
    rewrite IH.
    + rewrite length_app, <- app_assoc, fmap_cons. unfold block_link at 2. rewrite E. cbn [length app].
      by replace (length als + 1 + length vs)%nat with (length als + S (length vs))%nat by lia.
    + rewrite length_app. cbn [length]. by replace (Z.of_nat (length als + 1)) with (Z.of_nat (length als) + 1) by lia.
    + rewrite length_app. cbn [length]. lia.
    + rewrite length_app. cbn [length]. lia.
    + rewrite length_app. cbn. rewrite Hc, u64_id by (unfold_widths; lia). lia.
Qed.

Lemma rescan_links_linked h qs :
  Forall storable qs → linked h qs →
  rescan_links h ((λ p, (pool_key p, p_previous_hash_ p)) <$> qs) = from_option pool_key h (last qs).
Proof.
  intros Hq. revert h. induction Hq as [|p qs Hp Hq IH]; intros h Hl; [done|].
  destruct Hl as [Hprev Hl]. rewrite fmap_cons. cbn [rescan_links]. unfold PoolHash_eqb.
  rewrite Hprev, bytes_eqb_refl. cbn [negb]. rewrite (IH _ Hl), last_cons. by destruct (last qs).
Qed.

Lemma storable_block p :
  storable p →
  ∃ q, Pool_from_binary (Pool_put p []) = Ok q ∧ p_is_valid_ q = true ∧
       p_sequence_ q = p_sequence_ p ∧ p_previous_hash_ q = p_previous_hash_ p.
Proof.
  intros Hp. pose proof (writer_pool_spec p Hp) as Hs. destruct (writer_pool p) as [h q].
  destruct Hs as (_ & _ & _ & Hseq & Hprev & Hv & ->). eexists. split; [done|]. done.
Qed.

Lemma storable_links qs :
  Forall storable qs →
  block_link <$> ((λ p, Pool_put p []) <$> qs) = (λ p, (pool_key p, p_previous_hash_ p)) <$> qs.
Proof.
  induction 1 as [|p qs Hp _ IH]; [done|]. rewrite !fmap_cons, IH. f_equal.
  destruct (storable_block p Hp) as (q & E & _ & _ & Hprev). unfold block_link. by rewrite E, Hprev.
Qed.

(** Pools numbered consecutively. *)
Fixpoint consecutive (k : Z) (qs : list Pool) : Prop :=
  match qs with
  | [] => True
  | p :: qs' => p_sequence_ p = k ∧ consecutive (k + 1) qs'
  end.

Lemma consecutive_numbered k qs :
  Forall storable qs → consecutive k qs → numbered k ((λ p, Pool_put p []) <$> qs).
Proof.
  intros Hq. revert k. induction Hq as [|p qs Hp Hq IH]; intros k Hc; [done|].
  destruct Hc as [Hs Hc]. rewrite fmap_cons. cbn [numbered]. split; [|by apply IH].
  destruct (storable_block p Hp) as (q & E & Hv & Hseq & _). exists q. by rewrite Hseq.
Qed.

Lemma consecutive_lookup k qs i p :
  consecutive k qs → qs !! i = Some p → p_sequence_ p = k + Z.of_nat i.
Proof.
  revert k i. induction qs as [|q qs IH]; intros k i Hc Hi; [done|]. destruct Hc as [Hs Hc].
  destruct i as [|i]; simpl in Hi; [simplify_eq; lia|]. rewrite (IH _ _ Hc Hi). lia.
Qed.

Lemma sorted_lt_unique (l1 l2 : list Z) :
  StronglySorted Z.lt l1 → StronglySorted Z.lt l2 → (∀ x, x ∈ l1 ↔ x ∈ l2) → l1 = l2.
Proof.
  intros H1. revert l2. induction H1 as [|x l1 H1 IH F1]; intros l2 H2 Heq.
  - destruct l2 as [|y l2]; [done|]. assert (y ∈ @nil Z) as Hy by (apply Heq; by constructor).
    by apply elem_of_nil in Hy.
  - destruct H2 as [|y l2 H2 F2].
    { assert (x ∈ @nil Z) as Hx by (apply Heq; by constructor). by apply elem_of_nil in Hx. }
    rewrite Forall_forall in F1, F2.
    assert (x = y) as ->.
    { assert (x ∈ y :: l2) as Hx by (apply Heq; by constructor).
      assert (y ∈ x :: l1) as Hy by (apply Heq; by constructor).
      apply elem_of_cons in Hx as [?|Hx]; [done|]. apply elem_of_cons in Hy as [?|Hy]; [done|].
      specialize (F1 y Hy). specialize (F2 x Hx). lia. }
    f_equal. apply IH; [done|]. intros z. specialize (Heq z). rewrite !elem_of_cons in Heq.
    split; intros Hz.
    + destruct (proj1 Heq (or_intror Hz)) as [->|?]; [specialize (F1 y Hz); lia|done].
    + destruct (proj2 Heq (or_intror Hz)) as [->|?]; [specialize (F2 y Hz); lia|done].
Qed.

Lemma consecutive_number qs i p :
  consecutive 0 qs → Z.of_nat (length qs) < 2 ^ 32 - 1 → qs !! i = Some p → pool_number p = Z.of_nat i + 1.
Proof.
  intros Hc Hn E. pose proof (lookup_lt_Some _ _ _ E). unfold pool_number.
  rewrite (consecutive_lookup 0 qs i p Hc E), Z.add_0_l.
  rewrite (u32_id (Z.of_nat i)), u32_id by (unfold_widths; lia). done.
Qed.

Lemma consecutive_numbers qs :
  consecutive 0 qs → Z.of_nat (length qs) < 2 ^ 32 - 1 →
  pool_number <$> qs = (λ i, Z.of_nat i + 1) <$> seq 0 (length qs).
Proof.
  intros Hc Hn. apply list_eq. intros i. rewrite !list_lookup_fmap. destruct (qs !! i) as [p|] eqn:E.
  - rewrite lookup_seq_lt by (by apply lookup_lt_Some in E). cbn.
    by rewrite (consecutive_number qs i p).
  - apply lookup_ge_None in E. by rewrite lookup_seq_ge.
Qed.

Lemma seq_sorted k n : StronglySorted Z.lt ((λ i, Z.of_nat i + 1) <$> seq k n).
Proof.
  revert k. induction n as [|n IH]; intros k; cbn; constructor; [apply IH|].
  rewrite Forall_forall. intros x (i & -> & Hi)%list_elem_of_fmap. apply elem_of_seq in Hi. lia.
Qed.

(** The blocks of a chain, in the order of their numbers. *)
Lemma chain_blocks (m : gmap Z byte_array) qs ks :
  consecutive 0 qs → Z.of_nat (length qs) < 2 ^ 32 - 1 →
  (∀ p, p ∈ qs → m !! pool_number p = Some (Pool_put p [])) →
  (∀ n, n ∉ pool_number <$> qs → m !! n = None) →
  StronglySorted Z.lt ks → (∀ k, k ∈ ks ↔ is_Some (m !! k)) →
  omap (λ k, m !! k) ks = (λ p, Pool_put p []) <$> qs.
Proof.
  intros Hc Hn Hin Hout Hs Hk.
  assert (ks = pool_number <$> qs) as ->.
  { apply sorted_lt_unique; [done|rewrite consecutive_numbers by done; apply seq_sorted|].
    intros x. rewrite Hk. split.
    - intros [v Hv]. destruct (decide (x ∈ pool_number <$> qs)) as [|Hx]; [done|].
      by rewrite (Hout x Hx) in Hv.
    - intros (p & -> & Hp)%list_elem_of_fmap. rewrite (Hin p Hp). eauto. }
  clear -Hin. induction qs as [|p qs IH]; [done|]. rewrite !fmap_cons. cbn [omap list_omap].
  rewrite (Hin p) by constructor. f_equal. apply IH. intros q Hq. apply Hin. by constructor.
Qed.

Lemma count_fold (qs : list Pool) k :
  0 <= k → k + Z.of_nat (length qs) < 2 ^ 64 →
  fold_left (λ n (_ : Pool), u64 (n + 1)) qs k = k + Z.of_nat (length qs).
Proof.
  revert k. induction qs as [|p qs IH]; intros k H0 H1; cbn [fold_left length] in *; [lia|].
  assert (u64 (k + 1) = k + 1) as -> by (apply u64_id; unfold_widths; lia).
  rewrite IH; lia.
Qed.

(** Opening a database that holds a chain. *)
Lemma Storage_open_chain d qs st :
  ready d → Forall storable qs → consecutive 0 qs → linked [] qs → Z.of_nat (length qs) < 2 ^ 32 - 1 →
  (∀ p, p ∈ qs → blocks d !! pool_number p = Some (Pool_put p [])) →
  (∀ n, n ∉ pool_number <$> qs → blocks d !! n = None) →
  ∃ st', Storage_open (Some d) None st = Ok (true, st') ∧
    s_count_pool st' = Z.of_nat (length qs) ∧ s_last_hash st' = from_option pool_key [] (last qs).
Proof.
  intros Hr Hq Hc Hl Hn Hin Hout.
  destruct (db_blocks_spec d Hr) as (d2 & ks & Eb & Hs & Hks & _).
  rewrite (chain_blocks (blocks d) qs ks) in Eb by done.
  unfold Storage_open. rewrite (db_ready_open d Hr). cbn [negb]. unfold Storage_rescan.
  cbn [s_db assign_db Storage_set_size Storage_set_last_hash]. rewrite Eb, bind_Ok. cbv beta iota.
  rewrite rescan_loop_spec; [| |cbn; lia|cbn; rewrite length_fmap; lia|done].
  2: { by apply consecutive_numbered. }
  rewrite app_nil_l, storable_links, bind_Ok by done. cbv beta iota. cbn [length Nat.add].
  rewrite length_fmap. destruct qs as [|p qs].
  - eexists. split; [done|]. done.
  - rewrite fmap_cons. cbv beta iota. cbn [negb]. rewrite bind_Ok. cbn [negb].
    eexists. split; [done|]. split; [done|]. cbn [s_last_hash Storage_set_last_hash Storage_set_last_error].
    destruct Hl as [_ Hl]. apply Forall_cons in Hq as [_ Hq].
    rewrite rescan_links_linked, last_cons by done. by destruct (last qs).
Qed.

(** ** Properties *)

(** C20: when the writer thread has emptied its queue: the count has grown by
    the length of the queue and the last hash has moved with the pools that
    continue it, whatever the database answered.  Every pool whose write succeeded
    loads under its hash as the sealed pool, unless a later pool of the queue has
    its hash or its record number; a pool whose write failed, and whose hash
    nothing else has, does not load. *)
Theorem Storage_drain_load st d :
  let qs := s_write_queue st in
  s_db st = Some d → ready d → Forall storable qs →
  ∃ st', Storage_write_drain st = Ok st' ∧ s_write_queue st' = [] ∧
    s_count_pool st' = fold_left (λ n _, u64 (n + 1)) qs (s_count_pool st) ∧
    s_last_hash st' = follow (s_last_hash st) qs ∧ length (put_results qs st) = length qs ∧
    ∀ i p, qs !! i = Some p → pool_key p ∉ pool_key <$> drop (S i) qs →
      (put_results qs st !! i = Some true → pool_number p ∉ pool_number <$> drop (S i) qs →
       ∃ st'', Storage_pool_load (pool_key p) st'
         = Ok (assign_storage None (Pool_recount (writer_pool p).2), st'') ∧ s_last_error st'' = St_NoError) ∧
      (put_results qs st !! i = Some false → pool_key p ∉ pool_key <$> take i qs → index d !! pool_key p = None →
       ∃ st'', Storage_pool_load (pool_key p) st' = Ok (Pool_default, st'') ∧ s_last_error st'' = St_DatabaseError).
Proof.
  intros qs Hd Hr Hq. unfold Storage_write_drain. fold qs.
  destruct (Storage_write_loop_spec qs st d Hq Hd Hr) as (d' & st' & E & Hd' & Hr' & Hqe & _ & Hc & Hl & Hin & Hik & _).
  exists st'. split; [exact E|]. split; [done|]. split; [done|]. split; [done|].
  split; [by apply (length_put_results qs st d)|]. intros i p Hp Hk. split.
  - intros Hs Hn. destruct (Hin i p Hp Hs Hk Hn) as [Hi Hb]. rewrite Forall_forall in Hq.
    pose proof (writer_pool_spec p (Hq p (list_elem_of_lookup_2 _ _ _ Hp))) as Hw. destruct (writer_pool p) as [h q].
    destruct Hw as (_ & _ & _ & _ & _ & Hv & Hrt).
    destruct (Storage_pool_load_spec st' d' (pool_key p) _ _ Hd' Hr' (pool_key_nonempty p) Hi Hb) as (d'' & El & _).
    rewrite El, Hrt, bind_Ok. eexists. split; [done|]. cbn. by rewrite Hv.
  - intros Hs Hbefore Hnew. apply (Storage_pool_load_missing st' d'); [done|done|apply pool_key_nonempty|].
    rewrite Hik; [done|]. intros j x Hx Hsx Hkx. destruct (lt_eq_lt_dec i j) as [[Hlt|Heq]|Hlt].
    + apply Hk. rewrite <- Hkx. apply list_elem_of_fmap_2, (list_elem_of_lookup_2 _ (j - S i)).
      rewrite lookup_drop. by replace (S i + (j - S i))%nat with j by lia.
    + subst. congruence.
    + apply Hbefore. rewrite <- Hkx. apply list_elem_of_fmap_2, (list_elem_of_lookup_2 _ j). by rewrite lookup_take_lt.
Qed.

(** C34: once the writer waits with an empty queue, no wake-up is lost: in
    every state the two threads can reach, a queue with work in it has a writer
    that is awake, or that has returned because the storage was destroyed. *)
Theorem writer_never_sleeps_on_work st0 s w :
  s_write_queue st0 = [] → rtc sys_step (st0, W_waiting) (s, w) →
  s_write_queue s ≠ [] → w = W_woken ∨ (w = W_done ∧ s_quit s = true).
Proof.
  intros H0 Hr. assert (writer_inv (st0, W_waiting)) as Hi by done.
  assert (writer_inv (s, w)) as Hinv.
  { revert Hi. induction Hr as [|x y z Hs _ IH]; [done|]. intros Hi. by eapply IH, sys_step_inv. }
  cbn in Hinv. destruct w; naive_solver.
Qed.

(** A chain of pools numbered from zero that was written to an empty
    database, without a failure, is found again when the storage is opened: the count and the last
    hash are those the writer left. *)
Theorem Storage_reopen d qs st0 st1 :
  ready d → index d = ∅ → blocks d = ∅ →
  Forall storable qs → consecutive 0 qs → linked [] qs → NoDup (pool_key <$> qs) →
  Z.of_nat (length qs) < 2 ^ 32 - 1 →
  st0 = mkStorage (Some d) [] 0 qs false St_NoError [] → Forall (λ b, b = true) (put_results qs st0) →
  ∃ st d', Storage_write_drain st0 = Ok st ∧ s_db st = Some d' ∧
    s_count_pool st = Z.of_nat (length qs) ∧ s_last_hash st = from_option pool_key [] (last qs) ∧
    ∃ st2, Storage_open (Some d') None st1 = Ok (true, st2) ∧
      s_count_pool st2 = s_count_pool st ∧ s_last_hash st2 = s_last_hash st.
Proof.
  intros Hr Hi Hb Hq Hc Hl Hk Hn -> Hw. unfold Storage_write_drain. cbn [s_write_queue].
  destruct (Storage_write_loop_nodup qs (mkStorage (Some d) [] 0 qs false St_NoError []) d)
    as (d' & st & E & Hd' & Hr' & _ & Hcnt & Hlast & Hin & _ & _ & Hbn); try done.
  { rewrite consecutive_numbers by done. apply NoDup_fmap_2; [intros ???; lia|apply NoDup_seq]. }
  exists st, d'. split; [exact E|]. split; [done|].
  cbn [s_count_pool s_last_hash] in Hcnt, Hlast. rewrite count_fold in Hcnt by lia. rewrite follow_linked in Hlast by done.
  split; [done|]. split; [done|].
  destruct (Storage_open_chain d' qs st1) as (st2 & Eo & Hc2 & Hl2); try done.
  - intros p Hp. apply list_elem_of_lookup_1 in Hp as (i & Hp). apply (Hin i p Hp).
    pose proof (length_put_results qs (mkStorage (Some d) [] 0 qs false St_NoError []) d Hq eq_refl Hr) as Hlen.
    destruct (lookup_lt_is_Some_2 (put_results qs (mkStorage (Some d) [] 0 qs false St_NoError [])) i) as [b Eb];
      [rewrite Hlen; by eapply lookup_lt_Some|].
    rewrite Eb. f_equal. exact (Forall_lookup_1 _ _ _ _ Hw Eb).
  - intros n Hnot. by rewrite Hbn, Hb by done.
  - exists st2. split; [exact Eo|]. by rewrite Hc2, Hl2, Hcnt.
Qed.

End StorageLaws.

(** ** Examples *)

Definition mem_storage (q : list Pool) : Storage (DatabaseBerkeleyDB (gmap Z byte_array) (gmap byte_array Z)) :=
  mkStorage (Some mem_empty) [] 0 q false St_NoError [].

Definition genesis_pool : Pool := mkPool true false [] [] 0 [sample_transaction []] 1 [] [] [] [] None.

Lemma mem_ready : Bdb_ready mem_empty.
Proof. split; by eexists. Qed.

Lemma genesis_storable : storable genesis_pool.
Proof.
  split; [|done]. unfold Pool_ok, genesis_pool; cbn.
  split; [split; [constructor|done]|]. split; [split; done|].
  split; [split; [constructor|split; [done|constructor]]|].
  split.
  - constructor; [|constructor]. unfold Transaction_ok, sample_transaction, Amount_repr, c_user_fields, c_map, map_sorted; simpl.
    closed_ok; try (apply str_ok); closed_ok.
  - split; [done|]. split; (split; [constructor|done]).
Qed.

Lemma Storage_drain_load_witness :
  ∃ st' st'', @Storage_write_drain _ mem_database (mem_storage [genesis_pool]) = Ok st' ∧
    @Storage_pool_load _ mem_database (pool_key genesis_pool) st'
    = Ok (assign_storage None (Pool_recount (writer_pool genesis_pool).2), st'').
Proof.
  destruct (@Storage_drain_load _ mem_database Bdb_ready (Bdb_index id)
    (Bdb_blocks id) mem_database_laws (mem_storage [genesis_pool]) mem_empty eq_refl mem_ready)
    as (st' & E & _ & _ & _ & _ & H).
  - constructor; [apply genesis_storable|constructor].
  - destruct (proj1 (H 0%nat genesis_pool eq_refl ltac:(apply not_elem_of_nil))) as (st'' & E2 & _).
    + vm_compute. reflexivity.
    + apply not_elem_of_nil.
    + by exists st', st''.
Defined.

Lemma mem_save : ∃ st', @Storage_pool_save _ mem_database genesis_pool (mem_storage []) = Ok (true, st') ∧
  s_write_queue st' ≠ [] ∧ s_quit st' = false.
Proof.
  assert (match @Storage_pool_save _ mem_database genesis_pool (mem_storage []) with
          | Ok (b, st') => b && negb (bool_decide (length (s_write_queue st') = 0%nat)) && negb (s_quit st')
          | Throw _ => false end = true) as H by (vm_compute; reflexivity).
  destruct (@Storage_pool_save _ mem_database genesis_pool (mem_storage [])) as [[b st']|e]; [|discriminate].
  apply andb_true_iff in H as [[-> H1]%andb_true_iff H2%negb_true_iff]. exists st'. split; [done|]. split; [|done].
  intros E. by rewrite E in H1.
Qed.

Lemma writer_never_sleeps_on_work_witness :
  ∃ st' w, rtc (@sys_step _ mem_database) (mem_storage [], W_waiting) (st', w) ∧
    (w = W_woken ∨ (w = W_done ∧ s_quit st' = true)).
Proof.
  destruct mem_save as (st' & E & Hq & _).
  assert (rtc (@sys_step _ mem_database) (mem_storage [], W_waiting) (st', W_woken)) as Hr.
  { apply rtc_once. by apply (step_save genesis_pool (mem_storage []) st' W_waiting). }
  exists st', W_woken. split; [exact Hr|].
  exact (@writer_never_sleeps_on_work _ mem_database (mem_storage []) st' W_woken eq_refl Hr Hq).
Defined.

Lemma Storage_reopen_witness :
  ∃ st d' st2, @Storage_write_drain _ mem_database (mem_storage [genesis_pool]) = Ok st ∧
    @Storage_open _ mem_database (Some d') None Storage_default = Ok (true, st2) ∧
    s_last_hash st2 = s_last_hash st.
Proof.
  destruct (@Storage_reopen _ mem_database Bdb_ready (Bdb_index id)
    (Bdb_blocks id) mem_database_laws mem_empty [genesis_pool] (mem_storage [genesis_pool]) Storage_default)
    as (st & d' & E & _ & _ & _ & st2 & Eo & _ & El).
  - exact mem_ready.
  - reflexivity.
  - reflexivity.
  - constructor; [apply genesis_storable|constructor].
  - split; done.
  - split; done.
  - apply NoDup_singleton.
  - done.
  - reflexivity.
  - apply (bool_decide_unpack _). vm_compute. exact I.
  - by exists st, d', st2.
Defined.

(** A pool saved before the writer waits for the first time stays in the queue
    while the writer waits: its notification is lost. *)
Lemma lost_wakeup :
  ∃ st', rtc (@sys_step _ mem_database) (mem_storage [], W_start) (st', W_waiting) ∧
         s_write_queue st' ≠ [].
Proof.
  destruct mem_save as (st' & E & Hq & Hn). exists st'. split; [|done].
  eapply rtc_l; [apply (step_save genesis_pool _ st' W_start); done|].
  eapply rtc_l; [apply step_start|]. unfold writer_check. rewrite Hn. apply rtc_once, step_wait.
Qed.

(** The destructor that runs between the test of [quit] and the wait leaves a
    writer that waits although [quit] is set; it is joined for ever. *)
Lemma lost_quit :
  ∃ st', rtc (@sys_step _ mem_database) (mem_storage [], W_start) (st', W_waiting) ∧ s_quit st' = true.
Proof.
  exists (assign_quit true (mem_storage [])). split; [|done].
  eapply rtc_l; [apply step_start|]. eapply rtc_l; [apply (step_destroy _ W_checked)|].
  apply rtc_once, step_wait.
Qed.
