(* ===== verification/DefaultStorage.v ===== *)
(** * DefaultStorage: the storage of the process

    Models [csdb/src/csdb.cpp] and the parts of [csdb/src/storage.cpp] that start
    the writer.  A [Storage] of the source is a handle on a [Storage::priv]; the
    handles are places in the list of the objects made so far, so that a copy
    taken by [defaultStorage] and the instance are the same object until the
    next [init].  An object that loses its last handle stays in the list; what
    its destructor does is a step of [Storage.sys_step].  The database given to
    an object is used by it alone. *)

From S2P Require Import Prelude StdMap Values Pool Database Storage.

Section DefaultStorage.
Context {D : Type} `{!Database D}.

(** [Database::last_error], the Berkeley database that is opened at a path (or
    fails to open), and [app_data_path], which asks the system. *)
Context (db_last_error : D → DatabaseError) (open_base : byte_array → D) (app_data_path : byte_array).

(** ** Objects and handles *)

(** [Storage::priv] with its thread: [None] is a thread that is not joinable. *)
Record priv := { pv_storage : Storage D; pv_writer : option writer }.

Definition priv_default : priv := {| pv_storage := Storage_default; pv_writer := None |}.

(** [Storage::open] on a path.  Assigning to a thread that is joinable calls
    [std::terminate], here [None]. *)
Definition Storage_open_path (path_to_base : byte_array) (callback : option (Z → bool)) (p : priv)
    : option (result (bool * priv)) :=
  let path := if bytes_eqb path_to_base [] then app_data_path ++ str "/CREDITS" else path_to_base in
  let db := open_base path in
  match pv_writer p with
  | Some _ => None
  | None =>
      Some ('(ok, st) ← Storage_open (Some db) callback (pv_storage p);
            Ok (ok, {| pv_storage := st; pv_writer := Some W_start |}))
  end.

(** [Storage::open] on a database, which starts no thread. *)
Definition Storage_open_options (db : option D) (callback : option (Z → bool)) (p : priv)
    : option (result (bool * priv)) :=
  Some ('(ok, st) ← Storage_open db callback (pv_storage p);
        Ok (ok, {| pv_storage := st; pv_writer := pv_writer p |})).

(** [Storage::get]: a new object, opened; the result of opening it is dropped. *)
Definition Storage_get (open : priv → option (result (bool * priv))) : option (result priv) :=
  match open priv_default with
  | None => None
  | Some r => Some ('(_, p) ← r; Ok p)
  end.

(** [Storage::db_last_error] *)
Definition Storage_db_last_error (st : Storage D) : DatabaseError :=
  match s_db st with Some d => db_last_error d | None => Db_NotOpen end.

(** ** The instance *)

(** The objects and the handle [instance]. *)
Record csdb := { cs_privs : list priv; cs_instance : nat }.

(** The program starts with a default storage. *)
Definition csdb_start : csdb := {| cs_privs := [priv_default]; cs_instance := 0 |}.

Definition priv_at (c : csdb) (h : nat) : priv := default priv_default (cs_privs c !! h).

Definition isInitialized (c : csdb) : bool := Storage_isOpen (pv_storage (priv_at c (cs_instance c))).

(** The two functions [init] with the way they open. *)
Definition init_with (open : priv → option (result (bool * priv))) (c : csdb) : option (result (bool * csdb)) :=
  if isInitialized c then Some (Ok (false, c)) else
  match Storage_get open with
  | None => None
  | Some r =>
      Some (p ← r;
            let c := {| cs_privs := cs_privs c ++ [p]; cs_instance := length (cs_privs c) |} in
            Ok (isInitialized c, c))
  end.

Definition csdb_init (db : option D) (callback : option (Z → bool)) (c : csdb) : option (result (bool * csdb)) :=
  init_with (Storage_open_options db callback) c.

Definition csdb_init_path (path_to_bases : byte_array) (callback : option (Z → bool)) (c : csdb)
    : option (result (bool * csdb)) :=
  init_with (Storage_open_path path_to_bases callback) c.

(** [done]: the instance is closed, its thread stays. *)
Definition csdb_done (c : csdb) : csdb :=
  let p := priv_at c (cs_instance c) in
  {| cs_privs := <[cs_instance c := {| pv_storage := Storage_close (pv_storage p); pv_writer := pv_writer p |}]> (cs_privs c);
     cs_instance := cs_instance c |}.

Definition lastError (c : csdb) : StorageError := s_last_error (pv_storage (priv_at c (cs_instance c))).

Definition lastErrorMessage (c : csdb) : byte_array := Storage_last_error_message (pv_storage (priv_at c (cs_instance c))).

Definition dbLastError (c : csdb) : DatabaseError := Storage_db_last_error (pv_storage (priv_at c (cs_instance c))).

Definition dbLastErrorMessage (c : csdb) : byte_array := Storage_last_error_message (pv_storage (priv_at c (cs_instance c))).

Definition defaultStorage (c : csdb) : nat := cs_instance c.

(** What can happen to an object: a pool saved, the object closed or opened on a
    database, and a step of its writer when there is one. *)
Inductive priv_step : priv → priv → Prop :=
| priv_save pool st st' w :
    Storage_pool_save pool st = Ok (true, st') →
    priv_step {| pv_storage := st; pv_writer := w |} {| pv_storage := st'; pv_writer := notify_one <$> w |}
| priv_close st w : priv_step {| pv_storage := st; pv_writer := w |} {| pv_storage := Storage_close st; pv_writer := w |}
| priv_open db callback p p' ok : Storage_open_options db callback p = Some (Ok (ok, p')) → priv_step p p'
| priv_writer st st' w w' :
    sys_step (st, w) (st', w') → priv_step {| pv_storage := st; pv_writer := Some w |} {| pv_storage := st'; pv_writer := Some w' |}.

(** ** Proofs *)

(** The instance is an object. *)
Definition csdb_ok (c : csdb) : Prop := (cs_instance c < length (cs_privs c))%nat.

Lemma priv_at_new ps p : priv_at {| cs_privs := ps ++ [p]; cs_instance := length ps |} (length ps) = p.
Proof. unfold priv_at. cbn [cs_privs]. by rewrite lookup_app_r, Nat.sub_diag by lia. Qed.

Lemma rescan_loop_keeps callback vs lastSeq als (st : Storage D) r st' :
  rescan_loop callback vs lastSeq als st = Ok (r, st') → s_db st' = s_db st ∧ s_write_queue st' = s_write_queue st.
Proof.
  revert lastSeq als st. induction vs as [|v vs IH]; intros lastSeq als st; cbn [rescan_loop]; [by intros [= _ <-]|].
  destruct (Pool_from_binary v) as [p|]; rewrite ?bind_Ok; [|done].
  destruct (negb (p_is_valid_ p)); [by intros [= _ <-]|]. destruct (Pool_hash p) as [h q].
  destruct (negb (PoolHash_eqb _ _)); [by intros [= _ <-]|].
  destruct (match callback with Some f => f _ | None => false end); [by intros [= _ <-]|].
  destruct (if lastSeq <=? _ then _ else _) as [l2 a2]. destruct (_ <=? _); [done|]. intros [-> ->]%IH. done.
Qed.

Lemma open_queue db callback (st : Storage D) ok st' :
  Storage_open db callback st = Ok (ok, st') → s_write_queue st' = s_write_queue st.
Proof.
  unfold Storage_open. destruct db as [d|]; [|by intros [= _ <-]].
  destruct (negb (db_is_open d)); [by intros [= _ <-]|]. unfold Storage_rescan. cbn [s_db assign_db Storage_set_size Storage_set_last_hash].
  destruct (db_blocks d) as [[vs d']|]; rewrite ?bind_Ok; [|done]. cbv beta iota.
  destruct (rescan_loop _ _ _ _ _) as [[r st1]|] eqn:E; rewrite ?bind_Ok; [|done]. apply rescan_loop_keeps in E as [_ E]. cbn in E.
  destruct r as [[|[h0 ?] als]|]; rewrite bind_Ok; cbn [negb]; intros [= _ <-]; exact E.
Qed.

Lemma save_queue pool (st st' : Storage D) ok :
  Storage_pool_save pool st = Ok (ok, st') → s_write_queue st `prefix_of` s_write_queue st'.
Proof.
  unfold Storage_pool_save. destruct (s_db st) as [d|]; [|by intros [= _ <-]].
  destruct (negb (db_is_open d)); [by intros [= _ <-]|]. destruct (negb (p_is_valid_ pool)); [by intros [= _ <-]|].
  destruct (Pool_hash pool) as [h q]. destruct (db_exists _ d) as [[[] d']|]; rewrite ?bind_Ok; [by intros [= _ <-]| |done].
  intros [= _ <-]. cbn. by eexists.
Qed.

Section Laws.
Context {ready : D → Prop} {index : D → gmap byte_array Z} {blocks : D → gmap Z byte_array}
  `{!DatabaseLaws D ready index blocks}.

(** An object is open exactly when opening it succeeded. *)
Lemma Storage_open_isOpen d callback st ok st' :
  (db_is_open d = true → ready d) → Storage_open (Some d) callback st = Ok (ok, st') → Storage_isOpen st' = ok.
Proof.
  intros Hr. unfold Storage_open. destruct (db_is_open d) eqn:Eo; cbn [negb]; [|intros [= <- <-]; exact Eo].
  destruct (db_blocks_spec d (Hr eq_refl)) as (d' & ks & Eb & _ & _ & Hd' & _).
  unfold Storage_rescan. cbn [s_db assign_db Storage_set_size Storage_set_last_hash]. rewrite Eb, bind_Ok. cbv beta iota.
  destruct (rescan_loop _ _ _ _ _) as [[r st1]|] eqn:E; rewrite ?bind_Ok; [|done]. apply rescan_loop_keeps in E as [E _]. cbn in E.
  destruct r as [[|[h0 ?] als]|]; rewrite bind_Ok; cbn [negb]; intros [= <- <-]; [| |done];
    unfold Storage_isOpen; cbn; rewrite E; by apply db_ready_open.
Qed.

(** A function [init] on a path that finds the instance closed makes a new object
    and reports whether its opening succeeded; no thread is assigned over. *)
Lemma init_path_spec path callback c :
  (∀ base, db_is_open (open_base base) = true → ready (open_base base)) → isInitialized c = false →
  csdb_init_path path callback c =
    Some ('(ok, st) ← Storage_open (Some (open_base (if bytes_eqb path [] then app_data_path ++ str "/CREDITS" else path)))
                        callback Storage_default;
          Ok (ok, {| cs_privs := cs_privs c ++ [{| pv_storage := st; pv_writer := Some W_start |}];
                     cs_instance := length (cs_privs c) |})).
Proof.
  intros Hb Hi. unfold csdb_init_path, init_with, Storage_get, Storage_open_path. rewrite Hi. cbn [priv_default pv_writer pv_storage].
  destruct (Storage_open _ _ _) as [[ok st]|e] eqn:E; rewrite ?bind_Ok; [|done]. cbv beta iota. rewrite ?bind_Ok.
  unfold isInitialized. cbn [cs_instance]. rewrite priv_at_new. cbn [pv_storage].
  by rewrite (Storage_open_isOpen _ _ _ _ _ (Hb _) E).
Qed.

Lemma done_closed c : csdb_ok c → isInitialized (csdb_done c) = false.
Proof.
  intros H. unfold isInitialized, csdb_done, priv_at. cbn [cs_privs cs_instance]. by rewrite list_lookup_insert_eq by done.
Qed.

Lemma done_others c h : h ≠ cs_instance c → priv_at (csdb_done c) h = priv_at c h.
Proof. intros H. unfold priv_at, csdb_done. cbn [cs_privs]. by rewrite list_lookup_insert_ne by done. Qed.

Lemma init_old c ps h i : (h < length (cs_privs c))%nat → priv_at {| cs_privs := cs_privs c ++ ps; cs_instance := i |} h = priv_at c h.
Proof. intros H. unfold priv_at. cbn [cs_privs]. by rewrite lookup_app_l. Qed.

(** The storage of the process on a base that holds a chain: [init] opens it
    with the last block of the chain, a second [init] is refused and changes
    nothing, [done] closes it and no other storage, and the next [init] opens the
    base again in a new object, while the handle taken before stays closed. *)
Theorem default_storage_lifecycle path c qs :
  let base := open_base (if bytes_eqb path [] then app_data_path ++ str "/CREDITS" else path) in
  (∀ base, db_is_open (open_base base) = true → ready (open_base base)) →
  csdb_ok c → isInitialized c = false →
  ready base → Forall storable qs → consecutive 0 qs → linked [] qs → Z.of_nat (length qs) < 2 ^ 32 - 1 →
  (∀ p, p ∈ qs → blocks base !! pool_number p = Some (Pool_put p [])) →
  (∀ n, n ∉ pool_number <$> qs → blocks base !! n = None) →
  ∃ c1, csdb_init_path path None c = Some (Ok (true, c1)) ∧ isInitialized c1 = true ∧
    s_last_hash (pv_storage (priv_at c1 (defaultStorage c1))) = from_option pool_key [] (last qs) ∧
    s_count_pool (pv_storage (priv_at c1 (defaultStorage c1))) = Z.of_nat (length qs) ∧
    (∀ db callback, csdb_init db callback c1 = Some (Ok (false, c1))) ∧
    (∀ path callback, csdb_init_path path callback c1 = Some (Ok (false, c1))) ∧
    isInitialized (csdb_done c1) = false ∧
    (∀ h, h ≠ defaultStorage c1 → priv_at (csdb_done c1) h = priv_at c1 h) ∧
    ∃ c2, csdb_init_path path None (csdb_done c1) = Some (Ok (true, c2)) ∧ isInitialized c2 = true ∧
      defaultStorage c2 ≠ defaultStorage c1 ∧ Storage_isOpen (pv_storage (priv_at c2 (defaultStorage c1))) = false.
Proof.
  intros base Hb Hc Hi Hr Hq Hcons Hl Hn Hin Hout.
  destruct (Storage_open_chain base qs Storage_default) as (st & Eo & Ecnt & Elast); try done.
  pose proof (Storage_open_isOpen _ _ _ _ _ (Hb _) Eo) as Hop.
  assert (Hinit : ∀ c, isInitialized c = false → csdb_init_path path None c = Some (Ok (true,
    {| cs_privs := cs_privs c ++ [{| pv_storage := st; pv_writer := Some W_start |}]; cs_instance := length (cs_privs c) |}))).
  { intros c' Hc'. rewrite init_path_spec by done. fold base. by rewrite Eo. }
  eexists. split; [by apply Hinit|]. set (c1 := {| cs_privs := _; cs_instance := _ |}).
  assert (Hp : priv_at c1 (defaultStorage c1) = {| pv_storage := st; pv_writer := Some W_start |}) by apply priv_at_new.
  assert (Ho : isInitialized c1 = true) by (unfold isInitialized; unfold defaultStorage in Hp; by rewrite Hp).
  assert (Hk : csdb_ok c1) by (unfold csdb_ok, c1; cbn; rewrite length_app; cbn; lia).
  rewrite Hp. cbn [pv_storage]. split_and!; try done.
  - intros. unfold csdb_init, init_with. by rewrite Ho.
  - intros. unfold csdb_init_path, init_with. by rewrite Ho.
  - by apply done_closed.
  - intros h. apply done_others.
  - eexists. split; [by apply Hinit, done_closed|]. split_and!.
    + unfold isInitialized. cbn [cs_instance]. by rewrite priv_at_new.
    + unfold defaultStorage. cbn [cs_instance csdb_done cs_privs]. rewrite length_insert. unfold csdb_ok in Hk. lia.
    + rewrite init_old by (unfold csdb_done; cbn [cs_privs]; by rewrite length_insert). by apply done_closed.
Qed.
End Laws.

(** ** Where the code fails *)

(** An object opened on a database has no writer, and gets none: what is queued
    stays queued. *)
Lemma options_never_written p p' :
  rtc priv_step p p' → pv_writer p = None →
  pv_writer p' = None ∧ s_write_queue (pv_storage p) `prefix_of` s_write_queue (pv_storage p').
Proof.
  induction 1 as [p|p q r Hs _ IH]; [by split|]. intros Hw.
  assert (pv_writer q = None ∧ s_write_queue (pv_storage p) `prefix_of` s_write_queue (pv_storage q)) as [H1 H2].
  { destruct Hs as [pool st st' w Es|st w|db callback p q ok Eo|st st' w w' _]; cbn in Hw |- *; try done.
    - subst w. split; [done|]. by eapply save_queue.
    - unfold Storage_open_options in Eo. destruct (Storage_open _ _ _) as [[b st]|] eqn:E; rewrite ?bind_Ok in Eo; [|done].
      injection Eo as _ <-. cbn. rewrite (open_queue _ _ _ _ _ E). by split. }
  destruct (IH H1) as [H3 H4]. split; [done|]. by etrans.
Qed.

(** Opening an object on a path a second time assigns to its running thread. *)
Lemma reopen_terminates path path' callback callback' p ok p' :
  Storage_open_path path callback p = Some (Ok (ok, p')) →
  Storage_open_path path' callback' {| pv_storage := Storage_close (pv_storage p'); pv_writer := pv_writer p' |} = None.
Proof.
  unfold Storage_open_path at 1. destruct (pv_writer p); [done|].
  destruct (Storage_open _ _ _) as [[b st]|]; rewrite ?bind_Ok; [|done]. by intros [= _ <-].
Qed.

(** The writer that finds a block in the queue of a closed object goes through a
    null pointer. *)
Lemma closed_with_work (st : Storage D) :
  s_write_queue st ≠ [] → Storage_write_drain (Storage_close st) = Throw undefined_behaviour.
Proof.
  unfold Storage_write_drain. cbn. destruct (s_write_queue st) as [|pool q]; [done|]. intros _. cbn [Storage_write_loop].
  unfold Storage_write_one. by destruct (writer_pool pool).
Qed.
End DefaultStorage.

(** ** Concrete runs *)

(** A base in memory that holds the first block, whatever the path. *)
Definition mem_block : DatabaseBerkeleyDB (gmap Z byte_array) (gmap byte_array Z) :=
  match @Storage_write_drain _ mem_database (mem_storage [genesis_pool]) with
  | Ok st => default mem_empty (s_db st)
  | Throw _ => mem_empty
  end.

Lemma mem_block_ready : Bdb_ready mem_block.
Proof.
  assert (match bd_blocks_ mem_block, bd_seq_no_ mem_block with Some _, Some _ => true | _, _ => false end = true) as H
    by (vm_compute; reflexivity).
  split; destruct (bd_blocks_ mem_block), (bd_seq_no_ mem_block); done.
Qed.

Lemma mem_block_blocks : Bdb_blocks id mem_block = {[ pool_number genesis_pool := Pool_put genesis_pool [] ]}.
Proof. vm_compute. reflexivity. Qed.

Lemma default_storage_lifecycle_witness :
  ∃ c1 c2, @csdb_init_path _ mem_database (λ _, mem_block) [] (str "base") None csdb_start = Some (Ok (true, c1)) ∧
    s_last_hash (pv_storage (priv_at c1 (defaultStorage c1))) = pool_key genesis_pool ∧
    @csdb_init_path _ mem_database (λ _, mem_block) [] (str "base") None (csdb_done c1) = Some (Ok (true, c2)) ∧
    defaultStorage c2 ≠ defaultStorage c1.
Proof.
  destruct (@default_storage_lifecycle _ mem_database (λ _, mem_block) [] Bdb_ready (Bdb_index id) (Bdb_blocks id)
    mem_database_laws (str "base") csdb_start [genesis_pool]) as (c1 & E1 & _ & Hl & _ & _ & _ & _ & _ & c2 & E2 & _ & Hd & _).
  - intros _ _. exact mem_block_ready.
  - unfold csdb_ok. cbn. lia.
  - reflexivity.
  - exact mem_block_ready.
  - constructor; [apply genesis_storable|constructor].
  - split; done.
  - split; done.
  - done.
  - intros p ->%list_elem_of_singleton. rewrite mem_block_blocks. apply lookup_singleton_eq.
  - intros n Hn. rewrite mem_block_blocks. apply lookup_singleton_ne. intros <-. apply Hn. by constructor.
  - exists c1, c2. split_and!; done.
Defined.

(** Closing a storage right after a block was accepted: the writer goes through a
    null pointer. *)
Lemma close_while_queued :
  ∃ st', @Storage_pool_save _ mem_database genesis_pool (mem_storage []) = Ok (true, st') ∧
    @Storage_write_drain _ mem_database (Storage_close st') = Throw undefined_behaviour.
Proof. destruct mem_save as (st' & E & Hq & _). exists st'. split; [done|]. by apply closed_with_work. Qed.
