(* ===== verification/Chain.v ===== *)
(** * Chain: walking the chain of blocks

    The queries of [csdb/src/storage.cpp] that follow the links from the last
    block backwards, [Wallet::get] of [csdb/src/wallet.cpp], and the book-keeping
    of partial chains, [update_heads_and_tails].  The walks load one pool after
    the other and have no bound of their own, so they take fuel and return
    [None] when it runs out; the theorems show that the length of the chain and
    the number of its transactions are enough. *)

From S2P Require Import Prelude Hex StdMap Streams Format Amount Values Transaction Pool Database Storage.

Section Chain.
Context {D : Type} `{!Database D}.

(** ** The last transaction of an address *)

(** [while (curr.is_valid())] of [get_last_by_source] and [get_last_by_target] *)
Fixpoint get_last_loop (last_by : Pool → Transaction) (fuel : nat) (curr : Pool) (st : Storage D)
    : result (option Transaction * Storage D) :=
  match fuel with
  | O => Ok (None, st)
  | S fuel =>
      if negb (p_is_valid_ curr) then Ok (Some Transaction_default, st)
      else
        let t := last_by curr in
        if Transaction_is_valid t then Ok (Some t, st)
        else
          '(curr, st) ← Storage_pool_load (p_previous_hash_ curr) st;
          get_last_loop last_by fuel curr st
  end.

(** [Storage::get_last_by_source] *)
Definition Storage_get_last_by_source (fuel : nat) (source : byte_array) (st : Storage D)
    : result (option Transaction * Storage D) :=
  '(curr, st) ← Storage_pool_load (s_last_hash st) st;
  get_last_loop (λ p, Pool_get_last_by_source p source) fuel curr st.

(** [Storage::get_last_by_target] *)
Definition Storage_get_last_by_target (fuel : nat) (target : byte_array) (st : Storage D)
    : result (option Transaction * Storage D) :=
  '(curr, st) ← Storage_pool_load (s_last_hash st) st;
  get_last_loop (λ p, Pool_get_last_by_target p target) fuel curr st.

(** ** The cursor

    The lambdas [seekIt] and [nextIt] move the pair of [curPool] and [curIdx]
    they capture. *)

Abbreviation cursor := (Pool * Z)%type.

(** [while (curPool.is_valid() && !curPool.transactions_count())] *)
Fixpoint skip_empty (fuel : nat) (curPool : Pool) (st : Storage D)
    : result (option Pool * Storage D) :=
  match fuel with
  | O => Ok (None, st)
  | S fuel =>
      if p_is_valid_ curPool && (p_transactionsCount_ curPool =? 0) then
        '(curPool, st) ← Storage_pool_load (p_previous_hash_ curPool) st;
        skip_empty fuel curPool st
      else Ok (Some curPool, st)
  end.

(** Load a pool, skip the empty ones, and stand on the last transaction. *)
Definition land_on (fuel : nat) (hash : byte_array) (curIdx : Z) (st : Storage D)
    : result (option (bool * cursor) * Storage D) :=
  '(curPool, st) ← Storage_pool_load hash st;
  '(r, st) ← skip_empty fuel curPool st;
  match r with
  | None => Ok (None, st)
  | Some curPool =>
      if p_is_valid_ curPool
      then Ok (Some (true, (curPool, u64 (p_transactionsCount_ curPool - 1))), st)
      else Ok (Some (false, (curPool, curIdx)), st)
  end.

(** [nextIt] *)
Definition nextIt (fuel : nat) (cur : cursor) (st : Storage D)
    : result (option (bool * cursor) * Storage D) :=
  let '(curPool, curIdx) := cur in
  if p_is_valid_ curPool then
    if negb (curIdx =? 0) then Ok (Some (true, (curPool, u64 (curIdx - 1))), st)
    else land_on fuel (p_previous_hash_ curPool) curIdx st
  else land_on fuel (s_last_hash st) curIdx st.

(** [seekIt] *)
Definition seekIt (id : TransactionID) (cur : cursor) (st : Storage D)
    : result (bool * cursor * Storage D) :=
  if TransactionID_is_valid id then
    '(curPool, st) ← Storage_pool_load (id_pool_hash_ id) st;
    if p_is_valid_ curPool && (id_index_ id <? p_transactionsCount_ curPool)
    then Ok (true, (curPool, id_index_ id), st)
    else Ok (false, (curPool, cur.2), st)
  else Ok (false, cur, st).

(** ** The transactions of an address *)

(** [while (res.size() < limit && nextIt())] *)
Fixpoint transactions_loop (walk : nat) (addr : byte_array) (limit : Z) (fuel : nat)
    (res : list Transaction) (cur : cursor) (st : Storage D)
    : result (option (list Transaction) * Storage D) :=
  match fuel with
  | O => Ok (None, st)
  | S fuel =>
      if Z.of_nat (length res) <? limit then
        '(r, st) ← nextIt walk cur st;
        match r with
        | None => Ok (None, st)
        | Some (false, _) => Ok (Some res, st)
        | Some (true, cur) =>
            let t := Pool_transaction cur.1 cur.2 in
            let res := if Address_eqb (t_source_ t) addr || Address_eqb (t_target_ t) addr
                       then res ++ [t] else res in
            transactions_loop walk addr limit fuel res cur st
        end
      else Ok (Some res, st)
  end.

(** [Storage::transactions]; [reserve] throws on a limit no vector can have. *)
Definition Storage_transactions (fuel : nat) (addr : byte_array) (limit : Z) (offset : TransactionID)
    (st : Storage D) : result (option (list Transaction) * Storage D) :=
  if vector_max_size <? limit then Throw length_error
  else if TransactionID_is_valid offset then
    '(found, cur, st) ← seekIt offset (Pool_default, 0) st;
    if negb found then Ok (Some [], st)
    else transactions_loop fuel addr limit fuel [] cur st
  else transactions_loop fuel addr limit fuel [] (Pool_default, 0) st.

(** ** A transaction by its number *)

(** [do ... while (nextIt())] *)
Fixpoint get_from_loop (walk : nat) (addr : byte_array) (InnerId : Z) (fuel : nat) (cur : cursor)
    (st : Storage D) : result (option (option Transaction) * Storage D) :=
  match fuel with
  | O => Ok (None, st)
  | S fuel =>
      let trx_curr := Pool_transaction cur.1 cur.2 in
      if Address_eqb (t_source_ trx_curr) addr && (t_innerID_ trx_curr =? InnerId)
      then Ok (Some (Some trx_curr), st)
      else
        '(r, st) ← nextIt walk cur st;
        match r with
        | None => Ok (None, st)
        | Some (false, _) => Ok (Some None, st)
        | Some (true, cur) => get_from_loop walk addr InnerId fuel cur st
        end
  end.

(** [Storage::get_from_blockchain]: the transaction it assigns to [trx] when it
    returns true. *)
Definition Storage_get_from_blockchain (fuel : nat) (addr : byte_array) (InnerId : Z) (st : Storage D)
    : result (option (option Transaction) * Storage D) :=
  '(r, st) ← Storage_get_last_by_source fuel addr st;
  match r with
  | None => Ok (None, st)
  | Some t =>
      let last_trx_id := t_id_ t in
      '(_, cur, st) ← seekIt last_trx_id (Pool_default, u64 (-1)) st;
      if cur.2 =? u64 (-1) then Ok (Some None, st)
      else get_from_loop fuel addr InnerId fuel cur st
  end.

End Chain.

(** ** Wallets *)

(** [Wallet::priv] *)
Record Wallet := mkWallet { w_address_ : byte_array; w_amounts_ : list (byte_array * Amount) }.

(** [Wallet()] *)
Definition Wallet_default : Wallet := mkWallet [] [].

Definition Wallet_is_valid (w : Wallet) : bool := Address_is_valid (w_address_ w).

(** [Wallet::currencies] *)
Definition Wallet_currencies (w : Wallet) : list byte_array := (w_amounts_ w).*1.

(** [Wallet::amount] *)
Definition Wallet_amount (w : Wallet) (currency : byte_array) : Amount :=
  match map_find currency (w_amounts_ w) with Some a => a | None => Amount_zero end.

(** [amounts_[currency]], which inserts a zero amount. *)
Definition map_at (currency : byte_array) (m : list (byte_array * Amount)) : Amount :=
  match map_find currency m with Some a => a | None => Amount_zero end.

(** The body of the inner loop of [Wallet::get]. *)
Definition Wallet_count (address : byte_array) (m : list (byte_array * Amount)) (t : Transaction)
    : list (byte_array * Amount) :=
  let currency := t_currency_ t in
  let m := if Address_eqb (t_source_ t) address
           then map_set currency (Amount_sub_assign (map_at currency m) (t_amount_ t)) m else m in
  if Address_eqb (t_target_ t) address
  then map_set currency (Amount_add_assign (map_at currency m) (t_amount_ t)) m else m.

(** [for (i = 0; i < pool.transactions_count(); ++i)] *)
Definition Wallet_count_pool (address : byte_array) (pool : Pool) (m : list (byte_array * Amount))
    : list (byte_array * Amount) :=
  fold_left (λ m i, Wallet_count address m (Pool_transaction pool (Z.of_nat i)))
    (seq 0 (Z.to_nat (p_transactionsCount_ pool))) m.

Section Wallet.
Context {D : Type} `{!Database D}.

Fixpoint Wallet_get_loop (self : option nat) (address : byte_array) (fuel : nat) (pool : Pool)
    (m : list (byte_array * Amount)) (st : Storage D)
    : result (option (list (byte_array * Amount)) * Storage D) :=
  match fuel with
  | O => Ok (None, st)
  | S fuel =>
      if negb (p_is_valid_ pool) then Ok (Some m, st)
      else
        let m := Wallet_count_pool address pool m in
        '(pool, st) ← Pool_load self (p_previous_hash_ pool) st;
        Wallet_get_loop self address fuel pool m st
  end.

(** [Wallet::get] on the storage it is given. *)
Definition Wallet_get_open (self : option nat) (fuel : nat) (address : byte_array) (st : Storage D)
    : result (option Wallet * Storage D) :=
  '(pool, st) ← Pool_load self (s_last_hash st) st;
  '(r, st) ← Wallet_get_loop self address fuel pool [] st;
  Ok (option_map (mkWallet address) r, st).

(** [Wallet::get], with the default storage to fall back on; the storage it
    read is returned with the wallet. *)
Definition Wallet_get (self default : option nat) (fuel : nat) (address : byte_array)
    (storage defaultStorage : Storage D) : result (option Wallet * Storage D) :=
  if Storage_isOpen storage then Wallet_get_open self fuel address storage
  else if Storage_isOpen defaultStorage then Wallet_get_open default fuel address defaultStorage
  else Ok (Some Wallet_default, defaultStorage).

End Wallet.

(** ** Chains in the database *)

Section ChainLaws.
Context {D : Type} {DB : Database D} {ready : D → Prop} {index : D → gmap byte_array Z}
  {blocks : D → gmap Z byte_array} {DL : DatabaseLaws D ready index blocks}.
Implicit Types (st : Storage D) (ps : list Pool).

(** The count of a pool that was loaded, when it fits its field. *)
Definition counted (p : Pool) : Prop :=
  Z.of_nat (length (p_transactions_ p)) < 2 ^ 32 ∧
  p_transactionsCount_ p = Z.of_nat (length (p_transactions_ p)).

(** [chain idx blk h ps]: the blocks from the one with the hash [h] backwards
    decode to the pools [ps], newest first; the links end at the empty hash or
    at a hash that is not stored. *)
Inductive chain (idx : gmap byte_array Z) (blk : gmap Z byte_array) : byte_array → list Pool → Prop :=
| chain_end h : h = [] ∨ idx !! h = None → chain idx blk h []
| chain_link n b p ps :
    idx !! calc_hash b = Some n → blk !! n = Some b → Pool_from_binary b = Ok p → p_is_valid_ p = true →
    counted p → chain idx blk (p_previous_hash_ p) ps → chain idx blk (calc_hash b) (p :: ps).

(** The transactions of a chain, newest first. *)
Definition ledger (ps : list Pool) : list Transaction := ps ≫= λ p, rev (p_transactions_ p).

(** What the walks depend on in the state of a storage. *)
Definition view (idx : gmap byte_array Z) (blk : gmap Z byte_array) (lh : byte_array) (st : Storage D) : Prop :=
  s_last_hash st = lh ∧ ∃ d, s_db st = Some d ∧ ready d ∧ index d = idx ∧ blocks d = blk.

(** A loaded pool that stands at the head of a chain. *)
Definition at_chain idx blk (curr : Pool) ps : Prop :=
  match ps with
  | [] => p_is_valid_ curr = false
  | p :: ps' =>
      curr = p ∧ p_is_valid_ p = true ∧ Pool_sealed p ∧ counted p ∧ chain idx blk (p_previous_hash_ p) ps'
  end.

Lemma Pool_from_binary_sealed b p :
  Pool_from_binary b = Ok p → p_is_valid_ p = true → Pool_sealed p ∧ p_hash_ p = calc_hash b.
Proof.
  unfold Pool_from_binary. destruct (Pool_get Pool_default b) as [[q|]|e]; [| |done]; rewrite bind_Ok.
  - intros [= <-] Hv. split; [|done]. by apply Pool_update_transactions_sealed.
  - by intros [= <-].
Qed.

Lemma calc_hash_not_nil m : calc_hash m ≠ [].
Proof. intros E. pose proof (calc_hash_nonempty m) as Hx. by rewrite E in Hx. Qed.

Lemma chain_load idx blk lh st h ps :
  view idx blk lh st → chain idx blk h ps →
  ∃ curr st', Storage_pool_load h st = Ok (curr, st') ∧ view idx blk lh st' ∧ at_chain idx blk curr ps.
Proof.
  intros (Hl & d & Hd & Hr & Hi & Hb) Hc. destruct Hc as [h Hh|n b p ps Hn Hbl Hf Hv Hcnt Hc].
  - unfold Storage_pool_load. rewrite Hd, (db_ready_open d Hr). cbn [negb].
    destruct (PoolHash_is_empty h) eqn:He.
    + do 2 eexists. split; [done|]. split; [|done]. split; [done|]. by exists d.
    + destruct Hh as [->|Hh]; [done|].
      destruct (db_get_spec (PoolHash_to_binary h) d Hr) as (d' & E & Hr' & Hi' & Hb').
      rewrite E, bind_Ok. unfold PoolHash_to_binary. rewrite Hi, Hh. cbn.
      do 2 eexists. split; [done|]. split; [|done]. split; [done|]. exists d'. by rewrite Hi', Hb'.
  - subst idx blk.
    destruct (Storage_pool_load_spec st d (calc_hash b) n b Hd Hr (calc_hash_not_nil b) Hn Hbl)
      as (d' & E & Hr' & Hi' & Hb').
    rewrite E, Hf, bind_Ok. do 2 eexists. split; [done|]. split.
    + split; [done|]. by exists d'.
    + destruct (Pool_from_binary_sealed b p Hf Hv). done.
Qed.

(** ** The last transaction of an address *)

(** The search, on the pools of the chain. *)
Fixpoint first_valid (last_by : Pool → Transaction) ps : Transaction :=
  match ps with
  | [] => Transaction_default
  | p :: ps' => if Transaction_is_valid (last_by p) then last_by p else first_valid last_by ps'
  end.

Lemma get_last_loop_spec idx blk lh last_by ps fuel curr st :
  view idx blk lh st → at_chain idx blk curr ps → (length ps < fuel)%nat →
  ∃ st', get_last_loop last_by fuel curr st = Ok (Some (first_valid last_by ps), st') ∧ view idx blk lh st'.
Proof.
  revert curr st fuel. induction ps as [|p ps IH]; intros curr st [|fuel] Hv Hc Hf; cbn in Hf; try lia.
  - cbn in *. rewrite Hc. by eexists.
  - destruct Hc as (-> & Hpv & _ & _ & Hc). cbn [get_last_loop first_valid]. rewrite Hpv. cbn [negb].
    destruct (Transaction_is_valid (last_by p)); [by eexists|].
    destruct (chain_load _ _ _ _ _ _ Hv Hc) as (curr & st' & E & Hv' & Hc'). rewrite E, bind_Ok.
    cbv beta iota. apply IH; [done..|lia].
Qed.

Lemma find_app {A} (f : A → bool) l1 l2 :
  List.find f (l1 ++ l2) = match List.find f l1 with Some x => Some x | None => List.find f l2 end.
Proof. induction l1 as [|x l1 IH]; [done|]. simpl. by destruct (f x). Qed.

(** With valid transactions only, the search is the first match of the ledger. *)
Lemma first_valid_find (f : Transaction → bool) last_by ps :
  (∀ p, p ∈ ps → last_by p = match List.find f (rev (p_transactions_ p)) with
                             | Some t => t | None => Transaction_default end) →
  Forall (λ t, Transaction_is_valid t = true) (ledger ps) →
  first_valid last_by ps = match List.find f (ledger ps) with Some t => t | None => Transaction_default end.
Proof.
  induction ps as [|p ps IH]; intros Hl Hv; [done|]. unfold ledger in *. cbn [mbind list_bind] in *.
  cbn [first_valid]. apply Forall_app in Hv as [Hv1 Hv2]. rewrite find_app, (Hl p) by (by left).
  destruct (List.find f (rev (p_transactions_ p))) as [t|] eqn:E.
  - apply List.find_some in E as [Hin%list_elem_of_In _].
    by rewrite (proj1 (Forall_forall _ _) Hv1 t Hin).
  - cbn. apply IH; [|done]. intros q Hq. apply Hl. by right.
Qed.

(** ** The cursor *)

(** [position idx blk lh n cur older]: the cursor has not started, or stands on
    a transaction; [older] are the transactions it has still to pass, in at most
    [n] pools. *)
Definition position idx blk (lh : byte_array) (n : nat) (cur : Pool * Z) (older : list Transaction) : Prop :=
  ∃ ps, (length ps <= n)%nat ∧
    if p_is_valid_ cur.1 then
      ∃ i, at_chain idx blk cur.1 (cur.1 :: ps) ∧ cur.2 = Z.of_nat i ∧
           (i < length (p_transactions_ cur.1))%nat ∧
           older = rev (take i (p_transactions_ cur.1)) ++ ledger ps
    else chain idx blk lh ps ∧ older = ledger ps.

Lemma skip_empty_spec idx blk lh ps fuel curr st :
  view idx blk lh st → at_chain idx blk curr ps → (length ps < fuel)%nat →
  ∃ curr' ps' st', skip_empty fuel curr st = Ok (Some curr', st') ∧ view idx blk lh st' ∧
    at_chain idx blk curr' ps' ∧ ledger ps' = ledger ps ∧ (length ps' <= length ps)%nat ∧
    (ps' ≠ [] → p_transactions_ curr' ≠ []).
Proof.
  revert curr st fuel. induction ps as [|p ps IH]; intros curr st [|fuel] Hv Hc Hf; cbn in Hf; try lia.
  - cbn in *. rewrite Hc. by exists curr, [], st.
  - pose proof Hc as (-> & Hpv & Hse & [Hlt Hcnt] & Hch). cbn [skip_empty]. rewrite Hpv, Hcnt. cbn [andb].
    destruct (Z.eqb_spec (Z.of_nat (length (p_transactions_ p))) 0) as [Hz|Hnz].
    + destruct (chain_load _ _ _ _ _ _ Hv Hch) as (curr & st' & E & Hv' & Hc'). rewrite E, bind_Ok.
      cbv beta iota. destruct (IH curr st' fuel Hv' Hc' ltac:(lia))
        as (curr' & ps' & st'' & E' & Hv'' & Hc'' & Hl & Hle & Hne).
      exists curr', ps', st''. do 3 (split; [done|]). split; [|split; [cbn; lia|done]].
      unfold ledger in *. cbn [mbind list_bind]. destruct (p_transactions_ p); [done|cbn in Hz; lia].
    + exists p, (p :: ps), st. do 5 (split; [done|]). intros _ E. rewrite E in Hnz. by cbn in Hnz.
Qed.

(** What a move of the cursor does. *)
Definition moves idx blk lh n (older : list Transaction) (r : result (option (bool * (Pool * Z)) * Storage D)) : Prop :=
  ∃ cur st', view idx blk lh st' ∧
    match older with
    | [] => r = Ok (Some (false, cur), st')
    | t :: older' =>
        r = Ok (Some (true, cur), st') ∧ Pool_transaction cur.1 cur.2 = t ∧
        position idx blk lh n cur older' ∧ p_is_valid_ cur.1 = true
    end.

(** The last transaction but those of the first [i]. *)
Lemma rev_take_S {A} i (l : list A) x : l !! i = Some x → rev (take (S i) l) = x :: rev (take i l).
Proof. intros Hx. by rewrite (take_S_r _ _ x), rev_app_distr. Qed.

Lemma Pool_transaction_lookup p i t :
  p_transactions_ p !! i = Some t → Pool_transaction p (Z.of_nat i) = t.
Proof.
  intros Hi. unfold Pool_transaction. pose proof (lookup_lt_Some _ _ _ Hi).
  destruct (Z.ltb_spec (Z.of_nat i) (Z.of_nat (length (p_transactions_ p)))); [|lia].
  rewrite Nat2Z.id. apply nth_lookup_Some. exact Hi.
Qed.

Lemma position_at idx blk lh n p ps i t :
  at_chain idx blk p (p :: ps) → (length ps <= n)%nat → p_transactions_ p !! i = Some t →
  Pool_transaction p (Z.of_nat i) = t ∧
  position idx blk lh n (p, Z.of_nat i) (rev (take i (p_transactions_ p)) ++ ledger ps).
Proof.
  intros Hc Hn Hi. split; [by apply Pool_transaction_lookup|]. exists ps. split; [done|].
  pose proof Hc as (_ & Hv & _). cbn [fst snd]. rewrite Hv. exists i.
  split; [done|]. split; [done|]. split; [by eapply lookup_lt_Some|done].
Qed.

Lemma land_on_spec idx blk lh n ps fuel h k st :
  view idx blk lh st → chain idx blk h ps → (length ps <= n)%nat → (n < fuel)%nat →
  moves idx blk lh n (ledger ps) (land_on fuel h k st).
Proof.
  intros Hv Hc Hn Hf. unfold land_on, moves.
  destruct (chain_load _ _ _ _ _ _ Hv Hc) as (curr & st1 & E & Hv1 & Hc1). rewrite E, bind_Ok. cbv beta iota.
  destruct (skip_empty_spec _ _ _ _ fuel _ _ Hv1 Hc1 ltac:(lia))
    as (curr' & ps' & st2 & E2 & Hv2 & Hc2 & <- & Hle & Hne). rewrite E2, bind_Ok. cbv beta iota.
  destruct ps' as [|p ps'].
  - cbn in Hc2. rewrite Hc2. cbn. by do 2 eexists.
  - pose proof Hc2 as (-> & Hpv & _ & [Hlt Hcnt] & _). rewrite Hpv. specialize (Hne ltac:(done)).
    destruct (p_transactions_ p) as [|x l _] eqn:Ep using rev_ind; [done|].
    assert (p_transactions_ p !! length l = Some x) as Hi
      by (rewrite Ep; by apply list_lookup_middle).
    rewrite length_app in Hlt, Hcnt. cbn [length] in Hlt, Hcnt.
    replace (u64 (p_transactionsCount_ p - 1)) with (Z.of_nat (length l)) by (rewrite Hcnt; width_lia).
    destruct (position_at idx blk lh n p ps' _ x Hc2 ltac:(cbn in Hle; lia) Hi) as [Ht Hpos].
    unfold ledger in *. cbn [mbind list_bind]. rewrite Ep in *. rewrite take_app_length in Hpos.
    rewrite rev_app_distr. cbn. exists (p, Z.of_nat (length l)), st2. done.
Qed.

Lemma nextIt_spec idx blk lh n fuel cur older st :
  view idx blk lh st → position idx blk lh n cur older → (n < fuel)%nat →
  moves idx blk lh n older (nextIt fuel cur st).
Proof.
  destruct cur as [p k]. intros Hv (ps & Hn & Hp) Hf. unfold nextIt. cbn [fst snd] in Hp.
  destruct (p_is_valid_ p) eqn:Hpv.
  - destruct Hp as (i & Hc & -> & Hi & ->). destruct i as [|i].
    + cbn. destruct Hc as (_ & _ & _ & _ & Hc). by apply land_on_spec.
    + destruct (Z.eqb_spec (Z.of_nat (S i)) 0); [lia|]. cbn [negb].
      destruct (lookup_lt_is_Some_2 (p_transactions_ p) i ltac:(lia)) as [x Hx].
      rewrite (rev_take_S i _ x) by done. cbn [app].
      destruct (position_at idx blk lh n p ps i x Hc Hn Hx) as [Ht Hpos].
      destruct Hc as (_ & _ & _ & [Hlt _] & _).
      replace (u64 (Z.of_nat (S i) - 1)) with (Z.of_nat i) by width_lia.
      exists (p, Z.of_nat i), st. done.
  - destruct Hp as [Hc ->]. destruct Hv as [Hl Hd]. rewrite Hl. by apply land_on_spec.
Qed.

(** A transaction takes part in the ledger of an address. *)
Definition involves (addr : byte_array) (t : Transaction) : bool :=
  Address_eqb (t_source_ t) addr || Address_eqb (t_target_ t) addr.

Lemma transactions_loop_spec idx blk lh n walk addr limit older fuel res cur st :
  view idx blk lh st → position idx blk lh n cur older → (n < walk)%nat → (length older < fuel)%nat →
  ∃ st', transactions_loop walk addr limit fuel res cur st
    = Ok (Some (res ++ take (Z.to_nat (limit - Z.of_nat (length res))) (List.filter (involves addr) older)), st')
    ∧ view idx blk lh st'.
Proof.
  revert fuel res cur st.
  induction older as [|t older IH]; intros [|fuel] res cur st Hv Hp Hn Hf; cbn in Hf; try lia;
    cbn [transactions_loop]; destruct (Z.ltb_spec (Z.of_nat (length res)) limit) as [Hl|Hl].
  2,4: replace (Z.to_nat (limit - Z.of_nat (length res))) with 0%nat by lia;
       rewrite take_0, app_nil_r; by eexists.
  - destruct (nextIt_spec _ _ _ _ _ _ _ _ Hv Hp Hn) as (cur' & st' & Hv' & E).
    rewrite E, bind_Ok. cbn. rewrite take_nil, app_nil_r. by eexists.
  - destruct (nextIt_spec _ _ _ _ _ _ _ _ Hv Hp Hn) as (cur' & st' & Hv' & E & Ht & Hp' & _).
    rewrite E, bind_Ok. cbv beta iota zeta. rewrite Ht. cbn [List.filter]. unfold involves at 1.
    destruct (_ || _)%bool.
    + destruct (IH fuel (res ++ [t]) cur' st' Hv' Hp' Hn ltac:(lia)) as (st2 & E2 & Hv2).
      rewrite E2. exists st2. split; [|done]. do 3 f_equal. rewrite <- app_assoc, length_app. cbn [length].
      replace (Z.to_nat (limit - Z.of_nat (length res)))
        with (S (Z.to_nat (limit - Z.of_nat (length res + 1)))) by lia. done.
    + apply IH; [done..|lia].
Qed.

(** The search of [get_from_blockchain]. *)
Definition numbered_from (addr : byte_array) (InnerId : Z) (t : Transaction) : bool :=
  Address_eqb (t_source_ t) addr && (t_innerID_ t =? InnerId).

Lemma get_from_loop_spec idx blk lh n walk addr k older fuel cur t st :
  view idx blk lh st → position idx blk lh n cur older → Pool_transaction cur.1 cur.2 = t →
  (n < walk)%nat → (length older < fuel)%nat →
  ∃ st', get_from_loop walk addr k fuel cur st
         = Ok (Some (List.find (numbered_from addr k) (t :: older)), st') ∧ view idx blk lh st'.
Proof.
  revert fuel cur t st. induction older as [|u older IH]; intros [|fuel] cur t st Hv Hp Ht Hn Hf;
    cbn in Hf; try lia; cbn [get_from_loop List.find]; rewrite Ht; unfold numbered_from at 1;
    (destruct (_ && _)%bool; [by eexists|]).
  - destruct (nextIt_spec _ _ _ _ _ _ _ _ Hv Hp Hn) as (cur' & st' & Hv' & E).
    rewrite E, bind_Ok. by eexists.
  - destruct (nextIt_spec _ _ _ _ _ _ _ _ Hv Hp Hn) as (cur' & st' & Hv' & E & Hu & Hp' & _).
    rewrite E, bind_Ok. cbv beta iota. apply IH; [done..|lia].
Qed.

(** Seeking a transaction of the chain by its identifier. *)
Lemma seekIt_spec idx blk lh h ps l1 t l2 cur st :
  view idx blk lh st → chain idx blk h ps → ledger ps = l1 ++ t :: l2 →
  ∃ cur' st', seekIt (t_id_ t) cur st = Ok (true, cur', st') ∧ view idx blk lh st' ∧
    Pool_transaction cur'.1 cur'.2 = t ∧ position idx blk lh (length ps) cur' l2 ∧ 0 <= cur'.2 < 2 ^ 32.
Proof.
  intros Hv Hc. revert l1. induction Hc as [h _|n b p ps Hn Hb Hf Hpv Hcnt Hc IH]; intros l1 Hl.
  { by destruct l1. }
  unfold ledger in Hl. cbn [mbind list_bind] in Hl. fold (ledger ps) in Hl.
  apply app_eq_inv in Hl as [(k & Er & El)|(k & El & Er)].
  2: { destruct (IH k Er) as (cur' & st' & E & Hv' & Ht & (ps' & Hps & Hpos) & Hr). exists cur', st'.
       do 3 (split; [done|]). split; [|done]. exists ps'. split; [cbn; lia|done]. }
  destruct k as [|t' k]; cbn in El.
  { rewrite app_nil_r in Er. destruct (IH [] (eq_sym El)) as (cur' & st' & E & Hv' & Ht & (ps' & Hps & Hpos) & Hr).
    exists cur', st'. do 3 (split; [done|]). split; [|done]. exists ps'. split; [cbn; lia|done]. }
  injection El as <- ->.
  assert (p_transactions_ p = rev k ++ t :: rev l1) as Ep.
  { rewrite <- (rev_involutive (p_transactions_ p)), Er, rev_app_distr. cbn. by rewrite <- app_assoc. }
  assert (p_transactions_ p !! length (rev k) = Some t) as Hi by (rewrite Ep; by apply list_lookup_middle).
  destruct (Pool_from_binary_sealed b p Hf Hpv) as [Hs Hh]. pose proof Hs as (_ & _ & _ & Hid).
  destruct (Hid _ _ Hi) as [_ ->]. rewrite Hh. unfold seekIt, TransactionID_is_valid. cbn [id_pool_hash_ id_index_].
  rewrite calc_hash_nonempty. cbn [negb].
  destruct (chain_load _ _ _ _ _ _ Hv (chain_link idx blk n b p ps Hn Hb Hf Hpv Hcnt Hc))
    as (curr & st' & E & Hv' & Hat).
  rewrite E, bind_Ok. pose proof Hat as (-> & _). cbv beta iota. rewrite Hpv. cbn [andb].
  destruct Hcnt as [Hlt ->]. pose proof (lookup_lt_Some _ _ _ Hi).
  destruct (Z.ltb_spec (Z.of_nat (length (rev k))) (Z.of_nat (length (p_transactions_ p)))); [|lia].
  destruct (position_at idx blk lh (length (p :: ps)) p ps _ t Hat ltac:(cbn; lia) Hi) as [Ht Hpos].
  do 2 eexists. split; [done|]. split; [done|]. split; [done|]. cbn [snd]. split; [|lia].
  rewrite Ep, take_app_length, rev_involutive in Hpos. exact Hpos.
Qed.

Lemma filter_split {A} (f : A → bool) l a t b :
  List.filter f l = a ++ t :: b →
  ∃ l1 l2, l = l1 ++ t :: l2 ∧ List.filter f l1 = a ∧ List.filter f l2 = b.
Proof.
  revert a. induction l as [|x l IH]; intros a E; [by destruct a|]. cbn in E. destruct (f x) eqn:Hx.
  - destruct a as [|y a]; injection E as -> E.
    + by exists [], l.
    + destruct (IH a E) as (l1 & l2 & -> & <- & <-). exists (y :: l1), l2. cbn. by rewrite Hx.
  - destruct (IH a E) as (l1 & l2 & -> & <- & <-). exists (x :: l1), l2. cbn. by rewrite Hx.
Qed.

Lemma find_split {A} (f : A → bool) l t :
  List.find f l = Some t → ∃ l1 l2, l = l1 ++ t :: l2 ∧ Forall (λ x, f x = false) l1.
Proof.
  induction l as [|x l IH]; [done|]. cbn. destruct (f x) eqn:Hx.
  - intros [= ->]. by exists [], l.
  - intros (l1 & l2 & -> & H)%IH. exists (x :: l1), l2. split; [done|]. by constructor.
Qed.

Lemma find_none_weaken {A} (f g : A → bool) l :
  (∀ x, g x = true → f x = true) → Forall (λ x, f x = false) l → List.find g l = None.
Proof.
  intros Hfg. induction 1 as [|x l Hx _ IH]; [done|]. cbn. destruct (g x) eqn:Hg; [|done].
  by rewrite (Hfg x Hg) in Hx.
Qed.

Lemma find_none_Forall {A} (f : A → bool) l : List.find f l = None → Forall (λ x, f x = false) l.
Proof. induction l as [|x l IH]; [done|]. cbn. destruct (f x) eqn:Hx; [done|]. intros H. constructor; auto. Qed.

(** [Storage::transactions] from the end of the chain, and from an offset. *)
Lemma Storage_transactions_start idx blk lh ps fuel addr limit st :
  view idx blk lh st → chain idx blk lh ps → limit <= vector_max_size →
  (length (ledger ps) + length ps < fuel)%nat →
  ∃ st', Storage_transactions fuel addr limit TransactionID_default st
         = Ok (Some (take (Z.to_nat limit) (List.filter (involves addr) (ledger ps))), st') ∧ view idx blk lh st'.
Proof.
  intros Hv Hc Hl Hf. unfold Storage_transactions. destruct (Z.ltb_spec vector_max_size limit); [lia|].
  cbn [TransactionID_is_valid PoolHash_is_empty id_pool_hash_ TransactionID_default].
  destruct (transactions_loop_spec idx blk lh (length ps) fuel addr limit (ledger ps) fuel [] (Pool_default, 0) st Hv)
    as (st' & E & Hv'); [|lia|lia|].
  - exists ps. split; [done|]. by split.
  - exists st'. split; [|done]. cbn -[transactions_loop] in *. by rewrite E, Z.sub_0_r.
Qed.

Lemma Storage_transactions_offset idx blk lh h ps l1 t l2 fuel addr limit st :
  view idx blk lh st → chain idx blk h ps → ledger ps = l1 ++ t :: l2 → limit <= vector_max_size →
  (length (ledger ps) + length ps < fuel)%nat →
  ∃ st', Storage_transactions fuel addr limit (t_id_ t) st
         = Ok (Some (take (Z.to_nat limit) (List.filter (involves addr) l2)), st') ∧ view idx blk lh st'.
Proof.
  intros Hv Hc Hs Hl Hf. unfold Storage_transactions. destruct (Z.ltb_spec vector_max_size limit); [lia|].
  destruct (seekIt_spec _ _ _ _ _ _ _ _ (Pool_default, 0) _ Hv Hc Hs) as (cur & st' & E & Hv' & _ & Hp & _).
  destruct (TransactionID_is_valid (t_id_ t)) eqn:Hid.
  2: { unfold seekIt in E. rewrite Hid in E. done. }
  rewrite E, bind_Ok. cbn [negb]. cbv beta iota. rewrite Hs, length_app in Hf. cbn [length] in Hf.
  destruct (transactions_loop_spec _ _ _ _ fuel addr limit _ fuel [] _ _ Hv' Hp ltac:(lia) ltac:(lia))
    as (st2 & E2 & Hv2).
  exists st2. split; [|done]. rewrite E2. cbn. by rewrite Z.sub_0_r.
Qed.

Lemma take_page {A} (n m : nat) (F a : list A) t b :
  take n F = a ++ [t] → F = a ++ t :: b → (a ++ [t]) ++ take m b = take (n + m) F.
Proof.
  intros Hn HF. rewrite cons_middle, app_assoc in HF. set (k := a ++ [t]) in *.
  assert (length (take n F) = length k) as Hlen by by rewrite Hn.
  rewrite length_take, HF, length_app in Hlen. rewrite HF. destruct (decide (n = length k)) as [->|Hne].
  - by rewrite take_app_add.
  - assert (b = []) as -> by (apply nil_length_inv; lia).
    rewrite take_nil, !app_nil_r in *. rewrite take_ge; [done|]. lia.
Qed.

Lemma no_source_no_number addr k l :
  Forall (λ t, Address_eqb (t_source_ t) addr = false) l → List.find (numbered_from addr k) l = None.
Proof.
  apply (find_none_weaken (λ t, Address_eqb (t_source_ t) addr)). intros x Hx. by apply andb_prop in Hx as [Hx _].
Qed.

Lemma chain_valid idx blk h ps p : chain idx blk h ps → p ∈ ps → p_is_valid_ p = true.
Proof. induction 1; [by intros ?%elem_of_nil|]. intros [->|Hp]%elem_of_cons; auto. Qed.

Lemma get_last_ledger idx blk lh ps fuel (f : Transaction → bool) last_by st :
  view idx blk lh st → chain idx blk lh ps → Forall (λ t, Transaction_is_valid t = true) (ledger ps) →
  (∀ p, p_is_valid_ p = true →
     last_by p = match List.find f (rev (p_transactions_ p)) with Some t => t | None => Transaction_default end) →
  (length ps < fuel)%nat →
  ∃ st', ('(curr, st) ← Storage_pool_load (s_last_hash st) st; get_last_loop last_by fuel curr st)
         = Ok (Some (from_option id Transaction_default (List.find f (ledger ps))), st') ∧ view idx blk lh st'.
Proof.
  intros Hv Hc Hval Hlast Hf. rewrite (proj1 Hv).
  destruct (chain_load _ _ _ _ _ _ Hv Hc) as (curr & st1 & E & Hv1 & Hc1). rewrite E, bind_Ok. cbv beta iota.
  destruct (get_last_loop_spec _ _ _ last_by _ fuel _ _ Hv1 Hc1 Hf) as (st2 & E2 & Hv2).
  exists st2. rewrite E2, (first_valid_find f); [|by eauto using chain_valid|done]. split; [|done].
  by destruct (List.find f (ledger ps)).
Qed.

Lemma get_last_by_source_ledger idx blk lh ps fuel addr st :
  view idx blk lh st → chain idx blk lh ps → Forall (λ t, Transaction_is_valid t = true) (ledger ps) →
  (length ps < fuel)%nat →
  ∃ st', Storage_get_last_by_source fuel addr st
         = Ok (Some (from_option id Transaction_default
                 (List.find (λ t, Address_eqb (t_source_ t) addr) (ledger ps))), st') ∧ view idx blk lh st'.
Proof.
  intros Hv Hc Hval Hf. apply get_last_ledger; try done.
  intros p Hp. unfold Pool_get_last_by_source. by rewrite Hp.
Qed.

(** ** Properties *)

(** C23: listing the transactions of an address returns the newest of them, as
    many as the limit allows; asking again with the identifier of the last one
    returned continues the list without a gap or a repetition. *)
Theorem Storage_transactions_pages idx blk lh ps fuel addr n m st :
  view idx blk lh st → chain idx blk lh ps → 0 <= n <= vector_max_size → 0 <= m <= vector_max_size →
  (length (ledger ps) + length ps < fuel)%nat →
  ∃ r1 st1, Storage_transactions fuel addr n TransactionID_default st = Ok (Some r1, st1) ∧
    r1 = take (Z.to_nat n) (List.filter (involves addr) (ledger ps)) ∧
    ∀ t, last r1 = Some t → ∃ r2 st2,
      Storage_transactions fuel addr m (t_id_ t) st1 = Ok (Some r2, st2) ∧
      r1 ++ r2 = take (Z.to_nat (n + m)) (List.filter (involves addr) (ledger ps)).
Proof.
  intros Hv Hc Hn Hm Hf.
  destruct (Storage_transactions_start _ _ _ _ fuel addr n _ Hv Hc ltac:(lia) Hf) as (st1 & E & Hv1).
  do 2 eexists. split; [exact E|]. split; [done|]. intros t [a Ha]%last_Some.
  set (F := List.filter (involves addr) (ledger ps)) in *.
  assert (F = a ++ t :: drop (Z.to_nat n) F) as HF.
  { rewrite <- (take_drop (Z.to_nat n) F) at 1. rewrite Ha. by rewrite <- app_assoc. }
  destruct (filter_split _ _ _ _ _ HF) as (l1 & l2 & Hl & _ & H2).
  destruct (Storage_transactions_offset _ _ _ _ _ _ _ _ fuel addr m _ Hv1 Hc Hl ltac:(lia) Hf) as (st2 & E2 & _).
  do 2 eexists. split; [exact E2|]. rewrite H2, Ha, Z2Nat.inj_add by lia. by apply take_page.
Qed.

(** On a chain of valid transactions the searches find the newest
    transaction of the ledger that matches: by source, by target, and by source
    and number. *)
Theorem Storage_searches_correct idx blk lh ps fuel addr k st :
  view idx blk lh st → chain idx blk lh ps → Forall (λ t, Transaction_is_valid t = true) (ledger ps) →
  (length (ledger ps) + length ps < fuel)%nat →
  (∃ st', Storage_get_last_by_source fuel addr st
          = Ok (Some (from_option id Transaction_default
                  (List.find (λ t, Address_eqb (t_source_ t) addr) (ledger ps))), st')) ∧
  (∃ st', Storage_get_last_by_target fuel addr st
          = Ok (Some (from_option id Transaction_default
                  (List.find (λ t, Address_eqb (t_target_ t) addr) (ledger ps))), st')) ∧
  (∃ st', Storage_get_from_blockchain fuel addr k st
          = Ok (Some (List.find (numbered_from addr k) (ledger ps)), st')).
Proof.
  intros Hv Hc Hval Hf. split; [|split].
  - destruct (get_last_by_source_ledger _ _ _ _ fuel addr _ Hv Hc Hval ltac:(lia)) as (st' & E & _). eauto.
  - unfold Storage_get_last_by_target.
    destruct (get_last_ledger _ _ _ _ fuel (λ t, Address_eqb (t_target_ t) addr)
      (λ p, Pool_get_last_by_target p addr) _ Hv Hc Hval) as (st' & E & _); [|lia|by eauto].
    intros p Hp. unfold Pool_get_last_by_target. by rewrite Hp.
  - unfold Storage_get_from_blockchain.
    destruct (get_last_by_source_ledger _ _ _ _ fuel addr _ Hv Hc Hval ltac:(lia)) as (st1 & E & Hv1).
    rewrite E, bind_Ok. cbv beta iota. destruct (List.find _ (ledger ps)) as [t|] eqn:Ef; cbn [from_option id].
    + destruct (find_split _ _ _ Ef) as (l1 & l2 & Hl & Hno).
      destruct (seekIt_spec _ _ _ _ _ _ _ _ (Pool_default, u64 (-1)) _ Hv1 Hc Hl)
        as (cur & st2 & E2 & Hv2 & Ht & Hp & Hr).
      rewrite E2, bind_Ok. cbv beta iota. destruct (Z.eqb_spec cur.2 (u64 (-1))) as [Hx|_].
      { rewrite Hx in Hr. unfold u64, wrap in Hr. change (-1 mod 2 ^ 64) with 18446744073709551615 in Hr. lia. }
      rewrite Hl, length_app in Hf. cbn [length] in Hf.
      destruct (get_from_loop_spec _ _ _ _ fuel addr k _ fuel _ t _ Hv2 Hp Ht ltac:(lia) ltac:(lia))
        as (st3 & E3 & _).
      exists st3. by rewrite E3, Hl, find_app, (no_source_no_number addr k l1).
    + cbn. eexists. rewrite no_source_no_number; [done|]. by apply find_none_Forall in Ef.
Qed.

(** ** Chains that the writer wrote *)

(** The pool that a stored pool loads as. *)
Definition loaded (p : Pool) : Pool := assign_storage None (Pool_recount (writer_pool p).2).

(** The hash at which a chain ends. *)
Fixpoint tail_of (h : byte_array) (ps : list Pool) : byte_array :=
  match ps with [] => h | p :: ps' => tail_of (p_previous_hash_ p) ps' end.

Definition few_transactions (p : Pool) : Prop := Z.of_nat (length (p_transactions_ p)) < 2 ^ 32.

Lemma writer_pool_transactions p : length (p_transactions_ (writer_pool p).2) = length (p_transactions_ p).
Proof.
  assert (∀ q, length (p_transactions_ (Pool_hash q).2) = length (p_transactions_ q)) as Hh.
  { intros q. unfold Pool_hash. by destruct (PoolHash_is_empty _). }
  unfold writer_pool. rewrite Hh. destruct (p_read_only_ p) eqn:Hr; [done|]. cbn [negb].
  unfold Pool_compose. rewrite Hr. destruct (p_is_valid_ p) eqn:Hv; [|done]. cbn [negb snd].
  rewrite Pool_priv_compose_valid by done. unfold Pool_update_transactions. cbn. by rewrite length_imap.
Qed.

Lemma chain_mono idx blk idx' blk' h ps :
  chain idx blk h ps →
  (∀ k n, idx !! k = Some n → idx' !! k = Some n) → (∀ n b, blk !! n = Some b → blk' !! n = Some b) →
  (idx !! tail_of h ps = None → idx' !! tail_of h ps = None) → chain idx' blk' h ps.
Proof.
  intros Hc Hi Hb. induction Hc as [h Hh|n b p ps Hn Hbl Hf Hv Hcnt Hc IH]; cbn [tail_of]; intros Ht.
  - apply chain_end. destruct Hh; auto.
  - apply (chain_link idx' blk' n); auto.
Qed.

Lemma written_chain idx blk h ps qs :
  Forall storable qs → Forall few_transactions qs → linked h qs → chain idx blk h ps →
  (∀ p, p ∈ qs → idx !! pool_key p = Some (pool_number p) ∧ blk !! pool_number p = Some (Pool_put p [])) →
  chain idx blk (from_option pool_key h (last qs)) (rev (loaded <$> qs) ++ ps).
Proof.
  intros Hq. revert h ps. induction Hq as [|p qs Hp Hq IH]; intros h ps Hfew Hl Hc Hin; [done|].
  apply Forall_cons in Hfew as [Hfp Hfew]. destruct Hl as [<- Hl].
  rewrite fmap_cons. cbn [rev]. rewrite <- app_assoc. cbn [app].
  replace (from_option pool_key (p_previous_hash_ p) (last (p :: qs)))
    with (from_option pool_key (pool_key p) (last qs)) by (rewrite last_cons; by destruct (last qs)).
  apply IH; [done|done| |by intros q Hx; apply Hin; right].
  destruct (Hin p ltac:(by left)) as [Hi Hb]. pose proof (writer_pool_spec p Hp) as Hs.
  pose proof (writer_pool_transactions p) as Hlen. unfold loaded, few_transactions in *.
  destruct (writer_pool p) as [hh q]. cbn [snd] in *. destruct Hs as (_ & _ & _ & _ & Hprev & Hv & Hrt).
  apply (chain_link idx blk (pool_number p)); try done.
  - split; cbn; rewrite Hlen; [done|]. width_lia.
  - cbn. by rewrite Hprev.
Qed.

Lemma taken_true (bs : list bool) n i :
  Forall (λ ok, ok = true) (take n bs) → (i < n)%nat → (i < length bs)%nat → bs !! i = Some true.
Proof.
  intros Hs Hi Hl. destruct (lookup_lt_is_Some_2 bs i Hl) as [b Hb]. rewrite Hb. f_equal.
  apply (Forall_lookup_1 _ _ i b Hs). by rewrite lookup_take_lt.
Qed.

Lemma dropped_true n (bs : list bool) i :
  Forall (λ ok, ok = true) (drop n bs) → (n + i < length bs)%nat → bs !! (n + i)%nat = Some true.
Proof.
  intros Hs Hl. destruct (lookup_lt_is_Some_2 bs (n + i) Hl) as [b Hb]. rewrite Hb. f_equal.
  apply (Forall_lookup_1 _ _ i b Hs). by rewrite lookup_drop.
Qed.

(** Writing pools that continue the stored chain, with keys and record numbers
    that are not in use.  The pools up to any place extend the stored chain if
    their writes succeeded; the chain that ends in the last hash goes back to the
    newest pool whose write failed. *)
Lemma write_loop_extends qs st d ps :
  s_db st = Some d → ready d → chain (index d) (blocks d) (s_last_hash st) ps →
  Forall storable qs → Forall few_transactions qs → linked (s_last_hash st) qs →
  NoDup (pool_key <$> qs) → NoDup (pool_number <$> qs) →
  (∀ p, p ∈ qs → index d !! pool_key p = None ∧ blocks d !! pool_number p = None ∧
                 pool_key p ≠ tail_of (s_last_hash st) ps) →
  ∃ st' d', Storage_write_loop qs st = Ok st' ∧ s_write_queue st' = [] ∧
    s_count_pool st' = fold_left (λ n _, u64 (n + 1)) qs (s_count_pool st) ∧
    s_last_hash st' = from_option pool_key (s_last_hash st) (last qs) ∧
    view (index d') (blocks d') (s_last_hash st') st' ∧
    (∀ a b, qs = a ++ b → Forall (λ ok, ok = true) (take (length a) (put_results qs st)) →
       chain (index d') (blocks d') (from_option pool_key (s_last_hash st) (last a)) (rev (loaded <$> a) ++ ps)) ∧
    (∀ a p b, qs = a ++ p :: b → put_results qs st !! length a = Some false →
       Forall (λ ok, ok = true) (drop (S (length a)) (put_results qs st)) →
       chain (index d') (blocks d') (s_last_hash st') (rev (loaded <$> b))).
Proof.
  intros Hd Hr Hc Hq Hfew Hl Hk Hn Hfresh. pose proof (length_put_results qs st d Hq Hd Hr) as Hlen.
  destruct (Storage_write_loop_nodup qs st d Hq Hd Hr Hk Hn)
    as (d' & st' & E & Hd' & Hr' & Hqe & Hcnt & Hlast & Hin & Hout & Hik & Hbn).
  rewrite follow_linked in Hlast by done.
  assert (chain (index d') (blocks d') (s_last_hash st) ps) as Hc'.
  { apply (chain_mono (index d) (blocks d)); [done|..].
    - intros k n Hkn. rewrite Hik; [done|]. intros (p & -> & Hp)%list_elem_of_fmap.
      destruct (Hfresh p Hp) as (Hx & _). by rewrite Hx in Hkn.
    - intros n b Hnb. rewrite Hbn; [done|]. intros (p & -> & Hp)%list_elem_of_fmap.
      destruct (Hfresh p Hp) as (_ & Hx & _). by rewrite Hx in Hnb.
    - intros Ht. rewrite Hik; [done|]. intros (p & Hx & Hp)%list_elem_of_fmap.
      destruct (Hfresh p Hp) as (_ & _ & Hne). by rewrite Hx in Hne. }
  exists st', d'. do 4 (split; [done|]). split; [split; [done|]; by exists d'|]. split.
  - intros a b -> Hs. apply Forall_app in Hq as [Hq _], Hfew as [Hfew _]. apply linked_app in Hl as [Hl _].
    apply written_chain; [done..|]. intros p (i & Hi)%list_elem_of_lookup_1. pose proof (lookup_lt_Some _ _ _ Hi).
    apply (Hin i p); [by apply lookup_app_l_Some|]. rewrite length_app in Hlen.
    eapply taken_true; [exact Hs|lia|lia].
  - intros a p b Hqs Hf Hs. rewrite Hlast. subst qs. rewrite length_app in Hlen. cbn [length] in Hlen.
    replace (from_option pool_key (s_last_hash st) (last (a ++ p :: b)))
      with (from_option pool_key (pool_key p) (last b)) by (rewrite last_app, last_cons; by destruct (last b)).
    rewrite <- (app_nil_r (rev _)). apply Forall_app in Hq as [_ [_ Hq]%Forall_cons], Hfew as [_ [_ Hfew]%Forall_cons].
    apply linked_app in Hl as [_ [_ Hl]]. apply written_chain; [done..| |].
    + apply chain_end. right. rewrite (Hout (length a) p); [|by rewrite lookup_app_r, Nat.sub_diag by lia|done].
      apply Hfresh. set_solver.
    + intros x (i & Hi)%list_elem_of_lookup_1. pose proof (lookup_lt_Some _ _ _ Hi).
      apply (Hin (length a + S i)%nat x); [by rewrite lookup_app_r, Nat.add_comm, Nat.add_sub by lia|].
      replace (length a + S i)%nat with (S (length a) + i)%nat by lia. apply (dropped_true _ _ _ Hs). lia.
Qed.

(** C3: draining a queue that continues the stored chain, with keys and record
    numbers that are not in use.  The last hash becomes that of the newest queued
    pool, whatever the database answers.  The stored chain stays, and the queued
    pools up to any place extend it if their writes succeeded: with no failure,
    following the links from the last hash gives the queued pools, newest first,
    and then the pools that were there.  After a failure it gives only the pools
    behind the newest one that failed. *)
Theorem Storage_drain_extends st d ps :
  let qs := s_write_queue st in
  s_db st = Some d → ready d →
  chain (index d) (blocks d) (s_last_hash st) ps →
  Forall storable qs → Forall few_transactions qs → linked (s_last_hash st) qs →
  NoDup (pool_key <$> qs) → NoDup (pool_number <$> qs) →
  (∀ p, p ∈ qs → index d !! pool_key p = None ∧ blocks d !! pool_number p = None ∧
                 pool_key p ≠ tail_of (s_last_hash st) ps) →
  ∃ st' d', Storage_write_drain st = Ok st' ∧ s_write_queue st' = [] ∧
    s_last_hash st' = from_option pool_key (s_last_hash st) (last qs) ∧
    view (index d') (blocks d') (s_last_hash st') st' ∧
    (∀ a b, qs = a ++ b → Forall (λ ok, ok = true) (take (length a) (put_results qs st)) →
       chain (index d') (blocks d') (from_option pool_key (s_last_hash st) (last a)) (rev (loaded <$> a) ++ ps)) ∧
    (∀ a p b, qs = a ++ p :: b → put_results qs st !! length a = Some false →
       Forall (λ ok, ok = true) (drop (S (length a)) (put_results qs st)) →
       chain (index d') (blocks d') (s_last_hash st') (rev (loaded <$> b))).
Proof.
  intros qs Hd Hr Hc Hq Hfew Hl Hk Hn Hfresh.
  destruct (write_loop_extends qs st d ps) as (st' & d' & E & Hqe & _ & Hrest); try done.
  by exists st', d'.
Qed.

(** ** Wallets *)

(** What a transaction changes in the balance of an address, in units. *)
Definition net (addr currency : byte_array) (t : Transaction) : Z :=
  if bytes_eqb (t_currency_ t) currency
  then (if Address_eqb (t_target_ t) addr then val (t_amount_ t) else 0)
       - (if Address_eqb (t_source_ t) addr then val (t_amount_ t) else 0)
  else 0.

Definition balance (addr currency : byte_array) (ts : list Transaction) : Z :=
  foldr (λ t z, net addr currency t + z) 0 ts.

(** [tally addr m ts]: the map [m] of amounts accounts for the transactions [ts]. *)
Definition tally (addr : byte_array) (m : list (byte_array * Amount)) (ts : list Transaction) : Prop :=
  map_sorted m ∧ (∀ cur, Amount_weak (map_at cur m)) ∧
  (∀ cur, is_Some (map_find cur m) ↔ ∃ t, t ∈ ts ∧ involves addr t = true ∧ t_currency_ t = cur) ∧
  (∀ cur, Amount_of_units (val (map_at cur m)) = Amount_of_units (balance addr cur ts)).

#[local] Instance balance_perm addr cur : Proper ((≡ₚ) ==> (=)) (balance addr cur).
Proof. unfold balance. intros l1 l2 Hp. induction Hp; cbn; lia. Qed.

#[local] Instance tally_perm addr m : Proper ((≡ₚ) ==> iff) (tally addr m).
Proof.
  intros l1 l2 Hp. unfold tally. setoid_rewrite Hp. done.
Qed.

Lemma of_units_shift x y z :
  Amount_of_units x = Amount_of_units y → Amount_of_units (x + z) = Amount_of_units (y + z).
Proof.
  unfold Amount_of_units. intros [= H1 H2]. f_equal; [|amount_lia].
  unfold AMOUNT_MAX_FRACTION in *. width_lia.
Qed.

Lemma map_at_set_eq k v m : map_sorted m → map_at k (map_set k v m) = v.
Proof. intros Hs. unfold map_at. by rewrite map_find_set_eq. Qed.

Lemma map_at_set_ne k k' v m : map_sorted m → k' ≠ k → map_at k' (map_set k v m) = map_at k' m.
Proof. intros Hs Hk. unfold map_at. by rewrite map_find_set_ne. Qed.

(** One of the two assignments: the entry of the currency changes by [x]. *)
Definition booked (k : byte_array) (x : Z) (m m' : list (byte_array * Amount)) : Prop :=
  map_sorted m' ∧ (∀ cur, Amount_weak (map_at cur m')) ∧
  (∀ cur, is_Some (map_find cur m') ↔ cur = k ∨ is_Some (map_find cur m)) ∧
  (∀ cur, Amount_of_units (val (map_at cur m'))
          = Amount_of_units (val (map_at cur m) + if bytes_eqb k cur then x else 0)).

Lemma map_set_booked k a x m :
  map_sorted m → (∀ cur, Amount_weak (map_at cur m)) → Amount_weak a →
  Amount_of_units (val a) = Amount_of_units (val (map_at k m) + x) → booked k x m (map_set k a m).
Proof.
  intros Hs Hw Ha Hx. split; [by apply map_set_sorted|]. split; [|split]; intros cur;
    (destruct (decide (cur = k)) as [->|Hne];
     [rewrite ?map_at_set_eq, ?map_find_set_eq, ?bytes_eqb_refl by done
     |rewrite ?map_at_set_ne, ?map_find_set_ne by done]); try done.
  - split; [by left|by eexists].
  - split; [by right|by intros [|]].
  - unfold bytes_eqb. rewrite bool_decide_eq_false_2 by congruence. by rewrite Z.add_0_r.
Qed.

Lemma booked_trans k x y m m1 m2 : booked k x m m1 → booked k y m1 m2 → booked k (x + y) m m2.
Proof.
  intros (Hs1 & Hw1 & Hd1 & Hu1) (Hs2 & Hw2 & Hd2 & Hu2). split; [done|]. split; [done|]. split.
  - intros cur. rewrite Hd2, Hd1. tauto.
  - intros cur. rewrite Hu2. etrans; [apply of_units_shift, Hu1|]. f_equal. destruct (bytes_eqb k cur); lia.
Qed.

Lemma Wallet_count_booked addr m t :
  map_sorted m → (∀ cur, Amount_weak (map_at cur m)) → Amount_weak (t_amount_ t) → involves addr t = true →
  booked (t_currency_ t)
    ((if Address_eqb (t_target_ t) addr then val (t_amount_ t) else 0)
     - (if Address_eqb (t_source_ t) addr then val (t_amount_ t) else 0)) m (Wallet_count addr m t).
Proof.
  intros Hs Hw Ha. unfold involves, Wallet_count. set (k := t_currency_ t). set (a := t_amount_ t) in *.
  assert (∀ m, map_sorted m → (∀ cur, Amount_weak (map_at cur m)) →
    booked k (- val a) m (map_set k (Amount_sub_assign (map_at k m) a) m) ∧
    booked k (val a) m (map_set k (Amount_add_assign (map_at k m) a) m)) as Hb.
  { clear m Hs Hw. intros m Hs Hw. destruct (Amount_sub_assign_weak _ _ (Hw k) Ha) as [W1 U1].
    destruct (Amount_add_assign_weak _ _ (Hw k) Ha) as [W2 U2].
    split; by apply map_set_booked. }
  destruct (Address_eqb (t_source_ t) addr), (Address_eqb (t_target_ t) addr); try done; intros _.
  - pose proof (proj1 (Hb m Hs Hw)) as B1. pose proof B1 as (Hs1 & Hw1 & _).
    replace (val a - val a) with (- val a + val a) by lia. eapply booked_trans; [exact B1|]. by apply Hb.
  - by apply Hb.
  - rewrite Z.sub_0_r. by apply Hb.
Qed.

Lemma Wallet_count_tally addr m t ts :
  tally addr m ts → Amount_weak (t_amount_ t) → tally addr (Wallet_count addr m t) (t :: ts).
Proof.
  intros (Hs & Hw & Hd & Hu) Ha. destruct (involves addr t) eqn:Hi.
  - destruct (Wallet_count_booked addr m t Hs Hw Ha Hi) as (Hs' & Hw' & Hd' & Hu').
    split; [done|]. split; [done|]. split; intros cur.
    + rewrite Hd', Hd. setoid_rewrite elem_of_cons. split.
      * intros [->|(u & Hu1 & Hu2)]; eauto.
      * intros (u & [->|Hu1] & Hu2 & Hu3); eauto.
    + rewrite Hu'. cbn. rewrite (Z.add_comm (net _ _ _)). etrans; [apply of_units_shift, Hu|done].
  - assert (Wallet_count addr m t = m) as ->.
    { unfold Wallet_count. apply orb_false_iff in Hi as [-> ->]. done. }
    split; [done|]. split; [done|]. split; intros cur.
    + rewrite Hd. setoid_rewrite elem_of_cons. split; [intros (u & Hu1 & Hu2); eauto|].
      intros (u & [->|Hin] & Hu' & Hc); [congruence|eauto].
    + rewrite Hu. cbn. unfold net. apply orb_false_iff in Hi as [-> ->]. by destruct (bytes_eqb _ _).
Qed.

(** A loop over the indices of a pool is a loop over its transactions. *)
Lemma pool_fold {A} (g : A → Transaction → A) p a :
  counted p →
  fold_left (λ a i, g a (Pool_transaction p (Z.of_nat i))) (seq 0 (Z.to_nat (p_transactionsCount_ p))) a
  = fold_left g (p_transactions_ p) a.
Proof.
  intros [_ Hc]. rewrite Hc, Nat2Z.id. clear Hc.
  assert (∀ k l a, drop k (p_transactions_ p) = l →
    fold_left (λ a i, g a (Pool_transaction p (Z.of_nat i))) (seq k (length l)) a = fold_left g l a) as Hx;
    [|by apply Hx].
  intros k l. revert k. induction l as [|t l IH]; intros k m' Hd; [done|].
  assert (p_transactions_ p !! k = Some t) as Hk.
  { rewrite <- (Nat.add_0_r k), <- lookup_drop, Hd. done. }
  cbn [length seq fold_left]. rewrite (Pool_transaction_lookup p k t Hk). apply IH.
  rewrite <- (Nat.add_1_r k), <- drop_drop, Hd. done.
Qed.

Lemma Wallet_count_fold_tally addr l m ts :
  tally addr m ts → Forall (λ t, Amount_weak (t_amount_ t)) l →
  tally addr (fold_left (Wallet_count addr) l m) (l ++ ts).
Proof.
  revert m ts. induction l as [|t l IH]; intros m ts Ht Hl; [done|].
  apply Forall_cons in Hl as [Ha Hl]. cbn [fold_left app]. rewrite Permutation_middle.
  apply IH; [|done]. by apply Wallet_count_tally.
Qed.

Lemma Pool_load_chain idx blk lh self st h ps :
  view idx blk lh st → chain idx blk h ps →
  ∃ curr st', Pool_load self h st = Ok (if p_is_valid_ curr then Pool_set_storage self curr else curr, st') ∧
    view idx blk lh st' ∧ at_chain idx blk curr ps.
Proof.
  intros Hv Hc. destruct (chain_load _ _ _ _ _ _ Hv Hc) as (curr & st' & E & Hv' & Hc').
  exists curr, st'. unfold Pool_load. by rewrite E, bind_Ok.
Qed.

Lemma Wallet_get_loop_spec idx blk lh self addr ps fuel curr m ts st :
  view idx blk lh st → at_chain idx blk curr ps → (length ps < fuel)%nat →
  Forall (λ t, Amount_weak (t_amount_ t)) (ledger ps) → tally addr m ts →
  ∃ m' st', Wallet_get_loop self addr fuel (if p_is_valid_ curr then Pool_set_storage self curr else curr) m st
            = Ok (Some m', st') ∧ view idx blk lh st' ∧ tally addr m' (ledger ps ++ ts).
Proof.
  revert curr m ts st fuel. induction ps as [|p ps IH]; intros curr m ts st [|fuel] Hv Hc Hf Hw Ht; cbn in Hf; try lia.
  - cbn in Hc. rewrite Hc. cbn. rewrite Hc. by exists m, st.
  - destruct Hc as (-> & Hpv & _ & Hcnt & Hc). rewrite Hpv. cbn [Wallet_get_loop].
    change (p_is_valid_ (Pool_set_storage self p)) with true. cbn [negb].
    change (p_previous_hash_ (Pool_set_storage self p)) with (p_previous_hash_ p).
    change (Wallet_count_pool addr (Pool_set_storage self p) m) with (Wallet_count_pool addr p m).
    unfold ledger in Hw |- *. cbn [mbind list_bind] in Hw |- *. fold (ledger ps) in *.
    apply Forall_app in Hw as [Hw1 Hw2]. apply Forall_rev in Hw1. rewrite rev_involutive in Hw1.
    destruct (Pool_load_chain _ _ _ self _ _ _ Hv Hc) as (curr & st' & E & Hv' & Hc'). rewrite E, bind_Ok.
    cbv beta iota zeta. unfold Wallet_count_pool. rewrite pool_fold by done.
    destruct (IH curr (fold_left (Wallet_count addr) (p_transactions_ p) m) (p_transactions_ p ++ ts) st' fuel)
      as (m' & st2 & E2 & Hv2 & Ht2); [done|done|lia|done|by apply Wallet_count_fold_tally|].
    exists m', st2. split; [done|]. split; [done|]. rewrite <- (Permutation_rev (p_transactions_ p)).
    by rewrite <- app_assoc, Permutation_app_swap_app.
Qed.

Lemma of_units_weak_inj a s :
  Amount_weak a → - 2 ^ 31 * AMOUNT_MAX_FRACTION < s < 2 ^ 31 * AMOUNT_MAX_FRACTION →
  Amount_of_units (val a) = Amount_of_units s → val a = s.
Proof. destruct a as [i f]. unfold Amount_of_units. intros Hw Hs [= H1 H2]. amount_lia. Qed.

Lemma tally_nil addr : tally addr [] [].
Proof.
  split; [constructor|]. split; [intros cur; change (Amount_weak (mkAmount 0 0)); amount_lia|]. split; [|done].
  intros cur. cbn. split; [by intros [? ?]|]. by intros (t & ?%elem_of_nil & _).
Qed.

Lemma map_find_keys cur (m : list (byte_array * Amount)) :
  map_sorted m → is_Some (map_find cur m) ↔ cur ∈ m.*1.
Proof.
  intros Hs. rewrite list_elem_of_fmap. split.
  - intros [v Hv]. apply map_find_elem in Hv; [|done]. by exists (cur, v).
  - intros ([k v] & -> & Hin). exists v. by apply map_find_elem.
Qed.

(** C24: the wallet of an address has the currencies of the transactions it takes
    part in, and holds of each the sum it received less the sum it sent; the
    sums are exact up to the range of an amount. *)
Theorem Wallet_get_correct idx blk lh ps self default fuel addr st dst :
  view idx blk lh st → chain idx blk lh ps → Forall (λ t, Amount_weak (t_amount_ t)) (ledger ps) →
  (length ps < fuel)%nat →
  ∃ w st', Wallet_get self default fuel addr st dst = Ok (Some w, st') ∧ w_address_ w = addr ∧
    ∀ cur,
      (cur ∈ Wallet_currencies w ↔ ∃ t, t ∈ ledger ps ∧ involves addr t = true ∧ t_currency_ t = cur) ∧
      Amount_of_units (val (Wallet_amount w cur)) = Amount_of_units (balance addr cur (ledger ps)) ∧
      (- 2 ^ 31 * AMOUNT_MAX_FRACTION < balance addr cur (ledger ps) < 2 ^ 31 * AMOUNT_MAX_FRACTION →
       val (Wallet_amount w cur) = balance addr cur (ledger ps)).
Proof.
  intros Hv Hc Hw Hf. unfold Wallet_get, Wallet_get_open, Storage_isOpen.
  pose proof Hv as (Hl & d & Hd & Hr & _). rewrite Hd, (db_ready_open d Hr), Hl.
  destruct (Pool_load_chain _ _ _ self _ _ _ Hv Hc) as (curr & st1 & E & Hv1 & Hc1). rewrite E, bind_Ok.
  cbv beta iota. destruct (Wallet_get_loop_spec _ _ _ self addr _ fuel _ [] [] _ Hv1 Hc1 Hf Hw (tally_nil addr))
    as (m & st2 & E2 & _ & Ht). rewrite E2, bind_Ok, app_nil_r in *. cbn.
  exists (mkWallet addr m), st2. split; [done|]. split; [done|]. intros cur.
  destruct Ht as (Hs & Hwk & Hdom & Hu). split; [|split].
  - rewrite <- Hdom. symmetry. by apply map_find_keys.
  - apply Hu.
  - intros Hin. apply of_units_weak_inj; [apply Hwk|done|apply Hu].
Qed.

End ChainLaws.

(** ** Examples *)

(** Two linked blocks in the database that lives in memory. *)
Definition second_pool : Pool :=
  mkPool true false [] (pool_key genesis_pool) 1 [sample_transaction []; sample_transaction []] 2 [] [] [] [] None.

Definition two_pools : list Pool := [genesis_pool; second_pool].

Definition mem_index : gmap byte_array Z :=
  list_to_map ((λ p, (pool_key p, pool_number p)) <$> two_pools).
Definition mem_blocks : gmap Z byte_array :=
  list_to_map ((λ p, (pool_number p, Pool_put p [])) <$> two_pools).
Definition mem_last : byte_array := pool_key second_pool.

Definition mem_stored : Storage (DatabaseBerkeleyDB (gmap Z byte_array) (gmap byte_array Z)) :=
  mkStorage (Some (mkBdb (Some mem_blocks) (Some mem_index) (DbError Db_NoError []))) mem_last 2 []
    false St_NoError [].

Definition mem_chain_pools : list Pool := rev (loaded <$> two_pools).

Lemma mem_view :
  @view _ Bdb_ready (Bdb_index id) (Bdb_blocks id) mem_index mem_blocks mem_last mem_stored.
Proof.
  split; [done|]. eexists. split; [done|]. split; [split; by eexists|]. by split.
Qed.

Lemma second_storable : storable second_pool.
Proof.
  destruct genesis_storable as [(_ & _ & Hu & Ht & _ & Hk & Hg) _].
  split; [|done]. split; [apply (bool_decide_unpack _); vm_compute; exact I|]. split; [split; done|]. split; [exact Hu|].
  split; [|done]. apply Forall_cons in Ht as [Ht _]. constructor; [exact Ht|]. constructor; [exact Ht|constructor].
Qed.

Lemma mem_chain : chain mem_index mem_blocks mem_last mem_chain_pools.
Proof.
  unfold mem_chain_pools. rewrite <- (app_nil_r (rev _)).
  apply (@written_chain mem_index mem_blocks [] [] two_pools).
  - constructor; [apply genesis_storable|]. constructor; [apply second_storable|constructor].
  - repeat constructor.
  - done.
  - apply chain_end. by left.
  - intros p [->|[->|[]%elem_of_nil]%elem_of_cons]%elem_of_cons; split; vm_compute; reflexivity.
Qed.

Definition sample_address : byte_array := t_source_ (sample_transaction []).

Lemma mem_ledger_valid : Forall (λ t, Transaction_is_valid t = true) (ledger mem_chain_pools).
Proof. apply (bool_decide_unpack _). vm_compute. exact I. Qed.

Lemma mem_ledger_weak : Forall (λ t, Amount_weak (t_amount_ t)) (ledger mem_chain_pools).
Proof.
  assert (Forall (λ t, t_amount_ t = t_amount_ (sample_transaction [])) (ledger mem_chain_pools)) as H
    by (apply (bool_decide_unpack _); vm_compute; exact I).
  eapply Forall_impl; [exact H|]. intros t ->. apply Amount_ok_weak, (bool_decide_unpack _). vm_compute. exact I.
Qed.

Lemma Storage_transactions_pages_witness :
  ∃ r1 st1 t r2 st2,
    @Storage_transactions _ mem_database 9 sample_address 2 TransactionID_default mem_stored
    = Ok (Some r1, st1) ∧ last r1 = Some t ∧
    @Storage_transactions _ mem_database 9 sample_address 2 (t_id_ t) st1 = Ok (Some r2, st2) ∧
    length (r1 ++ r2) = 3%nat.
Proof.
  destruct (@Storage_transactions_pages _ mem_database Bdb_ready (Bdb_index id)
    (Bdb_blocks id) mem_database_laws mem_index mem_blocks mem_last mem_chain_pools 9 sample_address 2 2
    mem_stored mem_view mem_chain) as (r1 & st1 & E & Er & H).
  - split; vm_compute; discriminate.
  - split; vm_compute; discriminate.
  - vm_compute. lia.
  - assert (match last (take (Z.to_nat 2) (List.filter (involves sample_address) (ledger mem_chain_pools))) with
            | Some _ => true | None => false end = true) as Hl by (vm_compute; reflexivity).
    rewrite <- Er in Hl. destruct (last r1) as [t|] eqn:El; [|discriminate].
    destruct (H t eq_refl) as (r2 & st2 & E2 & Ha). exists r1, st1, t, r2, st2.
    split; [exact E|]. split; [exact El|]. split; [exact E2|]. rewrite Ha. vm_compute. reflexivity.
Defined.

Lemma Storage_searches_correct_witness :
  ∃ st' t, @Storage_get_from_blockchain _ mem_database 9 sample_address 0 mem_stored
           = Ok (Some t, st') ∧ t = List.find (numbered_from sample_address 0) (ledger mem_chain_pools).
Proof.
  destruct (@Storage_searches_correct _ mem_database Bdb_ready (Bdb_index id)
    (Bdb_blocks id) mem_database_laws mem_index mem_blocks mem_last mem_chain_pools 9 sample_address 0
    mem_stored mem_view mem_chain mem_ledger_valid) as (_ & _ & st' & E).
  - vm_compute. lia.
  - eexists st', _. split; [exact E|reflexivity].
Defined.

Lemma Storage_drain_extends_witness :
  ∃ st' d', @Storage_write_drain _ mem_database (mem_storage two_pools) = Ok st' ∧
    chain (Bdb_index id d') (Bdb_blocks id d') (s_last_hash st') mem_chain_pools.
Proof.
  destruct (@Storage_drain_extends _ mem_database Bdb_ready (Bdb_index id)
    (Bdb_blocks id) mem_database_laws (mem_storage two_pools) mem_empty [] eq_refl mem_ready)
    as (st' & d' & E & _ & El & _ & Hc & _).
  - apply chain_end. by left.
  - constructor; [apply genesis_storable|]. constructor; [apply second_storable|constructor].
  - repeat constructor.
  - split; [reflexivity|]. split; [reflexivity|exact I].
  - apply (bool_decide_unpack _). vm_compute. exact I.
  - apply (bool_decide_unpack _). vm_compute. exact I.
  - intros p [->|[->|[]%elem_of_nil]%elem_of_cons]%elem_of_cons; split; [done|split; [done|by vm_compute]|
      done|split; [done|by vm_compute]].
  - exists st', d'. split; [exact E|]. rewrite El. specialize (Hc two_pools [] eq_refl). rewrite app_nil_r in Hc.
    apply Hc. apply (bool_decide_unpack _). vm_compute. exact I.
Defined.

Lemma Wallet_get_correct_witness :
  ∃ w st', @Wallet_get _ mem_database (Some 0%nat) None 9 sample_address mem_stored Storage_default
           = Ok (Some w, st') ∧
    val (Wallet_amount w (t_currency_ (sample_transaction [])))
    = balance sample_address (t_currency_ (sample_transaction [])) (ledger mem_chain_pools).
Proof.
  destruct (@Wallet_get_correct _ mem_database Bdb_ready (Bdb_index id)
    (Bdb_blocks id) mem_database_laws mem_index mem_blocks mem_last mem_chain_pools (Some 0%nat) None 9 sample_address
    mem_stored Storage_default mem_view mem_chain mem_ledger_weak) as (w & st' & E & _ & H).
  - vm_compute. lia.
  - exists w, st'. split; [exact E|]. destruct (H (t_currency_ (sample_transaction []))) as (_ & _ & Hx).
    apply Hx. split; vm_compute; reflexivity.
Defined.
