(* ===== verification/Blockchain.v ===== *)
(** * Blockchain: the chain as the node sees it

    [csnode/src/Blockchain.cpp]: appending a block to the storage, the queries
    that pass through to it, and the balance of an address with its cache.  Every
    method holds the lock for its calls of the storage. *)

From S2P Require Import Prelude Blake2 Hex StdMap Streams Format Amount Values Transaction Pool Database Storage Chain.

(** [getHashedPublicKey(str)], where [str] is the memory at the pointer: the
    function reads the length of a printed key. *)
Definition PURE_PUBLIC_KEY_LENGTH : nat := 44.

Definition getHashedPublicKey (str : byte_array) : result byte_array :=
  key ← bytes_at str 0 PURE_PUBLIC_KEY_LENGTH;
  Ok (blake2s_digest key).

(** [BlockChain::getAddressFromKey] *)
Definition getAddressFromKey (key : byte_array) : result byte_array :=
  hashedKey ← getHashedPublicKey key;
  Ok (Address_from_public_key_ptr hashedKey).

Section BlockChain.
Context {D : Type} `{!Database D}.

(** [BlockChain] *)
Record BlockChain := mkBlockChain {
  bc_good_ : bool;
  bc_balancesCache_ : list (byte_array * (byte_array * Amount));
  bc_storage_ : Storage D;
}.

Definition assign_bc_storage (st : Storage D) (bc : BlockChain) : BlockChain :=
  mkBlockChain (bc_good_ bc) (bc_balancesCache_ bc) st.

Definition assign_balancesCache (c : list (byte_array * (byte_array * Amount))) (bc : BlockChain) : BlockChain :=
  mkBlockChain (bc_good_ bc) c (bc_storage_ bc).

(** [BlockChain(path)], where [db] is the database that opening the path gave. *)
Definition BlockChain_new (db : option D) : result BlockChain :=
  '(ok, st) ← Storage_open db None Storage_default;
  Ok (mkBlockChain ok [] st).

(** [writeLastBlock]; errors are only logged.  [self] names the storage. *)
Definition writeLastBlock (self : option nat) (pool : Pool) (bc : BlockChain) : result BlockChain :=
  let st := bc_storage_ bc in
  let pool := Pool_set_storage self pool in
  let pool := Pool_set_previous_hash (s_last_hash st) pool in
  let pool := Pool_set_sequence (s_count_pool st) pool in
  let '(_, pool) := Pool_compose pool in
  '(_, _, st) ← Pool_save self pool st;
  Ok (assign_bc_storage st bc).

Definition getLastHash (bc : BlockChain) : byte_array := s_last_hash (bc_storage_ bc).

Definition getSize (bc : BlockChain) : Z := s_count_pool (bc_storage_ bc).

Definition loadBlock (ph : byte_array) (bc : BlockChain) : result (Pool * BlockChain) :=
  '(pool, st) ← Storage_pool_load ph (bc_storage_ bc);
  Ok (pool, assign_bc_storage st bc).

Definition loadBlockMeta (ph : byte_array) (cnt : Z) (bc : BlockChain) : result (Pool * Z * BlockChain) :=
  '(pool, cnt, st) ← Storage_pool_load_meta ph cnt (bc_storage_ bc);
  Ok (pool, cnt, assign_bc_storage st bc).

Definition loadTransaction (transId : TransactionID) (bc : BlockChain) : result (Transaction * BlockChain) :=
  '(t, st) ← Storage_transaction transId (bc_storage_ bc);
  Ok (t, assign_bc_storage st bc).

(** The state of the loop over the transactions of a block: [result],
    [foundSource], [recordedBalance]. *)
Definition balance_step (address : byte_array) (s : Amount * bool * Amount) (tr : Transaction)
    : Amount * bool * Amount :=
  let '(result, foundSource, recordedBalance) := s in
  if Address_eqb (t_source_ tr) address then (result, true, t_balance_ tr)
  else if Address_eqb (t_target_ tr) address
       then (Amount_add_assign result (t_amount_ tr), foundSource, recordedBalance)
       else s.

Definition balance_block (address : byte_array) (curr : Pool) (result : Amount) : Amount * bool * Amount :=
  fold_left (λ s i, balance_step address s (Pool_transaction curr (Z.of_nat i)))
    (seq 0 (Z.to_nat (p_transactionsCount_ curr))) (result, false, Amount_zero).

(** The loop of [getBalance] over the blocks: the sum, and whether the address
    was found as a source. *)
Fixpoint getBalance_loop (address lastCheckedHash : byte_array) (fuel : nat) (curr : Pool) (result : Amount)
    (bc : BlockChain) : Prelude.result (option (Amount * bool) * BlockChain) :=
  match fuel with
  | O => Ok (None, bc)
  | S fuel =>
      let '(hash, curr) := Pool_hash curr in
      if p_is_valid_ curr && negb (PoolHash_eqb hash lastCheckedHash) then
        let '(result, foundSource, recordedBalance) := balance_block address curr result in
        if (foundSource : bool) then Ok (Some (Amount_add_assign result recordedBalance, true), bc)
        else
          '(curr, bc) ← loadBlock (p_previous_hash_ curr) bc;
          getBalance_loop address lastCheckedHash fuel curr result bc
      else Ok (Some (result, false), bc)
  end.

(** [getBalance] *)
Definition getBalance (fuel : nat) (address : byte_array) (bc : BlockChain)
    : result (option Amount * BlockChain) :=
  let lastHash := getLastHash bc in
  let '(lastCheckedHash, cachedBalance) :=
    match map_find address (bc_balancesCache_ bc) with Some c => c | None => ([], Amount_zero) end in
  if match map_find address (bc_balancesCache_ bc) with Some _ => PoolHash_eqb lastCheckedHash lastHash | None => false end
  then Ok (Some cachedBalance, bc)
  else
    '(curr, bc) ← loadBlock lastHash bc;
    '(r, bc) ← getBalance_loop address lastCheckedHash fuel curr Amount_zero bc;
    match r with
    | None => Ok (None, bc)
    | Some (result, foundSource) =>
        let result := if (foundSource : bool) then result else Amount_add_assign result cachedBalance in
        Ok (Some result, assign_balancesCache (map_set address (lastHash, result) (bc_balancesCache_ bc)) bc)
    end.

End BlockChain.
Arguments BlockChain : clear implicits.

(** ** Balances *)

(** What an address received from others, in units. *)
Definition received (addr : byte_array) (ts : list Transaction) : Z :=
  foldr (λ t z, (if Address_eqb (t_source_ t) addr then 0
                 else if Address_eqb (t_target_ t) addr then val (t_amount_ t) else 0) + z) 0 ts.

(** The last transaction that an address sent. *)
Definition last_sent (addr : byte_array) (ts : list Transaction) : option Transaction :=
  last (List.filter (λ t, Address_eqb (t_source_ t) addr) ts).

(** The balance of an address on a chain: the balance recorded in its last
    transaction, and what it received in that block and since. *)
Fixpoint chain_balance (addr : byte_array) (ps : list Pool) : Z :=
  match ps with
  | [] => 0
  | p :: ps' =>
      received addr (p_transactions_ p) +
      match last_sent addr (p_transactions_ p) with
      | Some t => val (t_balance_ t)
      | None => chain_balance addr ps'
      end
  end.

(** Transactions whose amounts the additions of the program keep exact. *)
Definition amounts_ok (t : Transaction) : Prop := Amount_weak (t_amount_ t) ∧ Amount_weak (t_balance_ t).

Section BlockChainLaws.
Context {D : Type} {DB : Database D} {ready : D → Prop} {index : D → gmap byte_array Z}
  {blocks : D → gmap Z byte_array} {DL : DatabaseLaws D ready index blocks}.
Implicit Types (bc : BlockChain D) (ps : list Pool).

Lemma add_assign_units a b x y :
  Amount_weak a → Amount_weak b → Amount_of_units (val a) = Amount_of_units x →
  Amount_of_units (val b) = Amount_of_units y →
  Amount_weak (Amount_add_assign a b) ∧ Amount_of_units (val (Amount_add_assign a b)) = Amount_of_units (x + y).
Proof.
  intros Ha Hb Hx Hy. destruct (Amount_add_assign_weak a b Ha Hb) as [Hw ->]. split; [done|].
  etrans; [apply of_units_shift, Hx|]. rewrite (Z.add_comm x), (Z.add_comm x). by apply of_units_shift.
Qed.

Lemma last_sent_cons addr t ts :
  last_sent addr (t :: ts) = match last_sent addr ts with
                             | Some u => Some u
                             | None => if Address_eqb (t_source_ t) addr then Some t else None
                             end.
Proof.
  unfold last_sent. cbn [List.filter]. destruct (Address_eqb (t_source_ t) addr).
  - rewrite last_cons. by destruct (last (List.filter _ ts)).
  - by destruct (last (List.filter _ ts)).
Qed.

(** The outcome of the loop over the transactions [ts] that starts with [f] and [rb]. *)
Definition block_outcome (addr : byte_array) (ts : list Transaction) (x : Z) (f : bool) (rb : Amount)
    (s : Amount * bool * Amount) : Prop :=
  Amount_weak s.1.1 ∧ Amount_of_units (val s.1.1) = Amount_of_units (x + received addr ts) ∧
  match last_sent addr ts with
  | Some t => s.1.2 = true ∧ s.2 = t_balance_ t ∧ t ∈ ts
  | None => s.1.2 = f ∧ s.2 = rb
  end.

Lemma block_outcome_cons addr t ts x y f rb s :
  Address_eqb (t_source_ t) addr = false →
  (if Address_eqb (t_target_ t) addr then val (t_amount_ t) else 0) = y →
  block_outcome addr ts (x + y) f rb s → block_outcome addr (t :: ts) x f rb s.
Proof.
  intros Hs <- (Hw & Hu & Hl). split; [done|]. rewrite last_sent_cons. cbn. rewrite Hs. fold (received addr ts).
  split; [by rewrite Z.add_assoc|]. destruct (last_sent addr ts); [|done].
  destruct Hl as (? & ? & ?). split; [done|]. split; [done|]. by right.
Qed.

Lemma balance_fold addr ts r f rb x :
  Forall amounts_ok ts → Amount_weak r → Amount_of_units (val r) = Amount_of_units x →
  block_outcome addr ts x f rb (fold_left (balance_step addr) ts (r, f, rb)).
Proof.
  intros Hts. revert r f rb x. induction Hts as [|t ts [Ha _] _ IH]; intros r f rb x Hr Hx.
  { split; [done|]. cbn. by rewrite Z.add_0_r. }
  cbn [fold_left]. unfold balance_step at 2. destruct (Address_eqb (t_source_ t) addr) eqn:Hs.
  - destruct (IH r true (t_balance_ t) x Hr Hx) as (Hw & Hu & Hl). split; [done|].
    rewrite last_sent_cons. cbn [received foldr]. rewrite Hs. split; [done|].
    destruct (last_sent addr ts).
    + destruct Hl as (? & ? & ?). split; [done|]. split; [done|]. by right.
    + destruct Hl as (? & ?). split; [done|]. split; [done|]. by left.
  - destruct (Address_eqb (t_target_ t) addr) eqn:Ht.
    + destruct (add_assign_units r (t_amount_ t) x (val (t_amount_ t)) Hr Ha Hx eq_refl) as [Hw1 Hu1].
      eapply block_outcome_cons; [done|by rewrite Ht|]. by apply IH.
    + eapply block_outcome_cons; [done|by rewrite Ht|]. rewrite Z.add_0_r. by apply IH.
Qed.

(** Chains are determined by their last hash. *)
Lemma chain_det idx blk h ps ps' : chain idx blk h ps → chain idx blk h ps' → ps = ps'.
Proof.
  intros Hc. revert ps'. induction Hc as [h Hh|n b p ps Hn Hb Hf Hv Hcnt Hc IH]; intros ps' Hc'.
  - inversion Hc' as [|n b p ps Hn]; subst; [done|]. destruct Hh as [Hh|Hh]; [by destruct (calc_hash_not_nil b)|congruence].
  - inversion Hc' as [h Hh Heq|n' b' p' ps2 Hn' Hb' Hf' Hv' Hcnt' Hc2 Heq]; subst.
    + destruct Hh as [Hh|Hh]; [by destruct (calc_hash_not_nil b)|congruence].
    + rewrite Heq in Hn'. assert (n' = n) as -> by congruence. assert (b' = b) as -> by congruence.
      assert (p' = p) as -> by congruence. f_equal. by apply IH.
Qed.

(** A block is found under the hash it was stored with. *)
Lemma chain_hash idx blk h p ps : chain idx blk h (p :: ps) → p_hash_ p = h.
Proof.
  inversion 1 as [|n b q qs Hn Hb Hf Hv]; subst. by destruct (Pool_from_binary_sealed b p Hf Hv).
Qed.

Lemma chain_suffix idx blk h ps1 p ps2 :
  chain idx blk h (ps1 ++ p :: ps2) → chain idx blk (p_hash_ p) (p :: ps2).
Proof.
  revert h. induction ps1 as [|q ps1 IH]; intros h Hc.
  - by rewrite (chain_hash _ _ _ _ _ Hc).
  - inversion Hc; subst. by eapply IH.
Qed.

(** The walk meets the hash of a suffix only at the suffix. *)
Lemma chain_before idx blk h h2 p ps1 ps2 :
  chain idx blk h (p :: ps1 ++ ps2) → chain idx blk h2 ps2 → p_hash_ p ≠ h2.
Proof.
  intros Hc Hc2 <-. pose proof (chain_suffix idx blk h [] p _ Hc) as Hc1.
  pose proof (chain_det _ _ _ _ _ Hc1 Hc2) as E. apply (f_equal length) in E.
  cbn in E. rewrite length_app in E. lia.
Qed.

(** The state of the storage inside a [BlockChain]. *)
Definition bc_view idx blk lh bc : Prop := view (ready := ready) (index := index) (blocks := blocks) idx blk lh (bc_storage_ bc).

Lemma loadBlock_chain idx blk lh bc h ps :
  bc_view idx blk lh bc → chain idx blk h ps →
  ∃ curr st, loadBlock h bc = Ok (curr, assign_bc_storage st bc) ∧
    bc_view idx blk lh (assign_bc_storage st bc) ∧ at_chain idx blk curr ps.
Proof.
  intros Hv Hc. destruct (chain_load _ _ _ _ _ _ Hv Hc) as (curr & st & E & Hv' & Hat).
  exists curr, st. unfold loadBlock. by rewrite E, bind_Ok.
Qed.

Lemma Pool_hash_sealed p : Pool_sealed p → Pool_hash p = (p_hash_ p, p).
Proof.
  intros (_ & _ & Hh & _). unfold Pool_hash.
  assert (PoolHash_is_empty (p_hash_ p) = false) as -> by (rewrite Hh; apply calc_hash_nonempty). done.
Qed.

(** The amount that [getBalance] makes of the outcome of its loop. *)
Definition conclude (cached : Amount) (r : Amount * bool) : Amount :=
  if r.2 then r.1 else Amount_add_assign r.1 cached.

Lemma getBalance_loop_spec idx blk lh addr h2 cached ps1 ps2 fuel h curr acc x bc :
  bc_view idx blk lh bc → chain idx blk h (ps1 ++ ps2) → at_chain idx blk curr (ps1 ++ ps2) → chain idx blk h2 ps2 →
  (length ps1 < fuel)%nat → Forall (λ p, Forall amounts_ok (p_transactions_ p)) ps1 →
  Amount_weak acc → Amount_of_units (val acc) = Amount_of_units x →
  Amount_weak cached → Amount_of_units (val cached) = Amount_of_units (chain_balance addr ps2) →
  ∃ r st, getBalance_loop addr h2 fuel curr acc bc = Ok (Some r, assign_bc_storage st bc) ∧
    bc_view idx blk lh (assign_bc_storage st bc) ∧ Amount_weak (conclude cached r) ∧
    Amount_of_units (val (conclude cached r)) = Amount_of_units (x + chain_balance addr (ps1 ++ ps2)).
Proof.
  revert fuel h curr acc x bc. induction ps1 as [|p ps1 IH];
    intros [|fuel] h curr acc x bc Hv Hc Hat Hc2 Hf Hok Ha Hx Hw Hu; cbn in Hf; try lia; cbn [getBalance_loop app] in *.
  - destruct (add_assign_units acc cached x _ Ha Hw Hx Hu) as [Hw' Hu'].
    assert (let '(hash, c) := Pool_hash curr in p_is_valid_ c && negb (PoolHash_eqb hash h2) = false) as Hstop.
    { destruct ps2 as [|q ps2].
      - cbn in Hat. unfold Pool_hash. destruct (PoolHash_is_empty (p_hash_ curr)); cbn; by rewrite Hat.
      - destruct Hat as (-> & Hqv & Hs & _). rewrite (Pool_hash_sealed q Hs), (chain_hash _ _ _ _ _ Hc2).
        unfold PoolHash_eqb. by rewrite bytes_eqb_refl, andb_false_r. }
    destruct (Pool_hash curr) as [hash c]. rewrite Hstop.
    exists (acc, false), (bc_storage_ bc). destruct bc as [g c0 s0]. cbn. done.
  - pose proof Hat as (-> & Hpv & Hs & Hcnt & Hc'). rewrite (Pool_hash_sealed p Hs), Hpv.
    pose proof (chain_before _ _ _ _ _ _ _ Hc Hc2) as Hne.
    unfold PoolHash_eqb, bytes_eqb. rewrite (bool_decide_eq_false_2 (p_hash_ p = h2)) by done. cbn [negb andb].
    apply Forall_cons in Hok as [Hok1 Hok]. unfold balance_block. rewrite pool_fold by done.
    pose proof (balance_fold addr _ acc false Amount_zero x Hok1 Ha Hx) as (Hw1 & Hu1 & Hl). cbn [chain_balance].
    destruct (fold_left _ _ _) as [[r f] rb]. cbn [fst snd] in *.
    destruct (last_sent addr (p_transactions_ p)) as [t|].
    + destruct Hl as (-> & -> & Hin). rewrite Forall_forall in Hok1. destruct (Hok1 t Hin) as [_ Hb].
      destruct (add_assign_units r (t_balance_ t) _ _ Hw1 Hb Hu1 eq_refl) as [Hw' Hu'].
      exists (Amount_add_assign r (t_balance_ t), true), (bc_storage_ bc). destruct bc as [g c0 s0]. cbn.
      by rewrite Z.add_assoc.
    + destruct Hl as (-> & ->). cbv iota.
      destruct (loadBlock_chain _ _ _ _ _ _ Hv Hc') as (curr & st & E & Hv1 & Hat1). rewrite E, bind_Ok. cbv beta iota.
      destruct (IH fuel _ curr r _ _ Hv1 Hc' Hat1 Hc2 ltac:(lia) Hok Hw1 Hu1 Hw Hu) as (r' & st' & E' & Hv' & Hw' & Hu').
      exists r', st'. split; [exact E'|]. split; [exact Hv'|]. split; [done|]. by rewrite Z.add_assoc.
Qed.

(** The hash of the newest block. *)
Definition newest (ps : list Pool) : byte_array := match ps with [] => [] | p :: _ => p_hash_ p end.

(** Every entry of the cache has the balance as of some block of the chain. *)
Definition cache_ok ps (cache : list (byte_array * (byte_array * Amount))) : Prop :=
  map_sorted cache ∧
  ∀ addr h b, map_find addr cache = Some (h, b) → Amount_weak b ∧
    ∃ ps1 ps2, ps = ps1 ++ ps2 ∧ h = newest ps2 ∧
      Amount_of_units (val b) = Amount_of_units (chain_balance addr ps2).

Lemma cache_ok_extend qs ps cache : cache_ok ps cache → cache_ok (qs ++ ps) cache.
Proof.
  intros [Hs Hc]. split; [done|]. intros addr h b Hf. destruct (Hc addr h b Hf) as (Hw & ps1 & ps2 & -> & Hn & Hu).
  split; [done|]. exists (qs ++ ps1), ps2. by rewrite app_assoc.
Qed.

Lemma cache_ok_set ps cache addr b :
  cache_ok ps cache → Amount_weak b → Amount_of_units (val b) = Amount_of_units (chain_balance addr ps) →
  cache_ok ps (map_set addr (newest ps, b) cache).
Proof.
  intros [Hs Hc] Hw Hu. split; [by apply map_set_sorted|]. intros a h b' Hf.
  destruct (decide (a = addr)) as [->|Hne].
  - rewrite map_find_set_eq in Hf by done. injection Hf as <- <-. split; [done|]. by exists [], ps.
  - rewrite map_find_set_ne in Hf by done. by apply Hc.
Qed.

Lemma chain_newest idx blk h ps1 ps2 :
  chain idx blk h (ps1 ++ ps2) → chain idx blk (newest ps2) ps2.
Proof.
  destruct ps2 as [|p ps2]; [intros _; apply chain_end; by left|]. apply chain_suffix.
Qed.

Lemma getBalance_spec idx blk ps fuel addr bc :
  bc_view idx blk (newest ps) bc → chain idx blk (newest ps) ps → cache_ok ps (bc_balancesCache_ bc) →
  Forall (λ p, Forall amounts_ok (p_transactions_ p)) ps → (length ps < fuel)%nat →
  ∃ b bc', getBalance fuel addr bc = Ok (Some b, bc') ∧ Amount_weak b ∧
    Amount_of_units (val b) = Amount_of_units (chain_balance addr ps) ∧
    bc_view idx blk (newest ps) bc' ∧ ∀ qs, cache_ok (qs ++ ps) (bc_balancesCache_ bc').
Proof.
  intros Hv Hc Hcache Hok Hf.
  assert (∃ ps1 ps2 cached, ps = ps1 ++ ps2 ∧ Amount_weak cached ∧
    Amount_of_units (val cached) = Amount_of_units (chain_balance addr ps2) ∧
    match map_find addr (bc_balancesCache_ bc) with Some c => c | None => ([], Amount_zero) end = (newest ps2, cached))
    as (ps1 & ps2 & cached & -> & Hw & Hu & Ec).
  { destruct (map_find addr (bc_balancesCache_ bc)) as [[h b]|] eqn:Ef.
    - destruct Hcache as [_ Hcache]. destruct (Hcache _ _ _ Ef) as (Hw & ps1 & ps2 & -> & -> & Hu).
      by exists ps1, ps2, b.
    - exists ps, [], Amount_zero. rewrite app_nil_r. split; [done|]. split; [|done].
      change (Amount_weak (mkAmount 0 0)). amount_lia. }
  unfold getBalance, getLastHash. rewrite Ec, (proj1 Hv). pose proof (chain_newest _ _ _ _ _ Hc) as Hc2.
  match goal with |- context [if ?b then Ok (Some cached, bc) else _] => destruct b eqn:Hhit end.
  - assert (newest ps2 = newest (ps1 ++ ps2)) as Hn.
    { revert Hhit. destruct (map_find addr (bc_balancesCache_ bc)) as [c|]; [apply bytes_eqb_eq|done]. }
    rewrite Hn in Hc2. pose proof (chain_det _ _ _ _ _ Hc2 Hc) as Eq.
    exists cached, bc. rewrite <- Eq. do 3 (split; [done|]). split; [by rewrite Eq|].
    intros qs. apply cache_ok_extend. by rewrite Eq.
  - destruct (loadBlock_chain _ _ _ _ _ _ Hv Hc) as (curr & st & E & Hv1 & Hat). rewrite E, bind_Ok. cbv beta iota.
    assert (Amount_weak Amount_zero) as H0 by (change (Amount_weak (mkAmount 0 0)); amount_lia).
    apply Forall_app in Hok as [Hok1 _]. rewrite length_app in Hf.
    destruct (getBalance_loop_spec _ _ _ addr _ cached ps1 ps2 fuel _ curr Amount_zero 0 _ Hv1 Hc Hat Hc2
      ltac:(lia) Hok1 H0 eq_refl Hw Hu) as (r & st' & E' & Hv' & Hw' & Hu').
    rewrite E', bind_Ok. cbv beta iota. destruct r as [res f]. unfold conclude in Hw', Hu'. cbn [fst snd] in Hw', Hu'.
    rewrite Z.add_0_l in Hu'. do 2 eexists. split; [done|]. split; [done|]. split; [done|]. split; [exact Hv'|].
    intros qs. cbn. apply cache_ok_extend. by apply cache_ok_set.
Qed.

(** C2: the balance that [getBalance] returns, whatever its cache holds from
    earlier blocks of the chain, is the one the whole chain gives: the balance
    recorded with the last transaction the address sent, and what it received in
    that block and since.  The cache it leaves is good for every extension of the
    chain. *)
Theorem getBalance_correct idx blk ps fuel addr bc :
  bc_view idx blk (newest ps) bc → chain idx blk (newest ps) ps → cache_ok ps (bc_balancesCache_ bc) →
  Forall (λ p, Forall amounts_ok (p_transactions_ p)) ps → (length ps < fuel)%nat →
  ∃ b bc', getBalance fuel addr bc = Ok (Some b, bc') ∧ Amount_weak b ∧
    Amount_of_units (val b) = Amount_of_units (chain_balance addr ps) ∧
    bc_view idx blk (newest ps) bc' ∧ ∀ qs, cache_ok (qs ++ ps) (bc_balancesCache_ bc').
Proof. apply getBalance_spec. Qed.

(** ** Appending a block *)

(** The block that [writeLastBlock] makes of a pool. *)
Definition next_block (self : option nat) (lh : byte_array) (n : Z) (p : Pool) : Pool :=
  (Pool_compose (Pool_set_sequence n (Pool_set_previous_hash lh (Pool_set_storage self p)))).2.

Lemma next_block_spec self lh n p :
  Pool_ok p → p_read_only_ p = false → c_ok c_pool_hash lh → is_u64 n →
  let q := next_block self lh n p in
  storable q ∧ Pool_sealed q ∧ p_previous_hash_ q = lh ∧ p_sequence_ q = n ∧
  Transaction_clone <$> p_transactions_ q = Transaction_clone <$> p_transactions_ p.
Proof.
  intros (Hp & Hs & Hu & Ht & Hl & Hk & Hg) Hr Hlh Hn. unfold next_block, Pool_set_sequence, Pool_set_previous_hash.
  change (p_read_only_ (Pool_set_storage self p)) with (p_read_only_ p). rewrite Hr.
  change (p_read_only_ (assign_previous_hash lh (assign_is_valid true (Pool_set_storage self p)))) with (p_read_only_ p).
  rewrite Hr. set (q0 := assign_sequence _ _).
  assert (Pool_ok q0) as Hok by (unfold q0, Pool_ok; pool_fields; done).
  rewrite Pool_compose_valid by done. cbn [snd]. set (q1 := assign_binary_representation _ _).
  assert (Pool_sealed (Pool_update_transactions q1)) as Hse by by apply Pool_update_transactions_sealed.
  split; [|split; [done|split; [done|split; [done|]]]].
  - split; [by apply Pool_ok_update|]. split; [done|]. intros _. split; [done|]. by rewrite Pool_put_update.
  - unfold Pool_update_transactions. cbn. apply list_eq. intros i.
    rewrite !list_lookup_fmap, list_lookup_imap. by destruct (p_transactions_ p !! i).
Qed.
Lemma writeLastBlock_queues self p bc d :
  let st := bc_storage_ bc in
  let q := next_block self (s_last_hash st) (s_count_pool st) p in
  s_db st = Some d → ready d → Pool_ok p → p_read_only_ p = false →
  c_ok c_pool_hash (s_last_hash st) → is_u64 (s_count_pool st) → index d !! pool_key q = None →
  ∃ st' d', writeLastBlock self p bc = Ok (assign_bc_storage st' bc) ∧
    s_write_queue st' = s_write_queue st ++ [q] ∧ s_last_hash st' = s_last_hash st ∧
    s_count_pool st' = s_count_pool st ∧ s_db st' = Some d' ∧ ready d' ∧ index d' = index d ∧ blocks d' = blocks d.
Proof.
  intros st q Hd Hr Hok Hro Hlh Hn Hfresh.
  destruct (next_block_spec self (s_last_hash st) (s_count_pool st) p Hok Hro Hlh Hn) as ((Hq & Hv & Hcon) & Hse & _).
  fold q in Hq, Hv, Hcon, Hse. pose proof Hse as (_ & Hsr & Hh & _). destruct (Hcon Hsr) as [_ Hb].
  assert (p_hash_ q = pool_key q) as Hkey by (unfold pool_key; by rewrite Hh, Hb).
  destruct (db_exists_spec (PoolHash_to_binary (p_hash_ q)) d Hr) as (d' & E & Hr' & Hi' & Hb').
  unfold writeLastBlock. fold st. unfold q, next_block in *. destruct (Pool_compose _) as [ok q']. cbn [snd] in *.
  unfold Pool_save. rewrite Hv. unfold Storage_isOpen. rewrite Hd, (db_ready_open d Hr). cbn [negb].
  assert (PoolHash_is_empty (p_hash_ q') = false) as He by (rewrite Hh; apply calc_hash_nonempty). rewrite He.
  unfold Storage_pool_save. rewrite Hd, (db_ready_open d Hr), Hv, (Pool_hash_sealed q' Hse). cbn [negb].
  rewrite E, bind_Ok. unfold PoolHash_to_binary. rewrite Hkey, Hfresh. cbv beta iota zeta.
  rewrite bool_decide_eq_false_2 by (by intros [? ?]).
  do 2 eexists. split; [done|]. done.
Qed.

(** C4: appending an unsealed pool to a storage with an empty queue, and letting
    the writer run, when the hash and the record number of the new block are not in
    use.  The last hash and the count move to the new block; the chain that was
    stored stays.  If the database accepts the write, the chain is extended by a
    block with the transactions of the pool, linked to the last block and numbered
    by the size of the chain; if it refuses, nothing is reached from the last hash
    any more. *)
Theorem writeLastBlock_extends self p bc d ps :
  let st := bc_storage_ bc in
  let q := next_block self (s_last_hash st) (s_count_pool st) p in
  s_db st = Some d → ready d → s_write_queue st = [] →
  chain (index d) (blocks d) (s_last_hash st) ps →
  Pool_ok p → p_read_only_ p = false → few_transactions p →
  c_ok c_pool_hash (s_last_hash st) → is_u64 (s_count_pool st) →
  index d !! pool_key q = None → blocks d !! pool_number q = None → pool_key q ≠ tail_of (s_last_hash st) ps →
  ∃ bc' st' d' b, writeLastBlock self p bc = Ok bc' ∧ Storage_write_drain (bc_storage_ bc') = Ok st' ∧
    view (ready := ready) (index := index) (blocks := blocks) (index d') (blocks d') (s_last_hash st') st' ∧
    s_last_hash st' = pool_key q ∧ s_count_pool st' = u64 (s_count_pool st + 1) ∧
    chain (index d') (blocks d') (s_last_hash st) ps ∧
    chain (index d') (blocks d') (s_last_hash st') (if put_result q (bc_storage_ bc') then b :: ps else []) ∧
    p_previous_hash_ b = s_last_hash st ∧ p_sequence_ b = s_count_pool st ∧
    Transaction_clone <$> p_transactions_ b = Transaction_clone <$> p_transactions_ p.
Proof.
  intros st q Hd Hr Hempty Hc Hok Hro Hfew Hlh Hn Hf1 Hf2 Hf3.
  destruct (next_block_spec self (s_last_hash st) (s_count_pool st) p Hok Hro Hlh Hn)
    as (Hst & Hse & Hprev & Hseq & Hts). fold q in Hst, Hse, Hprev, Hseq, Hts.
  destruct (writeLastBlock_queues self p bc d Hd Hr Hok Hro Hlh Hn Hf1)
    as (st1 & d1 & E1 & Hq1 & Hl1 & Hc1 & Hd1 & Hr1 & Hi1 & Hb1). fold st in Hq1, Hl1, Hc1. fold q in Hq1.
  rewrite Hempty in Hq1. cbn in Hq1.
  assert (few_transactions q) as Hfq.
  { apply (f_equal length) in Hts. rewrite !length_fmap in Hts. unfold few_transactions. by rewrite Hts. }
  destruct (write_loop_extends [q] st1 d1 ps) as (st' & d' & E & _ & Hcnt & Hlast & Hv & Hup & Hdown); try done.
  - by rewrite Hl1, Hi1, Hb1.
  - by constructor.
  - by constructor.
  - split; [by rewrite Hl1|done].
  - apply NoDup_singleton.
  - apply NoDup_singleton.
  - intros x [->|Hx%elem_of_nil]%elem_of_cons; [|done]. by rewrite Hl1, Hi1, Hb1.
  - exists (assign_bc_storage st1 bc), st', d', (loaded q). split; [done|]. cbn [bc_storage_ assign_bc_storage].
    split; [unfold Storage_write_drain; by rewrite Hq1|]. split; [done|]. split; [done|].
    split; [rewrite Hcnt; cbn; by rewrite Hc1|]. split; [rewrite <- Hl1; by apply (Hup [] [q])|]. split.
    + cbn [put_results] in Hup, Hdown. destruct (put_result q st1).
      * rewrite Hlast. apply (Hup [q] []); [done|]. by constructor.
      * apply (Hdown [] q []); [done|done|]. cbn [length drop]. destruct (Storage_write_one q st1); constructor.
    + unfold loaded, writer_pool. rewrite (proj1 (proj2 Hse)). cbn [negb]. by rewrite (Pool_hash_sealed q Hse).
Qed.

(** Two blocks appended before the writer runs have the same predecessor and
    the same record number: the second one replaces the first. *)
Lemma writeLastBlock_collides self p1 p2 bc bc1 bc2 d :
  let st := bc_storage_ bc in
  let q := next_block self (s_last_hash st) (s_count_pool st) in
  s_db st = Some d → ready d → s_write_queue st = [] → Pool_ok p1 → Pool_ok p2 →
  p_read_only_ p1 = false → p_read_only_ p2 = false →
  c_ok c_pool_hash (s_last_hash st) → is_u64 (s_count_pool st) →
  index d !! pool_key (q p1) = None → index d !! pool_key (q p2) = None →
  writeLastBlock self p1 bc = Ok bc1 → writeLastBlock self p2 bc1 = Ok bc2 →
  s_write_queue (bc_storage_ bc2) = [q p1; q p2] ∧ p_previous_hash_ (q p1) = p_previous_hash_ (q p2) ∧
  pool_number (q p1) = pool_number (q p2).
Proof.
  intros st q Hd Hr He Ho1 Ho2 Hr1 Hr2 Hlh Hn Hf1 Hf2 E1 E2.
  destruct (writeLastBlock_queues self p1 bc d Hd Hr Ho1 Hr1 Hlh Hn Hf1)
    as (st1 & d1 & E1' & Hq1 & Hl1 & Hc1 & Hd1 & Hrd1 & Hi1 & _).
  rewrite E1 in E1'. injection E1' as ->. fold st in Hl1, Hc1, Hq1.
  destruct (writeLastBlock_queues self p2 (assign_bc_storage st1 bc) d1) as (st2 & d2 & E2' & Hq2 & _);
    cbn [bc_storage_ assign_bc_storage]; rewrite ?Hl1, ?Hc1, ?Hi1; try done.
  cbn [bc_storage_ assign_bc_storage] in E2', Hq2. rewrite E2 in E2'. injection E2' as ->. cbn.
  rewrite Hl1, Hc1 in Hq2. rewrite Hq2, Hq1, He.
  destruct (next_block_spec self (s_last_hash st) (s_count_pool st) p1 Ho1 Hr1 Hlh Hn) as (_ & _ & H1 & H2 & _).
  destruct (next_block_spec self (s_last_hash st) (s_count_pool st) p2 Ho2 Hr2 Hlh Hn) as (_ & _ & H3 & H4 & _).
  split; [done|]. unfold pool_number, q. by rewrite H1, H2, H3, H4.
Qed.

End BlockChainLaws.

(** ** Examples *)

Definition mem_chain_bc : BlockChain _ := mkBlockChain true [] mem_stored.

Lemma mem_newest : newest mem_chain_pools = mem_last.
Proof. vm_compute. reflexivity. Qed.

Lemma mem_amounts_ok : Forall (λ p, Forall amounts_ok (p_transactions_ p)) mem_chain_pools.
Proof.
  assert (Forall (λ p, Forall (λ t, t_amount_ t = t_amount_ (sample_transaction []) ∧
            t_balance_ t = t_balance_ (sample_transaction [])) (p_transactions_ p)) mem_chain_pools) as H
    by (apply (bool_decide_unpack _); vm_compute; exact I).
  eapply Forall_impl; [exact H|]. intros p Hp. eapply Forall_impl; [exact Hp|]. unfold amounts_ok.
  intros t [-> ->]. split; apply Amount_ok_weak, (bool_decide_unpack _); vm_compute; exact I.
Qed.

Lemma getBalance_correct_witness :
  ∃ b bc', @getBalance _ mem_database 3 sample_address mem_chain_bc = Ok (Some b, bc') ∧
    Amount_of_units (val b) = Amount_of_units (chain_balance sample_address mem_chain_pools).
Proof.
  destruct (@getBalance_correct _ mem_database Bdb_ready (Bdb_index id)
    (Bdb_blocks id) mem_database_laws mem_index mem_blocks mem_chain_pools 3 sample_address mem_chain_bc)
    as (b & bc' & E & _ & Hu & _).
  - rewrite mem_newest. exact mem_view.
  - rewrite mem_newest. exact mem_chain.
  - split; [constructor|]. intros addr h b [=].
  - exact mem_amounts_ok.
  - vm_compute. lia.
  - exists b, bc'. split; [exact E|exact Hu].
Defined.

Lemma writeLastBlock_extends_witness :
  ∃ bc' st', @writeLastBlock _ mem_database None genesis_pool (mkBlockChain true [] (mem_storage []))
             = Ok bc' ∧
    @Storage_write_drain _ mem_database (bc_storage_ bc') = Ok st' ∧ s_count_pool st' = 1.
Proof.
  destruct (@writeLastBlock_extends _ mem_database Bdb_ready (Bdb_index id)
    (Bdb_blocks id) mem_database_laws None genesis_pool (mkBlockChain true [] (mem_storage [])) mem_empty []
    eq_refl mem_ready eq_refl) as (bc' & st' & d' & b & E1 & E2 & _ & _ & Hc & _).
  - apply chain_end. by left.
  - apply genesis_storable.
  - reflexivity.
  - reflexivity.
  - split; [constructor|reflexivity].
  - split; [discriminate|reflexivity].
  - reflexivity.
  - reflexivity.
  - vm_compute. discriminate.
  - exists bc', st'. split; [exact E1|]. split; [exact E2|]. rewrite Hc. reflexivity.
Defined.
