(* ===== verification/Api.v ===== *)
(** * Api: the queries of the wallet service

    [api/src/APIHandler.cpp] without smart contracts, which are in [Contracts]:
    balances, transactions, blocks.  The structures of the service are those of
    [thrift-interface-definitions/api.thrift].  A handler reads the chain through
    [Blockchain]; what it logs is left out.  Its assertions are those of a build
    that has them. *)

From S2P Require Import Prelude Blake2 Hex StdMap Streams Format Amount Values Transaction Pool Database Storage Chain Blockchain.

(** ** The structures of the service *)

Record api_Amount := mkApiAmount { aa_integral : Z; aa_fraction : Z }.

Record SmartContract := mkSmartContract {
  sc_address : byte_array;
  sc_sourceCode : byte_array;
  sc_byteCode : byte_array;
  sc_contractState : byte_array;
  sc_hashState : byte_array;
  sc_method : byte_array;
  sc_params : list byte_array;
}.

Definition SmartContract_default : SmartContract := mkSmartContract [] [] [] [] [] [] [].

Record api_Transaction := mkApiTransaction {
  at_innerId : byte_array;
  at_source : byte_array;
  at_target : byte_array;
  at_amount : api_Amount;
  at_balance : api_Amount;
  at_currency : byte_array;
  at_smartContract : SmartContract;
}.

Record api_Pool := mkApiPool {
  ap_hash : byte_array;
  ap_prevHash : byte_array;
  ap_time : Z;
  ap_transactionsCount : Z;
  ap_poolNumber : Z;
}.

Definition api_Pool_default : api_Pool := mkApiPool [] [] 0 0 0.

Record APIResponse := mkAPIResponse { r_code : Z; r_message : byte_array }.

(** ** Responses *)

Inductive APIRequestStatusType := SUCCESS | FAILURE | NOT_IMPLEMENTED.

(** [SetResponseStatus] *)
Definition SetResponseStatus (status : APIRequestStatusType) (details : byte_array) : APIResponse :=
  match status with
  | SUCCESS => mkAPIResponse 0 (str "Success" ++ details)
  | FAILURE => mkAPIResponse 1 (str "Failure" ++ details)
  | NOT_IMPLEMENTED => mkAPIResponse 2 (str "Not Implemented" ++ details)
  end.

Definition SetResponseHandled (commandWasHandled : bool) : APIResponse :=
  SetResponseStatus (if commandWasHandled then SUCCESS else NOT_IMPLEMENTED) [].

(** ** Numbers in text *)

(** The sign and the digits that [strtol] and [strtoll] read after white space:
    the value, and whether there was a digit. *)
Definition read_signed (s : byte_array) : option Z :=
  let s1 := skip_space s in
  let '(neg, s2) := match s1 with
                    | c :: s' => if c =? 45 then (true, s') else if c =? 43 then (false, s') else (false, s1)
                    | [] => (false, s1)
                    end in
  let '(v, rest) := read_digits 10 0 s2 in
  if (length rest =? length s2)%nat then None else Some (if neg : bool then - v else v).

(** [std::stoi] *)
Definition stoi (s : byte_array) : result Z :=
  match read_signed (c_str s) with
  | None => Throw invalid_argument
  | Some v => if (- 2 ^ 31 <=? v) && (v <? 2 ^ 31) then Ok v else Throw out_of_range
  end.

(** [atoll] on a C string: no number is zero, and a number out of range the
    nearest one in it. *)
Definition atoll (s : byte_array) : Z :=
  match read_signed s with
  | None => 0
  | Some v => Z.max (- 2 ^ 63) (Z.min v (2 ^ 63 - 1))
  end.

(** ** Conversions *)

(** [convertStringToID]: the hash in its text form, and the index. *)
Definition convertStringToID (data : byte_array) : result (byte_array * Z) :=
  let hash_size := 64%nat in
  let PoolHash := take hash_size data in
  if (hash_size + 1 <? length data)%nat then
    index ← stoi (drop (hash_size + 1) data);
    Ok (PoolHash, u64 index)
  else Ok (PoolHash, 0).

(** The fraction goes from 64 bits without a sign to 64 bits with one. *)
Definition convertAmount (amount : Amount) : result api_Amount :=
  let fraction := i64 (fraction_ amount) in
  if fraction <? 0 then Throw assertion_failed else Ok (mkApiAmount (integral_ amount) fraction).

Definition convertTransaction (transaction : Transaction) : result api_Transaction :=
  amount ← convertAmount (t_amount_ transaction);
  Ok (mkApiTransaction (TransactionID_to_string (t_id_ transaction)) (Address_to_string (t_source_ transaction))
    (Address_to_string (t_target_ transaction)) amount (mkApiAmount 0 0)
    (Currency_to_string (t_currency_ transaction)) SmartContract_default).

Fixpoint convertTransactions (transactions : list Transaction) : result (list api_Transaction) :=
  match transactions with
  | [] => Ok []
  | transaction :: transactions =>
      t ← convertTransaction transaction;
      ts ← convertTransactions transactions;
      Ok (t :: ts)
  end.

(** [convertPool(const csdb::Pool&)] *)
Definition convertPool (pool : Pool) : result api_Pool :=
  if p_is_valid_ pool then
    let '(hash, pool) := Pool_hash pool in
    let poolNumber := i64 (p_sequence_ pool) in
    if poolNumber <? 0 then Throw assertion_failed
    else Ok (mkApiPool (PoolHash_to_string hash) (PoolHash_to_string (p_previous_hash_ pool))
      (atoll (c_str (UserField_value_string (Pool_user_field 0 pool))))
      (i32 (p_transactionsCount_ pool)) poolNumber)
  else Ok api_Pool_default.

(** The loop of [extractTransactions], over the indices from [index] on. *)
Fixpoint extract_loop (pool : Pool) (n : nat) (index : Z) : result (list api_Transaction) :=
  match n with
  | O => Ok []
  | S n =>
      t ← convertTransaction (Pool_transaction pool (u64 index));
      ts ← extract_loop pool n (index + 1);
      Ok (t :: ts)
  end.

(** A number of 64 bits, unless the operation that gives it overflows. *)
Definition int64 (v : Z) : result Z :=
  if (- 2 ^ 63 <=? v) && (v <? 2 ^ 63) then Ok v else Throw undefined_behaviour.

Definition extractTransactions (pool : Pool) (limit offset : Z) : result (list api_Transaction) :=
  let transactionsCount := i64 (p_transactionsCount_ pool) in
  if transactionsCount <? 0 then Throw assertion_failed
  else if transactionsCount <? offset then Ok []
  else
    transactionsCount ← int64 (transactionsCount - offset);
    let limit := if transactionsCount <? limit then transactionsCount else limit in
    last ← int64 (offset + limit);
    extract_loop pool (Z.to_nat (last - offset)) offset.

(** ** The handler *)

Section Handler.
Context {D : Type} `{!Database D}.

(** The state of [APIHandler] that the queries use; the chain is shared with the
    node. *)
Record APIHandler := mkAPIHandler {
  h_blockchain : BlockChain D;
  h_poolCache : list (byte_array * api_Pool);
}.

Definition assign_blockchain (bc : BlockChain D) (h : APIHandler) : APIHandler := mkAPIHandler bc (h_poolCache h).
Definition assign_poolCache (c : list (byte_array * api_Pool)) (h : APIHandler) : APIHandler :=
  mkAPIHandler (h_blockchain h) c.

(** The address of a request: a key in text, or 64 hexadecimal digits. *)
Definition request_address (address : byte_array) : result byte_array :=
  if negb (length address =? 64)%nat then getAddressFromKey (address ++ [0])
  else Ok (Address_from_string address).

Record BalanceGetResult := mkBalanceGetResult { bg_status : APIResponse; bg_amount : api_Amount }.

(** [BalanceGet]; [fuel] is for the walk of [getBalance]. *)
Definition BalanceGet (fuel : nat) (address : byte_array) (h : APIHandler) : result (option BalanceGetResult * APIHandler) :=
  addr ← request_address address;
  '(result, bc) ← getBalance fuel addr (h_blockchain h);
  let h := assign_blockchain bc h in
  match (result : option Amount) with
  | None => Ok (None, h)
  | Some result => Ok (Some (mkBalanceGetResult (SetResponseStatus SUCCESS [])
        (mkApiAmount (integral_ result) (i64 (fraction_ result)))), h)
  end.

Record TransactionGetResult := mkTransactionGetResult {
  tg_status : APIResponse;
  tg_found : bool;
  tg_transaction : option api_Transaction;
}.

(** [TransactionGet]; the transaction of the result is set when it was found. *)
Definition TransactionGet (transactionId : byte_array) (h : APIHandler) : result (TransactionGetResult * APIHandler) :=
  '(hash, index) ← convertStringToID transactionId;
  let poolhash := PoolHash_from_string hash in
  '(transaction, bc) ← loadTransaction (mkTransactionID poolhash index) (h_blockchain h);
  if Transaction_is_valid transaction then
    t ← convertTransaction transaction;
    Ok (mkTransactionGetResult (SetResponseStatus SUCCESS []) true (Some t), assign_blockchain bc h)
  else Ok (mkTransactionGetResult (SetResponseStatus SUCCESS []) false None, assign_blockchain bc h).

(** The loop of [TransactionsGet] over the transactions of a block, from the index
    [curIdx] down: the transactions so far and the offset, which is decremented
    also below zero. *)
Fixpoint block_matches (addr : byte_array) (limit : Z) (curr : Pool) (curIdx : nat)
    (s : list Transaction * Z) : result (list Transaction * Z) :=
  let trans := Pool_transaction curr (Z.of_nat curIdx) in
  s ← (if Address_eqb (t_target_ trans) addr || Address_eqb (t_source_ trans) addr
       then if s.2 =? 0 then Ok (s.1 ++ [trans], s.2) else (offset ← int64 (s.2 - 1); Ok (s.1, offset))
       else Ok s);
  if Z.of_nat (length s.1) =? u64 limit then Ok s
  else match curIdx with
       | O => Ok s
       | S curIdx => block_matches addr limit curr curIdx s
       end.

(** The loop over the blocks. *)
Fixpoint matches_loop (addr : byte_array) (limit : Z) (fuel : nat) (curr : Pool) (s : list Transaction * Z)
    (bc : BlockChain D) : result (option (list Transaction) * BlockChain D) :=
  match fuel with
  | O => Ok (None, bc)
  | S fuel =>
      if p_is_valid_ curr then
        s ← (if p_transactionsCount_ curr =? 0 then Ok s
             else block_matches addr limit curr (Z.to_nat (p_transactionsCount_ curr - 1)) s);
        if Z.of_nat (length s.1) =? u64 limit then Ok (Some s.1, bc)
        else
          '(curr, bc) ← loadBlock (p_previous_hash_ curr) bc;
          matches_loop addr limit fuel curr s bc
      else Ok (Some s.1, bc)
  end.

Record TransactionsGetResult := mkTransactionsGetResult {
  tsg_status : APIResponse;
  tsg_transactions : list api_Transaction;
}.

(** [TransactionsGet] *)
Definition TransactionsGet (fuel : nat) (address : byte_array) (offset limit : Z) (h : APIHandler)
    : result (option TransactionsGetResult * APIHandler) :=
  addr ← request_address address;
  '(curr, bc) ← loadBlock (getLastHash (h_blockchain h)) (h_blockchain h);
  '(transactions, bc) ← matches_loop addr limit fuel curr ([], offset) bc;
  let h := assign_blockchain bc h in
  match (transactions : option (list Transaction)) with
  | None => Ok (None, h)
  | Some transactions =>
      transactions ← convertTransactions transactions;
      Ok (Some (mkTransactionsGetResult (SetResponseStatus SUCCESS []) transactions), h)
  end.

(** One step of the loop of [PoolListGet]: the block with the hash [hash] is number
    [it], counted from the first one. *)
Fixpoint pool_list_loop (sequence offset : Z) (n : nat) (it : Z) (hash : byte_array) (pools : list api_Pool)
    (h : APIHandler) : result (list api_Pool * APIHandler) :=
  match n with
  | O => Ok (pools, h)
  | S n =>
      match map_find hash (h_poolCache h) with
      | None =>
          '(pool, bc) ← loadBlock hash (h_blockchain h);
          apiPool ← convertPool pool;
          let pools := if it <=? sequence - Z.min sequence (u64 offset) then pools ++ [apiPool] else pools in
          let h := mkAPIHandler bc (map_emplace hash apiPool (h_poolCache h)) in
          pool_list_loop sequence offset n (it - 1) (p_previous_hash_ pool) pools h
      | Some cached =>
          pool_list_loop sequence offset n (it - 1) (PoolHash_from_string (ap_prevHash cached)) (pools ++ [cached]) h
      end
  end.

(** [PoolListGet]; it sets no status. *)
Definition PoolListGet (offset const_limit : Z) (h : APIHandler) : result (list api_Pool * APIHandler) :=
  let offset := if 100 <? offset then 100 else offset in
  let const_limit := if 100 <? const_limit then 100 else const_limit in
  if const_limit <? 0 then Throw length_error
  else
    let hash := getLastHash (h_blockchain h) in
    let sequence := getSize (h_blockchain h) in
    let lower := sequence - Z.min sequence (u64 (offset + const_limit)) in
    pool_list_loop sequence offset (Z.to_nat (sequence - lower)) sequence hash [] h.

Record PoolTransactionsGetResult := mkPoolTransactionsGetResult {
  pt_status : APIResponse;
  pt_transactions : list api_Transaction;
}.

(** [PoolTransactionsGet] *)
Definition PoolTransactionsGet (hash : byte_array) (offset limit : Z) (h : APIHandler)
    : result (PoolTransactionsGetResult * APIHandler) :=
  '(pool, bc) ← loadBlock (PoolHash_from_string hash) (h_blockchain h);
  ts ← (if p_is_valid_ pool then extractTransactions pool limit offset else Ok []);
  Ok (mkPoolTransactionsGetResult (SetResponseStatus SUCCESS []) ts, assign_blockchain bc h).

Record PoolInfoGetResult := mkPoolInfoGetResult {
  pi_status : APIResponse;
  pi_isFound : bool;
  pi_pool : option api_Pool;
}.

(** [PoolInfoGet]; [convertPool(const csdb::PoolHash&)] loads the block again. *)
Definition PoolInfoGet (hash : byte_array) (h : APIHandler) : result (PoolInfoGetResult * APIHandler) :=
  let poolHash := PoolHash_from_string hash in
  '(pool, bc) ← loadBlock poolHash (h_blockchain h);
  if p_is_valid_ pool then
    '(pool, bc) ← loadBlock poolHash bc;
    apiPool ← convertPool pool;
    Ok (mkPoolInfoGetResult (SetResponseStatus SUCCESS []) true (Some apiPool), assign_blockchain bc h)
  else Ok (mkPoolInfoGetResult (SetResponseStatus SUCCESS []) false None, assign_blockchain bc h).

(** [NodesInfoGet] *)
Definition NodesInfoGet : APIResponse := SetResponseStatus NOT_IMPLEMENTED [].

End Handler.
Arguments APIHandler : clear implicits.

(** ** Pages of transactions *)

Section ApiLaws.
Context {D : Type} {DB : Database D} {ready : D → Prop} {index : D → gmap byte_array Z}
  {blocks : D → gmap Z byte_array} {DL : DatabaseLaws D ready index blocks}.
Implicit Types (h : APIHandler D) (bc : BlockChain D) (ps : list Pool).

Abbreviation bc_at := (bc_view (ready := ready) (index := index) (blocks := blocks)).

(** The page that a request asks for. *)
Definition page {A} (offset limit : Z) (l : list A) : list A := take (Z.to_nat limit) (drop (Z.to_nat offset) l).

(** What one match does to the transactions so far and the offset. *)
Definition matched (t : Transaction) (s : list Transaction * Z) : result (list Transaction * Z) :=
  if s.2 =? 0 then Ok (s.1 ++ [t], s.2) else (offset ← int64 (s.2 - 1); Ok (s.1, offset)).

Definition full (limit : Z) (s : list Transaction * Z) : Prop := Z.of_nat (length s.1) = u64 limit.

(** A description of the two loops: [G F s] is the state after the matches [F], from
    the state [s]; [open n s] says that [s] is not full and has room for [n] matches.
    A match gives an open state, or a full one that nothing changes. *)
Record scan_law (limit : Z) (G : list Transaction → list Transaction * Z → list Transaction * Z)
    (open : nat → list Transaction * Z → Prop) : Prop := {
  scan_open n s : open n s → ¬ full limit s;
  scan_nil n s : open n s → G [] s = s;
  scan_app n s F1 F2 : open n s → G F2 (G F1 s) = G (F1 ++ F2) s;
  scan_step n s t : open (S n) s → matched t s = Ok (G [t] s) ∧
    (open n (G [t] s) ∨ full limit (G [t] s) ∧ ∀ F, G F (G [t] s) = G [t] s);
}.

Lemma int64_id v : is_i64 v → int64 v = Ok v.
Proof.
  intros H. unfold int64. destruct (Z.leb_spec (- 2 ^ 63) v), (Z.ltb_spec v (2 ^ 63)); try done; unfold_widths; lia.
Qed.

(** A page with a limit: the state after the matches [F]. *)
Definition gathered_page (limit : Z) (F : list Transaction) (s : list Transaction * Z) : list Transaction * Z :=
  (s.1 ++ take (Z.to_nat (limit - Z.of_nat (length s.1))) (drop (Z.to_nat s.2) F),
   Z.max 0 (s.2 - Z.of_nat (length F))).

Lemma scan_page limit :
  0 < u64 limit → scan_law limit (gathered_page (u64 limit))
    (λ _ s, is_i64 s.2 ∧ 0 <= s.2 ∧ Z.of_nat (length s.1) < u64 limit).
Proof.
  intros Hl. split; unfold full; set (lim := u64 limit) in *; clearbody lim.
  - intros _ s (_ & _ & H). lia.
  - intros _ s (_ & H & _). unfold gathered_page. rewrite drop_nil, take_nil, app_nil_r. destruct s. cbn in *. f_equal. lia.
  - intros _ s F1 F2 (_ & H & Hs). unfold gathered_page. destruct s as [acc off]. cbn [fst snd] in *.
    rewrite !length_app, length_take, length_drop, drop_app, <- app_assoc. f_equal; [|lia]. f_equal.
    rewrite take_app, length_drop. do 2 f_equal; [lia|]. f_equal. lia.
  - intros _ s t (Hi & H0 & Hs). unfold matched, gathered_page. destruct s as [acc off]. cbn [fst snd length] in *.
    destruct (Z.eqb_spec off 0) as [-> |Hne].
    + rewrite drop_0, take_ge by (cbn; lia). split; [f_equal; f_equal; lia|]. cbn [fst snd]. rewrite !length_app. cbn [length].
      destruct (Z.eq_dec (Z.of_nat (length acc + 1)) lim) as [E|]; [right|left; split; [unfold_widths; lia|split; lia]].
      split; [lia|]. intros F. rewrite E, Z.sub_diag, take_0, app_nil_r. f_equal. lia.
    + rewrite int64_id, bind_Ok by (unfold_widths; lia). rewrite drop_ge, take_nil, app_nil_r by (cbn; lia).
      split; [f_equal; f_equal; lia|]. left. cbn [fst snd]. split; [unfold_widths; lia|split; lia].
Qed.

(** Without a limit that is reached every match is taken. *)
Lemma scan_all : scan_law 0 (λ F s, (s.1 ++ F, s.2)) (λ _ s, s.2 = 0 ∧ s.1 ≠ []).
Proof.
  split; unfold full.
  - intros _ [[|] ?] [_ H] E; cbn in *; [done|]. change (u64 0) with 0 in E. lia.
  - intros _ s _. rewrite app_nil_r. by destruct s.
  - intros _ s F1 F2 _. cbn. by rewrite <- app_assoc.
  - intros _ s t [E Hs]. unfold matched. rewrite E. split; [done|]. left. cbn. split; [done|]. by destruct s.1.
Qed.

(** Below zero the offset is only decremented. *)
Lemma scan_below limit :
  u64 limit ≠ 0 → scan_law limit (λ F s, (s.1, s.2 - Z.of_nat (length F)))
    (λ n s, s.1 = [] ∧ - 2 ^ 63 + Z.of_nat n <= s.2 < 0).
Proof.
  intros Hl. split; unfold full.
  - intros _ s [-> _]. cbn. lia.
  - intros _ [acc off] _. cbn. f_equal. lia.
  - intros _ s F1 F2 _. cbn. rewrite length_app. f_equal. lia.
  - intros n s t [E Hs]. unfold matched. rewrite (proj2 (Z.eqb_neq _ _)), int64_id by (unfold_widths; lia).
    rewrite bind_Ok. split; [done|]. left. cbn. split; [done|lia].
Qed.

(** The test for a match, as the source writes it. *)
Lemma match_involves addr t :
  Address_eqb (t_target_ t) addr || Address_eqb (t_source_ t) addr = involves addr t.
Proof. apply orb_comm. Qed.

Lemma filter_cons_app {A} (f : A → bool) x l : List.filter f (x :: l) = List.filter f [x] ++ List.filter f l.
Proof. cbn. by destruct (f x). Qed.

(** One transaction, whether it matches or not. *)
Lemma scan_one limit G open addr t n s :
  scan_law limit G open → let F := List.filter (involves addr) [t] in open (length F + n)%nat s →
  (if Address_eqb (t_target_ t) addr || Address_eqb (t_source_ t) addr then matched t s else Ok s) = Ok (G F s) ∧
  (open n (G F s) ∨ full limit (G F s) ∧ ∀ F', G F' (G F s) = G F s).
Proof.
  intros L. cbv zeta. rewrite match_involves. cbn [List.filter]. destruct (involves addr t); cbn [length Nat.add]; intros Ho.
  - by apply (scan_step _ _ _ L).
  - rewrite (scan_nil _ _ _ L _ _ Ho). split; [done|by left].
Qed.

Lemma block_matches_spec limit G open addr curr k n s :
  scan_law limit G open → (k < length (p_transactions_ curr))%nat →
  let F := List.filter (involves addr) (rev (take (S k) (p_transactions_ curr))) in
  open (length F + n)%nat s →
  block_matches addr limit curr k s = Ok (G F s) ∧
  (open n (G F s) ∨ full limit (G F s) ∧ ∀ F', G (F ++ F') s = G F s).
Proof.
  intros L. cbv zeta. revert s. induction k as [|k IH]; intros s Hk Ho;
    destruct (lookup_lt_is_Some_2 _ _ Hk) as [t Ht]; cbn [block_matches];
    rewrite (Pool_transaction_lookup _ _ _ Ht); fold (matched t s);
    rewrite (rev_take_S _ _ _ Ht), filter_cons_app, ?length_app in *.
  - rewrite take_0 in *. cbn [rev List.filter length] in Ho |- *. rewrite app_nil_r, Nat.add_0_r in *.
    destruct (scan_one limit G open addr t n s L Ho) as [-> Hor]. rewrite bind_Ok.
    split; [by destruct (_ =? _)|]. destruct Hor as [?|[Hf Hg]]; [by left|right]. split; [done|].
    intros F'. by rewrite <- (scan_app _ _ _ L _ _ _ _ Ho), Hg.
  - rewrite <- Nat.add_assoc in Ho. pose proof Ho as Ho'.
    destruct (scan_one limit G open addr t _ s L Ho) as [-> Hor]. rewrite bind_Ok.
    destruct Hor as [Hop|[Hf Hg]].
    + pose proof (scan_open _ _ _ L _ _ Hop) as Hnf. rewrite (proj2 (Z.eqb_neq _ _)) by exact Hnf.
      destruct (IH _ ltac:(lia) Hop) as [-> Hor']. rewrite <- (scan_app _ _ _ L _ _ _ _ Ho'). split; [done|].
      destruct Hor' as [?|[Hf' Hg']]; [by left|right]. split; [done|]. intros F'.
      by rewrite <- app_assoc, <- (scan_app _ _ _ L _ _ _ _ Ho'), Hg'.
    + rewrite (proj2 (Z.eqb_eq _ _)) by exact Hf. rewrite <- (scan_app _ _ _ L _ _ _ _ Ho'), Hg. split; [done|].
      right. split; [done|]. intros F'. by rewrite <- app_assoc, <- (scan_app _ _ _ L _ _ _ _ Ho'), Hg.
Qed.

(** The body of the loop over the blocks, on a block of a chain. *)
Lemma scan_block limit G open addr p n s :
  scan_law limit G open → counted p →
  let F := List.filter (involves addr) (rev (p_transactions_ p)) in
  open (length F + n)%nat s →
  (if p_transactionsCount_ p =? 0 then Ok s
   else block_matches addr limit p (Z.to_nat (p_transactionsCount_ p - 1)) s) = Ok (G F s) ∧
  (open n (G F s) ∨ full limit (G F s) ∧ ∀ F', G (F ++ F') s = G F s).
Proof.
  intros L [Hc1 Hc2]. cbv zeta. rewrite Hc2. destruct (p_transactions_ p) as [|t ts] eqn:Et.
  - cbn. intros Ho. rewrite (scan_nil _ _ _ L _ _ Ho). split; [done|by left].
  - rewrite (proj2 (Z.eqb_neq _ _)) by (cbn; lia).
    replace (Z.to_nat (Z.of_nat (length (t :: ts)) - 1)) with (length ts) by (cbn; lia).
    pose proof (block_matches_spec limit G open addr p (length ts) n s L) as Hb. rewrite Et in Hb.
    rewrite (take_ge (t :: ts)) in Hb by (cbn; lia). apply Hb. cbn. lia.
Qed.

Lemma matches_loop_spec limit G open idx blk lh addr ps fuel curr s bc :
  scan_law limit G open → bc_at idx blk lh bc → at_chain idx blk curr ps → (length ps < fuel)%nat →
  open (length (List.filter (involves addr) (ledger ps))) s →
  ∃ st, matches_loop addr limit fuel curr s bc
    = Ok (Some (G (List.filter (involves addr) (ledger ps)) s).1, assign_bc_storage st bc) ∧
    bc_at idx blk lh (assign_bc_storage st bc).
Proof.
  intros L. revert fuel curr s bc. induction ps as [|p ps IH]; intros [|fuel] curr s bc Hv Hat Hf Ho; cbn in Hf; try lia;
    cbn [matches_loop].
  - cbn in Hat. rewrite Hat. cbn [ledger mbind list_bind List.filter]. rewrite (scan_nil _ _ _ L _ _ Ho).
    exists (bc_storage_ bc). by destruct bc.
  - destruct Hat as (-> & Hpv & _ & Hcnt & Hc). rewrite Hpv. unfold ledger in *. cbn [mbind list_bind] in *.
    rewrite List.filter_app, ?length_app in *. pose proof Ho as Ho'.
    destruct (scan_block limit G open addr p _ s L Hcnt Ho) as [-> Hor]. rewrite bind_Ok.
    destruct Hor as [Hop|[Hful Hg]].
    + rewrite (proj2 (Z.eqb_neq _ _)) by exact (scan_open _ _ _ L _ _ Hop).
      destruct (loadBlock_chain _ _ _ _ _ _ Hv Hc) as (curr & st & E & Hv1 & Hat1). rewrite E, bind_Ok. cbv beta iota.
      destruct (IH fuel curr _ _ Hv1 Hat1 ltac:(lia) Hop) as (st' & E' & Hv'). exists st'.
      by rewrite E', (scan_app _ _ _ L _ _ _ _ Ho').
    + rewrite (proj2 (Z.eqb_eq _ _)) by exact Hful. rewrite Hg. exists (bc_storage_ bc). by destruct bc.
Qed.

Lemma block_matches_first addr limit curr k t s :
  p_transactions_ curr !! k = Some t →
  block_matches addr limit curr k s =
    (s ← (if involves addr t then matched t s else Ok s);
     if Z.of_nat (length s.1) =? u64 limit then Ok s
     else match k with O => Ok s | S k => block_matches addr limit curr k s end).
Proof.
  intros Ht. rewrite <- match_involves. destruct k; cbn [block_matches]; by rewrite (Pool_transaction_lookup _ _ _ Ht).
Qed.

(** With the limit 0 the loop stops at the newest transaction, unless that one is
    taken; then it never stops. *)
Definition zero_selected (addr : byte_array) (offset : Z) (ps : list Pool) : list Transaction :=
  match ps with
  | p :: _ =>
      match last (p_transactions_ p) with
      | Some t => if involves addr t && (offset =? 0) then List.filter (involves addr) (ledger ps) else []
      | None => []
      end
  | [] => []
  end.

Lemma matches_loop_zero idx blk lh addr offset ps fuel curr bc :
  bc_at idx blk lh bc → at_chain idx blk curr ps → (length ps < fuel)%nat → is_i64 offset →
  (offset = - 2 ^ 63 → List.filter (involves addr) (ledger ps) = []) →
  ∃ st, matches_loop addr 0 fuel curr ([], offset) bc = Ok (Some (zero_selected addr offset ps), assign_bc_storage st bc) ∧
    bc_at idx blk lh (assign_bc_storage st bc).
Proof.
  intros Hv Hat Hf Hi Hmin. assert (∃ st, bc = assign_bc_storage st bc ∧ bc_at idx blk lh (assign_bc_storage st bc)) as Hsame
    by (exists (bc_storage_ bc); by destruct bc).
  destruct fuel as [|fuel]; [lia|]. cbn [matches_loop]. destruct ps as [|p ps].
  { cbn in Hat. rewrite Hat. destruct Hsame as (st & E & Hs). exists st. by rewrite <- E. }
  destruct Hat as (-> & Hpv & _ & [Hc1 Hc2] & Hc). rewrite Hpv, Hc2. unfold zero_selected.
  destruct (p_transactions_ p) as [|t ts] eqn:Et using rev_ind.
  { destruct Hsame as (st & E & Hs). exists st. cbn. by rewrite <- E. }
  clear IHts. rewrite last_snoc, length_app. cbn [length]. rewrite (proj2 (Z.eqb_neq _ _)) by lia.
  replace (Z.to_nat (Z.of_nat (length ts + 1) - 1)) with (length ts) by lia.
  rewrite (block_matches_first addr 0 p (length ts) t) by (rewrite Et; by apply list_lookup_middle).
  assert (ledger (p :: ps) = t :: rev ts ++ ledger ps) as El
    by (unfold ledger; cbn [mbind list_bind]; by rewrite Et, rev_app_distr).
  rewrite El in *. cbn [List.filter] in *. destruct (involves addr t) eqn:Hinv; cbn [andb].
  2: { rewrite !bind_Ok. cbn. destruct Hsame as (st & E & Hs). exists st. by rewrite <- E. }
  unfold matched. cbn [fst snd]. destruct (Z.eqb_spec offset 0) as [-> |Hne].
  2: { assert (offset ≠ - 2 ^ 63) by (intros E; specialize (Hmin E); done).
       rewrite int64_id, !bind_Ok by (unfold_widths; lia). cbn. destruct Hsame as (st & E & Hs). exists st. by rewrite <- E. }
  rewrite bind_Ok. cbn [fst snd app length]. change (Z.of_nat 1 =? u64 0) with false. cbv iota.
  set (r := match length ts with O => _ | S _ => _ end).
  assert (r = Ok (t :: List.filter (involves addr) (rev ts), 0)) as ->.
  { subst r. destruct (length ts) as [|k] eqn:Ek; [by destruct ts|].
    destruct (block_matches_spec 0 _ _ addr p k 0 ([t], 0) scan_all) as [-> _]; [rewrite Et, length_app; cbn; lia|done|].
    rewrite Et, take_app_le, take_ge by lia. done. }
  rewrite bind_Ok. cbn [fst length]. rewrite (proj2 (Z.eqb_neq _ _)) by (change (u64 0) with 0; lia).
  destruct (loadBlock_chain _ _ _ _ _ _ Hv Hc) as (curr & st & E & Hv1 & Hat1). rewrite E, bind_Ok. cbv beta iota.
  cbn in Hf. destruct (matches_loop_spec 0 _ _ idx blk lh addr ps fuel curr (t :: List.filter (involves addr) (rev ts), 0) _
    scan_all Hv1 Hat1) as (st' & E' & Hv'); [lia|done|].
  exists st'. rewrite E'. split; [|exact Hv']. do 3 f_equal. cbn. by rewrite List.filter_app.
Qed.

(** The transactions that a request selects: a page of the matches for a positive
    limit, all matches after the offset for a negative one, none for a negative
    offset; for the limit 0, all if the newest transaction matches and nothing is
    to be skipped, and none otherwise. *)
Definition selected (addr : byte_array) (offset limit : Z) (ps : list Pool) : list Transaction :=
  let F := List.filter (involves addr) (ledger ps) in
  if offset <? 0 then []
  else if limit =? 0 then zero_selected addr offset ps
  else if limit <? 0 then drop (Z.to_nat offset) F
  else page offset limit F.

Lemma matches_loop_selected idx blk lh addr offset limit ps fuel curr bc :
  let F := List.filter (involves addr) (ledger ps) in
  bc_at idx blk lh bc → at_chain idx blk curr ps → (length ps < fuel)%nat → is_i64 limit →
  - 2 ^ 63 + Z.of_nat (length F) <= offset < 2 ^ 63 → Z.of_nat (length F) < 2 ^ 63 →
  ∃ st, matches_loop addr limit fuel curr ([], offset) bc
    = Ok (Some (selected addr offset limit ps), assign_bc_storage st bc) ∧
    bc_at idx blk lh (assign_bc_storage st bc).
Proof.
  intros F Hv Hat Hf Hl Ho HF. unfold selected. fold F. destruct (Z.eqb_spec limit 0) as [-> |Hne].
  { destruct (matches_loop_zero idx blk lh addr offset ps fuel curr bc) as (st & E & Hv'); try done.
    - unfold_widths. lia.
    - fold F. intros ->. destruct F; [done|]. cbn in Ho. lia.
    - exists st. split; [|done]. rewrite E. do 3 f_equal. destruct (Z.ltb_spec offset 0); [|done].
      unfold zero_selected. destruct ps as [|p ps]; [done|]. destruct (last _) as [t|]; [|done].
      rewrite (proj2 (Z.eqb_neq offset 0)) by lia. by rewrite andb_false_r. }
  assert (u64 limit = if limit <? 0 then limit + 2 ^ 64 else limit) as Eu.
  { destruct (Z.ltb_spec limit 0); unfold u64, wrap; unfold_widths; [|rewrite Z.mod_small; lia].
    symmetry. apply (Z.mod_unique _ _ (-1)); lia. }
  assert (0 < u64 limit) as Hpos by (rewrite Eu; unfold_widths; destruct (Z.ltb_spec limit 0); lia).
  destruct (Z.ltb_spec offset 0).
  - destruct (matches_loop_spec limit _ _ idx blk lh addr ps fuel curr ([], offset) bc (scan_below limit ltac:(lia)) Hv Hat Hf)
      as (st & E & Hv'); [split; [done|]; fold F; cbn; lia|]. by exists st.
  - destruct (matches_loop_spec limit _ _ idx blk lh addr ps fuel curr ([], offset) bc (scan_page limit Hpos) Hv Hat Hf)
      as (st & E & Hv'); [cbn; unfold_widths; lia|].
    exists st. split; [|done]. rewrite E. do 3 f_equal. fold F. unfold gathered_page, page. cbn [fst snd length app].
    rewrite Z.sub_0_r, Eu. destruct (Z.ltb_spec limit 0); [|done]. apply take_ge. rewrite length_drop. unfold_widths. lia.
Qed.

(** What the service shows of a transaction: the texts of its identifier and of its
    addresses, both parts of its amount as they are, and its currency; its balance
    and its contract are left empty. *)
Definition shows (t : Transaction) (a : api_Transaction) : Prop :=
  at_innerId a = TransactionID_to_string (t_id_ t) ∧ at_source a = to_hex (t_source_ t) ∧ at_target a = to_hex (t_target_ t) ∧
  aa_integral (at_amount a) = integral_ (t_amount_ t) ∧ aa_fraction (at_amount a) = fraction_ (t_amount_ t) ∧
  at_currency a = t_currency_ t ∧ at_balance a = mkApiAmount 0 0 ∧ at_smartContract a = SmartContract_default.

Lemma convertTransaction_shows t :
  is_u64 (fraction_ (t_amount_ t)) →
  match convertTransaction t with
  | Ok a => fraction_ (t_amount_ t) < 2 ^ 63 ∧ shows t a
  | Throw e => e = assertion_failed ∧ 2 ^ 63 <= fraction_ (t_amount_ t)
  end.
Proof.
  intros Hu. unfold convertTransaction, convertAmount. set (f := fraction_ _) in *.
  assert (i64 f = if f <? 2 ^ 63 then f else f - 2 ^ 64) as ->.
  { destruct (Z.ltb_spec f (2 ^ 63)); [apply i64_id; unfold_widths; lia|]. width_lia. }
  destruct (Z.ltb_spec f (2 ^ 63)).
  - rewrite (proj2 (Z.ltb_ge f 0)), bind_Ok by (unfold_widths; lia). by split.
  - rewrite (proj2 (Z.ltb_lt (f - 2 ^ 64) 0)) by (unfold_widths; lia). done.
Qed.

Lemma convertTransactions_shows ts :
  Forall (λ t, is_u64 (fraction_ (t_amount_ t))) ts →
  match convertTransactions ts with
  | Ok l => Forall (λ t, fraction_ (t_amount_ t) < 2 ^ 63) ts ∧ Forall2 shows ts l
  | Throw e => e = assertion_failed ∧ Exists (λ t, 2 ^ 63 <= fraction_ (t_amount_ t)) ts
  end.
Proof.
  induction 1 as [|t ts Hu _ IH]; cbn [convertTransactions]; [done|].
  pose proof (convertTransaction_shows t Hu) as Ht. destruct (convertTransaction t) as [a|e].
  - rewrite bind_Ok. destruct (convertTransactions ts) as [l|e].
    + rewrite bind_Ok. destruct Ht, IH. split; by constructor.
    + destruct IH as [-> H]. split; [done|]. by constructor 2.
  - destruct Ht as [-> H]. split; [done|]. by constructor.
Qed.

Lemma selected_elem addr offset limit ps t : t ∈ selected addr offset limit ps → t ∈ ledger ps.
Proof.
  assert (∀ t, t ∈ List.filter (involves addr) (ledger ps) → t ∈ ledger ps) as HF.
  { intros x Hx. apply list_elem_of_In, filter_In in Hx as [Hx _]. by apply list_elem_of_In. }
  unfold selected, zero_selected, page. intros H. apply HF. destruct (offset <? 0); [by apply elem_of_nil in H|].
  destruct (limit =? 0).
  - destruct ps as [|p ps]; [by apply elem_of_nil in H|]. destruct (last _) as [u|]; [|by apply elem_of_nil in H].
    destruct (_ && _)%bool; [done|by apply elem_of_nil in H].
  - destruct (limit <? 0); [by apply subseteq_drop in H|]. apply subseteq_take in H. by apply subseteq_drop in H.
Qed.


(** ** The list of blocks *)

(** What the service shows of a block whose number is below 2^63. *)
Definition pool_form (p : Pool) : api_Pool :=
  mkApiPool (to_hex (p_hash_ p)) (to_hex (p_previous_hash_ p))
    (atoll (c_str (UserField_value_string (Pool_user_field 0 p))))
    (i32 (p_transactionsCount_ p)) (p_sequence_ p).

Definition numbers_ok (ps : list Pool) : Prop := Forall (λ p, 0 <= p_sequence_ p < 2 ^ 63) ps.

Lemma convertPool_form p :
  p_is_valid_ p = true → Pool_sealed p → 0 <= p_sequence_ p < 2 ^ 63 → convertPool p = Ok (pool_form p).
Proof.
  intros Hv Hs Hn. unfold convertPool. rewrite Hv, (Pool_hash_sealed p Hs), i64_id by (unfold_widths; lia).
  by rewrite (proj2 (Z.ltb_ge _ _)) by lia.
Qed.

(** Every entry of the cache is the form of a block of the chain. *)
Definition pool_cache_ok ps (cache : list (byte_array * api_Pool)) : Prop :=
  map_sorted cache ∧
  ∀ hash ap, map_find hash cache = Some ap → ∃ ps1 p ps2, ps = ps1 ++ p :: ps2 ∧ hash = p_hash_ p ∧ ap = pool_form p.

Lemma pool_cache_ok_add ps1 p ps2 cache :
  pool_cache_ok (ps1 ++ p :: ps2) cache → pool_cache_ok (ps1 ++ p :: ps2) (map_emplace (p_hash_ p) (pool_form p) cache).
Proof.
  intros [Hs Hc]. split; [by apply map_emplace_sorted|]. intros hash ap. unfold map_emplace.
  destruct (map_find (p_hash_ p) cache) eqn:E; [apply Hc|].
  destruct (decide (hash = p_hash_ p)) as [-> |Hne].
  - rewrite map_find_set_eq by done. intros [= <-]. by exists ps1, p, ps2.
  - rewrite map_find_set_ne by done. apply Hc.
Qed.

(** The text of the previous hash of a block leads to the next older one. *)
Lemma previous_hash_text idx blk p q ps :
  chain idx blk (p_previous_hash_ p) (q :: ps) →
  PoolHash_from_string (ap_prevHash (pool_form p)) = p_previous_hash_ p.
Proof.
  intros Hc. cbn [pool_form ap_prevHash]. inversion Hc; subst. apply PoolHash_from_to_string; [apply calc_hash_bytes|right; apply calc_hash_length].
Qed.

Lemma chain_head idx blk hs p ps :
  chain idx blk hs (p :: ps) → p_is_valid_ p = true ∧ Pool_sealed p ∧ hs = p_hash_ p ∧ chain idx blk (p_previous_hash_ p) ps.
Proof.
  inversion 1 as [|n b q qs Hn Hb Hf Hv Hcnt Hc]; subst. destruct (Pool_from_binary_sealed b p Hf Hv) as [Hs Hh].
  split; [done|]. split; [done|]. by split.
Qed.

Lemma chain_newest_hash idx blk hs p ps :
  chain idx blk hs (p :: ps) → chain idx blk (newest ps) ps ∧ (ps ≠ [] → p_previous_hash_ p = newest ps).
Proof.
  intros Hc. split; [apply (chain_newest _ _ hs [p] ps Hc)|]. intros Hne. destruct (chain_head _ _ _ _ _ Hc) as (_ & _ & _ & Hc').
  destruct ps as [|q ps]; [done|]. by destruct (chain_head _ _ _ _ _ Hc') as (_ & _ & ? & _).
Qed.

(** One block of the list: shown once [k] blocks were skipped. *)
Lemma page_step k n p rest pools :
  pools ++ (pool_form <$> drop k (take (S n) (p :: rest)))
  = (if (k =? 0)%nat then pools ++ [pool_form p] else pools) ++ (pool_form <$> drop (k - 1) (take n rest)).
Proof. destruct k as [|k]; cbn [Nat.eqb take drop]; [by rewrite <- app_assoc, drop_0|]. by rewrite Nat.sub_succ, Nat.sub_0_r. Qed.

Lemma pool_list_loop_spec idx blk lh ps offset rest n pools visited h :
  bc_at idx blk lh (h_blockchain h) → chain idx blk lh ps → numbers_ok ps → ps = visited ++ rest →
  pool_cache_ok ps (h_poolCache h) →
  (n <= length rest)%nat → 0 <= offset < 2 ^ 63 →
  (offset = 0 ∨ ∀ p, p ∈ rest → map_find (p_hash_ p) (h_poolCache h) = None) →
  ∃ h', pool_list_loop (Z.of_nat (length ps)) offset n (Z.of_nat (length rest)) (newest rest) pools h
    = Ok (pools ++ (pool_form <$> drop (Z.to_nat offset - length visited) (take n rest)), h') ∧
    bc_at idx blk lh (h_blockchain h') ∧ pool_cache_ok ps (h_poolCache h').
Proof.
  revert rest pools visited h. induction n as [|n IH]; intros rest pools visited h Hv Hc Hnum Eps Hcache Hn Ho Hor.
  { rewrite take_0, drop_nil, fmap_nil, app_nil_r. by exists h. }
  destruct rest as [|p rest]; [cbn in Hn; lia|]. cbn [length] in Hn. cbn [pool_list_loop newest length].
  assert (chain idx blk (p_hash_ p) (p :: rest)) as Hcp by (subst ps; exact (chain_suffix _ _ _ _ _ _ Hc)).
  destruct (chain_head _ _ _ _ _ Hcp) as (Hpv & Hps & _ & Hcr). destruct (chain_newest_hash _ _ _ _ _ Hcp) as [Hcn Hprev].
  assert (ps = (visited ++ [p]) ++ rest) as Eps' by (by rewrite <- app_assoc).
  assert (length ps = length visited + S (length rest))%nat as Elen by (subst ps; by rewrite length_app).
  replace (Z.of_nat (S (length rest)) - 1) with (Z.of_nat (length rest)) by lia.
  rewrite page_step. replace (Z.to_nat offset - length visited - 1)%nat with (Z.to_nat offset - length (visited ++ [p]))%nat
    by (rewrite length_app; cbn; lia).
  destruct (map_find (p_hash_ p) (h_poolCache h)) as [cached|] eqn:Ef.
  - destruct Hor as [-> |Hmiss]; [|rewrite Hmiss in Ef by (by left); done].
    destruct Hcache as [Hsorted Hcache]. destruct (Hcache _ _ Ef) as (ps1 & p' & ps2 & E & Hh & ->).
    assert (p' :: ps2 = p :: rest) as [= -> _].
    { apply (chain_det idx blk (p_hash_ p)); [|done]. rewrite Hh. rewrite E in Hc. exact (chain_suffix _ _ _ _ _ _ Hc). }
    destruct rest as [|q rest].
    + assert (n = 0)%nat as -> by (cbn in Hn; lia). rewrite take_0, drop_nil, fmap_nil, app_nil_r. by exists h.
    + rewrite (previous_hash_text idx blk p q rest Hcr), Hprev by done.
      apply IH; try done; [cbn in *; lia|by left].
  - destruct (loadBlock_chain _ _ _ _ _ _ Hv Hcp) as (curr & st & E & Hv1 & Hat). rewrite E, bind_Ok.
    destruct Hat as (-> & _). rewrite (convertPool_form p Hpv Hps), bind_Ok.
    2: { unfold numbers_ok in Hnum. rewrite Forall_forall in Hnum. apply Hnum. subst ps. apply elem_of_app. right. by left. }
    cbv beta iota zeta. rewrite u64_id by (unfold_widths; lia).
    replace (Z.of_nat (S (length rest)) <=? Z.of_nat (length ps) - Z.min (Z.of_nat (length ps)) offset)
      with (Z.to_nat offset - length visited =? 0)%nat
      by (destruct (Nat.eqb_spec (Z.to_nat offset - length visited) 0), (Z.leb_spec (Z.of_nat (S (length rest)))
            (Z.of_nat (length ps) - Z.min (Z.of_nat (length ps)) offset)); done || lia).
    set (h1 := mkAPIHandler _ _).
    assert (pool_cache_ok ps (h_poolCache h1)) as Hc1 by (subst ps; by apply pool_cache_ok_add).
    destruct rest as [|q rest].
    + assert (n = 0)%nat as -> by (cbn in Hn; lia). rewrite take_0, drop_nil, fmap_nil, app_nil_r. by exists h1.
    + rewrite Hprev by done. apply IH; try done; [cbn in *; lia|].
      destruct Hor as [|Hmiss]; [by left|right]. intros x Hx. cbn [h_poolCache h1]. unfold map_emplace. rewrite Ef.
      rewrite map_find_set_ne; [apply Hmiss; by right|apply Hcache|].
      apply list_elem_of_split in Hx as (l1 & l2 & Ex). rewrite Ex in Hcp, Hcn. intros Eq.
      apply (chain_before _ _ _ (p_hash_ x) p l1 (x :: l2) Hcp); [exact (chain_suffix _ _ _ _ _ _ Hcn)|done].
Qed.

(** The answer to a request for blocks is the page of the chain that it asks
    for, newest first, with both numbers cut to 100.  It is so when no block is
    skipped, whatever the cache of blocks holds, and for every request on an empty
    cache.  The cache stays correct when the chain grows. *)
Theorem PoolListGet_correct idx blk ps offset limit h :
  bc_at idx blk (newest ps) (h_blockchain h) → chain idx blk (newest ps) ps →
  numbers_ok ps → getSize (h_blockchain h) = Z.of_nat (length ps) → pool_cache_ok ps (h_poolCache h) →
  0 <= offset → 0 <= limit → offset = 0 ∨ h_poolCache h = [] →
  ∃ h', PoolListGet offset limit h = Ok (pool_form <$> page (Z.min offset 100) (Z.min limit 100) ps, h') ∧
    bc_at idx blk (newest ps) (h_blockchain h') ∧ ∀ qs, pool_cache_ok (qs ++ ps) (h_poolCache h').
Proof.
  intros Hv Hc Hnum Hsize Hcache Ho Hl Hor. unfold PoolListGet, getLastHash. rewrite Hsize, (proj1 Hv).
  assert (∀ x, (if 100 <? x then 100 else x) = Z.min x 100) as Hmin by (intros x; destruct (Z.ltb_spec 100 x); lia).
  rewrite !Hmin. destruct (Z.ltb_spec (Z.min limit 100) 0); [lia|]. rewrite u64_id by (unfold_widths; lia).
  assert (0 <= Z.min offset 100 <= 100) as Hoff by lia. assert (0 <= Z.min limit 100 <= 100) as Hlim by lia.
  assert (offset = 0 → Z.min offset 100 = 0) as H0 by lia.
  generalize dependent (Z.min offset 100). intros off Hoff H0. generalize dependent (Z.min limit 100). intros lim _ Hlim.
  set (n := Z.to_nat (Z.of_nat (length ps) - (Z.of_nat (length ps) - Z.min (Z.of_nat (length ps)) (off + lim)))).
  destruct (pool_list_loop_spec idx blk (newest ps) ps off ps n [] [] h) as (h' & E & Hv' & Hc'); try done; [lia|lia| |].
  { destruct Hor as [E| ->]; [left; by apply H0|by right]. }
  exists h'. rewrite E. split; [|split; [done|]].
  - do 3 f_equal. cbn [app length]. rewrite Nat.sub_0_r. unfold page. rewrite take_drop_commute. f_equal.
    destruct (Z.leb_spec (off + lim) (Z.of_nat (length ps))); [|rewrite !take_ge; [done|lia|lia]].
    by replace n with (Z.to_nat off + Z.to_nat lim)%nat by (subst n; lia).
  - intros qs. destruct Hc' as [Hs Hall]. split; [done|]. intros hash ap Hf. destruct (Hall _ _ Hf) as (ps1 & p & ps2 & Eq & Hh & Ha).
    exists (qs ++ ps1), p, ps2. by rewrite Eq, app_assoc.
Qed.

(** ** Single blocks and transactions *)

(** A text form of an index below ten reads as that index, since the two bases
    agree there. *)
Lemma convertStringToID_small hash i :
  bytes_ok hash → length hash = 32%nat → (i < 10)%nat →
  convertStringToID (TransactionID_to_string (mkTransactionID hash (Z.of_nat i))) = Ok (PoolHash_to_string hash, Z.of_nat i).
Proof.
  intros Hb Hl Hi. unfold convertStringToID, TransactionID_to_string. cbn [id_pool_hash_ id_index_].
  assert (length (PoolHash_to_string hash) = 64%nat) as Hlen by (unfold PoolHash_to_string; rewrite length_to_hex, Hl; done).
  assert (length (pad_left 48 8 (print_base 16 (Z.of_nat i))) = 8%nat ∧
          stoi (pad_left 48 8 (print_base 16 (Z.of_nat i))) = Ok (Z.of_nat i)) as [H8 Hst].
  { do 10 (destruct i as [|i]; [split; vm_compute; reflexivity|]). lia. }
  rewrite take_app_length' by done. rewrite (proj2 (Nat.ltb_lt _ _)) by (rewrite length_app; cbn [length]; lia).
  replace (64 + 1)%nat with (length (PoolHash_to_string hash) + 1)%nat by lia. rewrite drop_app_add.
  cbn [drop]. rewrite drop_0, Hst, bind_Ok, u64_id by (unfold_widths; lia). done.
Qed.

(** A transaction of the chain among the first ten of its block is found by
    the identifier that the service itself gives out for it. *)
Theorem TransactionGet_roundtrip idx blk lh ps1 p ps2 i t h :
  bc_at idx blk lh (h_blockchain h) → chain idx blk lh (ps1 ++ p :: ps2) →
  p_transactions_ p !! i = Some t → (i < 10)%nat → Transaction_is_valid t = true → 0 <= fraction_ (t_amount_ t) < 2 ^ 63 →
  ∃ a h', TransactionGet (TransactionID_to_string (t_id_ t)) h
    = Ok (mkTransactionGetResult (SetResponseStatus SUCCESS []) true (Some a), h') ∧ shows t a ∧
    bc_at idx blk lh (h_blockchain h').
Proof.
  intros Hv Hc Hi Hlt Hok Hfr. pose proof (chain_suffix _ _ _ _ _ _ Hc) as Hcp.
  destruct (chain_head _ _ _ _ _ Hcp) as (Hpv & Hps & _ & _). pose proof Hps as (_ & _ & Hh & Hid).
  destruct (Hid i t Hi) as [_ Et]. unfold TransactionGet. rewrite Et.
  assert (bytes_ok (p_hash_ p) ∧ length (p_hash_ p) = 32%nat) as [Hb Hl]
    by (rewrite Hh; split; [apply calc_hash_bytes|apply calc_hash_length]).
  rewrite convertStringToID_small, bind_Ok, PoolHash_from_to_string by (done || by right).
  unfold loadTransaction, Storage_transaction, TransactionID_is_valid. cbn [id_pool_hash_].
  rewrite Hh, calc_hash_nonempty, <- Hh. cbn [negb].
  destruct (chain_load _ _ _ _ _ _ Hv Hcp) as (curr & st & E & Hv' & Hat). rewrite E, bind_Ok, bind_Ok.
  destruct Hat as (-> & _). rewrite <- Et, (Pool_by_own_id p i t Hps Hi), bind_Ok, Hok.
  pose proof (convertTransaction_shows t ltac:(unfold_widths; lia)) as Hsh.
  destruct (convertTransaction t) as [a|e]; [|lia]. rewrite bind_Ok. exists a. eexists. split; [done|]. split; [apply Hsh|exact Hv'].
Qed.

Lemma extract_loop_spec p n k :
  (k + n <= length (p_transactions_ p))%nat → Z.of_nat (length (p_transactions_ p)) < 2 ^ 64 →
  extract_loop p n (Z.of_nat k) = convertTransactions (take n (drop k (p_transactions_ p))).
Proof.
  revert k. induction n as [|n IH]; intros k Hk Hl; [done|]. cbn [extract_loop].
  destruct (lookup_lt_is_Some_2 (p_transactions_ p) k) as [t Ht]; [lia|].
  rewrite u64_id by (unfold_widths; lia). rewrite (Pool_transaction_lookup _ _ _ Ht).
  rewrite (drop_S _ _ _ Ht). cbn [take convertTransactions].
  replace (Z.of_nat k + 1) with (Z.of_nat (S k)) by lia. by rewrite IH by (done || lia).
Qed.

Lemma extract_loop_page p n k :
  0 <= k → (Z.to_nat k + n <= length (p_transactions_ p))%nat → Z.of_nat (length (p_transactions_ p)) < 2 ^ 64 →
  extract_loop p n k = convertTransactions (take n (drop (Z.to_nat k) (p_transactions_ p))).
Proof. intros Hk. rewrite <- (Z2Nat.id k) at 2 by done. apply extract_loop_spec. Qed.

Lemma extract_page p offset limit :
  counted p → 0 <= offset → 0 <= limit →
  extractTransactions p limit offset = convertTransactions (page offset limit (p_transactions_ p)).
Proof.
  intros [Hn Hcnt] Ho Hl. unfold extractTransactions, page. rewrite Hcnt, i64_id by (unfold_widths; lia).
  rewrite (proj2 (Z.ltb_ge _ 0)) by lia. set (n := Z.of_nat (length (p_transactions_ p))) in *.
  destruct (Z.ltb_spec n offset) as [Hlt|Hge]; [by rewrite drop_ge, take_nil by lia|].
  rewrite int64_id, bind_Ok by (unfold_widths; lia).
  destruct (Z.ltb_spec (n - offset) limit) as [Hlim|Hlim]; rewrite int64_id, bind_Ok by (unfold_widths; lia);
    rewrite extract_loop_page by lia; f_equal.
  - rewrite (take_ge _ (Z.to_nat limit)), take_ge; rewrite ?length_drop; [done|lia|lia].
  - f_equal. lia.
Qed.

(** A block of the chain is found by the hash that the service gives out for
    it; the answer is its form, and a request for its transactions gives the page
    it asks for. *)
Theorem block_queries_correct idx blk lh ps1 p ps2 offset limit h :
  bc_at idx blk lh (h_blockchain h) → chain idx blk lh (ps1 ++ p :: ps2) → 0 <= p_sequence_ p < 2 ^ 63 →
  Forall (λ t, 0 <= fraction_ (t_amount_ t) < 2 ^ 63) (p_transactions_ p) → 0 <= offset → 0 <= limit →
  (∃ h', PoolInfoGet (to_hex (p_hash_ p)) h
     = Ok (mkPoolInfoGetResult (SetResponseStatus SUCCESS []) true (Some (pool_form p)), h') ∧
     bc_at idx blk lh (h_blockchain h')) ∧
  (∃ l h', PoolTransactionsGet (to_hex (p_hash_ p)) offset limit h
     = Ok (mkPoolTransactionsGetResult (SetResponseStatus SUCCESS []) l, h') ∧
     Forall2 shows (page offset limit (p_transactions_ p)) l ∧
     bc_at idx blk lh (h_blockchain h')).
Proof.
  intros Hv Hc Hnum Hfr Ho Hl. pose proof (chain_suffix _ _ _ _ _ _ Hc) as Hcp.
  destruct (chain_head _ _ _ _ _ Hcp) as (Hpv & Hps & _ & _). pose proof Hps as (_ & _ & Hh & _).
  assert (PoolHash_from_string (to_hex (p_hash_ p)) = p_hash_ p) as Ehash.
  { rewrite Hh. apply PoolHash_from_to_string; [apply calc_hash_bytes|right; apply calc_hash_length]. }
  destruct (loadBlock_chain _ _ _ _ _ _ Hv Hcp) as (curr & st & E & Hv1 & Hat). destruct Hat as (-> & _ & _ & [Hn Hcnt] & _).
  unfold PoolInfoGet, PoolTransactionsGet. rewrite Ehash, E, !bind_Ok, Hpv. split.
  - destruct (loadBlock_chain _ _ _ _ _ _ Hv1 Hcp) as (curr & st' & E' & Hv2 & Hat'). destruct Hat' as (-> & _).
    rewrite E', bind_Ok, (convertPool_form p Hpv Hps Hnum), bind_Ok. eexists. split; [done|]. exact Hv2.
  - rewrite extract_page by done.
    assert (Forall (λ t, 0 <= fraction_ (t_amount_ t) < 2 ^ 63) (page offset limit (p_transactions_ p))) as Hpg.
    { unfold page. by apply Forall_take, Forall_drop. }
    pose proof (convertTransactions_shows (page offset limit (p_transactions_ p))) as Hs.
    destruct (convertTransactions _) as [l|e].
    + rewrite bind_Ok. exists l, (assign_blockchain (assign_bc_storage st (h_blockchain h)) h). split; [done|]. split; [|exact Hv1].
      apply Hs. eapply Forall_impl; [exact Hpg|]. unfold_widths. intros t Ht. lia.
    + destruct Hs as [_ Hex]; [eapply Forall_impl; [exact Hpg|]; unfold_widths; intros t Ht; lia|].
      exfalso. rewrite Exists_exists in Hex. destruct Hex as (t & Ht & Hbig).
      rewrite Forall_forall in Hpg. specialize (Hpg t Ht). lia.
Qed.

End ApiLaws.

(** ** Examples *)

Definition mem_api : APIHandler (DatabaseBerkeleyDB (gmap Z byte_array) (gmap byte_array Z)) := mkAPIHandler mem_chain_bc [].

Lemma mem_api_at : bc_view (ready := Bdb_ready) (index := Bdb_index id) (blocks := Bdb_blocks id)
  mem_index mem_blocks (newest mem_chain_pools) (h_blockchain mem_api).
Proof. rewrite mem_newest. exact mem_view. Qed.

Lemma mem_api_chain : chain mem_index mem_blocks (newest mem_chain_pools) mem_chain_pools.
Proof. rewrite mem_newest. exact mem_chain. Qed.


Lemma PoolListGet_correct_witness :
  ∃ l h', @PoolListGet _ mem_database 1 5 mem_api = Ok (l, h') ∧ length l = 1%nat.
Proof.
  destruct (@PoolListGet_correct _ mem_database Bdb_ready (Bdb_index id) (Bdb_blocks id) mem_database_laws
    mem_index mem_blocks mem_chain_pools 1 5 mem_api mem_api_at mem_api_chain) as (h' & E & _).
  - apply (bool_decide_unpack _). vm_compute. exact I.
  - vm_compute. reflexivity.
  - split; [constructor|done].
  - lia.
  - lia.
  - by right.
  - do 2 eexists. split; [exact E|]. vm_compute. reflexivity.
Defined.

Lemma mem_split : ∃ p q t, mem_chain_pools = [] ++ p :: [q] ∧ p_transactions_ p !! 1%nat = Some t ∧
  Transaction_is_valid t = true ∧ 0 <= p_sequence_ p < 2 ^ 63 ∧
  Forall (λ t, 0 <= fraction_ (t_amount_ t) < 2 ^ 63) (p_transactions_ p).
Proof.
  assert (match mem_chain_pools with
          | [p; q] =>
              bool_decide (0 <= p_sequence_ p < 2 ^ 63 ∧ Forall (λ t, 0 <= fraction_ (t_amount_ t) < 2 ^ 63) (p_transactions_ p))
              && match p_transactions_ p !! 1%nat with Some t => Transaction_is_valid t | None => false end
          | _ => false
          end = true) as H by (vm_compute; reflexivity).
  destruct mem_chain_pools as [|p [|q [|]]]; try discriminate. apply andb_true_iff in H as [[H1 H2]%bool_decide_eq_true H].
  destruct (p_transactions_ p !! 1%nat) as [t|] eqn:E; [|discriminate]. by exists p, q, t.
Qed.

Lemma TransactionGet_roundtrip_witness :
  ∃ t r h', @TransactionGet _ mem_database (TransactionID_to_string (t_id_ t)) mem_api = Ok (r, h') ∧ tg_found r = true.
Proof.
  destruct mem_split as (p & q & t & Ep & Et & Hok & _ & Hfr). pose proof mem_api_chain as Hc. rewrite Ep in Hc at 2.
  destruct (@TransactionGet_roundtrip _ mem_database Bdb_ready (Bdb_index id) (Bdb_blocks id) mem_database_laws
    mem_index mem_blocks (newest mem_chain_pools) [] p [q] 1 t mem_api mem_api_at Hc Et ltac:(lia) Hok
    (Forall_lookup_1 _ _ _ _ Hfr Et)) as (a & h' & E & _).
  exists t. do 2 eexists. split; [exact E|reflexivity].
Defined.

Lemma block_queries_correct_witness :
  ∃ p r h', @PoolTransactionsGet _ mem_database (to_hex (p_hash_ p)) 0 1 mem_api = Ok (r, h') ∧
    length (pt_transactions r) = 1%nat.
Proof.
  destruct mem_split as (p & q & t & Ep & Et & Hok & Hnum & Hfr). pose proof mem_api_chain as Hc. rewrite Ep in Hc at 2.
  destruct (@block_queries_correct _ mem_database Bdb_ready (Bdb_index id) (Bdb_blocks id) mem_database_laws
    mem_index mem_blocks (newest mem_chain_pools) [] p [q] 0 1 mem_api mem_api_at Hc Hnum Hfr ltac:(lia) ltac:(lia))
    as [_ (l & h' & E & Hs & _)].
  exists p. do 2 eexists. split; [exact E|]. cbn [pt_transactions]. rewrite <- (Forall2_length _ _ _ Hs). unfold page.
  rewrite length_take. change (Z.to_nat 0) with 0%nat. rewrite drop_0. pose proof (lookup_lt_Some _ _ _ Et). lia.
Defined.

(** A cached block is listed even when it should be skipped: with both blocks in
    the cache, a request for one block after the first gives two. *)
Lemma PoolListGet_ignores_offset :
  match @PoolListGet _ mem_database 0 2 mem_api with
  | Ok (_, h) => match @PoolListGet _ mem_database 1 1 h with Ok (l, _) => length l | Throw _ => 0%nat end
  | Throw _ => 0%nat
  end = 2%nat.
Proof. vm_compute. reflexivity. Qed.

(** The index of an identifier is printed in base 16 and read in base 10: the
    identifier of transaction 16 leads to transaction 10, that of transaction 10
    to transaction 0. *)
Lemma TransactionGet_wrong_index :
  convertStringToID (TransactionID_to_string (mkTransactionID (replicate 32 7) 16))
  = Ok (PoolHash_to_string (replicate 32 7), 10) ∧
  convertStringToID (TransactionID_to_string (mkTransactionID (replicate 32 7) 10))
  = Ok (PoolHash_to_string (replicate 32 7), 0).
Proof. split; vm_compute; reflexivity. Qed.

(** With the limit 0 the loop does not stop at the first match, but lists them
    all. *)
Lemma TransactionsGet_limit_zero :
  match @TransactionsGet _ mem_database 3 (Address_to_string sample_address) 0 0 mem_api with
  | Ok (Some r, _) => length (tsg_transactions r)
  | _ => 0%nat
  end = 3%nat.
Proof. vm_compute. reflexivity. Qed.

(** A key that is shorter than a printed key is read beyond its end. *)
Lemma request_address_overread address :
  (length address < 43)%nat → request_address address = Throw undefined_behaviour.
Proof.
  intros H. unfold request_address. rewrite (proj2 (Nat.eqb_neq _ _)) by lia. cbn [negb].
  unfold getAddressFromKey, getHashedPublicKey, bytes_at, PURE_PUBLIC_KEY_LENGTH.
  rewrite (proj2 (Nat.leb_gt _ _)) by (rewrite length_app; cbn; lia). done.
Qed.
