(* ===== verification/Contracts.v ===== *)
(** * Contracts: smart contracts in the wallet service

    The rest of [api/src/APIHandler.cpp]: the caches of the contracts on the chain,
    the queries that use them, and [TransactionFlow], which hands a transaction of
    a client to the solver.  The structures that thrift reads and writes
    ([api::SmartContract]), the executor of contracts and the solver are code that
    is not part of the sources: the first two are parameters, and the transactions
    that go to the solver are an output.  An exception ends a request; what a
    request that failed inside the scan leaves in the caches is not modelled. *)

From S2P Require Import Prelude Blake2 Hex StdMap Streams Format Amount Values Transaction Pool Database Storage Chain Blockchain Api.

Section Contracts.
Context {D : Type} `{!Database D}.

(** The thrift encoding of a contract; reading throws on other bytes. *)
Context (serialize : SmartContract → byte_array) (deserialize : byte_array → result SmartContract).

(** [executeByteCode]: the new state of a contract, from its address, code and
    state, and the method and parameters of the call; the client of the executor
    throws if the connection fails. *)
Context (executeByteCode : byte_array → byte_array → byte_array → byte_array → list byte_array → result byte_array).

(** ** Contracts in transactions *)

Definition fetch_smart (tr : Transaction) : result SmartContract :=
  if Transaction_is_valid tr then deserialize (UserField_value_string (Transaction_user_field 0 tr))
  else Ok SmartContract_default.

Definition is_smart (tr : Transaction) : bool := UserField_type (Transaction_user_field 0 tr) =? 2.

Definition is_smart_deploy (smart : SmartContract) : bool := negb (bytes_eqb (sc_byteCode smart) []).

(** ** The caches *)

Record SmartCaches := mkSmartCaches {
  smart_origin : list (byte_array * TransactionID);
  smart_state : list (byte_array * TransactionID);
  deployed_by_creator : list (byte_array * list TransactionID);
  last_seen_contract_block : byte_array;
}.

Definition SmartCaches_default : SmartCaches := mkSmartCaches [] [] [] [].

(** The caches and the local variables of [update_smart_caches].  A position in a
    [std::list] is the number of elements from it to the end, which an insertion
    in front of it does not change. *)
Record scan_state := mkScan {
  sn_caches : SmartCaches;
  sn_poss : list (byte_array * nat);
  sn_state_updated : list byte_array;
}.

(** [targetList.insert(pos, id)] *)
Definition insert_before (pos : nat) (id : TransactionID) (l : list TransactionID) : list TransactionID :=
  take (length l - pos) l ++ id :: drop (length l - pos) l.

(** [m[k]] of a map whose entries start with the value [d]. *)
Definition map_at_default {V} (d : V) (k : byte_array) (m : list (byte_array * V)) : V :=
  match map_find k m with Some v => v | None => d end.

(** The body of the loop over the transactions of a block. *)
Definition scan_transaction (s : scan_state) (tr : Transaction) : result scan_state :=
  let c := sn_caches s in
  if negb (is_smart tr) then Ok s
  else
    smart ← fetch_smart tr;
    if is_smart_deploy smart then
      let origin := map_set (sc_address smart) (t_id_ tr) (smart_origin c) in
      let targetList := map_at_default [] (t_source_ tr) (deployed_by_creator c) in
      let poss := map_emplace (t_source_ tr) (length targetList) (sn_poss s) in
      let pos := map_at_default 0%nat (t_source_ tr) poss in
      let deployed := map_set (t_source_ tr) (insert_before pos (t_id_ tr) targetList) (deployed_by_creator c) in
      Ok (mkScan (mkSmartCaches origin (smart_state c) deployed (last_seen_contract_block c)) poss (sn_state_updated s))
    else if negb (bool_decide (sc_address smart ∈ sn_state_updated s)) then
      let state := map_set (sc_address smart) (t_id_ tr) (smart_state c) in
      Ok (mkScan (mkSmartCaches (smart_origin c) state (deployed_by_creator c) (last_seen_contract_block c))
            (sn_poss s) (sc_address smart :: sn_state_updated s))
    else Ok s.

Fixpoint scan_transactions (s : scan_state) (trs : list Transaction) : result scan_state :=
  match trs with
  | [] => Ok s
  | tr :: trs => s ← scan_transaction s tr; scan_transactions s trs
  end.

(** The loop over the blocks. *)
Fixpoint scan_blocks (fuel : nat) (curr_ph : byte_array) (s : scan_state) (bc : BlockChain D)
    : result (option scan_state * BlockChain D) :=
  match fuel with
  | O => Ok (None, bc)
  | S fuel =>
      if negb (PoolHash_eqb curr_ph (last_seen_contract_block (sn_caches s))) then
        '(p, bc) ← loadBlock curr_ph bc;
        s ← scan_transactions s (rev (p_transactions_ p));
        scan_blocks fuel (p_previous_hash_ p) s bc
      else Ok (Some s, bc)
  end.

(** The members of [APIHandler] that the contracts use, and the transactions sent
    to the solver. *)
Record Contracts := mkContracts {
  co_blockchain : BlockChain D;
  co_caches : SmartCaches;
  co_sent : list Transaction;
}.

Definition assign_co_blockchain (bc : BlockChain D) (h : Contracts) : Contracts :=
  mkContracts bc (co_caches h) (co_sent h).

Definition assign_co_caches (c : SmartCaches) (h : Contracts) : Contracts :=
  mkContracts (co_blockchain h) c (co_sent h).

(** [send_wallet_transaction] *)
Definition send_wallet_transaction (t : Transaction) (h : Contracts) : Contracts :=
  mkContracts (co_blockchain h) (co_caches h) (co_sent h ++ [t]).

(** [update_smart_caches] *)
Definition update_smart_caches (fuel : nat) (h : Contracts) : result (option unit * Contracts) :=
  let last_ph := getLastHash (co_blockchain h) in
  '(s, bc) ← scan_blocks fuel last_ph (mkScan (co_caches h) [] []) (co_blockchain h);
  let h := assign_co_blockchain bc h in
  match (s : option scan_state) with
  | None => Ok (None, h)
  | Some s =>
      let c := sn_caches s in
      Ok (Some (), assign_co_caches (mkSmartCaches (smart_origin c) (smart_state c) (deployed_by_creator c) last_ph) h)
  end.

(** The constructor of [APIHandler]: the caches of the chain it finds. *)
Definition APIHandler_make (fuel : nat) (bc : BlockChain D) : result (option unit * Contracts) :=
  let h := mkContracts bc SmartCaches_default [] in
  if bc_good_ bc then update_smart_caches fuel h else Ok (Some (), h).

(** ** Queries *)

(** [s_blockchain.loadTransaction(id)], read as a contract. *)
Definition load_smart (id : TransactionID) (h : Contracts) : result (SmartContract * Contracts) :=
  '(tr, bc) ← loadTransaction id (co_blockchain h);
  smart ← fetch_smart tr;
  Ok (smart, assign_co_blockchain bc h).

(** [smart_origin[address]], which adds a missing entry. *)
Definition origin_at (address : byte_array) (h : Contracts) : TransactionID * Contracts :=
  let c := co_caches h in
  (map_at_default TransactionID_default address (smart_origin c),
   assign_co_caches (mkSmartCaches (map_emplace address TransactionID_default (smart_origin c)) (smart_state c)
                       (deployed_by_creator c) (last_seen_contract_block c)) h).

(** [smart_state[address]] *)
Definition state_at (address : byte_array) (h : Contracts) : TransactionID * Contracts :=
  let c := co_caches h in
  (map_at_default TransactionID_default address (smart_state c),
   assign_co_caches (mkSmartCaches (smart_origin c) (map_emplace address TransactionID_default (smart_state c))
                       (deployed_by_creator c) (last_seen_contract_block c)) h).

(** [deployed_by_creator[deployer]] *)
Definition deployed_at (deployer : byte_array) (h : Contracts) : list TransactionID * Contracts :=
  let c := co_caches h in
  (map_at_default [] deployer (deployed_by_creator c),
   assign_co_caches (mkSmartCaches (smart_origin c) (smart_state c)
                       (map_emplace deployer [] (deployed_by_creator c)) (last_seen_contract_block c)) h).

(** [SmartContractGet] *)
Definition SmartContractGet (fuel : nat) (address : byte_array) (h : Contracts)
    : result (option (SmartContract * APIResponse) * Contracts) :=
  '(u, h) ← update_smart_caches fuel h;
  match (u : option unit) with
  | None => Ok (None, h)
  | Some _ =>
      let '(trid, h) := origin_at address h in
      '(smart, h) ← load_smart trid h;
      Ok (Some (smart, SetResponseStatus (if negb (bytes_eqb (sc_address smart) []) then SUCCESS else FAILURE) []), h)
  end.

Fixpoint load_smarts (trids : list TransactionID) (h : Contracts) : result (list SmartContract * Contracts) :=
  match trids with
  | [] => Ok ([], h)
  | trid :: trids =>
      '(smart, h) ← load_smart trid h;
      '(smarts, h) ← load_smarts trids h;
      Ok (smart :: smarts, h)
  end.

(** [get_mapped_deployer_smart] *)
Definition get_mapped_deployer_smart {A} (mapper : SmartContract → A) (fuel : nat) (deployer : byte_array) (h : Contracts)
    : result (option (list A) * Contracts) :=
  '(u, h) ← update_smart_caches fuel h;
  match (u : option unit) with
  | None => Ok (None, h)
  | Some _ =>
      let '(trids, h) := deployed_at deployer h in
      '(smarts, h) ← load_smarts trids h;
      Ok (Some (mapper <$> (smarts : list SmartContract)), h)
  end.

(** [SmartContractsListGet] and [SmartContractAddressesListGet] *)
Definition SmartContractsListGet (fuel : nat) (deployer : byte_array) (h : Contracts)
    : result (option (list SmartContract) * APIResponse * Contracts) :=
  addr ← getAddressFromKey (deployer ++ [0]);
  '(l, h) ← get_mapped_deployer_smart id fuel addr h;
  Ok (l, SetResponseStatus SUCCESS [], h).

Definition SmartContractAddressesListGet (fuel : nat) (deployer : byte_array) (h : Contracts)
    : result (option (list byte_array) * APIResponse * Contracts) :=
  addr ← getAddressFromKey (deployer ++ [0]);
  '(l, h) ← get_mapped_deployer_smart sc_address fuel addr h;
  Ok (l, SetResponseStatus SUCCESS [], h).

(** ** Transactions of clients *)

Definition WALLET_DENOM : Z := 1000000000000000000.

(** The transaction for the solver, before a contract is added; its number is never
    set, and [innerID] is what the member happens to hold. *)
Definition wallet_transaction (innerID : Z) (source target : byte_array) (amount balance : Amount) : Transaction :=
  let t := Transaction_set_amount amount (Transaction_new innerID) in
  let t := Transaction_set_balance balance t in
  let t := Transaction_set_currency (str "CS") t in
  let t := Transaction_set_source source t in
  Transaction_set_target target t.

(** The contract that goes to the network: the one of the chain, with the code of
    a deployment, and the method and parameters of the request. *)
Definition contract_for_net (deploy : bool) (target : byte_array) (input smart_for_net : SmartContract) : SmartContract :=
  mkSmartContract target
    (if deploy then sc_sourceCode input else sc_sourceCode smart_for_net)
    (if deploy then sc_byteCode input else sc_byteCode smart_for_net)
    (sc_contractState smart_for_net) (sc_hashState input) (sc_method input) (sc_params input).

(** The code and the sources of a request that names a method are dropped. *)
Definition request_contract (input : SmartContract) : SmartContract :=
  if negb (bytes_eqb (sc_method input) [])
  then mkSmartContract (sc_address input) [] [] (sc_contractState input) (sc_hashState input) (sc_method input) (sc_params input)
  else input.

(** The branch for contracts: the contract that the executor knows and the one for
    the network, or nothing when the request is refused. *)
Definition prepare_contract (fuel : nat) (transaction : api_Transaction) (h : Contracts)
    : result (option (option (SmartContract * SmartContract)) * Contracts) :=
  '(u, h) ← update_smart_caches fuel h;
  match (u : option unit) with
  | None => Ok (None, h)
  | Some _ =>
      let '(origin, h) := origin_at (at_target transaction) h in
      '(smart_for_executor, h) ← load_smart origin h;
      let '(state, h) := state_at (at_target transaction) h in
      '(smart_for_net, h) ← load_smart state h;
      let input_smart := request_contract (at_smartContract transaction) in
      let deploy := is_smart_deploy input_smart in
      if Bool.eqb (bytes_eqb (sc_address smart_for_executor) []) deploy
      then Ok (Some (Some (smart_for_executor, contract_for_net deploy (at_target transaction) input_smart smart_for_net)), h)
      else Ok (Some None, h)
  end.

(** The transaction that carries a contract. *)
Definition contract_transaction (t : Transaction) (smart : SmartContract) : Transaction :=
  Transaction_set_amount (Amount_of_int 1) (Transaction_add_user_field 0 (UF_String (serialize smart)) t).2.

(** The call of the executor. *)
Definition execute (smart_for_executor smart_for_net : SmartContract) : result byte_array :=
  executeByteCode (sc_address smart_for_net) (sc_byteCode smart_for_executor) (sc_contractState smart_for_net)
    (if bytes_eqb (sc_method smart_for_net) [] then str "initialize" else sc_method smart_for_net) (sc_params smart_for_net).

(** The contract with the state that the executor gives. *)
Definition executed_contract (smart_for_net : SmartContract) (contractState : byte_array) : SmartContract :=
  mkSmartContract (sc_address smart_for_net) [] [] contractState []
    (sc_method smart_for_net) (sc_params smart_for_net).

(** The address that gets no answer. *)
Definition ignored_target : byte_array := str "accXpfvxnZa8txuxpjyPqzBaqYPHqYu2rwn34lL8rjI=".

(** [TransactionFlow] returns, with a response if one is set, or an exception
    leaves it after the first transaction was sent.  An exception before that is
    one of the function, which has then sent nothing. *)
Inductive flow_outcome :=
| Flow_return (response : option APIResponse)
| Flow_throw (e : exn).

Definition TransactionFlow (fuel : nat) (innerID : Z) (transaction : api_Transaction) (h : Contracts)
    : result (option flow_outcome * Contracts) :=
  if bytes_eqb (at_target transaction) ignored_target then Ok (Some (Flow_return None), h)
  else
    source ← getAddressFromKey (at_source transaction ++ [0]);
    amount ← Amount_of_ratio (aa_integral (at_amount transaction)) (u64 (aa_fraction (at_amount transaction))) WALLET_DENOM;
    '(balance, bc) ← getBalance fuel source (co_blockchain h);
    let h := assign_co_blockchain bc h in
    match (balance : option Amount) with
    | None => Ok (None, h)
    | Some balance =>
        target ← getAddressFromKey (at_target transaction ++ [0]);
        let send_transaction := wallet_transaction innerID source target amount balance in
        let smart := negb (bytes_eqb (sc_address (at_smartContract transaction)) []) in
        if negb smart then
          Ok (Some (Flow_return (Some (SetResponseStatus SUCCESS []))), send_wallet_transaction send_transaction h)
        else
          '(prepared, h) ← prepare_contract fuel transaction h;
          match (prepared : option (option (SmartContract * SmartContract))) with
          | None => Ok (None, h)
          | Some None => Ok (Some (Flow_return (Some (SetResponseStatus FAILURE []))), h)
          | Some (Some (smart_for_executor, smart_for_net)) =>
              let send_transaction := contract_transaction send_transaction smart_for_net in
              let h := send_wallet_transaction send_transaction h in
              match execute smart_for_executor smart_for_net with
              | Throw e => Ok (Some (Flow_throw e), h)
              | Ok contractState =>
                  let new_smart := executed_contract smart_for_net contractState in
                  let contract_redeploy_tr := (Transaction_add_user_field 0 (UF_String (serialize new_smart)) send_transaction).2 in
                  Ok (Some (Flow_return (Some (SetResponseStatus SUCCESS []))), send_wallet_transaction contract_redeploy_tr h)
              end
          end
    end.

End Contracts.
Arguments Contracts : clear implicits.

(** ** What the caches should hold *)

Section ContractLaws.
Context {D : Type} {DB : Database D} {ready : D → Prop} {index : D → gmap byte_array Z}
  {blocks : D → gmap Z byte_array} {DL : DatabaseLaws D ready index blocks}.
Context (serialize : SmartContract → byte_array) (deserialize : byte_array → result SmartContract).
Context (executeByteCode : byte_array → byte_array → byte_array → byte_array → list byte_array → result byte_array).
Implicit Types (ts l old : list Transaction) (ps : list Pool) (c : SmartCaches) (s : scan_state).

(** The contract in a transaction. *)
Definition smart_of (t : Transaction) : option SmartContract :=
  if is_smart t then match fetch_smart deserialize t with Ok smart => Some smart | Throw _ => None end else None.

(** Every contract of the ledger can be read. *)
Definition readable ts : Prop := Forall (λ t, is_smart t = true → ∃ smart, fetch_smart deserialize t = Ok smart) ts.

Definition deploys (a : byte_array) (t : Transaction) : bool :=
  match smart_of t with Some smart => is_smart_deploy smart && bytes_eqb (sc_address smart) a | None => false end.

Definition updates_state (a : byte_array) (t : Transaction) : bool :=
  match smart_of t with Some smart => negb (is_smart_deploy smart) && bytes_eqb (sc_address smart) a | None => false end.

Definition deployed_by (src : byte_array) (t : Transaction) : bool :=
  match smart_of t with Some smart => is_smart_deploy smart && bytes_eqb (t_source_ t) src | None => false end.

(** The identifier of the newest transaction with a property. *)
Definition first_id (f : Transaction → bool) ts : TransactionID :=
  match List.find f ts with Some t => t_id_ t | None => TransactionID_default end.

(** No contract is deployed twice. *)
Definition unique_deploys ts : Prop := ∀ a, (length (List.filter (deploys a) ts) <= 1)%nat.

Definition caches_sorted c : Prop :=
  map_sorted (smart_origin c) ∧ map_sorted (smart_state c) ∧ map_sorted (deployed_by_creator c).

(** The identifier of a deployment at an address, of the only one if it is the only
    one; the empty one if there is none. *)
Definition deployed_as ts (a : byte_array) (id : TransactionID) : Prop :=
  if existsb (deploys a) ts then ∃ t, t ∈ ts ∧ deploys a t = true ∧ t_id_ t = id else id = TransactionID_default.

(** The caches for the ledger [ts]: the newest state of every contract, the
    deployments of every address with the newest first, and a deployment of
    every contract. *)
Definition caches_ok ts c : Prop :=
  caches_sorted c ∧
  (∀ a, map_at_default TransactionID_default a (smart_state c) = first_id (updates_state a) ts) ∧
  (∀ src, map_at_default [] src (deployed_by_creator c) = t_id_ <$> List.filter (deployed_by src) ts) ∧
  (∀ a, deployed_as ts a (map_at_default TransactionID_default a (smart_origin c))).

(** The state of the scan after the transactions [l], which are newer than [old]. *)
Definition scan_inv old l s : Prop :=
  caches_ok (l ++ old) (sn_caches s) ∧ map_sorted (sn_poss s) ∧
  (∀ a, a ∈ sn_state_updated s ↔ existsb (updates_state a) l = true) ∧
  (∀ src, map_find src (sn_poss s)
          = if existsb (deployed_by src) l then Some (length (List.filter (deployed_by src) old)) else None).

(** ** The scan *)

Lemma find_existsb (f : Transaction → bool) l : List.find f l = None ↔ existsb f l = false.
Proof. induction l as [|x l IH]; cbn; [done|]. by destruct (f x). Qed.

Lemma first_id_step f l t old :
  first_id f ((l ++ [t]) ++ old) = if negb (existsb f l) && f t then t_id_ t else first_id f (l ++ old).
Proof.
  unfold first_id. rewrite !find_app. destruct (List.find f l) as [u|] eqn:E.
  - destruct (existsb f l) eqn:Ex; [done|]. apply find_existsb in Ex. congruence.
  - apply find_existsb in E. rewrite E. cbn. by destruct (f t).
Qed.

Lemma filter_step (f : Transaction → bool) l t old :
  List.filter f ((l ++ [t]) ++ old) = List.filter f l ++ (if f t then [t] else []) ++ List.filter f old.
Proof. rewrite <- app_assoc, !List.filter_app. by destruct (f t) eqn:E; cbn; rewrite E. Qed.

Lemma existsb_snoc (f : Transaction → bool) l t : existsb f (l ++ [t]) = existsb f l || f t.
Proof. rewrite existsb_app. cbn. by rewrite orb_false_r. Qed.

Lemma filter_none (f : Transaction → bool) l : existsb f l = false → List.filter f l = [].
Proof. induction l as [|x l IH]; cbn; [done|]. by destruct (f x). Qed.

Lemma map_at_set {V} (d : V) k v m a :
  map_sorted m → map_at_default d a (map_set k v m) = if bytes_eqb k a then v else map_at_default d a m.
Proof.
  intros Hs. unfold map_at_default, bytes_eqb. case_bool_decide as E.
  - subst. by rewrite map_find_set_eq.
  - by rewrite map_find_set_ne by congruence.
Qed.

Lemma insert_before_app pos id (ids1 ids2 : list TransactionID) :
  length ids2 = pos → insert_before pos id (ids1 ++ ids2) = ids1 ++ id :: ids2.
Proof.
  intros <-. unfold insert_before. rewrite length_app, Nat.add_sub. by rewrite take_app_length, drop_app_length.
Qed.

(** A transaction more does not change a deployment that was found. *)
Lemma deployed_as_step a l t old id :
  deployed_as (l ++ old) a id → deploys a t = false → deployed_as ((l ++ [t]) ++ old) a id.
Proof.
  unfold deployed_as. intros H Ht. rewrite !existsb_app in *. cbn. rewrite Ht, !orb_false_r.
  destruct (_ || _); [|done]. destruct H as (u & Hu & Hd & E). exists u. split; [|done].
  rewrite !elem_of_app in *. destruct Hu; [by left; left|by right].
Qed.

Lemma deployed_as_new a l t old : deploys a t = true → deployed_as ((l ++ [t]) ++ old) a (t_id_ t).
Proof.
  intros Ht. unfold deployed_as. rewrite !existsb_app. cbn. rewrite Ht, orb_true_r. cbn. exists t. split; [|done].
  rewrite !elem_of_app. left. right. by left.
Qed.

(** The only deployment is the one that is found. *)
Lemma deployed_as_unique ts a id : unique_deploys ts → deployed_as ts a id → id = first_id (deploys a) ts.
Proof.
  unfold deployed_as, first_id. intros Hu H. destruct (existsb (deploys a) ts) eqn:E.
  - destruct H as (t & Hin & Ht & <-). destruct (List.find (deploys a) ts) as [u|] eqn:Ef; [|apply find_existsb in Ef; congruence].
    apply List.find_some in Ef as [Hin' Hu']. specialize (Hu a).
    assert (In t (List.filter (deploys a) ts)) as H1 by (apply filter_In; split; [by apply list_elem_of_In|done]).
    assert (In u (List.filter (deploys a) ts)) as H2 by (by apply filter_In).
    destruct (List.filter (deploys a) ts) as [|x [|]]; cbn in *; [done|destruct H1, H2; by subst|lia].
  - apply find_existsb in E. by rewrite E.
Qed.

Lemma scan_deploy old l t s smart :
  scan_inv old l s → smart_of t = Some smart → is_smart_deploy smart = true →
  let c := sn_caches s in
  let targetList := map_at_default [] (t_source_ t) (deployed_by_creator c) in
  let poss := map_emplace (t_source_ t) (length targetList) (sn_poss s) in
  let pos := map_at_default 0%nat (t_source_ t) poss in
  scan_inv old (l ++ [t])
    (mkScan (mkSmartCaches (map_set (sc_address smart) (t_id_ t) (smart_origin c)) (smart_state c)
               (map_set (t_source_ t) (insert_before pos (t_id_ t) targetList) (deployed_by_creator c))
               (last_seen_contract_block c)) poss (sn_state_updated s)).
Proof.
  intros (((So & Ss & Sd) & Hst & Hd & Ho) & Sp & Hup & Hpos) Hsm Hdep. cbv zeta.
  set (targetList := map_at_default [] _ _). set (poss := map_emplace _ _ _).
  assert (∀ a, updates_state a t = false) as Hu0 by (intros a; unfold updates_state; by rewrite Hsm, Hdep).
  assert (∀ src, deployed_by src t = bytes_eqb (t_source_ t) src) as Hd0 by (intros src; unfold deployed_by; by rewrite Hsm, Hdep).
  assert (∀ a, deploys a t = bytes_eqb (sc_address smart) a) as Hde by (intros a; unfold deploys; by rewrite Hsm, Hdep).
  assert (targetList = (t_id_ <$> List.filter (deployed_by (t_source_ t)) l) ++ (t_id_ <$> List.filter (deployed_by (t_source_ t)) old)) as Etl.
  { subst targetList. by rewrite Hd, List.filter_app, fmap_app. }
  assert (∀ src, map_find src poss = if existsb (deployed_by src) (l ++ [t]) then Some (length (List.filter (deployed_by src) old)) else None) as Hpos'.
  { intros src. subst poss. rewrite existsb_snoc, Hd0. unfold map_emplace. rewrite Hpos.
    destruct (existsb (deployed_by (t_source_ t)) l) eqn:Ex; unfold bytes_eqb; case_bool_decide as E.
    - subst src. by rewrite Ex, Hpos, Ex.
    - by rewrite orb_false_r.
    - subst src. rewrite orb_true_r, map_find_set_eq by done. f_equal. rewrite Etl, length_app, !length_fmap.
      by rewrite (filter_none _ _ Ex).
    - rewrite orb_false_r, map_find_set_ne by congruence. apply Hpos. }
  split; [|split; [|split; [|exact Hpos']]]; cbn [sn_caches sn_poss sn_state_updated].
  - split; [split; [by apply map_set_sorted|split; [done|by apply map_set_sorted]]|].
    cbn [smart_state deployed_by_creator smart_origin]. split; [|split].
    + intros a. by rewrite first_id_step, Hu0, andb_false_r.
    + intros src. rewrite map_at_set, filter_step, Hd0 by done. unfold bytes_eqb. case_bool_decide as E.
      * subst src. unfold map_at_default. rewrite Hpos', existsb_snoc, Hd0, bytes_eqb_refl, orb_true_r, Etl.
        rewrite insert_before_app by apply length_fmap. by rewrite !fmap_app.
      * by rewrite Hd, List.filter_app.
    + intros a. rewrite map_at_set by done. destruct (bytes_eqb (sc_address smart) a) eqn:E.
      * apply deployed_as_new. by rewrite Hde.
      * apply deployed_as_step; [apply Ho|by rewrite Hde].
  - by apply map_emplace_sorted.
  - intros a. rewrite Hup, existsb_snoc, Hu0, orb_false_r. done.
Qed.

Lemma scan_update old l t s smart :
  scan_inv old l s → smart_of t = Some smart → is_smart_deploy smart = false →
  sc_address smart ∉ sn_state_updated s →
  let c := sn_caches s in
  scan_inv old (l ++ [t])
    (mkScan (mkSmartCaches (smart_origin c) (map_set (sc_address smart) (t_id_ t) (smart_state c))
               (deployed_by_creator c) (last_seen_contract_block c))
            (sn_poss s) (sc_address smart :: sn_state_updated s)).
Proof.
  intros (((So & Ss & Sd) & Hst & Hd & Ho) & Sp & Hup & Hpos) Hsm Hdep Hnew. cbv zeta.
  assert (∀ a, updates_state a t = bytes_eqb (sc_address smart) a) as Hu0 by (intros a; unfold updates_state; by rewrite Hsm, Hdep).
  assert (∀ src, deployed_by src t = false) as Hd0 by (intros src; unfold deployed_by; by rewrite Hsm, Hdep).
  assert (∀ a, deploys a t = false) as Hde by (intros a; unfold deploys; by rewrite Hsm, Hdep).
  split; [|split; [done|split]]; cbn [sn_caches sn_poss sn_state_updated].
  - split; [split; [done|split; [by apply map_set_sorted|done]]|].
    cbn [smart_state deployed_by_creator smart_origin]. split; [|split].
    + intros a. rewrite map_at_set, first_id_step, Hu0 by done. unfold bytes_eqb. case_bool_decide as E; [|by rewrite andb_false_r].
      subst a. destruct (existsb (updates_state (sc_address smart)) l) eqn:Ex; [|done]. by apply Hup in Ex.
    + intros src. rewrite filter_step, Hd0, Hd, List.filter_app. done.
    + intros a. by apply deployed_as_step.
  - intros a. rewrite elem_of_cons, Hup, existsb_snoc, Hu0, orb_true_iff, bytes_eqb_eq.
    split; [intros [-> |?]; auto|intros [?| <-]; auto].
  - intros src. by rewrite existsb_snoc, Hd0, orb_false_r.
Qed.

Lemma scan_skip old l t s :
  scan_inv old l s → (∀ a, updates_state a t = true → a ∈ sn_state_updated s) →
  (∀ src, deployed_by src t = false) → (∀ a, deploys a t = false) → scan_inv old (l ++ [t]) s.
Proof.
  intros (((So & Ss & Sd) & Hst & Hd & Ho) & Sp & Hup & Hpos) H1 H2 H3. split; [|split; [done|split]].
  - split; [done|]. split; [|split].
    + intros a. rewrite first_id_step. destruct (updates_state a t) eqn:E; [|by rewrite andb_false_r].
      apply H1, Hup in E. by rewrite E.
    + intros src. rewrite filter_step, H2, Hd, List.filter_app. done.
    + intros a. by apply deployed_as_step.
  - intros a. rewrite Hup, existsb_snoc, orb_true_iff. split; [by left|]. intros [?|E]; [done|]. by apply Hup, H1.
  - intros src. by rewrite existsb_snoc, H2, orb_false_r.
Qed.

Lemma scan_transaction_spec old l t s :
  scan_inv old l s → readable [t] →
  ∃ s', scan_transaction deserialize s t = Ok s' ∧ scan_inv old (l ++ [t]) s' ∧
    last_seen_contract_block (sn_caches s') = last_seen_contract_block (sn_caches s).
Proof.
  intros Hs [Hr _]%Forall_cons. unfold scan_transaction. destruct (is_smart t) eqn:Hsmart; cbn [negb].
  - destruct (Hr eq_refl) as (smart & E). rewrite E, bind_Ok.
    assert (smart_of t = Some smart) as Hsm by (unfold smart_of; by rewrite Hsmart, E).
    destruct (is_smart_deploy smart) eqn:Hdep.
    { eexists. split; [done|]. split; [by apply scan_deploy|done]. }
    destruct (bool_decide (sc_address smart ∈ sn_state_updated s)) eqn:Hb; cbn [negb].
    + apply bool_decide_eq_true in Hb. exists s. split; [done|]. split; [|done].
      apply scan_skip; [done|..]; unfold updates_state, deployed_by, deploys; rewrite Hsm, Hdep; try done.
      intros a. cbn [negb andb]. by intros <-%bytes_eqb_eq.
    + apply bool_decide_eq_false in Hb. eexists. split; [done|]. split; [by apply scan_update|done].
  - exists s. split; [done|]. split; [|done].
    apply scan_skip; [done|..]; unfold updates_state, deployed_by, deploys, smart_of; by rewrite Hsmart.
Qed.

Lemma scan_transactions_spec old l ts s :
  scan_inv old l s → readable ts →
  ∃ s', scan_transactions deserialize s ts = Ok s' ∧ scan_inv old (l ++ ts) s' ∧
    last_seen_contract_block (sn_caches s') = last_seen_contract_block (sn_caches s).
Proof.
  revert l s. induction ts as [|t ts IH]; intros l s Hs Hr; [exists s; by rewrite app_nil_r|].
  apply Forall_cons in Hr as [Hr Hrs]. cbn [scan_transactions].
  destruct (scan_transaction_spec old l t s Hs) as (s1 & -> & H1 & E1); [by constructor|]. rewrite bind_Ok.
  destruct (IH (l ++ [t]) s1 H1 Hrs) as (s2 & E & H2 & E2). exists s2. rewrite <- app_assoc in H2.
  split; [done|]. split; [done|congruence].
Qed.

Abbreviation bc_at := (bc_view (ready := ready) (index := index) (blocks := blocks)).

(** The walk over the new blocks [qs], to the block that was seen last. *)
Lemma scan_blocks_spec idx blk lh fuel hs qs ps old l s bc :
  bc_at idx blk lh bc → chain idx blk hs (qs ++ ps) → tail_of hs qs = last_seen_contract_block (sn_caches s) →
  last_seen_contract_block (sn_caches s) = newest ps → (length qs < fuel)%nat →
  scan_inv old l s → readable (ledger qs) →
  ∃ s' st, scan_blocks deserialize fuel hs s bc = Ok (Some s', assign_bc_storage st bc) ∧
    bc_at idx blk lh (assign_bc_storage st bc) ∧ scan_inv old (l ++ ledger qs) s'.
Proof.
  revert fuel hs l s bc. induction qs as [|q qs IH]; intros [|fuel] hs l s bc Hv Hc Ht Hn Hf Hs Hr; cbn in Hf; try lia;
    cbn [scan_blocks].
  - cbn in Ht. rewrite <- Ht. unfold PoolHash_eqb. rewrite bytes_eqb_refl. cbn [negb].
    exists s, (bc_storage_ bc). cbn [ledger mbind list_bind]. rewrite app_nil_r. by destruct bc.
  - destruct (chain_head _ _ _ _ _ Hc) as (Hqv & Hqs & Hh & Hc').
    assert (PoolHash_eqb hs (last_seen_contract_block (sn_caches s)) = false) as ->.
    { apply not_true_iff_false. unfold PoolHash_eqb. rewrite bytes_eqb_eq, Hn. intros E. subst hs.
      apply (chain_before _ _ _ (newest ps) q qs ps Hc); [|done]. exact (chain_newest _ _ _ (q :: qs) ps Hc). }
    cbn [negb]. destruct (loadBlock_chain _ _ _ _ _ _ Hv Hc) as (curr & st & E & Hv1 & Hat). rewrite E, bind_Ok.
    destruct Hat as (-> & _). cbv beta iota. unfold ledger in Hr. cbn [mbind list_bind] in Hr. apply Forall_app in Hr as [Hr1 Hr2].
    destruct (scan_transactions_spec old l _ s Hs Hr1) as (s1 & E1 & H1 & Hl1). rewrite E1, bind_Ok.
    destruct (IH fuel (p_previous_hash_ q) (l ++ rev (p_transactions_ q)) s1 _ Hv1 Hc') as (s' & st' & E' & Hv' & H');
      try done; [by rewrite Hl1|by rewrite Hl1|lia|].
    exists s', st'. split; [exact E'|]. split; [exact Hv'|]. unfold ledger. cbn [mbind list_bind]. by rewrite app_assoc.
Qed.

Lemma tail_of_app hs (qs ps : list Pool) : tail_of hs (qs ++ ps) = tail_of (tail_of hs qs) ps.
Proof. revert hs. induction qs as [|q qs IH]; intros hs; [done|]. apply IH. Qed.

(** The walk from the newest block over [qs] arrives at the newest block of [ps]. *)
Lemma tail_newest idx blk hs qs ps :
  chain idx blk hs (qs ++ ps) → tail_of hs (qs ++ ps) = [] → tail_of hs qs = newest ps.
Proof.
  intros Hc Ht. destruct ps as [|p ps]; [by rewrite app_nil_r in Ht|]. clear Ht. revert hs Hc.
  induction qs as [|q qs IH]; intros hs Hc; cbn [tail_of app] in *.
  - by destruct (chain_head _ _ _ _ _ Hc) as (_ & _ & ? & _).
  - apply IH. by destruct (chain_head _ _ _ _ _ Hc) as (_ & _ & _ & ?).
Qed.

(** What the handler knows of the chain [ps], which starts at the empty hash. *)
Definition contracts_at idx blk ps (h : Contracts D) : Prop :=
  bc_at idx blk (newest ps) (co_blockchain h) ∧ chain idx blk (newest ps) ps ∧ tail_of (newest ps) ps = [].

Lemma caches_update_spec idx blk qs ps fuel h :
  contracts_at idx blk (qs ++ ps) h → last_seen_contract_block (co_caches h) = newest ps →
  caches_ok (ledger ps) (co_caches h) → readable (ledger qs) → (length qs < fuel)%nat →
  ∃ h', update_smart_caches deserialize fuel h = Ok (Some (), h') ∧ contracts_at idx blk (qs ++ ps) h' ∧
    co_sent h' = co_sent h ∧ bc_balancesCache_ (co_blockchain h') = bc_balancesCache_ (co_blockchain h) ∧
    last_seen_contract_block (co_caches h') = newest (qs ++ ps) ∧ caches_ok (ledger (qs ++ ps)) (co_caches h').
Proof.
  intros (Hv & Hc & Ht) Hn Hok Hr Hf. unfold update_smart_caches, getLastHash. rewrite (proj1 Hv).
  destruct (scan_blocks_spec idx blk _ fuel _ qs ps (ledger ps) [] (mkScan (co_caches h) [] []) _ Hv Hc)
    as (s & st & E & Hv' & Hs); try done.
  { cbn [sn_caches]. rewrite Hn. by apply (tail_newest idx blk). }
  { split; [exact Hok|]. split; [constructor|]. split; [|done]. intros a. rewrite elem_of_nil. done. }
  rewrite E, bind_Ok. eexists. split; [done|]. split; [by split|]. split; [done|]. split; [done|]. split; [done|].
  destruct Hs as [Hs _]. rewrite app_nil_l in Hs. unfold ledger in *. rewrite bind_app. exact Hs.
Qed.

(** C16: However often the caches were brought up to date before, after the next
    update they are those of the whole chain, provided that every contract in the
    new blocks can be read: the last state of every contract, the deployments of
    every address, newest first, and for every contract a deployment of it, the
    one if it was deployed once. *)
Theorem update_smart_caches_correct idx blk qs ps fuel h :
  contracts_at idx blk (qs ++ ps) h → last_seen_contract_block (co_caches h) = newest ps →
  caches_ok (ledger ps) (co_caches h) → readable (ledger qs) → (length qs < fuel)%nat →
  ∃ h', update_smart_caches deserialize fuel h = Ok (Some (), h') ∧ contracts_at idx blk (qs ++ ps) h' ∧
    last_seen_contract_block (co_caches h') = newest (qs ++ ps) ∧ caches_ok (ledger (qs ++ ps)) (co_caches h').
Proof.
  intros Hat Hn Hok Hr Hf. destruct (caches_update_spec idx blk qs ps fuel h Hat Hn Hok Hr Hf) as (h' & E & Hat' & _ & _ & Hl & Hok').
  by exists h'.
Qed.

Lemma caches_ok_empty : caches_ok [] SmartCaches_default.
Proof. split; [repeat split; constructor|]. done. Qed.

(** The constructor fills the caches from the whole chain. *)
Lemma APIHandler_make_caches idx blk ps fuel bc :
  contracts_at idx blk ps (mkContracts bc SmartCaches_default []) → bc_good_ bc = true → readable (ledger ps) →
  (length ps < fuel)%nat →
  ∃ h, APIHandler_make deserialize fuel bc = Ok (Some (), h) ∧ contracts_at idx blk ps h ∧
    last_seen_contract_block (co_caches h) = newest ps ∧ caches_ok (ledger ps) (co_caches h).
Proof.
  intros Hat Hg Hr Hf. unfold APIHandler_make. rewrite Hg.
  destruct (caches_update_spec idx blk ps [] fuel (mkContracts bc SmartCaches_default [])) as (h & E & H1 & _ & _ & H2 & H3);
    rewrite ?app_nil_r in *; try done; [apply caches_ok_empty|]. by exists h.
Qed.

(** ** Contracts of the chain *)

(** The contract of a transaction that has one. *)
Definition contract_of (t : Transaction) : SmartContract :=
  match smart_of t with Some smart => smart | None => SmartContract_default end.

Lemma ledger_elem ps t :
  t ∈ ledger ps → ∃ ps1 p ps2 i, ps = ps1 ++ p :: ps2 ∧ p_transactions_ p !! i = Some t.
Proof.
  unfold ledger. intros (p & Ht & Hp)%list_elem_of_bind. apply list_elem_of_In, in_rev, list_elem_of_In in Ht.
  apply list_elem_of_split in Hp as (ps1 & ps2 & ->). apply list_elem_of_lookup in Ht as (i & Hi). by exists ps1, p, ps2, i.
Qed.

Lemma ledger_load idx blk lh ps t bc :
  bc_at idx blk lh bc → chain idx blk lh ps → t ∈ ledger ps →
  ∃ st, loadTransaction (t_id_ t) bc = Ok (t, assign_bc_storage st bc) ∧ bc_at idx blk lh (assign_bc_storage st bc).
Proof.
  intros Hv Hc (ps1 & p & ps2 & i & -> & Hi)%ledger_elem. pose proof (chain_suffix _ _ _ _ _ _ Hc) as Hcp.
  destruct (chain_head _ _ _ _ _ Hcp) as (Hpv & Hps & _ & _). pose proof Hps as (_ & _ & Hh & Hid).
  destruct (Hid i t Hi) as [_ Et]. unfold loadTransaction, Storage_transaction, TransactionID_is_valid. rewrite Et. cbn [id_pool_hash_].
  rewrite Hh, calc_hash_nonempty, <- Hh. cbn [negb].
  destruct (chain_load _ _ _ _ _ _ Hv Hcp) as (curr & st & E & Hv' & Hat). rewrite E, bind_Ok, bind_Ok.
  destruct Hat as (-> & _). rewrite <- Et, (Pool_by_own_id p i t Hps Hi). exists st. by split.
Qed.

(** What reading a contract leaves as it was. *)
Definition same_caches (h h' : Contracts D) : Prop :=
  co_caches h' = co_caches h ∧ co_sent h' = co_sent h ∧
  bc_balancesCache_ (co_blockchain h') = bc_balancesCache_ (co_blockchain h).

Lemma load_smart_first idx blk ps f h :
  contracts_at idx blk ps h → readable (ledger ps) → (∀ t, f t = true → is_smart t = true) →
  ∃ h', load_smart deserialize (first_id f (ledger ps)) h
    = Ok (match List.find f (ledger ps) with Some t => contract_of t | None => SmartContract_default end, h') ∧
    contracts_at idx blk ps h' ∧ same_caches h h'.
Proof.
  intros (Hv & Hc & Ht) Hr Hf. unfold load_smart, first_id. destruct (List.find f (ledger ps)) as [t|] eqn:E.
  - apply List.find_some in E as [Hin%list_elem_of_In Hft].
    destruct (ledger_load idx blk _ ps t _ Hv Hc Hin) as (st & -> & Hv'). rewrite bind_Ok.
    destruct (proj1 (Forall_forall _ _) Hr t Hin (Hf t Hft)) as (smart & Es). rewrite Es, bind_Ok.
    exists (assign_co_blockchain (assign_bc_storage st (co_blockchain h)) h). split; [|split; [|done]].
    + unfold contract_of, smart_of. by rewrite (Hf t Hft), Es.
    + by split.
  - eexists. split; [done|]. split; [|done]. split; [|done]. destruct Hv as [Hl (d & Hd)]. split; [done|]. by exists d.
Qed.

Lemma finds_smart f : (∀ t, f t = true → smart_of t ≠ None) → ∀ t, f t = true → is_smart t = true.
Proof. intros H t Ht. specialize (H t Ht). unfold smart_of in H. by destruct (is_smart t). Qed.

Lemma deploys_smart a t : deploys a t = true → is_smart t = true.
Proof. apply finds_smart. intros u Hu. unfold deploys in Hu. by destruct (smart_of u). Qed.

Lemma state_smart a t : updates_state a t = true → is_smart t = true.
Proof. apply finds_smart. intros u Hu. unfold updates_state in Hu. by destruct (smart_of u). Qed.

Lemma deployed_smart src t : deployed_by src t = true → is_smart t = true.
Proof. apply finds_smart. intros u Hu. unfold deployed_by in Hu. by destruct (smart_of u). Qed.

(** A missing entry that is added does not change what is found. *)
Lemma map_at_emplace {V} (d : V) k m a :
  map_sorted m → map_at_default d a (map_emplace k d m) = map_at_default d a m.
Proof.
  intros Hs. unfold map_emplace. destruct (map_find k m) eqn:E; [done|]. rewrite map_at_set by done.
  unfold bytes_eqb. case_bool_decide as Ek; [|done]. subst. unfold map_at_default. by rewrite E.
Qed.

Lemma caches_ok_origin ts c a :
  caches_ok ts c → caches_ok ts (mkSmartCaches (map_emplace a TransactionID_default (smart_origin c)) (smart_state c)
                                   (deployed_by_creator c) (last_seen_contract_block c)).
Proof.
  intros ((So & Ss & Sd) & Hs & Hd & Ho). split; [split; [by apply map_emplace_sorted|done]|]. split; [done|]. split; [done|].
  intros b. cbn [smart_origin]. rewrite map_at_emplace by done. by apply Ho.
Qed.

Lemma caches_ok_state ts c a :
  caches_ok ts c → caches_ok ts (mkSmartCaches (smart_origin c) (map_emplace a TransactionID_default (smart_state c))
                                   (deployed_by_creator c) (last_seen_contract_block c)).
Proof.
  intros ((So & Ss & Sd) & Hs & Hd & Ho). split; [split; [done|split; [by apply map_emplace_sorted|done]]|]. split; [|done].
  intros b. cbn [smart_state]. rewrite map_at_emplace by done. by apply Hs.
Qed.

Lemma caches_ok_deployed ts c a :
  caches_ok ts c → caches_ok ts (mkSmartCaches (smart_origin c) (smart_state c)
                                   (map_emplace a [] (deployed_by_creator c)) (last_seen_contract_block c)).
Proof.
  intros ((So & Ss & Sd) & Hs & Hd & Ho). split; [split; [done|split; [done|by apply map_emplace_sorted]]|].
  split; [done|]. split; [|done]. intros src. cbn [deployed_by_creator]. rewrite map_at_emplace by done. by apply Hd.
Qed.

(** The handler on a chain [qs ++ ps] whose blocks [ps] it has seen, with every
    contract readable. *)
Definition handler_ready idx blk qs ps (fuel : nat) (h : Contracts D) : Prop :=
  contracts_at idx blk (qs ++ ps) h ∧ last_seen_contract_block (co_caches h) = newest ps ∧
  caches_ok (ledger ps) (co_caches h) ∧ readable (ledger (qs ++ ps)) ∧ (length qs < fuel)%nat.

Lemma ready_update idx blk qs ps fuel h :
  handler_ready idx blk qs ps fuel h →
  ∃ h', update_smart_caches deserialize fuel h = Ok (Some (), h') ∧ contracts_at idx blk (qs ++ ps) h' ∧
    co_sent h' = co_sent h ∧ caches_ok (ledger (qs ++ ps)) (co_caches h').
Proof.
  intros (Hat & Hn & Hok & Hr & Hf). unfold ledger in Hr. rewrite bind_app in Hr. apply Forall_app in Hr as [Hr _].
  destruct (caches_update_spec idx blk qs ps fuel h Hat Hn Hok Hr Hf) as (h' & E & Hat' & Hs & _ & _ & Hok'). by exists h'.
Qed.

Lemma load_smarts_spec idx blk ps ts h :
  contracts_at idx blk ps h → readable (ledger ps) → Forall (λ t, t ∈ ledger ps ∧ is_smart t = true) ts →
  ∃ h', load_smarts deserialize (t_id_ <$> ts) h = Ok (contract_of <$> ts, h') ∧ contracts_at idx blk ps h'.
Proof.
  intros Hat Hr Hts. revert h Hat. induction Hts as [|t ts [Hin Hsm] _ IH]; intros h (Hv & Hc & Ht); [exists h; split; [done|by split]|].
  cbn [fmap list_fmap load_smarts]. unfold load_smart.
  destruct (ledger_load idx blk _ ps t _ Hv Hc Hin) as (st & -> & Hv'). rewrite bind_Ok.
  destruct (proj1 (Forall_forall _ _) Hr t Hin Hsm) as (smart & Es). rewrite Es, bind_Ok, bind_Ok.
  destruct (IH (assign_co_blockchain (assign_bc_storage st (co_blockchain h)) h)) as (h' & E & Hat'); [by split|].
  change (list_fmap Transaction TransactionID t_id_ ts) with (t_id_ <$> ts).
  rewrite E, bind_Ok. exists h'. split; [|done]. unfold contract_of at 2, smart_of. by rewrite Hsm, Es.
Qed.

Lemma filter_ledger f ts : (∀ t, f t = true → is_smart t = true) → Forall (λ t, t ∈ ts ∧ is_smart t = true) (List.filter f ts).
Proof.
  intros Hf. apply Forall_forall. intros t [Hin Ht]%list_elem_of_In%filter_In. split; [by apply list_elem_of_In|by apply Hf].
Qed.

(** The contract that is found has the address that was asked for. *)
Lemma found_address a ts t :
  List.find (deploys a) ts = Some t → sc_address (contract_of t) = a ∧ is_smart_deploy (contract_of t) = true.
Proof.
  intros [_ Ht]%List.find_some. unfold deploys in Ht. unfold contract_of.
  destruct (smart_of t); [|done]. apply andb_true_iff in Ht as [Hd Ha%bytes_eqb_eq]. done.
Qed.

(** A query for a contract gives the contract that was deployed at the
    address, or a failure when there is none; a query for the contracts of an
    address gives all it deployed, newest first. *)
Theorem contract_queries_correct idx blk qs ps fuel address deployer addr h :
  let ts := ledger (qs ++ ps) in
  handler_ready idx blk qs ps fuel h → unique_deploys ts → address ≠ [] → getAddressFromKey (deployer ++ [0]) = Ok addr →
  (∃ h', SmartContractGet deserialize fuel address h
     = Ok (Some (match List.find (deploys address) ts with
                 | Some t => (contract_of t, SetResponseStatus SUCCESS [])
                 | None => (SmartContract_default, SetResponseStatus FAILURE [])
                 end), h') ∧ caches_ok ts (co_caches h')) ∧
  (∃ h', SmartContractsListGet deserialize fuel deployer h
     = Ok (Some (contract_of <$> List.filter (deployed_by addr) ts), SetResponseStatus SUCCESS [], h')).
Proof.
  intros ts Hready Hu Hne Hkey. subst ts. pose proof Hready as (_ & _ & _ & Hr & _).
  destruct (ready_update _ _ _ _ _ _ Hready) as (h1 & E & Hat & _ & Hok). split.
  - unfold SmartContractGet. rewrite E, bind_Ok. cbv beta iota. unfold origin_at. cbv beta iota zeta.
    rewrite (deployed_as_unique _ _ _ Hu (proj2 (proj2 (proj2 Hok)) address)). set (h2 := assign_co_caches _ _).
    destruct (load_smart_first idx blk (qs ++ ps) (deploys address) h2 Hat Hr (deploys_smart address)) as (h3 & E3 & _ & Hc & _).
    rewrite E3, bind_Ok. cbv beta iota. exists h3. split; [|rewrite Hc; by apply caches_ok_origin].
    destruct (List.find (deploys address) (ledger (qs ++ ps))) as [t|] eqn:Ef; [|done].
    rewrite (proj1 (found_address _ _ _ Ef)). unfold bytes_eqb. by rewrite bool_decide_eq_false_2.
  - unfold SmartContractsListGet, get_mapped_deployer_smart. rewrite Hkey, bind_Ok, E, bind_Ok. cbv beta iota. unfold deployed_at. cbv beta iota zeta.
    rewrite (proj1 (proj2 (proj2 Hok)) addr). set (h2 := assign_co_caches _ _).
    destruct (load_smarts_spec idx blk (qs ++ ps) (List.filter (deployed_by addr) (ledger (qs ++ ps))) h2 Hat Hr) as (h3 & E3 & _);
      [apply filter_ledger, deployed_smart|].
    rewrite E3, bind_Ok. exists h3. by rewrite list_fmap_id.
Qed.

(** ** Transactions of clients *)

(** A contract that was deployed at an address, and its last state. *)
Definition origin_contract ts (a : byte_array) (c : SmartContract) : Prop :=
  if existsb (deploys a) ts then ∃ t, t ∈ ts ∧ deploys a t = true ∧ c = contract_of t else c = SmartContract_default.

Definition state_contract ts (a : byte_array) : SmartContract :=
  match List.find (updates_state a) ts with Some t => contract_of t | None => SmartContract_default end.

Lemma load_smart_origin idx blk ps a id h :
  contracts_at idx blk ps h → readable (ledger ps) → deployed_as (ledger ps) a id →
  ∃ (c : SmartContract) h', load_smart deserialize id h = Ok (c, h') ∧ origin_contract (ledger ps) a c ∧
    contracts_at idx blk ps h' ∧ same_caches h h'.
Proof.
  intros (Hv & Hc & Ht) Hr Hd. unfold load_smart, deployed_as, origin_contract in *. destruct (existsb _ _).
  - destruct Hd as (t & Hin & Hdt & <-). destruct (ledger_load idx blk _ ps t _ Hv Hc Hin) as (st & -> & Hv'). rewrite bind_Ok.
    pose proof (deploys_smart a t Hdt) as Hsm. destruct (proj1 (Forall_forall _ _) Hr t Hin Hsm) as (smart & Es).
    rewrite Es, bind_Ok. exists smart, (assign_co_blockchain (assign_bc_storage st (co_blockchain h)) h).
    split; [done|]. split; [|split; [by split|done]]. exists t. split; [done|]. split; [done|]. unfold contract_of, smart_of.
    by rewrite Hsm, Es.
  - subst id. eexists _, _. split; [done|]. split; [done|]. split; [|done]. split; [|done].
    destruct Hv as [Hl (d & Hd)]. split; [done|]. by exists d.
Qed.

(** Whether the contract that the executor gets is empty. *)
Lemma origin_empty ts a (c : SmartContract) :
  origin_contract ts a c → a ≠ [] → bytes_eqb (sc_address c) [] = negb (existsb (deploys a) ts).
Proof.
  unfold origin_contract. intros H Ha. destruct (existsb (deploys a) ts); [|by subst].
  destruct H as (t & _ & Ht & ->). unfold deploys in Ht. unfold contract_of. destruct (smart_of t); [|done].
  apply andb_true_iff in Ht as [_ ->%bytes_eqb_eq]. unfold bytes_eqb. by rewrite bool_decide_eq_false_2.
Qed.

(** The contract that a request sends: with the code of a deployment, or the code
    and the sources of the last state, and the method and parameters of the request. *)
Definition net_contract (deploy : bool) (target : byte_array) (c old : SmartContract) : SmartContract :=
  {| sc_address := target;
     sc_sourceCode := sc_sourceCode (if deploy then c else old);
     sc_byteCode := sc_byteCode (if deploy then c else old);
     sc_contractState := sc_contractState old;
     sc_hashState := sc_hashState c; sc_method := sc_method c; sc_params := sc_params c |}.

(** A request deploys if it has code and names no method. *)
Definition deploys_code (c : SmartContract) : bool := bytes_eqb (sc_method c) [] && negb (bytes_eqb (sc_byteCode c) []).

Lemma request_deploys (c : SmartContract) : is_smart_deploy (request_contract c) = deploys_code c.
Proof. unfold is_smart_deploy, request_contract, deploys_code. by destruct (bytes_eqb (sc_method c) []). Qed.

Lemma request_for_net target (c old : SmartContract) :
  contract_for_net (deploys_code c) target (request_contract c) old = net_contract (deploys_code c) target c old.
Proof.
  unfold contract_for_net, request_contract, net_contract, deploys_code.
  destruct (bytes_eqb (sc_method c) []); cbn [negb andb]; [|done]. by destruct (bytes_eqb (sc_byteCode c) []).
Qed.

Lemma prepare_contract_spec idx blk qs ps fuel r h :
  let ts := ledger (qs ++ ps) in
  let c := at_smartContract r in
  handler_ready idx blk qs ps fuel h → at_target r ≠ [] →
  ∃ origin h', origin_contract ts (at_target r) origin ∧ prepare_contract deserialize fuel r h
    = Ok (Some (if Bool.eqb (existsb (deploys (at_target r)) ts) (deploys_code c) then None
                else Some (origin, net_contract (deploys_code c) (at_target r) c (state_contract ts (at_target r)))), h') ∧
    co_sent h' = co_sent h.
Proof.
  intros ts c Hready Hne. subst ts. pose proof Hready as (_ & _ & _ & Hr & _).
  destruct (ready_update _ _ _ _ _ _ Hready) as (h1 & E & Hat & Hs & Hok). unfold prepare_contract. rewrite E, bind_Ok.
  cbv beta iota. unfold origin_at. cbv beta iota zeta. set (h2 := assign_co_caches _ _).
  destruct (load_smart_origin idx blk (qs ++ ps) (at_target r) _ h2 Hat Hr (proj2 (proj2 (proj2 Hok)) (at_target r)))
    as (origin & h3 & E3 & Horig & Hat3 & Hc3 & Hs3 & _).
  rewrite E3, bind_Ok. cbv beta iota. unfold state_at. cbv beta iota zeta. rewrite Hc3.
  change (smart_state (co_caches h2)) with (smart_state (co_caches h1)).
  rewrite (proj1 (proj2 Hok) (at_target r)). set (h4 := assign_co_caches _ _).
  destruct (load_smart_first idx blk (qs ++ ps) (updates_state (at_target r)) h4 Hat3 Hr (state_smart _)) as (h5 & E5 & _ & _ & Hs5 & _).
  rewrite E5, bind_Ok. cbv beta iota. fold (state_contract (ledger (qs ++ ps)) (at_target r)). fold c.
  rewrite request_deploys, request_for_net, (origin_empty _ _ _ Horig Hne).
  exists origin, h5. split; [done|].
  split; [by destruct (existsb _ _), (deploys_code c)|]. etrans; [exact Hs5|]. etrans; [exact Hs3|exact Hs].
Qed.

(** The transaction that goes to the solver: the fields of the request, the balance,
    and at most a contract as its first user field; nothing else is set. *)
Definition sent_transaction (innerID : Z) (source target : byte_array) (amount balance : Amount)
    (contract : option SmartContract) : Transaction :=
  {| t_read_only_ := false; t_id_ := TransactionID_default; t_innerID_ := innerID;
     t_source_ := source; t_target_ := target; t_currency_ := str "CS"; t_amount_ := amount;
     t_max_fee_ := Amount_zero; t_counted_fee_ := Amount_zero; t_signature_ := []; t_balance_ := balance;
     t_user_fields_ := match contract with Some c => [(0, UF_String (serialize c))] | None => [] end |}.

Lemma amount_of_request i n :
  is_i32 i → is_u64 n →
  Amount_of_ratio i n WALLET_DENOM = if n <? AMOUNT_MAX_FRACTION then Ok (mkAmount i n) else Throw invalid_argument.
Proof.
  intros Hi Hn. pose proof (Amount_of_ratio_correct i n WALLET_DENOM Hi Hn ltac:(by split)) as H.
  change WALLET_DENOM with AMOUNT_MAX_FRACTION in *. destruct (Amount_of_ratio i n AMOUNT_MAX_FRACTION) as [[i' f]|e].
  - destruct H as ((_ & Hf) & Ei & _ & Hd). cbn in *. subst i'. unfold AMOUNT_MAX_FRACTION in *.
    assert (f = n) as -> by lia. by rewrite (proj2 (Z.ltb_lt _ _)) by lia.
  - destruct e; try done. destruct H as [_ H]. unfold AMOUNT_MAX_FRACTION in *.
    rewrite (proj2 (Z.ltb_ge _ _)); [done|]. change (1000000000000000000 / 2) with 500000000000000000 in H. lia.
Qed.

Lemma key_nonempty key addr : getAddressFromKey (key ++ [0]) = Ok addr → key ≠ [].
Proof. by intros E ->. Qed.

(** C6: What becomes of a transaction of a client, whatever the number that its
    uninitialised member holds.  One to the ignored target gets no response.  A key
    that is too short, or a fraction that is not below one unit, ends the request
    before anything is sent.  Otherwise it goes to the solver with the balance that
    the chain gives its source.  Without a contract it is sent as it is.  A request
    for a contract is refused if it deploys one that is on the chain, or calls one
    that is not; otherwise two transactions are sent, one with the contract as the
    request changes it, and one with the state that the executor gives for the code
    that is on the chain, unless the executor fails, which leaves only the first.
    The contracts of the chain must be readable. *)
Theorem TransactionFlow_correct idx blk qs ps fuel innerID r h :
  let ts := ledger (qs ++ ps) in
  let flow := TransactionFlow serialize deserialize executeByteCode fuel innerID r h in
  let fraction := u64 (aa_fraction (at_amount r)) in
  handler_ready idx blk qs ps fuel h → is_i32 (aa_integral (at_amount r)) →
  cache_ok (qs ++ ps) (bc_balancesCache_ (co_blockchain h)) →
  Forall (λ p, Forall amounts_ok (p_transactions_ p)) (qs ++ ps) → (length (qs ++ ps) < fuel)%nat →
  (at_target r = ignored_target → flow = Ok (Some (Flow_return None), h)) ∧
  (at_target r ≠ ignored_target →
   match getAddressFromKey (at_source r ++ [0]) with
   | Throw e => flow = Throw e
   | Ok source =>
     if AMOUNT_MAX_FRACTION <=? fraction then flow = Throw invalid_argument
     else match getAddressFromKey (at_target r ++ [0]) with
     | Throw e => flow = Throw e
     | Ok target =>
       let c := at_smartContract r in
       let known := existsb (deploys (at_target r)) ts in
       let old := state_contract ts (at_target r) in
       ∃ outcome balance origin h', flow = Ok (Some outcome, h') ∧
         Amount_of_units (val balance) = Amount_of_units (chain_balance source (qs ++ ps)) ∧
         let sent := λ amount contract, sent_transaction innerID source target amount balance contract in
         if bytes_eqb (sc_address c) [] then
           outcome = Flow_return (Some (SetResponseStatus SUCCESS [])) ∧
           co_sent h' = co_sent h ++ [sent (mkAmount (aa_integral (at_amount r)) fraction) None]
         else if Bool.eqb known (deploys_code c) then
           outcome = Flow_return (Some (SetResponseStatus FAILURE [])) ∧ co_sent h' = co_sent h
         else
           origin_contract ts (at_target r) origin ∧
           let first := sent (mkAmount 1 0) (Some (net_contract (deploys_code c) (at_target r) c old)) in
           match executeByteCode (at_target r) (sc_byteCode origin) (sc_contractState old)
                   (if bytes_eqb (sc_method c) [] then str "initialize" else sc_method c) (sc_params c) with
           | Ok state =>
               outcome = Flow_return (Some (SetResponseStatus SUCCESS [])) ∧
               co_sent h' = co_sent h ++
                 [first; sent (mkAmount 1 0)
                           (Some (mkSmartContract (at_target r) [] [] state [] (sc_method c) (sc_params c)))]
           | Throw e => outcome = Flow_throw e ∧ co_sent h' = co_sent h ++ [first]
           end
     end
   end).
Proof.
  intros ts flow fraction Hready Hi Hcache Hok Hfuel. subst ts. pose proof Hready as ((Hv & Hc & Ht) & Hn & Hco & Hr & Hf).
  unfold flow, TransactionFlow. split; [intros ->; unfold bytes_eqb; by rewrite bool_decide_eq_true_2|].
  intros Hig. assert (bytes_eqb (at_target r) ignored_target = false) as -> by (unfold bytes_eqb; by rewrite bool_decide_eq_false_2).
  destruct (getAddressFromKey (at_source r ++ [0])) as [source|e]; [|done]. rewrite bind_Ok. fold fraction.
  assert (is_u64 fraction) as Hfr by (unfold fraction, u64, wrap; unfold_widths; apply Z.mod_pos_bound; lia).
  rewrite (amount_of_request _ _ Hi Hfr). rewrite Z.leb_antisym.
  destruct (fraction <? AMOUNT_MAX_FRACTION); cbn [negb]; [|done]. rewrite bind_Ok.
  destruct (getBalance_spec idx blk (qs ++ ps) fuel source _ Hv Hc Hcache Hok Hfuel) as (bal & bc' & Eb & _ & Hbal & Hv' & _).
  rewrite Eb, bind_Ok. cbv beta iota zeta.
  destruct (getAddressFromKey (at_target r ++ [0])) as [target|e] eqn:Etgt; [|done]. rewrite bind_Ok.
  destruct (bytes_eqb (sc_address (at_smartContract r)) []) eqn:Eaddr; cbn [negb].
  { eexists _, bal, SmartContract_default, _. split; [reflexivity|]. split; [exact Hbal|]. split; reflexivity. }
  assert (handler_ready idx blk qs ps fuel (assign_co_blockchain bc' h)) as Hready' by (by split; [split|]).
  destruct (prepare_contract_spec idx blk qs ps fuel r _ Hready' (key_nonempty _ _ Etgt)) as (origin & h' & Ho & E & Hs).
  rewrite E, bind_Ok. cbv beta iota. destruct (Bool.eqb _ _).
  { by exists (Flow_return (Some (SetResponseStatus FAILURE []))), bal, origin, h'. }
  unfold execute. cbn [net_contract sc_address sc_byteCode sc_contractState sc_method sc_params].
  destruct (executeByteCode _ _ _ _ _) as [state|e] eqn:Ex; eexists _, bal, origin, _;
    (split; [reflexivity|]; split; [exact Hbal|]; split; [exact Ho|]; rewrite Ex; split; [reflexivity|]);
    cbn [co_sent send_wallet_transaction]; rewrite Hs, <- ?app_assoc; reflexivity.
Qed.

(** The executor gets the code that was on the chain before the request: for an
    accepted deployment, none. *)
Lemma deployment_executes_no_code ts (a : byte_array) (c : SmartContract) :
  existsb (deploys a) ts = false → origin_contract ts a c → sc_byteCode c = [].
Proof. unfold origin_contract. by intros -> ->. Qed.

Lemma load_missing idx blk lh hs bc :
  bc_at idx blk lh bc → hs = [] ∨ idx !! hs = None →
  ∃ bc', loadBlock hs bc = Ok (Pool_default, bc') ∧ bc_at idx blk lh bc'.
Proof.
  intros (Hl & d & Hd & Hr & Hi & Hb) Hh. unfold loadBlock, Storage_pool_load. rewrite Hd, (db_ready_open d Hr). cbn [negb].
  destruct (PoolHash_is_empty hs) eqn:He.
  - eexists. split; [done|]. split; [done|]. by exists d.
  - destruct Hh as [->|Hh]; [done|].
    destruct (db_get_spec (PoolHash_to_binary hs) d Hr) as (d' & E & Hr' & Hi' & Hb').
    rewrite E, bind_Ok. unfold PoolHash_to_binary. rewrite Hi, Hh. cbn.
    eexists. split; [done|]. split; [done|]. exists d'. cbn. by rewrite Hi', Hb'.
Qed.

(** If the walk meets a block that is not stored before the block it saw last, it
    does not end. *)
Lemma update_smart_caches_spins idx blk lh fuel hs s bc :
  bc_at idx blk lh bc → hs = [] ∨ idx !! hs = None → hs ≠ last_seen_contract_block (sn_caches s) →
  last_seen_contract_block (sn_caches s) ≠ [] →
  ∃ bc', scan_blocks deserialize fuel hs s bc = Ok (None, bc').
Proof.
  revert hs bc. induction fuel as [|fuel IH]; intros hs bc Hv Hc Hne Hl; cbn [scan_blocks]; [by eexists|].
  unfold PoolHash_eqb, bytes_eqb. rewrite bool_decide_eq_false_2 by done. cbn [negb].
  destruct (load_missing idx blk lh hs bc Hv Hc) as (bc' & E & Hv'). rewrite E, bind_Ok.
  cbn [Pool_default p_transactions_ p_previous_hash_ rev scan_transactions]. rewrite bind_Ok.
  apply IH; [exact Hv'|by left|done|done].
Qed.

End ContractLaws.

(** ** Examples *)

(** A contract in a toy encoding: the address has 44 bytes, the code is the rest. *)
Definition toy_serialize (smart : SmartContract) : byte_array := sc_address smart ++ sc_byteCode smart.
Definition toy_deserialize (s : byte_array) : result SmartContract :=
  Ok (mkSmartContract (take 44 s) [] (drop 44 s) [] [] [] []).
Definition toy_execute (address code state method : byte_array) (params : list byte_array) : result byte_array := Ok (code ++ state).

Definition contract_key : byte_array := replicate 44 65.

Definition contract_pool : Pool :=
  mkPool true false [] [] 0 [sample_transaction [(0, UF_String (contract_key ++ [7; 8]))]] 1 [] [] [] [] None.

Definition contract_index : gmap byte_array Z := {[ pool_key contract_pool := pool_number contract_pool ]}.
Definition contract_blocks : gmap Z byte_array := {[ pool_number contract_pool := Pool_put contract_pool [] ]}.

Definition contract_bc : BlockChain (DatabaseBerkeleyDB (gmap Z byte_array) (gmap byte_array Z)) :=
  mkBlockChain true []
    (mkStorage (Some (mkBdb (Some contract_blocks) (Some contract_index) (DbError Db_NoError []))) (pool_key contract_pool) 1 []
       false St_NoError []).

Definition contract_chain : list Pool := [loaded contract_pool].

Definition mem_contracts : Contracts (DatabaseBerkeleyDB (gmap Z byte_array) (gmap byte_array Z)) :=
  mkContracts contract_bc SmartCaches_default [].

Lemma contract_storable : storable contract_pool.
Proof.
  split; [|done]. unfold Pool_ok, contract_pool; cbn -[replicate].
  split; [split; [constructor|done]|]. split; [split; done|]. split; [split; [constructor|split; [done|constructor]]|].
  split; [|split; [done|split; (split; [constructor|done])]].
  constructor; [|constructor]. apply sample_transaction_ok. split; [|vm_compute; reflexivity].
  apply (bool_decide_unpack _). vm_compute. exact I.
Qed.

Lemma contract_newest : newest (contract_chain ++ []) = pool_key contract_pool.
Proof. vm_compute. reflexivity. Qed.

Lemma contracts_ready :
  handler_ready (ready := Bdb_ready) (index := Bdb_index id) (blocks := Bdb_blocks id) toy_deserialize
    contract_index contract_blocks contract_chain [] 2 mem_contracts.
Proof.
  split; [|split; [done|split; [|split; [|cbn; lia]]]].
  - unfold contracts_at. rewrite contract_newest. split; [|split].
    + split; [done|]. eexists. split; [done|]. split; [split; by eexists|]. by split.
    + apply (@written_chain contract_index contract_blocks [] [] [contract_pool]).
      * constructor; [apply contract_storable|constructor].
      * repeat constructor.
      * done.
      * apply chain_end. by left.
      * intros p ->%list_elem_of_singleton. split; apply lookup_singleton_eq.
    + vm_compute. reflexivity.
  - split; [repeat split; constructor|]. done.
  - apply Forall_forall. intros t _ _. unfold fetch_smart. destruct (Transaction_is_valid t); by eexists.
Qed.

Lemma contract_unique : unique_deploys toy_deserialize (ledger (contract_chain ++ [])).
Proof.
  intros a. assert (length (ledger (contract_chain ++ [])) = 1%nat) as H by (vm_compute; reflexivity).
  pose proof (List.filter_length_le (deploys toy_deserialize a) (ledger (contract_chain ++ []))). lia.
Qed.

Lemma update_smart_caches_correct_witness :
  ∃ h', @update_smart_caches _ mem_database toy_deserialize 2 mem_contracts = Ok (Some (), h') ∧
    last_seen_contract_block (co_caches h') = newest (contract_chain ++ []).
Proof.
  pose proof contracts_ready as (Hat & Hn & Hok & Hr & Hf).
  destruct (@update_smart_caches_correct _ mem_database Bdb_ready (Bdb_index id) (Bdb_blocks id) mem_database_laws
    toy_deserialize contract_index contract_blocks contract_chain [] 2 mem_contracts Hat Hn Hok) as (h' & E & _ & Hl & _).
  - rewrite app_nil_r in Hr. exact Hr.
  - exact Hf.
  - exists h'. split; [exact E|exact Hl].
Defined.

Lemma contract_queries_correct_witness :
  ∃ smart h', @SmartContractGet _ mem_database toy_deserialize 2 contract_key mem_contracts
    = Ok (Some (smart, SetResponseStatus SUCCESS []), h').
Proof.
  destruct (@contract_queries_correct _ mem_database Bdb_ready (Bdb_index id) (Bdb_blocks id) mem_database_laws
    toy_deserialize contract_index contract_blocks contract_chain [] 2 contract_key contract_key
    (blake2s_digest contract_key) mem_contracts contracts_ready contract_unique) as [(h' & E & _) _].
  - discriminate.
  - vm_compute. reflexivity.
  - assert (match List.find (deploys toy_deserialize contract_key) (ledger (contract_chain ++ [])) with Some _ => true | None => false end = true) as H
      by (vm_compute; reflexivity).
    destruct (List.find _ _) as [t|]; [|discriminate]. eexists _, h'. exact E.
Defined.

(** A call of the deployed contract. *)
Definition call_request : api_Transaction :=
  mkApiTransaction [] contract_key contract_key (mkApiAmount 1 0) (mkApiAmount 0 0) (str "CS")
    (mkSmartContract contract_key [] [] [] [] (str "run") []).

Lemma contract_amounts : Forall (λ p, Forall amounts_ok (p_transactions_ p)) (contract_chain ++ []).
Proof.
  assert (Forall (λ p, Forall (λ t, t_amount_ t = t_amount_ (sample_transaction []) ∧
            t_balance_ t = t_balance_ (sample_transaction [])) (p_transactions_ p)) (contract_chain ++ [])) as H
    by (apply (bool_decide_unpack _); vm_compute; exact I).
  eapply Forall_impl; [exact H|]. intros p Hp. eapply Forall_impl; [exact Hp|]. unfold amounts_ok.
  intros t [-> ->]. split; apply Amount_ok_weak, (bool_decide_unpack _); vm_compute; exact I.
Qed.

(** The call of a deployed contract sends two transactions. *)
Lemma TransactionFlow_correct_witness :
  ∃ h', @TransactionFlow _ mem_database toy_serialize toy_deserialize toy_execute 2 77 call_request mem_contracts
        = Ok (Some (Flow_return (Some (SetResponseStatus SUCCESS []))), h') ∧ length (co_sent h') = 2%nat.
Proof.
  destruct (@TransactionFlow_correct _ mem_database Bdb_ready (Bdb_index id) (Bdb_blocks id) mem_database_laws
    toy_serialize toy_deserialize toy_execute contract_index contract_blocks contract_chain [] 2 77 call_request
    mem_contracts contracts_ready) as [_ H].
  - by split.
  - split; [constructor|]. intros addr h b [=].
  - exact contract_amounts.
  - cbn. lia.
  - specialize (H ltac:(discriminate)).
    assert (getAddressFromKey (at_source call_request ++ [0]) = Ok (blake2s_digest contract_key)) as Ek by (vm_compute; reflexivity).
    change (at_target call_request) with (at_source call_request) in H. rewrite Ek in H.
    destruct H as (out & bal & origin & h' & E & _ & H). exists h'.
    assert (existsb (deploys toy_deserialize (at_source call_request)) (ledger (contract_chain ++ [])) = true) as Hx
      by (vm_compute; reflexivity).
    rewrite Hx in H. destruct H as (_ & -> & Hs). split; [exact E|]. by rewrite Hs.
Defined.
