(* ===== verification/Stats.v ===== *)
(** * Stats: the statistics of the chain

    [csstats.cpp]: a thread collects, once in an interval, the numbers of blocks,
    transactions and contracts and the sums per currency of the blocks that are
    younger than each of four periods, and [APIHandler::StatsGet] reports what it
    collected last.  A reading of the clock is an argument; the log is left out. *)

From S2P Require Import Prelude Blake2 Hex StdMap Streams Format Amount Values Transaction Pool Database Storage Chain Blockchain Api.

(** ** Statistics *)

Record TotalAmount := mkTotalAmount { ta_integral : Z; ta_fraction : Z }.

#[export] Instance TotalAmount_eq_dec : EqDecision TotalAmount.
Proof. solve_decision. Defined.

Record PeriodStats := mkPeriodStats {
  periodSec : Z;
  poolsCount : Z;
  transactionsCount : Z;
  balancePerCurrency : gmap byte_array TotalAmount;
  smartContractsCount : Z;
}.

(** The statistics before a block is seen. *)
Definition PeriodStats_of (period : Z) : PeriodStats := mkPeriodStats period 0 0 ∅ 0.

(** [matchPeriod] *)
Fixpoint matchPeriod {A} (periods : list Z) (period : Z) (func : nat → A → A) (i : nat) (s : A) : A :=
  match periods with
  | [] => s
  | q :: periods => matchPeriod periods period func (S i) (if period <? q then func i s else s)
  end.

(** [balancePerCurrency[currency]] with both sums increased. *)
Definition add_amount (currency : byte_array) (amount : Amount) (m : gmap byte_array TotalAmount) : gmap byte_array TotalAmount :=
  let t := default (mkTotalAmount 0 0) (m !! currency) in
  <[currency := mkTotalAmount (i64 (ta_integral t + integral_ amount)) (i64 (ta_fraction t + fraction_ amount))]> m.

(** The body of the loop over the transactions of a block. *)
Definition count_transaction (transaction : Transaction) (s : PeriodStats) : PeriodStats :=
  mkPeriodStats (periodSec s) (poolsCount s) (transactionsCount s)
    (add_amount (Currency_to_string (t_currency_ transaction)) (t_amount_ transaction) (balancePerCurrency s))
    (if UserField_is_valid (Transaction_user_field 0 transaction) then u32 (smartContractsCount s + 1) else smartContractsCount s).

(** The loop, from the index [i] on. *)
Fixpoint count_transactions (pool : Pool) (hash : byte_array) (n : nat) (i : Z) (s : PeriodStats) : PeriodStats :=
  match n with
  | O => s
  | S n => count_transactions pool hash n (i + 1) (count_transaction (Pool_transaction_by_id pool (mkTransactionID hash i)) s)
  end.

(** The function that [collectStats] passes to [matchPeriod]. *)
Definition count_pool (pool : Pool) (s : PeriodStats) : PeriodStats :=
  let '(hash, pool) := Pool_hash pool in
  let count := p_transactionsCount_ pool in
  let s := mkPeriodStats (periodSec s) (u32 (poolsCount s + 1)) (u32 (transactionsCount s + count))
             (balancePerCurrency s) (smartContractsCount s) in
  count_transactions pool hash (Z.to_nat count) 0 s.

(** ** The collector *)

Section Stats.
Context {D : Type} `{!Database D}.

(** The ticks of the system clock in a second. *)
Context (ticks : Z).

(** The second a block was made, from its first field. *)
Definition pool_time (pool : Pool) : Z := Z.quot (atoll (c_str (UserField_value_string (Pool_user_field 0 pool)))) 1000.

(** The age of a block in whole seconds, as a [Period]. *)
Definition pool_age (now : Z) (pool : Pool) : Z := u32 (Z.quot (i64 (now - i64 (pool_time pool * ticks))) ticks).

(** The loop of [collectStats].  Round [k] finds [quit] unset and reads the clock as
    [now k = Some _], or finds it set. *)
Fixpoint collect_loop (periods : list Z) (now : nat → option Z) (fuel k : nat) (blockHash : byte_array)
    (stats : list PeriodStats) (bc : BlockChain D) : result (option (list PeriodStats) * BlockChain D) :=
  match fuel with
  | O => Ok (None, bc)
  | S fuel =>
      if PoolHash_is_empty blockHash then Ok (Some stats, bc)
      else match now k with
           | None => Ok (Some stats, bc)
           | Some t =>
               '(pool, bc) ← loadBlock blockHash bc;
               let stats := matchPeriod periods (pool_age t pool) (alter (count_pool pool)) 0 stats in
               collect_loop periods now fuel (S k) (p_previous_hash_ pool) stats bc
           end
  end.

Definition collectStats (periods : list Z) (now : nat → option Z) (fuel : nat) (bc : BlockChain D)
    : result (option (list PeriodStats) * BlockChain D) :=
  collect_loop periods now fuel 0 (getLastHash bc) (PeriodStats_of <$> periods) bc.

(** [csstats] *)
Record csstats := mkCsstats {
  st_blockchain : BlockChain D;
  st_updateIntervalSec : Z;
  st_currentStats : list PeriodStats;
  st_lastUpdateTime : Z;
  st_quit : bool;
}.

(** The constructor, with the state its thread starts from. *)
Definition csstats_make (bc : BlockChain D) (updateIntervalSec : Z) : csstats := mkCsstats bc updateIntervalSec [] 0 false.

Definition stats_periods : list Z :=
  let secondsPerDay := 24 * 60 * 60 in
  [secondsPerDay; u32 (secondsPerDay * 7); u32 (secondsPerDay * 30); u32 (secondsPerDay * 365 * 100)].

(** The time until which the thread waits. *)
Definition nextUpdateTime (s : csstats) : Z := st_lastUpdateTime s + Z.quot (st_updateIntervalSec s * 1000 * ticks) 1000.

(** The thread when the clock shows [woken]: it still waits, or it has ended, or it
    collects the statistics and finishes at the time [finished]. *)
Definition thread_step (woken : Z) (now : nat → option Z) (finished : Z) (fuel : nat) (s : csstats) : result (option unit * csstats) :=
  if st_quit s then Ok (Some (), s)
  else if woken <? nextUpdateTime s then Ok (Some (), s)
  else
    '(stats, bc) ← collectStats stats_periods now fuel (st_blockchain s);
    match (stats : option (list PeriodStats)) with
    | None => Ok (None, mkCsstats bc (st_updateIntervalSec s) (st_currentStats s) (st_lastUpdateTime s) (st_quit s))
    | Some stats => Ok (Some (), mkCsstats bc (st_updateIntervalSec s) stats finished (st_quit s))
    end.

(** The destructor asks the thread to end. *)
Definition csstats_quit (s : csstats) : csstats :=
  mkCsstats (st_blockchain s) (st_updateIntervalSec s) (st_currentStats s) (st_lastUpdateTime s) true.

Definition getStats (s : csstats) : list PeriodStats := st_currentStats s.

End Stats.
Arguments csstats : clear implicits.

(** ** The report *)

Record api_PeriodStats := mkApiPeriodStats {
  aps_periodDuration : Z;
  aps_poolsCount : Z;
  aps_transactionsCount : Z;
  aps_balancePerCurrency : list (byte_array * TotalAmount);
  aps_smartContractsCount : Z;
}.

(** The loop over the currencies, in the order the container gives them. *)
Definition convertTotals (l : list (byte_array * TotalAmount)) : list (byte_array * TotalAmount) :=
  foldl (λ m t, map_set t.1 t.2 m) [] l.

Definition convertStats (s : PeriodStats) : api_PeriodStats :=
  mkApiPeriodStats (periodSec s) (i32 (poolsCount s)) (i32 (transactionsCount s))
    (convertTotals (map_to_list (balancePerCurrency s))) (i32 (smartContractsCount s)).

(** [APIHandler::StatsGet] *)
Definition StatsGet {D} (s : csstats D) : list api_PeriodStats * APIResponse :=
  (convertStats <$> getStats s, SetResponseStatus SUCCESS []).

(** ** What the statistics should be *)

Section StatsLaws.
Context {D : Type} {DB : Database D} {ready : D → Prop} {index : D → gmap byte_array Z}
  {blocks : D → gmap Z byte_array} {DL : DatabaseLaws D ready index blocks}.
Context (ticks : Z) (ticks_positive : 0 < ticks).
Implicit Types (ts : list Transaction) (bs ps : list Pool) (s : PeriodStats).

Definition total (f : Transaction → Z) ts : Z := foldr (λ t n, f t + n) 0 ts.

(** The sums of a currency, if it occurs. *)
Definition sums (c : byte_array) ts : option TotalAmount :=
  match List.filter (λ t, bytes_eqb (t_currency_ t) c) ts with
  | [] => None
  | l => Some (mkTotalAmount (i64 (total (λ t, integral_ (t_amount_ t)) l)) (i64 (total (λ t, fraction_ (t_amount_ t)) l)))
  end.

Definition contracts ts : nat := length (List.filter (λ t, UserField_is_valid (Transaction_user_field 0 t)) ts).

Definition transactions_of bs : list Transaction := bs ≫= p_transactions_.

(** The sums and the contracts of the transactions [ts]. *)
Definition tallies ts s : Prop :=
  (∀ c, balancePerCurrency s !! c = sums c ts) ∧ smartContractsCount s = u32 (Z.of_nat (contracts ts)).

(** The statistics of the blocks [bs]. *)
Definition reports (period : Z) bs s : Prop :=
  periodSec s = period ∧ poolsCount s = u32 (Z.of_nat (length bs)) ∧
  transactionsCount s = u32 (Z.of_nat (length (transactions_of bs))) ∧ tallies (transactions_of bs) s.

(** The blocks that are younger than a period, by the clock when each was seen.
    One that is dated a second or more ahead of the clock is in no period: its age
    is negative, and as a [Period] a number above the longest one. *)
Fixpoint young (period : Z) (now : nat → Z) (k : nat) ps : list Pool :=
  match ps with
  | [] => []
  | p :: ps =>
      (if (- ticks <? now k - pool_time p * ticks) && (now k - pool_time p * ticks <? period * ticks) then [p] else [])
        ++ young period now (S k) ps
  end.

Definition longest_period : Z := 24 * 60 * 60 * 365 * 100.

(** The times of the blocks and their ages are in the range of the clock, and no
    age in seconds is too far from zero for the 32 bits of a [Period]. *)
Fixpoint clock_ok (now : nat → Z) (k : nat) ps : Prop :=
  match ps with
  | [] => True
  | p :: ps =>
      is_i64 (pool_time p * ticks) ∧ is_i64 (now k - pool_time p * ticks) ∧
      - (2 ^ 32 - longest_period) * ticks <= now k - pool_time p * ticks < 2 ^ 32 * ticks ∧ clock_ok now (S k) ps
  end.

Lemma total_app f ts t : total f (ts ++ [t]) = total f ts + f t.
Proof. unfold total. rewrite foldr_app. cbn. induction ts as [|u ts IH]; cbn; lia. Qed.

Lemma i64_add a b : i64 (i64 a + b) = i64 (a + b).
Proof.
  unfold i64. rewrite <- (swrap_wrap 64 (swrap 64 a + b)), <- (swrap_wrap 64 (a + b)) by lia. f_equal. unfold wrap.
  rewrite <- Zplus_mod_idemp_l, <- (Zplus_mod_idemp_l a). change (swrap 64 a mod 2 ^ 64) with (wrap 64 (swrap 64 a)).
  by rewrite wrap_swrap by lia.
Qed.

Lemma sums_app c ts t :
  sums c (ts ++ [t])
  = if bytes_eqb (t_currency_ t) c
    then let u := default (mkTotalAmount 0 0) (sums c ts) in
         Some (mkTotalAmount (i64 (ta_integral u + integral_ (t_amount_ t))) (i64 (ta_fraction u + fraction_ (t_amount_ t))))
    else sums c ts.
Proof.
  unfold sums. rewrite List.filter_app. cbn [List.filter]. destruct (bytes_eqb (t_currency_ t) c); [|by rewrite app_nil_r].
  destruct (List.filter _ ts) as [|u l]; [cbn; by rewrite !Z.add_0_r|].
  cbn -[i64 total]. rewrite !i64_add, app_comm_cons, !total_app. reflexivity.
Qed.

Lemma tallies_transaction ts t s : tallies ts s → tallies (ts ++ [t]) (count_transaction t s).
Proof.
  intros [Hb Hn]. split; cbn [count_transaction balancePerCurrency smartContractsCount].
  - intros c. unfold add_amount, Currency_to_string. rewrite sums_app, <- (Hb c). destruct (bytes_eqb (t_currency_ t) c) eqn:E.
    + apply bytes_eqb_eq in E as ->. by rewrite lookup_insert_eq.
    + rewrite lookup_insert_ne; [done|]. intros <-. by rewrite bytes_eqb_refl in E.
  - unfold contracts in *. rewrite List.filter_app, length_app. cbn [List.filter]. rewrite Hn.
    destruct (UserField_is_valid _); cbn [length]; [width_lia|f_equal; lia].
Qed.


Lemma count_transactions_spec p n (i : nat) ts s :
  Pool_sealed p → (i + n = length (p_transactions_ p))%nat → tallies (ts ++ take i (p_transactions_ p)) s →
  let s' := count_transactions p (p_hash_ p) n (Z.of_nat i) s in
  tallies (ts ++ p_transactions_ p) s' ∧ periodSec s' = periodSec s ∧ poolsCount s' = poolsCount s ∧
  transactionsCount s' = transactionsCount s.
Proof.
  intros Hs. revert i s. induction n as [|n IH]; intros i s Hlen Hin; cbn [count_transactions].
  - by rewrite take_ge in Hin by lia.
  - destruct (lookup_lt_is_Some_2 (p_transactions_ p) i) as [t Ht]; [lia|].
    assert (mkTransactionID (p_hash_ p) (Z.of_nat i) = t_id_ t) as -> by (pose proof Hs as (_ & _ & _ & Hid); by destruct (Hid i t Ht) as [_ ->]).
    rewrite (Pool_by_own_id p i t Hs Ht). replace (Z.of_nat i + 1) with (Z.of_nat (S i)) by lia.
    apply (IH (S i) (count_transaction t s)); [lia|]. rewrite (take_S_r _ _ _ Ht), app_assoc. by apply tallies_transaction.
Qed.

Lemma count_pool_spec period bs p s :
  Pool_sealed p → counted p → reports period bs s → reports period (bs ++ [p]) (count_pool p s).
Proof.
  intros Hs [_ Hn] (Hp & Hc & Ht & Htl). unfold count_pool. rewrite (Pool_hash_sealed p Hs). cbv beta iota zeta.
  rewrite Hn, Nat2Z.id. assert (transactions_of (bs ++ [p]) = transactions_of bs ++ p_transactions_ p) as E.
  { unfold transactions_of. rewrite bind_app. cbn. by rewrite app_nil_r. }
  match goal with |- reports _ _ (count_transactions _ _ _ _ ?s1) =>
    destruct (count_transactions_spec p (length (p_transactions_ p)) 0 (transactions_of bs) s1 Hs eq_refl) as (Ht' & E1 & E2 & E3) end.
  { by rewrite app_nil_r. }
  change (Z.of_nat 0) with 0 in *. unfold reports. rewrite E1, E2, E3, E. cbn [periodSec poolsCount transactionsCount].
  split; [done|]. split; [|split; [|exact Ht']]; rewrite ?Hc, ?Ht, length_app; cbn [length]; width_lia.
Qed.

Lemma matchPeriod_spec periods age (f : PeriodStats → PeriodStats) pre stats :
  length periods = length stats →
  matchPeriod periods age (alter f) (length pre) (pre ++ stats)
  = pre ++ zip_with (λ q s, if age <? q then f s else s) periods stats.
Proof.
  revert pre stats. induction periods as [|q periods IH]; intros pre [|s stats] Hlen; try done. cbn [matchPeriod zip_with].
  assert ((if age <? q then alter f (length pre) (pre ++ s :: stats) else pre ++ s :: stats)
          = (pre ++ [if age <? q then f s else s]) ++ stats) as ->.
  { rewrite <- app_assoc. destruct (age <? q); [|done]. rewrite alter_app_r_alt by lia. by rewrite Nat.sub_diag. }
  replace (S (length pre)) with (length (pre ++ [if age <? q then f s else s])) by (rewrite length_app; cbn; lia).
  rewrite IH by (cbn in Hlen; lia). by rewrite <- app_assoc.
Qed.

Lemma pool_age_young t p period :
  is_i64 (pool_time p * ticks) → is_i64 (t - pool_time p * ticks) →
  - (2 ^ 32 - longest_period) * ticks <= t - pool_time p * ticks < 2 ^ 32 * ticks → 0 < period <= longest_period →
  (pool_age ticks t p <? period) = (- ticks <? t - pool_time p * ticks) && (t - pool_time p * ticks <? period * ticks).
Proof.
  intros Hp Ha Hr Hper. unfold pool_age. rewrite (i64_id (pool_time p * ticks)), i64_id by done.
  set (age := t - pool_time p * ticks) in *. clearbody age. apply eq_true_iff_eq. rewrite andb_true_iff, !Z.ltb_lt.
  pose proof (Z.quot_rem' age ticks) as Hq. set (q := Z.quot age ticks) in *. unfold longest_period in *.
  destruct (Z.le_gt_cases 0 age) as [Hpos|Hneg].
  - assert (0 <= Z.rem age ticks < ticks) by (apply Z.rem_bound_pos; lia). assert (0 <= q < 2 ^ 32) by nia.
    rewrite u32_id by (unfold is_u32, is_unsigned; lia). nia.
  - assert (- ticks < Z.rem age ticks <= 0) by (pose proof (Z.rem_bound_pos (- age) ticks); rewrite Z.rem_opp_l in *; lia).
    assert (- (2 ^ 32 - 24 * 60 * 60 * 365 * 100) <= q <= 0) by nia. destruct (Z.eq_dec q 0) as [E|].
    + rewrite E. change (u32 0) with 0. nia.
    + assert (u32 q = q + 2 ^ 32) as -> by (unfold u32, wrap; symmetry; apply (Z.mod_unique _ _ (-1)); lia). nia.
Qed.

Abbreviation bc_at := (bc_view (ready := ready) (index := index) (blocks := blocks)).

Lemma collect_loop_spec idx blk lh periods now fuel k hs ps (seen : Z → list Pool) stats bc :
  bc_at idx blk lh bc → chain idx blk hs ps → tail_of hs ps = [] → clock_ok now k ps → (length ps < fuel)%nat →
  Forall (λ q, 0 < q <= longest_period) periods →
  Forall2 (λ q s, reports q (seen q) s) periods stats →
  ∃ stats' st, collect_loop ticks periods (λ k, Some (now k)) fuel k hs stats bc = Ok (Some stats', assign_bc_storage st bc) ∧
    bc_at idx blk lh (assign_bc_storage st bc) ∧ Forall2 (λ q s, reports q (seen q ++ young q now k ps) s) periods stats'.
Proof.
  revert fuel k hs seen stats bc. induction ps as [|p ps IH]; intros [|fuel] k hs seen stats bc Hv Hc Ht Hk Hf Hper Hs;
    cbn in Hf; try lia; cbn [collect_loop].
  - cbn in Ht. subst hs. exists stats, (bc_storage_ bc). split; [by destruct bc|]. split; [by destruct bc|].
    eapply Forall2_impl; [exact Hs|]. intros q s. cbn. by rewrite app_nil_r.
  - destruct (chain_head _ _ _ _ _ Hc) as (_ & Hsealed & Hh & Hc'). assert (PoolHash_is_empty hs = false) as ->.
    { pose proof Hsealed as (_ & _ & Hcalc & _). rewrite Hh, Hcalc. apply calc_hash_nonempty. }
    destruct (loadBlock_chain _ _ _ _ _ _ Hv Hc) as (curr & st & E & Hv1 & Hat). rewrite E, bind_Ok. cbv beta iota.
    destruct Hat as (-> & _ & _ & Hcnt & _). destruct Hk as (Hp & Hk1 & Hk2 & Hk).
    rewrite (matchPeriod_spec periods _ _ [] stats (Forall2_length _ _ _ Hs)). cbn [app].
    destruct (IH fuel (S k) (p_previous_hash_ p)
      (λ q, seen q ++ if (- ticks <? now k - pool_time p * ticks) && (now k - pool_time p * ticks <? q * ticks) then [p] else [])
      (zip_with (λ q s, if pool_age ticks (now k) p <? q then count_pool p s else s) periods stats) _ Hv1 Hc')
      as (stats' & st' & E' & Hv' & Hs'); [done|done|lia|done| |].
    + clear -Hs Hsealed Hcnt Hp Hk1 Hk2 Hper ticks_positive. induction Hs as [|q s periods stats Hq _ IHs]; cbn [zip_with];
        [constructor|]. apply Forall_cons in Hper as [Hq' Hper]. constructor; [|by apply IHs].
      rewrite pool_age_young by done. destruct (_ && _); [by apply count_pool_spec|by rewrite app_nil_r].
    + exists stats', st'. split; [exact E'|]. split; [exact Hv'|]. eapply Forall2_impl; [exact Hs'|]. intros q s. cbn [young]. by rewrite app_assoc.
Qed.

Lemma convertTotals_spec (l : list (byte_array * TotalAmount)) :
  NoDup l.*1 → map_sorted (convertTotals l) ∧ ∀ c v, map_find c (convertTotals l) = Some v ↔ (c, v) ∈ l.
Proof.
  induction l as [|[c0 v0] l IH] using rev_ind; intros Hnd; [split; [constructor|]; intros c v; rewrite elem_of_nil; done|].
  rewrite fmap_app in Hnd. apply NoDup_app in Hnd as (Hnd & Hdis & _). destruct (IH Hnd) as [Hs Hf].
  unfold convertTotals in *. rewrite foldl_app. cbn [foldl fst snd]. split; [by apply map_set_sorted|]. intros c v.
  rewrite elem_of_app, list_elem_of_singleton. destruct (decide (c = c0)) as [->|Hne].
  - rewrite map_find_set_eq by done. split; [intros [= ->]; by right|]. intros [Hin|[= ->]]; [|done].
    exfalso. apply (Hdis c0); [by apply (list_elem_of_fmap_2 fst) in Hin|left].
  - rewrite map_find_set_ne by done. rewrite Hf. split; [by left|]. by intros [?|[= ? ?]].
Qed.

Lemma convertTotals_find (m : gmap byte_array TotalAmount) c : map_find c (convertTotals (map_to_list m)) = m !! c.
Proof.
  destruct (convertTotals_spec (map_to_list m) (NoDup_fst_map_to_list m)) as [_ Hf].
  apply option_eq. intros v. rewrite Hf. apply elem_of_map_to_list.
Qed.

(** C28: The statistics that the service reports after the thread has collected them
    are those of the chain: for each period the number of the blocks younger than
    it, of their transactions and of the contracts among these, and the sums of the
    amounts per currency, all as their fields hold them.  Blocks may be dated ahead
    of the clock, by up to 36 years: from one second on they are in no period. *)
Theorem StatsGet_reports idx blk ps woken now finished fuel (s : csstats D) :
  bc_at idx blk (newest ps) (st_blockchain s) → chain idx blk (newest ps) ps → tail_of (newest ps) ps = [] →
  clock_ok now 0 ps → (length ps < fuel)%nat → st_quit s = false → nextUpdateTime ticks s <= woken →
  ∃ s' : csstats D, thread_step ticks woken (λ k, Some (now k)) finished fuel s = Ok (Some (), s') ∧
    bc_at idx blk (newest ps) (st_blockchain s') ∧ st_lastUpdateTime s' = finished ∧ st_quit s' = false ∧
    (StatsGet s').2 = SetResponseStatus SUCCESS [] ∧
    Forall2 (λ period a, let bs := young period now 0 ps in
        aps_periodDuration a = period ∧ aps_poolsCount a = i32 (Z.of_nat (length bs)) ∧
        aps_transactionsCount a = i32 (Z.of_nat (length (transactions_of bs))) ∧
        aps_smartContractsCount a = i32 (Z.of_nat (contracts (transactions_of bs))) ∧
        ∀ c, map_find c (aps_balancePerCurrency a) = sums c (transactions_of bs))
      stats_periods (StatsGet s').1.
Proof.
  intros Hv Hc Ht Hk Hf Hq Hw. unfold thread_step. rewrite Hq, (proj2 (Z.ltb_ge _ _) Hw).
  unfold collectStats, getLastHash. rewrite (proj1 Hv).
  destruct (collect_loop_spec idx blk _ stats_periods now fuel 0 _ ps (λ _, []) (PeriodStats_of <$> stats_periods) _ Hv Hc Ht Hk Hf)
    as (stats & st & E & Hv' & Hs); [by repeat constructor|by repeat constructor|].
  rewrite E, bind_Ok. cbv beta iota. eexists. split; [reflexivity|]. split; [exact Hv'|]. do 3 (split; [done|]).
  cbn [StatsGet getStats st_currentStats fst]. apply Forall2_fmap_r. eapply Forall2_impl; [exact Hs|].
  intros q u (Hp & Hn & Htr & Hb & Hsm). rewrite app_nil_l in *. unfold compose. cbv beta zeta. unfold convertStats.
  cbn [aps_periodDuration aps_poolsCount aps_transactionsCount aps_smartContractsCount aps_balancePerCurrency].
  rewrite Hn, Htr, Hsm. unfold i32, u32. rewrite !swrap_wrap by lia. do 4 (split; [done|]).
  intros c. rewrite convertTotals_find. apply Hb.
Qed.

(** Before its time the thread changes nothing, and neither does it after the
    destructor has asked it to end. *)
Lemma thread_waits woken now finished fuel (s : csstats D) :
  woken < nextUpdateTime ticks s ∨ st_quit s = true → thread_step ticks woken now finished fuel s = Ok (Some (), s).
Proof.
  intros [H|H]; unfold thread_step; [|by rewrite H]. destruct (st_quit s); [done|]. by rewrite (proj2 (Z.ltb_lt _ _) H).
Qed.

End StatsLaws.

(** ** Examples *)

Lemma undated_clock ticks t k ps :
  Forall (λ p, pool_time p = 0) ps → 0 < ticks → 0 <= t → t < 2 ^ 63 → t < 2 ^ 32 * ticks → clock_ok ticks (λ _, t) k ps.
Proof.
  intros Hp Ht H0 H1 H2. revert k. induction Hp as [|p ps Hp _ IH]; intros k; cbn [clock_ok]; [done|].
  rewrite Hp. split; [done|]. unfold is_i64, is_signed, longest_period. split; [lia|]. split; [lia|]. apply IH.
Qed.

Lemma mem_undated : Forall (λ p, pool_time p = 0) mem_chain_pools.
Proof. apply (bool_decide_unpack _). vm_compute. exact I. Qed.

Lemma StatsGet_reports_witness :
  ∃ s', @thread_step _ mem_database 1000000000 (1000 * 1000000000) (λ _, Some (100 * 1000000000)) 7 3 (csstats_make mem_chain_bc 300)
        = Ok (Some (), s') ∧ aps_poolsCount <$> (StatsGet s').1 !! 0%nat = Some 2.
Proof.
  destruct (@StatsGet_reports _ mem_database Bdb_ready (Bdb_index id) (Bdb_blocks id) mem_database_laws 1000000000 eq_refl
    mem_index mem_blocks mem_chain_pools (1000 * 1000000000) (λ _, 100 * 1000000000) 7 3 (csstats_make mem_chain_bc 300))
    as (s' & E & _ & _ & _ & _ & H).
  - exact mem_api_at.
  - exact mem_api_chain.
  - vm_compute. reflexivity.
  - apply (undated_clock _ _ _ _ mem_undated); lia.
  - vm_compute. lia.
  - reflexivity.
  - vm_compute. discriminate.
  - exists s'. split; [exact E|]. apply Forall2_lookup_l with (i := 0%nat) (x := 86400) in H as (a & Ea & _ & Hn & _); [|done].
    rewrite Ea. cbn [fmap option_fmap option_map]. rewrite Hn. vm_compute. reflexivity.
Defined.

(** The sum of the fractions leaves the range of its field after ten transactions. *)
Lemma fraction_sum_wraps :
  ta_fraction <$> balancePerCurrency
    (foldl (λ s t, count_transaction t s) (PeriodStats_of 86400)
       (replicate 10 (Transaction_set_amount (mkAmount 0 999999999999999999) (sample_transaction [])))) !! str "CS"
  = Some (-8446744073709551626).
Proof. vm_compute. reflexivity. Qed.

(** A block that is dated two seconds ahead of the clock is in no period, not even
    that of a hundred years. *)
Lemma future_block_uncounted p :
  pool_time p = 12 → (λ q, pool_age 1000000000 (10 * 1000000000) p <? q) <$> stats_periods = [false; false; false; false].
Proof. intros E. unfold pool_age. rewrite E. vm_compute. reflexivity. Qed.
