(* ===== verification/Packstream.v ===== *)
(** * Packstream: messages as sequences of packets

    [csnode/include/csnode/Packstream.hpp] and [csnode/src/Packstream.cpp].
    [OPackStream] writes values into packets of [max_length] bytes, opening a new
    packet when one is full; [IPackStream] reads values from a block of memory.
    Node identifiers are IPv4 addresses as 32-bit numbers.  The memory that an
    [IPackStream] reads may extend beyond the end it was given; what the tests on
    the remaining size let through is read from there, and beyond the memory the
    behaviour is undefined. *)

From S2P Require Import Prelude Streams Amount Values Transaction Pool.

(** [max_length] of [Packet.hpp] *)
Definition max_length : nat := Z.to_nat 62440.

Lemma max_length_pos : (4 <= max_length)%nat.
Proof. unfold max_length. lia. Qed.

Lemma max_length_Z : Z.of_nat max_length = 62440.
Proof. unfold max_length. lia. Qed.

#[global] Opaque max_length.

(** ** Output *)

(** [OPackStream]: the packets that are full, and the bytes up to [ptr_] in the
    last one. *)
Record OPackStream := mkOPackStream { os_done : list byte_array; os_cur : byte_array }.

(** [newPack] on a stream that has packets. *)
Definition newPack (s : OPackStream) : OPackStream := mkOPackStream (os_done s ++ [os_cur s]) [].

(** [init] *)
Definition ostream_init : OPackStream := mkOPackStream [] [].

(** [operator<<(const T&)], where [d] are the bytes of the value. *)
Definition ostream_put (d : byte_array) (s : OPackStream) : OPackStream :=
  let left := (max_length - length (os_cur s))%nat in
  if (length d <=? left)%nat then mkOPackStream (os_done s) (os_cur s ++ d)
  else
    let s := newPack (mkOPackStream (os_done s) (os_cur s ++ take left d)) in
    mkOPackStream (os_done s) (os_cur s ++ drop left d).

(** [insertBytes]: every turn of the loop writes at least one byte. *)
Fixpoint insertBytes_loop (fuel : nat) (bytes : byte_array) (s : OPackStream) : option OPackStream :=
  match bytes with
  | [] => Some s
  | _ =>
      match fuel with
      | O => None
      | S fuel =>
          let s := if (length (os_cur s) =? max_length)%nat then newPack s else s in
          let toPut := Nat.min (max_length - length (os_cur s)) (length bytes) in
          insertBytes_loop fuel (drop toPut bytes) (mkOPackStream (os_done s) (os_cur s ++ take toPut bytes))
      end
  end.

Definition insertBytes (bytes : byte_array) (s : OPackStream) : option OPackStream :=
  insertBytes_loop (length bytes) bytes s.

(** [operator<<] for a node identifier, for strings, transactions and pools. *)
Definition ostream_put_NodeId (d : Z) (s : OPackStream) : OPackStream := ostream_put (le_bytes 4 d) s.

Definition ostream_put_string (str : byte_array) (s : OPackStream) : option OPackStream := insertBytes str s.

Definition ostream_put_Transaction (trans : Transaction) (s : OPackStream) : option OPackStream :=
  insertBytes (Transaction_to_byte_stream trans) s.

Definition ostream_put_Pool (pool : Pool) (s : OPackStream) : option OPackStream :=
  insertBytes (Pool_to_byte_stream pool).1.1 s.

(** [get] and [lastSize] *)
Definition ostream_get (s : OPackStream) : list byte_array := os_done s ++ [os_cur s].
Definition ostream_lastSize (s : OPackStream) : Z := Z.of_nat (length (os_cur s)).

(** ** Input *)

(** [IPackStream]: the memory from [init]'s pointer on, and offsets in it. *)
Record IPackStream := mkIPackStream { is_mem : byte_array; is_ptr : Z; is_end : Z; is_good : bool }.

(** [init] *)
Definition istream_init (data : byte_array) (size : Z) : IPackStream := mkIPackStream data 0 size true.

Definition istream_end (s : IPackStream) : bool := is_ptr s =? is_end s.

(** [operator bool] *)
Definition istream_bool (s : IPackStream) : bool := is_good s && negb (istream_end s).

Definition istream_fail (s : IPackStream) : IPackStream :=
  mkIPackStream (is_mem s) (is_ptr s) (is_end s) false.

(** Take [n] bytes of memory at the pointer. *)
Definition istream_take (n : Z) (s : IPackStream) : result (byte_array * IPackStream) :=
  if (0 <=? is_ptr s) && (is_ptr s + n <=? Z.of_nat (length (is_mem s)))
  then Ok (take (Z.to_nat n) (drop (Z.to_nat (is_ptr s)) (is_mem s)),
           mkIPackStream (is_mem s) (is_ptr s + n) (is_end s) (is_good s))
  else Throw undefined_behaviour.

(** [operator>>(T&)], for a type of [n] bytes: the test compares [ptr_ - end_],
    converted to an unsigned number. *)
Definition istream_get (n : Z) (s : IPackStream) : result (option byte_array * IPackStream) :=
  if u64 (is_ptr s - is_end s) <? n then Ok (None, istream_fail s)
  else '(d, s) ← istream_take n s; Ok (Some d, s).

(** [operator>>(FixedString<Length>&)] *)
Definition istream_get_FixedString (n : Z) (s : IPackStream) : result (option byte_array * IPackStream) :=
  if u64 (is_end s - is_ptr s) <? n then Ok (None, istream_fail s)
  else '(d, s) ← istream_take n s; Ok (Some d, s).

(** [operator>>(NodeId&)]; a failed read leaves the variable. *)
Definition istream_get_NodeId (s : IPackStream) : result (option Z * IPackStream) :=
  '(d, s) ← istream_get 4 s;
  Ok (if is_good s then le_value <$> d else None, s).

(** The rest of the stream up to its end. *)
Definition istream_rest (s : IPackStream) : result (byte_array * IPackStream) :=
  if is_end s <? is_ptr s then Throw undefined_behaviour
  else istream_take (is_end s - is_ptr s) s.

(** [operator>>(std::string&)]: the constructor of a string throws on a negative
    range. *)
Definition istream_get_string (s : IPackStream) : result (byte_array * IPackStream) :=
  if is_end s <? is_ptr s then Throw length_error else istream_rest s.

(** [operator>>(Transaction&)] takes the whole rest. *)
Definition istream_get_Transaction (s : IPackStream) : result (Transaction * IPackStream) :=
  '(d, s) ← istream_rest s; Ok (Transaction_from_byte_stream d, s).

(** [operator>>(Pool&)].  [Pool::from_byte_stream] is declared but not defined in
    the sources: it is an argument. *)
Definition istream_get_Pool (from_byte_stream : byte_array → Pool) (s : IPackStream) : result (Pool * IPackStream) :=
  '(d, s) ← istream_rest s; Ok (from_byte_stream d, s).

(** ** Output lemmas *)

(** All packets but the last are full. *)
Definition ostream_ok (s : OPackStream) : Prop :=
  Forall (λ p, length p = max_length) (os_done s) ∧ (length (os_cur s) <= max_length)%nat.

(** The bytes of the packets. *)
Definition ostream_bytes (s : OPackStream) : byte_array := concat (ostream_get s).

Lemma ostream_bytes_eq s : ostream_bytes s = concat (os_done s) ++ os_cur s.
Proof. unfold ostream_bytes, ostream_get. by rewrite concat_app, concat_cons, app_nil_r. Qed.

Lemma newPack_ok s :
  ostream_ok s → length (os_cur s) = max_length →
  ostream_ok (newPack s) ∧ ostream_bytes (newPack s) = ostream_bytes s.
Proof.
  intros [Hd _] Hc. split.
  - split; [|cbn; lia]. apply Forall_app. split; [done|]. by constructor.
  - rewrite !ostream_bytes_eq. cbn. by rewrite concat_app, concat_cons, !app_nil_r.
Qed.

Lemma ostream_put_ok d s :
  ostream_ok s → (length d <= max_length)%nat →
  ostream_ok (ostream_put d s) ∧ ostream_bytes (ostream_put d s) = ostream_bytes s ++ d.
Proof.
  intros Hs Hd. pose proof Hs as [Hdone Hcur]. unfold ostream_put.
  destruct (Nat.leb_spec (length d) (max_length - length (os_cur s))) as [Hle|Hgt].
  - split; [|rewrite !ostream_bytes_eq; cbn [os_done os_cur]; by rewrite app_assoc]. split; [done|]. cbn. rewrite length_app. lia.
  - set (left := (max_length - length (os_cur s))%nat) in *. cbn [newPack os_done os_cur app]. split.
    + split; cbn [os_done os_cur].
      * apply Forall_app. split; [done|]. constructor; [|constructor]. rewrite length_app, length_take. lia.
      * rewrite length_drop. lia.
    + rewrite !ostream_bytes_eq. cbn [os_done os_cur]. rewrite concat_app, concat_cons, app_nil_r.
      rewrite <- !app_assoc. by rewrite take_drop.
Qed.

Lemma insertBytes_loop_ok fuel bytes s :
  ostream_ok s → (length bytes <= fuel)%nat →
  ∃ s', insertBytes_loop fuel bytes s = Some s' ∧ ostream_ok s' ∧ ostream_bytes s' = ostream_bytes s ++ bytes.
Proof.
  revert bytes s. induction fuel as [|fuel IH]; intros [|b bytes] s Hs Hf; cbn in Hf; try lia.
  1, 2: exists s; by rewrite app_nil_r.
  cbn [insertBytes_loop].
  set (s1 := if (length (os_cur s) =? max_length)%nat then newPack s else s).
  assert (ostream_ok s1 ∧ ostream_bytes s1 = ostream_bytes s ∧ (length (os_cur s1) < max_length)%nat) as (Hs1 & Hb1 & Hl1).
  { unfold s1. destruct (Nat.eqb_spec (length (os_cur s)) max_length) as [He|Hne].
    - destruct (newPack_ok s Hs He). cbn. pose proof max_length_pos. split; [done|]. split; [done|lia].
    - destruct Hs as [H1 H2]. split; [done|]. split; [done|lia]. }
  clearbody s1. set (k := Nat.min _ _). assert (1 <= k)%nat as Hk by (unfold k; cbn [length]; lia).
  destruct (IH (drop k (b :: bytes)) (mkOPackStream (os_done s1) (os_cur s1 ++ take k (b :: bytes))))
    as (s' & E & Hok & Hb).
  - destruct Hs1 as [H1 _]. split; [done|]. cbn [os_cur]. rewrite length_app, length_take. unfold k. lia.
  - rewrite length_drop. cbn [length]. lia.
  - exists s'. split; [done|]. split; [done|]. rewrite Hb, <- Hb1, !ostream_bytes_eq. cbn [os_done os_cur].
    by rewrite <- !app_assoc, take_drop.
Qed.

(** What a client writes: values of fixed size, and sequences of bytes. *)
Inductive out_item := Out_value (d : byte_array) | Out_bytes (d : byte_array).

Definition item_bytes (i : out_item) : byte_array := match i with Out_value d | Out_bytes d => d end.

Definition item_ok (i : out_item) : Prop :=
  match i with Out_value d => (length d <= max_length)%nat | Out_bytes _ => True end.

Definition ostream_write (i : out_item) (s : OPackStream) : option OPackStream :=
  match i with Out_value d => Some (ostream_put d s) | Out_bytes d => insertBytes d s end.

Fixpoint ostream_writes (items : list out_item) (s : OPackStream) : option OPackStream :=
  match items with [] => Some s | i :: items' => s ← ostream_write i s; ostream_writes items' s end.

Lemma ostream_writes_ok items s :
  ostream_ok s → Forall item_ok items →
  ∃ s', ostream_writes items s = Some s' ∧ ostream_ok s' ∧
    ostream_bytes s' = ostream_bytes s ++ concat (item_bytes <$> items).
Proof.
  intros Hs Hi. revert s Hs. induction Hi as [|i items Hi _ IH]; intros s Hs.
  { exists s. cbn. by rewrite app_nil_r. }
  assert (∃ s1, ostream_write i s = Some s1 ∧ ostream_ok s1 ∧ ostream_bytes s1 = ostream_bytes s ++ item_bytes i)
    as (s1 & E & Hs1 & Hb1).
  { destruct i as [d|d].
    - destruct (ostream_put_ok d s Hs Hi). by exists (ostream_put d s).
    - by apply insertBytes_loop_ok. }
  destruct (IH s1 Hs1) as (s' & E' & Hs' & Hb'). exists s'. cbn [ostream_writes]. rewrite E, bind_Some'.
  split; [done|]. split; [done|]. rewrite Hb', Hb1, fmap_cons, concat_cons. by rewrite app_assoc.
Qed.

(** ** Input lemmas *)

Lemma istream_take_ok n s :
  0 <= n → 0 <= is_ptr s → is_ptr s + n <= Z.of_nat (length (is_mem s)) →
  istream_take n s = Ok (take (Z.to_nat n) (drop (Z.to_nat (is_ptr s)) (is_mem s)),
                         mkIPackStream (is_mem s) (is_ptr s + n) (is_end s) (is_good s)).
Proof.
  intros Hn Hp Hl. unfold istream_take.
  destruct (Z.leb_spec 0 (is_ptr s)); [|lia]. destruct (Z.leb_spec (is_ptr s + n) (Z.of_nat (length (is_mem s)))); [|lia].
  done.
Qed.

(** As long as the end is not reached, [operator>>] reads, also past the end. *)
Lemma istream_get_reads n s :
  0 < n → 0 <= is_ptr s < is_end s → is_end s - is_ptr s + n < 2 ^ 64 →
  is_ptr s + n <= Z.of_nat (length (is_mem s)) →
  istream_get n s = Ok (Some (take (Z.to_nat n) (drop (Z.to_nat (is_ptr s)) (is_mem s))),
                        mkIPackStream (is_mem s) (is_ptr s + n) (is_end s) (is_good s)).
Proof.
  intros Hn Hp Hb Hl. unfold istream_get.
  destruct (Z.ltb_spec (u64 (is_ptr s - is_end s)) n); [|by rewrite istream_take_ok by lia].
  exfalso. revert H. unfold u64, wrap. change (2 ^ 64) with 18446744073709551616 in *.
  rewrite <- (Z.mod_add _ 1) by lia. rewrite Z.mod_small by lia. lia.
Qed.

Lemma istream_get_at_end n s :
  0 < n → is_ptr s = is_end s → istream_get n s = Ok (None, istream_fail s).
Proof.
  intros Hn He. unfold istream_get. rewrite He, Z.sub_diag. change (u64 0) with 0. destruct (Z.ltb_spec 0 n); [done|lia].
Qed.

(** A value that starts in front of the end and continues behind it is read from
    memory behind the end, and the stream stays good. *)
Lemma istream_overread :
  ∃ s s', is_end s - is_ptr s = 2 ∧ istream_get 4 s = Ok (Some [1; 2; 3; 4], s') ∧
          is_good s' = true ∧ is_end s' < is_ptr s'.
Proof. exists (istream_init [1; 2; 3; 4] 2), (mkIPackStream [1; 2; 3; 4] 4 2 true). by vm_compute. Qed.

(** A transaction takes the whole stream: of several that were written one after
    the other, the reader gets the first. *)
Lemma istream_first_transaction t1 t2 :
  Transaction_ok t1 → Transaction_ok t2 →
  let data := Transaction_to_byte_stream t1 ++ Transaction_to_byte_stream t2 in
  istream_get_Transaction (istream_init data (Z.of_nat (length data)))
  = Ok (Transaction_clone t1, mkIPackStream data (Z.of_nat (length data)) (Z.of_nat (length data)) true).
Proof.
  intros H1 H2 data. unfold istream_get_Transaction, istream_rest, istream_init. cbn [is_ptr is_end].
  destruct (Z.ltb_spec (Z.of_nat (length data)) 0); [lia|]. rewrite istream_take_ok; cbn [is_ptr is_mem is_end is_good]; try lia.
  rewrite bind_Ok, Z.sub_0_r, Nat2Z.id, drop_0, take_ge by done. unfold data, Transaction_from_byte_stream, Transaction_to_byte_stream.
  by rewrite Transaction_get_put.
Qed.

(** ** Properties *)

(** Whatever is written to an output stream, its packets hold exactly the
    bytes written, in order; all but the last are full, and the last has
    [lastSize] bytes. *)
Theorem ostream_packets items :
  Forall item_ok items →
  ∃ s front back, ostream_writes items ostream_init = Some s ∧ ostream_get s = front ++ [back] ∧
    concat (ostream_get s) = concat (item_bytes <$> items) ∧
    Forall (λ p, length p = max_length) front ∧ (length back <= max_length)%nat ∧
    ostream_lastSize s = Z.of_nat (length back).
Proof.
  intros Hi. destruct (ostream_writes_ok items ostream_init) as (s & E & [Hd Hc] & Hb); [|done|].
  { split; [constructor|]. cbn. lia. }
  exists s, (os_done s), (os_cur s). split; [done|]. split; [done|]. split; [exact Hb|]. done.
Qed.

Lemma ostream_packets_witness :
  ∃ s, ostream_writes [Out_value [1; 2; 3; 4]; Out_bytes [5; 6]] ostream_init = Some s ∧
    concat (ostream_get s) = [1; 2; 3; 4; 5; 6].
Proof.
  destruct (ostream_packets [Out_value [1; 2; 3; 4]; Out_bytes [5; 6]]) as (s & _ & _ & E & _ & Hb & _).
  - pose proof max_length_pos. repeat constructor; cbn; lia.
  - by exists s.
Defined.
