(* ===== verification/Net.v ===== *)
(** * Net: the data structures of the transport

    [net/include/net/Packet.hpp] and [net/include/net/Structures.hpp]: packets,
    the ring of known nodes, the counters of recently seen messages, and the
    collector that puts the fragments of a message together.  The unordered maps
    are finite maps; the deques that remember the order of insertion are lists.  A
    [PacketPart] owns [countHeader] cells of the memory that the collector
    allocates; an access outside of them is undefined behaviour.  Collector and
    counters forget the oldest key when they are full: the lemmas follow one message,
    or the keys of its packets, while it is [recent]. *)

From S2P Require Import Prelude Packstream.

(** ** Packets *)

(** [Packet]; [k_data] is the memory of the field, [max_length] bytes. *)
Record Packet := mkPacket {
  k_command : Z;
  k_subcommand : Z;
  k_version : Z;
  k_origin_ip : Z;
  k_hash : byte_array;
  k_publicKey : byte_array;
  k_HashBlock : byte_array;
  k_header : Z;
  k_countHeader : Z;
  k_data : byte_array;
}.

(** [hash_length], [publicKey_length], [Packet::headerLength()] *)
Definition hash_length : Z := 40.
Definition publicKey_length : Z := 32.
Definition headerLength : Z := 1 + 1 + 1 + 4 + hash_length + publicKey_length + hash_length + 2 + 2.

(** ** Counters of recent keys *)

Section CircularMap.
Context {K : Type} `{Countable K} (Capacity : nat).

(** [CircularMap<Key, uint32_t, Capacity>] *)
Record CircularMap := mkCircularMap { cm_map : gmap K Z; cm_queue : list K }.

Definition CircularMap_empty : CircularMap := mkCircularMap ∅ [].

(** [pushAndIncrease] *)
Definition pushAndIncrease (key : K) (c : CircularMap) : Z * CircularMap :=
  match cm_map c !! key with
  | None =>
      let '(m, q) := if (length (cm_queue c) =? Capacity)%nat
                     then match cm_queue c with
                          | front :: q => (delete front (cm_map c), q)
                          | [] => (cm_map c, [])
                          end
                     else (cm_map c, cm_queue c) in
      (1, mkCircularMap (<[key := 1]> m) (q ++ [key]))
  | Some v => (u32 (v + 1), mkCircularMap (<[key := u32 (v + 1)]> (cm_map c)) (cm_queue c))
  end.

End CircularMap.
Arguments CircularMap K {_ _}.

(** ** The ring of nodes *)

(** [udp::endpoint]: an IPv4 address and a port *)
Abbreviation endpoint := (Z * Z)%type.

(** [NodesRing<Capacity>] *)
Record NodesRing := mkNodesRing { nr_nodes : gset endpoint; nr_endpoints : list endpoint }.

Definition NodesRing_empty : NodesRing := mkNodesRing ∅ [].

(** [place] *)
Definition NodesRing_place (Capacity : nat) (ep : endpoint) (r : NodesRing) : bool * NodesRing :=
  if bool_decide (ep ∈ nr_nodes r) then (false, r)
  else
    let '(n, e) := if (length (nr_endpoints r) =? Capacity)%nat
                   then match nr_endpoints r with
                        | front :: e => (nr_nodes r ∖ {[front]}, e)
                        | [] => (nr_nodes r, [])
                        end
                   else (nr_nodes r, nr_endpoints r) in
    (true, mkNodesRing ({[ep]} ∪ n) (e ++ [ep])).

(** ** The collector *)

(** [PacketPart]: the number of its place in the collector's memory, its cells,
    [totalSize] and [left]. *)
Record PacketPart := mkPacketPart {
  pp_slot : nat;
  pp_packets : list (option Packet);
  pp_totalSize : Z;
  pp_left : Z;
}.

(** [PacketPart(mem, maxSize)] *)
Definition PacketPart_new (slot : nat) (maxSize : Z) : PacketPart :=
  mkPacketPart slot (replicate (Z.to_nat maxSize) None) 0 maxSize.

(** [tryInsert] *)
Definition tryInsert (pack : Packet) (size : Z) (part : PacketPart) : result (bool * PacketPart) :=
  match pp_packets part !! Z.to_nat (k_header pack) with
  | None => Throw undefined_behaviour
  | Some (Some _) => Ok (false, part)
  | Some None =>
      Ok (true, mkPacketPart (pp_slot part) (<[Z.to_nat (k_header pack) := Some pack]> (pp_packets part))
                  (u64 (pp_totalSize part + size)) (u64 (pp_left part - 1)))
  end.

(** [PacketCollector<Key, Capacity, MaxSeqLength>] *)
Record PacketCollector := mkPacketCollector {
  pc_map : gmap byte_array PacketPart;
  pc_queue : list byte_array;
}.

Definition PacketCollector_empty : PacketCollector := mkPacketCollector ∅ [].

(** The place of a new part: that of the oldest part, which is dropped, when the
    collector is full, and else the next free one. *)
Definition next_slot (Capacity : nat) (pc : PacketCollector) : result (nat * PacketCollector) :=
  if (length (pc_queue pc) =? Capacity)%nat then
    match pc_queue pc with
    | [] => Throw undefined_behaviour
    | front :: q =>
        match pc_map pc !! front with
        | None => Throw undefined_behaviour
        | Some oldest => Ok (pp_slot oldest, mkPacketCollector (delete front (pc_map pc)) q)
        end
    end
  else Ok (length (pc_queue pc), pc).

(** [append]: the part of the packet, and whether the packet is new in it. *)
Definition append (Capacity : nat) (packet : Packet) (dataSize : Z) (pc : PacketCollector)
    : result (PacketPart * bool * PacketCollector) :=
  let key := k_HashBlock packet in
  '(part, pc) ← match pc_map pc !! key with
                | Some part => Ok (part, pc)
                | None =>
                    '(slot, pc) ← next_slot Capacity pc;
                    Ok (PacketPart_new slot (k_countHeader packet), mkPacketCollector (pc_map pc) (pc_queue pc ++ [key]))
                end;
  '(added, part) ← tryInsert packet dataSize part;
  Ok (part, added, mkPacketCollector (<[key := part]> (pc_map pc)) (pc_queue pc)).

(** ** Putting the fragments together

    The part of [InputServiceHandleReceive] that copies the data of the packets
    into one buffer. *)

(** The copy of the packets in front of the last one: their data and what is left
    of [total]. *)
Fixpoint combine_front (cells : list (option Packet)) (total : Z) : result (byte_array * Z) :=
  match cells with
  | [] => Ok ([], total)
  | None :: _ => Throw undefined_behaviour
  | Some p :: cells' =>
      '(d, total) ← combine_front cells' (u64 (total - Z.of_nat max_length));
      Ok (take max_length (k_data p) ++ d, total)
  end.

Definition combine (countHeader : Z) (part : PacketPart) : result byte_array :=
  '(d, total) ← combine_front (take (Z.to_nat (countHeader - 1)) (pp_packets part)) (pp_totalSize part);
  match pp_packets part !! Z.to_nat (countHeader - 1) with
  | Some (Some p) => if total <=? Z.of_nat max_length then Ok (d ++ take (Z.to_nat total) (k_data p))
                     else Throw undefined_behaviour
  | _ => Throw undefined_behaviour
  end.

(** One fragment: the combined data when it was the last one missing. *)
Definition collect (Capacity : nat) (message : Packet) (size : Z) (pc : PacketCollector)
    : result (option byte_array * PacketCollector) :=
  '(part, added, pc) ← append Capacity message size pc;
  if negb added then Ok (None, pc)
  else if negb (pp_left part =? 0) then Ok (None, pc)
  else d ← combine (k_countHeader message) part; Ok (Some d, pc).

(** ** Lemmas on parts *)

(** The fragments of a message: full packets and a last one. *)
Definition parts_ok (ps : list byte_array) : Prop :=
  (length ps <= 2048)%nat ∧
  ∃ front back, ps = front ++ [back] ∧ Forall (λ p, length p = max_length) front ∧ (length back <= max_length)%nat.

(** A packet with a fragment of the message [ps], and the size of its data. *)
Definition fragment (ps : list byte_array) (pk : Packet) (size : Z) : Prop :=
  ∃ i p, k_header pk = Z.of_nat i ∧ ps !! i = Some p ∧ k_countHeader pk = Z.of_nat (length ps) ∧
    size = Z.of_nat (length p) ∧ take (length p) (k_data pk) = p.

(** The cells still empty, and the size of the data in the others. *)
Fixpoint missing (cells : list (option Packet)) : Z :=
  match cells with
  | [] => 0
  | None :: cells' => 1 + missing cells'
  | Some _ :: cells' => missing cells'
  end.

Fixpoint gathered (ps : list byte_array) (cells : list (option Packet)) : Z :=
  match ps, cells with
  | p :: ps', Some _ :: cells' => Z.of_nat (length p) + gathered ps' cells'
  | _ :: ps', None :: cells' => gathered ps' cells'
  | _, _ => 0
  end.

Definition part_inv (ps : list byte_array) (part : PacketPart) : Prop :=
  length (pp_packets part) = length ps ∧
  (∀ i pk, pp_packets part !! i = Some (Some pk) → ∃ p, ps !! i = Some p ∧ take (length p) (k_data pk) = p) ∧
  pp_left part = missing (pp_packets part) ∧ pp_totalSize part = gathered ps (pp_packets part).

Lemma missing_bound cells : 0 <= missing cells <= Z.of_nat (length cells).
Proof. induction cells as [|[pk|] cells IH]; cbn; lia. Qed.

Lemma missing_insert cells i pk :
  cells !! i = Some None → missing (<[i := Some pk]> cells) = missing cells - 1.
Proof.
  revert i. induction cells as [|c cells IH]; intros [|i] Hi; cbn in *; try done.
  - injection Hi as ->. lia.
  - destruct c; rewrite IH by done; lia.
Qed.

Lemma missing_zero cells i : missing cells = 0 → (i < length cells)%nat → ∃ pk, cells !! i = Some (Some pk).
Proof.
  revert i. induction cells as [|c cells IH]; intros i Hm Hi; cbn in *; [lia|].
  destruct c as [pk|]; [|pose proof (missing_bound cells); lia]. destruct i as [|i]; [by exists pk|]. by apply IH; [|lia].
Qed.

Lemma missing_nonzero cells : missing cells ≠ 0 → ∃ i, cells !! i = Some None.
Proof.
  induction cells as [|c cells IH]; cbn; [done|]. destruct c as [pk|]; [|by exists 0%nat].
  intros Hm. destruct (IH Hm) as [i Hi]. by exists (S i).
Qed.

Lemma gathered_insert ps cells i pk p :
  length cells = length ps → cells !! i = Some None → ps !! i = Some p →
  gathered ps (<[i := Some pk]> cells) = gathered ps cells + Z.of_nat (length p).
Proof.
  revert ps i. induction cells as [|c cells IH]; intros [|q ps] [|i] Hl Hi Hp; try done.
  - injection Hi as ->. injection Hp as ->. cbn. lia.
  - change (gathered (q :: ps) (c :: <[i := Some pk]> cells) = gathered (q :: ps) (c :: cells) + Z.of_nat (length p)).
    injection Hl as Hl. pose proof (IH ps i Hl Hi Hp). destruct c; cbn [gathered]; lia.
Qed.

Lemma gathered_bound ps cells :
  0 <= gathered ps cells <= Z.of_nat (length (concat ps)).
Proof.
  revert cells. induction ps as [|p ps IH]; intros cells; [destruct cells; cbn; lia|].
  cbn [concat]. rewrite length_app. destruct cells as [|[pk|] cells]; cbn [gathered]; [lia|..];
    specialize (IH cells); lia.
Qed.

Lemma gathered_full ps cells :
  length cells = length ps → missing cells = 0 → gathered ps cells = Z.of_nat (length (concat ps)).
Proof.
  revert ps. induction cells as [|[pk|] cells IH]; intros [|p ps] Hl Hm; cbn in Hl, Hm |- *; try done; try lia.
  - rewrite length_app, IH by lia. lia.
  - pose proof (missing_bound cells). lia.
Qed.

Lemma length_concat_parts ps :
  parts_ok ps → Z.of_nat (length (concat ps)) <= 2048 * 62440 ∧ (1 <= length ps)%nat.
Proof.
  intros [Hn (front & back & -> & Hf & Hb)]. rewrite length_app in *. cbn [length] in *. split; [|lia].
  rewrite concat_app, concat_cons, app_nil_r, length_app.
  assert (length (concat front) = (length front * max_length)%nat) as E.
  { clear -Hf. induction Hf as [|p front Hp _ IH]; [done|]. cbn. rewrite length_app, IH. lia. }
  rewrite E. pose proof max_length_Z. nia.
Qed.

Lemma tryInsert_spec ps part pk size i :
  parts_ok ps → part_inv ps part → fragment ps pk size → k_header pk = Z.of_nat i →
  ∃ b part', tryInsert pk size part = Ok (b, part') ∧ part_inv ps part' ∧ pp_slot part' = pp_slot part ∧
    match pp_packets part !! i with
    | Some None => b = true ∧ pp_packets part' = <[i := Some pk]> (pp_packets part)
    | _ => b = false ∧ part' = part
    end.
Proof.
  intros Hok Hinv (i' & p & Hh & Hp & Hc & Hs & Hd) Hi. assert (i' = i) as -> by lia.
  pose proof Hinv as (Hl & Hcells & Hleft & Htot). unfold tryInsert. rewrite Hi, Nat2Z.id.
  destruct (pp_packets part !! i) as [[q|]|] eqn:Ei.
  - by exists false, part.
  - do 2 eexists. split; [done|]. split; [|done].
    destruct (length_concat_parts ps Hok) as [Hlen _]. pose proof (gathered_bound ps (<[i := Some pk]> (pp_packets part))).
    pose proof (missing_bound (<[i := Some pk]> (pp_packets part))).
    rewrite (gathered_insert ps _ i pk p Hl Ei Hp) in *. rewrite (missing_insert _ i pk Ei) in *.
    rewrite length_insert in *. destruct Hok as [Hn _].
    split; [by cbn; rewrite length_insert|]. split; [|split; cbn].
    + intros j pk' Hj. cbn in Hj. apply list_lookup_insert_Some in Hj as [(<- & [= <-] & _)|(Hne & Hj)]; eauto.
    + rewrite (missing_insert _ i pk Ei), Hleft. width_lia.
    + rewrite (gathered_insert ps _ i pk p Hl Ei Hp), Htot, Hs. width_lia.
  - apply lookup_ge_None in Ei. apply lookup_lt_Some in Hp. lia.
Qed.

Lemma combine_front_spec cells front total x :
  Forall2 (λ c p, ∃ pk, c = Some pk ∧ take max_length (k_data pk) = p) cells front →
  Forall (λ p, length p = max_length) front → 0 <= x →
  total = x + Z.of_nat (length (concat front)) → total < 2 ^ 64 →
  combine_front cells total = Ok (concat front, x).
Proof.
  intros Hc. revert total. induction Hc as [|c p cells front (pk & -> & Hp) _ IH]; intros total Hf Hx Ht Hb.
  { cbn in *. by rewrite Ht, Z.add_0_r. }
  apply Forall_cons in Hf as [Hlp Hf]. cbn [concat] in *. rewrite length_app in Ht. cbn [combine_front].
  rewrite (IH (u64 (total - Z.of_nat max_length))); [by rewrite bind_Ok, Hp|done|done|width_lia|width_lia].
Qed.

Lemma combine_spec ps part :
  parts_ok ps → part_inv ps part → pp_left part = 0 →
  combine (Z.of_nat (length ps)) part = Ok (concat ps).
Proof.
  intros Hok (Hl & Hcells & Hleft & Htot) Hz. rewrite Hleft in Hz.
  pose proof (length_concat_parts ps Hok) as [Hlen _]. destruct Hok as [Hn (front & back & -> & Hf & Hb)].
  rewrite (gathered_full _ _ Hl Hz) in Htot. rewrite concat_app, concat_cons, app_nil_r, length_app in Htot, Hlen.
  rewrite length_app in Hl. cbn [length] in Hl. unfold combine.
  replace (Z.to_nat (Z.of_nat (length (front ++ [back])) - 1)) with (length front) by (rewrite length_app; cbn; lia).
  rewrite (combine_front_spec _ front (pp_totalSize part) (Z.of_nat (length back))); [|..|lia|lia|width_lia]; [|clear Htot|done].
  - rewrite bind_Ok, concat_app, concat_cons, app_nil_r. cbv beta iota.
    destruct (missing_zero (pp_packets part) (length front) Hz ltac:(lia)) as [pk Hpk]. rewrite Hpk.
    destruct (Hcells _ _ Hpk) as (p & Hp & Hd). rewrite list_lookup_middle in Hp by done. injection Hp as <-.
    destruct (Z.leb_spec (Z.of_nat (length back)) (Z.of_nat max_length)); [|lia]. by rewrite Nat2Z.id, Hd.
  - apply Forall2_same_length_lookup_2; [rewrite length_take; lia|]. intros i c p Hc Hp.
    apply lookup_take_Some in Hc as [Hc Hi].
    destruct (missing_zero (pp_packets part) i Hz ltac:(lia)) as [pk Hpk]. rewrite Hpk in Hc. injection Hc as <-.
    destruct (Hcells _ _ Hpk) as (p' & Hp' & Hd). rewrite lookup_app_l, Hp in Hp' by done. injection Hp' as <-.
    exists pk. split; [done|]. rewrite Forall_lookup in Hf. by rewrite <- (Hf i p Hp).
Qed.

(** ** Queues that forget the oldest

    A queue without repetitions that loses its front element when it is full.  The
    keys of a class [own], of which there are at most [M], stay in it while fewer
    than the rest of its places are taken by others: [recent n q] says that at most
    [n] other keys came after the first of them. *)
Section Window.
Context {K : Type} (own : K → Prop) `{!∀ x, Decision (own x)}.

Definition own_bound (M : nat) : Prop := ∀ l : list K, NoDup l → Forall own l → (length l <= M)%nat.

Definition recent (n : nat) (q : list K) : Prop :=
  ∃ qa qb, q = qa ++ qb ∧ Forall (λ x, ¬ own x) qa ∧ (length (filter (λ x, ¬ own x) qb) <= n)%nat.

Lemma recent_none q : Forall (λ x, ¬ own x) q → recent 0 q.
Proof. intros Hq. exists q, []. by rewrite app_nil_r. Qed.

Lemma recent_mono n n' q : recent n q → (n <= n')%nat → recent n' q.
Proof. intros (qa & qb & E & Ha & Hb) Hn. exists qa, qb. split; [done|]. split; [done|lia]. Qed.

Lemma recent_push n q x : recent n q → recent (if decide (own x) then n else S n) (q ++ [x]).
Proof.
  intros (qa & qb & -> & Ha & Hb). exists qa, (qb ++ [x]). split; [by rewrite app_assoc|]. split; [done|].
  rewrite filter_app, length_app. destruct (decide (own x)) as [Ho|Ho].
  - rewrite filter_cons_False by tauto. cbn. lia.
  - rewrite filter_cons_True by done. cbn. lia.
Qed.

Lemma length_filter_split (l : list K) : length l = (length (filter own l) + length (filter (λ x, ¬ own x) l))%nat.
Proof.
  induction l as [|x l IH]; [done|]. cbn [length]. destruct (decide (own x)) as [Ho|Ho].
  - rewrite (filter_cons_True own), (filter_cons_False (λ x, ¬ own x)) by tauto. cbn. lia.
  - rewrite (filter_cons_False own), (filter_cons_True (λ x, ¬ own x)) by done. cbn. lia.
Qed.

Lemma recent_evict n M f q :
  own_bound M → recent n (f :: q) → NoDup (f :: q) → (n + M < length (f :: q))%nat → ¬ own f ∧ recent n q.
Proof.
  intros HM (qa & qb & E & Ha & Hb) Hnd Hlen. destruct qa as [|x qa]; cbn in E.
  - exfalso. rewrite E in Hnd, Hlen. rewrite (length_filter_split qb) in Hlen.
    specialize (HM (filter own qb)). assert (length (filter own qb) <= M)%nat; [|lia].
    apply HM; [by apply NoDup_filter|]. apply Forall_forall. by intros x [Hx _]%list_elem_of_filter.
  - injection E as <- ->. apply Forall_cons in Ha as [Hf Ha]. split; [done|]. by exists qa, qb.
Qed.

End Window.

(** ** The history of a collector *)

Section Collector.
Context (Capacity : nat) (msg : byte_array → list byte_array).
Implicit Types hist : list (Packet * Z).

(** The fragment number [i] of the message [k] is in the history. *)
Definition seen hist (k : byte_array) (i : nat) : Prop :=
  ∃ m, m ∈ hist ∧ k_HashBlock m.1 = k ∧ k_header m.1 = Z.of_nat i.

(** The collector holds a part for every key of the history, with the fragments
    that the history has of it. *)
Definition coll_inv hist (pc : PacketCollector) : Prop :=
  NoDup (pc_queue pc) ∧
  (∀ k, is_Some (pc_map pc !! k) ↔ k ∈ pc_queue pc) ∧
  (∀ k, k ∈ pc_queue pc ↔ ∃ m, m ∈ hist ∧ k_HashBlock m.1 = k) ∧
  (∀ k part, pc_map pc !! k = Some part → part_inv (msg k) part ∧
     ∀ i, (∃ pk, pp_packets part !! i = Some (Some pk)) ↔ seen hist k i).

Lemma coll_inv_empty : coll_inv [] PacketCollector_empty.
Proof.
  split; [constructor|]. split; [|split].
  - intros k. cbn. rewrite lookup_empty. split; [by intros [? ?]|]. by intros ?%elem_of_nil.
  - intros k. split; [by intros ?%elem_of_nil|]. by intros (m & ?%elem_of_nil & _).
  - intros k part. cbn. by rewrite lookup_empty.
Qed.

Lemma seen_snoc hist m k i :
  seen (hist ++ [m]) k i ↔ seen hist k i ∨ (k_HashBlock m.1 = k ∧ k_header m.1 = Z.of_nat i).
Proof.
  unfold seen. setoid_rewrite elem_of_app. setoid_rewrite list_elem_of_singleton. split.
  - intros (x & [Hx| ->] & Hk & Hi); [left; eauto|by right].
  - intros [(x & Hx & Hk & Hi)|[Hk Hi]]; eauto.
Qed.

Lemma PacketPart_new_inv ps slot : part_inv ps (PacketPart_new slot (Z.of_nat (length ps))).
Proof.
  unfold PacketPart_new. rewrite Nat2Z.id. split; [by cbn; rewrite length_replicate|]. split; [|split]; cbn.
  - intros i pk Hi. by apply lookup_replicate in Hi as [? _].
  - generalize (length ps). intros n. induction n as [|n IH]; cbn [replicate missing]; lia.
  - induction ps as [|p ps IH]; cbn; done.
Qed.

(** Forgetting the oldest message, when the collector is full, forgets its
    fragments. *)
Lemma coll_inv_evict hist pc f q :
  coll_inv hist pc → pc_queue pc = f :: q →
  coll_inv (filter (λ m, k_HashBlock m.1 ≠ f) hist) (mkPacketCollector (delete f (pc_map pc)) q).
Proof.
  intros (Hnd & Hdom & Hkeys & Hparts) Eq. rewrite Eq in Hnd. apply NoDup_cons in Hnd as [Hf Hnd].
  assert (∀ k, k ∈ q ↔ k ∈ pc_queue pc ∧ k ≠ f) as Hq.
  { intros k. rewrite Eq, elem_of_cons. split; [intros H; split; [by right|by intros ->]|by intros [[?|?] ?]]. }
  split; [done|]. split; [|split]; cbn [pc_map pc_queue].
  - intros k. rewrite Hq, <- Hdom, <- !not_eq_None_Some, lookup_delete_None. destruct (decide (f = k)); naive_solver.
  - intros k. rewrite Hq, Hkeys. setoid_rewrite list_elem_of_filter. naive_solver.
  - intros k part. rewrite lookup_delete_Some. intros [Hne Hp]. destruct (Hparts k part Hp) as [H1 H2]. split; [done|].
    intros i. rewrite H2. unfold seen. setoid_rewrite list_elem_of_filter. naive_solver.
Qed.

(** The place for a new message: the history it leaves. *)
Lemma next_slot_spec hist pc :
  coll_inv hist pc → (length (pc_queue pc) <= Capacity)%nat → (0 < Capacity)%nat →
  ∃ slot hist1 pc1, next_slot Capacity pc = Ok (slot, pc1) ∧ coll_inv hist1 pc1 ∧ (length (pc_queue pc1) < Capacity)%nat ∧
    (hist1 = hist ∧ pc1 = pc ∨
     ∃ f, pc_queue pc = f :: pc_queue pc1 ∧ length (pc_queue pc) = Capacity ∧ hist1 = filter (λ m, k_HashBlock m.1 ≠ f) hist).
Proof.
  intros Hinv Hlen Hpos. unfold next_slot. destruct (Nat.eqb_spec (length (pc_queue pc)) Capacity) as [He|Hne].
  - destruct (pc_queue pc) as [|f q] eqn:Eq; [cbn in *; lia|]. pose proof Hinv as (_ & Hdom & _ & _).
    destruct (proj2 (Hdom f)) as [part Ep]; [rewrite Eq; by left|]. rewrite Ep. do 3 eexists. split; [done|].
    split; [by eapply coll_inv_evict|]. cbn in *. split; [lia|]. right. by exists f.
  - do 3 eexists. split; [done|]. split; [done|]. split; [lia|]. by left.
Qed.

(** The part that [append] works on, before the packet is inserted. *)
Lemma append_part hist pc pk size :
  coll_inv hist pc → fragment (msg (k_HashBlock pk)) pk size → (length (pc_queue pc) <= Capacity)%nat → (0 < Capacity)%nat →
  ∃ part hist1 pc1 q,
    append Capacity pk size pc
    = ('(added, part') ← tryInsert pk size part;
       Ok (part', added, mkPacketCollector (<[k_HashBlock pk := part']> (pc_map pc1)) q)) ∧
    part_inv (msg (k_HashBlock pk)) part ∧ coll_inv hist1 pc1 ∧
    (∀ i, (∃ pk', pp_packets part !! i = Some (Some pk')) ↔ seen hist1 (k_HashBlock pk) i) ∧
    NoDup q ∧ (∀ k, k ∈ q ↔ k ∈ pc_queue pc1 ∨ k = k_HashBlock pk) ∧ (length q <= Capacity)%nat ∧
    (hist1 = hist ∧ (q = pc_queue pc ∨ q = pc_queue pc ++ [k_HashBlock pk]) ∨
     k_HashBlock pk ∉ pc_queue pc ∧ ∃ f q0, pc_queue pc = f :: q0 ∧ length (pc_queue pc) = Capacity ∧
       q = q0 ++ [k_HashBlock pk] ∧ hist1 = filter (λ m, k_HashBlock m.1 ≠ f) hist).
Proof.
  intros Hinv (i & p & _ & _ & Hcnt & _) Hlen Hpos. pose proof Hinv as (Hnd & Hdom & Hkeys & Hparts). unfold append.
  set (k := k_HashBlock pk) in *. destruct (pc_map pc !! k) as [part|] eqn:Ek.
  - destruct (Hparts k part Ek) as [Hpart Hseen]. rewrite bind_Ok. exists part, hist, pc, (pc_queue pc).
    do 5 (split; [done|]). split; [|split; [done|by left; split; [|left]]]. intros k'. split; [by left|].
    intros [H| ->]; [done|]. apply Hdom. by eexists.
  - assert (k ∉ pc_queue pc) as Hnew by (intros Hin; apply Hdom in Hin as [part Hp]; congruence).
    destruct (next_slot_spec hist pc Hinv Hlen Hpos) as (slot & hist1 & pc1 & -> & Hinv1 & Hlt & Hcase). rewrite !bind_Ok.
    assert (k ∉ pc_queue pc1) as Hnew1.
    { destruct Hcase as [[_ ->]|(f & Eq & _)]; [done|]. rewrite Eq in Hnew. by apply not_elem_of_cons in Hnew as [_ ?]. }
    exists (PacketPart_new slot (k_countHeader pk)), hist1, pc1, (pc_queue pc1 ++ [k]).
    rewrite Hcnt. split; [done|]. split; [apply PacketPart_new_inv|]. split; [done|]. pose proof Hinv1 as (Hnd1 & _ & Hkeys1 & _).
    split; [|split; [|split; [|split]]].
    + intros j. split.
      * intros (pk' & Hp). cbn in Hp. by apply lookup_replicate in Hp as [? _].
      * intros (m & Hm & Hk & _). destruct Hnew1. apply Hkeys1. eauto.
    + apply NoDup_app. split; [done|]. split; [|apply NoDup_singleton]. by intros x Hx ->%list_elem_of_singleton.
    + intros k'. by rewrite elem_of_app, list_elem_of_singleton.
    + rewrite length_app. cbn. lia.
    + destruct Hcase as [[-> ->]|(f & Eq & Hc & ->)]; [left; split; [done|by right]|right]. split; [done|].
      by exists f, (pc_queue pc1).
Qed.

(** Whether a packet completes its message. *)
Definition completes hist (pk : Packet) : Prop :=
  (∀ i, k_header pk = Z.of_nat i → ¬ seen hist (k_HashBlock pk) i) ∧
  ∀ j, (j < length (msg (k_HashBlock pk)))%nat →
    seen hist (k_HashBlock pk) j ∨ k_header pk = Z.of_nat j.

(** The fragments of a part after [tryInsert]. *)
Lemma tryInsert_seen hist k part pk size i b part' :
  parts_ok (msg k) → part_inv (msg k) part → fragment (msg k) pk size → k_header pk = Z.of_nat i →
  (∀ j, (∃ pk', pp_packets part !! j = Some (Some pk')) ↔ seen hist k j) →
  tryInsert pk size part = Ok (b, part') →
  part_inv (msg k) part' ∧ (b = false ↔ seen hist k i) ∧
  ∀ j, (∃ pk', pp_packets part' !! j = Some (Some pk')) ↔ seen hist k j ∨ j = i.
Proof.
  intros Hok Hpart Hfr Hi Hseen Et.
  destruct (tryInsert_spec (msg k) part pk size i Hok Hpart Hfr Hi) as (b' & part2 & Et' & Hpart' & _ & Hcase).
  rewrite Et in Et'. injection Et' as <- <-. split; [done|]. pose proof Hfr as (i' & p & Hi' & Hp & _).
  assert (i' = i) as -> by lia. destruct (pp_packets part !! i) as [[x|]|] eqn:Ei; destruct Hcase as [-> Hc].
  - assert (seen hist k i) as Hs by (apply Hseen; eauto). split; [done|]. intros j. rewrite Hc, Hseen.
    split; [by left|]. by intros [H| ->].
  - split; [split; [done|]; intros (? & ?)%Hseen; congruence|]. intros j. rewrite Hc.
    destruct (decide (j = i)) as [->|Hne].
    + rewrite list_lookup_insert_eq by by eapply lookup_lt_Some. split; [by right|eauto].
    + rewrite list_lookup_insert_ne, Hseen by done. split; [by left|]. by intros [|].
  - apply lookup_ge_None in Ei. destruct Hpart as [Hl _]. apply lookup_lt_Some in Hp. lia.
Qed.

(** Adding a part with one more fragment to the collector. *)
Lemma coll_inv_snoc hist pc pk size i part q :
  let k := k_HashBlock pk in
  coll_inv hist pc → k_header pk = Z.of_nat i → part_inv (msg k) part → NoDup q →
  (∀ k', k' ∈ q ↔ k' ∈ pc_queue pc ∨ k' = k) →
  (∀ j, (∃ pk', pp_packets part !! j = Some (Some pk')) ↔ seen hist k j ∨ j = i) →
  coll_inv (hist ++ [(pk, size)]) (mkPacketCollector (<[k := part]> (pc_map pc)) q).
Proof.
  intros k (_ & Hdom & Hkeys & Hparts) Hi Hpart Hnd Hq Hseen.
  split; [done|]. split; [|split]; cbn [pc_map pc_queue].
  - intros k'. rewrite Hq. destruct (decide (k' = k)) as [->|Hne].
    + rewrite lookup_insert_eq. split; [by right|by eexists].
    + rewrite lookup_insert_ne, Hdom by done. split; [by left|]. by intros [|].
  - intros k'. rewrite Hq, Hkeys. setoid_rewrite elem_of_app. setoid_rewrite list_elem_of_singleton. split.
    + intros [(m & Hm & Hk)| ->]; [eauto|]. exists (pk, size). auto.
    + intros (m & [Hm| ->] & Hk); [left; eauto|by right].
  - intros k' part2. destruct (decide (k' = k)) as [->|Hne].
    + rewrite lookup_insert_eq. intros [= <-]. split; [done|]. intros j. rewrite Hseen, seen_snoc. cbn [fst].
      split; intros [H|H]; try (by left); right; [split; [done|lia]|destruct H; lia].
    + rewrite lookup_insert_ne by done. intros H2. destruct (Hparts k' part2 H2) as [H3 H4].
      split; [done|]. intros j. rewrite H4, seen_snoc. split; [by left|]. intros [H5|[H5 _]]; [done|]. by destruct Hne.
Qed.

Lemma collect_spec hist pc pk size :
  coll_inv hist pc → parts_ok (msg (k_HashBlock pk)) → fragment (msg (k_HashBlock pk)) pk size →
  (length (pc_queue pc) <= Capacity)%nat → (0 < Capacity)%nat →
  ∃ r hist1 pc', collect Capacity pk size pc = Ok (r, pc') ∧ coll_inv (hist1 ++ [(pk, size)]) pc' ∧
    (length (pc_queue pc') <= Capacity)%nat ∧
    (hist1 = hist ∧ (pc_queue pc' = pc_queue pc ∨ pc_queue pc' = pc_queue pc ++ [k_HashBlock pk]) ∨
     k_HashBlock pk ∉ pc_queue pc ∧ ∃ f q0, pc_queue pc = f :: q0 ∧ length (pc_queue pc) = Capacity ∧
       pc_queue pc' = q0 ++ [k_HashBlock pk] ∧ hist1 = filter (λ m, k_HashBlock m.1 ≠ f) hist) ∧
    ((completes hist1 pk ∧ r = Some (concat (msg (k_HashBlock pk)))) ∨ (¬ completes hist1 pk ∧ r = None)).
Proof.
  intros Hinv0 Hok Hfr Hlen Hpos.
  destruct (append_part hist pc pk size Hinv0 Hfr Hlen Hpos)
    as (part & hist1 & pc1 & q & Ea & Hpart & Hinv & Hseen & Hnd & Hq & Hlq & Hcase).
  pose proof Hfr as (i & p & Hi & Hp & Hcnt & _). unfold completes. set (k := k_HashBlock pk) in *.
  destruct (tryInsert_spec (msg k) part pk size i Hok Hpart Hfr Hi) as (b & part' & Et & _).
  destruct (tryInsert_seen hist1 k part pk size i b part' Hok Hpart Hfr Hi Hseen Et) as (Hpart' & Hb & Hseen').
  pose proof (coll_inv_snoc hist1 pc1 pk size i part' q Hinv Hi Hpart' Hnd Hq Hseen') as Hinv'. fold k in Hinv'.
  pose proof Hpart' as (Hl & _ & Hleft & _).
  unfold collect. rewrite Ea, Et, !bind_Ok. cbv beta iota. destruct b; cbn [negb].
  - destruct (Z.eqb_spec (pp_left part') 0) as [Hz|Hnz]; cbn [negb].
    + rewrite Hcnt, (combine_spec (msg k) part' Hok Hpart' Hz), bind_Ok. do 3 eexists. do 4 (split; [done|]).
      left. split; [|done]. split.
      * intros i' Hi' Hse. assert (i' = i) as -> by lia. by apply Hb in Hse.
      * intros j Hj. rewrite Hleft in Hz.
        destruct (missing_zero _ j Hz ltac:(lia)) as [x Hx]. destruct (proj1 (Hseen' j)) as [| ->]; [by eexists|by left|by right].
    + do 3 eexists. do 4 (split; [done|]). right. split; [|done]. intros [_ Hall].
      rewrite Hleft in Hnz. destruct (missing_nonzero _ Hnz) as [j Hj].
      pose proof (lookup_lt_Some _ _ _ Hj) as Hlt. rewrite Hl in Hlt.
      destruct (proj2 (Hseen' j)) as [x Hx]; [|congruence]. destruct (Hall j Hlt) as [|]; [by left|right; lia].
  - do 3 eexists. do 4 (split; [done|]). right. split; [|done]. intros [Hno _].
    apply (Hno i Hi). by apply Hb.
Qed.

(** The collector while the message [k] is tracked: at most [n] other messages came
    after it. *)
Definition coll_tracks (k : byte_array) (n : nat) hist (pc : PacketCollector) : Prop :=
  coll_inv hist pc ∧ (length (pc_queue pc) <= Capacity)%nat ∧ recent (λ x, x = k) n (pc_queue pc).

Lemma one_key (k : byte_array) : own_bound (λ x, x = k) 1.
Proof.
  intros [|x [|y l]] Hnd Hf; cbn; [lia|lia|]. exfalso. rewrite !Forall_cons in Hf. destruct Hf as (-> & -> & _).
  apply NoDup_cons in Hnd as [Hnd _]. apply Hnd. by left.
Qed.

(** A fragment of any message leaves the fragments of the tracked one. *)
Lemma collect_tracked k n hist pc pk size :
  coll_tracks k n hist pc → parts_ok (msg (k_HashBlock pk)) → fragment (msg (k_HashBlock pk)) pk size →
  (0 < Capacity)%nat → (k_HashBlock pk ∉ pc_queue pc → (n + 1 < Capacity)%nat) →
  ∃ r hist1 pc', collect Capacity pk size pc = Ok (r, pc') ∧
    coll_tracks k (if decide (k_HashBlock pk = k) then n else S n) (hist1 ++ [(pk, size)]) pc' ∧
    (∀ i, seen hist1 k i ↔ seen hist k i) ∧ (∀ x, x ∈ pc_queue pc' → x ∈ pc_queue pc ∨ x = k_HashBlock pk) ∧
    ((completes hist1 pk ∧ r = Some (concat (msg (k_HashBlock pk)))) ∨ (¬ completes hist1 pk ∧ r = None)).
Proof.
  intros (Hinv & Hlen & Hrec) Hok Hfr Hpos Hroom.
  destruct (collect_spec hist pc pk size Hinv Hok Hfr Hlen Hpos) as (r & hist1 & pc' & E & Hinv' & Hlen' & Hcase & Hr).
  exists r, hist1, pc'. split; [exact E|]. unfold coll_tracks.
  destruct Hcase as [[-> [Hq|Hq]]|(Hnew & f & q0 & Eq & Hc & Hq & ->)]; rewrite Hq.
  - split; [|split; [done|]; split; [by left|done]]. split; [done|]. split; [by rewrite <- Hq|].
    eapply recent_mono; [exact Hrec|]. destruct (decide _); lia.
  - split; [|split; [done|]; split; [|done]].
    + split; [done|]. split; [by rewrite <- Hq|]. exact (recent_push (λ x, x = k) n _ _ Hrec).
    + intros x. by rewrite elem_of_app, list_elem_of_singleton.
  - pose proof Hinv as (Hnd & _). rewrite Eq in Hrec, Hnd, Hc. destruct (recent_evict _ n 1 f q0 (one_key k) Hrec Hnd) as [Hf Hrec'];
      [rewrite Hc; by apply Hroom|].
    split; [|split; [|split; [|done]]].
    + split; [done|]. split; [by rewrite <- Hq|]. exact (recent_push (λ x, x = k) n _ _ Hrec').
    + intros i. unfold seen. setoid_rewrite list_elem_of_filter. naive_solver.
    + intros x. rewrite Eq, elem_of_app, list_elem_of_singleton, elem_of_cons. tauto.
Qed.

Definition msg_key (m : Packet * Z) : byte_array := k_HashBlock m.1.

End Collector.

#[export] Instance seen_dec hist k i : Decision (seen hist k i).
Proof.
  refine (cast_if (decide (Exists (λ m, k_HashBlock m.1 = k ∧ k_header m.1 = Z.of_nat i) hist)));
    unfold seen; by rewrite <- Exists_exists.
Defined.

(** The first place in a history at which all fragments of a message are there. *)
Lemma first_complete (msgs : list (Packet * Z)) k n :
  (1 <= n)%nat → Forall (seen msgs k) (seq 0 n) →
  ∃ j, (j < length msgs)%nat ∧ ¬ Forall (seen (take j msgs) k) (seq 0 n) ∧ Forall (seen (take (S j) msgs) k) (seq 0 n).
Proof.
  intros Hn Hall. rewrite <- (take_ge msgs (length msgs)) in Hall by done.
  induction (length msgs) as [|len IH] in Hall |- *.
  - exfalso. rewrite take_0 in Hall. destruct n as [|n]; [lia|]. cbn in Hall. apply Forall_cons in Hall as [(m & ?%elem_of_nil & _) _]. done.
  - destruct (decide (Forall (seen (take len msgs) k) (seq 0 n))) as [Hp|Hnp].
    + destruct (IH Hp) as (j & Hj & H). exists j. split; [lia|done].
    + exists len. split; [lia|done].
Qed.

Lemma seen_mono hist hist' k i : (∀ m, m ∈ hist → m ∈ hist') → seen hist k i → seen hist' k i.
Proof. intros Hs (m & Hm & H). exists m. auto. Qed.

(** When all fragments of a message are in a history, exactly one of its packets
    completes it. *)
Lemma completes_once msg (msgs : list (Packet * Z)) k :
  (∀ m, m ∈ msgs → msg_key m = k → ∃ i, k_header m.1 = Z.of_nat i ∧ (i < length (msg k))%nat) →
  (1 <= length (msg k))%nat → (∀ i, (i < length (msg k))%nat → seen msgs k i) →
  ∃ j m, msgs !! j = Some m ∧ msg_key m = k ∧ completes msg (take j msgs) m.1 ∧
    ∀ j' m', msgs !! j' = Some m' → msg_key m' = k → j' ≠ j → ¬ completes msg (take j' msgs) m'.1.
Proof.
  intros Hfr Hpos Hall. destruct (first_complete msgs k (length (msg k)) Hpos) as (j & Hj & Hno & Hyes).
  { apply Forall_forall. intros i [_ Hi]%elem_of_seq. apply Hall. lia. }
  destruct (lookup_lt_is_Some_2 msgs j Hj) as [m Hm].
  rewrite (take_S_r _ _ m Hm) in Hyes. rewrite Forall_forall in Hyes.
  assert (∃ i, ¬ seen (take j msgs) k i ∧ msg_key m = k ∧ k_header m.1 = Z.of_nat i) as (i & Hi & Hmk & Hh).
  { apply not_Forall_Exists in Hno; [|apply _]. apply Exists_exists in Hno as (i & Hin & Hi). exists i.
    split; [done|]. specialize (Hyes i Hin). apply seen_snoc in Hyes as [|]; done. }
  exists j, m. split; [done|]. split; [done|]. split.
  - unfold completes. change (k_HashBlock m.1) with (msg_key m). rewrite Hmk. split.
    + intros i' Hi'. by replace i' with i by lia.
    + intros i' Hi'. specialize (Hyes i' ltac:(apply elem_of_seq; lia)).
      apply seen_snoc in Hyes as [|[_ Hx]]; auto.
  - intros j' m' Hm' Hk' Hne [Hnew Hcomp].
    change (k_HashBlock m'.1) with (msg_key m') in Hnew, Hcomp. rewrite Hk' in Hnew, Hcomp.
    destruct (Hfr m' ltac:(by eapply list_elem_of_lookup_2) Hk') as (i' & Hi' & Hlt).
    destruct (decide (j < j')%nat) as [Hjj|Hjj].
    + apply (Hnew i' Hi'). specialize (Hyes i' ltac:(apply elem_of_seq; lia)).
      eapply seen_mono; [|exact Hyes]. intros x. rewrite <- (take_S_r _ _ m Hm). intros (y & Hy & Hlt2)%elem_of_take.
      apply elem_of_take. exists y. split; [done|lia].
    + apply Hno, Forall_forall. intros i2 [_ Hi2]%elem_of_seq.
      destruct (Hcomp i2 ltac:(lia)) as [(x & Hx & Hxk)|Hx].
      * exists x. split; [|done]. apply elem_of_take in Hx as (y & Hy & Hlt2). apply elem_of_take. exists y. split; [done|lia].
      * exists m'. split; [|done]. apply elem_of_take. exists j'. split; [done|lia].
Qed.

Lemma fragment_header ps pk size : fragment ps pk size → ∃ i, k_header pk = Z.of_nat i ∧ (i < length ps)%nat.
Proof. intros (i & p & Hi & Hp & _). exists i. split; [done|]. by eapply lookup_lt_Some. Qed.

(** A message of two packets. *)
Definition two_parts : list byte_array := [replicate max_length 1; [2; 3]].

Definition sample_packet (header : Z) (data : byte_array) : Packet :=
  mkPacket 3 3 1 0 [] [] [] header 2 data.

Lemma two_parts_ok : parts_ok two_parts.
Proof.
  split; [cbn; lia|]. exists [replicate max_length 1], [2; 3]. split; [done|]. split.
  - constructor; [apply length_replicate|constructor].
  - pose proof max_length_pos. cbn. lia.
Qed.

(** Two short fragments make the number of bytes to copy for the last one wrap
    around. *)
Lemma combine_underflow :
  combine 2 (mkPacketPart 0 [Some (sample_packet 0 [1]); Some (sample_packet 1 [2])] 2 0) = Throw undefined_behaviour.
Proof.
  unfold combine. cbn -[Z.of_nat u64 Z.sub]. rewrite max_length_Z. reflexivity.
Qed.

(** ** Counters *)

Section CircularMapLaws.
Context {K : Type} `{Countable K} (Capacity : nat).

(** How often a key is in a list. *)
Definition occurrences (k : K) (l : list K) : Z := Z.of_nat (length (filter (λ x, x = k) l)).

Lemma occurrences_app k l1 l2 : occurrences k (l1 ++ l2) = occurrences k l1 + occurrences k l2.
Proof. unfold occurrences. rewrite filter_app, length_app. lia. Qed.

Lemma occurrences_pos k l : 0 < occurrences k l ↔ k ∈ l.
Proof.
  unfold occurrences. induction l as [|x l IH]; [cbn; rewrite elem_of_nil; lia|].
  rewrite elem_of_cons. rewrite filter_cons. destruct (decide (x = k)) as [->|Hne]; cbn [length].
  - split; [by left|lia].
  - rewrite IH. split; [by right|]. intros [->|]; done.
Qed.

(** The map counts the keys of the history, and the queue has them once. *)
Definition counts_history (hist : list K) (c : CircularMap K) : Prop :=
  NoDup (cm_queue c) ∧ (∀ k, k ∈ cm_queue c ↔ k ∈ hist) ∧
  ∀ k, cm_map c !! k = if decide (k ∈ hist) then Some (u32 (occurrences k hist)) else None.

Lemma counts_history_empty : counts_history [] CircularMap_empty.
Proof.
  split; [constructor|]. split; [done|]. intros k. cbn. rewrite lookup_empty, decide_False; [done|apply not_elem_of_nil].
Qed.

Lemma occurrences_self k : occurrences k [k] = 1.
Proof. unfold occurrences. by rewrite filter_cons_True. Qed.

(** What the map should hold, for a key other than the one that was added. *)
Lemma counts_other hist k k' :
  k' ≠ k →
  (if decide (k' ∈ hist ++ [k]) then Some (u32 (occurrences k' (hist ++ [k]))) else None)
  = if decide (k' ∈ hist) then Some (u32 (occurrences k' hist)) else None.
Proof.
  intros Hne. rewrite occurrences_app. unfold occurrences at 2. rewrite filter_cons_False by done. cbn [length filter].
  rewrite Z.add_0_r. apply decide_ext. rewrite elem_of_app, list_elem_of_singleton. split; [|by left]. by intros [| ->].
Qed.

Lemma occurrences_none k hist : k ∉ hist → occurrences k hist = 0.
Proof.
  intros Hn. pose proof (occurrences_pos k hist) as Hp. destruct (decide (0 < occurrences k hist)) as [Hl|Hl].
  - by apply Hp in Hl.
  - unfold occurrences in *. lia.
Qed.

(** A key that is new, when there is room. *)
Lemma counts_push hist c k :
  counts_history hist c → k ∉ hist → counts_history (hist ++ [k]) (mkCircularMap (<[k := 1]> (cm_map c)) (cm_queue c ++ [k])).
Proof.
  intros (Hnd & Hq & Hm) Hnin. split; [|split]; cbn [cm_queue cm_map].
  - apply NoDup_app. split; [done|]. split; [|apply NoDup_singleton]. intros x Hx ->%list_elem_of_singleton. by apply Hq in Hx.
  - intros k'. by rewrite !elem_of_app, Hq.
  - intros k'. destruct (decide (k' = k)) as [->|Hne].
    + rewrite lookup_insert_eq, decide_True, occurrences_app, occurrences_self, occurrences_none
        by (done || (apply elem_of_app; right; by left)). done.
    + by rewrite lookup_insert_ne, Hm, counts_other by done.
Qed.

Lemma occurrences_filter_ne k f l : k ≠ f → occurrences k (filter (λ x, x ≠ f) l) = occurrences k l.
Proof.
  intros Hne. unfold occurrences. f_equal. f_equal. induction l as [|x l IH]; [done|].
  destruct (decide (x = f)) as [->|Hx].
  - rewrite (filter_cons_False (λ x, x ≠ f)), (filter_cons_False (λ x, x = k)) by congruence. done.
  - rewrite (filter_cons_True (λ x, x ≠ f)) by done. destruct (decide (x = k)) as [->|Hxk].
    + by rewrite !(filter_cons_True (λ x, x = k)), IH by done.
    + by rewrite !(filter_cons_False (λ x, x = k)), IH by done.
Qed.

(** Forgetting the oldest key. *)
Lemma counts_evict hist c f q :
  counts_history hist c → cm_queue c = f :: q →
  counts_history (filter (λ x, x ≠ f) hist) (mkCircularMap (delete f (cm_map c)) q).
Proof.
  intros (Hnd & Hq & Hm) Eq. rewrite Eq in Hnd. apply NoDup_cons in Hnd as [Hf Hnd].
  split; [done|]. split; cbn [cm_queue cm_map]; intros k.
  - rewrite list_elem_of_filter, <- Hq, Eq, elem_of_cons. split; [intros H1; split; [by intros ->|by right]|by intros [? [?|?]]].
  - destruct (decide (k = f)) as [->|Hne].
    + rewrite lookup_delete_eq, decide_False; [done|]. by intros [? _]%list_elem_of_filter.
    + rewrite lookup_delete_ne, Hm, occurrences_filter_ne by done. apply decide_ext. rewrite list_elem_of_filter. tauto.
Qed.

(** The counters while the keys [own] are tracked: at most [n] others came after the
    first of them. *)
Definition counts_tracks (own : K → Prop) `{!∀ x, Decision (own x)} (n : nat) (hist : list K) (c : CircularMap K) : Prop :=
  counts_history hist c ∧ (length (cm_queue c) <= Capacity)%nat ∧ recent own n (cm_queue c).

Lemma pushAndIncrease_tracked (own : K → Prop) `{!∀ x, Decision (own x)} M n hist c k :
  counts_tracks own n hist c → own_bound own M → (n + M < Capacity)%nat →
  ∃ hist1, (pushAndIncrease Capacity k c).1 = u32 (occurrences k hist1 + 1) ∧
    counts_tracks own (if decide (own k) then n else S n) (hist1 ++ [k]) (pushAndIncrease Capacity k c).2 ∧
    (∀ x, x ∈ hist1 → x ∈ hist) ∧ (∀ x, own x → occurrences x hist1 = occurrences x hist).
Proof.
  intros (Hc & Hlen & Hrec) HM Hn. pose proof Hc as (Hnd & Hq & Hm). unfold pushAndIncrease. pose proof (Hm k) as Hk.
  destruct (decide (k ∈ hist)) as [Hin|Hnin]; rewrite Hk.
  - assert (u32 (u32 (occurrences k hist) + 1) = u32 (occurrences k hist + 1)) as Hu by width_lia.
    exists hist. split; [done|]. split; [|done]. cbn [snd]. split; [|split; [done|]].
    + split; [done|]. split; cbn [cm_queue cm_map].
      * intros k'. rewrite Hq, elem_of_app, list_elem_of_singleton. split; [by left|]. by intros [| ->].
      * intros k'. destruct (decide (k' = k)) as [->|Hne].
        -- rewrite lookup_insert_eq, decide_True, occurrences_app, occurrences_self by (apply elem_of_app; by left). by rewrite Hu.
        -- by rewrite lookup_insert_ne, Hm, counts_other by done.
    + eapply recent_mono; [exact Hrec|]. destruct (decide (own k)); lia.
  - destruct (Nat.eqb_spec (length (cm_queue c)) Capacity) as [He|Hne].
    + destruct (cm_queue c) as [|f q] eqn:Eq; [cbn in *; lia|].
      destruct (recent_evict own n M f q HM Hrec Hnd) as [Hf Hrec']; [lia|]. cbn [fst snd].
      exists (filter (λ x, x ≠ f) hist). assert (k ∉ filter (λ x, x ≠ f) hist) as Hk' by (by intros [_ ?]%list_elem_of_filter).
      rewrite occurrences_none by done. split; [done|]. split; [|split].
      * split; [exact (counts_push _ _ k (counts_evict hist c f q Hc Eq) Hk')|]. cbn [cm_queue].
        split; [rewrite length_app; cbn in *; lia|]. by apply recent_push.
      * by intros x [_ ?]%list_elem_of_filter.
      * intros x Hx. apply occurrences_filter_ne. by intros ->.
    + exists hist. cbn [fst snd]. rewrite occurrences_none by done. split; [done|]. split; [|done].
      split; [by apply counts_push|]. cbn [cm_queue]. split; [rewrite length_app; cbn; lia|]. by apply recent_push.
Qed.

End CircularMapLaws.

(** ** The ring of nodes *)

Definition ring_inv (Capacity : nat) (r : NodesRing) : Prop :=
  NoDup (nr_endpoints r) ∧ (∀ e, e ∈ nr_nodes r ↔ e ∈ nr_endpoints r) ∧ (length (nr_endpoints r) <= Capacity)%nat.

Lemma ring_inv_empty Capacity : ring_inv Capacity NodesRing_empty.
Proof. split; [constructor|]. split; [intros e; cbn; by rewrite elem_of_empty, elem_of_nil|]. cbn. lia. Qed.

(** Placing an endpoint keeps the ring without repetitions and within its
    capacity, and the endpoint is in it afterwards. *)
Lemma NodesRing_place_inv Capacity ep r :
  (0 < Capacity)%nat → ring_inv Capacity r →
  let '(added, r') := NodesRing_place Capacity ep r in
  ring_inv Capacity r' ∧ ep ∈ nr_endpoints r' ∧ (added = false ↔ ep ∈ nr_endpoints r).
Proof.
  intros Hpos Hr. pose proof Hr as (Hnd & Hset & Hlen). unfold NodesRing_place. case_bool_decide as Hin.
  { apply Hset in Hin. done. }
  assert (ep ∉ nr_endpoints r) as Hnew by by rewrite <- Hset.
  set (p := if (length (nr_endpoints r) =? Capacity)%nat then _ else _).
  assert (NoDup p.2 ∧ (∀ e, e ∈ p.1 ↔ e ∈ p.2) ∧ (length p.2 < Capacity)%nat ∧ ep ∉ p.2) as (H1 & H2 & H3 & H4).
  { unfold p. destruct (Nat.eqb_spec (length (nr_endpoints r)) Capacity) as [He|Hne].
    - destruct (nr_endpoints r) as [|front e] eqn:Ee; cbn in *; [lia|]. apply NoDup_cons in Hnd as [Hf Hnd].
      split; [done|]. split; [|split; [lia|]].
      + intros x. rewrite elem_of_difference, Hset, elem_of_cons, elem_of_singleton. split; [by intros [[->|] ?]|].
        intros Hx. split; [by right|]. by intros ->.
      + intros Hx. apply Hnew. by right.
    - cbn. split; [done|]. split; [done|]. split; [lia|done]. }
  destruct p as [n e]. cbn [fst snd] in *. split; [|split].
  - split; [|split]; cbn [nr_endpoints nr_nodes].
    + apply NoDup_app. split; [done|]. split; [|apply NoDup_singleton]. by intros x Hx ->%list_elem_of_singleton.
    + intros x. rewrite elem_of_union, elem_of_singleton, elem_of_app, list_elem_of_singleton, H2. tauto.
    + rewrite length_app. cbn. lia.
  - cbn. apply elem_of_app. right. by left.
  - split; [done|]. intros Hx. done.
Qed.
