(* ===== verification/Packets.v ===== *)
(** * Packets: counted pointers to packets

    [PacketPtr] and [PacketManager] of [net/include/net/Packet.hpp].  A packet is a
    cell of the pages that the manager has allocated; it has a counter of 32 bits.
    The variables of type [PacketPtr] of the program are a list: a new variable is
    added at its end, a destroyed one stays there as [None].  [pk_free] is
    [freeStack_] from its back to its front. *)

From S2P Require Import Prelude.

Section Packets.
Context (PageSize : nat).

Record PacketManager := mkPacketManager {
  pk_pages : nat;
  pk_free : list nat;
  pk_counter : nat → Z;
  pk_vars : list (option (option nat));
}.

(** ** The manager *)

Definition pk_set_free (f : list nat) (s : PacketManager) : PacketManager :=
  mkPacketManager (pk_pages s) f (pk_counter s) (pk_vars s).
Definition pk_set_counter (c : nat) (n : Z) (s : PacketManager) : PacketManager :=
  mkPacketManager (pk_pages s) (pk_free s) (λ d, if (d =? c)%nat then n else pk_counter s d) (pk_vars s).
Definition pk_set_vars (v : list (option (option nat))) (s : PacketManager) : PacketManager :=
  mkPacketManager (pk_pages s) (pk_free s) (pk_counter s) v.

(** [allocateNewPage]: the cells of the new page, in the order of their addresses. *)
Definition allocateNewPage (s : PacketManager) : PacketManager :=
  mkPacketManager (S (pk_pages s)) (reverse (seq (pk_pages s * PageSize) PageSize) ++ pk_free s)
    (pk_counter s) (pk_vars s).

(** [PacketManager()], over memory with some contents. *)
Definition PacketManager_new (memory : nat → Z) : PacketManager :=
  allocateNewPage (mkPacketManager 0 [] memory []).

(** [getFreePack] *)
Definition getFreePack (s : PacketManager) : result (nat * PacketManager) :=
  let s := match pk_free s with [] => allocateNewPage s | _ => s end in
  match pk_free s with
  | [] => Throw undefined_behaviour
  | c :: f => Ok (c, pk_set_free f (pk_set_counter c 1 s))
  end.

(** [increment] and [decrement] with [freeMem] *)
Definition increment (p : option nat) (s : PacketManager) : PacketManager :=
  match p with
  | None => s
  | Some c => pk_set_counter c (u32 (pk_counter s c + 1)) s
  end.

Definition decrement (p : option nat) (s : PacketManager) : PacketManager :=
  match p with
  | None => s
  | Some c =>
      let n := u32 (pk_counter s c - 1) in
      let s := pk_set_counter c n s in
      if n =? 0 then pk_set_free (c :: pk_free s) s else s
  end.

(** ** Pointers *)

(** What a program does with pointers: the constructors, the assignments, the
    destructor. *)
Inductive pk_op :=
| Pk_null
| Pk_get
| Pk_copy (w : nat)
| Pk_move (w : nat)
| Pk_assign (v w : nat)
| Pk_move_assign (v w : nat)
| Pk_destroy (v : nat).

(** A variable that is alive. *)
Definition pk_read (v : nat) (s : PacketManager) : result (option nat) :=
  match pk_vars s !! v with
  | Some (Some p) => Ok p
  | _ => Throw undefined_behaviour
  end.

Definition pk_write (v : nat) (p : option (option nat)) (s : PacketManager) : PacketManager :=
  pk_set_vars (<[v := p]> (pk_vars s)) s.

Definition pk_new (p : option nat) (s : PacketManager) : PacketManager :=
  pk_set_vars (pk_vars s ++ [Some p]) s.

Definition pk_step (o : pk_op) (s : PacketManager) : result PacketManager :=
  match o with
  | Pk_null => Ok (pk_new None s)
  | Pk_get => '(c, s) ← getFreePack s; Ok (pk_new (Some c) s)
  | Pk_copy w => p ← pk_read w s; Ok (pk_new p (increment p s))
  | Pk_move w => p ← pk_read w s; Ok (pk_new p (pk_write w (Some None) s))
  | Pk_assign v w =>
      p ← pk_read v s; q ← pk_read w s;
      if bool_decide (p = q) then Ok s
      else
        let s := decrement p s in
        let s := pk_write v (Some q) s in
        Ok (increment q s)
  | Pk_move_assign v w =>
      p ← pk_read v s; q ← pk_read w s;
      let s := if bool_decide (p = q) then s
               else pk_write v (Some q) (decrement p s) in
      Ok (pk_write w (Some None) s)
  | Pk_destroy v => p ← pk_read v s; Ok (pk_write v None (decrement p s))
  end.

Fixpoint pk_run (ops : list pk_op) (s : PacketManager) : result PacketManager :=
  match ops with [] => Ok s | o :: ops' => s ← pk_step o s; pk_run ops' s end.

(** ** Counting *)

(** The number of variables that point to a cell. *)
Fixpoint pk_refs (c : nat) (vars : list (option (option nat))) : Z :=
  match vars with
  | [] => 0
  | x :: vars' => (if bool_decide (x = Some (Some c)) then 1 else 0) + pk_refs c vars'
  end.

Definition pk_points (c : nat) (x : option (option nat)) : Z := if bool_decide (x = Some (Some c)) then 1 else 0.

Lemma pk_refs_app c l1 l2 : pk_refs c (l1 ++ l2) = pk_refs c l1 + pk_refs c l2.
Proof. induction l1 as [|x l1 IH]; cbn; lia. Qed.

Lemma pk_refs_nonneg c l : 0 <= pk_refs c l.
Proof. induction l as [|x l IH]; cbn; [lia|]. case_bool_decide; lia. Qed.

Lemma pk_refs_insert c l v x y :
  l !! v = Some x → pk_refs c (<[v := y]> l) = pk_refs c l - pk_points c x + pk_points c y.
Proof.
  revert v. induction l as [|z l IH]; intros [|v] Hv; try done.
  - injection Hv as ->. cbn. unfold pk_points. lia.
  - change (pk_points c z + pk_refs c (<[v := y]> l) = pk_points c z + pk_refs c l - pk_points c x + pk_points c y).
    rewrite (IH v Hv). lia.
Qed.

Lemma pk_refs_pos c l v : l !! v = Some (Some (Some c)) → 0 < pk_refs c l.
Proof.
  revert v. induction l as [|z l IH]; intros [|v] Hv; cbn in *; try done.
  - injection Hv as ->. rewrite bool_decide_eq_true_2 by done. pose proof (pk_refs_nonneg c l). lia.
  - specialize (IH v Hv). case_bool_decide; lia.
Qed.

(** ** Balance

    The counters agree with [k]: free cells have none, the others at least one. *)

Definition pk_cells (s : PacketManager) : nat := (pk_pages s * PageSize)%nat.

Definition balanced (k : nat → Z) (s : PacketManager) : Prop :=
  NoDup (pk_free s) ∧ (∀ c, c ∈ pk_free s → (c < pk_cells s)%nat ∧ k c = 0) ∧
  (∀ c, (c < pk_cells s)%nat → c ∉ pk_free s → pk_counter s c = k c ∧ 1 <= k c) ∧
  (∀ c, (pk_cells s <= c)%nat → k c = 0).

Lemma balanced_ext k k' s : (∀ c, k c = k' c) → balanced k s → balanced k' s.
Proof.
  intros E (H1 & H2 & H3 & H4). split; [done|]. split; [|split].
  - intros c Hc. rewrite <- E. by apply H2.
  - intros c Hc Hn. rewrite <- E. by apply H3.
  - intros c Hc. rewrite <- E. by apply H4.
Qed.

(** A cell with a count is allocated and not free. *)
Lemma balanced_used k s c : balanced k s → 0 < k c → (c < pk_cells s)%nat ∧ (c ∉ pk_free s) ∧ pk_counter s c = k c.
Proof.
  intros (H1 & H2 & H3 & H4) Hk. destruct (decide (c < pk_cells s)%nat) as [Hc|Hc].
  - assert (c ∉ pk_free s) as Hn by (intros [_ ?]%H2; lia). split; [done|]. split; [done|]. by apply H3.
  - rewrite H4 in Hk by lia. lia.
Qed.

Definition bump (k : nat → Z) (p : option nat) (n : Z) (c : nat) : Z := k c + n * pk_points c (Some p).

Lemma points_none c : pk_points c (Some None) = 0.
Proof. done. Qed.

Lemma points_self c : pk_points c (Some (Some c)) = 1.
Proof. unfold pk_points. by rewrite bool_decide_eq_true_2. Qed.

Lemma pk_points_ne c d : d ≠ c → pk_points d (Some (Some c)) = 0.
Proof. intros Hne. unfold pk_points. rewrite bool_decide_eq_false_2; [done|]. congruence. Qed.

Lemma increment_balanced k p s :
  balanced k s → (∀ c, p = Some c → 0 < k c < 2 ^ 32 - 1) → balanced (bump k p 1) (increment p s).
Proof.
  intros Hb Hk. destruct p as [c|]; cbn [increment].
  2: { eapply balanced_ext; [|exact Hb]. intros c. unfold bump. rewrite points_none. lia. }
  specialize (Hk c eq_refl). destruct (balanced_used k s c Hb) as (Hc & Hn & Hcnt); [lia|].
  destruct Hb as (H1 & H2 & H3 & H4). unfold bump. split; [done|]. split; [|split].
  - intros d Hd. destruct (H2 d Hd) as [Hd1 Hd2]. split; [done|]. rewrite pk_points_ne; [lia|]. by intros ->.
  - intros d Hd Hdn. cbn. destruct (Nat.eqb_spec d c) as [->|Hne].
    + rewrite points_self, Hcnt. split; [width_lia|lia].
    + rewrite pk_points_ne by done. destruct (H3 d Hd Hdn). split; [lia|lia].
  - intros d Hd. cbn in Hd. rewrite pk_points_ne, H4 by (done || (intros ->; unfold pk_cells in *; cbn in *; lia)). lia.
Qed.

Lemma decrement_balanced k p s :
  balanced k s → (∀ c, p = Some c → 0 < k c < 2 ^ 32) → balanced (bump k p (-1)) (decrement p s).
Proof.
  intros Hb Hk. destruct p as [c|]; cbn [decrement].
  2: { eapply balanced_ext; [|exact Hb]. intros c. unfold bump. rewrite points_none. lia. }
  specialize (Hk c eq_refl). destruct (balanced_used k s c Hb) as (Hc & Hn & Hcnt); [lia|].
  destruct Hb as (H1 & H2 & H3 & H4). rewrite Hcnt. replace (u32 (k c - 1)) with (k c - 1) by width_lia.
  unfold bump. destruct (Z.eqb_spec (k c - 1) 0) as [Hz|Hz].
  - split; [by apply NoDup_cons|]. split; [|split].
    + intros d [->|Hd]%elem_of_cons; [rewrite points_self; split; [done|lia]|].
      destruct (H2 d Hd). split; [done|]. rewrite pk_points_ne; [lia|]. by intros ->.
    + intros d Hd [Hne Hdn]%not_elem_of_cons. cbn. destruct (Nat.eqb_spec d c); [done|].
      rewrite pk_points_ne by done. destruct (H3 d Hd Hdn). lia.
    + intros d Hd. rewrite pk_points_ne, H4 by (done || (intros ->; unfold pk_cells in *; cbn in *; lia)). lia.
  - split; [done|]. split; [|split].
    + intros d Hd. destruct (H2 d Hd) as [Hd1 Hd2]. split; [done|]. rewrite pk_points_ne; [lia|]. by intros ->.
    + intros d Hd Hdn. cbn. destruct (Nat.eqb_spec d c) as [->|Hne].
      * rewrite points_self. lia.
      * rewrite pk_points_ne by done. destruct (H3 d Hd Hdn). lia.
    + intros d Hd. rewrite pk_points_ne, H4 by (done || (intros ->; unfold pk_cells in *; cbn in *; lia)). lia.
Qed.

Lemma allocate_balanced k s : balanced k s → balanced k (allocateNewPage s).
Proof.
  intros (H1 & H2 & H3 & H4).
  assert (pk_cells (allocateNewPage s) = pk_cells s + PageSize)%nat as Hcells by (unfold pk_cells; cbn; lia).
  assert (∀ c, c ∈ pk_free (allocateNewPage s) ↔ (pk_cells s <= c < pk_cells s + PageSize)%nat ∨ c ∈ pk_free s) as Hfree.
  { intros c. cbn. rewrite elem_of_app, elem_of_reverse, elem_of_seq. done. }
  split; [|split; [|split]].
  - cbn. apply NoDup_app. split; [rewrite reverse_Permutation; apply NoDup_seq|]. split; [|done].
    intros c Hc%elem_of_reverse%elem_of_seq [Hx _]%H2. unfold pk_cells in Hx. lia.
  - intros c. rewrite Hfree, Hcells. intros [Hc|Hc]; [split; [lia|apply H4; lia]|]. destruct (H2 c Hc). split; [lia|done].
  - intros c Hc. rewrite Hfree. intros Hn. apply H3; [|tauto]. rewrite Hcells in Hc. lia.
  - intros c Hc. apply H4. lia.
Qed.

Lemma getFreePack_balanced k s :
  (0 < PageSize)%nat → balanced k s →
  ∃ c s', getFreePack s = Ok (c, s') ∧ k c = 0 ∧ balanced (bump k (Some c) 1) s' ∧ pk_vars s' = pk_vars s.
Proof.
  intros Hpos Hb. unfold getFreePack. set (s1 := match pk_free s with [] => allocateNewPage s | _ => s end).
  assert (balanced k s1 ∧ pk_vars s1 = pk_vars s ∧ pk_free s1 ≠ []) as (Hb1 & Hv & Hne).
  { unfold s1. destruct (pk_free s) as [|c f] eqn:Ef; [|by rewrite Ef]. split; [by apply allocate_balanced|].
    split; [done|]. cbn. intros E. apply (f_equal length) in E. rewrite length_app, length_reverse, length_seq in E. cbn in E. lia. }
  destruct (pk_free s1) as [|c f] eqn:Ef; [done|]. exists c. eexists. split; [done|].
  destruct Hb1 as (H1 & H2 & H3 & H4). rewrite Ef in *. apply NoDup_cons in H1 as [Hcf H1].
  destruct (H2 c ltac:(by left)) as [Hc Hk]. split; [done|]. split; [|done]. unfold bump.
  split; [done|]. split; [|split].
  - intros d Hd. destruct (H2 d ltac:(by right)) as [Hd1 Hd2]. split; [done|]. rewrite pk_points_ne; [lia|]. by intros ->.
  - intros d Hd Hdn. cbn in Hdn |- *. destruct (Nat.eqb_spec d c) as [->|Hdc].
    + rewrite points_self. lia.
    + rewrite pk_points_ne by done. destruct (H3 d Hd) as [H5 H6]; [by apply not_elem_of_cons|]. lia.
  - intros d Hd. rewrite pk_points_ne, H4 by (done || (intros ->; unfold pk_cells in *; cbn in *; lia)). lia.
Qed.

(** ** Runs *)

(** A move assignment between two variables that point to the same packet. *)
Definition aliased (o : pk_op) (s : PacketManager) : Prop :=
  match o with
  | Pk_move_assign v w => ∃ c, pk_vars s !! v = Some (Some (Some c)) ∧ pk_vars s !! w = Some (Some (Some c))
  | _ => False
  end.

Fixpoint clean_run (ops : list pk_op) (s : PacketManager) : Prop :=
  match ops with
  | [] => True
  | o :: ops' => ¬ aliased o s ∧ ∀ s', pk_step o s = Ok s' → clean_run ops' s'
  end.

(** The counters are the numbers of pointers, and what aliased moves have added. *)
Definition pk_inv (n : Z) (leak : nat → Z) (s : PacketManager) : Prop :=
  (∀ c, 0 <= leak c) ∧ (∀ c, pk_refs c (pk_vars s) + leak c <= n) ∧
  balanced (λ c, pk_refs c (pk_vars s) + leak c) s.

Lemma pk_read_Ok v s p : pk_read v s = Ok p → pk_vars s !! v = Some (Some p).
Proof. unfold pk_read. by destruct (pk_vars s !! v) as [[q|]|]; intros [= <-]. Qed.

Lemma points_range c x : 0 <= pk_points c x <= 1.
Proof. unfold pk_points. case_bool_decide; lia. Qed.

(** The counter of a packet that a variable points to. *)
Lemma pk_inv_used n leak s v p :
  pk_inv n leak s → pk_vars s !! v = Some (Some p) →
  ∀ c, p = Some c → 0 < pk_refs c (pk_vars s) + leak c <= n.
Proof.
  intros (Hl & Hn & _) Hv c ->. specialize (Hl c). specialize (Hn c). pose proof (pk_refs_pos c _ v Hv). lia.
Qed.

(** A step whose new counters are known. *)
Lemma pk_inv_intro n leak leak' k s :
  (∀ c, 0 <= leak' c) → (∀ c, pk_refs c (pk_vars s) + leak' c = k c) → (∀ c, k c <= n + 1) → balanced k s →
  (∀ c, leak' c = leak c) →
  ∃ leak', pk_inv (n + 1) leak' s ∧ ∀ c, leak' c = leak c.
Proof.
  intros Hl Hk Hn Hb He. exists leak'. split; [|done]. split; [done|]. split; [intros c; rewrite Hk; by apply Hn|].
  eapply balanced_ext; [|exact Hb]. done.
Qed.

Lemma refs_snoc c l x : pk_refs c (l ++ [x]) = pk_refs c l + pk_points c x.
Proof. rewrite pk_refs_app. cbn. unfold pk_points. lia. Qed.

Lemma increment_vars p s : pk_vars (increment p s) = pk_vars s.
Proof. by destruct p. Qed.

Lemma decrement_vars p s : pk_vars (decrement p s) = pk_vars s.
Proof. destruct p as [d|]; [|done]. cbn. by destruct (_ =? 0). Qed.

Section Step.
Context (n : Z) (leak : nat → Z) (s : PacketManager).
Hypothesis Hinv : pk_inv n leak s.
Hypothesis Hn : n < 2 ^ 32 - 1.

Let k (c : nat) : Z := pk_refs c (pk_vars s) + leak c.

Lemma step_bound p c : bump k p (-1) c <= n + 1 ∧ bump k p 1 c <= n + 1 ∧ k c <= n + 1.
Proof.
  destruct Hinv as (_ & Hle & _). specialize (Hle c). pose proof (points_range c (Some p)). unfold bump, k. lia.
Qed.

Lemma step_decrement v p : pk_vars s !! v = Some (Some p) → balanced (bump k p (-1)) (decrement p s).
Proof.
  intros Hv. apply decrement_balanced; [apply Hinv|]. intros c Hc. pose proof (pk_inv_used n leak s v p Hinv Hv c Hc). unfold k. lia.
Qed.

Lemma step_new_inv o s' :
  (0 < PageSize)%nat → pk_step o s = Ok s' →
  match o with Pk_null | Pk_get | Pk_copy _ | Pk_move _ => True | _ => False end →
  ∃ leak', pk_inv (n + 1) leak' s' ∧ ∀ c, leak' c = leak c.
Proof.
  intros Hpos E Ho. pose proof Hinv as (Hl & Hle & Hb). fold k in Hb.
  destruct o as [| |w|w| | |]; try done; cbn [pk_step] in E.
  - injection E as <-. apply (pk_inv_intro n leak leak k); [done| |by apply (step_bound None)|done|done].
    intros c. cbn. rewrite refs_snoc, points_none. unfold k. lia.
  - destruct (getFreePack_balanced k s Hpos Hb) as (d & s1 & Eg & Hk & Hb1 & Hv). rewrite Eg, bind_Ok in E. injection E as <-.
    apply (pk_inv_intro n leak leak (bump k (Some d) 1)); [done| |by apply step_bound|done|done].
    intros c. unfold bump. cbn. rewrite Hv, refs_snoc. unfold k. lia.
  - destruct (pk_read w s) as [p|] eqn:Ep; [|done]. apply pk_read_Ok in Ep. rewrite bind_Ok in E. injection E as <-.
    apply (pk_inv_intro n leak leak (bump k p 1)); [done| |by apply step_bound| |done].
    + intros c. unfold bump. cbn. rewrite increment_vars, refs_snoc. unfold k. lia.
    + apply increment_balanced; [done|]. intros c Hc. pose proof (pk_inv_used n leak s w p Hinv Ep c Hc). unfold k. lia.
  - destruct (pk_read w s) as [p|] eqn:Ep; [|done]. apply pk_read_Ok in Ep. rewrite bind_Ok in E. injection E as <-.
    apply (pk_inv_intro n leak leak k); [done| |by apply (step_bound None)|done|done].
    intros c. cbn. rewrite refs_snoc, (pk_refs_insert c _ w _ _ Ep), points_none. unfold k. lia.
Qed.

Lemma step_assign_inv v w s' :
  pk_step (Pk_assign v w) s = Ok s' → ∃ leak', pk_inv (n + 1) leak' s' ∧ ∀ c, leak' c = leak c.
Proof.
  intros E. pose proof Hinv as (Hl & Hle & Hb). fold k in Hb. cbn [pk_step] in E.
  destruct (pk_read v s) as [p|] eqn:Ep; [|done]. apply pk_read_Ok in Ep. rewrite bind_Ok in E.
  destruct (pk_read w s) as [q|] eqn:Eq; [|done]. apply pk_read_Ok in Eq. rewrite bind_Ok in E.
  case_bool_decide as Hpq; injection E as <-.
  { apply (pk_inv_intro n leak leak k); [done|done|by apply (step_bound None)|done|done]. }
  apply (pk_inv_intro n leak leak (bump (bump k p (-1)) q 1)); [done| | | |done].
  - intros c. unfold bump. rewrite increment_vars. cbn. rewrite decrement_vars, (pk_refs_insert c _ v _ _ Ep). unfold k. lia.
  - intros c. pose proof (step_bound q c) as (_ & H & _). pose proof (points_range c (Some p)). unfold bump in *. lia.
  - apply increment_balanced; [by apply (step_decrement v)|]. intros c ->.
    pose proof (pk_inv_used n leak s w _ Hinv Eq c eq_refl). unfold bump.
    replace (pk_points c (Some p)) with 0; [unfold k; lia|].
    destruct p as [d|]; [|done]. rewrite pk_points_ne; [done|]. by intros ->.
Qed.

Lemma step_move_assign_inv v w s' :
  pk_step (Pk_move_assign v w) s = Ok s' →
  ∃ leak', pk_inv (n + 1) leak' s' ∧ (¬ aliased (Pk_move_assign v w) s → ∀ c, leak' c = leak c).
Proof.
  intros E. pose proof Hinv as (Hl & Hle & Hb). fold k in Hb. cbn [pk_step] in E.
  destruct (pk_read v s) as [p|] eqn:Ep; [|done]. apply pk_read_Ok in Ep. rewrite bind_Ok in E.
  destruct (pk_read w s) as [q|] eqn:Eq; [|done]. apply pk_read_Ok in Eq. rewrite bind_Ok in E. injection E as <-.
  case_bool_decide as Hpq.
  - subst q. exists (λ c, leak c + pk_points c (Some p)). split.
    + split; [intros c; pose proof (points_range c (Some p)); specialize (Hl c); lia|].
      assert (∀ c, pk_refs c (pk_vars (pk_write w (Some None) s)) + (leak c + pk_points c (Some p)) = k c) as Hk.
      { intros c. cbn. rewrite (pk_refs_insert c _ w _ _ Eq), points_none. unfold k. lia. }
      split; [intros c; rewrite Hk; by apply (step_bound None)|]. eapply balanced_ext; [|exact Hb]. done.
    + intros Hna c. destruct p as [d|]; [|rewrite points_none; lia]. destruct Hna. by exists d.
  - assert (v ≠ w) as Hvw by congruence.
    destruct (pk_inv_intro n leak leak (bump k p (-1)) (pk_write w (Some None) (pk_write v (Some q) (decrement p s))))
      as (leak' & H1 & H2); [done| |by apply step_bound|by apply (step_decrement v)|done|by exists leak'].
    intros c. unfold bump. cbn. rewrite decrement_vars, (pk_refs_insert c _ w (Some q) (Some None)) by by rewrite list_lookup_insert_ne.
    rewrite (pk_refs_insert c _ v _ _ Ep), points_none. unfold k. lia.
Qed.

Lemma step_destroy_inv v s' :
  pk_step (Pk_destroy v) s = Ok s' → ∃ leak', pk_inv (n + 1) leak' s' ∧ ∀ c, leak' c = leak c.
Proof.
  intros E. pose proof Hinv as (Hl & Hle & Hb). cbn [pk_step] in E.
  destruct (pk_read v s) as [p|] eqn:Ep; [|done]. apply pk_read_Ok in Ep. rewrite bind_Ok in E. injection E as <-.
  apply (pk_inv_intro n leak leak (bump k p (-1))); [done| |by apply step_bound|by apply (step_decrement v)|done].
  intros c. unfold bump. cbn. rewrite decrement_vars, (pk_refs_insert c _ v _ _ Ep).
  replace (pk_points c None) with 0 by done. unfold k. lia.
Qed.

Lemma pk_step_inv o s' :
  (0 < PageSize)%nat → pk_step o s = Ok s' →
  ∃ leak', pk_inv (n + 1) leak' s' ∧ (¬ aliased o s → ∀ c, leak' c = leak c).
Proof.
  intros Hpos E.
  assert ((∃ leak', pk_inv (n + 1) leak' s' ∧ ∀ c, leak' c = leak c) →
    ∃ leak', pk_inv (n + 1) leak' s' ∧ (¬ aliased o s → ∀ c, leak' c = leak c)) as Hweak.
  { intros (l' & H1 & H2). exists l'. auto. }
  destruct o; try (by apply Hweak; eapply step_new_inv).
  - apply Hweak. by eapply step_assign_inv.
  - by apply step_move_assign_inv.
  - apply Hweak. by eapply step_destroy_inv.
Qed.
End Step.

Lemma pk_run_inv ops n leak s s' :
  (0 < PageSize)%nat → pk_inv n leak s → n + Z.of_nat (length ops) < 2 ^ 32 → pk_run ops s = Ok s' →
  ∃ leak', pk_inv (n + Z.of_nat (length ops)) leak' s' ∧ (clean_run ops s → ∀ c, leak' c = leak c).
Proof.
  intros Hpos. revert n leak s. induction ops as [|o ops IH]; intros n leak s Hinv Hn E.
  { injection E as <-. exists leak. cbn [length]. by rewrite Z.add_0_r. }
  cbn [length] in Hn |- *. cbn [pk_run] in E. destruct (pk_step o s) as [s1|] eqn:E1; [|done]. rewrite bind_Ok in E.
  destruct (pk_step_inv n leak s Hinv ltac:(lia) o s1 Hpos E1) as (l1 & Hinv1 & Hl1).
  destruct (IH (n + 1) l1 s1 Hinv1 ltac:(lia) E) as (l2 & Hinv2 & Hl2). exists l2. split.
  - by replace (n + Z.of_nat (S (length ops))) with (n + 1 + Z.of_nat (length ops)) by lia.
  - intros [Hna Hc] c. rewrite Hl2 by by apply Hc. by apply Hl1.
Qed.

Lemma pk_inv_new memory : pk_inv 0 (λ _, 0) (PacketManager_new memory).
Proof.
  split; [done|]. split; [done|]. apply allocate_balanced. split; [constructor|].
  split; [by intros c ?%elem_of_nil|]. split; [intros c Hc; unfold pk_cells in Hc; cbn in Hc; lia|done].
Qed.

Lemma refs_zero c l : pk_refs c l = 0 ↔ ∀ v, l !! v ≠ Some (Some (Some c)).
Proof.
  split.
  - intros Hz v Hv. pose proof (pk_refs_pos c l v Hv). lia.
  - intros Hn. induction l as [|x l IH]; [done|]. cbn. rewrite IH by (intros v; apply (Hn (S v))).
    rewrite bool_decide_eq_false_2; [done|]. intros ->. by apply (Hn 0%nat).
Qed.

(** ** Properties *)

(** C13: packets are never reused while a pointer to them exists: after any sequence
    of constructions, assignments, moves and destructions of pointers, no packet
    that a variable points to is free, [getFreePack] succeeds and gives a packet to
    which nothing points, and, unless a pointer was move-assigned to another one of
    the same packet, a packet is free exactly when nothing points to it. *)
Theorem PacketPtr_safe memory ops s :
  (0 < PageSize)%nat → Z.of_nat (length ops) < 2 ^ 32 → pk_run ops (PacketManager_new memory) = Ok s →
  NoDup (pk_free s) ∧
  (∀ v c, pk_vars s !! v = Some (Some (Some c)) → (c < pk_cells s)%nat ∧ (c ∉ pk_free s)) ∧
  (∃ c s', getFreePack s = Ok (c, s') ∧ ∀ v, pk_vars s' !! v ≠ Some (Some (Some c))) ∧
  (clean_run ops (PacketManager_new memory) →
   ∀ c, (c < pk_cells s)%nat → c ∈ pk_free s ↔ ∀ v, pk_vars s !! v ≠ Some (Some (Some c))).
Proof.
  intros Hpos Hlen E.
  destruct (pk_run_inv ops 0 (λ _, 0) _ s Hpos (pk_inv_new memory)) as (leak & (Hl & Hle & Hb) & Hclean); [lia|done|].
  split; [by destruct Hb|]. split; [|split].
  - intros v c Hv. destruct (balanced_used _ s c Hb) as (H1 & H2 & _); [|done].
    pose proof (pk_refs_pos c _ v Hv). specialize (Hl c). lia.
  - destruct (getFreePack_balanced _ s Hpos Hb) as (c & s' & Eg & Hk & _ & Hv). exists c, s'. split; [exact Eg|].
    rewrite Hv. apply refs_zero. specialize (Hl c). pose proof (pk_refs_nonneg c (pk_vars s)). lia.
  - intros Hc c Hlt. rewrite <- refs_zero. specialize (Hclean Hc c). destruct Hb as (_ & H2 & H3 & _). split.
    + intros [_ Hz]%H2. lia.
    + intros Hz. apply dec_stable. intros Hnf. destruct (H3 c Hlt Hnf). lia.
Qed.
End Packets.

(** A packet that is copied, dropped and handed out again. *)
Definition sample_ops : list pk_op := [Pk_get; Pk_copy 0; Pk_get; Pk_assign 0 2; Pk_move 1; Pk_destroy 3].

Lemma PacketPtr_safe_witness :
  ∃ s, pk_run 2 sample_ops (PacketManager_new 2 (λ _, 77)) = Ok s ∧ pk_free s = [1%nat] ∧
    (∃ c s', getFreePack 2 s = Ok (c, s') ∧ ∀ v, pk_vars s' !! v ≠ Some (Some (Some c))).
Proof.
  eexists. split; [vm_compute; reflexivity|]. split; [reflexivity|].
  apply (PacketPtr_safe 2 (λ _, 77) sample_ops); [lia|by vm_compute|by vm_compute].
Defined.

(** Move-assigning a pointer to another one of the same packet loses a reference:
    all variables are gone, and the packet is not free. *)
Lemma move_assign_leaks :
  ∃ s, pk_run 1 [Pk_get; Pk_copy 0; Pk_move_assign 0 1; Pk_destroy 0; Pk_destroy 1] (PacketManager_new 1 (λ _, 0)) = Ok s ∧
    pk_vars s = [None; None] ∧ pk_free s = [].
Proof. eexists. split; [vm_compute; reflexivity|]. by split. Qed.
