(* ===== verification/Tasks.v ===== *)
(** * Tasks: messages that are sent again and again

    [Task] and [TaskManager] of [net/include/net/Structures.hpp].  Time points are
    numbers of nanoseconds of the steady clock and timeouts numbers of milliseconds,
    both of 64 bits with a sign; their overflow, which C++ leaves undefined, wraps
    here, and the theorem shows that it does not occur while the clock is below
    2^57, for four years and a half.  [Clock::now()] is read several times by one [run]: a clock is the sequence of what it returns.  A
    [TaskId] is an iterator of the list of tasks, which stays valid while the task
    is in the list: it is a number that the manager gives to every task.  The
    packets of a task are pointers: numbers of cells of the session's memory. *)

From S2P Require Import Prelude Net.

(** [BROADCAST_INIT_TIMEOUT], [DIRECT_INIT_TIMEOUT], [MAX_TIMEOUT] *)
Definition BROADCAST_INIT_TIMEOUT : Z := 2.
Definition DIRECT_INIT_TIMEOUT : Z := 2.
Definition MAX_TIMEOUT : Z := 1024.

(** A duration in milliseconds added to a time point. *)
Definition nanoseconds (ms : Z) : Z := i64 (1000000 * ms).

(** [Task] *)
Record Task := mkTask {
  tk_id : nat;
  tk_nextLaunch : Z;
  tk_timeout : Z;
  tk_packets : list nat;
  tk_lastSize : Z;
  tk_receivers : list endpoint;
  tk_broadcast : bool;
}.

(** The two constructors; the manager gives the number. *)
Definition Task_direct (now : Z) (packs : list nat) (size : Z) (ep : endpoint) : Task :=
  mkTask 0 now DIRECT_INIT_TIMEOUT packs (u64 (headerLength + size)) [ep] false.

Definition Task_broadcast (now : Z) (packs : list nat) (size : Z) (recvs : list endpoint) : Task :=
  mkTask 0 now BROADCAST_INIT_TIMEOUT packs (u64 (headerLength + size)) recvs true.

(** [TaskManager]; [tm_ids] is the number of the next task. *)
Record TaskManager := mkTaskManager { tm_nextTime : Z; tm_tasks : list Task; tm_ids : nat }.

Definition TaskManager_new (now : Z) : TaskManager := mkTaskManager now [] 0.

Definition with_id (id : nat) (t : Task) : Task :=
  mkTask id (tk_nextLaunch t) (tk_timeout t) (tk_packets t) (tk_lastSize t) (tk_receivers t) (tk_broadcast t).

(** [add] *)
Definition TaskManager_add (t : Task) (m : TaskManager) : nat * TaskManager :=
  let nextTime := if bool_decide (tm_tasks m = []) || (tk_nextLaunch t <? tm_nextTime m)
                  then tk_nextLaunch t else tm_nextTime m in
  (tm_ids m, mkTaskManager nextTime (with_id (tm_ids m) t :: tm_tasks m) (S (tm_ids m))).

(** [remove]: erasing an iterator that is not in the list is undefined. *)
Definition TaskManager_remove (id : nat) (m : TaskManager) : result TaskManager :=
  if existsb (λ t, tk_id t =? id)%nat (tm_tasks m)
  then Ok (mkTaskManager (tm_nextTime m) (filter (λ t, tk_id t ≠ id) (tm_tasks m)) (tm_ids m))
  else Throw undefined_behaviour.

(** [clear] *)
Definition TaskManager_clear (m : TaskManager) : TaskManager := mkTaskManager (tm_nextTime m) [] (tm_ids m).

(** What [run] does to a task it has launched. *)
Definition relaunch (t : Task) : Task :=
  mkTask (tk_id t) (i64 (tk_nextLaunch t + nanoseconds (tk_timeout t)))
    (if tk_timeout t =? MAX_TIMEOUT
     then if tk_broadcast t then BROADCAST_INIT_TIMEOUT else DIRECT_INIT_TIMEOUT
     else i64 (tk_timeout t * 4))
    (tk_packets t) (tk_lastSize t) (tk_receivers t) (tk_broadcast t).

Section Run.
Context {A : Type} (f : Task → list A).

(** The loop of [run] over the tasks; [wroteNewNT] is the local variable of the
    source, which no statement of the loop changes. *)
Fixpoint run_loop (wroteNewNT : bool) (now : nat → Z) (i : nat) (tasks : list Task) (nextTime : Z)
    : list A * list Task * Z :=
  match tasks with
  | [] => ([], [], nextTime)
  | t :: tasks' =>
      let '(out, t) := if tk_nextLaunch t <=? now i then (f t, relaunch t) else ([], t) in
      let nextTime := if negb wroteNewNT || (tk_nextLaunch t <? nextTime) then tk_nextLaunch t else nextTime in
      let '(outs, tasks', nextTime) := run_loop wroteNewNT now (S i) tasks' nextTime in
      (out ++ outs, t :: tasks', nextTime)
  end.

(** [run], with everything that [f] does in order. *)
Definition TaskManager_run (now : nat → Z) (m : TaskManager) : list A * TaskManager :=
  if now 0%nat <? tm_nextTime m then ([], m)
  else
    let '(outs, tasks, nextTime) := run_loop false now 1 (tm_tasks m) (tm_nextTime m) in
    (outs, mkTaskManager nextTime tasks (tm_ids m)).

End Run.

(** ** Lemmas *)

(** A task that is due at the [i]-th reading of the clock. *)
Definition due (now : nat → Z) (i : nat) (t : Task) : bool := tk_nextLaunch t <=? now i.

Definition launch (now : nat → Z) (i : nat) (t : Task) : Task := if due now i t then relaunch t else t.

Lemma run_loop_spec {A} (f : Task → list A) now i tasks nextTime :
  run_loop f false now i tasks nextTime
  = (concat (imap (λ j t, if due now (i + j) t then f t else []) tasks),
     imap (λ j t, launch now (i + j) t) tasks,
     default nextTime (tk_nextLaunch <$> last (imap (λ j t, launch now (i + j) t) tasks))).
Proof.
  revert i nextTime. induction tasks as [|t tasks IH]; intros i nextTime; [done|].
  cbn [run_loop negb orb]. unfold launch, due in *.
  rewrite !imap_cons, Nat.add_0_r, concat_cons, last_cons.
  set (c := tk_nextLaunch t <=? now i). set (t' := if c then relaunch t else t).
  replace (if c then (f t, relaunch t) else ([], t)) with (if c then f t else [], t') by (unfold t'; by destruct c).
  rewrite IH. unfold compose.
  rewrite !(imap_ext (λ j x, if tk_nextLaunch x <=? now (S i + j)%nat then _ else _) 
    (λ j x, if tk_nextLaunch x <=? now (i + S j)%nat then _ else _) tasks) by (intros; by rewrite Nat.add_succ_r).
  f_equal. by destruct (last _).
Qed.

(** [run] when the gate lets it pass. *)
Lemma TaskManager_run_passes {A} (f : Task → list A) now m :
  tm_nextTime m <= now 0%nat →
  TaskManager_run f now m
  = (concat (imap (λ j t, if due now (S j) t then f t else []) (tm_tasks m)),
     mkTaskManager (default (tm_nextTime m) (tk_nextLaunch <$> last (imap (λ j t, launch now (S j) t) (tm_tasks m))))
       (imap (λ j t, launch now (S j) t) (tm_tasks m)) (tm_ids m)).
Proof.
  intros Hg. unfold TaskManager_run. destruct (Z.ltb_spec (now 0%nat) (tm_nextTime m)); [lia|].
  by rewrite run_loop_spec.
Qed.

Lemma TaskManager_run_waits {A} (f : Task → list A) now m :
  now 0%nat < tm_nextTime m → TaskManager_run f now m = ([], m).
Proof. intros Hg. unfold TaskManager_run. destruct (Z.ltb_spec (now 0%nat) (tm_nextTime m)); [done|lia]. Qed.

Lemma relaunch_id t : tk_id (relaunch t) = tk_id t.
Proof. done. Qed.

Lemma launch_id now i t : tk_id (launch now i t) = tk_id t.
Proof. unfold launch. by destruct (due now i t). Qed.

(** The schedule of a task that was made at the time [a] and launched [k] times:
    its timeout is [2 * 4 ^ k], and its next launch is that time and the timeouts so
    far. *)
Definition scheduled (a : Z) (k : nat) (t : Task) : Prop :=
  0 <= a ∧ tk_timeout t = 2 * 4 ^ Z.of_nat k ∧ 3 * (tk_nextLaunch t - a) = 2000000 * (4 ^ Z.of_nat k - 1).

(** The timeouts are never [MAX_TIMEOUT], so that they grow without bound. *)
Lemma timeout_never_max k : 2 * 4 ^ Z.of_nat k ≠ MAX_TIMEOUT.
Proof.
  unfold MAX_TIMEOUT. intros He. assert (4 ^ Z.of_nat k = 2 ^ 9) as H9 by lia.
  change 4 with (2 ^ 2) in H9. rewrite <- Z.pow_mul_r in H9 by lia. apply Z.pow_inj_r in H9; lia.
Qed.

(** A launch before 2^57 overflows nothing and multiplies the timeout by 4: it is
    never set back. *)
Lemma relaunch_never_resets a k t :
  scheduled a k t → tk_nextLaunch t < 2 ^ 57 →
  scheduled a (S k) (relaunch t) ∧ tk_nextLaunch t <= tk_nextLaunch (relaunch t) <= 4 * tk_nextLaunch t + 2000000.
Proof.
  intros (Ha & Ht & Hn) Hlt. pose proof (Z.pow_pos_nonneg 4 (Z.of_nat k) ltac:(lia) ltac:(lia)) as Hpos.
  unfold scheduled, relaunch, nanoseconds. cbn [tk_timeout tk_nextLaunch]. rewrite Ht, (proj2 (Z.eqb_neq _ _) (timeout_never_max k)).
  rewrite (i64_id (1000000 * _)), (i64_id (tk_nextLaunch t + _)), i64_id by (unfold_widths; lia).
  rewrite Nat2Z.inj_succ, Z.pow_succ_r by lia.
  split; [split; [done|]; split; lia|lia].
Qed.

(** The time of the next run is that of the last task of the list, not the
    earliest one: a task in front of it that is due does not get its turn. *)
Lemma run_misses_due_task :
  ∃ m now, tm_nextTime m > now 0%nat ∧ (∃ t, t ∈ tm_tasks m ∧ tk_nextLaunch t <= now 0%nat) ∧
    m = (TaskManager_run (λ t, [tk_id t]) (λ _, 2000000)
           (TaskManager_add (Task_direct 1000000 [] 0 (0, 0))
              (TaskManager_run (λ t, [tk_id t]) (λ _, 0) (TaskManager_add (Task_direct 0 [] 0 (0, 0)) (TaskManager_new 0)).2).2).2).2.
Proof.
  eexists _, (λ _, 3000000). split; [|split; [|reflexivity]]; [by vm_compute|].
  eexists. split; [by left|]. by vm_compute.
Qed.

(** ** Histories of a manager *)

(** What the session does with its manager. *)
Inductive tm_op := Op_add (t : Task) | Op_remove (id : nat) | Op_run (now : nat → Z).

(** The numbers of the tasks that an operation launches, and the manager after it. *)
Definition tm_step (o : tm_op) (m : TaskManager) : result (list nat * TaskManager) :=
  match o with
  | Op_add t => Ok ([], (TaskManager_add t m).2)
  | Op_remove id => m ← TaskManager_remove id m; Ok ([], m)
  | Op_run now => Ok (TaskManager_run (λ t, [tk_id t]) now m)
  end.

Definition task_of (id : nat) (m : TaskManager) (t : Task) : Prop := t ∈ tm_tasks m ∧ tk_id t = id.

(** A step that does not launch a task and does not remove it leaves it as it is. *)
Lemma tm_step_keeps o m out m1 id t :
  tm_step o m = Ok (out, m1) → o ≠ Op_remove id → task_of id m t → id ∈ out ∨ task_of id m1 t.
Proof.
  intros E Hne [Hin Hid]. destruct o as [t'|id'|now]; cbn [tm_step] in E.
  - injection E as <- <-. right. split; [by right|done].
  - unfold TaskManager_remove in E. destruct (existsb _ _); [|done]. rewrite bind_Ok in E. injection E as <- <-.
    right. split; [|done]. apply list_elem_of_filter. split; [|done]. congruence.
  - destruct (Z_lt_le_dec (now 0%nat) (tm_nextTime m)) as [Hg|Hg].
    { rewrite TaskManager_run_waits in E by done. injection E as <- <-. by right. }
    rewrite TaskManager_run_passes in E by done. injection E as <- <-.
    apply list_elem_of_lookup in Hin as [j Hj]. destruct (due now (S j) t) eqn:Hd.
    + left. apply list_elem_of_In, in_concat. exists [id]. split; [|by left]. apply list_elem_of_In, list_elem_of_lookup.
      exists j. by rewrite list_lookup_imap, Hj; cbn; rewrite Hd, Hid.
    + right. split; [|done]. cbn [tm_tasks]. apply list_elem_of_lookup. exists j.
      rewrite list_lookup_imap, Hj. cbn. unfold launch. by rewrite Hd.
Qed.

(** A run whose clock has reached the launch time of a task launches it, or does
    not pass the gate and changes nothing; other steps do not raise the gate. *)
Lemma tm_step_gate o m out m1 id t :
  tm_step o m = Ok (out, m1) → task_of id m t →
  (∀ now, o = Op_run now → ∀ j, tk_nextLaunch t <= now j) →
  id ∈ out ∨ tm_nextTime m1 <= tm_nextTime m ∧ (∀ now, o = Op_run now → now 0%nat < tm_nextTime m).
Proof.
  intros E [Hin Hid] Hc. destruct o as [t'|id'|now]; cbn [tm_step] in E.
  - injection E as <- <-. right. split; [|done]. cbn. case_bool_decide as He; [by rewrite He in Hin; apply elem_of_nil in Hin|].
    cbn [orb]. destruct (Z.ltb_spec (tk_nextLaunch t') (tm_nextTime m)); lia.
  - unfold TaskManager_remove in E. destruct (existsb _ _); [|done]. rewrite bind_Ok in E. injection E as <- <-.
    right. by split.
  - destruct (Z_lt_le_dec (now 0%nat) (tm_nextTime m)) as [Hg|Hg].
    { rewrite TaskManager_run_waits in E by done. injection E as <- <-. right. split; [lia|]. by intros ? [= <-]. }
    rewrite TaskManager_run_passes in E by done. injection E as <- <-. left.
    apply list_elem_of_lookup in Hin as [j Hj]. apply list_elem_of_In, in_concat. exists [id]. split; [|by left].
    apply list_elem_of_In, list_elem_of_lookup. exists j. rewrite list_lookup_imap, Hj. cbn. unfold due.
    destruct (Z.leb_spec (tk_nextLaunch t) (now (S j))) as [_|Hx]; [by rewrite Hid|]. specialize (Hc now eq_refl (S j)). lia.
Qed.

(** ** Executions *)

(** What an operation may read from the clock when it runs between two times: the
    constructors of the tasks read it once, a run as often as it needs. *)
Definition op_within (lo hi : Z) (o : tm_op) : Prop :=
  match o with
  | Op_add t => lo <= tk_nextLaunch t <= hi ∧ tk_timeout t = 2
  | Op_remove _ => True
  | Op_run now => ∀ i j, (i <= j)%nat → lo <= now i <= now j ∧ now j <= hi
  end.

(** Operations, each with the time at which it has ended. *)
Fixpoint timed (lo : Z) (h : list (tm_op * Z)) : Prop :=
  match h with
  | [] => True
  | (o, hi) :: h => lo <= hi ∧ op_within lo hi o ∧ timed hi h
  end.

Fixpoint end_time (lo : Z) (h : list (tm_op * Z)) : Z :=
  match h with [] => lo | (_, hi) :: h => end_time hi h end.

Fixpoint tm_steps (h : list (tm_op * Z)) (m : TaskManager) : result (list (list nat) * TaskManager) :=
  match h with
  | [] => Ok ([], m)
  | (o, _) :: h => '(out, m) ← tm_step o m; '(outs, m) ← tm_steps h m; Ok (out :: outs, m)
  end.

(** The manager at the time [c]: its tasks are on their schedules, and neither they
    nor the gate are far ahead. *)
Definition tm_inv (c : Z) (m : TaskManager) : Prop :=
  0 <= c ∧ tm_nextTime m <= 4 * c + 2000000 ∧
  Forall (λ t, (∃ a k, scheduled a k t) ∧ tk_nextLaunch t <= 4 * c + 2000000) (tm_tasks m).

(** The gate after a run that passes is that of the last task. *)
Lemma run_next_time now m :
  tm_nextTime m <= now 0%nat →
  let m1 := (TaskManager_run (λ t, [tk_id t]) now m).2 in
  tm_nextTime m1 = tm_nextTime m ∨ ∃ t j, t ∈ tm_tasks m ∧ tm_nextTime m1 = tk_nextLaunch (launch now (S j) t).
Proof.
  intros Hg. rewrite TaskManager_run_passes by done. cbn. destruct (last (tm_tasks m)) as [t|] eqn:E.
  - right. exists t, (pred (length (tm_tasks m))). split; [by apply last_Some_elem_of|]. rewrite last_lookup in *.
    by rewrite length_imap, list_lookup_imap, E.
  - left. apply last_None in E. by rewrite E.
Qed.

Lemma tm_step_inv lo hi o m out m1 :
  tm_step o m = Ok (out, m1) → op_within lo hi o → lo <= hi → hi < 2 ^ 57 → tm_inv lo m → tm_inv hi m1.
Proof.
  intros E Hw Hlh Hhi (H0 & Hg & Hts). assert (Forall (λ t, (∃ a k, scheduled a k t) ∧ tk_nextLaunch t <= 4 * hi + 2000000) (tm_tasks m)) as Hts'
    by (eapply Forall_impl; [exact Hts|]; intros t [? ?]; split; [done|lia]).
  destruct o as [t|id|now]; cbn [tm_step op_within] in *.
  - injection E as _ <-. destruct Hw as [Hn Ht]. split; [lia|]. cbn [TaskManager_add snd tm_nextTime tm_tasks]. split.
    + case_bool_decide; cbn [orb]; [lia|]. destruct (Z.ltb_spec (tk_nextLaunch t) (tm_nextTime m)); lia.
    + constructor; [|done]. cbn. split; [|lia]. exists (tk_nextLaunch t), 0%nat. repeat split; cbn; lia.
  - unfold TaskManager_remove in E. destruct (existsb _ _); [|done]. rewrite bind_Ok in E. injection E as _ <-.
    split; [lia|]. cbn. split; [lia|]. apply Forall_forall. intros t [_ Ht]%list_elem_of_filter. rewrite Forall_forall in Hts'. by apply Hts'.
  - injection E as E. destruct (Z_lt_le_dec (now 0%nat) (tm_nextTime m)) as [Hn|Hn].
    { rewrite TaskManager_run_waits in E by done. injection E as _ <-. split; [lia|]. split; [lia|done]. }
    assert (∀ t j, t ∈ tm_tasks m → (∃ a k, scheduled a k (launch now j t)) ∧ tk_nextLaunch (launch now j t) <= 4 * hi + 2000000) as Hl.
    { intros t j Ht. rewrite Forall_forall in Hts'. destruct (Hts' t Ht) as [(a & k & Hs) Hle]. unfold launch, due.
      destruct (Z.leb_spec (tk_nextLaunch t) (now j)) as [Hd|_]; [|split; [by exists a, k|done]].
      destruct (Hw j j ltac:(lia)) as [_ Hj]. destruct (relaunch_never_resets a k t Hs ltac:(lia)) as [Hs' Hr].
      split; [by exists a, (S k)|lia]. }
    pose proof (run_next_time now m Hn) as Hnext. rewrite E in Hnext. cbn [snd] in Hnext. split; [lia|]. split.
    + destruct Hnext as [-> |(t & j & Ht & ->)]; [lia|]. by apply Hl.
    + rewrite TaskManager_run_passes in E by done. injection E as _ <-. cbn. apply Forall_forall. intros t Ht.
      apply elem_of_lookup_imap_1 in Ht as (j & u & -> & Hu). apply Hl. by eapply list_elem_of_lookup_2.
Qed.

Lemma timed_end lo h : timed lo h → lo <= end_time lo h.
Proof.
  revert lo. induction h as [|[o hi] h IH]; intros lo; cbn; [lia|]. intros (H1 & _ & H2). specialize (IH hi H2). lia.
Qed.

Lemma tm_steps_inv lo h m outs m1 :
  tm_steps h m = Ok (outs, m1) → timed lo h → end_time lo h < 2 ^ 57 → tm_inv lo m → tm_inv (end_time lo h) m1.
Proof.
  revert lo m outs. induction h as [|[o hi] h IH]; intros lo m outs E Ht Hend Hi; [by injection E as _ <-|].
  cbn [tm_steps timed end_time] in *. destruct Ht as (Hle & Hw & Ht).
  apply bind_Ok_inv in E as ([out m2] & E1 & E). apply bind_Ok_inv in E as ([outs' m3] & E2 & E). injection E as _ <-.
  assert (hi <= end_time hi h) by (by apply timed_end).
  eapply IH; [exact E2|done|done|]. eapply tm_step_inv; try done. lia.
Qed.

(** The wait for a task that is due at [L] at the latest: the time is before [L], or
    the gate is not above what one launch of the last task can make it. *)
Definition waits (id : nat) (t : Task) (L c : Z) (m : TaskManager) : Prop :=
  task_of id m t ∧ (c <= L ∧ tm_inv c m ∨ L <= c ∧ tm_nextTime m <= 16 * L + 10000000).

Lemma waits_gate id t L c m : waits id t L c m → 0 <= L → tm_nextTime m <= 16 * L + 10000000.
Proof. intros (_ & [(Hc & _ & Hg & _)|[_ Hg]]) HL; lia. Qed.

Lemma waits_step id t L lo hi o m out m1 :
  tm_step o m = Ok (out, m1) → o ≠ Op_remove id → op_within lo hi o → lo <= hi → hi < 2 ^ 57 →
  0 <= L < 2 ^ 57 → tk_nextLaunch t <= L → waits id t L lo m → id ∈ out ∨ waits id t L hi m1.
Proof.
  intros E Hne Hw Hlh Hhi HL Ht (Htk & Hor). destruct (tm_step_keeps o m out m1 id t E Hne Htk) as [?|Htk']; [by left|].
  destruct Hor as [[Hlo Hinv]|[Hlo Hg]].
  - destruct (Z_le_gt_dec hi L) as [Hle|Hgt].
    { right. split; [done|]. left. split; [done|]. by eapply tm_step_inv. }
    right. split; [done|]. right. split; [lia|]. destruct Hinv as (H0 & Hgate & Hts).
    destruct o as [t'|id'|now]; cbn [tm_step op_within] in *.
    + injection E as _ <-. cbn. case_bool_decide as He; [|cbn [orb]; destruct (Z.ltb_spec (tk_nextLaunch t') (tm_nextTime m)); lia].
      destruct Htk as [Hin _]. rewrite He in Hin. by apply elem_of_nil in Hin.
    + unfold TaskManager_remove in E. destruct (existsb _ _); [|done]. rewrite bind_Ok in E. injection E as _ <-. cbn. lia.
    + injection E as E. destruct (Z_lt_le_dec (now 0%nat) (tm_nextTime m)) as [Hn|Hn].
      { rewrite TaskManager_run_waits in E by done. injection E as _ <-. lia. }
      pose proof (run_next_time now m Hn) as Hnext. rewrite E in Hnext. cbn [snd] in Hnext.
      destruct Hnext as [-> |(u & j & Hu & ->)]; [lia|]. rewrite Forall_forall in Hts. destruct (Hts u Hu) as [(a & k & Hs) Hub].
      unfold launch, due. destruct (Z.leb_spec (tk_nextLaunch u) (now (S j))) as [Hd|_]; [|lia].
      destruct (Hw (S j) (S j) ltac:(lia)) as [_ Hj]. destruct (relaunch_never_resets a k u Hs ltac:(lia)) as [_ Hr]. lia.
  - destruct (tm_step_gate o m out m1 id t E Htk) as [?|[Hle _]]; [|by left|right].
    + intros now -> j. cbn in Hw. destruct (Hw j j ltac:(lia)) as [Hj _]. lia.
    + split; [done|]. right. split; lia.
Qed.

Lemma waits_steps id t L lo h m outs m1 :
  tm_steps h m = Ok (outs, m1) → Forall (λ x, x.1 ≠ Op_remove id) h → timed lo h → end_time lo h < 2 ^ 57 →
  0 <= L < 2 ^ 57 → tk_nextLaunch t <= L → waits id t L lo m →
  (∃ out, out ∈ outs ∧ id ∈ out) ∨ waits id t L (end_time lo h) m1.
Proof.
  intros E Hne. revert lo m outs E. induction Hne as [|[o hi] h Ho _ IH]; intros lo m outs E Ht Hend HL Htk Hw.
  { injection E as _ <-. by right. }
  cbn [tm_steps timed end_time fst] in *. destruct Ht as (Hle & Hop & Ht).
  apply bind_Ok_inv in E as ([out m2] & E1 & E). apply bind_Ok_inv in E as ([outs' m3] & E2 & E). injection E as <- <-.
  pose proof (timed_end hi h Ht). destruct (waits_step id t L lo hi o m out m2 E1 Ho Hop Hle ltac:(lia) HL Htk Hw) as [Hi|Hw'].
  { left. exists out. split; [by left|done]. }
  destruct (IH hi m2 outs' E2 Ht Hend HL Htk Hw') as [(out' & Hin & Hi)|?]; [left; exists out'; split; [by right|done]|by right].
Qed.

(** The run that must launch the task. *)
Lemma waits_run id t L lo hi now m :
  op_within lo hi (Op_run now) → 0 <= L → tk_nextLaunch t <= L → waits id t L lo m → 16 * L + 10000000 <= now 0%nat →
  id ∈ (TaskManager_run (λ t, [tk_id t]) now m).1.
Proof.
  intros Hop HL Ht Hw Hnow. pose proof (waits_gate _ _ _ _ _ Hw HL) as Hg.
  destruct (TaskManager_run (λ t, [tk_id t]) now m) as [out m1] eqn:E.
  destruct (tm_step_gate (Op_run now) m out m1 id t) as [?|[_ Hx]]; [by cbn; rewrite E|apply Hw| |done|].
  - intros now' [= <-] j. destruct (Hop 0%nat j ltac:(lia)) as [Hj _]. lia.
  - specialize (Hx now eq_refl). lia.
Qed.

Lemma timed_app lo h1 h2 : timed lo (h1 ++ h2) ↔ timed lo h1 ∧ timed (end_time lo h1) h2.
Proof. revert lo. induction h1 as [|[o hi] h1 IH]; intros lo; cbn [app timed end_time]; [tauto|]. rewrite IH. tauto. Qed.

Lemma end_time_app lo h1 h2 : end_time lo (h1 ++ h2) = end_time (end_time lo h1) h2.
Proof. revert lo. induction h1 as [|[o hi] h1 IH]; intros lo; [done|]. apply IH. Qed.

(** ** Properties *)

(** C19: a task is sent again and again.  Take any use of a manager from its start,
    with a clock that does not go back and stays below 2^57 nanoseconds.  Every
    task is on its schedule, which no overflow disturbs: the [k]-th wait is
    [2 * 4 ^ k] milliseconds.  A task that is in the manager at the time [c], and is
    not removed, is launched again, at the latest in the first run that starts at
    [64 * c + 50000000] nanoseconds or later, whatever other tasks are added, removed
    or sent. *)
Theorem TaskManager_resends c0 h1 outs1 m1 h2 outs2 m2 now hi id t :
  let h := h1 ++ h2 ++ [(Op_run now, hi)] in
  let c := end_time c0 h1 in
  0 <= c0 → timed c0 h → end_time c0 h < 2 ^ 57 →
  tm_steps h1 (TaskManager_new c0) = Ok (outs1, m1) → tm_steps h2 m1 = Ok (outs2, m2) →
  task_of id m1 t → Forall (λ x, x.1 ≠ Op_remove id) h2 → 64 * c + 50000000 <= now 0%nat →
  (∃ a k, scheduled a k t) ∧
  ((∃ out, out ∈ outs2 ∧ id ∈ out) ∨ id ∈ (TaskManager_run (λ t, [tk_id t]) now m2).1).
Proof.
  intros h c H0 Ht Hend E1 E2 Htk Hne Hnow. apply timed_app in Ht as [Ht1 Ht2]. apply timed_app in Ht2 as [Ht2 Ht3].
  unfold h in Hend. rewrite !end_time_app in Hend. cbn [timed end_time] in Ht3, Hend. destruct Ht3 as (Hle & Hop & _).
  pose proof (timed_end _ _ Ht1) as Hc1. pose proof (timed_end _ _ Ht2) as Hc2. fold c in Ht2, Hend, Hle, Hop, Hc1, Hc2.
  assert (tm_inv c m1) as Hinv.
  { apply (tm_steps_inv c0 h1 (TaskManager_new c0) outs1 m1 E1 Ht1); [fold c; lia|]. split; [done|]. split; [cbn; lia|constructor]. }
  pose proof Hinv as (_ & _ & Hts). rewrite Forall_forall in Hts. destruct (Hts t (proj1 Htk)) as [Hs Hn]. split; [done|].
  assert (now 0%nat <= hi) by (apply (Hop 0%nat 0%nat); lia).
  destruct (waits_steps id t (4 * c + 2000000) c h2 m1 outs2 m2 E2 Hne Ht2) as [?|Hw]; [lia|lia|done| |by left|].
  - split; [done|]. left. split; [lia|done].
  - right. eapply waits_run; [exact Hop| |exact Hn|exact Hw|]; lia.
Qed.

(** A direct task that is added at the start, and launched once. *)
Lemma TaskManager_resends_witness :
  let m := TaskManager_run (λ t, [tk_id t]) (λ _, 1000000) (TaskManager_add (Task_direct 0 [] 0 (0, 0)) (TaskManager_new 0)).2 in
  0%nat ∈ (TaskManager_run (λ t, [tk_id t]) (λ _, 200000000) m.2).1.
Proof.
  intros m. destruct (TaskManager_resends 0 [(Op_add (Task_direct 0 [] 0 (0, 0)), 0); (Op_run (λ _, 1000000), 1000000)]
    [[]; [0%nat]] m.2 [] [] m.2 (λ _, 200000000) 200000000 0 (mkTask 0 2000000 8 [] 123 [(0, 0)] false)) as [_ [(out & Hout & _)|H]].
  - lia.
  - cbn. repeat split; lia.
  - vm_compute. reflexivity.
  - vm_compute. reflexivity.
  - reflexivity.
  - split; [vm_compute; left|reflexivity].
  - constructor.
  - cbn. lia.
  - by apply elem_of_nil in Hout.
  - exact H.
Defined.
