(* ===== verification/Session.v ===== *)
(** * Session: the transport

    [net/src/SessionIO.cpp]: what happens to a datagram that was received, and
    how messages are cut into packets and sent.  The sockets, the timers and the
    resolver of boost are not modelled: a datagram arrives as a packet with the
    number of bytes received, and what is sent is an output.  The calls of the node
    are outputs too; [Node] has their handlers.  The hash function is
    [Blake2.blake2s_digest].

    Packets that are to be sent are shared by pointer: [se_memory] is the memory
    of the packet manager, [se_fresh] the number of its next cell.  What a cell
    holds before it is written is whatever [se_memory] says.  Cells are not
    reused here; [Packets] shows that the manager does not hand out a packet to
    which a pointer exists.  A packet that was received is owned by its handler
    and by the collector, which do not change it after it was handed over: it is a
    value. *)

From S2P Require Import Prelude Blake2 Packstream Net Tasks.

(** [CommandList] and [SubCommandList], as far as the sources use them *)
Definition Cmd_Registration : Z := 1.
Definition Cmd_Redirect : Z := 3.
Definition Cmd_GetHash : Z := 4.
Definition Cmd_GetTransaction : Z := 7.
Definition Cmd_GetVector : Z := 11.
Definition Cmd_GetMatrix : Z := 13.
Definition Cmd_SinhroPacket : Z := 17.
Definition Cmd_GetBlockCandidate : Z := 29.
Definition Cmd_GetFirstTransaction : Z := 30.
Definition Sub_RegistrationLevelNode : Z := 1.
Definition Sub_GetBlock : Z := 3.
Definition Sub_Empty : Z := 5.
Definition Sub_SGetIpTable : Z := 12.

Definition MAX_PART : Z := 2048.
Definition MAX_REDIRECT : Z := 1.

(** ** State *)

(** The calls of the node, with the memory the data is in and its size. *)
Inductive node_call :=
| Call_getRoundTable (data : byte_array) (size : Z)
| Call_getInitRing (data : byte_array) (size : Z)
| Call_getBlock (data : byte_array) (size : Z) (sender : Z)
| Call_getTransactionsList (data : byte_array) (size : Z)
| Call_getTransaction (data : byte_array) (size : Z)
| Call_getFirstTransaction (data : byte_array) (size : Z)
| Call_getVector (data : byte_array) (size : Z) (sender : Z)
| Call_getMatrix (data : byte_array) (size : Z) (sender : Z)
| Call_getHash (data : byte_array) (size : Z) (sender : Z).

(** A datagram that is sent: the packet, its size on the wire, the receiver. *)
Record datagram := mkDatagram { dg_packet : Packet; dg_size : Z; dg_to : Z * Z }.

(** [SessionIO].  [se_hasher] is [MessageHasher::internal_]; [se_registering] says
    which of its two handlers receives the next datagram. *)
Record SessionIO := mkSessionIO {
  se_MyHash : byte_array;
  se_MyPublicKey : byte_array;
  se_MyIp : Z;
  se_signalServerAddr : Z;
  se_nodesRing : NodesRing;
  se_backData : CircularMap byte_array;
  se_packets : PacketCollector;
  se_combinedData : byte_array;
  se_hasher : byte_array;
  se_taskman : TaskManager;
  se_memory : nat → Packet;
  se_fresh : nat;
  se_AwaitingRegistration : bool;
  se_registering : bool;
}.

Definition nodePort : Z := 9001.
Definition signalServerPort : Z := 6000.
Definition ring_capacity : nat := Z.to_nat 500.
Definition back_capacity : nat := Z.to_nat 50000.
Definition collector_capacity : nat := Z.to_nat 1000.

Definition assign_ring (x_nodesRing : NodesRing) (s : SessionIO) : SessionIO :=
  mkSessionIO (se_MyHash s) (se_MyPublicKey s) (se_MyIp s) (se_signalServerAddr s) x_nodesRing
    (se_backData s) (se_packets s) (se_combinedData s) (se_hasher s) (se_taskman s)
    (se_memory s) (se_fresh s) (se_AwaitingRegistration s) (se_registering s).
Definition assign_back (x_backData : CircularMap byte_array) (s : SessionIO) : SessionIO :=
  mkSessionIO (se_MyHash s) (se_MyPublicKey s) (se_MyIp s) (se_signalServerAddr s) (se_nodesRing s)
    x_backData (se_packets s) (se_combinedData s) (se_hasher s) (se_taskman s)
    (se_memory s) (se_fresh s) (se_AwaitingRegistration s) (se_registering s).
Definition assign_packets (x_packets : PacketCollector) (s : SessionIO) : SessionIO :=
  mkSessionIO (se_MyHash s) (se_MyPublicKey s) (se_MyIp s) (se_signalServerAddr s) (se_nodesRing s)
    (se_backData s) x_packets (se_combinedData s) (se_hasher s) (se_taskman s)
    (se_memory s) (se_fresh s) (se_AwaitingRegistration s) (se_registering s).
Definition assign_combined (x_combinedData : byte_array) (s : SessionIO) : SessionIO :=
  mkSessionIO (se_MyHash s) (se_MyPublicKey s) (se_MyIp s) (se_signalServerAddr s) (se_nodesRing s)
    (se_backData s) (se_packets s) x_combinedData (se_hasher s) (se_taskman s)
    (se_memory s) (se_fresh s) (se_AwaitingRegistration s) (se_registering s).
Definition assign_hasher (x_hasher : byte_array) (s : SessionIO) : SessionIO :=
  mkSessionIO (se_MyHash s) (se_MyPublicKey s) (se_MyIp s) (se_signalServerAddr s) (se_nodesRing s)
    (se_backData s) (se_packets s) (se_combinedData s) x_hasher (se_taskman s)
    (se_memory s) (se_fresh s) (se_AwaitingRegistration s) (se_registering s).
Definition assign_taskman (x_taskman : TaskManager) (s : SessionIO) : SessionIO :=
  mkSessionIO (se_MyHash s) (se_MyPublicKey s) (se_MyIp s) (se_signalServerAddr s) (se_nodesRing s)
    (se_backData s) (se_packets s) (se_combinedData s) (se_hasher s) x_taskman
    (se_memory s) (se_fresh s) (se_AwaitingRegistration s) (se_registering s).
Definition assign_memory (x_memory : nat → Packet) (s : SessionIO) : SessionIO :=
  mkSessionIO (se_MyHash s) (se_MyPublicKey s) (se_MyIp s) (se_signalServerAddr s) (se_nodesRing s)
    (se_backData s) (se_packets s) (se_combinedData s) (se_hasher s) (se_taskman s)
    x_memory (se_fresh s) (se_AwaitingRegistration s) (se_registering s).
Definition assign_fresh (x_fresh : nat) (s : SessionIO) : SessionIO :=
  mkSessionIO (se_MyHash s) (se_MyPublicKey s) (se_MyIp s) (se_signalServerAddr s) (se_nodesRing s)
    (se_backData s) (se_packets s) (se_combinedData s) (se_hasher s) (se_taskman s)
    (se_memory s) x_fresh (se_AwaitingRegistration s) (se_registering s).
Definition assign_mode (x_AwaitingRegistration : bool) (x_registering : bool) (s : SessionIO) : SessionIO :=
  mkSessionIO (se_MyHash s) (se_MyPublicKey s) (se_MyIp s) (se_signalServerAddr s) (se_nodesRing s)
    (se_backData s) (se_packets s) (se_combinedData s) (se_hasher s) (se_taskman s)
    (se_memory s) (se_fresh s) x_AwaitingRegistration x_registering.
Definition assign_keys (x_MyHash : byte_array) (x_MyPublicKey : byte_array) (x_hasher : byte_array) (s : SessionIO) : SessionIO :=
  mkSessionIO x_MyHash x_MyPublicKey (se_MyIp s) (se_signalServerAddr s) (se_nodesRing s)
    (se_backData s) (se_packets s) (se_combinedData s) x_hasher (se_taskman s)
    (se_memory s) (se_fresh s) (se_AwaitingRegistration s) (se_registering s).

(** ** Receiving *)

(** [addToRingBuffer] *)
Definition endpoint_of (addr : Z) (s : SessionIO) : Z * Z :=
  (addr, if addr =? se_signalServerAddr s then signalServerPort else nodePort).

Definition addToRingBuffer (addr : Z) (s : SessionIO) : SessionIO :=
  assign_ring (NodesRing_place ring_capacity (endpoint_of addr s) (se_nodesRing s)).2 s.

(** The key of a packet: its [HashBlock] with the number of the fragment in the
    first two bytes. *)
Definition back_key (message : Packet) : byte_array :=
  le_bytes 2 (k_header message) ++ drop 2 (k_HashBlock message).

(** [getBackDataCounter] *)
Definition getBackDataCounter (message : Packet) (s : SessionIO) : Z * SessionIO :=
  let '(n, b) := pushAndIncrease back_capacity (back_key message) (se_backData s) in (n, assign_back b s).

(** [outSendPack] to all known nodes *)
Definition outSendPack_all (message : Packet) (dataSize : Z) (s : SessionIO) : list datagram :=
  (λ ep, mkDatagram message (u64 (dataSize + headerLength)) ep) <$> nr_endpoints (se_nodesRing s).

(** [memcpy] of the node's hash and key into a packet. *)
Definition stamp (s : SessionIO) (p : Packet) : Packet :=
  mkPacket (k_command p) (k_subcommand p) (k_version p) (k_origin_ip p) (se_MyHash s) (se_MyPublicKey s)
    (k_HashBlock p) (k_header p) (k_countHeader p) (k_data p).

(** [RunRedirect]: whether the message needs processing, the message as it is
    afterwards, and what was sent. *)
Definition RunRedirect (message : Packet) (dataSize : Z) (s : SessionIO)
    : bool * Packet * list datagram * SessionIO :=
  let '(counter, s) := getBackDataCounter message s in
  let needProcessing := counter =? 1 in
  if MAX_REDIRECT <? counter then (needProcessing, message, [], s)
  else let message := stamp s message in
       (needProcessing, message, outSendPack_all message dataSize s, s).

(** The last part of [InputServiceHandleReceive]: the call for a command. *)
Definition dispatch_redirect (subcommand : Z) (data : byte_array) (size origin_ip : Z) : list node_call :=
  if subcommand =? Sub_SGetIpTable then [Call_getRoundTable data size]
  else if subcommand =? Sub_GetBlock then [Call_getBlock data size origin_ip]
  else [].

Definition dispatch (command : Z) (data : byte_array) (size origin_ip : Z) : list node_call :=
  if command =? Cmd_GetBlockCandidate then [Call_getTransactionsList data size]
  else if command =? Cmd_GetTransaction then [Call_getTransaction data size]
  else if command =? Cmd_GetFirstTransaction then [Call_getFirstTransaction data size]
  else if command =? Cmd_GetVector then [Call_getVector data size origin_ip]
  else if command =? Cmd_GetMatrix then [Call_getMatrix data size origin_ip]
  else if command =? Cmd_GetHash then [Call_getHash data size origin_ip]
  else [].

(** The part that combines the fragments of a message: [None] when the handler
    returns, and else the message as it is now, whether there were fragments, the
    memory of the data and its size. *)
Definition handle_parts (message : Packet) (size : Z) (s : SessionIO)
    : result (option (Packet * bool * byte_array * Z) * list datagram * SessionIO) :=
  if 0 <? k_countHeader message then
    if (MAX_PART <? k_countHeader message) || (k_countHeader message <=? k_header message)
    then Ok (None, [], s)
    else
      let '(message, sent, s) :=
        if k_command message =? Cmd_Redirect
        then let '(_, message, sent, s) := RunRedirect message size s in (message, sent, s)
        else (message, [], s) in
      '(r, pc) ← collect collector_capacity message size (se_packets s);
      let s := assign_packets pc s in
      match r with
      | None => Ok (None, sent, s)
      | Some d =>
          let s := assign_combined (d ++ drop (length d) (se_combinedData s)) s in
          Ok (Some (message, true, se_combinedData s, Z.of_nat (length d)), sent, s)
      end
  else Ok (Some (message, false, k_data message, size), [], s).

(** [InputServiceHandleReceive] without a receive error *)
Definition InputServiceHandleReceive (message : Packet) (sender bytes_transferred : Z) (s : SessionIO)
    : result (list node_call * list datagram * SessionIO) :=
  let s := addToRingBuffer sender s in
  let size := u64 (bytes_transferred - headerLength) in
  '(r, sent, s) ← handle_parts message size s;
  match r with
  | None => Ok ([], sent, s)
  | Some (message, multiPack, data, size) =>
      if k_command message =? Cmd_Redirect then
        if (multiPack : bool) then Ok (dispatch_redirect (k_subcommand message) data size (k_origin_ip message), sent, s)
        else
          let '(needProcessing, message, sent2, s) := RunRedirect message size s in
          if negb needProcessing then Ok ([], sent ++ sent2, s)
          else Ok (dispatch_redirect (k_subcommand message) data size (k_origin_ip message), sent ++ sent2, s)
      else
        let '(n, s) := getBackDataCounter message s in
        if 1 <? n then Ok ([], sent, s)
        else Ok (dispatch (k_command message) data size (k_origin_ip message), sent, s)
  end.

(** The datagrams that arrive one after the other, as packet, sender and number of
    bytes: for each of them the calls of the node and what is sent on. *)
Fixpoint receive_all (ds : list (Packet * Z * Z)) (s : SessionIO)
    : result (list (list node_call * list datagram) * SessionIO) :=
  match ds with
  | [] => Ok ([], s)
  | (message, sender, bytes_transferred) :: ds' =>
      '(calls, sent, s) ← InputServiceHandleReceive message sender bytes_transferred s;
      '(outs, s) ← receive_all ds' s;
      Ok ((calls, sent) :: outs, s)
  end.

(** [ReceiveRegistration]: until the node has entered the network, only its
    registration is processed.  [node] executes a call of the node, which may work
    on the session. *)
Definition ReceiveRegistration {N : Type} (node : node_call → N → SessionIO → result (N * SessionIO))
    (message : Packet) (sender bytes_transferred : Z) (n : N) (s : SessionIO) : result (N * SessionIO) :=
  let size := u64 (bytes_transferred - headerLength) in
  '(entered, n, s) ←
    (if k_command message =? Cmd_Registration then
       let s := assign_mode false (se_registering s) s in
       if k_subcommand message =? Sub_RegistrationLevelNode
       then '(n, s) ← node (Call_getInitRing (k_data message) size) n s; Ok (true, n, s)
       else Ok (false, n, s)
     else if (k_command message =? Cmd_Redirect) && (k_subcommand message =? Sub_RegistrationLevelNode)
     then '(n, s) ← node (Call_getInitRing (k_data message) size) n s; Ok (true, n, s)
     else Ok (false, n, s));
  let s := addToRingBuffer sender s in
  Ok (n, assign_mode (se_AwaitingRegistration s) (negb entered) s).

(** ** Sending *)

(** [MessageHasher::init]; the last 32 bytes are not written. *)
Definition hasher_init (publicKey internal : byte_array) : byte_array :=
  replicate 32 0 ++ take 32 publicKey ++ drop 64 internal.

(** [MessageHasher::nextHash] *)
Definition nextHash (data internal : byte_array) : byte_array * byte_array :=
  let internal := take 64 internal ++ blake2s_digest data in
  let out := replicate 8 0 ++ blake2s_digest internal in
  (out, le_bytes 4 (u32 (le_value (take 4 internal) + 1)) ++ drop 4 internal).

(** [GenerationHash], where [line] is the text read from the key file; the first
    bytes of the node's hash are not written. *)
Definition GenerationHash (line : byte_array) (s : SessionIO) : result SessionIO :=
  if negb (length line =? 44)%nat then Throw undefined_behaviour
  else
    let publicKey := blake2s_digest line in
    let hash := take 8 (se_MyHash s) ++ blake2s_digest (le_bytes 4 (se_MyIp s) ++ line) in
    Ok (assign_keys hash publicKey (hasher_init publicKey (se_hasher s)) s).

(** Writing a cell of the packet memory. *)
Definition write_packet (p : nat) (pk : Packet) (s : SessionIO) : SessionIO :=
  assign_memory (λ q, if (q =? p)%nat then pk else se_memory s q) s.

Definition set_headers (header countHeader : Z) (pk : Packet) : Packet :=
  mkPacket (k_command pk) (k_subcommand pk) (k_version pk) (k_origin_ip pk) (k_hash pk) (k_publicKey pk)
    (k_HashBlock pk) header countHeader (k_data pk).

(** The header of a packet, copied in front of the data of another one. *)
Definition copy_header (from pk : Packet) : Packet :=
  mkPacket (k_command from) (k_subcommand from) (k_version from) (k_origin_ip from) (k_hash from) (k_publicKey from)
    (k_HashBlock from) (k_header from) (k_countHeader from) (k_data pk).

(** [outFrmPack] *)
Definition outFrmPack (p : nat) (cmd sub_cmd ver size_data : Z) (s : SessionIO) : SessionIO :=
  let pk := se_memory s p in
  let '(hashBlock, internal) := nextHash (take (Z.to_nat size_data) (k_data pk)) (se_hasher s) in
  write_packet p (mkPacket cmd sub_cmd ver (se_MyIp s) (se_MyHash s) (se_MyPublicKey s) hashBlock
                    (k_header pk) (k_countHeader pk) (k_data pk))
    (assign_hasher internal s).

(** The loop of [createSendTasks] over the packets behind the first one. *)
Fixpoint copy_headers (front : nat) (i : nat) (packets : list nat) (s : SessionIO) : SessionIO :=
  match packets with
  | [] => s
  | p :: packets' =>
      let pk := copy_header (se_memory s front) (se_memory s p) in
      copy_headers front (S i) packets' (write_packet p (set_headers (u16 (Z.of_nat i)) (k_countHeader pk) pk) s)
  end.

(** [createSendTasks] *)
Definition createSendTasks (packets : list nat) (cmd subcmd lastSize : Z) (s : SessionIO) : SessionIO :=
  match packets with
  | [] => s
  | front :: rest =>
      let one := (length packets =? 1)%nat in
      let s := outFrmPack front cmd subcmd 1 (if one then lastSize else Z.of_nat max_length) s in
      if one then write_packet front (set_headers 0 0 (se_memory s front)) s
      else
        let s := write_packet front (set_headers 0 (u16 (Z.of_nat (length packets))) (se_memory s front)) s in
        copy_headers front 1 rest s
  end.

(** [addTaskDirect] and [addTaskBroadcast], at the time [now] *)
Definition addTaskDirect (now : Z) (packets : list nat) (cmd subcmd lastSize ip : Z) (s : SessionIO) : nat * SessionIO :=
  let s := createSendTasks packets cmd subcmd lastSize s in
  let '(id, m) := TaskManager_add (Task_direct now packets lastSize (endpoint_of ip s)) (se_taskman s) in
  (id, assign_taskman m s).

Definition addTaskBroadcast (now : Z) (packets : list nat) (subcmd lastSize : Z) (s : SessionIO) : nat * SessionIO :=
  let s := createSendTasks packets Cmd_Redirect subcmd lastSize s in
  let '(id, m) := TaskManager_add (Task_broadcast now packets lastSize (nr_endpoints (se_nodesRing s))) (se_taskman s) in
  (id, assign_taskman m s).

(** [RegistrationToServer], one turn of its loop: the version is sent to the signal
    server. *)
Definition RegistrationToServer (server : endpoint) (s : SessionIO) : list datagram * SessionIO :=
  if se_AwaitingRegistration s then
    let p := se_fresh s in
    let version := [52; 53] in
    let pk := se_memory s p in
    let s := write_packet p (mkPacket (k_command pk) (k_subcommand pk) (k_version pk) (k_origin_ip pk) (k_hash pk)
               (k_publicKey pk) (k_HashBlock pk) (k_header pk) (k_countHeader pk) (version ++ drop 2 (k_data pk)))
               (assign_fresh (S p) s) in
    let s := outFrmPack p Cmd_Registration Sub_Empty 1 2 s in
    ([mkDatagram (se_memory s p) (u64 (2 + headerLength)) server], s)
  else ([], s).

(** [removeTask] and [removeAllTasks] *)
Definition removeTask (id : nat) (s : SessionIO) : result SessionIO :=
  m ← TaskManager_remove id (se_taskman s); Ok (assign_taskman m s).

Definition removeAllTasks (s : SessionIO) : SessionIO := assign_taskman (TaskManager_clear (se_taskman s)) s.

(** [getEmptyPacket], and the data that an output stream writes to the packet. *)
Definition new_packet (d : byte_array) (s : SessionIO) : nat * SessionIO :=
  let p := se_fresh s in
  let pk := se_memory s p in
  (p, write_packet p (mkPacket (k_command pk) (k_subcommand pk) (k_version pk) (k_origin_ip pk) (k_hash pk)
        (k_publicKey pk) (k_HashBlock pk) (k_header pk) (k_countHeader pk) (d ++ drop (length d) (k_data pk)))
        (assign_fresh (S p) s)).

(** The packets of an output stream. *)
Fixpoint new_packets (parts : list byte_array) (s : SessionIO) : list nat * SessionIO :=
  match parts with
  | [] => ([], s)
  | d :: parts' =>
      let '(p, s) := new_packet d s in
      let '(ps, s) := new_packets parts' s in (p :: ps, s)
  end.

(** [senderThreadRoutine]: the datagrams of a task, and of a run of the manager. *)
Definition task_datagrams (s : SessionIO) (task : Task) : list datagram :=
  concat (imap (λ i p,
    (λ recv, mkDatagram (se_memory s p)
       (if (S i =? length (tk_packets task))%nat then tk_lastSize task else headerLength + Z.of_nat max_length) recv)
    <$> tk_receivers task) (tk_packets task)).

Definition senderThreadRoutine (now : nat → Z) (s : SessionIO) : list datagram * SessionIO :=
  let '(sent, m) := TaskManager_run (task_datagrams s) now (se_taskman s) in (sent, assign_taskman m s).
