(* ===== verification/Transport.v ===== *)
(** * Transport: messages from node to node

    The composition of [Packstream], [Session], [Tasks] and [Net]: what a session
    does with a history of datagrams, and that what one session sends as a task
    another one hands to its node. *)

From S2P Require Import Prelude Packstream Net Tasks Session.

(** ** Messages *)

(** A message: its parts and what the headers of its packets say about it. *)
Record message := mkMessage {
  ms_parts : list byte_array;
  ms_command : Z;
  ms_subcommand : Z;
  ms_origin : Z;
}.

Definition ms_bytes (m : message) : byte_array := concat (ms_parts m).

(** The call that a message leads to, with the memory that holds its bytes. *)
Definition ms_call (m : message) (data : byte_array) : list node_call :=
  let size := Z.of_nat (length (ms_bytes m)) in
  if ms_command m =? Cmd_Redirect then dispatch_redirect (ms_subcommand m) data size (ms_origin m)
  else dispatch (ms_command m) data size (ms_origin m).

(** A packet with a part of the message; the only part of a message that has one is
    sent without numbers. *)
Definition piece (m : message) (pk : Packet) (size : Z) : Prop :=
  k_command pk = ms_command m ∧ k_subcommand pk = ms_subcommand m ∧ k_origin_ip pk = ms_origin m ∧
  parts_ok (ms_parts m) ∧ take 2 (k_HashBlock pk) = [0; 0] ∧
  match ms_parts m with
  | [p] => k_header pk = 0 ∧ k_countHeader pk = 0 ∧ size = Z.of_nat (length p) ∧ take (length p) (k_data pk) = p
  | ps => fragment ps pk size
  end.

(** ** The window of a message *)

Section Window.
Context (k : byte_array).

Definition of_message (m : Packet * Z) : Prop := k_HashBlock m.1 = k.

#[export] Instance of_message_dec m : Decision (of_message m).
Proof. unfold of_message. apply _. Defined.

Definition arrived (hist : list (Packet * Z)) : Prop := Exists of_message hist.

#[export] Instance arrived_dec hist : Decision (arrived hist).
Proof. unfold arrived. apply _. Defined.

Fixpoint after_first (hist : list (Packet * Z)) : list (Packet * Z) :=
  match hist with
  | [] => []
  | m :: hist' => if decide (of_message m) then hist' else after_first hist'
  end.

(** The packets of other messages that came after the first one of [k]. *)
Definition others (hist : list (Packet * Z)) : nat := length (filter (λ m, ¬ of_message m) (after_first hist)).

Definition copies (hist : list (Packet * Z)) : nat := length (filter of_message hist).

(** The message is within what a session remembers: fewer packets of other messages
    than the collector holds messages come after its first one, and its own packets
    do not overflow a counter.  Before its first packet any number may come. *)
Definition window_fits (hist : list (Packet * Z)) : Prop :=
  (others hist < collector_capacity)%nat ∧ Z.of_nat (copies hist) < 2 ^ 32.

Lemma arrived_elem hist : arrived hist ↔ ∃ m, m ∈ hist ∧ k_HashBlock m.1 = k.
Proof. apply Exists_exists. Qed.

Lemma after_first_app h1 h2 :
  after_first (h1 ++ h2) = if decide (arrived h1) then after_first h1 ++ h2 else after_first h2.
Proof.
  induction h1 as [|m h1 IH]; cbn [after_first app].
  { rewrite decide_False; [done|]. by intros ?%Exists_nil. }
  destruct (decide (of_message m)) as [Hm|Hm].
  - rewrite decide_True; [done|]. by left.
  - rewrite IH. apply decide_ext. unfold arrived. rewrite Exists_cons. tauto.
Qed.

Lemma others_unseen hist : ¬ arrived hist → others hist = 0%nat.
Proof.
  unfold others. induction hist as [|m hist IH]; cbn [after_first]; [done|].
  unfold arrived. rewrite Exists_cons. intros Hn. destruct (decide (of_message m)); [tauto|]. apply IH. unfold arrived. tauto.
Qed.

Lemma others_snoc hist m :
  others (hist ++ [m]) = if decide (arrived hist) then if decide (of_message m) then others hist else S (others hist) else 0%nat.
Proof.
  unfold others. rewrite after_first_app. destruct (decide (arrived hist)) as [Ha|Ha].
  - rewrite filter_app, length_app. destruct (decide (of_message m)) as [Hm|Hm].
    + rewrite (filter_cons_False (λ m, ¬ of_message m)) by tauto. cbn. lia.
    + rewrite (filter_cons_True (λ m, ¬ of_message m)) by done. cbn. lia.
  - cbn [after_first]. by destruct (decide (of_message m)).
Qed.

Lemma others_mono h1 h2 : (others h1 <= others (h1 ++ h2))%nat.
Proof.
  induction h2 as [|m h2 IH] using rev_ind; [by rewrite app_nil_r|]. etrans; [exact IH|]. rewrite app_assoc, others_snoc.
  destruct (decide (arrived (h1 ++ h2))) as [Ha|Ha]; [destruct (decide (of_message m)); lia|]. by rewrite (others_unseen _ Ha).
Qed.

Lemma copies_snoc hist m : copies (hist ++ [m]) = if decide (of_message m) then S (copies hist) else copies hist.
Proof.
  unfold copies. rewrite filter_app, length_app. destruct (decide (of_message m)) as [Hm|Hm].
  - rewrite (filter_cons_True of_message) by done. cbn. lia.
  - rewrite (filter_cons_False of_message) by done. cbn. lia.
Qed.

Lemma window_fits_prefix h1 h2 : window_fits (h1 ++ h2) → window_fits h1.
Proof.
  intros [H1 H2]. split; [eapply Nat.le_lt_trans; [apply (others_mono h1 h2)|done]|].
  unfold copies in *. rewrite filter_app, length_app in H2. lia.
Qed.

(** A queue that follows the history keeps to the window. *)
Lemma recent_window {K} (own : K → Prop) `{!∀ x, Decision (own x)} (P : Prop) `{!Decision P} hist m q :
  recent own (if decide P then others hist else S (others hist)) q → (P ↔ of_message m) →
  (¬ arrived (hist ++ [m]) → Forall (λ x, ¬ own x) q) → recent own (others (hist ++ [m])) q.
Proof.
  intros Hrec Hb Hnone. rewrite others_snoc. destruct (decide (arrived hist)) as [Ha|Ha].
  - rewrite (decide_ext P (of_message m)) in Hrec by done. done.
  - rewrite (others_unseen _ Ha) in Hrec. destruct (decide (of_message m)) as [Hm|Hm].
    + by rewrite decide_True in Hrec by by apply Hb.
    + apply recent_none, Hnone. unfold arrived. rewrite Exists_app, Exists_cons, Exists_nil. tauto.
Qed.

(** The keys of the packets of the message. *)
Definition back_keys : list byte_array := (λ i, le_bytes 2 (Z.of_nat i) ++ drop 2 k) <$> seq 0 (Z.to_nat MAX_PART).

Definition own_back (x : byte_array) : Prop := x ∈ back_keys.

#[export] Instance own_back_dec x : Decision (own_back x).
Proof. unfold own_back. apply _. Defined.

Lemma own_back_bound : own_bound own_back (Z.to_nat MAX_PART).
Proof.
  intros l Hnd Hl. assert (length back_keys = Z.to_nat MAX_PART) as <- by (unfold back_keys; by rewrite length_fmap, length_seq).
  apply submseteq_length, NoDup_submseteq; [done|]. intros x Hx. rewrite Forall_forall in Hl. by apply Hl.
Qed.

End Window.

Section Receive.
Context (msg : byte_array → message).

Abbreviation parts := (λ k, ms_parts (msg k)).

Definition several (pk : Packet) : Prop := length (ms_parts (msg (k_HashBlock pk))) ≠ 1%nat.

#[local] Instance several_dec pk : Decision (several pk).
Proof. unfold several. apply _. Defined.

(** A packet that is counted when it arrives, and not when its message is
    complete. *)
Definition counted_at_once (pk : Packet) : Prop := k_command pk = Cmd_Redirect ∨ ¬ several pk.

Lemma piece_header k pk size :
  piece (msg k) pk size → ∃ i, k_header pk = Z.of_nat i ∧ (i < length (parts k))%nat ∧ (i < 2048)%nat.
Proof.
  intros (_ & _ & _ & [Hn _] & _ & Hp).
  destruct (ms_parts (msg k)) as [|p [|q ps]]; [|exists 0%nat; destruct Hp; split; [done|]; split; cbn; lia|];
    (destruct (fragment_header _ _ _ Hp) as (i & Hi & Hlt); exists i; split; [done|]; split; [done|]; lia).
Qed.

(** The parts of a session that receiving leaves alone. *)
Definition same_node (s s' : SessionIO) : Prop :=
  se_nodesRing s' = se_nodesRing s ∧ se_MyHash s' = se_MyHash s ∧ se_MyPublicKey s' = se_MyPublicKey s ∧
  se_signalServerAddr s' = se_signalServerAddr s.

Definition pieces (hist : list (Packet * Z)) : Prop :=
  ∀ m, m ∈ hist → piece (msg (k_HashBlock m.1)) m.1 m.2.

(** The key of a packet stands for its message and its number. *)
Lemma back_key_inj pk1 pk2 sz1 sz2 :
  piece (msg (k_HashBlock pk1)) pk1 sz1 → piece (msg (k_HashBlock pk2)) pk2 sz2 →
  back_key pk1 = back_key pk2 → k_HashBlock pk1 = k_HashBlock pk2 ∧ k_header pk1 = k_header pk2.
Proof.
  intros H1 H2 E.
  destruct (piece_header _ _ _ H1) as (i1 & Hi1 & _ & Hl1). destruct (piece_header _ _ _ H2) as (i2 & Hi2 & _ & Hl2).
  destruct H1 as (_ & _ & _ & _ & Hz1 & _), H2 as (_ & _ & _ & _ & Hz2 & _).
  unfold back_key in E. apply app_inj_1 in E as [E1 E2]; [|done]. split.
  - rewrite <- (take_drop 2 (k_HashBlock pk1)), <- (take_drop 2 (k_HashBlock pk2)). by rewrite Hz1, Hz2, E2.
  - rewrite Hi1, Hi2 in E1 |- *. apply (f_equal le_value) in E1. rewrite !le_value_le_bytes in E1.
    change (2 ^ (8 * Z.of_nat 2)) with 65536 in E1. rewrite !Z.mod_small in E1 by lia. done.
Qed.

Lemma occurrences_length {K} `{Countable K} (k : K) l : occurrences k l <= Z.of_nat (length l).
Proof. unfold occurrences. pose proof (length_filter (λ x, x = k) l). lia. Qed.

(** The packets of the message are those with its keys. *)
Lemma own_back_key k pk size :
  take 2 k = [0; 0] → piece (msg (k_HashBlock pk)) pk size → own_back k (back_key pk) ↔ k_HashBlock pk = k.
Proof.
  intros Hk Hp. destruct (piece_header _ _ _ Hp) as (i & Hi & _ & Hlt). destruct Hp as (_ & _ & _ & _ & Hz & _).
  unfold own_back, back_keys, back_key. rewrite list_elem_of_fmap. split.
  - intros (j & E & _). apply app_inj_1 in E as [_ E]; [|done].
    by rewrite <- (take_drop 2 (k_HashBlock pk)), <- (take_drop 2 k), Hz, Hk, E.
  - intros <-. exists i. split; [by rewrite Hi|]. apply elem_of_seq. unfold MAX_PART. lia.
Qed.

(** ** The session while a message is tracked *)

Section Tracked.
Context (k : byte_array).
Hypothesis Hk0 : take 2 k = [0; 0].

(** The counters after a history of pieces: those packets of the message were counted
    that are counted at once, and perhaps others. *)
Definition back_inv (hist : list (Packet * Z)) (c : CircularMap byte_array) : Prop :=
  ∃ hb, counts_tracks back_capacity (own_back k) (others k hist) hb c ∧
    (∀ m, m ∈ hist → k_HashBlock m.1 = k → counted_at_once m.1 → back_key m.1 ∈ hb) ∧
    (∀ x, x ∈ hb → ∃ m, m ∈ hist ∧ x = back_key m.1) ∧
    (∀ x, own_back k x → occurrences x hb <= Z.of_nat (copies k hist)).

(** The collector: of the message it has what has arrived. *)
Definition parts_inv (hist : list (Packet * Z)) (pc : PacketCollector) : Prop :=
  ∃ hc, coll_tracks collector_capacity parts k (others k hist) hc pc ∧
    (length (parts k) ≠ 1%nat → ∀ i, seen hc k i ↔ seen hist k i) ∧
    (∀ x, x ∈ pc_queue pc → ∃ m, m ∈ hist ∧ k_HashBlock m.1 = x).

(** The state of a session after a history of pieces. *)
Definition sess_inv (hist : list (Packet * Z)) (s : SessionIO) : Prop :=
  parts_inv hist (se_packets s) ∧ back_inv hist (se_backData s).

Lemma back_skip hist c pk size :
  back_inv hist c → ¬ counted_at_once pk → back_inv (hist ++ [(pk, size)]) c.
Proof.
  intros (hb & (Hc & Hl & Hrec) & H1 & H2 & H3) Hn. exists hb. split; [|split; [|split]].
  - split; [done|]. split; [done|]. eapply recent_mono; [exact Hrec|]. apply others_mono.
  - intros m [Hm| ->%list_elem_of_singleton]%elem_of_app Hm'; [by apply H1|done].
  - intros x Hx. destruct (H2 x Hx) as (m & Hm & E). exists m. split; [|done]. apply elem_of_app. by left.
  - intros x Hx. etrans; [by apply H3|]. rewrite copies_snoc. destruct (decide _); lia.
Qed.

Lemma parts_skip hist pc pk size :
  parts_inv hist pc → ¬ several pk → parts_inv (hist ++ [(pk, size)]) pc.
Proof.
  intros (hc & (Hc & Hl & Hrec) & H1 & H2) Hn. exists hc. split; [|split].
  - split; [done|]. split; [done|]. eapply recent_mono; [exact Hrec|]. apply others_mono.
  - intros Hs i. rewrite (H1 Hs), seen_snoc. cbn [fst]. split; [by left|]. intros [|[E _]]; [done|].
    destruct Hn. unfold several. by rewrite E.
  - intros x Hx. destruct (H2 x Hx) as (m & Hm & E). exists m. split; [|done]. apply elem_of_app. by left.
Qed.

(** The history of a collector counts only up to the numbers of its packets. *)
Lemma coll_inv_same hist pk pk' size pc :
  k_HashBlock pk' = k_HashBlock pk → k_header pk' = k_header pk →
  coll_inv parts (hist ++ [(pk', size)]) pc → coll_inv parts (hist ++ [(pk, size)]) pc.
Proof.
  intros Hk Hh (H1 & H2 & H3 & H4). split; [done|]. split; [done|]. split.
  - intros x. rewrite H3. setoid_rewrite elem_of_app. setoid_rewrite list_elem_of_singleton. split.
    + intros (m & [Hm| ->] & E); [eauto|]. exists (pk, size). cbn in *. rewrite <- Hk. auto.
    + intros (m & [Hm| ->] & E); [eauto|]. exists (pk', size). cbn in *. rewrite Hk. auto.
  - intros x part Hp. destruct (H4 x part Hp) as [H5 H6]. split; [done|]. intros j.
    rewrite H6, !seen_snoc. cbn [fst]. by rewrite Hk, Hh.
Qed.

#[local] Instance redirect_new_dec hist pk i :
  Decision (k_command pk = Cmd_Redirect ∧ ¬ seen hist (k_HashBlock pk) i).
Proof. apply _. Defined.

(** What is sent on for a packet: a redirected one that is new goes to all known
    nodes. *)
Definition forwarded (hist : list (Packet * Z)) (pk : Packet) (i : nat) (size : Z) (s : SessionIO) : list datagram :=
  if decide (k_command pk = Cmd_Redirect ∧ ¬ seen hist (k_HashBlock pk) i)
  then outSendPack_all (stamp s pk) size s else [].

Section Step.
Context (hist : list (Packet * Z)) (pk : Packet) (size : Z) (i : nat).
Hypothesis Hpieces : pieces hist.
Hypothesis Hpiece : piece (msg (k_HashBlock pk)) pk size.
Hypothesis Hi : k_header pk = Z.of_nat i.
Hypothesis Hwin : window_fits k (hist ++ [(pk, size)]).

Lemma others_bound : (others k hist < collector_capacity)%nat.
Proof. destruct Hwin as [Hw _]. eapply Nat.le_lt_trans; [apply others_mono|exact Hw]. Qed.

Lemma own_key_unseen m :
  m ∈ hist → k_HashBlock pk = k → back_key pk = back_key m.1 → k_HashBlock m.1 = k ∧ k_header m.1 = k_header pk.
Proof.
  intros Hm Hk E. destruct (back_key_inj m.1 pk m.2 size (Hpieces m Hm) Hpiece (eq_sym E)) as [H1 H2]. by rewrite H1.
Qed.

(** Counting a packet keeps the counts of the packets of the message. *)
Lemma back_tracked c hb :
  counts_tracks back_capacity (own_back k) (others k hist) hb c → (∀ x, x ∈ hb → ∃ m, m ∈ hist ∧ x = back_key m.1) →
  let r := pushAndIncrease back_capacity (back_key pk) c in
  ∃ hb1, r.1 = u32 (occurrences (back_key pk) hb1 + 1) ∧
    counts_tracks back_capacity (own_back k) (others k (hist ++ [(pk, size)])) (hb1 ++ [back_key pk]) r.2 ∧
    (∀ x, x ∈ hb1 ++ [back_key pk] → ∃ m, m ∈ hist ++ [(pk, size)] ∧ x = back_key m.1) ∧
    (∀ x, own_back k x → occurrences x hb1 = occurrences x hb).
Proof.
  intros Htr H2. pose proof others_bound as Hob. pose proof (own_back_key k pk size Hk0 Hpiece) as Hown.
  destruct (pushAndIncrease_tracked back_capacity (own_back k) (Z.to_nat MAX_PART) (others k hist) hb c (back_key pk) Htr
    (own_back_bound k)) as (hb1 & Hn & (Hc' & Hl' & Hrec') & Hsub & Hocc);
    [unfold collector_capacity, back_capacity, MAX_PART in *; lia|].
  assert (∀ x, x ∈ hb1 ++ [back_key pk] → ∃ m, m ∈ hist ++ [(pk, size)] ∧ x = back_key m.1) as H2'.
  { intros x [(m & Hm & ->)%Hsub%H2| ->%list_elem_of_singleton]%elem_of_app.
    - exists m. split; [|done]. apply elem_of_app. by left.
    - exists (pk, size). split; [|done]. apply elem_of_app. right. by left. }
  exists hb1. split; [exact Hn|]. split; [|done]. split; [done|]. split; [done|].
  eapply recent_window; [exact Hrec'|exact Hown|]. intros Hna. apply Forall_forall. intros x Hx Ho. apply Hc' in Hx.
  destruct (H2' x Hx) as (m & Hm & ->). apply Hna, Exists_exists. exists m. split; [done|].
  apply (own_back_key k m.1 m.2 Hk0); [|done].
  apply elem_of_app in Hm as [Hm| ->%list_elem_of_singleton]; [by apply Hpieces|done].
Qed.

(** For a packet of the message the counter is one exactly when the packet is new. *)
Lemma back_push c :
  back_inv hist c →
  let r := pushAndIncrease back_capacity (back_key pk) c in
  back_inv (hist ++ [(pk, size)]) r.2 ∧
  (k_HashBlock pk = k → (¬ seen hist k i → r.1 = 1) ∧ (seen hist k i → counted_at_once pk → 1 < r.1)).
Proof.
  intros (hb & Htr & H1 & H2 & H3). pose proof (own_back_key k pk size Hk0 Hpiece) as Hown.
  destruct (back_tracked c hb Htr H2) as (hb1 & Hn & Htr' & H2' & Hocc).
  destruct Hwin as [_ Hcp]. rewrite copies_snoc in Hcp. cbv zeta. split.
  - exists (hb1 ++ [back_key pk]). split; [exact Htr'|]. split; [|split; [exact H2'|]].
    + intros m [Hm| ->%list_elem_of_singleton]%elem_of_app Hmk Hm'; apply elem_of_app; [left|right; by left].
      apply occurrences_pos. rewrite Hocc; [apply occurrences_pos; by apply H1|].
      by apply (own_back_key k m.1 m.2 Hk0 (Hpieces m Hm)).
    + intros x Hx. rewrite occurrences_app, (Hocc x Hx), copies_snoc. specialize (H3 x Hx).
      destruct (decide (of_message k (pk, size))) as [Hm|Hm].
      * pose proof (occurrences_length x [back_key pk]). cbn [length] in *. lia.
      * rewrite (occurrences_none x [back_key pk]); [lia|]. intros ->%list_elem_of_singleton. by apply Hm, Hown.
  - intros Hk. assert (own_back k (back_key pk)) as Ho by by apply Hown.
    rewrite decide_True in Hcp by done. specialize (H3 _ Ho). rewrite Hn, (Hocc _ Ho). split.
    + intros Hns. rewrite occurrences_none; [done|]. intros (m & Hm & E)%H2. apply Hns. exists m.
      destruct (own_key_unseen m Hm Hk E) as [? ->]. done.
    + intros (m & Hm & Hmk & Hh) Hca.
      assert (back_key pk = back_key m.1) as E by (unfold back_key; by rewrite Hk, Hmk, Hh, Hi).
      assert (back_key pk ∈ hb) as Hin.
      { rewrite E. apply H1; [done|done|]. destruct (Hpieces m Hm) as (Hcm & _), Hpiece as (Hcpk & _). rewrite Hmk in Hcm.
        rewrite Hk in Hcpk. unfold counted_at_once, several in *. rewrite Hk in Hca. by rewrite Hmk, Hcm, <- Hcpk. }
      apply occurrences_pos in Hin. width_lia.
Qed.

(** There is a place for a message that the collector does not hold. *)
Lemma room_for_piece hc pc :
  coll_inv parts hc pc → (length (parts k) ≠ 1%nat → ∀ i, seen hc k i ↔ seen hist k i) → several pk →
  k_HashBlock pk ∉ pc_queue pc → (others k hist + 1 < collector_capacity)%nat.
Proof.
  intros (_ & _ & Hkeys & _) Hseen Hs Hnin. destruct (decide (arrived k hist)) as [Ha|Ha].
  - destruct Hwin as [Hw _]. rewrite others_snoc, decide_True in Hw by done.
    destruct (decide (of_message k (pk, size))) as [Hm|Hm]; [|lia]. exfalso. unfold of_message in Hm. cbn in Hm.
    apply arrived_elem in Ha as (m & Hm' & Hmk). destruct (piece_header _ _ _ (Hpieces m Hm')) as (j & Hj & _).
    unfold several in Hs. rewrite Hm in Hs, Hnin. apply Hnin, Hkeys. destruct (proj2 (Hseen Hs j)) as (y & Hy & Hyk & _); [|eauto].
    by exists m.
  - rewrite (others_unseen _ _ Ha). unfold collector_capacity. lia.
Qed.

(** [RunRedirect]: a packet of the message is passed on when it is new. *)
Lemma RunRedirect_spec s :
  back_inv hist (se_backData s) → k_command pk = Cmd_Redirect →
  ∃ new m sent b, RunRedirect pk size s = (new, m, sent, assign_back b s) ∧
    back_inv (hist ++ [(pk, size)]) b ∧ (m = pk ∨ m = stamp s pk) ∧
    (k_HashBlock pk = k → new = bool_decide (¬ seen hist k i) ∧ sent = forwarded hist pk i size s).
Proof.
  intros Hb Hc. unfold RunRedirect, getBackDataCounter, forwarded.
  destruct (back_push (se_backData s) Hb) as (Hb' & Hown).
  destruct (pushAndIncrease back_capacity (back_key pk) (se_backData s)) as [n b]. cbn [fst snd] in *. unfold MAX_REDIRECT.
  destruct (Z.ltb_spec 1 n) as [Hn|Hn]; do 4 eexists; (split; [reflexivity|]); (split; [exact Hb'|]); (split; [auto|]);
    intros Hk; destruct (Hown Hk) as [Hnew Hold];
    (assert (seen hist (k_HashBlock pk) i ↔ seen hist k i) as Hkk by by rewrite Hk); destruct (decide (seen hist k i)) as [Hs|Hs].
  - rewrite decide_False, bool_decide_eq_false_2 by tauto. split; [|done]. apply Z.eqb_neq. lia.
  - specialize (Hnew Hs). lia.
  - specialize (Hold Hs (or_introl Hc)). lia.
  - rewrite decide_True, bool_decide_eq_true_2 by tauto. split; [|done]. apply Z.eqb_eq. auto.
Qed.

Lemma getBackDataCounter_spec s :
  back_inv hist (se_backData s) →
  ∃ n b, getBackDataCounter pk s = (n, assign_back b s) ∧ back_inv (hist ++ [(pk, size)]) b ∧
    (k_HashBlock pk = k → (¬ seen hist k i → n = 1) ∧ (seen hist k i → counted_at_once pk → 1 < n)).
Proof.
  intros Hb. unfold getBackDataCounter. destruct (back_push (se_backData s) Hb) as (Hb' & Hown).
  destruct (pushAndIncrease back_capacity (back_key pk) (se_backData s)) as [n b]. by exists n, b.
Qed.

(** What receiving the packet comes to; what a packet of the message leads to. *)
Definition received (s : SessionIO) (bytes sender : Z) (own : list node_call → Prop) : Prop :=
  ∃ calls sent s', InputServiceHandleReceive pk sender bytes s = Ok (calls, sent, s') ∧
    sess_inv (hist ++ [(pk, size)]) s' ∧ same_node (addToRingBuffer sender s) s' ∧
    (k_HashBlock pk = k → sent = forwarded hist pk i size (addToRingBuffer sender s) ∧ own calls).

Lemma forwarded_direct s : k_command pk ≠ Cmd_Redirect → forwarded hist pk i size s = [].
Proof. intros Hr. unfold forwarded. rewrite decide_False by tauto. done. Qed.

(** A message of one packet. *)
Lemma receive_single s bytes sender :
  sess_inv hist s → ¬ several pk → bytes = headerLength + size →
  received s bytes sender (λ calls,
    if decide (seen hist k i) then calls = []
    else calls = ms_call (msg k) (k_data pk) ∧ take (length (ms_bytes (msg k))) (k_data pk) = ms_bytes (msg k)).
Proof.
  intros [Hcoll Hb] Hns ->. pose proof Hpiece as (Hcmd & Hsub & Hip & Hok & _ & Hp). pose proof Hns as Hns'. unfold several in Hns'.
  set (m := msg (k_HashBlock pk)) in *.
  destruct (ms_parts m) as [|p [|q ps]] eqn:Ep; cbn in Hns'; try (exfalso; lia). destruct Hp as (_ & Hcnt & Hsz & Hd).
  assert (length p <= max_length)%nat as Hl.
  { destruct Hok as [_ ([|f front] & back & E & _ & Hl)]; [by injection E as ->|]. by destruct front. }
  assert (ms_bytes m = p) as Hbytes by (unfold ms_bytes; rewrite Ep; cbn; apply app_nil_r).
  unfold received, InputServiceHandleReceive. set (s1 := addToRingBuffer sender s).
  replace (u64 (headerLength + size - headerLength)) with size by (pose proof max_length_Z; width_lia).
  unfold handle_parts. rewrite Hcnt. cbn [Z.ltb Z.compare]. rewrite bind_Ok.
  assert (∀ b, back_inv (hist ++ [(pk, size)]) b → sess_inv (hist ++ [(pk, size)]) (assign_back b s1)) as Hinv
    by (intros b Hb'; split; [by apply parts_skip|done]).
  assert (k_HashBlock pk = k → ms_call (msg k) (k_data pk) = ms_call m (k_data pk) ∧ ms_bytes (msg k) = p) as Hm
    by (intros <-; done).
  unfold ms_call at 2 in Hm. rewrite Hbytes, <- Hsz, <- Hcmd, <- Hsub, <- Hip in Hm.
  cbv beta iota. destruct (Z.eqb_spec (k_command pk) Cmd_Redirect) as [Hr|Hr].
  - destruct (RunRedirect_spec s1 Hb Hr) as (new & m' & sent & b & -> & Hb' & Hm' & Hnew). cbv beta iota. cbn [app].
    assert (k_subcommand m' = k_subcommand pk ∧ k_origin_ip m' = k_origin_ip pk) as [-> ->] by by destruct Hm' as [-> | ->].
    destruct new; cbn [negb]; do 3 eexists; (split; [reflexivity|]); (split; [by apply Hinv|]); (split; [done|]);
      intros Hk; destruct (Hnew Hk) as [Hnew' ->], (Hm Hk) as [-> ->]; (split; [done|]).
    + symmetry in Hnew'. apply bool_decide_eq_true in Hnew'. by rewrite decide_False.
    + symmetry in Hnew'. apply bool_decide_eq_false, dec_stable in Hnew'. by rewrite decide_True.
  - destruct (getBackDataCounter_spec s1 Hb) as (n & b & -> & Hb' & Hown). cbv beta iota.
    destruct (Z.ltb_spec 1 n); do 3 eexists; (split; [reflexivity|]); (split; [by apply Hinv|]); (split; [done|]);
      intros Hk; (split; [by rewrite forwarded_direct|]); destruct (Hown Hk) as [Hnew Hold], (Hm Hk) as [-> ->].
    + rewrite decide_True; [done|]. apply dec_stable. intros Hs. specialize (Hnew Hs). lia.
    + rewrite decide_False; [done|]. intros Hs. specialize (Hold Hs (or_intror Hns)). lia.
Qed.

(** A fragment goes into the collector, before and after it was stamped. *)
Lemma collect_piece s pc m :
  parts_inv hist pc → several pk → m = pk ∨ m = stamp s pk →
  ∃ r pc', collect collector_capacity m size pc = Ok (r, pc') ∧ parts_inv (hist ++ [(pk, size)]) pc' ∧
    (r = None ∨ r = Some (ms_bytes (msg (k_HashBlock pk)))) ∧ (k_HashBlock pk = k → r ≠ None ↔ completes parts hist pk).
Proof.
  intros (hc & Htr & Hseen & Hqs) Hs Hm.
  assert (k_HashBlock m = k_HashBlock pk ∧ k_header m = k_header pk ∧
    (fragment (parts (k_HashBlock pk)) pk size → fragment (parts (k_HashBlock pk)) m size)) as (Hk & Hh & Hfr)
    by (destruct Hm as [-> | ->]; done).
  destruct (collect_tracked collector_capacity parts k (others k hist) hc pc m size Htr) as (r & hc1 & pc' & E & Htr' & Hs1 & Hq' & Hr).
  - rewrite Hk. by destruct Hpiece as (_ & _ & _ & Hok & _).
  - rewrite Hk. apply Hfr. pose proof Hpiece as (_ & _ & _ & _ & _ & Hp). unfold several in Hs.
    by destruct (ms_parts (msg (k_HashBlock pk))) as [|p [|q ps]].
  - unfold collector_capacity. lia.
  - rewrite Hk. intros Hnin. by eapply (room_for_piece hc pc (proj1 Htr)).
  - exists r, pc'. split; [done|]. split; [|split].
    + destruct Htr' as (Hc' & Hl' & Hrec'). exists (hc1 ++ [(pk, size)]).
      assert (∀ x, x ∈ pc_queue pc' → ∃ m, m ∈ hist ++ [(pk, size)] ∧ k_HashBlock m.1 = x) as Hqs'.
      { intros x [(y & Hy & Ey)%Hqs| ->]%Hq'.
        - exists y. split; [|done]. apply elem_of_app. by left.
        - exists (pk, size). split; [|done]. apply elem_of_app. right. by left. }
      split; [|split; [|exact Hqs']].
      * split; [by apply (coll_inv_same _ pk m)|]. split; [done|]. rewrite Hk in Hrec'.
        eapply recent_window; [exact Hrec'|done|].
        intros Hna. apply Forall_forall. intros x Hx ->. by apply Hna, arrived_elem, Hqs'.
      * intros Hs' j. by rewrite !seen_snoc, Hs1, (Hseen Hs').
    + rewrite Hk in Hr. destruct Hr as [[_ ->]|[_ ->]]; auto.
    + intros Hkk. assert (completes parts hc1 m ↔ completes parts hist pk) as Hcc.
      { unfold completes. rewrite Hk, Hh, Hkk. unfold several in Hs. rewrite Hkk in Hs. setoid_rewrite Hs1.
        setoid_rewrite (Hseen Hs). done. }
      rewrite <- Hcc. destruct Hr as [[? ->]|[? ->]]; split; done.
Qed.

Lemma several_headers :
  several pk → 0 < k_countHeader pk <= MAX_PART ∧ k_header pk < k_countHeader pk ∧ 0 <= size <= Z.of_nat max_length.
Proof.
  intros Hs. pose proof Hpiece as (_ & _ & _ & Hok & _ & Hp). unfold several in Hs.
  assert (fragment (parts (k_HashBlock pk)) pk size) as (j & p & Hj & Hp' & Hc & Hsz & _).
  { cbv beta. by destruct (ms_parts (msg (k_HashBlock pk))) as [|q [|q' ps]]. }
  pose proof (lookup_lt_Some _ _ _ Hp'). destruct Hok as [Hn (front & back & E & Hf & Hb)].
  unfold MAX_PART. split; [lia|]. split; [lia|]. rewrite Hsz. split; [lia|].
  cbv beta in Hp'. rewrite E in Hp'. apply lookup_app_Some in Hp' as [Hp'|[_ Hp']].
  - rewrite Forall_lookup in Hf. rewrite (Hf _ _ Hp'). lia.
  - apply list_lookup_singleton_Some in Hp' as [_ <-]. lia.
Qed.

(** What the packets of the message make a session do. *)
Definition delivery (calls : list node_call) : Prop :=
  (completes parts hist pk ∧ ∃ data, calls = ms_call (msg k) data ∧
     take (length (ms_bytes (msg k))) data = ms_bytes (msg k)) ∨
  (¬ completes parts hist pk ∧ calls = []).

(** A fragment of a message of several packets. *)
Lemma receive_several s bytes sender :
  sess_inv hist s → several pk → bytes = headerLength + size → received s bytes sender delivery.
Proof.
  intros [Hcoll Hb] Hs ->. pose proof Hpiece as (Hcmd & Hsub & Hip & _).
  destruct (several_headers Hs) as (Hcnt & Hhd & Hsz).
  unfold received, InputServiceHandleReceive. set (s1 := addToRingBuffer sender s).
  replace (u64 (headerLength + size - headerLength)) with size by (pose proof max_length_Z; width_lia).
  unfold handle_parts. destruct (Z.ltb_spec 0 (k_countHeader pk)); [|lia].
  destruct (Z.ltb_spec MAX_PART (k_countHeader pk)); [lia|]. destruct (Z.leb_spec (k_countHeader pk) (k_header pk)); [lia|]. cbn [orb].
  assert (∀ data, k_HashBlock pk = k →
    completes parts hist pk → take (length (ms_bytes (msg (k_HashBlock pk)))) data = ms_bytes (msg (k_HashBlock pk)) →
    delivery (ms_call (msg (k_HashBlock pk)) data)) as Hdel by (intros data Hk Hc; rewrite Hk; intros Hd; left; split; [done|]; by exists data).
  unfold ms_call in Hdel. rewrite <- Hcmd, <- Hsub, <- Hip in Hdel.
  destruct (Z.eqb_spec (k_command pk) Cmd_Redirect) as [Hr|Hr].
  - destruct (RunRedirect_spec s1 Hb Hr) as (new & m' & sent & b & -> & Hb' & Hm' & Hnew). cbv beta iota.
    change (se_packets (assign_back b s1)) with (se_packets s).
    destruct (collect_piece s1 _ m' Hcoll Hs Hm') as (r & pc' & -> & Hcoll' & Hcase & Hcomp). rewrite bind_Ok. cbv beta iota.
    destruct Hcase as [-> | ->]; rewrite bind_Ok; cbv beta iota.
    + do 3 eexists. split; [reflexivity|]. split; [done|]. split; [done|].
      intros Hk. split; [by apply Hnew|]. right. split; [|done]. intros Hc. by apply (Hcomp Hk) in Hc.
    + assert (k_command m' = k_command pk ∧ k_subcommand m' = k_subcommand pk ∧ k_origin_ip m' = k_origin_ip pk) as (-> & -> & ->)
        by by destruct Hm' as [-> | ->].
      rewrite (proj2 (Z.eqb_eq _ _) Hr) in *. do 3 eexists. split; [reflexivity|]. split; [done|]. split; [done|].
      intros Hk. split; [by apply Hnew|]. apply Hdel; [done|by apply Hcomp|].
      cbn [se_combinedData assign_combined]. by rewrite take_app_length.
  - destruct (collect_piece s1 _ pk Hcoll Hs (or_introl eq_refl)) as (r & pc' & E & Hcoll' & Hcase & Hcomp).
    cbv beta iota. change (se_packets s1) with (se_packets s). rewrite E, bind_Ok. cbv beta iota.
    destruct Hcase as [-> | ->]; rewrite bind_Ok; cbv beta iota.
    + do 3 eexists. split; [reflexivity|]. split; [|split; [done|]].
      * split; [done|]. apply back_skip; [done|]. intros [|]; done.
      * intros Hk. split; [by rewrite forwarded_direct|]. right. split; [|done]. intros Hc. by apply (Hcomp Hk) in Hc.
    + rewrite (proj2 (Z.eqb_neq _ _) Hr) in *. set (s2 := assign_combined _ _).
      destruct (getBackDataCounter_spec s2 Hb) as (n & b & -> & Hb' & Hown). cbv beta iota.
      destruct (Z.ltb_spec 1 n); do 3 eexists; (split; [reflexivity|]); (split; [done|]); (split; [done|]);
        intros Hk; (split; [by rewrite forwarded_direct|]); assert (completes parts hist pk) as Hc by by apply Hcomp.
      * destruct (Hown Hk) as [Hnew _]. exfalso. assert (n = 1); [|lia]. apply Hnew. rewrite <- Hk. by apply Hc.
      * apply Hdel; [done|done|]. cbn [se_combinedData assign_combined s2]. by rewrite take_app_length.
Qed.

Lemma completes_single :
  ¬ several pk → completes parts hist pk ↔ ¬ seen hist (k_HashBlock pk) i.
Proof.
  intros Hs. apply dec_stable in Hs. unfold completes. split; [intros [H _]; by apply H|].
  intros Hn. split; [intros i' Hi'; by replace i' with i by lia|]. intros j Hj. right.
  destruct (piece_header _ _ _ Hpiece) as (i' & Hi' & Hlt & _). lia.
Qed.

Lemma receive_spec s bytes sender :
  sess_inv hist s → bytes = headerLength + size → received s bytes sender delivery.
Proof.
  intros Hinv Hb. destruct (decide (several pk)) as [Hs|Hs]; [by apply receive_several|].
  destruct (receive_single s bytes sender Hinv Hs Hb) as (calls & sent & s' & E & Hinv' & Hsame & Hown).
  exists calls, sent, s'. split; [done|]. split; [done|]. split; [done|]. intros Hk. destruct (Hown Hk) as [Hsent Hcalls].
  split; [done|]. unfold delivery. rewrite completes_single, Hk by done.
  destruct (decide (seen hist k i)); [right; auto|left]. split; [done|]. by exists (k_data pk).
Qed.
End Step.

(** ** Histories *)

(** A datagram, as the packet and the size of its data. *)
Definition arrival (d : Packet * Z * Z) : Packet * Z := (d.1.1, d.2 - headerLength).

(** The ring after the senders of datagrams were placed in it. *)
Definition ring_after (s : SessionIO) (ds : list (Packet * Z * Z)) : NodesRing :=
  foldl (λ r d, (NodesRing_place ring_capacity (endpoint_of d.1.2 s) r).2) (se_nodesRing s) ds.

Definition forwarding (hist : list (Packet * Z)) (s : SessionIO) (ring : NodesRing) (m : Packet * Z) : list datagram :=
  if decide (k_command m.1 = Cmd_Redirect ∧ ¬ seen hist (k_HashBlock m.1) (Z.to_nat (k_header m.1)))
  then (λ ep, mkDatagram (stamp s m.1) (u64 (m.2 + headerLength)) ep) <$> nr_endpoints ring
  else [].

Lemma receive_all_spec hist s0 ds s :
  sess_inv hist s → pieces (hist ++ (arrival <$> ds)) → window_fits k (hist ++ (arrival <$> ds)) →
  se_MyHash s = se_MyHash s0 → se_MyPublicKey s = se_MyPublicKey s0 →
  ∃ outs s', receive_all ds s = Ok (outs, s') ∧
    ∀ j d, ds !! j = Some d → k_HashBlock d.1.1 = k → ∃ calls,
      outs !! j = Some (calls, forwarding (hist ++ take j (arrival <$> ds)) s0 (ring_after s (take (S j) ds)) (arrival d)) ∧
      delivery (hist ++ take j (arrival <$> ds)) d.1.1 calls.
Proof.
  revert hist s. induction ds as [|[[pk sender] bytes] ds IH]; intros hist s Hinv Hps Hfits HH HK.
  { by exists [], s. }
  assert (piece (msg (k_HashBlock pk)) pk (bytes - headerLength)) as Hp.
  { apply (Hps (pk, bytes - headerLength)), elem_of_app. right. by left. }
  destruct (piece_header _ _ _ Hp) as (i & Hi & _).
  rewrite fmap_cons, cons_middle, app_assoc in Hfits, Hps. change (arrival (pk, sender, bytes)) with (pk, bytes - headerLength) in Hfits, Hps.
  destruct (receive_spec hist pk (bytes - headerLength) i) with (s := s) (bytes := bytes) (sender := sender)
    as (calls & sent & s1 & E & Hinv1 & (Hr & Hh & Hk & Hsig) & Hown); [|done|done|by eapply window_fits_prefix|done|lia|].
  { intros m Hm. apply Hps. apply elem_of_app. left. apply elem_of_app. by left. }
  destruct (IH (hist ++ [(pk, bytes - headerLength)]) s1 Hinv1 Hps Hfits) as (outs & s' & E' & Houts).
  { by rewrite Hh. }
  { by rewrite Hk. }
  exists ((calls, sent) :: outs), s'.
  split; [cbn [receive_all]; by rewrite E, bind_Ok, E', bind_Ok|]. intros [|j] d Hd Hdk.
  - injection Hd as <-. destruct (Hown Hdk) as [-> Hcalls]. rewrite app_nil_r. exists calls. split; [|done].
    cbn [lookup list_lookup]. f_equal. f_equal.
    unfold forwarded, forwarding. cbn [fst snd arrival]. rewrite Hi, Nat2Z.id. destruct (decide _); [|done].
    unfold outSendPack_all. cbn [ring_after foldl take fst snd]. unfold stamp at 1. unfold stamp.
    change (se_MyHash (addToRingBuffer sender s)) with (se_MyHash s).
    change (se_MyPublicKey (addToRingBuffer sender s)) with (se_MyPublicKey s). by rewrite HH, HK.
  - destruct (Houts j d Hd Hdk) as (calls' & Ho & Hdel). exists calls'.
    rewrite fmap_cons. change (arrival (pk, sender, bytes)) with (pk, bytes - headerLength).
    rewrite !firstn_cons, cons_middle, app_assoc. split; [|done]. etrans; [exact Ho|]. f_equal. f_equal. f_equal.
    unfold ring_after. cbn [foldl fst snd]. rewrite Hr. unfold endpoint_of. by rewrite Hsig.
Qed.

End Tracked.

End Receive.

(** ** A session that starts *)

(** A session that has not received anything. *)
Definition session_starts (s : SessionIO) : Prop :=
  se_packets s = PacketCollector_empty ∧ se_backData s = CircularMap_empty.

Lemma session_starts_inv msg k s : session_starts s → sess_inv msg k [] s.
Proof.
  intros [Hp Hb]. split.
  - rewrite Hp. exists []. split; [|split; [done|by intros x ?%elem_of_nil]].
    split; [apply coll_inv_empty|]. split; [cbn; lia|]. by apply recent_none.
  - rewrite Hb. exists []. split; [|split; [by intros m ?%elem_of_nil|split; [by intros x ?%elem_of_nil|done]]].
    split; [apply counts_history_empty|]. split; [cbn; lia|]. by apply recent_none.
Qed.

(** When all packets of a message have arrived, one of them leads to the call. *)
Lemma session_delivery msg ds s k :
  session_starts s → pieces msg (arrival <$> ds) → window_fits k (arrival <$> ds) →
  parts_ok (ms_parts (msg k)) →
  (∀ i, (i < length (ms_parts (msg k)))%nat → seen (arrival <$> ds) k i) →
  ∃ outs s' j d data, receive_all ds s = Ok (outs, s') ∧ ds !! j = Some d ∧ k_HashBlock d.1.1 = k ∧
    fst <$> outs !! j = Some (ms_call (msg k) data) ∧
    take (length (ms_bytes (msg k))) data = ms_bytes (msg k) ∧
    ∀ j' d', ds !! j' = Some d' → k_HashBlock d'.1.1 = k → j' ≠ j → fst <$> outs !! j' = Some [].
Proof.
  intros Hst Hps Hfits Hok Hall. destruct (length_concat_parts _ Hok) as [_ Hpos].
  assert (take 2 k = [0; 0]) as Hk0.
  { destruct (Hall 0%nat Hpos) as (m & Hm & <- & _). by destruct (Hps m Hm) as (_ & _ & _ & _ & Hz & _). }
  destruct (receive_all_spec msg k Hk0 [] s ds s (session_starts_inv msg k s Hst) Hps Hfits eq_refl eq_refl) as (outs & s' & E & Houts).
  destruct (completes_once (λ k, ms_parts (msg k)) (arrival <$> ds) k) as (j & m & Hm & Hmk & Hc & Hother).
  { intros m Hm <-. destruct (piece_header msg _ _ _ (Hps m Hm)) as (i & Hi & Hlt & _). eauto. }
  { done. }
  { done. }
  rewrite list_lookup_fmap in Hm. destruct (ds !! j) as [d|] eqn:Ed; [|done]. injection Hm as <-. unfold msg_key in Hmk. cbn in Hmk.
  destruct (Houts j d Ed Hmk) as (calls & Hj & Hdel). cbn [app] in Hdel.
  destruct Hdel as [[_ (data & -> & Hd)]|[Hn _]]; [|done].
  exists outs, s', j, d, data. split; [exact E|]. split; [done|]. split; [done|]. split; [by rewrite Hj|]. split; [done|].
  intros j' d' Hd' Hk' Hne. destruct (Houts j' d' Hd' Hk') as (calls' & Hj' & Hdel'). rewrite Hj'. cbn.
  destruct Hdel' as [[Hc' _]|[_ ->]]; [|done]. exfalso.
  apply (Hother j' (arrival d')); [by rewrite list_lookup_fmap, Hd'|done|done|done].
Qed.

(** ** Properties *)

(** C12: the transport delivers a message once, within what a session remembers.
    Well-formed packets of messages, each message with an identifier of its own,
    arrive at a session that has just started, in any order, repeated, mixed,
    redirected or direct, any number of them before the first packet of the message.
    If fewer than 1000 packets of other messages come after that one, and fewer than
    2^32 of the message itself, then no datagram leads to an error, and when all
    packets of the message have arrived, exactly one of their datagrams makes the
    session call the node, with exactly the bytes of the message. *)
Theorem session_delivers_once msg ds s k :
  session_starts s → pieces msg (arrival <$> ds) → window_fits k (arrival <$> ds) →
  parts_ok (ms_parts (msg k)) →
  (∀ i, (i < length (ms_parts (msg k)))%nat → seen (arrival <$> ds) k i) →
  ∃ outs s' j d data, receive_all ds s = Ok (outs, s') ∧ ds !! j = Some d ∧ k_HashBlock d.1.1 = k ∧
    fst <$> outs !! j = Some (ms_call (msg k) data) ∧
    take (length (ms_bytes (msg k))) data = ms_bytes (msg k) ∧
    ∀ j' d', ds !! j' = Some d' → k_HashBlock d'.1.1 = k → j' ≠ j → fst <$> outs !! j' = Some [].
Proof. apply session_delivery. Qed.

Lemma ring_after_inv s ds : ring_inv ring_capacity (se_nodesRing s) → ring_inv ring_capacity (ring_after s ds).
Proof.
  intros Hr. unfold ring_after. induction ds as [|d ds IH] using rev_ind; [done|]. rewrite foldl_snoc.
  pose proof (NodesRing_place_inv ring_capacity (endpoint_of d.1.2 s) _ ltac:(unfold ring_capacity; lia) IH) as Hp.
  by destruct (NodesRing_place _ _ _), Hp as [? _].
Qed.

Lemma ring_after_sender s ds d :
  ring_inv ring_capacity (se_nodesRing s) → endpoint_of d.1.2 s ∈ nr_endpoints (ring_after s (ds ++ [d])).
Proof.
  intros Hr. apply (ring_after_inv s ds) in Hr. unfold ring_after in *. rewrite foldl_snoc.
  pose proof (NodesRing_place_inv ring_capacity (endpoint_of d.1.2 s) _ ltac:(unfold ring_capacity; lia) Hr) as Hp.
  by destruct (NodesRing_place _ _ _), Hp as (_ & ? & _).
Qed.

(** A session that knows one node, and a broadcast block in two packets: the second
    arrives first, and twice. *)
Definition sample_session : SessionIO :=
  mkSessionIO [1] [2] 10 99 (mkNodesRing {[(7, 9001)]} [(7, 9001)]) CircularMap_empty PacketCollector_empty [] (replicate 96 0)
    (TaskManager_new 0) (λ _, sample_packet 0 []) 0 false false.

Definition sample_message (k : byte_array) : message := mkMessage two_parts Cmd_Redirect Sub_GetBlock 10.

Definition sample_arrival (header : Z) (data : byte_array) (size : Z) : Packet * Z * Z :=
  (mkPacket Cmd_Redirect Sub_GetBlock 1 10 [] [] [0; 0; 7] header 2 data, 7, headerLength + size).

Definition sample_arrivals : list (Packet * Z * Z) :=
  [sample_arrival 1 [2; 3; 9] 2; sample_arrival 1 [2; 3; 9] 2; sample_arrival 0 (replicate max_length 1) (Z.of_nat max_length)].

Lemma sample_pieces : pieces sample_message (arrival <$> sample_arrivals).
Proof.
  assert (∀ i p data, two_parts !! i = Some p → take (length p) data = p →
    piece (sample_message [0; 0; 7]) (sample_arrival (Z.of_nat i) data (Z.of_nat (length p))).1.1 (Z.of_nat (length p))) as H.
  { intros i p data Hp Hd. do 3 (split; [done|]). split; [apply two_parts_ok|]. split; [done|]. by exists i, p. }
  assert (∀ i p data, two_parts !! i = Some p → take (length p) data = p →
    piece (sample_message [0; 0; 7]) (arrival (sample_arrival (Z.of_nat i) data (Z.of_nat (length p)))).1
      (arrival (sample_arrival (Z.of_nat i) data (Z.of_nat (length p)))).2) as H'.
  { intros i p data Hp Hd. cbn [arrival sample_arrival fst snd].
    replace (headerLength + Z.of_nat (length p) - headerLength) with (Z.of_nat (length p)) by lia. by apply H. }
  intros m Hm. unfold sample_arrivals in Hm. rewrite !fmap_cons, fmap_nil in Hm.
  apply elem_of_cons in Hm as [->|Hm]; [exact (H' 1%nat [2; 3] [2; 3; 9] eq_refl eq_refl)|].
  apply elem_of_cons in Hm as [->|Hm]; [exact (H' 1%nat [2; 3] [2; 3; 9] eq_refl eq_refl)|].
  apply list_elem_of_singleton in Hm as ->.
  pose proof (H' 0%nat (replicate max_length 1) (replicate max_length 1) eq_refl) as H0. rewrite length_replicate in H0.
  apply H0, take_ge. by rewrite length_replicate.
Qed.

Lemma sample_fits : window_fits [0; 0; 7] (arrival <$> sample_arrivals).
Proof. split; [|done]. change (0 < collector_capacity)%nat. unfold collector_capacity. lia. Qed.

Lemma sample_starts : session_starts sample_session.
Proof. done. Qed.

Lemma session_delivers_once_witness :
  ∃ outs s' j data, receive_all sample_arrivals sample_session = Ok (outs, s') ∧
    fst <$> outs !! j = Some [Call_getBlock data (Z.of_nat (length (replicate max_length 1 ++ [2; 3]))) 10] ∧
    take (length (replicate max_length 1 ++ [2; 3])) data = replicate max_length 1 ++ [2; 3].
Proof.
  destruct (session_delivers_once sample_message sample_arrivals sample_session [0; 0; 7] sample_starts sample_pieces sample_fits
    two_parts_ok) as (outs & s' & j & d & data & E & _ & _ & Hj & Hd & _).
  - intros [|[|i]] Hi; [| |cbn in Hi; lia].
    + exists (arrival (sample_arrival 0 (replicate max_length 1) (Z.of_nat max_length))). split; [right; right; by left|done].
    + exists (arrival (sample_arrival 1 [2; 3; 9] 2)). split; [by left|done].
  - exists outs, s', j, data. split; [exact E|]. unfold ms_bytes, sample_message, two_parts in *. cbn [ms_parts concat] in *.
    rewrite app_nil_r in *. split; [exact Hj|exact Hd].
Defined.

(** Redirected packets flood the network once: the first time a redirected
    packet arrives, the session sends it to every known node, the sender of the
    datagram among them, once to each and with the session's own hash and key;
    later copies of it, and packets that are not redirected, are not sent on.  As
    above, fewer than 1000 packets of other messages come after the first packet
    of its message. *)
Theorem session_forwards_once msg ds s j d :
  session_starts s → ring_inv ring_capacity (se_nodesRing s) →
  pieces msg (arrival <$> ds) → ds !! j = Some d → window_fits (k_HashBlock d.1.1) (arrival <$> ds) →
  ∃ outs s', receive_all ds s = Ok (outs, s') ∧
    let ring := ring_after s (take (S j) ds) in
    let new := k_command d.1.1 = Cmd_Redirect ∧
               ¬ seen (take j (arrival <$> ds)) (k_HashBlock d.1.1) (Z.to_nat (k_header d.1.1)) in
    NoDup (nr_endpoints ring) ∧ endpoint_of d.1.2 s ∈ nr_endpoints ring ∧
    (new → snd <$> outs !! j
           = Some ((λ ep, mkDatagram (stamp s d.1.1) (u64 (d.2 - headerLength + headerLength)) ep) <$> nr_endpoints ring)) ∧
    (¬ new → snd <$> outs !! j = Some []).
Proof.
  intros Hst Hr Hps Hd Hfits.
  assert (take 2 (k_HashBlock d.1.1) = [0; 0]) as Hk0.
  { destruct (Hps (arrival d)) as (_ & _ & _ & _ & Hz & _); [|done].
    apply (list_elem_of_fmap_2 arrival). by eapply list_elem_of_lookup_2. }
  destruct (receive_all_spec msg _ Hk0 [] s ds s (session_starts_inv msg _ s Hst) Hps Hfits eq_refl eq_refl) as (outs & s' & E & Houts).
  exists outs, s'. split; [exact E|]. cbv zeta. split; [by apply (ring_after_inv s _ Hr)|].
  split; [rewrite (take_S_r _ _ d Hd); by apply ring_after_sender|].
  destruct (Houts j d Hd eq_refl) as (calls & -> & _). unfold forwarding. cbn [app fst snd arrival].
  split; intros Hn; cbn; [by rewrite decide_True|by rewrite decide_False].
Qed.

Lemma session_forwards_once_witness :
  ∃ outs s', receive_all sample_arrivals sample_session = Ok (outs, s') ∧
    snd <$> outs !! 1%nat = Some [] ∧ dg_to <$> default [] (snd <$> outs !! 0%nat) = [(7, 9001)].
Proof.
  assert (ring_inv ring_capacity (se_nodesRing sample_session)) as Hr.
  { split; [apply NoDup_singleton|]. split; [intros e; cbn [sample_session se_nodesRing nr_nodes nr_endpoints]; by rewrite elem_of_singleton, list_elem_of_singleton|]. cbn. unfold ring_capacity. lia. }
  destruct (session_forwards_once sample_message sample_arrivals sample_session 0 (sample_arrival 1 [2; 3; 9] 2)
    sample_starts Hr sample_pieces eq_refl sample_fits) as (outs & s' & E & _ & _ & H0 & _).
  destruct (session_forwards_once sample_message sample_arrivals sample_session 1 (sample_arrival 1 [2; 3; 9] 2)
    sample_starts Hr sample_pieces eq_refl sample_fits) as (outs1 & s1 & E1 & _ & _ & _ & H1).
  rewrite E in E1. injection E1 as <- <-. exists outs, s'. split; [exact E|]. split.
  - apply H1. intros [_ Hn]. apply Hn. exists (arrival (sample_arrival 1 [2; 3; 9] 2)).
    change (take 1 (arrival <$> sample_arrivals)) with [arrival (sample_arrival 1 [2; 3; 9] 2)].
    split; [by apply list_elem_of_singleton|by split].
  - rewrite H0; [by vm_compute|]. split; [done|]. change (take 0 (arrival <$> sample_arrivals)) with ([] : list (Packet * Z)).
    intros (m & Hm & _). by apply elem_of_nil in Hm.
Defined.

(** ** Sending *)

(** Memory and counter are all that [getEmptyPacket] changes. *)
Lemma new_packets_spec parts s :
  let '(ps, s') := new_packets parts s in
  ps = seq (se_fresh s) (length parts) ∧
  s' = assign_memory (se_memory s') (assign_fresh (se_fresh s + length parts) s) ∧
  (∀ i d, parts !! i = Some d → take (length d) (k_data (se_memory s' (se_fresh s + i)%nat)) = d) ∧
  (∀ q, (q < se_fresh s)%nat → se_memory s' q = se_memory s q).
Proof.
  revert s. induction parts as [|d parts IH]; intros s; cbn [new_packets new_packet].
  { split; [done|]. split; [rewrite Nat.add_0_r; by destruct s|]. done. }
  set (p := se_fresh s). set (s1 := write_packet p _ _). specialize (IH s1).
  destruct (new_packets parts s1) as [ps s']. destruct IH as (-> & Hs & Hd & Ho).
  assert (se_fresh s1 = S p) as Hf by done. rewrite Hf in *. split; [done|]. split; [|split].
  - rewrite Hs at 1. cbn [length]. rewrite Nat.add_succ_r. done.
  - intros [|i] d' Hi.
    + injection Hi as <-. rewrite Nat.add_0_r, Ho by lia. cbn. rewrite Nat.eqb_refl. cbn. by rewrite take_app_length.
    + rewrite Nat.add_succ_r. by apply (Hd i d').
  - intros q Hq. rewrite Ho by lia. cbn. destruct (Nat.eqb_spec q p); [lia|done].
Qed.

Lemma copy_headers_spec front i packets s :
  front ∉ packets → NoDup packets →
  let s' := copy_headers front i packets s in
  s' = assign_memory (se_memory s') s ∧ (∀ q, q ∉ packets → se_memory s' q = se_memory s q) ∧
  ∀ j p, packets !! j = Some p →
    se_memory s' p = set_headers (u16 (Z.of_nat (i + j))) (k_countHeader (se_memory s front))
                       (copy_header (se_memory s front) (se_memory s p)).
Proof.
  revert i s. induction packets as [|p packets IH]; intros i s Hf Hnd; cbn [copy_headers].
  { split; [by destruct s|]. done. }
  apply NoDup_cons in Hnd as [Hp Hnd]. apply not_elem_of_cons in Hf as [Hfp Hf].
  set (s1 := write_packet p _ _). destruct (IH (S i) s1 Hf Hnd) as (Hs & Ho & Hc).
  assert (∀ q, q ≠ p → se_memory s1 q = se_memory s q) as H1.
  { intros q Hq. cbn. by destruct (Nat.eqb_spec q p). }
  split; [by rewrite Hs at 1|]. split.
  - intros q Hq. apply not_elem_of_cons in Hq as [Hq1 Hq2]. rewrite Ho by done. by apply H1.
  - intros [|j] q Hq.
    + injection Hq as <-. rewrite Ho by done. cbn. rewrite Nat.eqb_refl, Nat.add_0_r. done.
    + change (packets !! j = Some q) in Hq. rewrite (Hc j q Hq), (H1 front), (H1 q) by (done || (intros ->; by apply list_elem_of_lookup_2 in Hq)).
      by rewrite Nat.add_succ_r.
Qed.

(** The packet with the part number [i] of [n]. *)
Definition numbered (cmd sub : Z) (key : byte_array) (n i : nat) (data : byte_array) (s : SessionIO) : Packet :=
  mkPacket cmd sub 1 (se_MyIp s) (se_MyHash s) (se_MyPublicKey s) key
    (if (n =? 1)%nat then 0 else u16 (Z.of_nat i)) (if (n =? 1)%nat then 0 else u16 (Z.of_nat n)) data.

Lemma createSendTasks_spec ps cmd sub lastSize s front rest :
  ps = front :: rest → NoDup ps →
  let s' := createSendTasks ps cmd sub lastSize s in
  let n := length ps in
  let key := (nextHash (take (if (n =? 1)%nat then Z.to_nat lastSize else max_length) (k_data (se_memory s front)))
                (se_hasher s)).1 in
  s' = assign_memory (se_memory s') (assign_hasher (se_hasher s') s) ∧
  ∀ i p, ps !! i = Some p → se_memory s' p = numbered cmd sub key n i (k_data (se_memory s p)) s.
Proof.
  intros -> Hnd s' n key. apply NoDup_cons in Hnd as [Hf Hnd]. subst s'. unfold createSendTasks. fold n.
  unfold numbered, outFrmPack.
  replace (Z.to_nat (if (n =? 1)%nat then lastSize else Z.of_nat max_length))
    with (if (n =? 1)%nat then Z.to_nat lastSize else max_length) by (destruct (n =? 1)%nat; lia).
  fold key. subst key. destruct (nextHash _ _) as [hb internal]. cbn [fst].
  destruct (n =? 1)%nat eqn:En.
  - split; [done|]. intros [|i] p Hi.
    + injection Hi as <-. cbn. rewrite !Nat.eqb_refl. cbn. done.
    + exfalso. apply Nat.eqb_eq in En. apply lookup_lt_Some in Hi. cbn in *. lia.
  - set (s1 := write_packet front (set_headers _ _ _) _).
    destruct (copy_headers_spec front 1 rest s1 Hf Hnd) as (Hs & Ho & Hc).
    assert (se_memory s1 front = mkPacket cmd sub 1 (se_MyIp s) (se_MyHash s) (se_MyPublicKey s) hb 0 (u16 (Z.of_nat n))
              (k_data (se_memory s front))) as Hfront.
    { cbn. rewrite !Nat.eqb_refl. done. }
    assert (∀ q, q ≠ front → se_memory s1 q = se_memory s q) as H1.
    { intros q Hq. cbn. by destruct (Nat.eqb_spec q front). }
    split.
    { etrans; [exact Hs|]. assert (se_hasher (copy_headers front 1 rest s1) = internal) as -> by by rewrite Hs. done. }
    intros [|i] p Hi.
    + injection Hi as <-. by rewrite Ho, Hfront by done.
    + change (rest !! i = Some p) in Hi. rewrite (Hc i p Hi), Hfront, H1; [done|]. intros ->. by apply list_elem_of_lookup_2 in Hi.
Qed.

(** A new task is launched by the next run. *)
Lemma added_task_runs {A} (f : Task → list A) t m clock :
  (∀ j, tk_nextLaunch t <= clock j) →
  ∃ rest m', TaskManager_run f clock (TaskManager_add t m).2 = (f (with_id (tm_ids m) t) ++ rest, m').
Proof.
  intros Hc. rewrite TaskManager_run_passes.
  - cbn [TaskManager_add snd tm_tasks]. rewrite imap_cons, concat_cons. unfold due at 1.
    destruct (Z.leb_spec (tk_nextLaunch (with_id (tm_ids m) t)) (clock 1%nat)) as [_|Hx]; [by do 2 eexists|].
    specialize (Hc 1%nat). cbn in Hx. lia.
  - cbn. specialize (Hc 0%nat). case_bool_decide; cbn [orb]; [lia|]. destruct (Z.ltb_spec (tk_nextLaunch t) (tm_nextTime m)); lia.
Qed.

(** What the node does to broadcast the packets of its output stream. *)
Definition send_broadcast (now : Z) (o : OPackStream) (sub : Z) (s : SessionIO) : nat * SessionIO :=
  let '(ps, s) := new_packets (ostream_get o) s in addTaskBroadcast now ps sub (ostream_lastSize o) s.

Definition send_direct (now : Z) (o : OPackStream) (cmd sub ip : Z) (s : SessionIO) : nat * SessionIO :=
  let '(ps, s) := new_packets (ostream_get o) s in addTaskDirect now ps cmd sub (ostream_lastSize o) ip s.

(** The identifier of the message that the session sends next. *)
Definition next_key (o : OPackStream) (s : SessionIO) : byte_array :=
  (nextHash (match ostream_get o with d :: _ => d | [] => [] end) (se_hasher s)).1.

(** A datagram with the part number [i] of a stream. *)
Definition carries (o : OPackStream) (cmd sub : Z) (s : SessionIO) (i : nat) (dg : datagram) : Prop :=
  ∃ d data, ostream_get o !! i = Some d ∧ take (length d) data = d ∧
    dg_packet dg = numbered cmd sub (next_key o s) (length (ostream_get o)) i data s ∧
    dg_size dg = headerLength + Z.of_nat (length d).

(** The packets of a stream, after [createSendTasks]. *)
Lemma stream_packets o cmd sub s ps s1 :
  ostream_ok o → new_packets (ostream_get o) s = (ps, s1) →
  let s2 := createSendTasks ps cmd sub (ostream_lastSize o) s1 in
  se_nodesRing s2 = se_nodesRing s ∧ se_signalServerAddr s2 = se_signalServerAddr s ∧ se_taskman s2 = se_taskman s ∧
  ps = seq (se_fresh s) (length (ostream_get o)) ∧
  ∀ i d, ostream_get o !! i = Some d → ∃ data, take (length d) data = d ∧
    se_memory s2 (se_fresh s + i)%nat = numbered cmd sub (next_key o s) (length (ostream_get o)) i data s.
Proof.
  intros [Hdone Hcur] E s2. pose proof (new_packets_spec (ostream_get o) s) as Hn. rewrite E in Hn.
  destruct Hn as (-> & Hs1 & Hd & _).
  assert (∃ d0 ds, ostream_get o = d0 :: ds) as (d0 & ds & Eo).
  { unfold ostream_get. destruct (os_done o); by do 2 eexists. }
  destruct (createSendTasks_spec (seq (se_fresh s) (length (ostream_get o))) cmd sub (ostream_lastSize o) s1
              (se_fresh s) (seq (S (se_fresh s)) (length ds))) as [Hs2 Hp]; [by rewrite Eo|apply NoDup_seq|].
  fold s2 in Hs2, Hp. rewrite length_seq in Hp.
  assert (take (if (length (ostream_get o) =? 1)%nat then Z.to_nat (ostream_lastSize o) else max_length)
            (k_data (se_memory s1 (se_fresh s))) = d0) as Hkey.
  { pose proof (Hd 0%nat d0 ltac:(by rewrite Eo)) as H0. rewrite Nat.add_0_r in H0.
    replace (if (length (ostream_get o) =? 1)%nat then Z.to_nat (ostream_lastSize o) else max_length) with (length d0); [done|].
    unfold ostream_get, ostream_lastSize in *. destruct (os_done o) as [|e es]; injection Eo as <- _.
    - cbn. lia.
    - apply Forall_cons in Hdone as [? _]. rewrite length_app. destruct (Nat.eqb_spec (length (e :: es) + length [os_cur o]) 1) as [Hl|_]; [|done].
      cbn in Hl. lia. }
  rewrite Hkey in Hp. split; [by rewrite Hs2, Hs1|]. split; [by rewrite Hs2, Hs1|]. split; [by rewrite Hs2, Hs1|]. split; [done|].
  intros i d Hi. exists (k_data (se_memory s1 (se_fresh s + i)%nat)). split; [by apply Hd|].
  rewrite (Hp i (se_fresh s + i)%nat).
  - unfold numbered, next_key. rewrite Hs1, Eo. done.
  - apply lookup_seq. apply lookup_lt_Some in Hi. done.
Qed.

(** The datagrams of a task with the packets of a stream. *)
Lemma task_carries o cmd sub s s2 t :
  ostream_ok o → tk_packets t = seq (se_fresh s) (length (ostream_get o)) →
  tk_lastSize t = u64 (headerLength + ostream_lastSize o) →
  (∀ i d, ostream_get o !! i = Some d → ∃ data, take (length d) data = d ∧
    se_memory s2 (se_fresh s + i)%nat = numbered cmd sub (next_key o s) (length (ostream_get o)) i data s) →
  (∀ dg, dg ∈ task_datagrams s2 t → dg_to dg ∈ tk_receivers t ∧ ∃ i, carries o cmd sub s i dg) ∧
  (∀ i r, (i < length (ostream_get o))%nat → r ∈ tk_receivers t →
     ∃ dg, dg ∈ task_datagrams s2 t ∧ dg_to dg = r ∧ carries o cmd sub s i dg).
Proof.
  intros [Hdone Hcur] Hps Hls Hmem. set (n := length (ostream_get o)) in *.
  assert (∀ i r d, ostream_get o !! i = Some d →
    carries o cmd sub s i (mkDatagram (se_memory s2 (se_fresh s + i)%nat)
      (if (S i =? length (tk_packets t))%nat then tk_lastSize t else headerLength + Z.of_nat max_length) r)) as Hc.
  { intros i r d Hi. destruct (Hmem i d Hi) as (data & Hd & Hm). exists d, data. split; [done|]. split; [done|].
    split; [done|]. cbn [dg_size]. rewrite Hps, length_seq. unfold n, ostream_get, ostream_lastSize in *.
    rewrite length_app. cbn [length]. apply lookup_app_Some in Hi as [Hi|[Hge Hi]].
    - pose proof (lookup_lt_Some _ _ _ Hi). destruct (Nat.eqb_spec (S i) (length (os_done o) + 1)); [lia|].
      rewrite Forall_lookup in Hdone. by rewrite (Hdone _ _ Hi).
    - apply list_lookup_singleton_Some in Hi as [Hz <-]. destruct (Nat.eqb_spec (S i) (length (os_done o) + 1)); [|lia].
      rewrite Hls. pose proof max_length_Z. unfold headerLength, hash_length, publicKey_length. width_lia. }
  assert (∀ dg, dg ∈ task_datagrams s2 t ↔ ∃ i r, (i < n)%nat ∧ r ∈ tk_receivers t ∧
    dg = mkDatagram (se_memory s2 (se_fresh s + i)%nat)
      (if (S i =? length (tk_packets t))%nat then tk_lastSize t else headerLength + Z.of_nat max_length) r) as Hin.
  { intros dg. unfold task_datagrams. rewrite list_elem_of_In, in_concat. split.
    - intros (l & Hl & Hdg). apply list_elem_of_In, list_elem_of_lookup in Hl as (i & Hi).
      rewrite list_lookup_imap in Hi. rewrite Hps in Hi. apply fmap_Some in Hi as (p & Hp & ->).
      apply lookup_seq in Hp as [-> Hlt]. apply list_elem_of_In, list_elem_of_fmap in Hdg as (r & -> & Hr).
      exists i, r. split; [done|]. split; [done|]. by rewrite Hps.
    - intros (i & r & Hi & Hr & ->).
      exists ((λ r, mkDatagram (se_memory s2 (se_fresh s + i)%nat)
        (if (S i =? length (tk_packets t))%nat then tk_lastSize t else headerLength + Z.of_nat max_length) r) <$> tk_receivers t).
      split; apply list_elem_of_In.
      + apply list_elem_of_lookup. exists i. rewrite list_lookup_imap, Hps.
        by rewrite (proj2 (lookup_seq _ _ i (se_fresh s + i)%nat)) by done.
      + apply list_elem_of_fmap. by exists r. }
  split.
  - intros dg (i & r & Hi & Hr & ->)%Hin. split; [done|]. destruct (lookup_lt_is_Some_2 (ostream_get o) i Hi) as [d Hd].
    exists i. by eapply Hc.
  - intros i r Hi Hr. destruct (lookup_lt_is_Some_2 (ostream_get o) i Hi) as [d Hd]. eexists.
    split; [apply Hin; exists i, r; eauto|]. split; [done|]. by eapply Hc.
Qed.

(** The datagrams of a message that goes to some nodes. *)
Definition reaches (o : OPackStream) (cmd sub : Z) (s : SessionIO) (to : list endpoint) (own : list datagram) : Prop :=
  (∀ dg, dg ∈ own → dg_to dg ∈ to ∧ ∃ i, carries o cmd sub s i dg) ∧
  (∀ i r, (i < length (ostream_get o))%nat → r ∈ to → ∃ dg, dg ∈ own ∧ dg_to dg = r ∧ carries o cmd sub s i dg).

Lemma broadcast_sends now o sub s clock :
  ostream_ok o → (∀ j, now <= clock j) →
  ∃ own rest s', senderThreadRoutine clock (send_broadcast now o sub s).2 = (own ++ rest, s') ∧
    reaches o Cmd_Redirect sub s (nr_endpoints (se_nodesRing s)) own.
Proof.
  intros Ho Hc. unfold send_broadcast. destruct (new_packets (ostream_get o) s) as [ps s1] eqn:E.
  destruct (stream_packets o Cmd_Redirect sub s ps s1 Ho E) as (Hring & _ & Htm & Hps & Hmem).
  unfold addTaskBroadcast. set (s2 := createSendTasks _ _ _ _ _) in *.
  set (t := Task_broadcast now ps (ostream_lastSize o) (nr_endpoints (se_nodesRing s2))).
  destruct (TaskManager_add t (se_taskman s2)) as [id m] eqn:Em. cbn [snd]. unfold senderThreadRoutine.
  destruct (added_task_runs (task_datagrams (assign_taskman m s2)) t (se_taskman s2) clock Hc) as (rest & m' & Er).
  rewrite Em in Er. cbn [snd] in Er. cbn [se_taskman assign_taskman]. rewrite Er.
  do 3 eexists. split; [reflexivity|]. rewrite <- Hring.
  by apply (task_carries o Cmd_Redirect sub s (assign_taskman m s2) (with_id (tm_ids (se_taskman s2)) t)).
Qed.

Lemma direct_sends now o cmd sub ip s clock :
  ostream_ok o → (∀ j, now <= clock j) →
  ∃ own rest s', senderThreadRoutine clock (send_direct now o cmd sub ip s).2 = (own ++ rest, s') ∧
    reaches o cmd sub s [endpoint_of ip s] own.
Proof.
  intros Ho Hc. unfold send_direct. destruct (new_packets (ostream_get o) s) as [ps s1] eqn:E.
  destruct (stream_packets o cmd sub s ps s1 Ho E) as (_ & Hsig & Htm & Hps & Hmem).
  unfold addTaskDirect. set (s2 := createSendTasks _ _ _ _ _) in *.
  set (t := Task_direct now ps (ostream_lastSize o) (endpoint_of ip s2)).
  destruct (TaskManager_add t (se_taskman s2)) as [id m] eqn:Em. cbn [snd]. unfold senderThreadRoutine.
  destruct (added_task_runs (task_datagrams (assign_taskman m s2)) t (se_taskman s2) clock Hc) as (rest & m' & Er).
  rewrite Em in Er. cbn [snd] in Er. cbn [se_taskman assign_taskman]. rewrite Er.
  do 3 eexists. split; [reflexivity|]. replace (endpoint_of ip s) with (endpoint_of ip s2) by (unfold endpoint_of; by rewrite Hsig).
  by apply (task_carries o cmd sub s (assign_taskman m s2) (with_id (tm_ids (se_taskman s2)) t)).
Qed.
(** ** From node to node *)

(** A datagram that arrives is a copy of one that was sent: the nodes that passed it
    on have changed only hash and key, and the memory behind the data is
    arbitrary. *)
Definition copy_of (dg : datagram) (a : Packet * Z * Z) : Prop :=
  let pk := a.1.1 in let sent := dg_packet dg in
  k_command pk = k_command sent ∧ k_subcommand pk = k_subcommand sent ∧ k_origin_ip pk = k_origin_ip sent ∧
  k_HashBlock pk = k_HashBlock sent ∧ k_header pk = k_header sent ∧ k_countHeader pk = k_countHeader sent ∧
  a.2 = dg_size dg ∧
  take (Z.to_nat (dg_size dg - headerLength)) (k_data pk) = take (Z.to_nat (dg_size dg - headerLength)) (k_data sent).

(** The message of a stream. *)
Definition stream_message (o : OPackStream) (cmd sub : Z) (s : SessionIO) : message :=
  mkMessage (ostream_get o) cmd sub (se_MyIp s).

(** The receiver [sB], which has just started, gets, among other messages, exactly
    copies of the datagrams that were sent to it, in any order and number, each at
    least once, and within the window that a session remembers. *)
Definition network_delivers o cmd sub s (own : list datagram) r sB ds msg : Prop :=
  let key := next_key o s in
  session_starts sB ∧ window_fits key (arrival <$> ds) ∧ msg key = stream_message o cmd sub s ∧
  (∀ a, a ∈ ds → k_HashBlock a.1.1 ≠ key → piece (msg (k_HashBlock a.1.1)) a.1.1 (a.2 - headerLength)) ∧
  (∀ a, a ∈ ds → k_HashBlock a.1.1 = key → ∃ dg, dg ∈ own ∧ copy_of dg a) ∧
  (∀ dg, dg ∈ own → dg_to dg = r → ∃ a, a ∈ ds ∧ copy_of dg a).

(** Exactly one of the datagrams makes the session call its node, with the bytes. *)
Definition called_once (key : byte_array) (cmd sub origin : Z) (bytes : byte_array) sB (ds : list (Packet * Z * Z)) : Prop :=
  let size := Z.of_nat (length bytes) in
  ∃ outs s' j data, receive_all ds sB = Ok (outs, s') ∧ take (length bytes) data = bytes ∧
    fst <$> outs !! j = Some (if cmd =? Cmd_Redirect then dispatch_redirect sub data size origin
                              else dispatch cmd data size origin) ∧
    ∀ j' d', ds !! j' = Some d' → k_HashBlock d'.1.1 = key → j' ≠ j → fst <$> outs !! j' = Some [].

Section Reach.
Context (o : OPackStream) (cmd sub : Z) (s : SessionIO).
Hypothesis Ho : ostream_ok o.
Hypothesis Hn : (length (ostream_get o) <= 2048)%nat.

Lemma stream_parts_ok : parts_ok (ostream_get o).
Proof. split; [done|]. exists (os_done o), (os_cur o). by destruct Ho. Qed.

Lemma carries_piece i dg a :
  carries o cmd sub s i dg → copy_of dg a →
  piece (stream_message o cmd sub s) a.1.1 (a.2 - headerLength) ∧
  k_HashBlock a.1.1 = next_key o s ∧ k_header a.1.1 = Z.of_nat i.
Proof.
  intros (d & data & Hd & Hdata & Hpk & Hsz) (C1 & C2 & C3 & C4 & C5 & C6 & C7 & C8). rewrite Hpk in *.
  pose proof (lookup_lt_Some _ _ _ Hd) as Hlt. set (n := length (ostream_get o)) in *.
  assert (k_header (numbered cmd sub (next_key o s) n i data s) = Z.of_nat i) as Hh.
  { cbn. destruct (Nat.eqb_spec n 1); [lia|]. width_lia. }
  rewrite Hsz in C7, C8. replace (headerLength + Z.of_nat (length d) - headerLength) with (Z.of_nat (length d)) in C8 by lia.
  rewrite Nat2Z.id in C8. cbn [k_data numbered] in C8. rewrite Hdata in C8.
  rewrite C5, Hh, C4. split; [|done]. split; [done|]. split; [done|]. split; [done|]. split; [apply stream_parts_ok|].
  split; [by rewrite C4|]. cbn [stream_message ms_parts].
  rewrite C7. replace (headerLength + Z.of_nat (length d) - headerLength) with (Z.of_nat (length d)) by lia.
  assert (n ≠ 1%nat → fragment (ostream_get o) a.1.1 (Z.of_nat (length d))) as Hfr.
  { intros Hn1. exists i, d. rewrite C5, C6. split; [done|]. split; [done|]. split; [|done].
    cbn. fold n. destruct (Nat.eqb_spec n 1); [done|]. width_lia. }
  unfold n in *. destruct (ostream_get o) as [|p [|q ps]] eqn:Eo; [by apply Hfr| |by apply Hfr].
  destruct i as [|i]; [|cbn in Hlt; lia]. injection Hd as ->. by rewrite C5, C6.
Qed.

Lemma message_arrives to own r sB ds msg :
  reaches o cmd sub s to own → r ∈ to → network_delivers o cmd sub s own r sB ds msg →
  called_once (next_key o s) cmd sub (se_MyIp s) (ostream_bytes o) sB ds.
Proof.
  intros [Hown Hall] Hr (Hst & Hfits & Hmsg & Hother & Hcopies & Harrive). set (key := next_key o s) in *.
  destruct (session_delivery msg ds sB key) as (outs & s' & j & d & data & E & _ & _ & Hj & Hd & Hrest).
  - done.
  - intros m Hm. apply list_elem_of_fmap in Hm as (a & -> & Ha). cbn [arrival fst snd].
    destruct (decide (k_HashBlock a.1.1 = key)) as [Hk|Hk]; [|by apply Hother].
    destruct (Hcopies a Ha Hk) as (dg & Hdg & Hc). destruct (Hown dg Hdg) as (_ & i & Hi).
    rewrite Hk, Hmsg. by eapply carries_piece.
  - done.
  - rewrite Hmsg. apply stream_parts_ok.
  - rewrite Hmsg. cbn [stream_message ms_parts]. intros i Hi. destruct (Hall i r Hi Hr) as (dg & Hdg & Hto & Hcar).
    destruct (Harrive dg Hdg Hto) as (a & Ha & Hc). destruct (carries_piece i dg a Hcar Hc) as (_ & Hk & Hh).
    exists (arrival a). split; [by apply (list_elem_of_fmap_2 arrival)|done].
  - rewrite Hmsg in Hj, Hd. exists outs, s', j, data. split; [exact E|]. split; [exact Hd|]. split; [exact Hj|]. exact Hrest.
Qed.
End Reach.

(** C1: what a node broadcasts arrives.  The node writes values to its output
    stream and broadcasts it; the next run of its sender, at any later time, sends
    datagrams to every known node, and when a node gets copies of them, in any
    order, repeated, passed on by others and mixed with other messages, its
    session makes exactly one call, with exactly the bytes that were written.  The
    session of the receiver has started before, everything it gets is well-formed,
    and fewer than 1000 packets of other messages come between the first and the
    last copy: [window_fits]. *)
Theorem broadcast_reaches items o now clock sub s :
  Forall item_ok items → ostream_writes items ostream_init = Some o → (length (ostream_get o) <= 2048)%nat →
  (∀ j, now <= clock j) →
  ∃ own rest s', senderThreadRoutine clock (send_broadcast now o sub s).2 = (own ++ rest, s') ∧
    reaches o Cmd_Redirect sub s (nr_endpoints (se_nodesRing s)) own ∧
    ∀ r sB ds msg, r ∈ nr_endpoints (se_nodesRing s) →
      network_delivers o Cmd_Redirect sub s own r sB ds msg →
      called_once (next_key o s) Cmd_Redirect sub (se_MyIp s) (concat (item_bytes <$> items)) sB ds.
Proof.
  intros Hi Ew Hn Hc. destruct (ostream_writes_ok items ostream_init) as (o' & E & Hok & Hb); [|done|].
  { split; [constructor|]. cbn. lia. }
  rewrite Ew in E. injection E as <-. change (concat (item_bytes <$> items)) with (ostream_bytes ostream_init ++ concat (item_bytes <$> items)).
  rewrite <- Hb. destruct (broadcast_sends now o sub s clock Hok Hc) as (own & rest & s' & Es & Hreach).
  exists own, rest, s'. split; [exact Es|]. split; [done|]. intros r sB ds msg Hr Hnet. by eapply message_arrives.
Qed.

(** A stream of one value, and the network that delivers each datagram as it is. *)
Definition toy_blake2s (d : byte_array) : byte_array := replicate 32 (Z.of_nat (length d)).
Definition sample_items : list out_item := [Out_value [1; 2; 3; 4]].
Definition sample_stream : OPackStream := mkOPackStream [] [1; 2; 3; 4].

Lemma sample_writes : ostream_writes sample_items ostream_init = Some sample_stream.
Proof.
  unfold sample_items. cbn [ostream_writes ostream_write]. rewrite bind_Some'. unfold ostream_put. cbn [ostream_init os_cur length].
  pose proof max_length_pos. destruct (Nat.leb_spec 4 (max_length - 0)); [done|lia].
Qed.

Lemma sample_items_ok : Forall item_ok sample_items.
Proof. pose proof max_length_pos. repeat constructor. cbn. lia. Qed.

Definition as_arrival (dg : datagram) : Packet * Z * Z := (dg_packet dg, 7, dg_size dg).

Lemma copy_as_arrival dg : copy_of dg (as_arrival dg).
Proof. by repeat split. Qed.

Lemma short_window k hist : (length hist <= 1)%nat → window_fits k hist.
Proof.
  intros Hl. split.
  - destruct hist as [|m [|]]; [| |cbn in Hl; lia]; unfold others; cbn [after_first].
    + unfold collector_capacity. cbn. lia.
    + destruct (decide _); unfold collector_capacity; cbn; lia.
  - unfold copies. pose proof (length_filter (of_message k) hist). lia.
Qed.

Lemma sample_network o cmd sub s to own :
  reaches o cmd sub s to own → (length own <= 1)%nat →
  ∀ r, network_delivers o cmd sub s own r sample_session (as_arrival <$> own)
         (λ _, stream_message o cmd sub s).
Proof.
  intros [Hown _] Hl r. split; [apply sample_starts|]. split.
  { apply short_window. by rewrite !length_fmap. }
  split; [done|]. split; [|split].
  - intros a Ha Hk. apply list_elem_of_fmap in Ha as (dg & -> & Hdg). destruct Hk.
    destruct (Hown dg Hdg) as (_ & i & d & data & _ & _ & Hp & _). cbn [as_arrival fst]. by rewrite Hp.
  - intros a Ha _. apply list_elem_of_fmap in Ha as (dg & -> & Hdg). exists dg. split; [done|apply copy_as_arrival].
  - intros dg Hdg _. exists (as_arrival dg). split; [by apply (list_elem_of_fmap_2 as_arrival)|apply copy_as_arrival].
Qed.

Lemma broadcast_reaches_witness :
  ∃ ds, called_once (next_key sample_stream sample_session) Cmd_Redirect Sub_GetBlock 10 [1; 2; 3; 4] sample_session ds.
Proof.
  destruct (broadcast_reaches sample_items sample_stream 5 (λ _, 5) Sub_GetBlock sample_session
    sample_items_ok sample_writes) as (own & rest & s' & E & Hreach & H); [cbn; lia|done|].
  exists (as_arrival <$> own). apply (H (7, 9001) sample_session _ (λ _, stream_message sample_stream Cmd_Redirect Sub_GetBlock sample_session)).
  - by left.
  - apply (sample_network _ _ _ _ _ _ Hreach). apply (f_equal fst) in E. cbn [fst] in E.
    apply (f_equal length) in E. rewrite length_app in E.
    assert (length (senderThreadRoutine (λ _, 5) (send_broadcast 5 sample_stream Sub_GetBlock sample_session).2).1 = 1%nat)
      as E1 by by vm_compute. lia.
Defined.

(** The same for a message that is sent to one node. *)
Theorem direct_reaches items o now clock cmd sub ip s :
  Forall item_ok items → ostream_writes items ostream_init = Some o → (length (ostream_get o) <= 2048)%nat →
  (∀ j, now <= clock j) →
  ∃ own rest s', senderThreadRoutine clock (send_direct now o cmd sub ip s).2 = (own ++ rest, s') ∧
    reaches o cmd sub s [endpoint_of ip s] own ∧
    ∀ sB ds msg, network_delivers o cmd sub s own (endpoint_of ip s) sB ds msg →
      called_once (next_key o s) cmd sub (se_MyIp s) (concat (item_bytes <$> items)) sB ds.
Proof.
  intros Hi Ew Hn Hc. destruct (ostream_writes_ok items ostream_init) as (o' & E & Hok & Hb); [|done|].
  { split; [constructor|]. cbn. lia. }
  rewrite Ew in E. injection E as <-. change (concat (item_bytes <$> items)) with (ostream_bytes ostream_init ++ concat (item_bytes <$> items)).
  rewrite <- Hb. destruct (direct_sends now o cmd sub ip s clock Hok Hc) as (own & rest & s' & Es & Hreach).
  exists own, rest, s'. split; [exact Es|]. split; [done|].
  intros sB ds msg Hnet. eapply message_arrives; [done|done|exact Hreach|by left|exact Hnet].
Qed.

Lemma direct_reaches_witness :
  ∃ ds, called_once (next_key sample_stream sample_session) Cmd_GetHash Sub_Empty 10 [1; 2; 3; 4] sample_session ds.
Proof.
  destruct (direct_reaches sample_items sample_stream 5 (λ _, 5) Cmd_GetHash Sub_Empty 7 sample_session
    sample_items_ok sample_writes) as (own & rest & s' & E & Hreach & H); [cbn; lia|done|].
  exists (as_arrival <$> own). apply (H sample_session _ (λ _, stream_message sample_stream Cmd_GetHash Sub_Empty sample_session)).
  apply (sample_network _ _ _ _ _ _ Hreach). apply (f_equal fst) in E. cbn [fst] in E.
  apply (f_equal length) in E. rewrite length_app in E.
  assert (length (senderThreadRoutine (λ _, 5) (send_direct 5 sample_stream Cmd_GetHash Sub_Empty 7 sample_session).2).1 = 1%nat)
    as E1 by by vm_compute. lia.
Defined.
