(* ===== verification/Node.v ===== *)
(** * Node: the handlers of the network node

    [csnode/src/Node.cpp]: what a node does with the messages it gets, and how it
    sends its own.  The solver is not among the sources: [solver] is what a call of
    it does to the node and its session, in any way, except that the rounds of the node
    are changed through its public operations ([caller_effect]) where a theorem says
    so; the pieces of data that only it
    knows, [Vector] and [Matrix], are blocks of bytes of some size.
    [Pool::from_byte_stream] is declared and not defined, and is an argument too.
    Node identifiers are IPv4 addresses; the default one is 0.  The logger is left
    out.  [ostream_] is initialised by every operation that uses it, and so is a
    local variable here. *)

From S2P Require Import Prelude Streams Amount Values Transaction Pool Packstream Net Tasks Session Transport.

Definition MIN_CONFIDANTS : nat := 3.
Definition MAX_CONFIDANTS : nat := 3.

Inductive NodeLevel := Normal | Confidant | Main | Writer.

#[export] Instance NodeLevel_eq_dec : EqDecision NodeLevel.
Proof. solve_decision. Defined.

(** [Node], without its components *)
Record Node := mkNode {
  nd_myId : Z;
  nd_roundNum : Z;
  nd_myLevel : NodeLevel;
  nd_mainNode : Z;
  nd_confidantNodes : list Z;
  nd_vectorTasks : list nat;
}.

Definition assign_level (l : NodeLevel) (n : Node) : Node :=
  mkNode (nd_myId n) (nd_roundNum n) l (nd_mainNode n) (nd_confidantNodes n) (nd_vectorTasks n).
Definition assign_table (r m : Z) (cs : list Z) (n : Node) : Node :=
  mkNode (nd_myId n) r (nd_myLevel n) m cs (nd_vectorTasks n).
Definition assign_tasks (ts : list nat) (n : Node) : Node :=
  mkNode (nd_myId n) (nd_roundNum n) (nd_myLevel n) (nd_mainNode n) (nd_confidantNodes n) ts.

(** A node and its session. *)
Abbreviation world := (Node * SessionIO)%type.

(** The calls of the solver. *)
Inductive solver_call :=
| S_nextRound
| S_gotTransaction (t : Transaction)
| S_gotTransactionList (t : Transaction)
| S_gotBlockCandidate (p : Pool)
| S_gotVector (v : byte_array) (sender : Z)
| S_gotMatrix (m : byte_array) (sender : Z)
| S_gotBlock (p : Pool) (sender : Z)
| S_gotHash (h : byte_array) (sender : Z).

Section Node.
Context (vector_size matrix_size : Z).
Context (from_byte_stream : byte_array → Pool).
Context (solver : solver_call → world → world).

(** ** Rounds *)

(** [onRoundStart]: the level that the table gives to the node. *)
Definition table_level (myId mainNode : Z) (confidants : list Z) : NodeLevel :=
  if mainNode =? myId then Main
  else if existsb (λ conf, conf =? myId) confidants then Confidant
  else Normal.

Definition onRoundStart (w : world) : world :=
  let n := w.1 in
  solver S_nextRound (assign_level (table_level (nd_myId n) (nd_mainNode n) (nd_confidantNodes n)) n, w.2).

(** The loop of [readRoundData]: [room] more confidants may be read.  The first
    component is false when the function returns. *)
Fixpoint read_confidants (room : nat) (tail : bool) (confidants : list Z) (s : IPackStream)
    : result (bool * list Z * IPackStream) :=
  match room with
  | O => Ok (true, confidants, s)
  | S room =>
      if negb (istream_bool s) then Ok (true, confidants, s)
      else
        '(d, s) ← istream_get_NodeId s;
        let confidants := confidants ++ [default 0 d] in
        if (length confidants =? MAX_CONFIDANTS)%nat && negb (istream_end s)
        then Ok (tail, confidants, s)
        else read_confidants room tail confidants s
  end.

(** [readRoundData].  When there is nothing to read, the variable [roundNum] has no
    value; whatever it is, the function returns false. *)
Definition readRoundData (tail : bool) (s : IPackStream) (w : world) : result (bool * IPackStream * world) :=
  '(d, s) ← istream_get 4 s;
  match d with
  | None => Ok (false, s, w)
  | Some d =>
      let roundNum := le_value d in
      if roundNum <=? nd_roundNum w.1 then Ok (false, s, w)
      else
        '(m, s) ← istream_get_NodeId s;
        '(go_on, confidants, s) ← read_confidants MAX_CONFIDANTS tail [] s;
        if negb go_on then Ok (false, s, w)
        else if negb (is_good s) || (length confidants <? MIN_CONFIDANTS)%nat then Ok (false, s, w)
        else
          let n := assign_table roundNum (default 0 m) confidants w.1 in
          let net := foldl (λ net id, addToRingBuffer id net) w.2 (default 0 m :: confidants) in
          Ok (true, s, (n, net))
  end.

(** [initNextRound] *)
Definition initNextRound (mainNode : Z) (confidantNodes : list Z) (w : world) : world :=
  if bool_decide (nd_myLevel w.1 ≠ Writer) then w
  else onRoundStart (assign_table (u32 (nd_roundNum w.1 + 1)) mainNode confidantNodes w.1, w.2).

(** [becomeWriter] *)
Definition becomeWriter (w : world) : world := (assign_level Writer w.1, w.2).

(** ** Messages that arrive *)

(** [getRoundTable] *)
Definition getRoundTable (data : byte_array) (size : Z) (w : world) : result world :=
  '(ok, s, w) ← readRoundData false (istream_init data size) w;
  if negb ok then Ok w
  else if negb (is_good s) then Ok w
  else let w := onRoundStart w in Ok (w.1, removeAllTasks w.2).

(** The loop of [getInitRing]: every turn reads or fails. *)
Fixpoint read_ring (fuel : nat) (s : IPackStream) (net : SessionIO) : option (result (IPackStream * SessionIO)) :=
  if is_good s && negb (istream_end s) then
    match fuel with
    | O => None
    | S fuel =>
        match istream_get_NodeId s with
        | Throw e => Some (Throw e)
        | Ok (d, s) => read_ring fuel s (addToRingBuffer (default 0 d) net)
        end
    end
  else Some (Ok (s, net)).

(** [getInitRing]; the fuel is enough ([read_ring_total]). *)
Definition getInitRing (data : byte_array) (size : Z) (w : world) : result world :=
  '(ok, s, w) ← readRoundData true (istream_init data size) w;
  if negb ok then Ok w
  else
    '(s, net) ← default (Throw undefined_behaviour) (read_ring (S (length data)) s w.2);
    if negb (is_good s) || negb (istream_end s) then Ok (w.1, net)
    else let w := onRoundStart (w.1, net) in Ok (w.1, removeAllTasks w.2).

(** [getTransaction]: the first turn of its loop reads to the end. *)
Definition getTransaction (data : byte_array) (size : Z) (w : world) : result world :=
  if bool_decide (nd_myLevel w.1 ≠ Main ∧ nd_myLevel w.1 ≠ Writer) then Ok w
  else
    let s := istream_init data size in
    if is_good s && negb (istream_end s)
    then '(t, s) ← istream_get_Transaction s; Ok (solver (S_gotTransaction t) w)
    else Ok w.

(** [getFirstTransaction] *)
Definition getFirstTransaction (data : byte_array) (size : Z) (w : world) : result world :=
  if bool_decide (nd_myLevel w.1 ≠ Confidant) then Ok w
  else
    '(t, s) ← istream_get_Transaction (istream_init data size);
    if negb (is_good s) || negb (istream_end s) then Ok w
    else Ok (solver (S_gotTransactionList t) w).

(** [getTransactionsList] *)
Definition getTransactionsList (data : byte_array) (size : Z) (w : world) : result world :=
  if bool_decide (nd_myLevel w.1 ≠ Confidant ∧ nd_myLevel w.1 ≠ Writer) then Ok w
  else
    '(p, s) ← istream_get_Pool from_byte_stream (istream_init data size);
    if negb (is_good s) || negb (istream_end s) then Ok w
    else Ok (solver (S_gotBlockCandidate p) w).

(** [getVector], [getMatrix] and [getHash]; a value that could not be read is not
    used. *)
Definition getVector (data : byte_array) (size sender : Z) (w : world) : result world :=
  if bool_decide (nd_myLevel w.1 ≠ Confidant) then Ok w
  else
    '(v, s) ← istream_get vector_size (istream_init data size);
    if negb (is_good s) || negb (istream_end s) then Ok w
    else Ok (solver (S_gotVector (default [] v) sender) w).

Definition getMatrix (data : byte_array) (size sender : Z) (w : world) : result world :=
  if bool_decide (nd_myLevel w.1 ≠ Confidant) then Ok w
  else
    '(m, s) ← istream_get matrix_size (istream_init data size);
    if negb (is_good s) || negb (istream_end s) then Ok w
    else Ok (solver (S_gotMatrix (default [] m) sender) w).

Definition getHash (data : byte_array) (size sender : Z) (w : world) : result world :=
  if bool_decide (nd_myLevel w.1 ≠ Writer) then Ok w
  else
    '(h, s) ← istream_get_FixedString hash_length (istream_init data size);
    if negb (is_good s) || negb (istream_end s) then Ok w
    else Ok (solver (S_gotHash (default [] h) sender) w).

(** [getBlock] *)
Definition getBlock (data : byte_array) (size sender : Z) (w : world) : result world :=
  if bool_decide (nd_myLevel w.1 = Writer) then Ok w
  else
    let w := (assign_level Normal w.1, w.2) in
    '(p, s) ← istream_get_Pool from_byte_stream (istream_init data size);
    if negb (is_good s) || negb (istream_end s) then Ok w
    else Ok (solver (S_gotBlock p sender) w).

(** The call of the session. *)
Definition handle (c : node_call) (w : world) : result world :=
  match c with
  | Call_getRoundTable data size => getRoundTable data size w
  | Call_getInitRing data size => getInitRing data size w
  | Call_getBlock data size sender => getBlock data size sender w
  | Call_getTransactionsList data size => getTransactionsList data size w
  | Call_getTransaction data size => getTransaction data size w
  | Call_getFirstTransaction data size => getFirstTransaction data size w
  | Call_getVector data size sender => getVector data size sender w
  | Call_getMatrix data size sender => getMatrix data size sender w
  | Call_getHash data size sender => getHash data size sender w
  end.

Fixpoint handle_all (cs : list node_call) (w : world) : result world :=
  match cs with [] => Ok w | c :: cs' => w ← handle c w; handle_all cs' w end.

(** A datagram arrives at the node: during registration, and afterwards. *)
Definition node_receive (message : Packet) (sender bytes_transferred : Z) (w : world) : result (list datagram * world) :=
  if se_registering w.2 then
    w ← ReceiveRegistration (λ c n s, handle c (n, s)) message sender bytes_transferred w.1 w.2; Ok ([], w)
  else
    '(calls, sent, s) ← InputServiceHandleReceive message sender bytes_transferred w.2;
    w ← handle_all calls (w.1, s); Ok (sent, w).

(** ** Messages that are sent *)

(** The bytes that were written; writing them always ends ([insertBytes_loop_ok]). *)
Definition written (o : option OPackStream) : result OPackStream :=
  match o with Some o => Ok o | None => Throw undefined_behaviour end.

(** [sendByConfidants]: the packets are allocated once and shared by the tasks. *)
Fixpoint send_each (now : nat → Z) (packs : list nat) (cmd scmd lastSize myId : Z) (confidants : list Z)
    (net : SessionIO) : list nat * SessionIO :=
  match confidants with
  | [] => ([], net)
  | conf :: confidants' =>
      if conf =? myId then send_each now packs cmd scmd lastSize myId confidants' net
      else
        let '(id, net) := addTaskDirect (now (length confidants')) packs cmd scmd lastSize conf net in
        let '(ids, net) := send_each now packs cmd scmd lastSize myId confidants' net in
        (id :: ids, net)
  end.

Definition sendByConfidants (now : nat → Z) (cmd scmd : Z) (o : OPackStream) (w : world) : list nat * SessionIO :=
  let '(packs, net) := new_packets (ostream_get o) w.2 in
  send_each now packs cmd scmd (ostream_lastSize o) (nd_myId w.1) (nd_confidantNodes w.1) net.

(** The operations of the node, with what the solver and the API give them. *)
Inductive node_op :=
| Op_sendRoundTable
| Op_sendTransaction (t : Transaction)
| Op_sendTransactions (ts : list Transaction)
| Op_sendFirstTransaction (t : Transaction)
| Op_sendTransactionList (p : Pool) (target : Z)
| Op_sendVector (v : byte_array)
| Op_sendMatrix (m : byte_array)
| Op_sendBlock (p : Pool)
| Op_sendHash (h : byte_array) (target : Z)
| Op_becomeWriter
| Op_initNextRound (mainNode : Z) (confidantNodes : list Z).

(** [sendRoundTable] *)
Definition round_table_stream (n : Node) : OPackStream :=
  foldl (λ o conf, ostream_put_NodeId conf o)
    (ostream_put_NodeId (nd_mainNode n) (ostream_put (le_bytes 4 (nd_roundNum n)) ostream_init)) (nd_confidantNodes n).

Definition sendRoundTable (now : nat → Z) (w : world) : world :=
  let o := round_table_stream w.1 in
  let '(packs, net) := new_packets (ostream_get o) w.2 in
  let net := removeAllTasks net in
  (w.1, (addTaskBroadcast (now 0%nat) packs Sub_SGetIpTable (ostream_lastSize o) net).2).

(** The part that the other operations share: write the stream, send it to one node
    or to all. *)
Definition send_to (now : nat → Z) (cmd target : Z) (o : OPackStream) (w : world) : world :=
  (w.1, (send_direct (now 0%nat) o cmd Sub_Empty target w.2).2).

(** [sendTransaction], for one transaction and for several *)
Fixpoint put_transactions (ts : list Transaction) (o : OPackStream) : option OPackStream :=
  match ts with [] => Some o | t :: ts' => o ← ostream_put_Transaction t o; put_transactions ts' o end.

Definition sendTransactions (now : nat → Z) (ts : list Transaction) (w : world) : result world :=
  if bool_decide (nd_myLevel w.1 = Main) then Ok w
  else o ← written (put_transactions ts ostream_init); Ok (send_to now Cmd_GetTransaction (nd_mainNode w.1) o w).

Definition sendTransaction (now : nat → Z) (t : Transaction) (w : world) : result world :=
  if bool_decide (nd_myLevel w.1 = Main) then Ok w
  else o ← written (ostream_put_Transaction t ostream_init); Ok (send_to now Cmd_GetTransaction (nd_mainNode w.1) o w).

(** [sendFirstTransaction] *)
Definition sendFirstTransaction (now : nat → Z) (t : Transaction) (w : world) : result world :=
  if bool_decide (nd_myLevel w.1 ≠ Main) then Ok w
  else o ← written (ostream_put_Transaction t ostream_init);
       Ok (w.1, (sendByConfidants now Cmd_GetFirstTransaction Sub_Empty o w).2).

(** [sendTransactionList] *)
Definition sendTransactionList (now : nat → Z) (p : Pool) (target : Z) (w : world) : result world :=
  if bool_decide (nd_myLevel w.1 ≠ Main) then Ok w
  else o ← written (ostream_put_Pool p ostream_init); Ok (send_to now Cmd_GetBlockCandidate target o w).

(** [sendVector] and [sendMatrix] *)
Definition sendVector (now : nat → Z) (v : byte_array) (w : world) : result world :=
  if bool_decide (nd_myLevel w.1 ≠ Confidant) then Ok w
  else let '(ids, net) := sendByConfidants now Cmd_GetVector Sub_Empty (ostream_put v ostream_init) w in
       Ok (assign_tasks ids w.1, net).

Definition sendMatrix (now : nat → Z) (m : byte_array) (w : world) : result world :=
  if bool_decide (nd_myLevel w.1 ≠ Confidant) then Ok w
  else Ok (w.1, (sendByConfidants now Cmd_GetMatrix Sub_Empty (ostream_put m ostream_init) w).2).

(** [sendBlock] *)
Definition sendBlock (now : nat → Z) (p : Pool) (w : world) : result world :=
  if bool_decide (nd_myLevel w.1 ≠ Writer) then Ok w
  else o ← written (ostream_put_Pool p ostream_init);
       Ok (w.1, (send_broadcast (now 0%nat) o Sub_GetBlock w.2).2).

(** [sendHash] *)
Definition sendHash (now : nat → Z) (h : byte_array) (target : Z) (w : world) : result world :=
  if bool_decide (nd_myLevel w.1 = Writer) then Ok w
  else o ← written (insertBytes h ostream_init); Ok (send_to now Cmd_GetHash target o w).

Definition run_op (now : nat → Z) (op : node_op) (w : world) : result world :=
  match op with
  | Op_sendRoundTable => Ok (sendRoundTable now w)
  | Op_sendTransaction t => sendTransaction now t w
  | Op_sendTransactions ts => sendTransactions now ts w
  | Op_sendFirstTransaction t => sendFirstTransaction now t w
  | Op_sendTransactionList p target => sendTransactionList now p target w
  | Op_sendVector v => sendVector now v w
  | Op_sendMatrix m => sendMatrix now m w
  | Op_sendBlock p => sendBlock now p w
  | Op_sendHash h target => sendHash now h target w
  | Op_becomeWriter => Ok (becomeWriter w)
  | Op_initNextRound m cs => Ok (initNextRound m cs w)
  end.

(** ** Reading *)

(** The stream has exactly the bytes [bs] left. *)
Definition at_bytes (bs : byte_array) (s : IPackStream) : Prop :=
  0 <= is_ptr s ∧ take (length bs) (drop (Z.to_nat (is_ptr s)) (is_mem s)) = bs ∧
  is_end s = is_ptr s + Z.of_nat (length bs) ∧ is_good s = true ∧ Z.of_nat (length bs) < 2 ^ 32.

Lemma at_bytes_init bs data :
  take (length bs) data = bs → Z.of_nat (length bs) < 2 ^ 32 → at_bytes bs (istream_init data (Z.of_nat (length bs))).
Proof. intros Hd Hl. split; [done|]. split; [by cbn|]. done. Qed.

Lemma at_bytes_end bs s : at_bytes bs s → istream_end s = bool_decide (bs = []).
Proof.
  intros (_ & _ & He & _). unfold istream_end. rewrite He.
  destruct bs as [|b bs]; [rewrite bool_decide_eq_true_2 by done; apply Z.eqb_eq|rewrite bool_decide_eq_false_2 by done; apply Z.eqb_neq];
    cbn [length]; lia.
Qed.

Lemma at_bytes_bool bs s : at_bytes bs s → istream_bool s = negb (bool_decide (bs = [])).
Proof. intros Hb. unfold istream_bool. rewrite (at_bytes_end bs s Hb). destruct Hb as (_ & _ & _ & -> & _). done. Qed.

(** Reading a value of [n] bytes that is there. *)
Lemma at_bytes_get d bs s :
  at_bytes (d ++ bs) s → (0 < length d)%nat →
  ∃ s', istream_get (Z.of_nat (length d)) s = Ok (Some d, s') ∧ at_bytes bs s'.
Proof.
  intros (Hp & Hd & He & Hg & Hl) Hn. rewrite length_app in *.
  pose proof (f_equal length Hd) as Hlen. rewrite length_take, length_drop, length_app in Hlen.
  rewrite istream_get_reads by lia. eexists. split.
  - do 3 f_equal. rewrite Nat2Z.id. transitivity (take (length d) (d ++ bs)); [|apply take_app_length].
    rewrite <- Hd at 1. rewrite take_take. f_equal. lia.
  - split; [cbn; lia|]. cbn [is_ptr is_mem is_end is_good]. split; [|split; [lia|split; [done|lia]]].
    replace (Z.to_nat (is_ptr s + Z.of_nat (length d))) with (Z.to_nat (is_ptr s) + length d)%nat by lia.
    rewrite <- drop_drop, take_drop_commute, Hd. by rewrite drop_app_length.
Qed.

Lemma at_bytes_NodeId v bs s :
  at_bytes (le_bytes 4 v ++ bs) s → is_u32 v → ∃ s', istream_get_NodeId s = Ok (Some v, s') ∧ at_bytes bs s'.
Proof.
  intros Hb Hv. destruct (at_bytes_get (le_bytes 4 v) bs s Hb) as (s' & E & Hb').
  { rewrite length_le_bytes. lia. }
  rewrite length_le_bytes in E. exists s'. split; [|done]. unfold istream_get_NodeId.
  change (Z.of_nat 4) with 4 in E. rewrite E, bind_Ok. destruct Hb' as (_ & _ & _ & -> & _).
  cbn [fmap option_fmap option_map]. rewrite le_value_le_bytes, Z.mod_small; [done|exact Hv].
Qed.

(** ** Round tables *)

Definition table_bytes (roundNum mainNode : Z) (confidants : list Z) : byte_array :=
  le_bytes 4 roundNum ++ le_bytes 4 mainNode ++ concat (le_bytes 4 <$> confidants).

(** The loop over the confidants of a table: when there are more than it has room
    for, it returns what [tail] says. *)
Lemma read_confidants_table room tail confs cs s :
  at_bytes (concat (le_bytes 4 <$> cs)) s → Forall is_u32 cs → (length confs + room)%nat = MAX_CONFIDANTS →
  (room = 0%nat → cs = []) →
  ∃ s', read_confidants room tail confs s
        = Ok (bool_decide (length cs <= room)%nat || tail, confs ++ take room cs, s') ∧ is_good s' = true.
Proof.
  revert confs cs s. induction room as [|room IH]; intros confs cs s Hb Hcs Hl H0; cbn [read_confidants].
  { rewrite (H0 eq_refl), take_nil, app_nil_r. exists s. split; [done|]. by destruct Hb as (_ & _ & _ & ? & _). }
  rewrite (at_bytes_bool _ s Hb). destruct cs as [|c cs].
  { rewrite (bool_decide_eq_true_2 (concat _ = [])) by done. cbn [negb].
    exists s. rewrite take_nil, app_nil_r, bool_decide_eq_true_2 by (cbn; lia). split; [done|].
    by destruct Hb as (_ & _ & _ & ? & _). }
  apply Forall_cons in Hcs as [Hc Hcs]. rewrite fmap_cons in Hb |- *. cbn [concat] in Hb |- *.
  rewrite bool_decide_eq_false_2 by done. cbn [negb].
  destruct (at_bytes_NodeId c _ s Hb Hc) as (s1 & -> & Hb1). rewrite bind_Ok. cbn [default from_option id].
  rewrite (at_bytes_end _ s1 Hb1), length_app. cbn [length].
  destruct (Nat.eqb_spec (length confs + 1) MAX_CONFIDANTS) as [He|Hne]; cbn [andb].
  - assert (room = 0%nat) as -> by lia. destruct cs as [|c' cs]; cbn [fmap list_fmap concat].
    + rewrite bool_decide_eq_true_2 by done. cbn [negb read_confidants]. exists s1. split; [done|].
      by destruct Hb1 as (_ & _ & _ & ? & _).
    + rewrite bool_decide_eq_false_2 by done. cbn [negb]. exists s1. split; [done|]. by destruct Hb1 as (_ & _ & _ & ? & _).
  - destruct (IH (confs ++ [c]) cs s1 Hb1 Hcs) as (s' & E & Hg); [rewrite length_app; cbn; lia|intros ->; exfalso; lia|].
    exists s'. split; [|done]. rewrite E, <- app_assoc. do 3 f_equal.
    rewrite (bool_decide_ext (length cs <= room)%nat (S (length cs) <= S room)%nat) by lia. done.
Qed.

(** The ring after the nodes of a table were placed in it. *)
Definition table_ring (mainNode : Z) (confidants : list Z) (net : SessionIO) : SessionIO :=
  foldl (λ net id, addToRingBuffer id net) net (mainNode :: confidants).

Lemma readRoundData_table r m cs s w :
  at_bytes (table_bytes r m cs) s → is_u32 r → is_u32 m → Forall is_u32 cs →
  ∃ s', readRoundData false s w
    = Ok (if bool_decide (nd_roundNum w.1 < r ∧ length cs = 3%nat)
          then (true, s', (assign_table r m cs w.1, table_ring m cs w.2)) else (false, s', w)) ∧
    (nd_roundNum w.1 < r → is_good s' = true).
Proof.
  intros Hb Hr Hm Hcs. unfold table_bytes in Hb.
  destruct (at_bytes_get (le_bytes 4 r) _ s Hb) as (s1 & E1 & Hb1); [rewrite length_le_bytes; lia|].
  destruct (at_bytes_NodeId m _ s1 Hb1 Hm) as (s2 & E2 & Hb2).
  destruct (read_confidants_table MAX_CONFIDANTS false [] cs s2 Hb2 Hcs eq_refl) as (s3 & E3 & Hg); [done|].
  rewrite length_le_bytes in E1. change (Z.of_nat 4) with 4 in E1.
  unfold readRoundData. rewrite E1, bind_Ok. cbv beta iota zeta.
  rewrite le_value_le_bytes, Z.mod_small by exact Hr.
  destruct (Z.leb_spec r (nd_roundNum w.1)).
  { exists s1. rewrite bool_decide_eq_false_2 by lia. split; [done|lia]. }
  rewrite E2, bind_Ok, E3, bind_Ok, Hg, orb_false_r. cbn [app negb orb default]. exists s3. split; [|done].
  unfold MAX_CONFIDANTS, MIN_CONFIDANTS. destruct (Nat.le_gt_cases (length cs) 3) as [Hle|Hgt].
  - rewrite (bool_decide_eq_true_2 (length cs <= 3)%nat), take_ge by done. cbn [negb].
    destruct (Nat.ltb_spec (length cs) 3).
    + by rewrite bool_decide_eq_false_2 by lia.
    + by rewrite bool_decide_eq_true_2 by lia.
  - rewrite !bool_decide_eq_false_2 by lia. done.
Qed.

(** What a node does with a table of a later round. *)
Definition table_applied (r m : Z) (confidants : list Z) (w : world) : world :=
  let n := assign_level (table_level (nd_myId w.1) m confidants) (assign_table r m confidants w.1) in
  let w := solver S_nextRound (n, table_ring m confidants w.2) in (w.1, removeAllTasks w.2).

(** A table of a later round with three confidants is applied; any other is not. *)
Lemma getRoundTable_table r m cs data w :
  let bs := table_bytes r m cs in
  take (length bs) data = bs → Z.of_nat (length bs) < 2 ^ 32 → is_u32 r → is_u32 m → Forall is_u32 cs →
  getRoundTable data (Z.of_nat (length bs)) w
  = Ok (if bool_decide (nd_roundNum w.1 < r ∧ length cs = 3%nat) then table_applied r m cs w else w).
Proof.
  intros bs Hd Hl Hr Hm Hcs.
  assert (at_bytes bs (istream_init data (Z.of_nat (length bs)))) as Hb by by apply at_bytes_init.
  destruct (readRoundData_table r m cs _ w Hb Hr Hm Hcs) as (s' & E & Hg).
  unfold getRoundTable. rewrite E, bind_Ok. case_bool_decide as Hc; [|done]. destruct Hc as [Hc _].
  cbn [negb]. rewrite (Hg Hc). done.
Qed.

(** The stream that [sendRoundTable] writes. *)
Definition table_items (n : Node) : list out_item :=
  Out_value (le_bytes 4 (nd_roundNum n)) :: Out_value (le_bytes 4 (nd_mainNode n)) ::
  ((λ conf, Out_value (le_bytes 4 conf)) <$> nd_confidantNodes n).

Lemma puts_written cs o :
  ostream_writes ((λ conf, Out_value (le_bytes 4 conf)) <$> cs) o = Some (foldl (λ o conf, ostream_put_NodeId conf o) o cs).
Proof.
  revert o. induction cs as [|c cs IH]; intros o; [done|]. cbn [fmap list_fmap ostream_writes ostream_write foldl].
  rewrite bind_Some'. apply IH.
Qed.

Lemma round_table_written n :
  ostream_ok (round_table_stream n) ∧
  ostream_bytes (round_table_stream n) = table_bytes (nd_roundNum n) (nd_mainNode n) (nd_confidantNodes n).
Proof.
  destruct (ostream_writes_ok (table_items n) ostream_init) as (o & E & Hok & Hb).
  { split; [constructor|]. cbn. lia. }
  { pose proof max_length_pos. repeat constructor; cbn [item_ok]; rewrite ?length_le_bytes; try lia.
    apply Forall_fmap, Forall_true. intros c. cbn. lia. }
  unfold table_items in E. cbn [ostream_writes ostream_write] in E. rewrite !bind_Some', puts_written in E.
  apply (inj Some) in E. change (round_table_stream n = o) in E. rewrite E. split; [exact Hok|]. rewrite Hb.
  unfold table_items, table_bytes. cbn [fmap list_fmap concat item_bytes]. change (ostream_bytes ostream_init) with ([] : list Z).
  cbn [app]. do 3 f_equal. rewrite <- list_fmap_compose. done.
Qed.

Lemma table_bytes_length r m cs : length (table_bytes r m cs) = (8 + 4 * length cs)%nat.
Proof.
  unfold table_bytes. rewrite !length_app, !length_le_bytes. cut (length (concat (le_bytes 4 <$> cs)) = 4 * length cs)%nat; [lia|].
  induction cs as [|c cs IH]; [done|]. rewrite fmap_cons, concat_cons, length_app, IH, length_le_bytes. cbn [length]. lia.
Qed.

(** A short stream is one packet. *)
Lemma short_stream o : ostream_ok o → (length (ostream_bytes o) < max_length)%nat → length (ostream_get o) = 1%nat.
Proof.
  intros [Hd _] Hl. rewrite ostream_bytes_eq, length_app in Hl. unfold ostream_get.
  destruct (os_done o) as [|d ds]; [done|]. apply Forall_cons in Hd as [Hd _]. cbn [concat] in Hl. rewrite length_app in Hl. lia.
Qed.

Lemma new_packets_clear parts s :
  new_packets parts (removeAllTasks s) = ((new_packets parts s).1, removeAllTasks (new_packets parts s).2).
Proof.
  revert s. induction parts as [|d parts IH]; intros s; [done|]. cbn [new_packets].
  assert (new_packet d (removeAllTasks s) = ((new_packet d s).1, removeAllTasks (new_packet d s).2)) as -> by done.
  destruct (new_packet d s) as [p s1]. cbn [fst snd]. rewrite IH. by destruct (new_packets parts s1).
Qed.

Lemma sendRoundTable_broadcasts now w :
  (sendRoundTable now w).2
  = (send_broadcast (now 0%nat) (round_table_stream w.1) Sub_SGetIpTable (removeAllTasks w.2)).2.
Proof.
  unfold sendRoundTable, send_broadcast. rewrite new_packets_clear. by destruct (new_packets _ w.2).
Qed.

(** ** Arbitrary messages *)

Lemma read_confidants_length room tail confs s ok confs' s' :
  read_confidants room tail confs s = Ok (ok, confs', s') → (length confs' <= length confs + room)%nat.
Proof.
  revert confs s. induction room as [|room IH]; intros confs s E; cbn [read_confidants] in E.
  { injection E as _ <- _. lia. }
  destruct (negb (istream_bool s)); [injection E as _ <- _; lia|].
  destruct (istream_get_NodeId s) as [[d s1]|]; [|done]. rewrite bind_Ok in E.
  destruct ((_ =? _)%nat && _); [injection E as _ <- _; rewrite length_app; cbn; lia|].
  apply IH in E. rewrite length_app in E. cbn in E. lia.
Qed.

(** Whatever is read, the table is left alone or replaced by one of a later round
    with three confidants. *)
Lemma readRoundData_cases tail s w ok s' w' :
  readRoundData tail s w = Ok (ok, s', w') →
  (ok = false ∧ w' = w) ∨
  (ok = true ∧ is_good s' = true ∧ ∃ r m cs, nd_roundNum w.1 < r ∧ length cs = 3%nat ∧
     w' = (assign_table r m cs w.1, table_ring m cs w.2)).
Proof.
  unfold readRoundData. intros E. destruct (istream_get 4 s) as [[d s1]|]; [|done]. rewrite bind_Ok in E.
  destruct d as [d|]; [|left; by injection E as <- _ <-]. cbv beta zeta in E.
  destruct (Z.leb_spec (le_value d) (nd_roundNum w.1)) as [_|Hlt]; [left; by injection E as <- _ <-|].
  destruct (istream_get_NodeId s1) as [[m s2]|]; [|done]. rewrite bind_Ok in E.
  destruct (read_confidants MAX_CONFIDANTS tail [] s2) as [[[go cs] s3]|] eqn:Ec; [|done]. rewrite bind_Ok in E.
  apply read_confidants_length in Ec. destruct go; cbn [negb] in E; [|left; by injection E as <- _ <-].
  destruct (is_good s3) eqn:Hg; cbn [negb orb] in E; [|left; by injection E as <- _ <-].
  destruct (Nat.ltb_spec (length cs) MIN_CONFIDANTS) as [_|Hge]; [left; by injection E as <- _ <-|].
  injection E as <- <- <-. right. split; [done|]. split; [done|]. exists (le_value d), (default 0 m), cs.
  split; [lia|]. split; [|done]. unfold MAX_CONFIDANTS, MIN_CONFIDANTS in *. cbn in Ec. lia.
Qed.

Definition nd_table (n : Node) : Z * Z * list Z := (nd_roundNum n, nd_mainNode n, nd_confidantNodes n).

(** One table follows another: a message brings one of a later round, with three
    confidants, or a writer starts the next round, in 32 bits. *)
Definition round_step (t t' : Z * Z * list Z) : Prop :=
  t.1.1 < t'.1.1 ∧ length t'.2 = 3%nat ∨ t'.1.1 = u32 (t.1.1 + 1).

(** What a caller can do to a node from outside.  The fields of the round are private:
    besides what leaves them alone, the public operations that change them start
    the next round of a writer ([initNextRound]) or read a table from a message
    ([getRoundTable] and [getInitRing]). *)
Inductive caller_effect : world → world → Prop :=
| effect_end w w' : nd_table w'.1 = nd_table w.1 → caller_effect w w'
| effect_other w w1 w' : nd_table w1.1 = nd_table w.1 → caller_effect w1 w' → caller_effect w w'
| effect_initNextRound m cs w w' :
    nd_myLevel w.1 = Writer → caller_effect (assign_table (u32 (nd_roundNum w.1 + 1)) m cs w.1, w.2) w' →
    caller_effect w w'
| effect_readRoundData tail s w ok s' w1 w' :
    readRoundData tail s w = Ok (ok, s', w1) → caller_effect w1 w' → caller_effect w w'.

Lemma effect_trans w1 w2 w3 : caller_effect w1 w2 → caller_effect w2 w3 → caller_effect w1 w3.
Proof.
  intros H12 H23. induction H12 as [|? ? ? ? _ IH|m cs ? ? ? _ IH|? ? ? ? ? ? ? ? _ IH];
    [by eapply effect_other|eapply effect_other|eapply effect_initNextRound|eapply effect_readRoundData]; eauto.
Qed.

Lemma effect_follows w w' : caller_effect w w' → rtc round_step (nd_table w.1) (nd_table w'.1).
Proof.
  induction 1 as [w w' E|w w1 w' E _ IH|m cs w w' Hl _ IH|tail s w ok s' w1 w' E _ IH].
  - by rewrite E.
  - by rewrite <- E.
  - eapply rtc_l; [|exact IH]. by right.
  - apply readRoundData_cases in E as [[_ ->]|(_ & _ & r & m & cs & Hr & Hl & ->)]; [done|].
    eapply rtc_l; [|exact IH]. left. by split.
Qed.

(** Tables that follow each other go forward, up to the last round. *)
Lemma steps_forward t t' :
  rtc round_step t t' →
  t' = t ∨ t.1.1 < t'.1.1 ∨ ∃ t1, rtc round_step t t1 ∧ rtc round_step t1 t' ∧ 2 ^ 32 - 1 <= t1.1.1.
Proof.
  intros Hs. induction Hs as [t|t t1 t' H1 H2 IH]; [by left|right].
  destruct (Z.le_gt_cases (2 ^ 32 - 1) t.1.1) as [Hbig|Hsmall].
  { right. exists t. split; [done|]. split; [by eapply rtc_l|done]. }
  assert (t.1.1 < t1.1.1) as Hlt by (destruct H1 as [[? _]| ->]; [done|width_lia]).
  destruct IH as [->|[?|(t2 & ? & ? & ?)]]; [by left|left; lia|right]. exists t2. split; [by eapply rtc_l|done].
Qed.

Section Solver.
(** The solver reaches the node through its public operations. *)
Hypothesis solver_calls : ∀ c w, caller_effect w (solver c w).

Lemma onRoundStart_effect w : caller_effect w (onRoundStart w).
Proof. unfold onRoundStart. eapply effect_other; [|apply solver_calls]. done. Qed.

Lemma getRoundTable_effect data size w w' : getRoundTable data size w = Ok w' → caller_effect w w'.
Proof.
  unfold getRoundTable. intros E. destruct (readRoundData _ _ _) as [[[ok s] w1]|] eqn:Er; [|done]. rewrite bind_Ok in E.
  eapply effect_readRoundData; [exact Er|]. destruct (negb ok); [injection E as <-; by apply effect_end|].
  destruct (negb (is_good s)); injection E as <-; [by apply effect_end|].
  eapply effect_trans; [apply onRoundStart_effect|by apply effect_end].
Qed.

Lemma getInitRing_effect data size w w' : getInitRing data size w = Ok w' → caller_effect w w'.
Proof.
  unfold getInitRing. intros E. destruct (readRoundData _ _ _) as [[[ok s] w1]|] eqn:Er; [|done]. rewrite bind_Ok in E.
  eapply effect_readRoundData; [exact Er|]. destruct (negb ok); [injection E as <-; by apply effect_end|].
  destruct (default _ _) as [[s2 net]|]; [|done]. rewrite bind_Ok in E.
  destruct (negb (is_good s2) || negb (istream_end s2)); injection E as <-; [by apply effect_end|].
  eapply effect_other; [|eapply effect_trans; [apply (onRoundStart_effect (w1.1, net))|by apply effect_end]]. done.
Qed.

(** The handlers that read one value and hand it to the solver. *)
Lemma read_then_solve {A} (r : result (A * IPackStream)) (stop : A → IPackStream → bool) (c : A → solver_call) w w' :
  ('(a, s) ← r; if stop a s then Ok w else Ok (solver (c a) w)) = Ok w' → caller_effect w w'.
Proof.
  destruct r as [[a s]|]; [|done]. rewrite bind_Ok. destruct (stop a s); intros [= <-]; [by apply effect_end|apply solver_calls].
Qed.

Lemma handle_effect c w w' : handle c w = Ok w' → caller_effect w w'.
Proof.
  destruct c as [d z|d z|d z x|d z|d z|d z|d z x|d z x|d z x]; cbn [handle];
    [apply getRoundTable_effect|apply getInitRing_effect|..];
    unfold getBlock, getTransactionsList, getTransaction, getFirstTransaction, getVector, getMatrix, getHash;
    case_bool_decide; try (intros [= <-]; by apply effect_end).
  - intros E. eapply (effect_other w (assign_level Normal w.1, w.2)); [done|]. revert E.
    apply (read_then_solve _ (λ p s, _) (λ p, S_gotBlock p x)).
  - apply (read_then_solve _ (λ p s, _) (λ p, S_gotBlockCandidate p)).
  - destruct (_ && _); [|intros [= <-]; by apply effect_end]. apply (read_then_solve _ (λ _ _, false) (λ t, S_gotTransaction t)).
  - apply (read_then_solve _ (λ p s, _) (λ t, S_gotTransactionList t)).
  - apply (read_then_solve _ (λ p s, _) (λ v, S_gotVector (default [] v) x)).
  - apply (read_then_solve _ (λ p s, _) (λ m, S_gotMatrix (default [] m) x)).
  - apply (read_then_solve _ (λ p s, _) (λ h, S_gotHash (default [] h) x)).
Qed.

Lemma handle_all_effect cs w w' : handle_all cs w = Ok w' → caller_effect w w'.
Proof.
  revert w. induction cs as [|c cs IH]; intros w E; [injection E as <-; by apply effect_end|].
  cbn [handle_all] in E. destruct (handle c w) as [w1|] eqn:E1; [|done]. rewrite bind_Ok in E.
  eapply effect_trans; [by eapply handle_effect|by apply IH].
Qed.

Lemma node_receive_effect pk sender bytes w sent w' : node_receive pk sender bytes w = Ok (sent, w') → caller_effect w w'.
Proof.
  unfold node_receive. destruct (se_registering w.2).
  - unfold ReceiveRegistration. intros E.
    repeat match type of E with
    | context [if ?b then _ else _] => destruct b
    | context [handle ?c ?v] => let H := fresh in destruct (handle c v) as [[? ?]|] eqn:H; [apply handle_effect in H|done]
    end; rewrite ?bind_Ok in E; injection E as <- <-; try (by apply effect_end).
    all: match goal with H : caller_effect ?v ?v' |- _ =>
      apply (effect_other w v); [done|]; apply (effect_trans _ _ _ H); by apply effect_end end.
  - destruct (InputServiceHandleReceive _ _ _ _) as [[[calls sent0] s]|]; [|done]. rewrite bind_Ok.
    destruct (handle_all calls (w.1, s)) as [w1|] eqn:E1; [|done]. rewrite bind_Ok. intros [= <- <-].
    apply handle_all_effect in E1. by apply (effect_other w (w.1, s)).
Qed.

(** Every operation of the node is itself what a caller can do. *)
Lemma run_op_effect now op w w' : run_op now op w = Ok w' → caller_effect w w'.
Proof.
  destruct op as [|t|ts|t|p target|v|m|p|h target| |m cs]; cbn [run_op].
  11: { intros [= <-]. unfold initNextRound. case_bool_decide as Hl; [by apply effect_end|].
        eapply effect_initNextRound; [done|]. apply onRoundStart_effect. }
  all: intros E; apply effect_end; revert E.
  all: unfold sendRoundTable, sendTransaction, sendTransactions, sendFirstTransaction, sendTransactionList, sendVector, sendMatrix, sendBlock, sendHash, send_to.
  all: try case_bool_decide; try (by intros [= <-]).
  all: repeat match goal with |- context [written ?o] => destruct (written o) as [?|]; [rewrite bind_Ok|done] end.
  all: repeat match goal with |- context [let '(_, _) := ?p in _] => destruct p end.
  all: by intros [= <-].
Qed.
End Solver.

(** What happens at a node: datagrams arrive, and its operations are called. *)
Inductive node_event :=
| Arrives (message : Packet) (sender bytes_transferred : Z)
| Calls (now : nat → Z) (op : node_op).

Fixpoint node_run (es : list node_event) (w : world) : result world :=
  match es with
  | [] => Ok w
  | Arrives pk sender bytes :: es' => '(_, w) ← node_receive pk sender bytes w; node_run es' w
  | Calls now op :: es' => w ← run_op now op w; node_run es' w
  end.

(** ** Bounds *)

(** The pointer is at most three bytes behind the end, and the memory goes on for
    that long. *)
Definition in_bounds (s : IPackStream) : Prop :=
  0 <= is_ptr s <= is_end s + 3 ∧ 0 <= is_end s < 2 ^ 63 ∧ is_end s + 3 <= Z.of_nat (length (is_mem s)).

Lemma istream_get_in_bounds s :
  in_bounds s → ∃ d s', istream_get 4 s = Ok (d, s') ∧ in_bounds s' ∧ is_mem s' = is_mem s ∧
    (is_good s' = false ∨ is_ptr s' = is_ptr s + 4 ∧ is_ptr s < is_end s).
Proof.
  intros (Hp & He & Hl). unfold istream_get. destruct (Z.ltb_spec (u64 (is_ptr s - is_end s)) 4) as [_|Hu].
  - do 2 eexists. split; [done|]. split; [done|]. split; [done|]. by left.
  - assert (is_ptr s < is_end s) as Hlt.
    { apply Z.nle_gt. intros Hle. revert Hu. unfold u64, wrap. rewrite Z.mod_small; lia. }
    rewrite istream_take_ok, bind_Ok by lia. do 2 eexists. split; [done|]. split; [|split; [done|]].
    + split; cbn; [lia|done].
    + right. split; [done|lia].
Qed.

Lemma istream_get_NodeId_in_bounds s :
  in_bounds s → ∃ d s', istream_get_NodeId s = Ok (d, s') ∧ in_bounds s' ∧ is_mem s' = is_mem s ∧
    (is_good s' = false ∨ is_ptr s' = is_ptr s + 4 ∧ is_ptr s < is_end s).
Proof.
  intros Hs. destruct (istream_get_in_bounds s Hs) as (d & s' & E & H). unfold istream_get_NodeId.
  rewrite E, bind_Ok. do 2 eexists. split; [done|exact H].
Qed.

Lemma read_confidants_in_bounds room tail confs s :
  in_bounds s → ∃ ok confs' s', read_confidants room tail confs s = Ok (ok, confs', s') ∧ in_bounds s' ∧ is_mem s' = is_mem s.
Proof.
  revert confs s. induction room as [|room IH]; intros confs s Hs; cbn [read_confidants]; [by do 3 eexists|].
  destruct (negb (istream_bool s)); [by do 3 eexists|].
  destruct (istream_get_NodeId_in_bounds s Hs) as (d & s1 & -> & Hs1 & Hm & _). rewrite bind_Ok.
  destruct (_ && _); [by do 3 eexists|]. rewrite <- Hm. by apply IH.
Qed.

Lemma readRoundData_in_bounds tail s w :
  in_bounds s → ∃ ok s' w', readRoundData tail s w = Ok (ok, s', w') ∧ in_bounds s' ∧ is_mem s' = is_mem s.
Proof.
  intros Hs. unfold readRoundData. destruct (istream_get_in_bounds s Hs) as (d & s1 & -> & Hs1 & Hm1 & _). rewrite bind_Ok.
  destruct d as [d|]; [|by do 3 eexists]. cbv beta zeta. destruct (_ <=? _); [by do 3 eexists|].
  destruct (istream_get_NodeId_in_bounds s1 Hs1) as (m & s2 & -> & Hs2 & Hm2 & _). rewrite bind_Ok.
  destruct (read_confidants_in_bounds MAX_CONFIDANTS tail [] s2 Hs2) as (go & cs & s3 & -> & Hs3 & Hm3). rewrite bind_Ok.
  assert (is_mem s3 = is_mem s) as Hm by congruence.
  destruct (negb go); [by do 3 eexists|]. destruct (_ || _); by do 3 eexists.
Qed.

(** The loop of [getInitRing] ends. *)
Lemma read_ring_in_bounds fuel s net :
  in_bounds s → Z.of_nat (length (is_mem s)) - is_ptr s < Z.of_nat fuel → (1 <= fuel)%nat →
  ∃ s' net', read_ring fuel s net = Some (Ok (s', net')).
Proof.
  revert s net. induction fuel as [|fuel IH]; intros s net Hs Hf Hp; [lia|]. cbn [read_ring].
  destruct (is_good s && negb (istream_end s)); [|by do 2 eexists].
  destruct (istream_get_NodeId_in_bounds s Hs) as (d & s1 & -> & Hs1 & Hm & [Hg|[Hptr Hlt]]).
  - destruct fuel; cbn [read_ring]; rewrite Hg; by do 2 eexists.
  - destruct Hs as (_ & _ & Hl). apply IH; [done|..]; rewrite ?Hm, ?Hptr; lia.
Qed.

Lemma istream_init_in_bounds data size :
  0 <= size < 2 ^ 63 → size + 3 <= Z.of_nat (length data) → in_bounds (istream_init data size).
Proof. intros H1 H2. split; [cbn; lia|]. split; [done|]. cbn. lia. Qed.

(** ** Operations *)

(** The levels at which an operation does something. *)
Definition op_allowed (op : node_op) (l : NodeLevel) : bool :=
  match op with
  | Op_sendRoundTable | Op_becomeWriter => true
  | Op_sendTransaction _ | Op_sendTransactions _ => bool_decide (l ≠ Main)
  | Op_sendFirstTransaction _ | Op_sendTransactionList _ _ => bool_decide (l = Main)
  | Op_sendVector _ | Op_sendMatrix _ => bool_decide (l = Confidant)
  | Op_sendBlock _ | Op_initNextRound _ _ => bool_decide (l = Writer)
  | Op_sendHash _ _ => bool_decide (l ≠ Writer)
  end.

(** The receivers of the tasks of an operation, a task after the other. *)
Definition op_receivers (op : node_op) (w : world) : list (list endpoint) :=
  let to ip := [endpoint_of ip w.2] in
  let others := to <$> filter (λ conf, conf ≠ nd_myId w.1) (nd_confidantNodes w.1) in
  match op with
  | Op_sendRoundTable | Op_sendBlock _ => [nr_endpoints (se_nodesRing w.2)]
  | Op_sendTransaction _ | Op_sendTransactions _ => [to (nd_mainNode w.1)]
  | Op_sendFirstTransaction _ | Op_sendVector _ | Op_sendMatrix _ => others
  | Op_sendTransactionList _ target | Op_sendHash _ target => [to target]
  | Op_becomeWriter | Op_initNextRound _ _ => []
  end.

Definition receivers (s : SessionIO) : list (list endpoint) := tk_receivers <$> tm_tasks (se_taskman s).

(** The receivers of the tasks that an operation leaves in place. *)
Definition op_keeps (op : node_op) (w : world) : list (list endpoint) :=
  match op with Op_sendRoundTable => [] | _ => receivers w.2 end.

Lemma new_packets_same parts s :
  let s' := (new_packets parts s).2 in
  se_nodesRing s' = se_nodesRing s ∧ se_signalServerAddr s' = se_signalServerAddr s ∧ se_taskman s' = se_taskman s.
Proof.
  pose proof (new_packets_spec parts s) as H. destruct (new_packets parts s) as [ps s']. cbn [snd].
  destruct H as (_ & -> & _). done.
Qed.

Lemma copy_headers_same front i packs s :
  let s' := copy_headers front i packs s in
  se_nodesRing s' = se_nodesRing s ∧ se_signalServerAddr s' = se_signalServerAddr s ∧ se_taskman s' = se_taskman s.
Proof.
  revert i s. induction packs as [|p packs IH]; intros i s; [done|]. cbn [copy_headers].
  match goal with |- context [copy_headers _ _ _ ?X] => exact (IH (S i) X) end.
Qed.

Lemma createSendTasks_same packs cmd sub lastSize s :
  let s' := createSendTasks packs cmd sub lastSize s in
  se_nodesRing s' = se_nodesRing s ∧ se_signalServerAddr s' = se_signalServerAddr s ∧ se_taskman s' = se_taskman s.
Proof.
  destruct packs as [|front rest]; [done|]. cbn [createSendTasks]. unfold outFrmPack.
  destruct (nextHash _ _) as [hb internal]. destruct (length (front :: rest) =? 1)%nat; [done|].
  match goal with |- context [copy_headers _ _ _ ?X] => pose proof (copy_headers_same front 1 rest X) as H end. exact H.
Qed.

Lemma addTaskDirect_receivers now packs cmd sub lastSize ip s :
  let s' := (addTaskDirect now packs cmd sub lastSize ip s).2 in
  receivers s' = [endpoint_of ip s] :: receivers s ∧ se_signalServerAddr s' = se_signalServerAddr s.
Proof.
  unfold addTaskDirect. pose proof (createSendTasks_same packs cmd sub lastSize s) as (_ & Hsig & Htm).
  set (s1 := createSendTasks _ _ _ _ _) in *. unfold receivers. cbn. rewrite Htm. unfold endpoint_of. by rewrite Hsig.
Qed.

Lemma addTaskBroadcast_receivers now packs sub lastSize s :
  receivers (addTaskBroadcast now packs sub lastSize s).2 = nr_endpoints (se_nodesRing s) :: receivers s.
Proof.
  unfold addTaskBroadcast. pose proof (createSendTasks_same packs Cmd_Redirect sub lastSize s) as (Hr & _ & Htm).
  set (s1 := createSendTasks _ _ _ _ _) in *. unfold receivers. cbn. by rewrite Htm, Hr.
Qed.

Lemma send_direct_receivers now o cmd sub ip s :
  receivers (send_direct now o cmd sub ip s).2 = [endpoint_of ip s] :: receivers s.
Proof.
  unfold send_direct. pose proof (new_packets_same (ostream_get o) s) as (_ & Hsig & Htm).
  destruct (new_packets (ostream_get o) s) as [ps s1]. cbn [snd] in *.
  rewrite (proj1 (addTaskDirect_receivers now ps cmd sub (ostream_lastSize o) ip s1)).
  unfold receivers, endpoint_of. by rewrite Htm, Hsig.
Qed.

Lemma send_broadcast_receivers now o sub s :
  receivers (send_broadcast now o sub s).2 = nr_endpoints (se_nodesRing s) :: receivers s.
Proof.
  unfold send_broadcast. pose proof (new_packets_same (ostream_get o) s) as (Hr & _ & Htm).
  destruct (new_packets (ostream_get o) s) as [ps s1]. cbn [snd] in *.
  rewrite addTaskBroadcast_receivers. unfold receivers. by rewrite Htm, Hr.
Qed.

Lemma send_each_receivers now packs cmd sub lastSize myId confs s :
  receivers (send_each now packs cmd sub lastSize myId confs s).2
  = reverse ((λ ip, [endpoint_of ip s]) <$> filter (λ conf, conf ≠ myId) confs) ++ receivers s.
Proof.
  revert s. induction confs as [|conf confs IH]; intros s; [done|]. cbn [send_each]. rewrite filter_cons.
  destruct (Z.eqb_spec conf myId) as [->|Hne].
  { rewrite decide_False by lia. apply IH. }
  rewrite decide_True by done.
  destruct (addTaskDirect_receivers (now (length confs)) packs cmd sub lastSize conf s) as [Hr Hsig].
  destruct (addTaskDirect _ _ _ _ _ _ _) as [id s1]. cbn [snd] in Hr, Hsig. specialize (IH s1).
  destruct (send_each _ _ _ _ _ _ _ _) as [ids s2]. cbn [snd] in IH |- *. rewrite IH, Hr, fmap_cons, reverse_cons, <- app_assoc.
  cbn [app]. do 2 f_equal. apply list_fmap_ext. intros i x _. unfold endpoint_of. by rewrite Hsig.
Qed.

Lemma sendByConfidants_receivers now cmd sub o w :
  receivers (sendByConfidants now cmd sub o w).2
  = reverse ((λ ip, [endpoint_of ip w.2]) <$> filter (λ conf, conf ≠ nd_myId w.1) (nd_confidantNodes w.1)) ++ receivers w.2.
Proof.
  unfold sendByConfidants. pose proof (new_packets_same (ostream_get o) w.2) as (_ & Hsig & Htm).
  destruct (new_packets (ostream_get o) w.2) as [ps s1]. cbn [snd] in *. rewrite send_each_receivers.
  unfold receivers. rewrite Htm. do 2 f_equal. apply list_fmap_ext. intros i x _. unfold endpoint_of. by rewrite Hsig.
Qed.
End Node.

(** ** Properties *)

(** C7: a round table spreads.  A node sends its round table, of any length that fits
    in a packet; its sender runs at a later time; a node that gets copies of the
    datagrams, in any order and number and mixed with fewer than 1000 well-formed
    packets of other messages after the first, in a session that has started before,
    is called exactly once for it.  If its own round is earlier and the table has
    exactly three confidants, it takes over round, main node and confidants, knows
    these nodes, has the level that the table gives it, starts the round and drops
    its tasks; otherwise the call changes nothing. *)
Theorem round_table_spreads solver n s now clock :
  is_u32 (nd_roundNum n) → is_u32 (nd_mainNode n) → Forall is_u32 (nd_confidantNodes n) →
  (8 + 4 * length (nd_confidantNodes n) < max_length)%nat → (∀ j, now 0%nat <= clock j) →
  let size := 8 + 4 * Z.of_nat (length (nd_confidantNodes n)) in
  ∃ own rest s', senderThreadRoutine clock (sendRoundTable now (n, s)).2 = (own ++ rest, s') ∧
    reaches (round_table_stream n) Cmd_Redirect Sub_SGetIpTable s (nr_endpoints (se_nodesRing s)) own ∧
    ∀ r sB ds msg, r ∈ nr_endpoints (se_nodesRing s) →
      network_delivers (round_table_stream n) Cmd_Redirect Sub_SGetIpTable s own r sB ds msg →
      ∃ outs sB' j data, receive_all ds sB = Ok (outs, sB') ∧
        fst <$> outs !! j = Some [Call_getRoundTable data size] ∧
        (∀ j' d', ds !! j' = Some d' → k_HashBlock d'.1.1 = next_key (round_table_stream n) s → j' ≠ j →
           fst <$> outs !! j' = Some []) ∧
        ∀ w, getRoundTable solver data size w
             = Ok (if bool_decide (nd_roundNum w.1 < nd_roundNum n ∧ length (nd_confidantNodes n) = 3%nat)
                   then table_applied solver (nd_roundNum n) (nd_mainNode n) (nd_confidantNodes n) w else w).
Proof.
  intros Hr Hm Hcs Hfit Hc size. destruct (round_table_written n) as [Hok Hb].
  pose proof (table_bytes_length (nd_roundNum n) (nd_mainNode n) (nd_confidantNodes n)) as Hlen.
  assert (size = Z.of_nat (length (table_bytes (nd_roundNum n) (nd_mainNode n) (nd_confidantNodes n)))) as -> by (unfold size; lia).
  destruct (broadcast_sends (now 0%nat) (round_table_stream n) Sub_SGetIpTable (removeAllTasks s) clock Hok Hc)
    as (own & rest & s' & Es & Hreach).
  exists own, rest, s'. rewrite sendRoundTable_broadcasts. split; [exact Es|]. split; [exact Hreach|].
  intros r sB ds msg Hin Hnet.
  destruct (message_arrives (round_table_stream n) Cmd_Redirect Sub_SGetIpTable s Hok) with (to := nr_endpoints (se_nodesRing s))
    (own := own) (r := r) (sB := sB) (ds := ds) (msg := msg) as (outs & sB' & j & data & E & Hd & Hj & Hrest); [|exact Hreach|done|done|].
  { rewrite short_stream; [lia|done|]. by rewrite Hb, Hlen. }
  rewrite Hb in Hd, Hj. exists outs, sB', j, data. split; [exact E|]. split; [exact Hj|].
  split; [exact Hrest|]. intros w. apply getRoundTable_table; [done| |done|done|done].
  pose proof max_length_Z. lia.
Qed.

(** A node in round 5, and a solver that does nothing. *)
Definition sample_node : Node := mkNode 10 5 Main 10 [21; 22; 23] [].
Definition idle_solver (c : solver_call) (w : Node * SessionIO) : Node * SessionIO := w.

Lemma round_table_spreads_witness :
  ∃ ds outs sB' j data, receive_all ds sample_session = Ok (outs, sB') ∧
    fst <$> outs !! j = Some [Call_getRoundTable data 20] ∧
    getRoundTable idle_solver data 20 (mkNode 22 4 Main 0 [] [], sample_session)
    = Ok (table_applied idle_solver 5 10 [21; 22; 23] (mkNode 22 4 Main 0 [] [], sample_session)).
Proof.
  destruct (round_table_spreads idle_solver sample_node sample_session (λ _, 5) (λ _, 5))
    as (own & rest & s' & E & Hreach & H); [done|done|by repeat constructor|cbn; pose proof max_length_Z; lia|done|].
  assert (length own <= 1)%nat as Hl.
  { apply (f_equal fst), (f_equal length) in E. cbn [fst] in E. rewrite length_app in E.
    assert (length (senderThreadRoutine (λ _, 5) (sendRoundTable (λ _, 5) (sample_node, sample_session)).2).1 = 1%nat)
      as E1 by by vm_compute. lia. }
  destruct (H (7, 9001) sample_session (as_arrival <$> own)
    (λ _, stream_message (round_table_stream sample_node) Cmd_Redirect Sub_SGetIpTable sample_session)) as (outs & sB' & j & data & E2 & Hj & _ & Ht).
  - by left.
  - by apply (sample_network _ _ _ _ _ _ Hreach).
  - exists (as_arrival <$> own), outs, sB', j, data. split; [exact E2|]. split; [exact Hj|]. exact (Ht (mkNode 22 4 Main 0 [] [], sample_session)).
Defined.


(** A solver that becomes the writer and starts the next round when it gets a
    block. *)
Definition eager_solver (c : solver_call) (w : Node * SessionIO) : Node * SessionIO :=
  match c with
  | S_gotBlock _ sender => initNextRound idle_solver sender (nd_confidantNodes w.1) (becomeWriter w)
  | _ => w
  end.

Lemma eager_solver_calls c w : caller_effect w (eager_solver c w).
Proof.
  destruct c; try (by apply effect_end). cbn [eager_solver]. eapply (effect_other w (becomeWriter w)); [done|].
  apply (run_op_effect idle_solver (λ c w, effect_end w w eq_refl) (λ _, 0) (Op_initNextRound sender (nd_confidantNodes w.1))). done.
Qed.

(** The table of round 6 arrives in a datagram. *)
Definition table_datagram : node_event :=
  Arrives (mkPacket Cmd_Redirect Sub_SGetIpTable 1 10 [] [] [0; 0; 7] 0 0 (table_bytes 6 11 [21; 22; 23])) 7 (headerLength + 20).

(** Then a block, for which the solver starts round 7, and the node starts round 8. *)
Definition block_datagram : node_event :=
  Arrives (mkPacket Cmd_Redirect Sub_GetBlock 1 12 [] [] [0; 0; 8] 0 0 (replicate 12 0)) 7 (headerLength + 12).

Definition sample_events : list node_event :=
  [table_datagram; block_datagram; Calls (λ _, 0) Op_becomeWriter; Calls (λ _, 0) (Op_initNextRound 21 [22; 23])].


(** A writer in the last round starts round 0. *)
Lemma initNextRound_wraps solver m cs (w : Node * SessionIO) :
  nd_myLevel w.1 = Writer → nd_roundNum w.1 = 2 ^ 32 - 1 →
  initNextRound solver m cs w = onRoundStart solver (assign_table 0 m cs w.1, w.2).
Proof. intros Hl Hr. unfold initNextRound. rewrite bool_decide_eq_false_2 by tauto. by rewrite Hr. Qed.

(** C33: the handlers of round messages stay within their memory: when three more
    bytes are readable behind the message, any contents and any size are handled
    without undefined behaviour, and the loops end. *)
Theorem round_messages_in_bounds solver data size w :
  0 <= size < 2 ^ 63 → size + 3 <= Z.of_nat (length data) →
  (∃ w', getRoundTable solver data size w = Ok w') ∧ (∃ w', getInitRing solver data size w = Ok w').
Proof.
  intros Hsz Hl. pose proof (istream_init_in_bounds data size Hsz Hl) as Hs. split.
  - unfold getRoundTable. destruct (readRoundData_in_bounds false _ w Hs) as (ok & s' & w' & -> & _). rewrite bind_Ok.
    destruct (negb ok); [by eexists|]. destruct (negb (is_good s')); by eexists.
  - unfold getInitRing. destruct (readRoundData_in_bounds true _ w Hs) as (ok & s' & w' & -> & Hs' & Hm). rewrite bind_Ok.
    destruct (negb ok); [by eexists|]. cbn [istream_init is_mem] in Hm.
    destruct (read_ring_in_bounds (S (length data)) s' w'.2 Hs') as (s2 & net & ->); [rewrite Hm; destruct Hs'; lia|lia|].
    cbn [from_option id]. rewrite bind_Ok. destruct (_ || _); by eexists.
Qed.

Lemma round_messages_in_bounds_witness :
  ∃ w', getInitRing idle_solver [6; 0; 0; 0; 10; 0; 0; 0; 1; 0; 0; 0; 2; 0; 0; 0; 3; 0; 0; 0; 4; 0; 0; 0; 9] 22 (sample_node, sample_session) = Ok w'.
Proof.
  apply (round_messages_in_bounds idle_solver [6; 0; 0; 0; 10; 0; 0; 0; 1; 0; 0; 0; 2; 0; 0; 0; 3; 0; 0; 0; 4; 0; 0; 0; 9] 22).
  - lia.
  - cbn. lia.
Defined.

(** A truncated list of nodes behind the table: the table is taken over, and the
    level is not. *)
Lemma getInitRing_half_applied :
  ∃ w', getInitRing idle_solver [6; 0; 0; 0; 10; 0; 0; 0; 1; 0; 0; 0; 2; 0; 0; 0; 3; 0; 0; 0; 4; 0; 0; 0; 9] 22 (assign_level Writer sample_node, sample_session) = Ok w' ∧
    nd_table w'.1 = (6, 10, [1; 2; 3]) ∧ nd_myLevel w'.1 = Writer ∧ (0, 9001) ∈ nr_endpoints (se_nodesRing w'.2).
Proof.
  eexists. split; [vm_compute; reflexivity|]. split; [done|]. split; [done|]. apply list_elem_of_In. cbn. tauto.
Qed.

(** ** Levels *)

Lemma insertBytes_init bytes : ∃ o, insertBytes bytes ostream_init = Some o ∧ ostream_ok o.
Proof.
  destruct (insertBytes_loop_ok (length bytes) bytes ostream_init) as (o & E & Hok & _); [|done|by exists o].
  split; [constructor|]. cbn. lia.
Qed.

Lemma put_transactions_total ts o : ostream_ok o → ∃ o', put_transactions ts o = Some o'.
Proof.
  revert o. induction ts as [|t ts IH]; intros o Ho; [by exists o|]. cbn [put_transactions].
  destruct (insertBytes_loop_ok _ (Transaction_to_byte_stream t) o Ho (le_n _)) as (o1 & E & Hok & _).
  unfold ostream_put_Transaction, insertBytes. rewrite E, bind_Some'. by apply IH.
Qed.

(** C32: what a node sends depends on its level.  Every operation of the node
    succeeds.  One that the node's level does not allow changes nothing.  One that is
    allowed adds exactly its tasks: a broadcast to all known nodes, a message to the
    main node or to the given target, or one to every confidant but the node itself;
    a round table replaces all earlier tasks. *)
Theorem node_op_guarded solver now op w :
  ∃ w', run_op solver now op w = Ok w' ∧
    (op_allowed op (nd_myLevel w.1) = false → w' = w) ∧
    (op_allowed op (nd_myLevel w.1) = true → (∀ m cs, op ≠ Op_initNextRound m cs) →
     receivers w'.2 = reverse (op_receivers op w) ++ op_keeps op w).
Proof.
  destruct w as [n s].
  destruct op as [|t|ts|t|p target|v|m|p|h target| |m cs]; cbn [run_op op_allowed fst snd];
    try (unfold sendTransaction, sendTransactions, sendFirstTransaction, sendTransactionList, sendVector, sendMatrix, sendBlock, sendHash, initNextRound;
         cbn [fst]; case_bool_decide as Hl; [|]).
  all: try (rewrite bool_decide_eq_true_2 by tauto). all: try (rewrite bool_decide_eq_false_2 by tauto).
  all: try (by exists (n, s)).
  all: try match goal with |- context [sendByConfidants ?t ?c ?d ?o ?w] =>
    pose proof (sendByConfidants_receivers t c d o w) as Hr; destruct (sendByConfidants _ _ _ _ _) as [ids net] end.
  all: try match goal with |- context [put_transactions ?l ostream_init] =>
    destruct (put_transactions_total l ostream_init) as (o & ->); [split; [constructor|cbn; lia]|] end.
  all: unfold ostream_put_Transaction, ostream_put_Pool.
  all: try match goal with |- context [written (insertBytes ?b ostream_init)] => destruct (insertBytes_init b) as (o & -> & _) end.
  all: cbn [written]; rewrite ?bind_Ok.
  all: eexists; split; [reflexivity|]; split; [done|]; intros _ Hne.
  all: try (by destruct (Hne _ _ eq_refl)).
  all: unfold send_to; cbn [fst snd].
  all: rewrite ?sendRoundTable_broadcasts, ?send_direct_receivers, ?send_broadcast_receivers, ?sendByConfidants_receivers; done.
Qed.
