(* ===== verification/SharedData.v ===== *)
(** * SharedData: the copy-on-write pointer

    [csdb/include/csdb/internal/shared_data.h] and its implementation: every value class of csdb
    ([Transaction], [Pool], [Wallet], ...) is a handle [shared_data_ptr] to a
    reference-counted record, which is copied when a shared one is written.
    The other files treat these classes as plain values; this one shows why that
    is right.  The state has the heap of records and the handles in scope, and
    the operations are those of the class, as the code performs them on the
    counts and the pointers.  They refine operations on values, one per handle. *)

From S2P Require Import Prelude Amount Values Transaction.

(** ** The heap *)

Section SharedData.
Context {V : Type} (clone : V → V).

Abbreviation cells := (gmap nat (Z * V)).
Abbreviation handles := (gmap nat (option nat)).

(** The records on the heap with their counts, and the pointer of every handle. *)
Record heap := mkHeap { h_cells : cells; h_handles : handles }.

(** [++d->ref] *)
Definition ref_inc (d : option nat) (c : cells) : option cells :=
  match d with
  | None => Some c
  | Some l => '(ref, v) ← c !! l; Some (<[l := (u64 (ref + 1), v)]> c)
  end.

(** [if (d && (0 == (--d->ref))) delete d;] *)
Definition ref_dec (d : option nat) (c : cells) : option cells :=
  match d with
  | None => Some c
  | Some l => '(ref, v) ← c !! l;
              let ref := u64 (ref - 1) in
              Some (if ref =? 0 then delete l c else <[l := (ref, v)]> c)
  end.

(** [shared_data_ptr(T *data)] on a new record, whose count is zero. *)
Definition ptr_new (x : nat) (v : V) (h : heap) : option heap :=
  let l := fresh (dom (h_cells h)) in
  c ← ref_inc (Some l) (<[l := (0, v)]> (h_cells h));
  Some (mkHeap c (<[x := Some l]> (h_handles h))).

(** [shared_data_ptr(const shared_data_ptr &)] *)
Definition ptr_copy (x y : nat) (h : heap) : option heap :=
  d ← h_handles h !! y;
  c ← ref_inc d (h_cells h);
  Some (mkHeap c (<[x := d]> (h_handles h))).

(** [shared_data_ptr(shared_data_ptr &&)] *)
Definition ptr_move (x y : nat) (h : heap) : option heap :=
  d ← h_handles h !! y;
  Some (mkHeap (h_cells h) (<[x := d]> (<[y := None]> (h_handles h)))).

(** [~shared_data_ptr()] *)
Definition ptr_drop (x : nat) (h : heap) : option heap :=
  d ← h_handles h !! x;
  c ← ref_dec d (h_cells h);
  Some (mkHeap c (delete x (h_handles h))).

(** [operator=(const shared_data_ptr &)] *)
Definition ptr_assign (x y : nat) (h : heap) : option heap :=
  d ← h_handles h !! x;
  od ← h_handles h !! y;
  if bool_decide (od = d) then Some h
  else
    c ← ref_inc od (h_cells h);
    c ← ref_dec d c;
    Some (mkHeap c (<[x := od]> (h_handles h))).

(** [operator=(shared_data_ptr &&)] *)
Definition ptr_swap (x y : nat) (h : heap) : option heap :=
  d ← h_handles h !! x;
  od ← h_handles h !! y;
  Some (mkHeap (h_cells h) (<[y := d]> (<[x := od]> (h_handles h)))).

(** [detach] *)
Definition ptr_detach (x : nat) (h : heap) : option heap :=
  d ← h_handles h !! x;
  match d with
  | None => Some h
  | Some l =>
      '(ref, v) ← h_cells h !! l;
      if negb (ref =? 1) then
        let l' := fresh (dom (h_cells h)) in
        c ← ref_inc (Some l') (<[l' := (0, clone v)]> (h_cells h));
        c ← ref_dec (Some l) c;
        Some (mkHeap c (<[x := Some l']> (h_handles h)))
      else Some h
  end.

(** [constData] *)
Definition ptr_read (x : nat) (h : heap) : option V :=
  d ← h_handles h !! x; l ← d; '(_, v) ← h_cells h !! l; Some v.

(** A setter: it tests a field of [constData()] and then writes; the access that is not
    const detaches. *)
Definition ptr_write (x : nat) (guard : V → bool) (f : V → V) (h : heap) : option heap :=
  v ← ptr_read x h;
  if guard v then
    h ← ptr_detach x h;
    d ← h_handles h !! x; l ← d; '(ref, v) ← h_cells h !! l;
    Some (mkHeap (<[l := (ref, f v)]> (h_cells h)) (h_handles h))
  else Some h.

(** ** Programs on handles *)

Inductive ptr_op :=
| Op_new (x : nat) (v : V)
| Op_copy (x y : nat)
| Op_move (x y : nat)
| Op_drop (x : nat)
| Op_assign (x y : nat)
| Op_swap (x y : nat)
| Op_write (x : nat) (guard : V → bool) (f : V → V).

Definition ptr_step (op : ptr_op) (h : heap) : option heap :=
  match op with
  | Op_new x v => ptr_new x v h
  | Op_copy x y => ptr_copy x y h
  | Op_move x y => ptr_move x y h
  | Op_drop x => ptr_drop x h
  | Op_assign x y => ptr_assign x y h
  | Op_swap x y => ptr_swap x y h
  | Op_write x guard f => ptr_write x guard f h
  end.

Fixpoint ptr_run (ops : list ptr_op) (h : heap) : option heap :=
  match ops with [] => Some h | op :: ops' => h ← ptr_step op h; ptr_run ops' h end.

(** ** Values

    The same operations on one value per handle; a moved-from handle is empty,
    and writing through an empty handle is an error.  A constructor needs a new
    handle, and there are fewer handles than a counter can count. *)

Abbreviation values := (gmap nat (option V)).

Definition new_handle (x : nat) (a : values) : bool :=
  bool_decide (a !! x = None) && (Z.of_nat (size a) <? 2 ^ 64 - 1).

Definition val_step (op : ptr_op) (a : values) : option values :=
  match op with
  | Op_new x v => if new_handle x a then Some (<[x := Some v]> a) else None
  | Op_copy x y => w ← a !! y; if new_handle x a then Some (<[x := w]> a) else None
  | Op_move x y => w ← a !! y; if new_handle x a then Some (<[x := w]> (<[y := None]> a)) else None
  | Op_drop x => _ ← a !! x; Some (delete x a)
  | Op_assign x y => _ ← a !! x; w ← a !! y; Some (<[x := w]> a)
  | Op_swap x y => v ← a !! x; w ← a !! y; Some (<[y := v]> (<[x := w]> a))
  | Op_write x guard f => w ← a !! x; v ← w; Some (if guard v then <[x := Some (f v)]> a else a)
  end.

Fixpoint val_run (ops : list ptr_op) (a : values) : option values :=
  match ops with [] => Some a | op :: ops' => a ← val_step op a; val_run ops' a end.

(** ** Lemmas *)

(** The handles that point to a record. *)
Definition refs (l : nat) (hs : handles) : Z :=
  Z.of_nat (size (filter (λ kv, kv.2 = Some l) hs)).

Definition points (d : option nat) (l : nat) : Z := if decide (d = Some l) then 1 else 0.

Lemma refs_insert l x d hs : hs !! x = None → refs l (<[x := d]> hs) = refs l hs + points d l.
Proof.
  intros Hx. unfold refs, points. case_decide as Hd.
  - rewrite map_filter_insert_True by done. rewrite map_size_insert_None; [lia|].
    by apply map_lookup_filter_None_2; left.
  - rewrite map_filter_insert_False by done. rewrite delete_id by done. lia.
Qed.

Lemma refs_delete l x d hs : hs !! x = Some d → refs l hs = refs l (delete x hs) + points d l.
Proof.
  intros Hx. rewrite <- (insert_delete_id hs x d Hx) at 1. by rewrite refs_insert by apply lookup_delete_eq.
Qed.

Lemma refs_update l x d d' hs :
  hs !! x = Some d → refs l (<[x := d']> hs) = refs l hs - points d l + points d' l.
Proof.
  intros Hx. rewrite <- insert_delete_eq, refs_insert by apply lookup_delete_eq.
  rewrite (refs_delete l x d hs Hx). lia.
Qed.

Lemma refs_bound l hs : 0 <= refs l hs <= Z.of_nat (size hs).
Proof. unfold refs. split; [lia|]. apply inj_le, map_size_filter. Qed.

Lemma refs_pos l x hs : hs !! x = Some (Some l) → 1 <= refs l hs.
Proof.
  intros Hx. rewrite (refs_delete l x (Some l) hs Hx). pose proof (refs_bound l (delete x hs)).
  unfold points. rewrite decide_True by done. lia.
Qed.

Lemma points_None l : points None l = 0.
Proof. done. Qed.

Lemma points_eq l : points (Some l) l = 1.
Proof. unfold points. by rewrite decide_True. Qed.

Lemma points_ne l l' : l ≠ l' → points (Some l) l' = 0.
Proof. intros Hn. unfold points. rewrite decide_False; [done|]. by intros [= ->]. Qed.

Lemma points_bound d l : 0 <= points d l <= 1.
Proof. unfold points. case_decide; lia. Qed.

(** The counts of the records are those that [k] prescribes, and a record lives
    as long as its count is not zero. *)
Definition counts (c : cells) (k : nat → Z) : Prop :=
  ∀ l, match c !! l with Some (ref, _) => ref = k l ∧ 1 <= k l < 2 ^ 64 | None => k l = 0 end.

Lemma counts_ext c k k' : (∀ l, k l = k' l) → counts c k → counts c k'.
Proof. intros Hk Hc l. specialize (Hc l). by rewrite <- Hk. Qed.

Lemma counts_live c k l : counts c k → 1 <= k l → ∃ v, c !! l = Some (k l, v).
Proof. intros Hc Hl. specialize (Hc l). destruct (c !! l) as [[r v]|]; [|lia]. destruct Hc as [-> _]. eauto. Qed.

(** What a handle reads. *)
Definition contents (c : cells) (d : option nat) : option V := d ≫= λ l, snd <$> c !! l.

Lemma ref_inc_spec c k d :
  counts c k → (∀ l, d = Some l → 1 <= k l < 2 ^ 64 - 1) →
  ∃ c', ref_inc d c = Some c' ∧ counts c' (λ l, k l + points d l) ∧ ∀ l, snd <$> c' !! l = snd <$> c !! l.
Proof.
  intros Hc Hd. destruct d as [l|].
  - destruct (counts_live c k l Hc) as [v Hv]; [by apply Hd|]. specialize (Hd l eq_refl).
    cbn [ref_inc]. rewrite Hv. eexists. split; [done|]. split; intros l'; destruct (decide (l' = l)) as [->|Hne].
    + rewrite lookup_insert_eq, points_eq. width_lia.
    + rewrite lookup_insert_ne, points_ne, Z.add_0_r by done. apply Hc.
    + by rewrite lookup_insert_eq, Hv.
    + by rewrite lookup_insert_ne.
  - exists c. split; [done|]. split; [|done]. eapply counts_ext; [|exact Hc].
    intros l. cbn. rewrite points_None. lia.
Qed.

Lemma ref_dec_spec c k d :
  counts c k → (∀ l, d = Some l → 1 <= k l) →
  ∃ c', ref_dec d c = Some c' ∧ counts c' (λ l, k l - points d l) ∧
    ∀ l, k l - points d l ≠ 0 → snd <$> c' !! l = snd <$> c !! l.
Proof.
  intros Hc Hd. destruct d as [l|].
  - destruct (counts_live c k l Hc) as [v Hv]; [by apply Hd|]. specialize (Hd l eq_refl).
    pose proof (Hc l) as Hl. rewrite Hv in Hl. destruct Hl as [_ Hl].
    cbn [ref_dec]. rewrite Hv. cbn. replace (u64 (k l - 1)) with (k l - 1) by width_lia.
    eexists. split; [done|]. split; intros l'; destruct (decide (l' = l)) as [->|Hne].
    + rewrite points_eq. destruct (Z.eqb_spec (k l - 1) 0).
      * by rewrite lookup_delete_eq.
      * rewrite lookup_insert_eq. lia.
    + rewrite points_ne, Z.sub_0_r by done. specialize (Hc l').
      destruct (k l - 1 =? 0); [by rewrite lookup_delete_ne|by rewrite lookup_insert_ne].
    + rewrite points_eq. intros Hnz. destruct (Z.eqb_spec (k l - 1) 0); [lia|]. by rewrite lookup_insert_eq, Hv.
    + intros _. destruct (k l - 1 =? 0); [by rewrite lookup_delete_ne|by rewrite lookup_insert_ne].
  - exists c. split; [done|]. split; [|done]. eapply counts_ext; [|exact Hc].
    intros l. cbn. rewrite points_None. lia.
Qed.

(** A new record gets the count one. *)
Lemma ref_new_spec c k v :
  counts c k → let l := fresh (dom c) in
  ref_inc (Some l) (<[l := (0, v)]> c) = Some (<[l := (1, v)]> c) ∧
  counts (<[l := (1, v)]> c) (λ l', k l' + points (Some l) l') ∧ k l = 0 ∧ c !! l = None.
Proof.
  intros Hc l. assert (c !! l = None) as Hl by (apply not_elem_of_dom, is_fresh).
  pose proof (Hc l) as Hk. rewrite Hl in Hk. split; [|split; [|done]].
  - cbn [ref_inc]. rewrite lookup_insert_eq. cbn. by rewrite insert_insert_eq.
  - intros l'. destruct (decide (l' = l)) as [->|Hne].
    + rewrite lookup_insert_eq, points_eq, Hk. done.
    + rewrite lookup_insert_ne, points_ne, Z.add_0_r by done. apply Hc.
Qed.

Lemma contents_ext c c' hs :
  (∀ l, 1 <= refs l hs → snd <$> c' !! l = snd <$> c !! l) → contents c' <$> hs = contents c <$> hs.
Proof.
  intros Hc. apply map_fmap_ext. intros x [l|] Hx; [|done]. cbn. by apply Hc, (refs_pos l x).
Qed.

(** ** Simulation *)

(** The counts are exact, and every handle reads its value. *)
Definition sim (a : values) (h : heap) : Prop :=
  counts (h_cells h) (λ l, refs l (h_handles h)) ∧ Z.of_nat (size (h_handles h)) < 2 ^ 64 ∧
  a = contents (h_cells h) <$> h_handles h.

Lemma sim_lookup a h x w :
  sim a h → a !! x = Some w → ∃ d, h_handles h !! x = Some d ∧ w = contents (h_cells h) d.
Proof.
  intros (_ & _ & ->). rewrite lookup_fmap. destruct (h_handles h !! x) as [d|]; [|done].
  intros [= <-]. by exists d.
Qed.

Lemma sim_new_handle a h x :
  sim a h → new_handle x a = true → h_handles h !! x = None ∧ Z.of_nat (size (h_handles h)) < 2 ^ 64 - 1.
Proof.
  intros (_ & _ & ->). unfold new_handle. rewrite lookup_fmap, map_size_fmap.
  intros [Hx%bool_decide_eq_true Hs%Z.ltb_lt]%andb_prop. split; [|done]. by destruct (h_handles h !! x).
Qed.

Lemma live_refs c hs x l v w :
  counts c (λ l, refs l hs) → hs !! x = Some (Some l) → contents c (Some l) = w → w = Some v →
  c !! l = Some (refs l hs, v).
Proof.
  intros Hc Hx Hw ->. destruct (counts_live c _ l Hc (refs_pos l x hs Hx)) as [u Hu].
  cbn in Hw. rewrite Hu in Hw |- *. by injection Hw as ->.
Qed.

Lemma sim_new a h x v :
  sim a h → new_handle x a = true → ∃ h', ptr_new x v h = Some h' ∧ sim (<[x := Some v]> a) h'.
Proof.
  intros Hsim Hn. destruct (sim_new_handle a h x Hsim Hn) as [Hx Hsz]. destruct Hsim as (Hc & _ & ->).
  destruct (ref_new_spec (h_cells h) _ v Hc) as (E & Hc' & Hk & Hl).
  unfold ptr_new. rewrite E. eexists. split; [done|]. set (l := fresh _) in *. split; [|split]; cbn [h_cells h_handles].
  - eapply counts_ext; [|exact Hc']. intros l'. cbn. by rewrite refs_insert.
  - rewrite map_size_insert_None by done. lia.
  - rewrite fmap_insert. cbn. rewrite lookup_insert_eq. cbn. f_equal. symmetry. apply contents_ext. intros l' Hl'.
    destruct (decide (l' = l)) as [->|Hne]; [lia|]. by rewrite lookup_insert_ne.
Qed.

Lemma sim_copy a h x y w :
  sim a h → a !! y = Some w → new_handle x a = true →
  ∃ h', ptr_copy x y h = Some h' ∧ sim (<[x := w]> a) h'.
Proof.
  intros Hsim Hy Hn. destruct (sim_new_handle a h x Hsim Hn) as [Hx Hsz].
  destruct (sim_lookup a h y w Hsim Hy) as (d & Hd & ->). destruct Hsim as (Hc & _ & ->).
  destruct (ref_inc_spec (h_cells h) _ d Hc) as (c' & E & Hc' & Hv).
  { intros l ->. pose proof (refs_pos l y _ Hd). pose proof (refs_bound l (h_handles h)). lia. }
  unfold ptr_copy. rewrite Hd. cbn. rewrite E. cbn. eexists. split; [done|].
  split; [|split]; cbn [h_cells h_handles].
  - eapply counts_ext; [|exact Hc']. intros l'. cbn. by rewrite refs_insert.
  - rewrite map_size_insert_None by done. lia.
  - rewrite fmap_insert. f_equal; [destruct d; [cbn; by rewrite Hv|done]|].
    symmetry. apply contents_ext. intros l' _. apply Hv.
Qed.

Lemma sim_move a h x y w :
  sim a h → a !! y = Some w → new_handle x a = true →
  ∃ h', ptr_move x y h = Some h' ∧ sim (<[x := w]> (<[y := None]> a)) h'.
Proof.
  intros Hsim Hy Hn. destruct (sim_new_handle a h x Hsim Hn) as [Hx Hsz].
  destruct (sim_lookup a h y w Hsim Hy) as (d & Hd & ->). destruct Hsim as (Hc & _ & ->).
  assert (x ≠ y) as Hxy by congruence.
  unfold ptr_move. rewrite Hd. cbn. eexists. split; [done|]. split; [|split]; cbn [h_cells h_handles].
  - eapply counts_ext; [|exact Hc]. intros l'. cbn.
    rewrite refs_insert, (refs_update l' y d) by (done || by rewrite lookup_insert_ne). rewrite points_None. lia.
  - rewrite map_size_insert_None by by rewrite lookup_insert_ne.
    rewrite map_size_insert_Some by by eexists. lia.
  - by rewrite !fmap_insert.
Qed.

Lemma sim_drop a h x w :
  sim a h → a !! x = Some w → ∃ h', ptr_drop x h = Some h' ∧ sim (delete x a) h'.
Proof.
  intros Hsim Hx. destruct (sim_lookup a h x w Hsim Hx) as (d & Hd & ->). destruct Hsim as (Hc & Hsz & ->).
  destruct (ref_dec_spec (h_cells h) _ d Hc) as (c' & E & Hc' & Hv).
  { intros l ->. by eapply refs_pos. }
  assert (∀ l, refs l (h_handles h) - points d l = refs l (delete x (h_handles h))) as Hr.
  { intros l. rewrite (refs_delete l x d) by done. lia. }
  unfold ptr_drop. rewrite Hd. cbn. rewrite E. cbn. eexists. split; [done|]. split; [|split]; cbn [h_cells h_handles].
  - exact (counts_ext _ _ _ Hr Hc').
  - rewrite map_size_delete_Some by by eexists. lia.
  - rewrite <- fmap_delete. symmetry. apply contents_ext. intros l' Hl'. apply Hv. rewrite Hr. lia.
Qed.

Lemma sim_assign a h x y w v :
  sim a h → a !! x = Some v → a !! y = Some w → ∃ h', ptr_assign x y h = Some h' ∧ sim (<[x := w]> a) h'.
Proof.
  intros Hsim Hx Hy. destruct (sim_lookup a h x v Hsim Hx) as (d & Hd & ->).
  destruct (sim_lookup a h y w Hsim Hy) as (od & Hod & ->). unfold ptr_assign. rewrite Hd, Hod. cbn.
  case_bool_decide as Heq.
  { subst od. exists h. split; [done|]. by rewrite insert_id. }
  destruct Hsim as (Hc & Hsz & ->).
  destruct (ref_inc_spec (h_cells h) _ od Hc) as (c1 & E1 & Hc1 & Hv1).
  { intros l ->. pose proof (refs_pos l y _ Hod). pose proof (refs_bound l (h_handles h)).
    pose proof (refs_delete l x d _ Hd). pose proof (refs_bound l (delete x (h_handles h))).
    assert (points d l = 0) by (unfold points; by rewrite decide_False by congruence).
    rewrite map_size_delete_Some in * by by eexists. lia. }
  destruct (ref_dec_spec c1 _ d Hc1) as (c2 & E2 & Hc2 & Hv2).
  { intros l ->. pose proof (refs_pos l x _ Hd). pose proof (points_bound od l). lia. }
  rewrite E1. cbn. rewrite E2. cbn. eexists. split; [done|].
  assert (∀ l, refs l (h_handles h) + points od l - points d l = refs l (<[x := od]> (h_handles h))) as Hr.
  { intros l. rewrite (refs_update l x d) by done. lia. }
  assert (∀ l, 1 <= refs l (<[x := od]> (h_handles h)) → snd <$> c2 !! l = snd <$> h_cells h !! l) as Hag.
  { intros l Hl. rewrite Hv2, Hv1; [done|]. cbv beta. rewrite Hr. lia. }
  split; [|split]; cbn [h_cells h_handles].
  - exact (counts_ext _ _ _ Hr Hc2).
  - rewrite map_size_insert_Some by by eexists. done.
  - rewrite (contents_ext (h_cells h) c2) by done. by rewrite fmap_insert.
Qed.

Lemma sim_swap a h x y w v :
  sim a h → a !! x = Some v → a !! y = Some w →
  ∃ h', ptr_swap x y h = Some h' ∧ sim (<[y := v]> (<[x := w]> a)) h'.
Proof.
  intros Hsim Hx Hy. destruct (sim_lookup a h x v Hsim Hx) as (d & Hd & ->).
  destruct (sim_lookup a h y w Hsim Hy) as (od & Hod & ->). unfold ptr_swap. rewrite Hd, Hod. cbn.
  eexists. split; [done|]. destruct Hsim as (Hc & Hsz & ->). destruct (decide (x = y)) as [->|Hxy].
  - replace od with d in * by congruence. rewrite !insert_insert_eq, !insert_id by (done || by rewrite lookup_fmap, Hd). done.
  - split; [|split]; cbn [h_cells h_handles].
    + eapply counts_ext; [|exact Hc]. intros l. cbn.
      rewrite (refs_update l y od), (refs_update l x d) by (done || by rewrite lookup_insert_ne). lia.
    + rewrite !map_size_insert_Some; [done|by eexists|]. rewrite lookup_insert_ne by done. by eexists.
    + by rewrite !fmap_insert.
Qed.

(** After [detach] the handle is the only one of its record, which holds the
    value or a copy of it. *)
Lemma sim_detach a h x v :
  sim a h → a !! x = Some (Some v) →
  ∃ h' l v', ptr_detach x h = Some h' ∧ h_handles h' !! x = Some (Some l) ∧ h_cells h' !! l = Some (1, v') ∧
    (v' = v ∨ v' = clone v) ∧ sim (<[x := Some v']> a) h'.
Proof.
  intros Hsim Hx. destruct (sim_lookup a h x _ Hsim Hx) as (d & Hd & Hw).
  destruct d as [l|]; [|done]. pose proof Hsim as (Hc & Hsz & Ha).
  pose proof (live_refs _ _ x l v _ Hc Hd (eq_sym Hw) eq_refl) as Hl.
  unfold ptr_detach. rewrite Hd, bind_Some', Hl, bind_Some'. cbv beta iota.
  destruct (Z.eqb_spec (refs l (h_handles h)) 1) as [H1|Hn1]; cbn [negb].
  { exists h, l, v. rewrite Hl, H1. do 3 (split; [done|]). split; [by left|]. by rewrite insert_id. }
  destruct (ref_new_spec (h_cells h) _ (clone v) Hc) as (E & Hc1 & Hk & Hf). cbv beta iota zeta. rewrite E, bind_Some'.
  set (l' := fresh _) in *. assert (l ≠ l') as Hne by congruence.
  destruct (ref_dec_spec _ _ (Some l) Hc1) as (c2 & E2 & Hc2 & Hv2).
  { intros ? [= <-]. pose proof (refs_pos l x _ Hd). pose proof (points_bound (Some l') l). lia. }
  rewrite E2, bind_Some'.
  assert (∀ k, refs k (h_handles h) + points (Some l') k - points (Some l) k
               = refs k (<[x := Some l']> (h_handles h))) as Hr.
  { intros k. rewrite (refs_update k x (Some l)) by done. lia. }
  assert (counts c2 (λ k, refs k (<[x := Some l']> (h_handles h)))) as Hc3 by exact (counts_ext _ _ _ Hr Hc2).
  assert (refs l' (<[x := Some l']> (h_handles h)) = 1) as Hone.
  { rewrite <- Hr, Hk, points_eq, points_ne by done. lia. }
  destruct (counts_live _ _ l' Hc3 ltac:(lia)) as [u Hu]. rewrite Hone in Hu.
  assert (u = clone v) as ->.
  { pose proof (Hv2 l') as Hx2. cbv beta in Hx2. rewrite Hr, Hone, Hu, lookup_insert_eq in Hx2. by injection (Hx2 ltac:(done)) as ->. }
  eexists (mkHeap c2 _), l', (clone v). split; [done|]. cbn [h_handles h_cells].
  rewrite lookup_insert_eq. do 2 (split; [done|]). split; [by right|]. split; [exact Hc3|].
  cbn [h_handles h_cells]. split; [by rewrite map_size_insert_Some by by eexists|].
  rewrite fmap_insert. cbn. rewrite Hu. cbn. rewrite Ha.
  apply map_eq. intros y. destruct (decide (y = x)) as [->|Hxy]; [by rewrite !lookup_insert_eq|].
  rewrite !lookup_insert_ne, !lookup_fmap by done. destruct (h_handles h !! y) as [[k|]|] eqn:Hy; [|done..].
  cbn. f_equal. assert (1 <= refs k (<[x := Some l']> (h_handles h))) as Hkp.
  { apply (refs_pos k y). by rewrite lookup_insert_ne. }
  assert (k ≠ l') as Hkl by (intros ->; pose proof (refs_pos l' y _ Hy); lia).
  pose proof (Hv2 k) as Hx2. cbv beta in Hx2. rewrite Hr, lookup_insert_ne in Hx2 by done. symmetry. apply Hx2. lia.
Qed.

(** Writing a record that one handle points to. *)
Lemma sim_write_own a h x l v u :
  sim a h → h_handles h !! x = Some (Some l) → h_cells h !! l = Some (1, v) →
  sim (<[x := Some u]> a) (mkHeap (<[l := (1, u)]> (h_cells h)) (h_handles h)).
Proof.
  intros (Hc & Hsz & ->) Hx Hl. pose proof (Hc l) as Hone. rewrite Hl in Hone. destruct Hone as [Hone _].
  split; [|split]; cbn [h_cells h_handles]; [|done|].
  - intros k. destruct (decide (k = l)) as [->|Hne]; [|rewrite lookup_insert_ne by done; apply Hc].
    rewrite lookup_insert_eq, <- Hone. lia.
  - apply map_eq. intros y. rewrite lookup_fmap. destruct (decide (y = x)) as [->|Hxy].
    { rewrite lookup_insert_eq, Hx. cbn. by rewrite lookup_insert_eq. }
    rewrite lookup_insert_ne, lookup_fmap by done. destruct (h_handles h !! y) as [[k|]|] eqn:Hy; [|done..].
    cbn. do 2 f_equal. rewrite lookup_insert_ne; [done|]. intros <-.
    pose proof (refs_delete l x _ _ Hx) as Hr. rewrite points_eq in Hr.
    pose proof (refs_pos l y (delete x (h_handles h))) as Hp. rewrite lookup_delete_ne in Hp by done.
    specialize (Hp Hy). lia.
Qed.

Lemma sim_write a h x guard f v :
  sim a h → a !! x = Some (Some v) → (guard v = true → f (clone v) = f v) →
  ∃ h', ptr_write x guard f h = Some h' ∧ sim (if guard v then <[x := Some (f v)]> a else a) h'.
Proof.
  intros Hsim Hx Hf. destruct (sim_lookup a h x _ Hsim Hx) as (d & Hd & Hw).
  destruct d as [l|]; [|done]. pose proof Hsim as (Hc & _).
  pose proof (live_refs _ _ x l v _ Hc Hd (eq_sym Hw) eq_refl) as Hl.
  unfold ptr_write, ptr_read. rewrite Hd. cbn. rewrite Hl. cbn. destruct (guard v); [|by exists h].
  destruct (sim_detach a h x v Hsim Hx) as (h' & l' & v' & E & Hx' & Hl' & Hv' & Hsim').
  rewrite E. cbn. rewrite Hx'. cbn. rewrite Hl'. cbn. eexists. split; [done|].
  replace (f v) with (f v') by (destruct Hv' as [->| ->]; auto).
  rewrite <- (insert_insert_eq a x (Some (f v')) (Some v')). by eapply sim_write_own.
Qed.

(** ** Properties *)

Section Refinement.
Context (ok : V → Prop).

(** Programs whose writes do not see the difference between a record and its
    copy, on the values that satisfy the invariant [ok]. *)
Definition op_ok (op : ptr_op) : Prop :=
  match op with
  | Op_new _ v => ok v
  | Op_write _ guard f => ∀ v, ok v → guard v = true → f (clone v) = f v ∧ ok (f v)
  | _ => True
  end.

Definition values_ok (a : values) : Prop := ∀ x v, a !! x = Some (Some v) → ok v.

Lemma values_ok_insert x w a : values_ok a → (∀ v, w = Some v → ok v) → values_ok (<[x := w]> a).
Proof. intros Ha Hw y v [[-> ->]|[_ Hy]]%lookup_insert_Some; eauto. Qed.

Lemma values_ok_delete x a : values_ok a → values_ok (delete x a).
Proof. intros Ha y v [_ Hy]%lookup_delete_Some. eauto. Qed.

Lemma ptr_step_sim op a a' h :
  op_ok op → values_ok a → sim a h → val_step op a = Some a' →
  ∃ h', ptr_step op h = Some h' ∧ sim a' h' ∧ values_ok a'.
Proof.
  assert (∀ (P : option heap) a', (∃ h', P = Some h' ∧ sim a' h') → values_ok a' →
            ∃ h', P = Some h' ∧ sim a' h' ∧ values_ok a') as Hfin
    by (intros P b (h' & E & Hsim) Hb; eauto).
  intros Hop Ha Hs. destruct op as [x v|x y|x y|x|x y|x y|x g f]; cbn [val_step ptr_step op_ok] in *.
  - destruct (new_handle x a) eqn:Hn; [|done]. intros [= <-]. apply Hfin; [by apply sim_new|].
    apply values_ok_insert; [done|]. by intros ? [= <-].
  - destruct (a !! y) as [w|] eqn:Hy; [|done]. rewrite bind_Some'. destruct (new_handle x a) eqn:Hn; [|done].
    intros [= <-]. apply Hfin; [by apply sim_copy|]. apply values_ok_insert; [done|]. intros v ->. eauto.
  - destruct (a !! y) as [w|] eqn:Hy; [|done]. rewrite bind_Some'. destruct (new_handle x a) eqn:Hn; [|done].
    intros [= <-]. apply Hfin; [by apply sim_move|].
    apply values_ok_insert; [by apply values_ok_insert|]. intros v ->. eauto.
  - destruct (a !! x) as [w|] eqn:Hx; [|done]. rewrite bind_Some'. intros [= <-].
    apply Hfin; [by eapply sim_drop|]. by apply values_ok_delete.
  - destruct (a !! x) as [v|] eqn:Hx; [|done]. destruct (a !! y) as [w|] eqn:Hy; [|done]. rewrite !bind_Some'.
    intros [= <-]. apply Hfin; [by eapply sim_assign|]. apply values_ok_insert; [done|]. intros u ->. eauto.
  - destruct (a !! x) as [v|] eqn:Hx; [|done]. destruct (a !! y) as [w|] eqn:Hy; [|done]. rewrite !bind_Some'.
    intros [= <-]. apply Hfin; [by apply sim_swap|].
    apply values_ok_insert; [apply values_ok_insert; [done|]|]; intros u ->; eauto.
  - destruct (a !! x) as [[v|]|] eqn:Hx; [|done..]. rewrite !bind_Some'. intros [= <-].
    apply Hfin.
    + apply sim_write; [done|done|]. intros Hg. by apply Hop; eauto.
    + destruct (g v) eqn:Hg; [|done]. apply values_ok_insert; [done|]. intros ? [= <-]. by apply Hop; eauto.
Qed.

Lemma sim_empty : sim ∅ (mkHeap ∅ ∅).
Proof. split; [|done]. intros l. cbn [h_cells h_handles]. by rewrite lookup_empty. Qed.

(** Without handles there are no records. *)
Lemma sim_no_leak h : sim ∅ h → h_cells h = ∅.
Proof.
  intros (Hc & _ & Ha). symmetry in Ha. apply fmap_empty_inv in Ha. rewrite Ha in Hc. apply map_empty. intros l.
  specialize (Hc l). destruct (h_cells h !! l) as [[r v]|]; [|done].
  unfold refs in Hc. rewrite map_filter_empty, map_size_empty in Hc. lia.
Qed.

(** C18: a program on handles that is right for values runs on the shared records
    without touching a deleted one, and every handle reads the value it would
    have as an independent object; when all handles are gone, so are the
    records. *)
Theorem ptr_run_refines ops a :
  Forall op_ok ops → val_run ops ∅ = Some a →
  ∃ h, ptr_run ops (mkHeap ∅ ∅) = Some h ∧
    (∀ x, ptr_read x h = a !! x ≫= id) ∧ (a = ∅ → h_cells h = ∅).
Proof.
  intros Hops Hrun.
  assert (∃ h, ptr_run ops (mkHeap ∅ ∅) = Some h ∧ sim a h) as (h & E & Hs).
  { assert (values_ok ∅) as Hok by done. pose proof sim_empty as Hs. revert Hs Hok Hrun.
    generalize (∅ : values) (mkHeap ∅ ∅). induction Hops as [|op ops Hop _ IH]; intros b h Hs Hok Hrun.
    - injection Hrun as <-. by exists h.
    - cbn [val_run ptr_run] in *. destruct (val_step op b) as [b'|] eqn:Eb; [|done]. rewrite bind_Some' in Hrun.
      destruct (ptr_step_sim op b b' h Hop Hok Hs Eb) as (h' & -> & Hs' & Hok'). rewrite bind_Some'. by apply (IH b'). }
  exists h. split; [done|]. split; [|by intros ->; apply sim_no_leak].
  intros x. unfold ptr_read. destruct Hs as (_ & _ & ->). rewrite lookup_fmap.
  destruct (h_handles h !! x) as [[l|]|]; [|done..]. cbn. by destruct (h_cells h !! l) as [[r v]|].
Qed.

End Refinement.
End SharedData.

(** ** Transactions

    The copy constructor of [Transaction::priv] drops the seal and the
    identifier.  It is still the same to a program whether a transaction is
    shared: setters only write what is not sealed, and sealing overwrites what the
    copy lost. *)

Definition unsealed (t : Transaction) : bool := negb (t_read_only_ t).

(** Only sealed transactions have identifiers. *)
Definition transaction_ok (t : Transaction) : Prop :=
  t_read_only_ t = false → t_id_ t = TransactionID_default.

(** A setter of a field other than the seal and the identifier. *)
Definition setter (f : Transaction → Transaction) : Prop :=
  ∀ t, t_read_only_ (f t) = t_read_only_ t ∧ t_id_ (f t) = t_id_ t.

Lemma setter_ok x f : setter f → op_ok Transaction_clone transaction_ok (Op_write x unsealed f).
Proof.
  intros Hf t Ht Hu. unfold unsealed in Hu. destruct (t_read_only_ t) eqn:Hr; [done|].
  assert (Transaction_clone t = t) as Ec.
  { specialize (Ht Hr). destruct t. cbn in *. by subst. }
  rewrite Ec. split; [done|]. intros _. destruct (Hf t) as [_ ->]. by apply Ht.
Qed.

Lemma seal_ok x h i : op_ok Transaction_clone transaction_ok (Op_write x (λ _, true) (Transaction_update_id h i)).
Proof. intros t _ _. split; [done|]. by intros [=]. Qed.

Lemma set_amount_setter a : setter (Transaction_set_amount a).
Proof. intros t. unfold Transaction_set_amount. by destruct (t_read_only_ t) eqn:E. Qed.

Lemma ptr_run_refines_witness :
  let t := sample_transaction [] in
  ∃ h, ptr_run Transaction_clone
         [Op_new 0%nat t; Op_copy 1%nat 0%nat; Op_write 0%nat (λ _, true) (Transaction_update_id [] 0);
          Op_copy 2%nat 0%nat; Op_write 1%nat unsealed (Transaction_set_amount Amount_zero);
          Op_write 2%nat unsealed (Transaction_set_amount Amount_zero); Op_assign 0%nat 1%nat]
         (mkHeap ∅ ∅) = Some h ∧
    ptr_read 0%nat h = Some (Transaction_set_amount Amount_zero t) ∧
    ptr_read 2%nat h = Some (Transaction_update_id [] 0 t).
Proof.
  intros t.
  destruct (ptr_run_refines Transaction_clone transaction_ok
    [Op_new 0%nat t; Op_copy 1%nat 0%nat; Op_write 0%nat (λ _, true) (Transaction_update_id [] 0);
     Op_copy 2%nat 0%nat; Op_write 1%nat unsealed (Transaction_set_amount Amount_zero);
     Op_write 2%nat unsealed (Transaction_set_amount Amount_zero); Op_assign 0%nat 1%nat]
    (<[0%nat := Some (Transaction_set_amount Amount_zero t)]>
     (<[2%nat := Some (Transaction_update_id [] 0 t)]>
      {[1%nat := Some (Transaction_set_amount Amount_zero t)]}))) as (h & E & Hr & _).
  - repeat (apply Forall_cons; split); try exact I; [by intros _|apply seal_ok|apply setter_ok, set_amount_setter..|constructor].
  - vm_compute. reflexivity.
  - exists h. split; [exact E|]. by rewrite !Hr.
Defined.
