(* ===== verification/SortedSet.v ===== *)
(** * SortedSet: sets as sorted arrays of bytes

    [csdb/include/csdb/internal/sorted_array_set.h]: a set of elements of equal
    size, laid out one after the other in a byte array in lexicographic order and
    searched by bisection.  The class works on byte offsets; [chunks] gives the
    elements as a list, on which the theorems are stated.  The class
    template [sorted_array_set_t] does the same with an array of elements and the
    algorithms of the standard library. *)

From Equations Require Import Equations.
From stdpp Require Import sorting.
From S2P Require Import Prelude.

(** ** The class *)

(** [sorted_array_set] *)
Record sorted_array_set := mkSet { elements : byte_array; elementsCount : nat; elementSize : nat }.

(** [Comparator::operator()] on the elements at two places: the
    [lexicographical_compare] of their bytes. *)
Definition Comparator (l r : byte_array) : bool := bytes_ltb l r.

(** The bytes of the element that starts at an offset. *)
Definition element_at (data : byte_array) (size it : nat) : byte_array := take size (drop it data).

Definition half (n : nat) : nat := Nat.div n 2.

Lemma half_lt n : (half (S n) < S n)%nat.
Proof. apply Nat.div_lt; lia. Qed.

(** [lower_bound]: [first] is an offset in bytes, [count] a number of elements. *)
#[local] Obligation Tactic := idtac.
Equations lower_bound (data : byte_array) (size : nat) (val : byte_array) (first count : nat) : nat by wf count lt :=
lower_bound data size val first 0 := first;
lower_bound data size val first (S n) with Comparator (element_at data size (first + half (S n) * size)) val := {
  | true => lower_bound data size val (first + half (S n) * size + size) (S n - (half (S n) + 1));
  | false => lower_bound data size val first (half (S n)) }.
Next Obligation. intros. lia. Qed.
Next Obligation. intros. apply half_lt. Qed.

(** [find]: the index of the element, or [size()] *)
Definition set_find (s : sorted_array_set) (element : byte_array) : nat :=
  let length := (elementsCount s * elementSize s)%nat in
  let it := lower_bound (elements s) (elementSize s) element 0 (Nat.div length (elementSize s)) in
  if (it =? length)%nat then elementsCount s
  else if bytes_eqb (element_at (elements s) (elementSize s) it) element then Nat.div it (elementSize s)
  else elementsCount s.

Definition set_getIndex (s : sorted_array_set) (element : byte_array) : nat := set_find s element.

Definition set_contains (s : sorted_array_set) (element : byte_array) : bool :=
  negb (set_getIndex s element =? elementsCount s)%nat.

(** [operator[]] *)
Definition set_at (s : sorted_array_set) (index : nat) : byte_array :=
  element_at (elements s) (elementSize s) (index * elementSize s).

(** ** Elements *)

(** The elements of an array. *)
Fixpoint chunks (size n : nat) (data : byte_array) : list byte_array :=
  match n with
  | O => []
  | S n => take size data :: chunks size n (drop size data)
  end.

(** [std::is_sorted] with a strict comparison: no element is less than the one
    before it. *)
Fixpoint std_is_sorted (l : list byte_array) : bool :=
  match l with
  | a :: (b :: _) as l' => negb (Comparator b a) && std_is_sorted l'
  | _ => true
  end.

(** [isSorted] *)
Definition set_isSorted (size : nat) (ptr : byte_array) (n : nat) : bool := std_is_sorted (chunks size n ptr).

(** The order in which [sort] arranges the elements. *)
Definition not_after (a b : byte_array) : Prop := Comparator b a = false.

#[export] Instance not_after_dec : RelDecision not_after.
Proof. intros a b. unfold not_after. apply _. Defined.

(** [sort]; what [std::sort] leaves in the array is determined, since elements
    that compare equal are equal. *)
Definition set_sort (size : nat) (ptr : byte_array) (n : nat) : byte_array :=
  concat (merge_sort not_after (chunks size n ptr)).

(** ** The class template *)

(** [std::lower_bound]: the first element that is not less. *)
Fixpoint std_lower_bound (l : list byte_array) (val : byte_array) : nat :=
  match l with
  | [] => 0
  | x :: l' => if Comparator x val then S (std_lower_bound l' val) else 0
  end.

(** [sorted_array_set_t::find] *)
Definition set_t_find (l : list byte_array) (element : byte_array) : nat :=
  let it := std_lower_bound l element in
  match l !! it with
  | Some x => if bytes_eqb x element then it else length l
  | None => length l
  end.

Definition set_t_getIndex (l : list byte_array) (element : byte_array) : nat := set_t_find l element.

Definition set_t_contains (l : list byte_array) (element : byte_array) : bool :=
  negb (set_t_getIndex l element =? length l)%nat.

(** ** Lemmas *)

Lemma not_after_total a b : not_after a b → not_after b a → a = b.
Proof. unfold not_after, Comparator. intros H1 H2. by apply bytes_ltb_total. Qed.

Lemma ltb_not_after a b : Comparator a b = true → not_after a b.
Proof.
  unfold not_after, Comparator. intros H. destruct (bytes_ltb b a) eqn:E; [|done].
  pose proof (bytes_ltb_trans _ _ _ H E) as H2. by rewrite bytes_ltb_irrefl in H2.
Qed.

#[export] Instance not_after_trans : Transitive not_after.
Proof.
  intros a b c Hab Hbc. unfold not_after, Comparator in *. destruct (bytes_ltb c a) eqn:Hca; [|done].
  destruct (bytes_ltb b c) eqn:E.
  - by rewrite (bytes_ltb_trans _ _ _ E Hca) in Hab.
  - by rewrite (bytes_ltb_total _ _ E Hbc), Hca in Hab.
Qed.

#[export] Instance not_after_total_rel : Total not_after.
Proof.
  intros a b. unfold not_after at 1. destruct (Comparator b a) eqn:E; [right|by left]. by apply ltb_not_after.
Qed.

#[export] Instance not_after_antisymm : AntiSymm eq not_after.
Proof. intros a b. apply not_after_total. Qed.

Lemma std_is_sorted_spec l : std_is_sorted l = true ↔ StronglySorted not_after l.
Proof.
  split.
  - intros H. apply Sorted_StronglySorted; [apply _|]. induction l as [|a [|b l] IH]; [constructor|repeat constructor|].
    cbn [std_is_sorted] in H. apply andb_prop in H as [H1%negb_true_iff H2]. constructor; [by apply IH|]. by constructor.
  - intros H. induction H as [|a l Hl IH Ha]; [done|]. destruct l as [|b l]; [done|].
    change (negb (Comparator b a) && std_is_sorted (b :: l) = true). rewrite IH, andb_true_r. apply Forall_cons in Ha as [Ha _]. by apply negb_true_iff.
Qed.

(** In a sorted range the elements below a value come first. *)
Lemma std_lower_bound_partition l val i x :
  StronglySorted not_after l → l !! i = Some x →
  Comparator x val = bool_decide (i < std_lower_bound l val)%nat.
Proof.
  intros Hs. revert i. induction Hs as [|a l Hl IH Ha]; intros i Hi; [done|]. cbn [std_lower_bound].
  destruct (Comparator a val) eqn:E; destruct i as [|i]; cbn in Hi.
  - injection Hi as <-. rewrite E. symmetry. apply bool_decide_eq_true. lia.
  - rewrite (IH i Hi). apply bool_decide_ext. lia.
  - injection Hi as <-. by rewrite E.
  - rewrite bool_decide_eq_false_2 by lia. rewrite Forall_lookup in Ha. specialize (Ha i x Hi).
    unfold not_after, Comparator in *. destruct (bytes_ltb x val) eqn:E2; [|done].
    destruct (bytes_ltb a x) eqn:E3; [by rewrite (bytes_ltb_trans _ _ _ E3 E2) in E|].
    by rewrite (bytes_ltb_total _ _ E3 Ha), E2 in E.
Qed.

Lemma std_lower_bound_le l val : (std_lower_bound l val <= length l)%nat.
Proof. induction l as [|x l IH]; cbn; [lia|]. destruct (Comparator x val); lia. Qed.

Lemma chunks_lookup size n data i :
  (i < n)%nat → chunks size n data !! i = Some (element_at data size (i * size)).
Proof.
  revert data i. induction n as [|n IH]; intros data i Hi; [lia|]. cbn [chunks]. destruct i as [|i]; [done|].
  cbn [lookup list_lookup]. change (chunks size n (drop size data) !! i = Some (element_at data size (S i * size))).
  rewrite IH by lia. unfold element_at. by rewrite drop_drop.
Qed.

Lemma length_chunks size n data : length (chunks size n data) = n.
Proof. revert data. induction n as [|n IH]; intros data; [done|]. cbn. by rewrite IH. Qed.

(** The bisection finds the place that the scan finds. *)
Lemma lower_bound_spec data size val n k count :
  StronglySorted not_after (chunks size n data) →
  (k <= std_lower_bound (chunks size n data) val <= k + count)%nat → (k + count <= n)%nat →
  lower_bound data size val (k * size) count = (std_lower_bound (chunks size n data) val * size)%nat.
Proof.
  intros Hs. revert k. induction (lt_wf count) as [count _ IH]. intros k Hm Hn. destruct count as [|c].
  - simp lower_bound. f_equal. lia.
  - pose proof (half_lt c) as Hh. simp lower_bound.
    assert (chunks size n data !! (k + half (S c))%nat = Some (element_at data size (k * size + half (S c) * size))) as Hi.
    { rewrite chunks_lookup by lia. by rewrite Nat.mul_add_distr_r. }
    rewrite (std_lower_bound_partition _ val _ _ Hs Hi). case_bool_decide as Hlt; simp lower_bound; cbn [lower_bound_unfold_clause_2].
    + replace (k * size + half (S c) * size + size)%nat with ((k + half (S c) + 1) * size)%nat by lia.
      apply IH; lia.
    + apply IH; lia.
Qed.

Lemma StronglySorted_lookup_lt {A} (R : relation A) l i j x y :
  StronglySorted R l → l !! i = Some x → l !! j = Some y → (i < j)%nat → R x y.
Proof.
  intros Hs. revert i j. induction Hs as [|a l Hl IH Ha]; intros [|i] [|j] Hi Hj Hlt; try done; try lia; cbn in *.
  - injection Hi as ->. by apply (Forall_lookup_1 _ _ _ _ Ha Hj).
  - by apply (IH i j); [..|lia].
Qed.

Lemma set_t_find_spec l e :
  StronglySorted not_after l →
  if decide (e ∈ l) then l !! set_t_find l e = Some e ∧ ∀ j, (j < set_t_find l e)%nat → l !! j ≠ Some e
  else set_t_find l e = length l.
Proof.
  intros Hs. unfold set_t_find. case_decide as Hin.
  - apply list_elem_of_lookup in Hin as [j Hj]. pose proof (std_lower_bound_partition l e j e Hs Hj) as Hp.
    unfold Comparator in Hp. rewrite bytes_ltb_irrefl in Hp. symmetry in Hp. apply bool_decide_eq_false in Hp.
    pose proof (lookup_lt_Some _ _ _ Hj).
    destruct (lookup_lt_is_Some_2 l (std_lower_bound l e) ltac:(lia)) as [x Hx]. rewrite Hx.
    assert (x = e) as ->.
    { apply not_after_total.
      - destruct (decide (j = std_lower_bound l e)) as [->|Hne].
        + simplify_eq. unfold not_after, Comparator. apply bytes_ltb_irrefl.
        + by apply (StronglySorted_lookup_lt _ l (std_lower_bound l e) j); [..|lia].
      - unfold not_after. rewrite (std_lower_bound_partition l e _ x Hs Hx). apply bool_decide_eq_false. lia. }
    rewrite bytes_eqb_refl. split; [done|]. intros i Hi Hx2.
    pose proof (std_lower_bound_partition l e i e Hs Hx2) as Hp2. rewrite bool_decide_eq_true_2 in Hp2 by lia.
    unfold Comparator in Hp2. by rewrite bytes_ltb_irrefl in Hp2.
  - destruct (l !! std_lower_bound l e) as [x|] eqn:Hx; [|done].
    destruct (bytes_eqb x e) eqn:E; [|done]. apply bytes_eqb_eq in E as ->. destruct Hin. by eapply list_elem_of_lookup_2.
Qed.

Lemma set_find_scan s e :
  (0 < elementSize s)%nat → StronglySorted not_after (chunks (elementSize s) (elementsCount s) (elements s)) →
  set_find s e = set_t_find (chunks (elementSize s) (elementsCount s) (elements s)) e.
Proof.
  destruct s as [data n size]. cbn [elements elementsCount elementSize]. intros Hz Hs.
  unfold set_find, set_t_find. cbn [elements elementsCount elementSize]. rewrite Nat.div_mul by lia.
  pose proof (std_lower_bound_le (chunks size n data) e) as Hle. rewrite length_chunks in *.
  pose proof (lower_bound_spec data size e n 0 n Hs ltac:(lia) ltac:(lia)) as E. cbn [Nat.mul] in E. rewrite E.
  set (m := std_lower_bound _ _) in *. destruct (Nat.eqb_spec (m * size) (n * size)) as [Heq|Hne].
  - assert (m = n) as -> by nia. by rewrite lookup_ge_None_2 by (rewrite length_chunks; lia).
  - assert (m < n)%nat by (assert (m ≠ n) by (intros ->; done); lia).
    rewrite chunks_lookup by done. by rewrite Nat.div_mul by lia.
Qed.

Lemma chunks_concat size ls :
  Forall (λ e, length e = size) ls → chunks size (length ls) (concat ls) = ls.
Proof.
  induction 1 as [|e ls He _ IH]; [done|]. cbn [length chunks concat].
  rewrite (take_app_length' e _ size), (drop_app_length' e _ size) by done. by rewrite IH.
Qed.

Lemma chunks_size size n data :
  length data = (n * size)%nat → Forall (λ e, length e = size) (chunks size n data).
Proof.
  revert data. induction n as [|n IH]; intros data Hl; [constructor|]. cbn [chunks]. constructor.
  - rewrite length_take. lia.
  - apply IH. rewrite length_drop. lia.
Qed.

Lemma concat_size size (ls : list byte_array) :
  Forall (λ e, length e = size) ls → length (concat ls) = (length ls * size)%nat.
Proof. induction 1 as [|x ls Hx _ IH]; [done|]. cbn. rewrite length_app, IH, Hx. lia. Qed.

Lemma chunks_sort size n data :
  length data = (n * size)%nat → chunks size n (set_sort size data n) = merge_sort not_after (chunks size n data).
Proof.
  intros Hl. unfold set_sort. pose proof (merge_sort_Permutation not_after (chunks size n data)) as Hp.
  assert (n = length (merge_sort not_after (chunks size n data))) as En by (by rewrite Hp, length_chunks).
  rewrite En at 1. apply chunks_concat. rewrite Hp. by apply chunks_size.
Qed.

(** ** Properties *)

(** In a sorted array the bisection over bytes returns the index of the
    first element that equals the one looked for, or the number of elements when
    there is none; it agrees with the search of the class template, and
    [contains] decides membership. *)
Theorem set_search_correct s e :
  let l := chunks (elementSize s) (elementsCount s) (elements s) in
  (0 < elementSize s)%nat → set_isSorted (elementSize s) (elements s) (elementsCount s) = true →
  set_getIndex s e = set_t_getIndex l e ∧ set_contains s e = set_t_contains l e ∧
  (set_contains s e = true ↔ e ∈ l) ∧
  (e ∈ l → set_at s (set_getIndex s e) = e ∧ ∀ j, (j < set_getIndex s e)%nat → set_at s j ≠ e) ∧
  (e ∉ l → set_getIndex s e = elementsCount s).
Proof.
  intros l Hz Hs%std_is_sorted_spec. pose proof (set_find_scan s e Hz Hs) as Ef.
  pose proof (set_t_find_spec l e Hs) as Hf. fold l in Ef.
  unfold set_contains, set_t_contains, set_getIndex, set_t_getIndex. rewrite Ef.
  assert (length l = elementsCount s) as Hlen by apply length_chunks. rewrite <- Hlen.
  split; [done|]. split; [done|]. case_decide as Hin.
  - destruct Hf as [Hf Hmin]. pose proof (lookup_lt_Some _ _ _ Hf) as Hlt. split; [|split; [|done]].
    + rewrite negb_true_iff, Nat.eqb_neq. split; [done|]. intros _. lia.
    + intros _. unfold set_at. split.
      * rewrite Hlen in Hlt. pose proof (chunks_lookup (elementSize s) _ (elements s) _ Hlt) as Hx.
        fold l in Hx. rewrite Hf in Hx. by injection Hx.
      * intros j Hj Ej. apply (Hmin j Hj). unfold l. rewrite chunks_lookup by lia. by rewrite Ej.
  - rewrite Hf, Nat.eqb_refl. split; [split; [done|by intros]|]. split; [by intros|done].
Qed.

(** Sorting an array makes it a set with the elements of the array: it is
    sorted, and looking up an element answers whether it was in the array. *)
Theorem set_sort_correct size n data e :
  (0 < size)%nat → length data = (n * size)%nat →
  let s := mkSet (set_sort size data n) n size in
  length (set_sort size data n) = length data ∧ set_isSorted size (set_sort size data n) n = true ∧
  (set_contains s e = true ↔ e ∈ chunks size n data).
Proof.
  intros Hz Hl s. pose proof (chunks_sort size n data Hl) as Ec.
  assert (StronglySorted not_after (chunks size n (set_sort size data n))) as Hs
    by (rewrite Ec; apply StronglySorted_merge_sort; apply _).
  split; [|split].
  - unfold set_sort. rewrite (concat_size size); rewrite (merge_sort_Permutation not_after).
    + by rewrite length_chunks.
    + by apply chunks_size.
  - by apply std_is_sorted_spec.
  - unfold set_contains, set_getIndex. rewrite (set_find_scan s e) by done. cbn [elements elementsCount elementSize s].
    pose proof (set_t_find_spec _ e Hs) as Hf. rewrite <- (merge_sort_Permutation not_after (chunks size n data)), <- Ec.
    rewrite negb_true_iff, Nat.eqb_neq. case_decide as Hin.
    + destruct Hf as [Hf _]. apply lookup_lt_Some in Hf. rewrite length_chunks in Hf. split; [done|]. intros _. lia.
    + rewrite Hf, length_chunks. done.
Qed.

Lemma set_search_correct_witness : set_contains (mkSet [1; 0; 1; 2; 3; 3] 3 2) [1; 2] = true.
Proof.
  destruct (set_search_correct (mkSet [1; 0; 1; 2; 3; 3] 3 2) [1; 2]) as (_ & _ & H & _).
  - cbn. lia.
  - vm_compute. reflexivity.
  - apply H. apply (bool_decide_unpack _). vm_compute. exact I.
Defined.

Lemma set_sort_correct_witness :
  set_contains (mkSet (set_sort 2 [3; 3; 1; 2; 1; 0] 3) 3 2) [1; 2] = true.
Proof.
  destruct (set_sort_correct 2 3 [3; 3; 1; 2; 1; 0] [1; 2]) as (_ & _ & H).
  - lia.
  - reflexivity.
  - apply H. apply (bool_decide_unpack _). vm_compute. exact I.
Defined.
